(* ===== verification/_CoqProject ===== *)
-Q . S2P
Prelude.v
Decisions.v
Hold.v
Float64.v
Obs.v
Sliding.v
Wait.v
Limiter.v
Compose.v
Circuit.v
Boxed.v
Client.v
SlidingWait.v
Event.v
Bulkhead.v
Adaptive.v
AdaptiveWait.v
Resume.v
Backoff.v
Bucket.v
Throttle.v
Retry.v
Ordered.v
Queue.v
Schedule.v
Turns.v
TurnOrder.v
Text.v
TimeUtil.v
RetryAfter.v
Provider.v
HashTable.v
Eviction.v
Ledger.v
Shard.v
Store.v
PerKey.v
Multi.v
Sync.v
Hybrid.v
Prompt.v
Layered.v
Acquire.v
PerKeyWait.v
Resilience.v
Presets.v
Calls.v
Parking.v
BulkheadCalls.v
QueueDepth.v
Gauges.v
Tower.v
Services.v
AdaptiveTower.v
Reports.v
