(* ===== verification/Prelude.v ===== *)
(** * throttle-net: verification of the client-side rate-limiting library

    A model of the Rust crate under src/src/ and the theorems that make it
    correct. The definitions follow the code operation by operation, guards and
    early returns included; each file names the source file it models.

    ** The program

    A caller asks a limiter for units before it calls a remote service. The
    limiters (token-bucket throttle, sliding-window log, adaptive limiter,
    circuit breaker) implement one trait, [Limiter] (limiter.rs); composites
    take from several limiters at once through the all-or-nothing helpers of
    the same file. A caller that waits does so in the waiting engine (wait.rs),
    a loop of "take, or be told how long to sleep" that survives races,
    deadlines, pauses and cancellation. The bulkhead bounds concurrency, the
    waiting queue orders callers in front of a limiter, and the retry driver
    repeats an operation under a backoff policy and a shared budget.

    ** The development

    - Prelude.v: machine integers as [Z] with their saturation and wrap-around
      written out, [Duration] as nanoseconds, sums, runs of a step function,
      and state-passing operations [M W A] with their notation.
    - Decisions.v (decision.rs, error.rs): outcomes and errors as values.
    - Hold.v (hold.rs): the pause word.
    - Float64.v: the [f64] of the language, over the Standard Library's
      executable specification of binary floating point.
    - Ordered.v: [BTreeMap] and [BTreeSet] as finite maps and sets with their
      first and last element.
    - Limiter.v (limiter.rs): the trait as a record of operations on a world,
      its provided methods, its forwarding impls, and the composition helpers.
    - Sliding.v (sliding.rs): the log of grants, its pruning, waits, refunds.
    - Wait.v (wait.rs, rt.rs): the waiting engine as a state machine whose
      segments run between two awaits; anything may happen to the world in
      between, and the future may be dropped at any await. A sleep that
      listens for resumes may be woken at any time here, which allows every
      wake-up of the runtime and more.
    - Resume.v (rt.rs, hold.rs): the accesses of a resume and of a sleeping
      waiter taken apart and interleaved: which wake-ups are not missed.
    - Compose.v (limiter.rs): [step_all] and [release_all], the client that
      composites run in the engine, with a ledger of what they took.
    - Circuit.v, Client.v, Calls.v (circuit.rs): the breaker's state machine,
      permits, trait implementation and builder, and runs of its critical
      sections, where a trait call is two of them; its waiting admission as
      another client of the engine; whole calls through it, polled and dropped
      in any order.
    - Event.v: the third-party event listener as a type class with laws, and
      the accounting of wake-ups that the two clients of it share.
    - Bulkhead.v (bulkhead.rs, sync.rs): every atomic access as one step of an
      interleaving of any number of threads, over the event's interface.
    - Parking.v, BulkheadCalls.v (bulkhead.rs, adaptive.rs): the loop in which
      both limiters of concurrency wait for a slot, as a future that is polled
      and dropped, with one rule for its polls; the bulkhead's acquires,
      permits and calls over it, which refine Bulkhead.v.
    - Adaptive.v (adaptive.rs): the strategies, the limiter, its permits, and
      its settles both as sequential operations and as interleaved accesses.
    - AdaptiveWait.v (adaptive.rs): its waiting acquires, notifications and
      cancellations as further steps around those accesses.
    - Backoff.v (backoff.rs): policies, jitter, the generator, bit for bit.
    - Bucket.v: the interface of the third-party token bucket as type classes
      with laws, and a concrete bucket that satisfies them.
    - Throttle.v (throttle.rs): the throttle over that interface.
    - Retry.v (retry.rs): the retry loop and the retry budget.
    - Queue.v, Schedule.v, Turns.v (queue.rs): the waiting queue's index and
      its operations; the index against a scan of the same state; the calls
      around it, interleaved at their lock and await points.
    - TurnOrder.v: whose turn it is according to the history of a run (who
      joined, and who was served), and that the queue agrees with it.
    - SlidingWait.v (sliding.rs): the log as a limiter, and its waiting acquire
      as a client of the engine.
    - Text.v: the language's string methods, on lists of code points.
    - TimeUtil.v, RetryAfter.v (timeutil.rs, retry_after.rs): calendar dates
      and the four forms of a [Retry-After] value.
    - Provider.v, Sync.v (provider.rs): rate-limit headers into windows, and
      limiters reconciled with them, over an interface of counted limiters
      that the throttle implements.
    - HashTable.v: the third-party hash table as type classes with laws, a
      concrete table, and the slot-index invariant the store's maps share.
    - Eviction.v (eviction.rs), Ledger.v, Shard.v, Store.v (store.rs): the
      eviction policy, the ledger of debts of forgotten keys, one shard, and
      the store; each locked section is one event of an interleaving.
    - PerKey.v (perkey.rs): one bucket per key over the store.
    - Multi.v, Hybrid.v, Layered.v (multi.rs, hybrid.rs, layered.rs): the three
      composites, over the helpers of Limiter.v and Compose.v.
    - Resilience.v (resilience.rs, rt.rs): [timeout], [fallback], [hedge] as
      polls over a world.
    - Presets.v (presets.rs): the published tiers.
    - Boxed.v, Prompt.v, Acquire.v, PerKeyWait.v (wait.rs and the acquires of
      its clients): polls of a whole waiting future, with nothing left to
      choose between its awaits; the limiters that answer a take at once with
      a wait that is long enough, as type classes the throttle, the composites
      and the per-key limiter implement; their timed acquires, from the first
      poll to the answer.
    - Tower.v, AdaptiveTower.v (tower.rs): the admission machine of the
      middleware services, the throttling, the circuit-breaker and the
      adaptive layer; what an acquiring future promises a service is a type
      class that the first two layers' futures implement.
    - Services.v (tower.rs): the layers as services around services; what a
      service promises a caller that keeps to its contract is a type class,
      and a layer over a service that keeps it keeps it.
    - Obs.v (obs.rs): names, timers and the hooks, under any choice of the two
      features; a call on the metrics or the tracing facade is an entry of a
      log, and a recorder's counters, samples and gauges are read off the log.
    - Gauges.v, QueueDepth.v (circuit.rs, adaptive.rs, queue.rs): the breaker's
      state machine, the limit of the adaptive limiter and the queue with the
      gauges they report as they move.
    - Reports.v: what each limiter, the bulkhead, the breaker's admissions and
      the retry loop report around their operations.

    State that callers share is a world that operations pass on; a handle on a
    limiter is its operations on the world, so two handles on one limiter share
    its state. Concurrency is a list of steps: a theorem quantifies over all
    lists, so over all interleavings. Clock readings are arguments.

    ** The theorems

    Safety under all interleavings: a sliding window never grants more than its
    limit and what was given back in the window; the bulkhead and the adaptive
    limiter count slots exactly; a breaker's trial slots stand for the trials
    that are out, exactly unless a report or a refund races a trait call
    between its critical sections, and calls through it, dropped wherever they
    are, never wedge it; a composite takes
    every share or none, whoever interferes and however deep composites nest;
    a waiting caller holds exactly its share when it is granted and nothing
    otherwise, cancelled or not; a middleware service spends one admission per
    request, and so does every layer of a stack of them; the services of an
    adaptive layer hold exactly the slots that are
    in flight; a store keeps one slot per key within its capacity, and in one
    that refuses newcomers when full a key that is limited stays limited
    through its own eviction. Exact answers: the
    wait a refusal reports, the time left of a pause, the report at which a
    breaker trips, the delays of a backoff policy (curve, bounds and draw of
    every jitter), what settling and reconciling leave, the outcome of a hedge,
    the counters and histograms against the outcomes they count (timeouts as
    far as they are answered as such), the state a breaker's gauge shows, the
    bounds between which a queue's depth gauge is. Progress: waits end at their
    deadline, a timed acquire of a throttle, a per-key limiter or a composite
    answers within a few polls of it with its units settled, a resume wakes
    the waiters that slept before it, a retry loop is a bounded number of
    rounds of attempt, withdrawal and sleep, the waiters of a bulkhead, of an
    adaptive limiter whose limit moves, and of a queue are woken.
    Equivalence and refinement: trip detectors against a rescan of the history,
    the queue's index against the history of arrivals and grants, a layered
    request against the composition helper, waiters of the adaptive limiter
    and calls of the bulkhead against their plain accesses, [peek] against
    [decide], but for a new key whose shard has no room.
    Round trips: dates and timestamps printed and parsed; errors: what a
    [Retry-After] value, a table of dimensions or a configuration is refused
    for. Where the code does not do what it promises, or its documentation says
    something else, a theorem shows the run.

    ** Bounds and fuel

    Loops that the code bounds by data have fuel computed from that data, and
    theorems that the fuel is enough: the pruning of a queue (one round per
    deadline), [charge] (one round per chunk), the retry loop (one round per
    attempt), the parser of duration strings (the length of the text), the
    admission machine (three rounds). Runs of queues and breakers are bounded
    by 2^64 steps, so that their 64-bit counters do not wrap. A poll of a
    boxed wait runs at most two of the engine's segments, which Boxed.v proves
    enough for calls that leave the resume epoch alone. Runs of resumes are
    bounded by the 2^64 values of that epoch.

    ** Not modelled

    [Debug] and [Display] texts, which decide nothing; the module declarations
    of the crate's root and the glue to a runtime's own sleep and yield; the
    metrics and tracing facades, the timers of the runtime, the event listener,
    the clock, the token bucket and the hash table, which are third-party code
    and appear as entries of a log, as interfaces or as arguments. *)

From Stdlib Require Export ZArith Lia.
From stdpp Require Export base option numbers tactics list.
From stdpp Require Import decidable.

#[global] Open Scope Z_scope.

(** ** Machine integers

    A Rust unsigned integer of width [w] is a [Z] in [0, 2^w - 1]; every
    operation the sources use is written out with its overflow behaviour. *)

Definition u8_max : Z := 255.
Definition u32_max : Z := 4294967295.
Definition u64_max : Z := 18446744073709551615.
Definition u128_max : Z := 340282366920938463463374607431768211455.
Definition i64_min : Z := -9223372036854775808.
Definition i64_max : Z := 9223372036854775807.

Definition is_u32 (x : Z) : Prop := 0 <= x <= u32_max.
Definition is_u64 (x : Z) : Prop := 0 <= x <= u64_max.

(** [a.saturating_add(b)] for a type whose largest value is [max]. *)
Definition sat_add (max a b : Z) : Z := Z.min max (a + b).
(** [a.saturating_sub(b)] for an unsigned type. *)
Definition sat_sub (a b : Z) : Z := Z.max 0 (a - b).
(** [a.saturating_mul(b)]. *)
Definition sat_mul (max a b : Z) : Z := Z.min max (a * b).
(** [a.checked_add(b)]. *)
Definition checked_add (max a b : Z) : option Z :=
  if a + b <=? max then Some (a + b) else None.
(** Wrapping arithmetic on [u64]: [wrapping_add], [wrapping_mul], and the
    plain operators of a release build. *)
Definition wrap64 (x : Z) : Z := x mod (u64_max + 1).
Definition wrap32 (x : Z) : Z := x mod (u32_max + 1).
(** [u64::try_from(x).unwrap_or(u64::MAX)] for an unsigned [x]. *)
Definition to_u64_or_max (x : Z) : Z := Z.min x u64_max.
(** The plain operators on [i64] in a release build. *)
Definition wrap_i64 (x : Z) : Z := (x - i64_min) mod (u64_max + 1) + i64_min.
(** [i64::checked_add], [checked_sub], [checked_mul]: the exact result, if it fits. *)
Definition checked_i64 (x : Z) : option Z := if (i64_min <=? x) && (x <=? i64_max) then Some x else None.
(** [i64::saturating_sub] *)
Definition i64_sat_sub (a b : Z) : Z := Z.max i64_min (Z.min i64_max (a - b)).
(** [x.clamp(lo, hi)] for [lo <= hi]. *)
Definition clamp (x lo hi : Z) : Z := if x <? lo then lo else if hi <? x then hi else x.

(** ** [core::time::Duration]

    A duration is its number of nanoseconds: [secs : u64] seconds and fewer
    than [10^9] further nanoseconds. *)

Abbreviation Duration := Z (only parsing).

Definition NANOS_PER_MILLI : Z := 1000000.
Definition NANOS_PER_SEC : Z := 1000000000.
Definition DURATION_ZERO : Duration := 0.
Definition DURATION_MAX : Duration := u64_max * NANOS_PER_SEC + 999999999.
Definition is_duration (d : Duration) : Prop := 0 <= d <= DURATION_MAX.

Definition from_nanos (n : Z) : Duration := n.
Definition from_millis (ms : Z) : Duration := ms * NANOS_PER_MILLI.
Definition from_secs (s : Z) : Duration := s * NANOS_PER_SEC.
Definition as_nanos (d : Duration) : Z := d.
Definition as_millis (d : Duration) : Z := d / NANOS_PER_MILLI.
Definition is_zero (d : Duration) : bool := d =? 0.
Definition dur_sat_add (a b : Duration) : Duration := sat_add DURATION_MAX a b.
Definition dur_sat_sub (a b : Duration) : Duration := sat_sub a b.

(** ** Tactics *)

Create HintDb throttle discriminated.
Create Rewrite HintDb machine.

(** Unfolds the machine-integer vocabulary and calls [lia]. *)
Ltac machine_unfold :=
  unfold dur_sat_add, dur_sat_sub, is_duration, DURATION_MAX, DURATION_ZERO,
    from_nanos, from_millis, from_secs, as_nanos, is_zero, to_u64_or_max,
    i64_sat_sub, clamp, sat_add, sat_sub, sat_mul, is_u32, is_u64, u8_max,
    u32_max, u64_max, u128_max, i64_min, i64_max, NANOS_PER_MILLI, NANOS_PER_SEC in *.
Ltac mlia := machine_unfold; lia.

(** Splits every boolean integer comparison in the goal or the hypotheses
    into its two arithmetic cases. *)
Ltac zcase :=
  repeat match goal with
  | |- context [?a <=? ?b] => destruct (Z.leb_spec a b)
  | |- context [?a <? ?b] => destruct (Z.ltb_spec a b)
  | |- context [?a =? ?b] => destruct (Z.eqb_spec a b)
  | H : context [?a <=? ?b] |- _ => destruct (Z.leb_spec a b)
  | H : context [?a <? ?b] |- _ => destruct (Z.ltb_spec a b)
  | H : context [?a =? ?b] |- _ => destruct (Z.eqb_spec a b)
  end.

(** ** Saturating arithmetic *)

Lemma sat_add_le max a b : sat_add max a b <= max.
Proof. mlia. Qed.

Lemma sat_add_exact max a b : a + b <= max -> sat_add max a b = a + b.
Proof. mlia. Qed.

Lemma sat_sub_nonneg a b : 0 <= sat_sub a b.
Proof. mlia. Qed.

Lemma sat_sub_exact a b : b <= a -> sat_sub a b = a - b.
Proof. mlia. Qed.

Lemma to_u64_or_max_id x : x <= u64_max -> to_u64_or_max x = x.
Proof. mlia. Qed.

Lemma to_u64_or_max_range x : 0 <= x -> is_u64 (to_u64_or_max x).
Proof. mlia. Qed.

Lemma wrap64_small x : is_u64 x -> wrap64 x = x.
Proof. intros. unfold wrap64. apply Z.mod_small. mlia. Qed.

Lemma wrap_i64_small x : i64_min <= x <= i64_max -> wrap_i64 x = x.
Proof. intros. unfold wrap_i64. rewrite Z.mod_small; mlia. Qed.

Lemma checked_i64_small x : i64_min <= x <= i64_max -> checked_i64 x = Some x.
Proof. intros [H1 H2]. unfold checked_i64. by rewrite !(proj2 (Z.leb_le _ _)). Qed.

Lemma clamp_range x lo hi : lo <= hi -> lo <= clamp x lo hi <= hi.
Proof. unfold clamp. zcase; lia. Qed.

Lemma clamp_id x lo hi : lo <= x <= hi -> clamp x lo hi = x.
Proof. unfold clamp. zcase; lia. Qed.

#[export] Hint Resolve sat_add_le sat_sub_nonneg clamp_range to_u64_or_max_range : throttle.
#[export] Hint Rewrite sat_add_exact sat_sub_exact to_u64_or_max_id wrap64_small
  using (solve [mlia]) : machine.

(** ** Sums over lists *)

Definition sum_with {A} (f : A -> Z) (l : list A) : Z := foldr (fun x acc => f x + acc) 0 l.
#[global] Arguments sum_with : simpl never.

Lemma sum_with_cons {A} (f : A -> Z) x l : sum_with f (x :: l) = f x + sum_with f l.
Proof. reflexivity. Qed.

Lemma sum_with_singleton {A} (f : A -> Z) x : sum_with f [x] = f x.
Proof. rewrite sum_with_cons. apply Z.add_0_r. Qed.

Lemma sum_with_app {A} (f : A -> Z) l k : sum_with f (l ++ k) = sum_with f l + sum_with f k.
Proof. induction l as [|x l IH]; [done|]. simpl. rewrite !sum_with_cons. lia. Qed.

Lemma sum_with_nonneg {A} (f : A -> Z) l : Forall (fun x => 0 <= f x) l -> 0 <= sum_with f l.
Proof. induction 1; [done|]. rewrite sum_with_cons. lia. Qed.

Lemma sum_with_fmap {A B} (f : B -> Z) (g : A -> B) l : sum_with f (g <$> l) = sum_with (fun x => f (g x)) l.
Proof. induction l as [|x l IH]; [done|]. rewrite fmap_cons, !sum_with_cons. by rewrite IH. Qed.

Lemma sum_with_le {A} (f g : A -> Z) l : (forall x, f x <= g x) -> sum_with f l <= sum_with g l.
Proof. intros Hf. induction l as [|x l IH]; [done|]. rewrite !sum_with_cons. specialize (Hf x). lia. Qed.

Lemma sum_with_zero {A} (f : A -> Z) l : Forall (fun x => f x = 0) l -> sum_with f l = 0.
Proof. induction 1 as [|x l Hx _ IH]; [done|]. rewrite sum_with_cons. lia. Qed.

Lemma sum_with_insert {A} (f : A -> Z) (l : list A) i x y :
  l !! i = Some x -> sum_with f (<[i := y]> l) = sum_with f l - f x + f y.
Proof.
  revert i. induction l as [|z l IH]; intros [|i] Hi; simplify_eq/=; rewrite !sum_with_cons; [lia|].
  rewrite (IH i) by done. lia.
Qed.

Lemma sum_with_bound {A} (f : A -> Z) (l : list A) i x :
  (forall y, 0 <= f y) -> l !! i = Some x -> f x <= sum_with f l.
Proof.
  intros Hf. revert i. induction l as [|z l IH]; intros [|i] Hi; simplify_eq/=; rewrite sum_with_cons.
  - assert (0 <= sum_with f l); [|lia]. apply sum_with_nonneg. by apply Forall_true.
  - specialize (IH i Hi). specialize (Hf z). lia.
Qed.

(** ** Step relations *)

(** Reachability by a labelled step function: running a list of operations
    from left to right. *)
Definition run {S O} (step : S -> O -> S) (s : S) (ops : list O) : S := foldl step s ops.

#[global] Arguments run : simpl never.

Lemma run_cons {S O} (step : S -> O -> S) s o ops :
  run step s (o :: ops) = run step (step s o) ops.
Proof. reflexivity. Qed.

Lemma run_app {S O} (step : S -> O -> S) s o1 o2 :
  run step s (o1 ++ o2) = run step (run step s o1) o2.
Proof. apply foldl_app. Qed.

(** Rule induction for invariants over a run. *)
Lemma run_invariant {S O} (step : S -> O -> S) (P : S -> Prop) (ok : O -> Prop) s ops :
  P s -> (forall s o, ok o -> P s -> P (step s o)) -> Forall ok ops -> P (run step s ops).
Proof.
  intros Hs Hstep Hops. revert s Hs.
  induction Hops as [|o ops Ho _ IH]; intros s Hs; [done|]. rewrite run_cons. auto.
Qed.

(** ** Filters *)

Lemma Forall_filter_keep {A} (P Q : A -> Prop) `{!forall x, base.Decision (Q x)} (l : list A) :
  Forall P l -> Forall P (filter Q l).
Proof.
  induction 1 as [|x l Hx _ IH]; [constructor|].
  rewrite filter_cons. case_decide; [by constructor|done].
Qed.

Lemma filter_id {A} (P : A -> Prop) `{!forall x, base.Decision (P x)} (l : list A) :
  Forall P l -> filter P l = l.
Proof. induction 1 as [|x l Hx _ IH]; [done|]. rewrite filter_cons_True by done. by rewrite IH. Qed.

Lemma filter_nothing {A} (P : A -> Prop) `{!forall x, base.Decision (P x)} (l : list A) :
  Forall (fun x => ~ P x) l -> filter P l = [].
Proof. induction 1 as [|x l Hx _ IH]; [done|]. by rewrite filter_cons_False. Qed.

Lemma filter_ext_in {A} (P Q : A -> Prop) `{!forall x, base.Decision (P x)}
    `{!forall x, base.Decision (Q x)} (l : list A) :
  Forall (fun x => P x <-> Q x) l -> filter P l = filter Q l.
Proof.
  induction 1 as [|x l Hx _ IH]; [done|]. rewrite !filter_cons, IH.
  repeat case_decide; tauto.
Qed.

(** ** Stateful operations

    An operation on shared state [W] returns its value and the new state. The
    state is the world of a whole program: every limiter, clock and atomic of
    it, so two handles on one limiter share one piece of it. *)

Definition M (W A : Type) : Type := W -> A * W.
Definition mret {W A} (a : A) : M W A := fun w => (a, w).
Definition mthen {W A B} (m : M W A) (k : A -> M W B) : M W B :=
  fun w => let '(a, w') := m w in k a w'.

Declare Scope throttle_scope.
#[global] Open Scope throttle_scope.
Notation "'let!' x := m 'in' k" := (mthen m (fun x => k))
  (at level 200, x pattern, m at level 100, k at level 200, right associativity,
   format "'[v' 'let!'  x  :=  m  'in' '/' k ']'") : throttle_scope.

Lemma mthen_run {W A B} (m : M W A) (k : A -> M W B) w :
  mthen m k w = k (m w).1 (m w).2.
Proof. unfold mthen. by destruct (m w). Qed.

(** [hoare P m Q]: from a state satisfying [P], [m] ends in a state and with
    a value satisfying [Q]. *)
Definition hoare {W A} (P : W -> Prop) (m : M W A) (Q : A -> W -> Prop) : Prop :=
  forall w, P w -> Q (m w).1 (m w).2.

Lemma hoare_ret {W A} (P : W -> Prop) (Q : A -> W -> Prop) a :
  (forall w, P w -> Q a w) -> hoare P (mret a) Q.
Proof. intros H w Hw. by apply H. Qed.

Lemma hoare_then {W A B} (P : W -> Prop) (R : A -> W -> Prop) (Q : B -> W -> Prop) m k :
  hoare P m R -> (forall a, hoare (R a) (k a) Q) -> hoare P (mthen m k) Q.
Proof. intros Hm Hk w Hw. rewrite mthen_run. apply Hk. by apply Hm. Qed.

Lemma hoare_weaken {W A} (P P' : W -> Prop) (Q Q' : A -> W -> Prop) m :
  hoare P' m Q' -> (forall w, P w -> P' w) -> (forall a w, Q' a w -> Q a w) -> hoare P m Q.
Proof. intros H HP HQ w Hw. auto. Qed.
