(* ===== verification/Decisions.v ===== *)
(** * Outcomes and errors (src/src/decision.rs, src/src/error.rs)

    The value a limiter returns without waiting, and the errors the waiting
    surface maps it to, with the retryability classification. *)

From stdpp Require Import strings.
From S2P Require Import Prelude.

(** ** [Decision] *)

Inductive Decision :=
  | Acquired
  | Retry (after : Duration)
  | Impossible.

#[export] Instance Decision_eq_dec : EqDecision Decision.
Proof. solve_decision. Defined.

Definition is_acquired (d : Decision) : bool :=
  match d with Acquired => true | _ => false end.

Definition retry_after (d : Decision) : option Duration :=
  match d with Retry after => Some after | _ => None end.

(** ** [ThrottleError] *)

Inductive ThrottleError :=
  | CostExceedsCapacity (cost capacity : Z)
  | CircuitOpen (open_retry_after : Duration)
  | QueueFull
  | DeadlineExceeded
  | BulkheadFull
  | InvalidConfig (reason : string)
  | UnknownDimension (index : nat)
  | NotReady.

#[export] Instance ThrottleError_eq_dec : EqDecision ThrottleError.
Proof. solve_decision. Defined.

(** [ForgeError::kind]: the variant's name. *)
Definition kind (e : ThrottleError) : string :=
  match e with
  | CostExceedsCapacity _ _ => "CostExceedsCapacity"
  | CircuitOpen _ => "CircuitOpen"
  | QueueFull => "QueueFull"
  | DeadlineExceeded => "DeadlineExceeded"
  | BulkheadFull => "BulkheadFull"
  | InvalidConfig _ => "InvalidConfig"
  | UnknownDimension _ => "UnknownDimension"
  | NotReady => "NotReady"
  end.

(** [ForgeError::is_retryable]: a spent deadline or a configuration mistake
    does not fix itself. *)
Definition is_retryable (e : ThrottleError) : bool :=
  match e with
  | CircuitOpen _ | QueueFull | BulkheadFull => true
  | CostExceedsCapacity _ _ | DeadlineExceeded | InvalidConfig _
  | UnknownDimension _ | NotReady => false
  end.

(** [Result<T, E>] of the sources. *)
Inductive Result (T E : Type) :=
  | Ok (value : T)
  | Err (error : E).
Arguments Ok {T E} value.
Arguments Err {T E} error.

Lemma is_acquired_true d : is_acquired d = true <-> d = Acquired.
Proof. destruct d; simpl; split; congruence. Qed.

Lemma is_acquired_false d : is_acquired d = false <-> d <> Acquired.
Proof. destruct d; simpl; split; congruence. Qed.

(** Every decision is exactly one of a grant, a wait, or a refusal. *)
Lemma decision_cases d :
  is_acquired d = true \/ is_Some (retry_after d) \/ d = Impossible.
Proof. destruct d; simpl; eauto. Qed.
