(* ===== verification/Hold.v ===== *)
(** * Pauses (src/src/hold.rs)

    A pause is one atomic [u64]: the end of the hold in nanoseconds since the
    owner's epoch, [0] for "not held". Each operation below is one atomic
    access of the source, so an interleaving of callers is a sequence of
    these operations. *)

From S2P Require Import Prelude.

(** [nanos_between(earlier, now)]: the clock library's
    [now.saturating_duration_since(earlier)] is an argument, the span
    [elapsed] it returned. *)
Definition nanos_between (elapsed : Duration) : Z := to_u64_or_max (as_nanos elapsed).

Record Hold := mkHold { until_ns : Z }.

Definition new : Hold := mkHold 0.

Definition is_set (h : Hold) : bool := negb (until_ns h =? 0).

Definition remaining (h : Hold) (now_ns : Z) : Duration :=
  from_nanos (sat_sub (until_ns h) now_ns).

(** [fetch_max] of the saturated end of the pause, which is at least 1. *)
Definition extend (h : Hold) (now_ns : Z) (duration : Duration) : Hold :=
  if is_zero duration then h
  else
    let span := to_u64_or_max (as_nanos duration) in
    let until := Z.max (sat_add u64_max now_ns span) 1 in
    mkHold (Z.max (until_ns h) until).

(** [swap(0) != 0]: the flag says whether waiters are to be woken. *)
Definition clear (h : Hold) : bool * Hold := (negb (until_ns h =? 0), mkHold 0).

Definition wf (h : Hold) : Prop := is_u64 (until_ns h).

Lemma wf_new : wf new.
Proof. unfold wf, new. simpl. mlia. Qed.

Lemma wf_extend h now_ns d : wf h -> 0 <= now_ns -> 0 <= d -> wf (extend h now_ns d).
Proof. unfold wf, extend. intros. destruct (is_zero d); [done|]. simpl. mlia. Qed.

Lemma remaining_nonneg h now_ns : 0 <= remaining h now_ns.
Proof. unfold remaining. mlia. Qed.

(** Extending is monotone: a shorter hold never shortens a longer one. *)
Lemma extend_until_ge h now_ns d : until_ns h <= until_ns (extend h now_ns d).
Proof. unfold extend. destruct (is_zero d); simpl; lia. Qed.

(** Two pauses commute, so the order in which racing callers reach the atomic
    does not matter. *)
Lemma extend_comm h n1 d1 n2 d2 :
  extend (extend h n1 d1) n2 d2 = extend (extend h n2 d2) n1 d1.
Proof. unfold extend. destruct (is_zero d1), (is_zero d2); simpl; f_equal; lia. Qed.

Lemma extend_remaining h now_ns d t :
  is_u64 now_ns -> 0 <= d -> now_ns + d <= u64_max -> now_ns <= t ->
  remaining (extend h now_ns d) t = Z.max (remaining h t) (sat_sub (now_ns + d) t).
Proof.
  unfold remaining, extend. intros Hn Hd Hs Ht.
  unfold is_zero. zcase; simpl; mlia.
Qed.

#[export] Hint Resolve wf_new wf_extend remaining_nonneg : throttle.
