(* ===== verification/Float64.v ===== *)
(** * [f64] arithmetic

    The sources use [f64] in a few places: a failure ratio, a backoff factor,
    a multiplicative decrease, a retry-budget ratio. A value is a binary64
    number of the Standard Library's IEEE 754 specification; conversions and
    methods follow Rust's [as] casts and [f64]'s documentation. *)

From Stdlib Require Import Floats.SpecFloat.
From S2P Require Import Prelude.

Definition f64 : Type := spec_float.

(** [x as f64] for an integer [x], rounding to nearest, ties to even. *)
Definition f64_of_Z (x : Z) : f64 := binary_normalize 53 1024 x 0 false.
Definition f64_mul (x y : f64) : f64 := SFmul 53 1024 x y.
Definition f64_div (x y : f64) : f64 := SFdiv 53 1024 x y.
Definition f64_add (x y : f64) : f64 := SFadd 53 1024 x y.
Definition f64_lt (x y : f64) : bool := SFltb x y.
Definition f64_le (x y : f64) : bool := SFleb x y.
Definition f64_is_nan (x : f64) : bool := match x with S754_nan => true | _ => false end.
Definition f64_is_finite (x : f64) : bool :=
  match x with S754_zero _ | S754_finite _ _ _ => true | _ => false end.

Definition f64_zero : f64 := S754_zero false.
Definition f64_one : f64 := f64_of_Z 1.

(** [x.clamp(lo, hi)]: a NaN stays NaN. *)
Definition f64_clamp (x lo hi : f64) : f64 :=
  if f64_lt x lo then lo else if f64_lt hi x then hi else x.

(** [x.max(y)]: a NaN operand loses. *)
Definition f64_max (x y : f64) : f64 :=
  if f64_is_nan x then y else if f64_is_nan y then x else if f64_lt x y then y else x.

(** The integer part, rounding toward zero. *)
Definition f64_trunc_Z (m : positive) (e : Z) : Z :=
  if 0 <=? e then Z.shiftl (Zpos m) e else Z.shiftr (Zpos m) (- e).

(** [x as uN]: truncates toward zero, saturates, and sends NaN to zero. *)
Definition f64_to_uint (max : Z) (x : f64) : Z :=
  match x with
  | S754_nan | S754_zero _ | S754_infinity true | S754_finite true _ _ => 0
  | S754_infinity false => max
  | S754_finite false m e => Z.min max (f64_trunc_Z m e)
  end.

(** [x.round() as uN] for the values the sources round: half-way cases go
    away from zero. *)
Definition f64_round_Z (m : positive) (e : Z) : Z :=
  if 0 <=? e then Z.shiftl (Zpos m) e
  else Z.shiftr (Zpos m + Z.shiftl 1 (- e - 1)) (- e).

Definition f64_round_to_uint (max : Z) (x : f64) : Z :=
  match x with
  | S754_nan | S754_zero _ | S754_infinity true | S754_finite true _ _ => 0
  | S754_infinity false => max
  | S754_finite false m e => Z.min max (f64_round_Z m e)
  end.

Lemma f64_to_uint_range max x : 0 <= max -> 0 <= f64_to_uint max x <= max.
Proof.
  intros Hm. destruct x as [|[]| |[] m e]; simpl; try lia.
  assert (0 <= f64_trunc_Z m e); [|lia].
  unfold f64_trunc_Z. zcase; [apply Z.shiftl_nonneg|apply Z.shiftr_nonneg]; lia.
Qed.

Lemma f64_round_to_uint_range max x : 0 <= max -> 0 <= f64_round_to_uint max x <= max.
Proof.
  intros Hm. destruct x as [|[]| |[] m e]; simpl; try lia.
  assert (0 <= f64_round_Z m e); [|lia].
  unfold f64_round_Z. zcase; [apply Z.shiftl_nonneg; lia|].
  apply Z.shiftr_nonneg. assert (0 <= Z.shiftl 1 (- e - 1)) by (apply Z.shiftl_nonneg; lia). lia.
Qed.

(** A NaN fails every comparison. *)
Lemma f64_le_nan x y : f64_le x y = true -> f64_is_nan x = false /\ f64_is_nan y = false.
Proof. destruct x, y; unfold f64_le, SFleb; simpl; auto; discriminate. Qed.

Lemma f64_clamp_not_nan x lo hi :
  f64_is_nan x = false -> f64_is_nan lo = false -> f64_is_nan hi = false ->
  f64_is_nan (f64_clamp x lo hi) = false.
Proof. intros. unfold f64_clamp. by repeat case_match. Qed.

(** The order on values that are not NaN is total. *)
Lemma f64_not_lt x y :
  f64_is_nan x = false -> f64_is_nan y = false -> f64_lt x y = false -> f64_le y x = true.
Proof.
  unfold f64_lt, f64_le, SFltb, SFleb.
  destruct x as [sx|[]| |[] mx ex], y as [sy|[]| |[] my ey]; simpl; intros; try done;
    rewrite (Z.compare_antisym ex ey); destruct (ex ?= ey) eqn:E; simpl in *; try done;
    change (Pos.compare_cont Eq ?a ?b) with (Pos.compare a b) in *;
    rewrite (Pos.compare_antisym mx my); by destruct (Pos.compare mx my).
Qed.

(** [clamp] lands in its bounds. *)
Lemma f64_clamp_range x lo hi :
  f64_is_nan x = false -> f64_is_nan lo = false -> f64_is_nan hi = false ->
  f64_le lo hi = true -> f64_le lo lo = true -> f64_le hi hi = true ->
  f64_le lo (f64_clamp x lo hi) = true /\ f64_le (f64_clamp x lo hi) hi = true.
Proof.
  intros Hx Hlo Hhi Hle Hl Hh. unfold f64_clamp.
  destruct (f64_lt x lo) eqn:E1; [done|]. destruct (f64_lt hi x) eqn:E2; [done|].
  split; by apply f64_not_lt.
Qed.

#[export] Hint Resolve f64_to_uint_range f64_round_to_uint_range : throttle.
