(* ===== verification/Obs.v ===== *)
(** * Observability (src/src/obs.rs)

    Instance names, and the hooks through which the limiters report: what each
    of them hands to the [metrics] and [tracing] facades, as entries of a log
    next to the world, under the features the crate is built with. *)

From stdpp Require Import strings.
From S2P Require Import Prelude Decisions Float64.

#[local] Open Scope string_scope.

(** ** Names *)

Definition DEFAULT_NAME : string := "default".

Inductive Value := Static (name : string) | Shared (name : string).
Inductive Cow := Borrowed (name : string) | Owned (name : string).

Record Label := mkLabel { value : option Value }.

Definition none : Label := mkLabel None.
Definition new (name : Cow) : Label :=
  mkLabel (Some (match name with Borrowed name => Static name | Owned name => Shared name end)).

Definition get (l : Label) : option string :=
  match value l with
  | None => None
  | Some (Static name) => Some name
  | Some (Shared name) => Some name
  end.

Definition as_str (l : Label) : string := default DEFAULT_NAME (get l).

(** The text of the [SharedString]. *)
Definition shared (l : Label) : string :=
  match value l with
  | None => DEFAULT_NAME
  | Some (Static name) => name
  | Some (Shared name) => name
  end.

(** ** What the facades are handed *)

Record Features := mkFeatures { metrics : bool; tracing : bool }.

Inductive Field := Text (s : string) | Number (n : Z) | Float (x : f64).
Inductive Level := TRACE | DEBUG | INFO | WARN.

Inductive Emission :=
  | Increment (metric : string) (labels : list (string * string)) (by_ : Z)
  | Record_ (metric : string) (labels : list (string * string)) (sample : f64)
  | Set_ (metric : string) (labels : list (string * string)) (reading : f64)
  | Event (level : Level) (fields : list (string * Field)) (message : string).

(** [Duration::as_secs_f64] *)
Definition as_secs_f64 (d : Duration) : f64 :=
  f64_add (f64_of_Z (d / NANOS_PER_SEC)) (f64_div (f64_of_Z (d mod NANOS_PER_SEC)) (f64_of_Z NANOS_PER_SEC)).

(** How a waiting acquire ended. *)
Inductive Waited := Granted | TimedOut | Refused.

#[export] Instance Waited_eq_dec : EqDecision Waited.
Proof. solve_decision. Defined.

Definition waited_as_str (w : Waited) : string :=
  match w with Granted => "granted" | TimedOut => "timed_out" | Refused => "refused" end.

Definition waited_of {T} (result : Result T ThrottleError) : Waited :=
  match result with
  | Ok _ => Granted
  | Err DeadlineExceeded => TimedOut
  | Err _ => Refused
  end.

(** Holds an instant only when a feature is on. *)
Record Timer := mkTimer { start : option Z }.

(** ** The hooks *)

Section Hooks.
Context {W : Type} (features : Features) (instant_now : W -> Z).
Abbreviation world := (W * list Emission)%type.

Definition emit (e : Emission) : M world unit := fun s => (tt, (s.1, (s.2 ++ [e])%list)).
Definition when (on : bool) (hook : M world unit) : M world unit := if on then hook else mret tt.

(** Code of the limiters, which emits nothing but through the hooks. *)
Definition unrecorded {A} (m : M W A) : M world A := fun s =>
  let '(a, w) := m s.1 in (a, (w, s.2)).

Definition timer_start : M world Timer := fun s =>
  (mkTimer (if metrics features || tracing features then Some (instant_now s.1) else None), s).

Definition secs (t : Timer) (s : world) : f64 :=
  as_secs_f64 (match start t with Some at_ => sat_sub (instant_now s.1) at_ | None => 0 end).

Definition by_kind (kind : string) (label : Label) : list (string * string) :=
  [("limiter", kind); ("name", shared label)].
Definition by_name (label : Label) : list (string * string) := [("name", shared label)].

Definition granted (kind : string) (label : Label) (cost : Z) : M world unit :=
  let! _ := when (metrics features) (emit (Increment "throttle_acquired_total" (by_kind kind label) 1)) in
  when (tracing features)
    (emit (Event TRACE [("limiter", Text kind); ("name", Text (as_str label)); ("cost", Number cost)] "granted")).

Definition denied (kind : string) (label : Label) : M world unit :=
  let! _ := when (metrics features) (emit (Increment "throttle_denied_total" (by_kind kind label) 1)) in
  when (tracing features)
    (emit (Event TRACE [("limiter", Text kind); ("name", Text (as_str label))] "denied")).

Definition attempt (kind : string) (label : Label) (cost : Z) (ok : bool) : M world unit :=
  if ok then granted kind label cost else denied kind label.

Definition waited (kind : string) (label : Label) (timer : Timer) (cost : Z) (outcome : Waited) : M world unit :=
  let! _ := when (metrics features)
    (let! _ := fun s => emit (Record_ "throttle_wait_duration" (by_kind kind label) (secs timer s)) s in
     match outcome with
     | Granted => emit (Increment "throttle_acquired_total" (by_kind kind label) 1)
     | TimedOut => emit (Increment "throttle_timeouts_total" (by_kind kind label) 1)
     | Refused => mret tt
     end) in
  when (tracing features) (fun s =>
    emit (Event DEBUG [("limiter", Text kind); ("name", Text (as_str label)); ("cost", Number cost);
                       ("outcome", Text (waited_as_str outcome)); ("wait_secs", Float (secs timer s))] "acquire") s).

Definition shed (kind : string) (label : Label) : M world unit :=
  let! _ := when (metrics features) (emit (Increment "throttle_shed_total" (by_kind kind label) 1)) in
  when (tracing features) (emit (Event DEBUG [("limiter", Text kind); ("name", Text (as_str label))] "shed")).

Definition circuit_state (label : Label) (from : option string) (to : string) (code : Z) : M world unit :=
  let! _ := when (metrics features) (emit (Set_ "throttle_circuit_state" (by_name label) (f64_of_Z code))) in
  when (tracing features)
    match from with
    | Some from => emit (Event INFO [("name", Text (as_str label)); ("from", Text from); ("to", Text to)]
                           "circuit breaker transition")
    | None => mret tt
    end.

Definition queue_depth (label : Label) (depth : Z) : M world unit :=
  when (metrics features) (emit (Set_ "throttle_queue_depth" (by_name label) (f64_of_Z depth))).

Definition queue_rejected (label : Label) (policy : string) : M world unit :=
  let! _ := when (metrics features)
    (emit (Increment "throttle_queue_rejected_total" [("name", shared label); ("policy", policy)] 1)) in
  when (tracing features)
    (emit (Event WARN [("name", Text (as_str label)); ("policy", Text policy)] "queue overflow")).

Definition adaptive_limit (label : Label) (old new : Z) : M world unit :=
  let! _ := when (metrics features) (emit (Set_ "throttle_rate_current" (by_name label) (f64_of_Z new))) in
  when (tracing features)
    (if negb (old =? new)%Z
     then emit (Event DEBUG [("name", Text (as_str label)); ("old", Number old); ("new", Number new)]
                  "adaptive limit changed")
     else mret tt).

Definition retried (label : Label) (attempt : Z) (delay : Duration) : M world unit :=
  let! _ := when (metrics features) (emit (Increment "throttle_retries_total" (by_name label) 1)) in
  when (tracing features)
    (emit (Event DEBUG [("name", Text (as_str label)); ("attempt", Number attempt);
                        ("delay_secs", Float (as_secs_f64 delay))] "retrying")).

Definition retry_budget_exhausted (label : Label) : M world unit :=
  let! _ := when (metrics features)
    (emit (Increment "throttle_retry_budget_exhausted_total" (by_name label) 1)) in
  when (tracing features) (emit (Event WARN [("name", Text (as_str label))] "retry budget exhausted")).

End Hooks.

(** ** The acquires around the hooks

    Every limiter's non-waiting attempt reports its outcome; every waiting
    one starts a timer at its first poll and reports when it ends. *)

(** A waiting acquire before its first poll, and after. *)
Inductive Watched (F : Type) := Unstarted (f : F) | Started (timer : Timer) (f : F).
Arguments Unstarted {F}. Arguments Started {F}.

Section Acquires.
Context {W : Type} (features : Features) (instant_now : W -> Z).
Abbreviation world := (W * list Emission)%type.

Definition attempted (kind : string) (label : Label) (cost : Z) (try_acquire : M W bool) : M world bool :=
  let! granted := unrecorded try_acquire in
  let! _ := attempt features kind label cost granted in mret granted.

Definition watched_poll {F A} (kind : string) (label : Label) (cost : Z)
    (poll : F -> M W (F * option (Result A ThrottleError))) (f : Watched F)
    : M world (Watched F * option (Result A ThrottleError)) :=
  let! (timer, f) :=
    match f with
    | Unstarted f => let! timer := timer_start features instant_now in mret (timer, f)
    | Started timer f => mret (timer, f)
    end in
  let! (f, r) := unrecorded (poll f) in
  match r with
  | None => mret (Started timer f, None)
  | Some result =>
      let! _ := waited features instant_now kind label timer cost (waited_of result) in
      mret (Started timer f, Some result)
  end.

End Acquires.

(** ** What a recorder shows *)

Definition counter (metric : string) (labels : list (string * string)) (log : list Emission) : Z :=
  sum_with (fun e => match e with
                     | Increment m l n => if bool_decide (m = metric /\ l = labels) then n else 0
                     | _ => 0
                     end) log.

Definition samples (metric : string) (labels : list (string * string)) (log : list Emission) : Z :=
  sum_with (fun e => match e with
                     | Record_ m l _ => if bool_decide (m = metric /\ l = labels) then 1 else 0
                     | _ => 0
                     end) log.

(** The last reading. *)
Definition gauge (metric : string) (labels : list (string * string)) (log : list Emission) : option f64 :=
  foldl (fun g e => match e with
                    | Set_ m l x => if bool_decide (m = metric /\ l = labels) then Some x else g
                    | _ => g
                    end) None log.

Lemma counter_app metric labels l k : counter metric labels (l ++ k)%list = counter metric labels l + counter metric labels k.
Proof. apply sum_with_app. Qed.

Lemma samples_app metric labels l k : samples metric labels (l ++ k)%list = samples metric labels l + samples metric labels k.
Proof. apply sum_with_app. Qed.

Lemma gauge_snoc metric labels log e : gauge metric labels (log ++ [e])%list =
  match e with
  | Set_ m l x => if bool_decide (m = metric /\ l = labels) then Some x else gauge metric labels log
  | _ => gauge metric labels log
  end.
Proof. unfold gauge. by rewrite foldl_app. Qed.

(** ** A hook writes at the end of the log, and nothing else *)

Definition writes {W} (m : M (W * list Emission) unit) (entries : W -> list Emission) : Prop :=
  forall s, m s = (tt, (s.1, (s.2 ++ entries s.1)%list)).

Section Writes.
Context {W : Type} (features : Features) (instant_now : W -> Z).

(** An attempt's entries, and a wait's. *)
Definition attempt_entries (kind : string) (label : Label) (cost : Z) (ok : bool) : list Emission :=
  ((if metrics features
    then [Increment (if ok then "throttle_acquired_total" else "throttle_denied_total") (by_kind kind label) 1] else []) ++
   (if tracing features
    then [if ok then Event TRACE [("limiter", Text kind); ("name", Text (as_str label)); ("cost", Number cost)] "granted"
          else Event TRACE [("limiter", Text kind); ("name", Text (as_str label))] "denied"] else []))%list.

Definition waited_entries (kind : string) (label : Label) (cost : Z) (outcome : Waited) (sample : f64) : list Emission :=
  ((if metrics features then
      Record_ "throttle_wait_duration" (by_kind kind label) sample ::
      match outcome with
      | Granted => [Increment "throttle_acquired_total" (by_kind kind label) 1]
      | TimedOut => [Increment "throttle_timeouts_total" (by_kind kind label) 1]
      | Refused => []
      end else []) ++
   (if tracing features
    then [Event DEBUG [("limiter", Text kind); ("name", Text (as_str label)); ("cost", Number cost);
                       ("outcome", Text (waited_as_str outcome)); ("wait_secs", Float sample)] "acquire"] else []))%list.

Lemma attempt_writes kind label cost ok :
  writes (W := W) (attempt features kind label cost ok) (fun _ => attempt_entries kind label cost ok).
Proof.
  intros [w log]. unfold attempt, granted, denied, attempt_entries, when, emit.
  destruct ok, (metrics features), (tracing features); simpl; rewrite ?mthen_run; simpl; unfold mret; simpl;
    by rewrite ?app_nil_r, <- ?app_assoc.
Qed.

Lemma waited_writes kind label timer cost outcome :
  writes (waited features instant_now kind label timer cost outcome)
    (fun w => waited_entries kind label cost outcome
       (as_secs_f64 (match start timer with Some at_ => sat_sub (instant_now w) at_ | None => 0 end))).
Proof.
  intros [w log]. unfold waited, waited_entries, when, emit. rewrite mthen_run.
  destruct (metrics features), (tracing features), outcome; simpl; rewrite ?mthen_run; simpl; unfold mret;
    by rewrite ?app_nil_r, <- ?app_assoc.
Qed.

End Writes.

(** ** Everything that is reported *)

(** The other reports. *)
Inductive Report :=
  | Shed (kind : string) (label : Label)
  | CircuitState (label : Label) (from : option string) (to : string) (code : Z)
  | QueueDepth (label : Label) (depth : Z)
  | QueueRejected (label : Label) (policy : string)
  | AdaptiveLimit (label : Label) (old new : Z)
  | Retried (label : Label) (attempt : Z) (delay : Duration)
  | BudgetExhausted (label : Label).

Definition report {W} (features : Features) (r : Report) : M (W * list Emission) unit :=
  match r with
  | Shed kind label => shed features kind label
  | CircuitState label from to code => circuit_state features label from to code
  | QueueDepth label depth => queue_depth features label depth
  | QueueRejected label policy => queue_rejected features label policy
  | AdaptiveLimit label old new => adaptive_limit features label old new
  | Retried label attempt delay => retried features label attempt delay
  | BudgetExhausted label => retry_budget_exhausted features label
  end.

(** How an acquire ended, and of which instance: an attempt with its answer,
    a wait with the error it failed with, if it failed. *)
Inductive Ended :=
  | Tried (kind name : string) (granted : bool)
  | WaitEnded (kind name : string) (failure : option ThrottleError).

#[export] Instance Ended_eq_dec : EqDecision Ended.
Proof. solve_decision. Defined.

Definition failure {A} (result : Result A ThrottleError) : option ThrottleError :=
  match result with Ok _ => None | Err e => Some e end.

Section Metered.
Context {W : Type} (features : Features) (instant_now : W -> Z).

(** Any acquires of any limiters, waits polled in any order or dropped,
    among any other reports: what has ended, and what has been recorded. *)
Inductive metered : list Ended -> W * list Emission -> Prop :=
  | met_new w : metered [] (w, [])
  | met_try kind label cost try_acquire h s : metered h s ->
      let r := attempted features kind label cost try_acquire s in
      metered (Tried kind (shared label) r.1 :: h) r.2
  | met_poll {F A} kind label cost (poll : F -> M W (F * option (Result A ThrottleError))) f h s : metered h s ->
      let r := watched_poll features instant_now kind label cost poll f s in
      metered (match r.1.2 with
               | Some result => WaitEnded kind (shared label) (failure result) :: h
               | None => h
               end) r.2
  | met_report r h s : metered h s -> metered h (report features r s).2
  | met_rest {A} (m : M W A) h s : metered h s -> metered h (unrecorded m s).2.

End Metered.

(** *** Counts *)

Definition tried (kind name : string) (ok : bool) (h : list Ended) : Z :=
  sum_with (fun e => if bool_decide (e = Tried kind name ok) then 1 else 0) h.

(** The waits of an instance that ended in one of the ways [p]. *)
Definition ended (kind name : string) (p : option ThrottleError -> Prop) `{forall f, base.Decision (p f)}
    (h : list Ended) : Z :=
  sum_with (fun e => match e with
    | WaitEnded k n f => if bool_decide (k = kind /\ n = name /\ p f) then 1 else 0
    | Tried _ _ _ => 0
    end) h.

Definition granted_ (f : option ThrottleError) : Prop := f = None.
Definition deadline_exceeded (f : option ThrottleError) : Prop := f = Some DeadlineExceeded.

#[export] Instance granted_decision f : base.Decision (granted_ f).
Proof. unfold granted_. apply _. Defined.
#[export] Instance deadline_exceeded_decision f : base.Decision (deadline_exceeded f).
Proof. unfold deadline_exceeded. apply _. Defined.

(** The metrics that the acquires share. *)
Record counts (log : list Emission) (kind name : string) (acquired denied timeouts waits : Z) : Prop := mkCounts {
  cn_acquired : counter "throttle_acquired_total" [("limiter", kind); ("name", name)] log = acquired;
  cn_denied : counter "throttle_denied_total" [("limiter", kind); ("name", name)] log = denied;
  cn_timeouts : counter "throttle_timeouts_total" [("limiter", kind); ("name", name)] log = timeouts;
  cn_waits : samples "throttle_wait_duration" [("limiter", kind); ("name", name)] log = waits }.

Lemma counts_app log es kind name a d t n a' d' t' n' :
  counts log kind name a d t n -> counts es kind name a' d' t' n' ->
  counts (log ++ es)%list kind name (a + a') (d + d') (t + t') (n + n').
Proof. intros [H1 H2 H3 H4] [G1 G2 G3 G4]. constructor; rewrite ?counter_app, ?samples_app; lia. Qed.

(** Computes the counts of given entries. *)
Ltac count_entries :=
  constructor; unfold counter, samples, sum_with; simpl; repeat case_bool_decide; destruct_and?; simplify_eq/=; (lia || naive_solver).

Definition is_ (a b : Ended) : Z := if bool_decide (a = b) then 1 else 0.

Lemma tried_cons kind name ok e h :
  tried kind name ok (e :: h) = is_ e (Tried kind name ok) + tried kind name ok h.
Proof. unfold tried, is_. by rewrite sum_with_cons. Qed.

Lemma is_wait k n f kind name ok : is_ (WaitEnded k n f) (Tried kind name ok) = 0.
Proof. done. Qed.

Lemma ended_cons kind name p `{forall f, base.Decision (p f)} e h :
  ended kind name p (e :: h) = ended kind name p [e] + ended kind name p h.
Proof. unfold ended. by rewrite sum_with_singleton, sum_with_cons. Qed.

Lemma ended_try kind name p `{forall f, base.Decision (p f)} k n ok h :
  ended kind name p (Tried k n ok :: h) = ended kind name p h.
Proof. unfold ended. by rewrite sum_with_cons. Qed.

Lemma counts_attempt features k label cost ok kind name :
  if metrics features
  then let e := Tried k (shared label) ok in
       counts (attempt_entries features k label cost ok) kind name
         (is_ e (Tried kind name true)) (is_ e (Tried kind name false)) 0 0
  else counts (attempt_entries features k label cost ok) kind name 0 0 0 0.
Proof.
  unfold attempt_entries, by_kind, is_. destruct (metrics features), (tracing features), ok; simpl; count_entries.
Qed.

Lemma counts_waited features k label cost {A} (result : Result A ThrottleError) sample kind name :
  if metrics features
  then let e := [WaitEnded k (shared label) (failure result)] in
       counts (waited_entries features k label cost (waited_of result) sample) kind name
         (ended kind name granted_ e) 0 (ended kind name deadline_exceeded e)
         (ended kind name (fun _ => True) e)
  else counts (waited_entries features k label cost (waited_of result) sample) kind name 0 0 0 0.
Proof.
  unfold waited_entries, by_kind, ended, granted_, deadline_exceeded.
  destruct (metrics features), (tracing features), result as [|[]]; simpl; count_entries.
Qed.

(** The other reports count nothing that the acquires count. *)
Lemma counts_report {W} features r kind name (s : W * list Emission) : exists es,
  (report features r s).2 = (s.1, (s.2 ++ es)%list) /\ counts es kind name 0 0 0 0.
Proof.
  destruct s as [w log].
  destruct r; simpl; unfold shed, circuit_state, queue_depth, queue_rejected, adaptive_limit, retried, retry_budget_exhausted, when, emit;
    destruct (metrics features), (tracing features); try destruct from; try destruct (negb _); rewrite ?mthen_run; simpl; unfold mret; simpl;
    (eexists; split; [rewrite <- ?app_assoc; first [reflexivity | by rewrite app_nil_r]|]; unfold by_kind; count_entries).
Qed.

(** The wait itself. *)
Definition inner {F} (f : Watched F) : F := match f with Unstarted f => f | Started _ f => f end.

(** A poll of a wait answers and does what the wait does, records the wait's
    end, and records nothing while it is pending. *)
Lemma watched_poll_run {W F A} features (instant_now : W -> Z) k label cost
    (poll : F -> M W (F * option (Result A ThrottleError))) f s :
  let r := watched_poll features instant_now k label cost poll f s in
  let p := poll (inner f) s.1 in
  inner r.1.1 = p.1.1 /\ r.1.2 = p.1.2 /\ r.2.1 = p.2 /\
  exists es, r.2.2 = (s.2 ++ es)%list /\
    match r.1.2 with
    | Some result => exists sample, es = waited_entries features k label cost (waited_of result) sample
    | None => es = []
    end.
Proof.
  unfold watched_poll.
  assert (Hs : exists timer,
    (match f with
     | Unstarted f => let! timer := timer_start features instant_now in mret (timer, f)
     | Started timer f => mret (timer, f)
     end) s = ((timer, inner f), s)) by (destruct f; eauto).
  destruct Hs as (timer & Hs). rewrite mthen_run, Hs. simpl. rewrite mthen_run. unfold unrecorded.
  destruct (poll (inner f) s.1) as [[g [result|]] w]; simpl.
  - rewrite !mthen_run. simpl. rewrite !waited_writes. simpl. split_and!; eauto.
  - split_and!; [done..|]. exists []. by rewrite app_nil_r.
Qed.

(** ** Properties *)


