(* ===== verification/Sliding.v ===== *)
(** * The exact sliding-window log (src/src/sliding.rs)

    [SlidingWindowLog] keeps the time-stamped grants of the trailing window
    under one mutex, so its operations are atomic and a concurrent execution
    is a sequence of them. Each operation takes [now_ns], the reading
    [nanos_between(epoch, clock.now())] it made, as an argument. *)

From stdpp Require Import sorting.
From S2P Require Import Prelude Decisions Hold.

(** ** State *)

Record Grant := mkGrant { at_ns : Z; count : Z }.

Record Log := mkLog { grants : list Grant; used : Z; hold_until_ns : Z }.

Record SlidingWindowLog := mkSliding {
  limit : Z;
  window : Duration;
  window_ns : Z;
  log : Log }.

Definition with_log (self : SlidingWindowLog) (l : Log) : SlidingWindowLog :=
  mkSliding (limit self) (window self) (window_ns self) l.

(** [with_clock_inner]: the constructor behind [new], [per_second],
    [per_minute] and [with_clock]. *)
Definition with_clock_inner (limit : Z) (window : Duration) : SlidingWindowLog :=
  mkSliding limit window (Z.max (to_u64_or_max (as_nanos window)) 1) (mkLog [] 0 0).

Definition new (limit : Z) (window : Duration) : SlidingWindowLog :=
  with_clock_inner limit window.
Definition per_second (rate : Z) : SlidingWindowLog := new rate (from_secs 1).
Definition per_minute (rate : Z) : SlidingWindowLog := new rate (from_secs 60).
Definition with_clock (self : SlidingWindowLog) : SlidingWindowLog :=
  with_clock_inner (limit self) (window self).

(** ** Pruning and waiting times *)

(** The [while let Some(front)] loop of [prune]. *)
Fixpoint prune_loop (window_ns now_ns : Z) (gs : list Grant) (used : Z) : list Grant * Z :=
  match gs with
  | [] => ([], used)
  | front :: rest =>
      if sat_add u64_max (at_ns front) window_ns <=? now_ns
      then prune_loop window_ns now_ns rest (sat_sub used (count front))
      else (gs, used)
  end.

Definition prune (self : SlidingWindowLog) (l : Log) (now_ns : Z) : Log :=
  let '(gs, u) := prune_loop (window_ns self) now_ns (grants l) (used l) in
  mkLog gs u (hold_until_ns l).

(** The [for grant in &log.grants] loop of [wait_for], with its accumulator. *)
Fixpoint wait_for_loop (window_ns now_ns needed : Z) (gs : list Grant) (freed : Z) : Duration :=
  match gs with
  | [] => from_nanos window_ns
  | grant :: rest =>
      let freed := sat_add u64_max freed (count grant) in
      if needed <=? freed
      then from_nanos (sat_sub (sat_add u64_max (at_ns grant) window_ns) now_ns)
      else wait_for_loop window_ns now_ns needed rest freed
  end.

Definition wait_for (self : SlidingWindowLog) (l : Log) (now_ns needed : Z) : Duration :=
  wait_for_loop (window_ns self) now_ns needed (grants l) 0.

(** The stamp of a new grant: no earlier than the newest one in the log. *)
Definition stamp (l : Log) (now_ns : Z) : Z :=
  match last (grants l) with
  | Some newest => Z.max now_ns (at_ns newest)
  | None => now_ns
  end.

Definition push_back (l : Log) (used : Z) (g : Grant) : Log :=
  mkLog (grants l ++ [g]) used (hold_until_ns l).

(** ** Operations *)

(** The shared core of a grant and a peek; [record] says whether to take. *)
Definition evaluate (self : SlidingWindowLog) (now_ns cost : Z) (record : bool)
    : Decision * SlidingWindowLog :=
  if limit self <? cost then (Impossible, self)
  else if cost =? 0 then (Acquired, self)
  else
    let held := sat_sub (hold_until_ns (log self)) now_ns in
    if 0 <? held then (Retry (from_nanos held), self)
    else
      let l := prune self (log self) now_ns in
      let wanted := wrap64 (used l + cost) in
      if wanted <=? limit self then
        if record
        then (Acquired, with_log self (push_back l wanted (mkGrant (stamp l now_ns) cost)))
        else (Acquired, with_log self l)
      else
        let needed := wanted - limit self in
        (Retry (wait_for self l now_ns needed), with_log self l).

Definition try_acquire_with_cost (self : SlidingWindowLog) (now_ns cost : Z)
    : bool * SlidingWindowLog :=
  let '(d, self') := evaluate self now_ns cost true in (is_acquired d, self').

Definition try_acquire (self : SlidingWindowLog) (now_ns : Z) : bool * SlidingWindowLog :=
  try_acquire_with_cost self now_ns 1.

Definition peek (self : SlidingWindowLog) (now_ns cost : Z) : Decision * SlidingWindowLog :=
  evaluate self now_ns cost false.

Definition acquire_cost (self : SlidingWindowLog) (now_ns cost : Z) : Decision * SlidingWindowLog :=
  evaluate self now_ns cost true.

Definition available (self : SlidingWindowLog) (now_ns : Z) : Z * SlidingWindowLog :=
  if now_ns <? hold_until_ns (log self) then (0, self)
  else
    let l := prune self (log self) now_ns in
    (sat_sub (limit self) (used l), with_log self l).

Definition capacity (self : SlidingWindowLog) : Z := limit self.

(** The [while remaining > 0] loop of [refund], oldest grant first. When the
    front keeps units, [take = remaining], so the loop is over. *)
Fixpoint refund_loop (gs : list Grant) (used remaining : Z) : list Grant * Z :=
  match gs with
  | [] => ([], used)
  | front :: rest =>
      if remaining <=? 0 then (gs, used)
      else
        let take := Z.min (count front) remaining in
        let left := count front - take in
        if left =? 0
        then refund_loop rest (sat_sub used take) (remaining - take)
        else (mkGrant (at_ns front) left :: rest, sat_sub used take)
  end.

Definition refund (self : SlidingWindowLog) (cost : Z) : SlidingWindowLog :=
  let l := log self in
  let '(gs, u) := refund_loop (grants l) (used l) cost in
  with_log self (mkLog gs u (hold_until_ns l)).

Definition pause_for (self : SlidingWindowLog) (now_ns : Z) (duration : Duration)
    : SlidingWindowLog :=
  if is_zero duration then self
  else
    let until := Z.max (sat_add u64_max now_ns (to_u64_or_max (as_nanos duration))) 1 in
    let l := log self in
    with_log self (mkLog (grants l) (used l) (Z.max (hold_until_ns l) until)).

(** [take(&mut hold_until_ns) != 0]: whether a pause was lifted. *)
Definition resume (self : SlidingWindowLog) : bool * SlidingWindowLog :=
  let l := log self in
  (negb (hold_until_ns l =? 0), with_log self (mkLog (grants l) (used l) 0)).

(** Records units already spent downstream, over the limit if need be. *)
Definition charge_spent (self : SlidingWindowLog) (now_ns cost : Z) : SlidingWindowLog :=
  if cost =? 0 then self
  else
    let l := prune self (log self) now_ns in
    with_log self (push_back l (sat_add u64_max (used l) cost) (mkGrant (stamp l now_ns) cost)).

(** [Limiter::charge]: everything is recorded, nothing is left uncharged. *)
Definition charge (self : SlidingWindowLog) (now_ns cost : Z) : Z * SlidingWindowLog :=
  (0, charge_spent self now_ns cost).

Definition paused_for (self : SlidingWindowLog) (now_ns : Z) : Duration :=
  from_nanos (sat_sub (hold_until_ns (log self)) now_ns).

(** ** The invariant *)

(** Grants whose time in the window has not passed at [t]. *)
Definition live (w t : Z) (gs : list Grant) : list Grant :=
  filter (fun g => t < at_ns g + w) gs.

Definition units (gs : list Grant) : Z := sum_with count gs.

Definition oldest_first (gs : list Grant) : Prop :=
  StronglySorted (fun a b => at_ns a <= at_ns b) gs.

Definition grant_ok (g : Grant) : Prop := 0 < count g /\ 0 <= at_ns g.

Record wf (self : SlidingWindowLog) : Prop := mkWf {
  wf_limit : is_u32 (limit self);
  wf_window : 1 <= window_ns self <= u64_max;
  wf_used : used (log self) = units (grants (log self));
  wf_grants : Forall grant_ok (grants (log self));
  wf_sorted : oldest_first (grants (log self));
  wf_room : used (log self) + u32_max <= u64_max;
  wf_hold : is_u64 (hold_until_ns (log self)) }.

Lemma units_nonneg gs : Forall grant_ok gs -> 0 <= units gs.
Proof.
  intros H. apply sum_with_nonneg. eapply Forall_impl; [exact H|]. intros g [? ?]. lia.
Qed.

Lemma live_all w t gs : Forall (fun g => t < at_ns g + w) gs -> live w t gs = gs.
Proof.
  unfold live. induction 1 as [|g gs Hg _ IH]; [done|].
  rewrite filter_cons_True by done. by rewrite IH.
Qed.

Lemma live_none w t gs : Forall (fun g => at_ns g + w <= t) gs -> live w t gs = [].
Proof.
  unfold live. induction 1 as [|g gs Hg _ IH]; [done|]. by rewrite filter_cons_False by lia.
Qed.

Lemma live_sorted_cons w t g gs :
  oldest_first (g :: gs) -> t < at_ns g + w -> live w t (g :: gs) = g :: gs.
Proof.
  intros Hs Hg. apply live_all. constructor; [done|].
  inversion Hs as [|? ? _ Hall]; subst. eapply Forall_impl; [exact Hall|]. simpl. lia.
Qed.

Lemma live_oldest_first w t gs : oldest_first gs -> oldest_first (live w t gs).
Proof.
  unfold oldest_first, live. induction 1 as [|g gs Hgs IH Hall]; [constructor|].
  rewrite filter_cons. case_decide; [|done]. constructor; [done|].
  by apply Forall_filter_keep.
Qed.

Lemma live_grants_ok w t gs : Forall grant_ok gs -> Forall grant_ok (live w t gs).
Proof. intros H. by apply Forall_filter_keep. Qed.

Lemma live_units_le w t gs : Forall grant_ok gs -> units (live w t gs) <= units gs.
Proof.
  unfold live, units. induction 1 as [|g gs [Hc Ha] _ IH]; [done|].
  rewrite filter_cons. case_decide; rewrite !sum_with_cons; lia.
Qed.

Lemma live_live w t t' gs : t <= t' -> live w t' (live w t gs) = live w t' gs.
Proof.
  intros Ht. unfold live. rewrite list_filter_filter. apply list_filter_iff. intros g. lia.
Qed.

(** Pruning keeps exactly the live grants. *)
Lemma prune_loop_live w now gs u :
  oldest_first gs -> Forall grant_ok gs -> u = units gs -> now < u64_max ->
  prune_loop w now gs u = (live w now gs, units (live w now gs)).
Proof.
  revert u. induction gs as [|g gs IH]; intros u Hs Hok -> Hnow; [done|].
  simpl. inversion Hs as [|? ? Hs' Hall]; subst. inversion Hok as [|? ? Hg Hok']; subst.
  zcase.
  - assert (Hle : at_ns g + w <= now) by mlia.
    unfold live. rewrite filter_cons_False by lia. apply IH; [done..| |done].
    destruct Hg as [Hc _]. pose proof (units_nonneg _ Hok').
    unfold units in *. rewrite sum_with_cons. mlia.
  - rewrite live_sorted_cons; [done..|mlia].
Qed.

Lemma prune_live self now :
  wf self -> now < u64_max ->
  prune self (log self) now =
  mkLog (live (window_ns self) now (grants (log self)))
        (units (live (window_ns self) now (grants (log self))))
        (hold_until_ns (log self)).
Proof.
  intros Hwf Hnow. unfold prune.
  rewrite prune_loop_live by (apply Hwf || done). done.
Qed.

Lemma newest_is_last gs g :
  oldest_first gs -> last gs = Some g -> Forall (fun x => at_ns x <= at_ns g) gs.
Proof.
  intros Hs [gs' ->]%last_Some. apply StronglySorted_app in Hs as (Hle & _ & _).
  apply Forall_app. split.
  - apply Forall_forall. intros x Hx. apply (Hle x g Hx). by left.
  - constructor; [lia|constructor].
Qed.

Lemma stamp_ge l now : now <= stamp l now.
Proof. unfold stamp. destruct (last (grants l)); lia. Qed.

Lemma stamp_newest l now :
  oldest_first (grants l) -> Forall (fun x => at_ns x <= stamp l now) (grants l).
Proof.
  intros Hs. unfold stamp. destruct (last (grants l)) as [g|] eqn:E.
  - eapply Forall_impl; [by eapply newest_is_last|]. simpl. lia.
  - apply last_None in E. by rewrite E.
Qed.

Lemma oldest_first_snoc gs g :
  oldest_first gs -> Forall (fun x => at_ns x <= at_ns g) gs -> oldest_first (gs ++ [g]).
Proof.
  intros Hs Hall. induction Hs as [|x gs Hs IH Hx]; simpl.
  - repeat constructor.
  - apply Forall_cons in Hall as [Hxg Hall]. constructor; [by apply IH|].
    apply Forall_app. split; [done|]. by constructor.
Qed.

(** What [evaluate] does on an unpaused limiter for an ordinary cost, in
    terms of the live grants. *)
Lemma evaluate_live self now cost record :
  wf self -> now < u64_max -> 1 <= cost <= limit self ->
  hold_until_ns (log self) <= now ->
  let gs := live (window_ns self) now (grants (log self)) in
  let l := mkLog gs (units gs) (hold_until_ns (log self)) in
  evaluate self now cost record =
  if units gs + cost <=? limit self then
    (Acquired, with_log self
       (if record then push_back l (units gs + cost) (mkGrant (stamp l now) cost) else l))
  else (Retry (wait_for self l now (units gs + cost - limit self)), with_log self l).
Proof.
  intros Hwf Hnow Hcost Hhold gs l. unfold evaluate.
  rewrite (proj2 (Z.ltb_ge _ _)) by lia. rewrite (proj2 (Z.eqb_neq _ _)) by lia.
  rewrite (proj2 (Z.ltb_ge 0 _)) by mlia.
  rewrite prune_live by done. simpl.
  pose proof (wf_limit _ Hwf). pose proof (wf_room _ Hwf) as Hroom.
  rewrite (wf_used _ Hwf) in Hroom.
  pose proof (live_units_le (window_ns self) now _ (wf_grants _ Hwf)) as Hle.
  pose proof (units_nonneg _ (live_grants_ok (window_ns self) now _ (wf_grants _ Hwf))).
  rewrite wrap64_small by mlia. unfold gs, l.
  zcase; [|done]. by destruct record.
Qed.

Lemma wf_with_live self now :
  wf self ->
  wf (with_log self (mkLog (live (window_ns self) now (grants (log self)))
        (units (live (window_ns self) now (grants (log self))))
        (hold_until_ns (log self)))).
Proof.
  intros Hwf. pose proof (live_units_le (window_ns self) now _ (wf_grants _ Hwf)).
  pose proof (wf_room _ Hwf) as Hroom. rewrite (wf_used _ Hwf) in Hroom.
  constructor; simpl; try apply Hwf; auto using live_grants_ok, live_oldest_first, wf_grants, wf_sorted.
  lia.
Qed.

Lemma wf_push self l u now cost :
  wf (with_log self l) -> 0 <= now -> 0 < cost -> u = units (grants l) + cost ->
  u + u32_max <= u64_max ->
  wf (with_log self (push_back l u (mkGrant (stamp l now) cost))).
Proof.
  intros Hwf Hnow Hcost -> Hroom. destruct Hwf; simpl in *.
  constructor; simpl; try done.
  - unfold units. rewrite sum_with_app. unfold sum_with at 3. simpl. lia.
  - apply Forall_app. split; [done|]. repeat constructor; simpl; [done|].
    pose proof (stamp_ge l now). lia.
  - apply oldest_first_snoc; [done|]. by apply stamp_newest.
Qed.

Lemma evaluate_wf self now cost record :
  wf self -> 0 <= now < u64_max -> 0 <= cost -> wf (evaluate self now cost record).2.
Proof.
  intros Hwf Hnow Hcost. pose proof (wf_limit _ Hwf) as Hlim.
  destruct (decide (cost = 0 \/ limit self < cost \/ now < hold_until_ns (log self)))
    as [Hearly|Hlate].
  - unfold evaluate. destruct (limit self <? cost) eqn:?; [done|].
    destruct (cost =? 0) eqn:?; [done|]. rewrite (proj2 (Z.ltb_lt 0 _)) by mlia. done.
  - rewrite evaluate_live by (done || lia).
    pose proof (wf_with_live self now Hwf) as Hlive.
    zcase; simpl; [|done]. destruct record; [|done].
    apply wf_push; [done|lia..| |]; simpl; [done|]. mlia.
Qed.

(** ** Runs of calls, and what they did to the window *)

Inductive op :=
  | OpAcquire (cost : Z)
  | OpPeek (cost : Z)
  | OpAvailable
  | OpRefund (cost : Z)
  | OpCharge (cost : Z)
  | OpPause (duration : Duration)
  | OpResume.

Record call := mkCall { reading : Z; request : op }.

(** The history lists the units granted, charged and given back, each with
    the clock reading of its call. (A refund and a resume read no clock: their
    reading only places them among the others.) *)
Record History := mkHistory {
  granted : list Grant;
  charged : list Grant;
  refunded : list Grant }.

Definition state : Type := SlidingWindowLog * History.

Definition start (limit : Z) (window : Duration) : state :=
  (new limit window, mkHistory [] [] []).

(** A limiter's answer to an acquire, noted in the history when it granted. *)
Definition note_grant (d : Decision) (now cost : Z) (h : History) : History :=
  if is_acquired d then mkHistory (granted h ++ [mkGrant now cost]) (charged h) (refunded h)
  else h.

Definition step (st : state) (c : call) : state :=
  let '(self, h) := st in
  let now := reading c in
  match request c with
  | OpAcquire cost =>
      let '(d, self') := acquire_cost self now cost in (self', note_grant d now cost h)
  | OpPeek cost => ((peek self now cost).2, h)
  | OpAvailable => ((available self now).2, h)
  | OpRefund cost =>
      (refund self cost, mkHistory (granted h) (charged h) (refunded h ++ [mkGrant now cost]))
  | OpCharge cost =>
      ((charge self now cost).2,
       mkHistory (granted h) (charged h ++ [mkGrant now cost]) (refunded h))
  | OpPause d => (pause_for self now d, h)
  | OpResume => ((resume self).2, h)
  end.

Definition call_ok (c : call) : Prop :=
  0 <= reading c < u64_max /\
  match request c with
  | OpAcquire cost | OpPeek cost | OpRefund cost | OpCharge cost => is_u32 cost
  | OpPause d => is_duration d
  | _ => True
  end.

(** The units recorded in the half-open interval [(from, to]]. *)
Definition units_in (gs : list Grant) (from to : Z) : Z :=
  units (filter (fun g => from < at_ns g <= to) gs).

(** Readings in the order of the calls never go back. *)
Fixpoint readings_from (n : Z) (calls : list call) : Prop :=
  match calls with
  | [] => True
  | c :: rest => n <= reading c /\ readings_from (reading c) rest
  end.

(** The units the calls charge in all: the books count in 64 bits. *)
Definition charges (calls : list call) : Z :=
  sum_with (fun c => match request c with OpCharge cost => cost | _ => 0 end) calls.

(** Counts of a history may be zero (an acquire, a charge or a refund of
    nothing), its readings lie in the past. *)
Definition past (n : Z) (gs : list Grant) : Prop :=
  Forall (fun g => 0 <= count g /\ at_ns g <= n) gs.

(** The units of [gs] still in the window at [t]. *)
Definition standing (self : SlidingWindowLog) (t : Z) (gs : list Grant) : Z :=
  units (live (window_ns self) t gs).

(** What the state knows about the history at reading [n]: from now on the
    units granted and charged in the window are covered by the log's and by
    those given back in the window. *)
Record tracks (n : Z) (st : state) : Prop := mkTracks {
  tr_wf : wf st.1;
  tr_log_past : Forall (fun g => at_ns g <= n) (grants (log st.1));
  tr_granted : past n (granted st.2);
  tr_charged : past n (charged st.2);
  tr_refunded : past n (refunded st.2);
  tr_used : used (log st.1) <= limit st.1 + units (charged st.2);
  tr_covered : forall t, n <= t ->
    standing st.1 t (granted st.2) + standing st.1 t (charged st.2) <=
    standing st.1 t (grants (log st.1)) + standing st.1 t (refunded st.2);
  tr_bound : forall t,
    units_in (granted st.2) (t - window_ns st.1) t <=
    limit st.1 + units_in (refunded st.2) (t - window_ns st.1) t }.

Lemma units_app gs gs' : units (gs ++ gs') = units gs + units gs'.
Proof. apply sum_with_app. Qed.

Lemma units_cons g gs : units (g :: gs) = count g + units gs.
Proof. apply sum_with_cons. Qed.

Lemma past_later n now gs : past n gs -> n <= now -> past now gs.
Proof. intros H Hle. eapply Forall_impl; [exact H|]. simpl. lia. Qed.

Lemma past_snoc now gs cost : past now gs -> 0 <= cost -> past now (gs ++ [mkGrant now cost]).
Proof. intros H Hc. apply Forall_app. split; [done|]. by repeat constructor. Qed.

Lemma past_units n gs : past n gs -> 0 <= units gs.
Proof. intros H. apply sum_with_nonneg. eapply Forall_impl; [exact H|]. simpl. lia. Qed.

Lemma past_live_units n w t gs : past n gs -> 0 <= units (live w t gs).
Proof. intros H. apply (past_units n). by apply Forall_filter_keep. Qed.

Lemma units_in_live n gs w t :
  past n gs -> n <= t -> units_in gs (t - w) t = units (live w t gs).
Proof.
  intros H Hn. unfold units_in, live. f_equal.
  induction H as [|g gs [_ Hg] _ IH]; [done|].
  rewrite !filter_cons, IH. repeat case_decide; [done|lia..|done].
Qed.

Lemma units_in_snoc gs from to now cost :
  units_in (gs ++ [mkGrant now cost]) from to =
  units_in gs from to + (if bool_decide (from < now <= to) then cost else 0).
Proof.
  unfold units_in. rewrite filter_app, units_app, filter_cons. simpl.
  case_bool_decide; case_decide; try done; rewrite ?units_cons; unfold units, sum_with; simpl; lia.
Qed.

Lemma live_snoc w t gs now cost :
  units (live w t (gs ++ [mkGrant now cost])) =
  units (live w t gs) + (if bool_decide (t < now + w) then cost else 0).
Proof.
  unfold live. rewrite filter_app, units_app, filter_cons. simpl.
  case_bool_decide; case_decide; try done; rewrite ?units_cons; unfold units, sum_with; simpl; lia.
Qed.

Lemma evaluate_keeps_config self now cost record :
  limit (evaluate self now cost record).2 = limit self /\
  window_ns (evaluate self now cost record).2 = window_ns self.
Proof.
  unfold evaluate. destruct (limit self <? cost); [done|]. destruct (cost =? 0); [done|].
  destruct (0 <? _); [done|]. destruct (_ <=? _); [|done]. by destruct record.
Qed.

(** A pruned log still tracks the history, at any later reading. *)
Lemma tracks_prune n now self h :
  tracks n (self, h) -> n <= now < u64_max ->
  let gs := live (window_ns self) now (grants (log self)) in
  tracks now (with_log self (mkLog gs (units gs) (hold_until_ns (log self))), h).
Proof.
  intros [Hwf Hlog Hg Hc Hr Hu Hcov Hb] Hnow gs. simpl in *.
  constructor; simpl; try done; [by apply wf_with_live|..].
  - apply Forall_filter_keep. eapply Forall_impl; [exact Hlog|]. simpl. lia.
  - eapply past_later; [exact Hg|lia].
  - eapply past_later; [exact Hc|lia].
  - eapply past_later; [exact Hr|lia].
  - pose proof (live_units_le (window_ns self) now _ (wf_grants _ Hwf)).
    rewrite (wf_used _ Hwf) in Hu. unfold gs. lia.
  - intros t Ht. specialize (Hcov t ltac:(lia)). unfold standing in *. simpl.
    unfold gs. by rewrite live_live by done.
Qed.

Lemma tracks_later n now st : tracks n st -> n <= now -> tracks now st.
Proof.
  intros [Hwf Hlog Hg Hc Hr Hu Hcov Hb] Hnow. constructor; try done.
  - eapply Forall_impl; [exact Hlog|]. simpl. lia.
  - by eapply past_later.
  - by eapply past_later.
  - by eapply past_later.
  - intros t Ht. apply Hcov. lia.
Qed.

Lemma stamp_now l now : Forall (fun g => at_ns g <= now) (grants l) -> stamp l now = now.
Proof.
  intros Hlog. unfold stamp. destruct (last (grants l)) as [g|] eqn:E; [|done].
  apply last_Some in E as [gs' E]. rewrite E in Hlog.
  apply Forall_app in Hlog as [_ Hg]. apply Forall_cons in Hg as [Hg _]. lia.
Qed.

(** Recording [cost] more units at reading [now] on a log already pruned. *)
Lemma wf_push_now self now cost :
  wf self -> Forall (fun g => at_ns g <= now) (grants (log self)) ->
  0 <= now -> 0 < cost -> used (log self) + cost + u32_max <= u64_max ->
  wf (with_log self (push_back (log self) (used (log self) + cost)
        (mkGrant (stamp (log self) now) cost))).
Proof.
  intros Hwf Hlog Hnow Hcost Hroom. apply wf_push; [|done..| |done].
  - by destruct self.
  - by rewrite (wf_used _ Hwf).
Qed.

(** A grant that fits the limit. What the window then holds of grants and
    charges is covered by the log, which is within the limit. *)
Lemma tracks_grant now self h cost :
  tracks now (self, h) -> 0 <= now -> 0 < cost -> used (log self) + cost <= limit self ->
  tracks now (with_log self
    (push_back (log self) (used (log self) + cost) (mkGrant (stamp (log self) now) cost)),
    mkHistory (granted h ++ [mkGrant now cost]) (charged h) (refunded h)).
Proof.
  intros [Hwf Hlog Hg Hc Hr Hu Hcov Hb] Hnow Hcost Hfit. simpl in *.
  pose proof (wf_limit _ Hwf) as Hlim. pose proof (past_units _ _ Hc).
  pose proof (wf_push_now self now cost Hwf Hlog Hnow Hcost ltac:(mlia)) as Hwf'.
  rewrite stamp_now in * by done.
  assert (Hcov' : forall t, now <= t ->
    standing self t (granted h ++ [mkGrant now cost]) + standing self t (charged h) <=
    standing self t (grants (log self) ++ [mkGrant now cost]) + standing self t (refunded h)).
  { intros t Ht. specialize (Hcov t Ht). unfold standing in *. rewrite !live_snoc. lia. }
  constructor; simpl; try done.
  - apply Forall_app. split; [done|]. by repeat constructor.
  - apply past_snoc; [done|lia].
  - lia.
  - intros t. rewrite units_in_snoc. case_bool_decide as Ht.
    + specialize (Hcov' t ltac:(lia)). unfold standing in Hcov'. rewrite live_snoc in Hcov'.
      rewrite bool_decide_eq_true_2 in Hcov' by lia.
      rewrite !(units_in_live now) by (done || lia).
      pose proof (past_live_units _ (window_ns self) t _ Hc).
      pose proof (live_units_le (window_ns self) t _ (wf_grants _ Hwf')) as Hle.
      pose proof (wf_used _ Hwf') as Hused. simpl in Hle, Hused. lia.
    + specialize (Hb t). lia.
Qed.

(** An acquire of nothing is granted and leaves everything in place. *)
Lemma tracks_grant_none now self h :
  tracks now (self, h) -> tracks now (self, note_grant Acquired now 0 h).
Proof.
  intros [Hwf Hlog Hg Hc Hr Hu Hcov Hb]. constructor; simpl in *; try done.
  - by apply past_snoc.
  - intros t Ht. unfold standing in *. rewrite live_snoc. specialize (Hcov t Ht).
    case_bool_decide; lia.
  - intros t. rewrite units_in_snoc. specialize (Hb t). case_bool_decide; lia.
Qed.

Lemma evaluate_early self now cost record :
  cost = 0 \/ limit self < cost \/ now < hold_until_ns (log self) ->
  (evaluate self now cost record).2 = self /\
  ((evaluate self now cost record).1 = Acquired -> cost = 0).
Proof.
  intros H. unfold evaluate. destruct (Z.ltb_spec (limit self) cost); [done|].
  destruct (Z.eqb_spec cost 0); [done|].
  rewrite (proj2 (Z.ltb_lt 0 _)) by mlia. done.
Qed.

Lemma tracks_peek n now self h cost :
  tracks n (self, h) -> 0 <= n <= now -> now < u64_max -> 0 <= cost ->
  tracks now ((evaluate self now cost false).2, h).
Proof.
  intros Ht Hn Hnow Hc.
  destruct (decide (cost = 0 \/ limit self < cost \/ now < hold_until_ns (log self)))
    as [Hearly|Hlate].
  - destruct (evaluate_early self now cost false Hearly) as [-> _].
    apply (tracks_later n); [done|lia].
  - rewrite evaluate_live by (try lia; apply (tr_wf _ _ Ht)).
    pose proof (tracks_prune n now self h Ht ltac:(lia)) as Hp.
    by destruct (_ <=? limit self).
Qed.

Lemma tracks_acquire n now self h cost :
  tracks n (self, h) -> 0 <= n <= now -> now < u64_max -> 0 <= cost ->
  tracks now ((acquire_cost self now cost).2,
              note_grant (acquire_cost self now cost).1 now cost h).
Proof.
  intros Ht Hn Hnow Hc. unfold acquire_cost.
  destruct (decide (cost = 0 \/ limit self < cost \/ now < hold_until_ns (log self)))
    as [Hearly|Hlate].
  - destruct (evaluate_early self now cost true Hearly) as [-> Hz].
    apply (tracks_later n now) in Ht; [|lia].
    destruct (evaluate self now cost true).1; [|done..].
    rewrite Hz by done. by apply tracks_grant_none.
  - rewrite evaluate_live by (try lia; apply (tr_wf _ _ Ht)).
    pose proof (tracks_prune n now self h Ht ltac:(lia)) as Hp. simpl in Hp.
    destruct (Z.leb_spec (units (live (window_ns self) now (grants (log self))) + cost)
      (limit self)) as [Hfit|Hno]; [|done]. simpl.
    apply (tracks_grant now _ h cost) in Hp; simpl in *; [exact Hp|lia..].
Qed.

(** A charge is recorded in full, over the limit if need be. *)
Lemma tracks_charge n now self h cost :
  tracks n (self, h) -> 0 <= n <= now -> now < u64_max -> 0 <= cost ->
  units (charged h) + cost + 2 * u32_max <= u64_max ->
  tracks now ((charge self now cost).2,
              mkHistory (granted h) (charged h ++ [mkGrant now cost]) (refunded h)).
Proof.
  intros Ht Hn Hnow Hc Hroom. unfold charge, charge_spent. simpl. zcase.
  - apply (tracks_later n now) in Ht; [|lia]. destruct Ht as [Hwf Hlog Hg Hcp Hr Hu Hcov Hb].
    constructor; simpl in *; try done.
    + by apply past_snoc.
    + rewrite units_app, units_cons. unfold units, sum_with in *. simpl. lia.
    + intros t Htt. unfold standing in *. rewrite live_snoc. specialize (Hcov t Htt).
      case_bool_decide; lia.
  - rewrite prune_live by (apply (tr_wf _ _ Ht) || lia).
    apply (tracks_prune n now) in Ht; [|lia]. simpl in Ht.
    destruct Ht as [Hwf Hlog Hg Hcp Hr Hu Hcov Hb]. simpl in *.
    pose proof (wf_limit _ Hwf) as Hlim. simpl in Hlim.
    pose proof (past_units _ _ Hcp). pose proof (units_nonneg _ (wf_grants _ Hwf)) as Hnn.
    simpl in Hnn. rewrite sat_add_exact by mlia.
    pose proof (wf_push_now _ now cost Hwf Hlog ltac:(lia) ltac:(lia) ltac:(simpl; mlia)) as Hwf'.
    rewrite stamp_now in * by done. simpl in Hwf'.
    constructor; simpl; try done.
    + apply Forall_app. split; [done|]. by repeat constructor.
    + by apply past_snoc.
    + rewrite units_app, units_cons. unfold units at 3, sum_with. simpl. lia.
    + intros t Htt. unfold standing in *. simpl in *. rewrite !live_snoc. specialize (Hcov t Htt).
      lia.
Qed.

(** ** Refunds keep the invariant *)

Record refunded_from (n : Z) (gs : list Grant) (r : list Grant * Z) : Prop := mkRefundedFrom {
  rf_used : r.2 = units r.1;
  rf_ok : Forall grant_ok r.1;
  rf_sorted : oldest_first r.1;
  rf_past : Forall (fun g => at_ns g <= n) r.1;
  rf_less : units r.1 <= units gs }.

Lemma refund_loop_keeps n gs u cost :
  Forall grant_ok gs -> oldest_first gs -> Forall (fun g => at_ns g <= n) gs -> u = units gs ->
  refunded_from n gs (refund_loop gs u cost).
Proof.
  revert u cost. induction gs as [|g gs IH]; intros u cost Hok Hs Hp ->; [by constructor|].
  pose proof Hok as Hok0. pose proof Hs as Hs0. pose proof Hp as Hp0.
  apply Forall_cons in Hok as [[Hg Ha] Hok]. inversion Hs as [|? ? Hs' Hall]; subst.
  apply Forall_cons in Hp as [Hgp Hp]. pose proof (units_nonneg _ Hok) as Hnn.
  simpl. rewrite units_cons. zcase.
  - constructor; simpl; rewrite ?units_cons; (done || lia).
  - destruct (IH (sat_sub (count g + units gs) (Z.min (count g) cost))
      (cost - Z.min (count g) cost) Hok Hs' Hp ltac:(mlia)) as [A B C D E].
    constructor; [done..|]. rewrite units_cons. lia.
  - constructor; simpl; rewrite ?units_cons; simpl; [mlia| | | |lia].
    + constructor; [|done]. split; simpl; lia.
    + constructor; done.
    + constructor; done.
Qed.

(** However the units given back lie in the log, no instant loses more live
    units than were given back. *)
Lemma refund_loop_live_ge w t gs u cost :
  Forall grant_ok gs -> 0 <= cost ->
  units (live w t gs) <= units (live w t (refund_loop gs u cost).1) + cost.
Proof.
  intros Hok. revert u cost. induction Hok as [|g gs [Hg Ha] Hok IH]; intros u cost Hc.
  { unfold live, units, sum_with. simpl. lia. }
  simpl. zcase; simpl; [lia|..].
  - specialize (IH (sat_sub u (Z.min (count g) cost)) (cost - Z.min (count g) cost) ltac:(lia)).
    unfold live at 1. rewrite filter_cons. fold (live w t gs). case_decide; rewrite ?units_cons; lia.
  - unfold live. rewrite !filter_cons. simpl. repeat case_decide; rewrite ?units_cons; simpl; lia.
Qed.

Lemma tracks_refund n now self h cost :
  tracks n (self, h) -> n <= now -> 0 <= cost ->
  tracks now (refund self cost,
              mkHistory (granted h) (charged h) (refunded h ++ [mkGrant now cost])).
Proof.
  intros Ht Hnow Hcost. apply (tracks_later n now) in Ht; [|lia].
  destruct Ht as [Hwf Hlog Hg Hc Hr Hu Hcov Hb]. simpl in *.
  pose proof (refund_loop_keeps now _ (used (log self)) cost (wf_grants _ Hwf) (wf_sorted _ Hwf)
    Hlog (wf_used _ Hwf)) as Hk.
  unfold refund.
  destruct (refund_loop (grants (log self)) (used (log self)) cost) as [gs u] eqn:R.
  destruct Hk as [Hk1 Hk2 Hk3 Hk4 Hk5]. simpl in *. subst u.
  pose proof (wf_used _ Hwf) as Hused. pose proof (wf_room _ Hwf) as Hroom.
  constructor; simpl; try done.
  - constructor; simpl; try done; try apply Hwf. lia.
  - by apply past_snoc.
  - lia.
  - intros t Htt. specialize (Hcov t Htt). unfold standing in *. simpl. rewrite live_snoc.
    pose proof (refund_loop_live_ge (window_ns self) t _ (used (log self)) cost
      (wf_grants _ Hwf) Hcost) as Hge. rewrite R in Hge. simpl in Hge.
    case_bool_decide; [lia|]. assert (Hnow' : now + window_ns self <= t) by lia.
    rewrite !live_none; [unfold units, sum_with; simpl; lia|..];
      (eapply Forall_impl; [eassumption|]; simpl; lia).
  - intros t. rewrite units_in_snoc. specialize (Hb t). case_bool_decide; lia.
Qed.

Lemma tracks_set_hold n self h u :
  tracks n (self, h) -> is_u64 u ->
  tracks n (with_log self (mkLog (grants (log self)) (used (log self)) u), h).
Proof. intros [[]] Hh. constructor; simpl in *; done. Qed.

Lemma tracks_step n st c :
  tracks n st -> 0 <= n <= reading c -> call_ok c ->
  units (charged st.2) + charges [c] + 2 * u32_max <= u64_max ->
  tracks (reading c) (step st c) /\
  units (charged (step st c).2) = units (charged st.2) + charges [c].
Proof.
  destruct st as [self h], c as [now o]. intros Ht Hn [Hr Ho] Hroom. unfold charges in *.
  rewrite sum_with_singleton in *. simpl in *. unfold step; simpl.
  destruct o as [cost|cost| |cost|cost|d|]; simpl; rewrite ?Z.add_0_r.
  - pose proof (tracks_acquire n now self h cost Ht ltac:(lia) ltac:(lia) ltac:(mlia)) as H.
    destruct (acquire_cost self now cost) as [d self']. split; [exact H|]. by destruct d.
  - split; [|done]. apply (tracks_peek n now self h cost Ht); mlia.
  - split; [|done]. unfold available. destruct (now <? _); [apply (tracks_later n); [done|lia]|].
    rewrite prune_live by (apply (tr_wf _ _ Ht) || lia). simpl.
    apply (tracks_prune n now self h Ht). lia.
  - split; [|done]. apply (tracks_refund n); [done|lia|mlia].
  - split; [apply (tracks_charge n); [done|mlia..]|].
    rewrite units_app, units_cons. unfold units at 2, sum_with. simpl. lia.
  - split; [|done]. unfold pause_for. destruct (is_zero d); [apply (tracks_later n); [done|lia]|].
    apply tracks_set_hold; [apply (tracks_later n); [done|lia]|].
    pose proof (wf_hold _ (tr_wf _ _ Ht)). simpl in *. mlia.
  - split; [|done]. apply tracks_set_hold; [apply (tracks_later n); [done|lia]|]. mlia.
Qed.

Lemma charges_cons c calls : charges (c :: calls) = charges [c] + charges calls.
Proof. unfold charges. by rewrite sum_with_singleton, sum_with_cons. Qed.

Lemma charges_nonneg calls : Forall call_ok calls -> 0 <= charges calls.
Proof.
  intros H. apply sum_with_nonneg. eapply Forall_impl; [exact H|].
  intros [now o] [_ Ho]. simpl in *. destruct o; mlia.
Qed.

Lemma tracks_run n st calls :
  tracks n st -> 0 <= n -> readings_from n calls -> Forall call_ok calls ->
  units (charged st.2) + charges calls + 2 * u32_max <= u64_max ->
  exists n', tracks n' (run step st calls) /\ n <= n' /\
    (forall rest, readings_from n (calls ++ rest) -> readings_from n' rest).
Proof.
  revert n st. induction calls as [|c calls IH]; intros n st Ht Hn Hr Hok Hroom.
  { exists n. split; [done|]. split; [lia|]. done. }
  destruct Hr as [Hc Hr]. apply Forall_cons in Hok as [Hcok Hok].
  pose proof (charges_nonneg calls Hok). rewrite charges_cons in Hroom.
  destruct (tracks_step n st c Ht ltac:(lia) Hcok ltac:(lia)) as [Ht' Hch].
  rewrite run_cons. destruct (IH (reading c) (step st c) Ht' ltac:(lia) Hr Hok ltac:(lia))
    as (n' & Hn' & Hle & Hrest).
  exists n'. split; [done|]. split; [lia|]. intros rest [_ Hrr]. by apply Hrest.
Qed.

Lemma new_wf limit window : is_u32 limit -> 0 <= window -> wf (new limit window).
Proof. intros. constructor; simpl; try done; try constructor; mlia. Qed.

Lemma tracks_start limit window :
  is_u32 limit -> 0 <= window -> tracks 0 (start limit window).
Proof.
  intros Hl Hw. constructor; simpl; try done; try (by constructor).
  - by apply new_wf.
  - unfold units, sum_with. simpl. mlia.
  - intros t. unfold units_in, units, sum_with. simpl. mlia.
Qed.

Lemma step_config st c :
  limit (step st c).1 = limit st.1 /\ window_ns (step st c).1 = window_ns st.1.
Proof.
  destruct st as [self h]. unfold step.
  destruct (request c) as [cost|cost| |cost|cost|d|]; simpl.
  - unfold acquire_cost. pose proof (evaluate_keeps_config self (reading c) cost true).
    by destruct (evaluate self (reading c) cost true).
  - apply evaluate_keeps_config.
  - unfold available. by destruct (_ <? _).
  - unfold refund. by destruct (refund_loop _ _ _).
  - unfold charge_spent. by destruct (cost =? 0).
  - unfold pause_for. by destruct (is_zero d).
  - done.
Qed.

Lemma run_config st calls :
  limit (run step st calls).1 = limit st.1 /\ window_ns (run step st calls).1 = window_ns st.1.
Proof.
  revert st. induction calls as [|c calls IH]; intros st; [done|].
  rewrite run_cons. destruct (IH (step st c)) as [-> ->]. apply step_config.
Qed.

(** A grant of some units finds room for everything granted and charged in
    the window that was not given back since. *)
Lemma granted_with_room n now self h cost :
  tracks n (self, h) -> 0 <= n <= now -> now < u64_max -> 0 < cost ->
  (acquire_cost self now cost).1 = Acquired ->
  units_in (granted h) (now - window_ns self) now +
    units_in (charged h) (now - window_ns self) now + cost <=
  limit self + units_in (refunded h) (now - window_ns self) now.
Proof.
  intros Ht Hn Hnow Hcost Hd. unfold acquire_cost in Hd.
  destruct (decide (cost = 0 \/ limit self < cost \/ now < hold_until_ns (log self)))
    as [Hearly|Hlate].
  { destruct (evaluate_early self now cost true Hearly) as [_ Hz]. specialize (Hz Hd). lia. }
  rewrite evaluate_live in Hd by (try lia; apply (tr_wf _ _ Ht)).
  destruct (Z.leb_spec (units (live (window_ns self) now (grants (log self))) + cost)
    (limit self)) as [Hfit|Hno]; [|done].
  apply (tracks_later n now) in Ht; [|lia]. pose proof (tr_covered _ _ Ht now ltac:(lia)) as Hcov.
  unfold standing in Hcov. simpl in Hcov.
  rewrite !(units_in_live now) by (apply Ht || lia). lia.
Qed.

(** C1: the exact sliding-window guarantee. Whatever sequence of acquires,
    peeks, reads, refunds, charges, pauses and resumes reaches a fresh
    limiter with readings that do not go back, and whatever the costs: the
    units granted in any trailing window of the configured length never
    exceed the limit plus the units given back in that window (so never the
    limit itself when nothing was given back: there is no boundary burst),
    and a grant is only made when, with it, the units granted and charged in
    the window stay within the limit plus those given back there. *)
Theorem window_never_exceeded (limit : Z) (window : Duration) (calls : list call) :
  is_u32 limit -> 1 <= window <= u64_max ->
  readings_from 0 calls -> Forall call_ok calls -> charges calls + 2 * u32_max <= u64_max ->
  let '(self, h) := run step (start limit window) calls in
  (forall t,
    units_in (granted h) (t - window) t <= limit + units_in (refunded h) (t - window) t) /\
  (forall now cost,
    readings_from 0 (calls ++ [mkCall now (OpAcquire cost)]) -> now < u64_max -> 0 < cost ->
    (acquire_cost self now cost).1 = Acquired ->
    units_in (granted h) (now - window) now + units_in (charged h) (now - window) now + cost <=
    limit + units_in (refunded h) (now - window) now).
Proof.
  intros Hl Hw Hr Hok Hch.
  destruct (tracks_run 0 _ calls (tracks_start limit window Hl ltac:(lia)) ltac:(lia) Hr Hok Hch)
    as (n & Ht & Hn & Hrest).
  destruct (run_config (start limit window) calls) as [Hlim Hwin].
  destruct (run step (start limit window) calls) as [self h]. simpl in *.
  replace (Z.max (to_u64_or_max (as_nanos window)) 1) with window in Hwin by mlia.
  rewrite <- Hlim, <- Hwin. split; [apply (tr_bound _ _ Ht)|].
  intros now cost Hnow Hmax Hc Hd. destruct (Hrest _ Hnow) as [Hle _]. simpl in Hle.
  by apply (granted_with_room n).
Qed.

Lemma window_never_exceeded_witness :
  let '(self, h) := run step (start 3 10)
    [mkCall 0 (OpAcquire 2); mkCall 4 (OpAcquire 2); mkCall 5 (OpAcquire 1);
     mkCall 9 (OpAcquire 1); mkCall 10 (OpRefund 1); mkCall 10 (OpAcquire 1);
     mkCall 11 (OpCharge 1)] in
  units_in (granted h) 0 10 <= 3 + units_in (refunded h) 0 10 /\
  (acquire_cost self 20 2).1 = Acquired /\
  units_in (granted h) 10 20 + units_in (charged h) 10 20 + 2 <= 3 + units_in (refunded h) 10 20.
Proof.
  destruct (window_never_exceeded 3 10
    [mkCall 0 (OpAcquire 2); mkCall 4 (OpAcquire 2); mkCall 5 (OpAcquire 1);
     mkCall 9 (OpAcquire 1); mkCall 10 (OpRefund 1); mkCall 10 (OpAcquire 1);
     mkCall 11 (OpCharge 1)]) as [Hwin Hgrant];
    [mlia|mlia|simpl; lia|repeat constructor; simpl; mlia|vm_compute; discriminate|].
  split; [exact (Hwin 10)|]. split; [reflexivity|].
  apply (Hgrant 20 2); [simpl; lia|mlia|lia|reflexivity].
Defined.

(** ** Waiting times are exact *)

(** The grant whose expiry frees the [needed]-th unit. *)
Lemma split_at_needed gs needed :
  Forall grant_ok gs -> 0 < needed <= units gs ->
  exists pre g post, gs = pre ++ g :: post /\ units pre < needed <= units pre + count g.
Proof.
  intros Hok. revert needed. induction Hok as [|g gs [Hc Ha] Hok IH]; intros needed Hn.
  - unfold units, sum_with in Hn. simpl in Hn. lia.
  - rewrite units_cons in Hn. destruct (decide (needed <= count g)) as [Hle|Hgt].
    + exists [], g, gs. split; [done|]. unfold units, sum_with. simpl. lia.
    + destruct (IH (needed - count g) ltac:(lia)) as (pre & g' & post & -> & Hpre).
      exists (g :: pre), g', post. split; [done|]. rewrite units_cons. lia.
Qed.

Lemma wait_for_loop_at w now needed pre g post freed :
  Forall grant_ok pre -> 0 <= freed -> freed + units pre + count g <= u64_max ->
  freed + units pre < needed <= freed + units pre + count g ->
  wait_for_loop w now needed (pre ++ g :: post) freed =
  from_nanos (sat_sub (sat_add u64_max (at_ns g) w) now).
Proof.
  intros Hok. revert freed. induction Hok as [|x pre [Hc Ha] Hok IH]; intros freed Hf Hmax Hn.
  - simpl. unfold units, sum_with in *. simpl in *. rewrite (proj2 (Z.leb_le _ _)) by mlia. done.
  - rewrite units_cons in *. pose proof (units_nonneg _ Hok). simpl.
    rewrite (proj2 (Z.leb_gt _ _)) by mlia. rewrite sat_add_exact by lia. apply IH; lia.
Qed.

Lemma live_split w t pre g post :
  oldest_first (pre ++ g :: post) -> t < at_ns g + w ->
  live w t (pre ++ g :: post) = live w t pre ++ g :: post.
Proof.
  intros Hs Ht. apply StronglySorted_app in Hs as (_ & _ & Hs).
  pose proof (live_sorted_cons w t g post Hs Ht) as E.
  unfold live in *. by rewrite filter_app, E.
Qed.

Lemma live_after w t pre g post :
  oldest_first (pre ++ g :: post) -> Forall grant_ok post -> at_ns g + w <= t ->
  units (live w t (pre ++ g :: post)) <= units post.
Proof.
  intros Hs Hok Ht. apply StronglySorted_app in Hs as (Hle & _ & _).
  replace (live w t (pre ++ g :: post)) with (live w t post); [by apply live_units_le|].
  unfold live. rewrite filter_app, (filter_cons_False _ g) by lia.
  assert (E : live w t pre = []).
  { apply live_none, Forall_forall. intros x Hx.
    specialize (Hle x g Hx ltac:(by left)). simpl in Hle. lia. }
  unfold live in E. by rewrite E.
Qed.

(** An unpaused limiter seen at [now], decided for a cost that does not fit. *)
Lemma peek_live self now cost :
  wf self -> now < u64_max -> 1 <= cost <= limit self -> hold_until_ns (log self) <= now ->
  let gs := live (window_ns self) now (grants (log self)) in
  (peek self now cost).1 =
  if units gs + cost <=? limit self then Acquired
  else Retry (wait_for_loop (window_ns self) now (units gs + cost - limit self) gs 0).
Proof.
  intros Hwf Hnow Hcost Hhold gs. unfold peek. rewrite evaluate_live by done.
  fold gs. by destruct (units gs + cost <=? limit self).
Qed.

(** The grant a refused request waits for, and what is live before and after
    it leaves the window. *)
Lemma refused_waits_for self now cost :
  wf self -> now < u64_max -> 1 <= cost <= limit self ->
  let gs := live (window_ns self) now (grants (log self)) in
  limit self < units gs + cost ->
  exists pre g post, gs = pre ++ g :: post /\ now < at_ns g + window_ns self /\
    g ∈ grants (log self) /\
    units pre < units gs + cost - limit self <= units pre + count g.
Proof.
  intros Hwf Hnow Hcost gs Hover.
  pose proof (live_grants_ok (window_ns self) now _ (wf_grants _ Hwf)) as Hok.
  destruct (split_at_needed gs (units gs + cost - limit self) Hok ltac:(lia))
    as (pre & g & post & E & Hn).
  exists pre, g, post. split; [done|].
  assert (Hg : g ∈ gs) by (rewrite E; apply list_elem_of_In, in_elt).
  unfold gs, live in Hg. apply list_elem_of_filter in Hg as [Hg Hin]. done.
Qed.

Lemma peek_refused_until self now now' cost pre g post :
  wf self -> now <= now' < u64_max -> 1 <= cost <= limit self ->
  hold_until_ns (log self) <= now -> at_ns g + window_ns self <= u64_max ->
  live (window_ns self) now (grants (log self)) = pre ++ g :: post ->
  units pre < units (pre ++ g :: post) + cost - limit self <= units pre + count g ->
  (now' < at_ns g + window_ns self ->
     (peek self now' cost).1 = Retry (at_ns g + window_ns self - now')) /\
  (at_ns g + window_ns self <= now' -> (peek self now' cost).1 = Acquired).
Proof.
  intros Hwf Hnow Hcost Hhold Hsat E Hn.
  pose proof (live_oldest_first (window_ns self) now _ (wf_sorted _ Hwf)) as Hs.
  pose proof (live_grants_ok (window_ns self) now _ (wf_grants _ Hwf)) as Hok.
  pose proof (live_units_le (window_ns self) now _ (wf_grants _ Hwf)) as Hle.
  pose proof (wf_room _ Hwf) as Hroom. rewrite (wf_used _ Hwf) in Hroom.
  rewrite E in Hs, Hok, Hle. apply Forall_app in Hok as [Hpre Hgpost].
  apply Forall_cons in Hgpost as [Hg Hpost].
  rewrite peek_live by (done || lia).
  rewrite <- (live_live (window_ns self) now now') by lia. rewrite E.
  rewrite units_app, units_cons in Hn, Hle. split; intros Hg'.
  - rewrite live_split by done. rewrite !units_app, !units_cons.
    pose proof (live_units_le (window_ns self) now' pre Hpre).
    pose proof (units_nonneg _ (live_grants_ok (window_ns self) now' pre Hpre)).
    pose proof (units_nonneg _ Hpost).
    rewrite (proj2 (Z.leb_gt _ _)) by lia. f_equal.
    rewrite wait_for_loop_at; [mlia|by apply live_grants_ok|lia|mlia|lia].
  - pose proof (live_after (window_ns self) now' pre g post Hs Hpost Hg').
    by rewrite (proj2 (Z.leb_le _ _)) by lia.
Qed.

(** C35: the wait reported by a refusal is exact to the nanosecond. Asking
    again any earlier is refused with the time that is left, and asking when
    it has passed is granted (if nobody else came); the wait is positive, so
    a retry loop cannot spin. *)
Theorem retry_wait_is_exact (self : SlidingWindowLog) (now cost after now' : Z) :
  wf self -> Forall (fun g => at_ns g + window_ns self <= u64_max) (grants (log self)) ->
  1 <= cost <= limit self -> hold_until_ns (log self) <= now -> now <= now' < u64_max ->
  (peek self now cost).1 = Retry after ->
  0 < after /\
  (now' < now + after -> (peek self now' cost).1 = Retry (now + after - now')) /\
  (now + after <= now' -> (peek self now' cost).1 = Acquired).
Proof.
  intros Hwf Hsat Hcost Hhold Hnow Hp.
  pose proof Hp as Hp'. rewrite peek_live in Hp' by (done || lia).
  destruct (Z.leb_spec (units (live (window_ns self) now (grants (log self))) + cost) (limit self))
    as [|Hover]; [done|].
  destruct (refused_waits_for self now cost Hwf ltac:(lia) Hcost Hover)
    as (pre & g & post & E & Hlive & Hin & Hn).
  rewrite Forall_forall in Hsat. specialize (Hsat g Hin). rewrite E in Hn.
  destruct (peek_refused_until self now now cost pre g post) as [Hat _]; try (done || lia).
  destruct (peek_refused_until self now now' cost pre g post) as [Hbefore Hafter]; try (done || lia).
  rewrite Hp in Hat. specialize (Hat Hlive). injection Hat as ->.
  split; [lia|]. split; intros H.
  - rewrite Hbefore by lia. f_equal. lia.
  - apply Hafter. lia.
Qed.

Definition retry_example : SlidingWindowLog :=
  (run step (start 3 10) [mkCall 0 (OpAcquire 2); mkCall 4 (OpAcquire 1)]).1.

Lemma retry_wait_is_exact_witness :
  (peek retry_example 5 2).1 = Retry 5 /\ (peek retry_example 9 2).1 = Retry 1 /\
  (peek retry_example 10 2).1 = Acquired.
Proof.
  assert (Hwf : wf retry_example).
  { constructor; vm_compute; repeat constructor; discriminate. }
  assert (Hsat : Forall (fun g => at_ns g + window_ns retry_example <= u64_max)
    (grants (log retry_example))) by (repeat constructor; vm_compute; discriminate).
  assert (Hp : (peek retry_example 5 2).1 = Retry 5) by reflexivity.
  split; [reflexivity|]. split.
  - apply (retry_wait_is_exact retry_example 5 2 5 9 Hwf Hsat); [vm_compute; repeat split; discriminate..|done|lia].
  - apply (retry_wait_is_exact retry_example 5 2 5 10 Hwf Hsat); [vm_compute; repeat split; discriminate..|done|lia].
Defined.

(** ** Refunds *)

Lemma live_front_dead w t g gs : at_ns g + w <= t -> live w t (g :: gs) = live w t gs.
Proof. intros H. unfold live. by rewrite filter_cons_False by lia. Qed.

(** A refund takes from the oldest units first, so what stays live at [t] is
    the old live units, capped by the units that are left. *)
Lemma refund_loop_live w t gs u cost :
  oldest_first gs -> Forall grant_ok gs -> 0 <= cost <= units gs -> units gs <= u ->
  units (live w t (refund_loop gs u cost).1) = Z.min (units (live w t gs)) (units gs - cost).
Proof.
  revert u cost. induction gs as [|g gs IH]; intros u cost Hs Hok Hc Hu.
  { unfold units, sum_with in *; simpl in *. lia. }
  inversion Hs as [|? ? Hs' Hall]; subst. apply Forall_cons in Hok as [[Hg Ha] Hok].
  pose proof (units_nonneg _ Hok) as Hnn. pose proof (live_units_le w t _ Hok) as Hlive.
  rewrite units_cons in *. simpl. zcase; simpl.
  - replace cost with 0 by lia. destruct (decide (at_ns g + w <= t)).
    + rewrite live_front_dead by done. lia.
    + rewrite live_sorted_cons by (done || lia). rewrite units_cons. lia.
  - rewrite IH by (done || lia || mlia). destruct (decide (at_ns g + w <= t)).
    + rewrite live_front_dead by done. lia.
    + rewrite (live_sorted_cons w t g gs Hs) by lia. rewrite units_cons.
      inversion Hs; subst. rewrite live_all; [lia|].
      eapply Forall_impl; [exact Hall|]. simpl. lia.
  - destruct (decide (at_ns g + w <= t)).
    + rewrite !live_front_dead by done. lia.
    + rewrite (live_sorted_cons w t g gs Hs) by lia.
      rewrite live_all; [rewrite !units_cons; simpl; lia|].
      constructor; simpl; [lia|]. eapply Forall_impl; [exact Hall|]. simpl. lia.
Qed.

Lemma refund_loop_used gs u cost :
  Forall grant_ok gs -> 0 <= cost <= units gs -> u = units gs ->
  (refund_loop gs u cost).2 = units gs - cost.
Proof.
  intros Hok. revert u cost. induction Hok as [|g gs [Hg Ha] Hok IH]; intros u cost Hc ->.
  { unfold units, sum_with in *; simpl in *. lia. }
  pose proof (units_nonneg _ Hok) as Hnn. rewrite units_cons in *. simpl. zcase; simpl.
  - lia.
  - rewrite IH by mlia. lia.
  - mlia.
Qed.

Lemma right_grant_live w t pre g post cost :
  units (live w t (pre ++ mkGrant (at_ns g) (count g - cost) :: post)) =
  units (live w t (pre ++ g :: post)) - (if bool_decide (t < at_ns g + w) then cost else 0).
Proof.
  unfold live. rewrite !filter_app, !units_app, !filter_cons. simpl.
  case_bool_decide; repeat case_decide; try lia; rewrite ?units_cons; simpl; lia.
Qed.

(** a refund is conservative while the refunded grant is still in the
    log: at every later instant the window holds at least as many units as if
    the cancelled grant itself had been reduced, and the books ([used]) drop
    by exactly the refunded units. *)
Theorem refund_never_more_permissive (self : SlidingWindowLog) (pre post : list Grant)
    (g : Grant) (cost t : Z) :
  wf self -> grants (log self) = pre ++ g :: post -> 0 <= cost <= count g ->
  units (live (window_ns self) t (pre ++ mkGrant (at_ns g) (count g - cost) :: post))
    <= units (live (window_ns self) t (grants (log (refund self cost)))) /\
  used (log (refund self cost)) = used (log self) - cost.
Proof.
  intros Hwf E Hcost.
  pose proof (wf_sorted _ Hwf) as Hs. pose proof (wf_grants _ Hwf) as Hok.
  pose proof Hok as Hok'. rewrite E in Hok'. apply Forall_app in Hok' as [Hpre Hgp].
  apply Forall_cons in Hgp as [Hg Hpost].
  assert (Htot : units (grants (log self)) = units pre + (count g + units post))
    by (rewrite E, units_app, units_cons; done).
  pose proof (units_nonneg _ Hpre). pose proof (units_nonneg _ Hpost).
  unfold refund. destruct (refund_loop (grants (log self)) (used (log self)) cost) as [gs u] eqn:R.
  pose proof (refund_loop_live (window_ns self) t _ (used (log self)) cost Hs Hok
    ltac:(lia) ltac:(rewrite (wf_used _ Hwf); lia)) as Hl.
  pose proof (refund_loop_used _ (used (log self)) cost Hok ltac:(lia) (wf_used _ Hwf)) as Hu.
  rewrite R in Hl, Hu. simpl in *. split; [|by rewrite (wf_used _ Hwf)].
  rewrite Hl, right_grant_live, <- E.
  pose proof (live_units_le (window_ns self) t _ Hok) as Hle.
  case_bool_decide; [lia|].
  assert (units (live (window_ns self) t (grants (log self))) <= units pre + units post); [|lia].
  rewrite E. unfold live. rewrite filter_app, units_app, (filter_cons_False _ g) by lia.
  pose proof (live_units_le (window_ns self) t _ Hpre).
  pose proof (live_units_le (window_ns self) t _ Hpost). unfold live in *. lia.
Qed.

Lemma refund_never_more_permissive_witness :
  units (live 10 12 [mkGrant 0 2; mkGrant 4 0])
    <= units (live 10 12 (grants (log (refund retry_example 1)))) /\
  used (log (refund retry_example 1)) = 2.
Proof.
  assert (Hwf : wf retry_example).
  { constructor; vm_compute; repeat constructor; discriminate. }
  apply (refund_never_more_permissive retry_example [mkGrant 0 2] [] (mkGrant 4 1) 1 12 Hwf);
    [reflexivity|simpl; lia].
Defined.

(** the comment on [refund] ("never more permissive than if the right
    grant had been removed") needs the refunded grant to be in the window
    still. Here 3 units granted at 0 leave the window at 10 and are given
    back afterwards: the refund lands on the units granted at 10, and 6 units
    are admitted at the instant 10 by a limiter of 3 per window, where
    removing the right (expired) grant would have refused the last 3. *)
Theorem late_refund_over_admits :
  let before := [mkCall 0 (OpAcquire 3); mkCall 10 (OpAcquire 3)] in
  let last := mkCall 10 (OpAcquire 3) in
  units_in (granted (run step (start 3 10) (before ++ [mkCall 10 (OpRefund 3); last])).2) 0 10 = 6 /\
  units_in (granted (run step (start 3 10) (before ++ [last])).2) 0 10 = 3.
Proof. vm_compute. done. Qed.
