(* ===== verification/Wait.v ===== *)
(** * The waiting engine (src/src/wait.rs, the runtime cells of src/src/rt.rs)

    [wait_with] is a future: it runs synchronously between two awaits and may
    be dropped at any await. Its state machine is explicit here: [poll] is
    one synchronous segment of the loop, an [Await] records what the future
    sleeps on, and [exec] interleaves segments, wake-ups, cancellation and
    arbitrary steps of the rest of the program. *)

From S2P Require Import Prelude Decisions.

(** ** Steps and refusals *)

Inductive Step :=
  | Granted (wait : Duration)
  | Holding (wait : Duration)
  | StepRetry (after : Duration)
  | StepNever.

Inductive Refusal := RefusalNever | RefusalTimedOut.

(** What the waiter owns after a step: every unit, some units, or nothing. *)
Inductive Owns := OwnsNothing | OwnsSome | OwnsAll.

Definition owns (s : Step) : Owns :=
  match s with
  | Granted _ => OwnsAll
  | Holding _ => OwnsSome
  | StepRetry _ | StepNever => OwnsNothing
  end.

Definition RACE_YIELDS : Z := 4.
Definition RACE_BACKOFF : Duration := from_millis 1.

(** ** Deadlines: [Instant::now().checked_add(timeout)] *)

Definition Deadline : Type := option Z.

Definition deadline_after (instant_max now : Z) (timeout : option Duration) : Deadline :=
  match timeout with
  | None => None
  | Some t => checked_add instant_max now t
  end.

Definition deadline_remaining (deadline : Deadline) (now : Z) : Duration :=
  match deadline with
  | None => DURATION_MAX
  | Some at_ => sat_sub at_ now
  end.

(** ** Awaits

    A sleep of [d] begun at instant [t] is over at [due = t + d]. A sleep
    that [sleep_unless_resumed] began also ends when the resume epoch moves,
    unless it is too short to be worth a listener. *)

Inductive Await :=
  | AwaitGrant (due : Z)
  | AwaitPause (due : Z) (listening : bool) (epoch : Z)
  | AwaitYield
  | AwaitNap (due : Z) (listening : bool) (epoch : Z).

Inductive Phase :=
  | Looping
  | CheckPause
  | Awaiting (a : Await)
  | Done (r : Result unit Refusal)
  | Dropped.

Record Engine (T : Type) := mkEngine {
  phase : Phase;
  held : T;
  armed : bool;
  zero_waits : Z }.
Arguments mkEngine {T}. Arguments phase {T}. Arguments held {T}.
Arguments armed {T}. Arguments zero_waits {T}.

(** [sleep_unless_resumed(duration, epoch)] listens only for naps above a
    millisecond. *)
Definition worth_listening (duration : Duration) : bool := from_millis 1 <? duration.

Section Engine.
Context {W T : Type}.
(** The runtime: its instant and the process-wide resume epoch. *)
Context (instant_now : W -> Z) (resume_epoch : W -> Z).
(** The limiter's part: [step], [release], [paused]. *)
Context (step : T -> Duration -> M W (Step * T)).
Context (give_back : T -> M W T).
Context (paused : M W Duration).
Context (deadline : Deadline).

(** [Release::fire]: gives the held units back, once. *)
Definition fire (e : Engine T) : M W (Engine T) :=
  if armed e then
    let! t := give_back (held e) in
    mret (mkEngine (phase e) t false (zero_waits e))
  else mret e.

Definition finish (e : Engine T) (p : Phase) : Engine T :=
  mkEngine p (held e) (armed e) (zero_waits e).

(** Gives back what is held and ends with a timeout. *)
Definition time_out (e : Engine T) : M W (Engine T) :=
  let! e := fire e in mret (finish e (Done (Err RefusalTimedOut))).

(** The second half of a loop round: how to wait [after]. *)
Definition nap (e : Engine T) (after : Duration) (epoch : Z) : M W (Engine T) :=
  let sleep_on (e : Engine T) (d : Duration) : M W (Engine T) :=
    let! pause := paused in
    fun w =>
      if resume_epoch w =? epoch then
        let due := instant_now w + d in
        (finish e (Awaiting (AwaitNap due (negb (is_zero pause) && worth_listening d) epoch)), w)
      else (finish e Looping, w) in
  if is_zero after then
    let e := mkEngine (phase e) (held e) (armed e) (sat_add u32_max (zero_waits e) 1) in
    if zero_waits e <=? RACE_YIELDS then mret (finish e (Awaiting AwaitYield))
    else fun w =>
      let left := deadline_remaining deadline (instant_now w) in
      if is_zero left then time_out e w
      else sleep_on e (Z.min RACE_BACKOFF left) w
  else sleep_on (mkEngine (phase e) (held e) (armed e) 0) after.

(** One round of the main loop, up to its next await. *)
Definition poll_loop (e : Engine T) : M W (Engine T) := fun w =>
  let epoch := resume_epoch w in
  let budget := deadline_remaining deadline (instant_now w) in
  (let! (s, t) := step (held e) budget in
   let holding := mkEngine Looping t true (zero_waits e) in
   let idle := mkEngine Looping t false (zero_waits e) in
   match s with
   | Granted wait =>
       if is_zero wait then mret (finish holding CheckPause)
       else fun w => (finish holding (Awaiting (AwaitGrant (instant_now w + wait))), w)
   | Holding wait =>
       if budget <? wait then time_out holding else nap holding wait epoch
   | StepRetry after =>
       if budget <? after then mret (finish idle (Done (Err RefusalTimedOut)))
       else nap idle after epoch
   | StepNever => mret (finish idle (Done (Err RefusalNever)))
   end) w.

(** One round of the loop that sleeps out a pause set while the reservation
    matured. *)
Definition poll_pause (e : Engine T) : M W (Engine T) := fun w =>
  let epoch := resume_epoch w in
  (let! pause := paused in
   if is_zero pause then
     mret (mkEngine (Done (Ok tt)) (held e) false (zero_waits e))
   else fun w =>
     if deadline_remaining deadline (instant_now w) <? pause then time_out e w
     else (finish e (Awaiting (AwaitPause (instant_now w + pause) (worth_listening pause) epoch)), w)) w.

Definition poll (e : Engine T) : M W (Engine T) :=
  match phase e with
  | Looping => poll_loop e
  | CheckPause => poll_pause e
  | _ => mret e
  end.

(** Where the future resumes after an await. *)
Definition woken (a : Await) : Phase :=
  match a with
  | AwaitGrant _ | AwaitPause _ _ _ => CheckPause
  | AwaitYield | AwaitNap _ _ _ => Looping
  end.

(** When the runtime wakes the future. *)
Definition ready (a : Await) (w : W) : Prop :=
  match a with
  | AwaitGrant due => due <= instant_now w
  | AwaitYield => True
  | AwaitPause due listening epoch | AwaitNap due listening epoch =>
      due <= instant_now w \/ (listening = true /\ resume_epoch w <> epoch)
  end.

(** Dropping the future runs the release guard. *)
Definition drop_future (e : Engine T) : M W (Engine T) :=
  let! e := fire e in mret (finish e Dropped).

Definition start (t : T) : Engine T := mkEngine Looping t false 0.

(** The future among everything else: [env] is what other tasks, threads and
    the clock may do to the world. *)
Context (env : W -> W -> Prop).

Inductive exec : Engine T * W -> Engine T * W -> Prop :=
  | exec_poll e w : phase e = Looping \/ phase e = CheckPause -> exec (e, w) (poll e w)
  | exec_wake e w a : phase e = Awaiting a -> ready a w -> exec (e, w) (finish e (woken a), w)
  | exec_drop e w a : phase e = Awaiting a -> exec (e, w) (drop_future e w)
  | exec_env e w w' : env w w' -> exec (e, w) (e, w').

Inductive execs : Engine T * W -> Engine T * W -> Prop :=
  | execs_refl c : execs c c
  | execs_step c c' c'' : execs c c' -> exec c' c'' -> execs c c''.

(** The segment's result, evaluated. *)
Lemma exec_poll_to e w c :
  phase e = Looping \/ phase e = CheckPause -> poll e w = c -> exec (e, w) c.
Proof. intros H <-. by apply exec_poll. Qed.

End Engine.

(** ** What a limiter promises the engine *)

(** Ownership: [Inv o t w] says that the waiter owns [o]. A step is asked
    of a waiter that does not own everything yet and reports truthfully what
    it owns afterwards; a release gives everything back. *)
Class Ownership {W T} (step : T -> Duration -> M W (Step * T)) (give_back : T -> M W T)
    (paused : M W Duration) (env : W -> W -> Prop) (Inv : Owns -> T -> W -> Prop) : Prop := {
  own_step o t d w : o <> OwnsAll ->
    Inv o t w -> Inv (owns (step t d w).1.1) (step t d w).1.2 (step t d w).2;
  own_release o t w : o <> OwnsNothing -> Inv o t w ->
    Inv OwnsNothing (give_back t w).1 (give_back t w).2;
  own_paused o t w : Inv o t w -> Inv o t (paused w).2;
  own_env o t w w' : Inv o t w -> env w w' -> Inv o t w' }.

(** Timeliness: the synchronous calls take no time, and a grant is no later
    than the budget it was given. *)
Class Timely {W T} (instant_now : W -> Z) (step : T -> Duration -> M W (Step * T))
    (give_back : T -> M W T) (paused : M W Duration) : Prop := {
  timely_step t d w : instant_now (step t d w).2 = instant_now w;
  timely_release t w : instant_now (give_back t w).2 = instant_now w;
  timely_paused w : instant_now (paused w).2 = instant_now w /\ 0 <= (paused w).1;
  timely_wait t d w : 0 <= d ->
    match (step t d w).1.1 with
    | Granted wait => 0 <= wait <= d
    | Holding wait => 0 <= wait
    | StepRetry after => 0 <= after
    | StepNever => True
    end }.

(** Between two rounds of the loop the guard is armed exactly when some
    units are held. *)
Definition looping_owns (armed : bool) : Owns := if armed then OwnsSome else OwnsNothing.

(** What holds of a future at each point of its life. *)
Definition owned {W T} (Inv : Owns -> T -> W -> Prop) (c : Engine T * W) : Prop :=
  let '(e, w) := c in
  match phase e with
  | Looping | Awaiting AwaitYield | Awaiting (AwaitNap _ _ _) =>
      Inv (looping_owns (armed e)) (held e) w
  | CheckPause | Awaiting (AwaitGrant _) | Awaiting (AwaitPause _ _ _) =>
      armed e = true /\ Inv OwnsAll (held e) w
  | Done (Ok _) => Inv OwnsAll (held e) w
  | Done (Err _) | Dropped => Inv OwnsNothing (held e) w
  end.

Section OwnershipProof.
Context {W T : Type} (instant_now : W -> Z) (resume_epoch : W -> Z).
Context (step : T -> Duration -> M W (Step * T)) (give_back : T -> M W T).
Context (paused : M W Duration) (deadline : Deadline) (env : W -> W -> Prop).
Context (Inv : Owns -> T -> W -> Prop) `{!Ownership step give_back paused env Inv}.

Abbreviation nap_ := (nap instant_now resume_epoch give_back paused deadline).

(** What an armed or unarmed guard may own when it fires. *)
Definition guards (e : Engine T) (w : W) : Prop :=
  exists o, Inv o (held e) w /\ (armed e = true <-> o <> OwnsNothing).

Lemma guards_looping e w : Inv (looping_owns (armed e)) (held e) w -> guards e w.
Proof. intros H. eexists. split; [exact H|]. by destruct (armed e). Qed.

Lemma guards_all e w : armed e = true -> Inv OwnsAll (held e) w -> guards e w.
Proof. intros Ha H. eexists. split; [exact H|]. done. Qed.

Lemma fire_owned e w :
  guards e w -> Inv OwnsNothing (held (fire give_back e w).1) (fire give_back e w).2.
Proof.
  intros (o & H & Ho). unfold fire. destruct (armed e).
  - rewrite mthen_run. simpl. apply (own_release o); [by apply Ho|done].
  - destruct o; [done|..]; exfalso; assert (false = true) by (by apply Ho); done.
Qed.

Lemma time_out_owned e w : guards e w -> owned Inv (time_out give_back e w).
Proof. intros H. unfold time_out. rewrite mthen_run. simpl. by apply fire_owned. Qed.

Lemma drop_owned e w : guards e w -> owned Inv (drop_future give_back e w).
Proof. intros H. unfold drop_future. rewrite mthen_run. simpl. by apply fire_owned. Qed.

Lemma nap_owned e after epoch w :
  Inv (looping_owns (armed e)) (held e) w -> owned Inv (nap_ e after epoch w).
Proof.
  intros H. unfold nap. destruct (is_zero after).
  - simpl. destruct (_ <=? RACE_YIELDS); [done|].
    destruct (is_zero (deadline_remaining _ _)); [by apply time_out_owned, guards_looping|].
    rewrite mthen_run. destruct (_ =? epoch); simpl; by apply own_paused.
  - rewrite mthen_run. destruct (_ =? epoch); simpl; by apply own_paused.
Qed.

Lemma poll_loop_owned e w :
  Inv (looping_owns (armed e)) (held e) w ->
  owned Inv (poll_loop instant_now resume_epoch step give_back paused deadline e w).
Proof.
  intros H. unfold poll_loop. rewrite mthen_run.
  assert (Hne : looping_owns (armed e) <> OwnsAll) by (by destruct (armed e)).
  pose proof (own_step (env := env) (Inv := Inv) _ (held e)
    (deadline_remaining deadline (instant_now w)) w Hne H) as Hs.
  destruct (step (held e) _ w) as [[s t] w']. simpl in *.
  destruct s as [wait|wait|after|]; simpl in Hs.
  - by destruct (is_zero wait).
  - destruct (_ <? wait); [by apply time_out_owned, guards_looping|by apply nap_owned].
  - destruct (_ <? after); [done|by apply nap_owned].
  - done.
Qed.

Lemma poll_pause_owned e w :
  armed e = true -> Inv OwnsAll (held e) w ->
  owned Inv (poll_pause instant_now resume_epoch give_back paused deadline e w).
Proof.
  intros Ha H. unfold poll_pause. rewrite mthen_run.
  assert (Hp : Inv OwnsAll (held e) (paused w).2) by (by apply own_paused).
  destruct (is_zero (paused w).1); [done|].
  destruct (_ <? _); [by apply time_out_owned, guards_all|done].
Qed.

Lemma exec_owned c c' :
  exec instant_now resume_epoch step give_back paused deadline env c c' ->
  owned Inv c -> owned Inv c'.
Proof.
  intros Hx. destruct Hx as [e w Hp|e w a Hp Hr|e w a Hp|e w w' He]; simpl.
  - unfold poll. destruct Hp as [-> | ->]; intros H.
    + by apply poll_loop_owned.
    + by apply poll_pause_owned; destruct H.
  - rewrite Hp. destruct a; simpl; tauto.
  - rewrite Hp. intros H. apply drop_owned.
    destruct a; simpl in H; destruct_and?; first [by apply guards_looping|by apply guards_all].
  - intros H. assert (Henv : forall o, Inv o (held e) w -> Inv o (held e) w').
    { intros o Ho. by apply (own_env o (held e) w w'). }
    destruct (phase e) as [| |[]|[]|]; destruct_and?; auto.
Qed.

(** Every execution of the future keeps the books, whatever else runs. *)
Lemma execs_owned c c' :
  execs instant_now resume_epoch step give_back paused deadline env c c' ->
  owned Inv c -> owned Inv c'.
Proof. induction 1; eauto using exec_owned. Qed.

End OwnershipProof.

(** ** Deadlines *)

Definition await_due (a : Await) : option Z :=
  match a with
  | AwaitGrant due | AwaitPause due _ _ | AwaitNap due _ _ => Some due
  | AwaitYield => None
  end.

Section TimelyProof.
Context {W T : Type} (instant_now : W -> Z) (resume_epoch : W -> Z).
Context (step : T -> Duration -> M W (Step * T)) (give_back : T -> M W T).
Context (paused : M W Duration) (deadline : Deadline).
Context `{!Timely instant_now step give_back paused}.

Abbreviation left_at w := (deadline_remaining deadline (instant_now w)).

(** A future that sleeps sleeps from now, and no longer than the deadline
    leaves. *)
Definition sleeps_in_time (t left : Z) (e : Engine T) : Prop :=
  forall a due, phase e = Awaiting a -> await_due a = Some due -> t <= due <= t + left.

Lemma left_at_nonneg w : 0 <= left_at w.
Proof. unfold deadline_remaining. destruct deadline; mlia. Qed.

Lemma fire_clock e w : instant_now (fire give_back e w).2 = instant_now w.
Proof.
  unfold fire. destruct (armed e); [|done]. rewrite mthen_run. simpl. apply timely_release.
Qed.

Lemma time_out_done e w :
  phase (time_out give_back e w).1 = Done (Err RefusalTimedOut) /\
  instant_now (time_out give_back e w).2 = instant_now w.
Proof. unfold time_out. rewrite mthen_run. simpl. split; [done|]. apply fire_clock. Qed.

Lemma nap_in_time e after epoch w :
  0 <= after <= left_at w ->
  let '(e', w') := nap instant_now resume_epoch give_back paused deadline e after epoch w in
  instant_now w' = instant_now w /\ sleeps_in_time (instant_now w) (left_at w) e'.
Proof.
  intros Ha. destruct (timely_paused (instant_now := instant_now) (paused := paused) w)
    as [Hc Hp]. unfold nap, sleeps_in_time.
  assert (Hsleep : forall (e' : Engine T) d, 0 <= d <= left_at w ->
    let '(e', w') := mthen paused (fun pause w =>
      if resume_epoch w =? epoch then
        (finish e' (Awaiting (AwaitNap (instant_now w + d)
          (negb (is_zero pause) && worth_listening d) epoch)), w)
      else (finish e' Looping, w)) w in
    instant_now w' = instant_now w /\ forall a due, phase e' = Awaiting a ->
      await_due a = Some due -> instant_now w <= due <= instant_now w + left_at w).
  { intros e' d Hd. rewrite mthen_run. destruct (_ =? epoch); (split; [done|]); simpl; [|done].
    intros a due [= <-] [= <-]. rewrite Hc. lia. }
  destruct (is_zero after) eqn:Ez.
  - simpl. destruct (_ <=? RACE_YIELDS).
    { split; [done|]. intros a due [= <-]. done. }
    destruct (is_zero (left_at w)) eqn:El.
    + destruct (time_out_done (mkEngine (phase e) (held e) (armed e)
        (sat_add u32_max (zero_waits e) 1)) w) as [Hd Hc'].
      destruct (time_out _ _ w) as [e' w'] eqn:Et. simpl in *. split; [done|].
      intros a due Hph. congruence.
    + apply Hsleep. unfold RACE_BACKOFF, is_zero in *. pose proof (left_at_nonneg w). mlia.
  - by apply Hsleep.
Qed.

Lemma poll_in_time e w :
  phase e = Looping \/ phase e = CheckPause ->
  let '(e', w') := poll instant_now resume_epoch step give_back paused deadline e w in
  instant_now w' = instant_now w /\ sleeps_in_time (instant_now w) (left_at w) e'.
Proof.
  intros Hph. unfold poll. pose proof (left_at_nonneg w) as Hleft. destruct Hph as [-> | ->].
  - unfold poll_loop. rewrite mthen_run.
    pose proof (timely_step (instant_now := instant_now) (step := step) (held e) (left_at w) w) as Hc.
    pose proof (timely_wait (instant_now := instant_now) (step := step) (held e) (left_at w) w Hleft) as Hw.
    destruct (step (held e) (left_at w) w) as [[s t] w']. simpl in *.
    assert (Hl : left_at w' = left_at w) by (by rewrite Hc).
    destruct s as [wait|wait|after|].
    + destruct (is_zero wait); simpl; (split; [done|]); intros a due; simpl; [done|].
      intros [= <-] [= <-]. lia.
    + destruct (Z.ltb_spec (left_at w) wait).
      * destruct (time_out_done (mkEngine Looping t true (zero_waits e)) w') as [Hd Hc'].
        destruct (time_out _ _ w') as [e' w'']. simpl in *. split; [lia|].
        intros a due Hph. congruence.
      * rewrite <- Hc. apply nap_in_time. lia.
    + destruct (Z.ltb_spec (left_at w) after); [split; [done|]; intros a due; done|].
      rewrite <- Hc. apply nap_in_time. lia.
    + split; [done|]. intros a due; done.
  - unfold poll_pause. rewrite mthen_run.
    destruct (timely_paused (instant_now := instant_now) (paused := paused) w) as [Hc Hp].
    destruct (is_zero (paused w).1); [split; [done|]; intros a due; done|].
    destruct (Z.ltb_spec (left_at (paused w).2) (paused w).1) as [|Hle].
    + destruct (time_out_done e (paused w).2) as [Hd Hc'].
      destruct (time_out _ _ _) as [e' w'']. simpl in *. split; [lia|].
      intros a due Hph. congruence.
    + simpl. split; [done|]. intros a due [= <-] [= <-]. rewrite Hc in *. lia.
Qed.

(** Runs a future whose yields are answered at once. *)
Fixpoint settle (fuel : nat) (e : Engine T) : M W (Engine T) :=
  match fuel with
  | O => mret e
  | S fuel =>
      match phase e with
      | Looping | CheckPause =>
          let! e := poll instant_now resume_epoch step give_back paused deadline e in
          settle fuel e
      | Awaiting AwaitYield => settle fuel (finish e Looping)
      | _ => mret e
      end
  end.

Lemma settle_done fuel e r w : phase e = Done r -> settle fuel e w = (e, w).
Proof. intros H. destruct fuel; simpl; [done|]. by rewrite H. Qed.

Lemma nap_zero_at_deadline e epoch w :
  left_at w = 0 -> 0 <= zero_waits e ->
  let '(e', w') := nap instant_now resume_epoch give_back paused deadline e 0 epoch w in
  instant_now w' = instant_now w /\
  ((exists r, phase e' = Done r) \/
   (phase e' = Awaiting AwaitYield /\ zero_waits e' = zero_waits e + 1 /\ zero_waits e < RACE_YIELDS)).
Proof.
  intros Hleft Hz. unfold nap. simpl.
  destruct (Z.leb_spec (sat_add u32_max (zero_waits e) 1) RACE_YIELDS) as [Hle|Hgt]; simpl.
  - split; [done|]. right. unfold RACE_YIELDS in *. split; [done|]. mlia.
  - rewrite Hleft. simpl.
    destruct (time_out_done (mkEngine (phase e) (held e) (armed e)
      (sat_add u32_max (zero_waits e) 1)) w) as [Hd Hc].
    destruct (time_out _ _ w). simpl in *. eauto.
Qed.

Lemma poll_loop_at_deadline e w :
  left_at w = 0 -> phase e = Looping -> 0 <= zero_waits e ->
  let '(e', w') := poll instant_now resume_epoch step give_back paused deadline e w in
  instant_now w' = instant_now w /\
  ((exists r, phase e' = Done r) \/ phase e' = CheckPause \/
   (phase e' = Awaiting AwaitYield /\ zero_waits e' = zero_waits e + 1 /\ zero_waits e < RACE_YIELDS)).
Proof.
  intros Hleft Hph Hz. unfold poll. rewrite Hph. unfold poll_loop. rewrite mthen_run.
  pose proof (timely_step (instant_now := instant_now) (step := step) (held e) (left_at w) w) as Hc.
  pose proof (timely_wait (instant_now := instant_now) (step := step) (held e) (left_at w) w
    (left_at_nonneg w)) as Hw.
  destruct (step (held e) (left_at w) w) as [[s t] w']. simpl in *.
  assert (Hnap : forall b,
    let '(e', w'') := nap instant_now resume_epoch give_back paused deadline
      (mkEngine Looping t b (zero_waits e)) 0 (resume_epoch w) w' in
    instant_now w'' = instant_now w /\
    ((exists r, phase e' = Done r) \/ phase e' = CheckPause \/
     (phase e' = Awaiting AwaitYield /\ zero_waits e' = zero_waits e + 1 /\
      zero_waits e < RACE_YIELDS))).
  { intros b. pose proof (nap_zero_at_deadline (mkEngine Looping t b (zero_waits e))
      (resume_epoch w) w' ltac:(by rewrite Hc) Hz) as H.
    destruct (nap _ _ _ _ _ _ _ _ w'). rewrite Hc in H. simpl in H. tauto. }
  destruct s as [wait|wait|after|].
  - replace wait with 0 by lia. simpl. eauto.
  - destruct (Z.ltb_spec (left_at w) wait).
    + destruct (time_out_done (mkEngine Looping t true (zero_waits e)) w') as [Hd Hc'].
      destruct (time_out _ _ w'). simpl in *. rewrite Hc'. eauto.
    + replace wait with 0 by lia. apply Hnap.
  - destruct (Z.ltb_spec (left_at w) after); [simpl; eauto|].
    replace after with 0 by lia. apply Hnap.
  - simpl. eauto.
Qed.

Lemma poll_pause_at_deadline e w :
  left_at w = 0 -> phase e = CheckPause ->
  exists r, phase (poll instant_now resume_epoch step give_back paused deadline e w).1 = Done r.
Proof.
  intros Hleft Hph. unfold poll. rewrite Hph. unfold poll_pause. rewrite mthen_run.
  destruct (timely_paused (instant_now := instant_now) (paused := paused) w) as [Hc Hp].
  unfold is_zero. destruct (Z.eqb_spec (paused w).1 0); [simpl; eauto|].
  rewrite Hc, Hleft, (proj2 (Z.ltb_lt _ _)) by lia.
  destruct (time_out_done e (paused w).2) as [Hd _]. eauto.
Qed.

Lemma settle_at_deadline k fuel e w :
  left_at w = 0 -> phase e = Looping -> 0 <= zero_waits e ->
  RACE_YIELDS - zero_waits e <= Z.of_nat k -> (2 * k + 3 <= fuel)%nat ->
  exists r, phase (settle fuel e w).1 = Done r.
Proof.
  revert fuel e w. induction k as [|k IH]; intros fuel e w Hleft Hph Hz Hk Hf;
    (destruct fuel as [|fuel]; [lia|]); simpl; rewrite Hph, mthen_run;
    pose proof (poll_loop_at_deadline e w Hleft Hph Hz) as H;
    destruct (poll _ _ _ _ _ _ e w) as [e' w']; simpl;
    destruct H as (Hc & [[r Hd]|[Hcp|(Hy & Hz' & Hlt)]]).
  1, 4: rewrite (settle_done _ _ r) by done; eauto.
  1, 3: destruct fuel as [|fuel]; [lia|]; simpl; rewrite Hcp, mthen_run;
    destruct (poll_pause_at_deadline e' w' ltac:(by rewrite Hc) Hcp) as [r Hd];
    destruct (poll _ _ _ _ _ _ e' w') as [e'' w'']; simpl in *;
    rewrite (settle_done _ _ r) by done; eauto.
  - lia.
  - destruct fuel as [|fuel]; [lia|]. simpl. rewrite Hy.
    apply IH; simpl; [by rewrite Hc|done|lia..].
Qed.

End TimelyProof.

(** A one-slot client, to run the engine on: the world is the runtime clock,
    the resume epoch and the slot. *)
Record demo_world := mkDemo { d_clock : Z; d_epoch : Z; d_free : bool }.

Definition demo_step (_ : unit) (budget : Duration) : M demo_world (Step * unit) := fun w =>
  if d_free w then ((Granted 0, tt), mkDemo (d_clock w) (d_epoch w) false)
  else ((StepRetry 5, tt), w).
Definition demo_release (_ : unit) : M demo_world unit := fun w =>
  (tt, mkDemo (d_clock w) (d_epoch w) true).
Definition demo_paused : M demo_world Duration := mret 0.
(** The clock may advance. *)
Definition demo_env (w w' : demo_world) : Prop :=
  d_clock w <= d_clock w' /\ d_epoch w' = d_epoch w /\ d_free w' = d_free w.

#[export] Instance demo_timely : Timely d_clock demo_step demo_release demo_paused.
Proof.
  constructor; try done.
  - intros t d w. unfold demo_step. by destruct (d_free w).
  - intros t d w Hd. unfold demo_step. destruct (d_free w); simpl; lia.
Qed.

(** Whatever the interleaving, no waiter with a deadline sleeps past it: a
    pending sleep ends by the deadline, or is over already. *)
Theorem no_sleep_past_deadline {W T : Type} (instant_now resume_epoch : W -> Z)
    (step : T -> Duration -> M W (Step * T)) (give_back : T -> M W T) (paused : M W Duration)
    (env : W -> W -> Prop) (at_ : Z) (t : T) (w : W) (e : Engine T) (w' : W) (a : Await) (due : Z) :
  Timely instant_now step give_back paused ->
  (forall w w', env w w' -> instant_now w <= instant_now w') ->
  execs instant_now resume_epoch step give_back paused (Some at_) env (start t, w) (e, w') ->
  phase e = Awaiting a -> await_due a = Some due ->
  due <= Z.max at_ (instant_now w').
Proof.
  intros Ht Henv Hx. remember (start t, w) as c eqn:Ec. remember (e, w') as c' eqn:Ec'.
  revert e w' a due Ec'. induction Hx as [c|c c1 c2 _ IH Hx]; intros e w' a due -> Hph Hdue.
  - injection Ec as -> ->. done.
  - inversion Hx as [e1 w1 Hp E1 E2|e1 w1 a1 Hp Hr E1 E2|e1 w1 a1 Hp E1 E2|e1 w1 w2 He E1 E2]; subst.
    + pose proof (poll_in_time instant_now resume_epoch step give_back paused (Some at_) e1 w1 Hp) as Hin.
      rewrite E2 in Hin.
      destruct Hin as [Hc Hs]. specialize (Hs a due Hph Hdue).
      unfold deadline_remaining in Hs. rewrite Hc. mlia.
    + simpl in Hph. destruct a1; discriminate.
    + unfold drop_future in E2. rewrite mthen_run in E2. simpl in E2.
      injection E2 as <- <-. discriminate.
    + specialize (IH eq_refl _ _ a due eq_refl Hph Hdue). apply Henv in He. lia.
Qed.

Lemma no_sleep_past_deadline_witness :
  exists e w', execs d_clock d_epoch demo_step demo_release demo_paused (Some 8) demo_env
      (start tt, mkDemo 0 0 false) (e, w') /\
    phase e = Awaiting (AwaitNap 5 false 0) /\ 5 <= Z.max 8 (d_clock w').
Proof.
  exists (mkEngine (Awaiting (AwaitNap 5 false 0)) tt false 0), (mkDemo 0 0 false).
  assert (Hx : execs d_clock d_epoch demo_step demo_release demo_paused (Some 8) demo_env
      (start tt, mkDemo 0 0 false)
      (mkEngine (Awaiting (AwaitNap 5 false 0)) tt false 0, mkDemo 0 0 false)).
  { eapply execs_step; [apply execs_refl|].
    apply (exec_poll d_clock d_epoch demo_step demo_release demo_paused (Some 8) demo_env
      (start tt) (mkDemo 0 0 false)). by left. }
  split; [exact Hx|]. split; [reflexivity|].
  apply (no_sleep_past_deadline d_clock d_epoch demo_step demo_release demo_paused demo_env
    8 tt _ _ _ _ _ demo_timely ltac:(intros w w' [H _]; exact H) Hx eq_refl eq_refl).
Defined.

(** Once the deadline has passed, a timed wait resolves: whatever the step
    keeps answering, at most eleven synchronous segments (the yields of four
    lost races among them) end it with a result. *)
Theorem resolves_at_deadline {W T : Type} (instant_now resume_epoch : W -> Z)
    (step : T -> Duration -> M W (Step * T)) (give_back : T -> M W T) (paused : M W Duration)
    (at_ : Z) (e : Engine T) (w : W) :
  Timely instant_now step give_back paused ->
  at_ <= instant_now w -> phase e = Looping -> 0 <= zero_waits e ->
  exists r, phase (settle instant_now resume_epoch step give_back paused (Some at_) 11 e w).1 = Done r.
Proof.
  intros Ht Hat Hph Hz. apply (settle_at_deadline _ _ _ _ _ _ 4%nat); try done.
  - simpl. mlia.
  - unfold RACE_YIELDS. lia.
Qed.

(** A step that answers "retry now" for ever. *)
Definition spin_step (_ : unit) (budget : Duration) : M demo_world (Step * unit) :=
  mret (StepRetry 0, tt).

#[export] Instance spin_timely : Timely d_clock spin_step demo_release demo_paused.
Proof. constructor; done. Qed.

Lemma resolves_at_deadline_witness :
  exists r, phase (settle d_clock d_epoch spin_step demo_release demo_paused (Some 8) 11
    (start tt) (mkDemo 8 0 false)).1 = Done r.
Proof.
  apply (resolves_at_deadline d_clock d_epoch spin_step demo_release demo_paused 8
    (start tt) (mkDemo 8 0 false)); [apply _|simpl; lia|reflexivity|simpl; lia].
Defined.
