(* ===== verification/Limiter.v ===== *)
(** * The [Limiter] trait and the composition helpers (src/src/limiter.rs)

    A limiter is a handle on shared state: a record of operations over a
    world [W]. Nothing is assumed about two operations in a row, so the world
    may change between them (other callers, the clock), which is how the
    helpers of this file see concurrent grants. *)

From S2P Require Import Prelude Decisions.

(** ** The trait *)

Record Limiter (W : Type) := mkLimiter {
  peek : Z -> M W Decision;
  acquire_cost : Z -> M W Decision;
  available : M W Z;
  capacity : Z;
  refund : Z -> M W unit;
  reserve : Z -> Duration -> M W (option Duration);
  pause_for : Duration -> M W unit;
  paused_for : M W Duration;
  resume : M W unit;
  charge : Z -> M W Z }.
Arguments mkLimiter {W}.
Arguments peek {W}. Arguments acquire_cost {W}. Arguments available {W}.
Arguments capacity {W}. Arguments refund {W}. Arguments reserve {W}.
Arguments pause_for {W}. Arguments paused_for {W}. Arguments resume {W}.
Arguments charge {W}.

(** ** Provided methods *)

Section Defaults.
Context {W : Type}.

Definition default_refund (cost : Z) : M W unit := mret tt.

Definition default_reserve (acquire_cost : Z -> M W Decision) (cost : Z) (max_wait : Duration)
    : M W (option Duration) :=
  let! d := acquire_cost cost in
  mret (if is_acquired d then Some DURATION_ZERO else None).

Definition default_pause_for (available : M W Z) (acquire_cost : Z -> M W Decision)
    (duration : Duration) : M W unit :=
  let! n := available in
  if 0 <? n then let! _ := acquire_cost n in mret tt else mret tt.

Definition default_paused_for : M W Duration := mret DURATION_ZERO.
Definition default_resume : M W unit := mret tt.

(** The [while left > 0] loop of [charge]. Each round takes a chunk of
    [min(left, capacity)], so [cost / capacity + 1] rounds are enough. *)
Fixpoint charge_loop (available : M W Z) (acquire_cost : Z -> M W Decision)
    (reserve : Z -> Duration -> M W (option Duration)) (capacity : Z)
    (fuel : nat) (left : Z) : M W Z :=
  match fuel with
  | O => mret left
  | S fuel =>
      if 0 <? left then
        let chunk := Z.min left capacity in
        let! r := reserve chunk DURATION_MAX in
        match r with
        | None =>
            let! n := available in
            let n := Z.min n left in
            if 0 <? n then
              let! d := acquire_cost n in
              mret (if is_acquired d then left - n else left)
            else mret left
        | Some _ => charge_loop available acquire_cost reserve capacity fuel (left - chunk)
        end
      else mret 0
  end.

Definition charge_fuel (cost capacity : Z) : nat := Z.to_nat (cost / capacity + 2).

Definition default_charge (available : M W Z) (acquire_cost : Z -> M W Decision)
    (reserve : Z -> Duration -> M W (option Duration)) (capacity cost : Z) : M W Z :=
  if capacity =? 0 then mret cost
  else charge_loop available acquire_cost reserve capacity (charge_fuel cost capacity) cost.

(** A limiter with only the required methods. *)
Definition with_defaults (peek acquire_cost : Z -> M W Decision) (available : M W Z)
    (capacity : Z) (refund : Z -> M W unit) : Limiter W :=
  mkLimiter peek acquire_cost available capacity refund
    (default_reserve acquire_cost)
    (default_pause_for available acquire_cost)
    default_paused_for default_resume
    (default_charge available acquire_cost (default_reserve acquire_cost) capacity).

End Defaults.

(** ** Forwarding implementations

    [&L], [Box<L>] and [Arc<L>] are limiters wherever [L] is: every method,
    the provided ones included, goes to the limiter behind the pointer. *)

Section Forwarding.
Context {W : Type} (inner : Limiter W).

Definition limiter_of_ref : Limiter W := {|
  peek cost := peek inner cost;
  acquire_cost cost := acquire_cost inner cost;
  available := available inner;
  capacity := capacity inner;
  refund cost := refund inner cost;
  reserve cost max_wait := reserve inner cost max_wait;
  pause_for duration := pause_for inner duration;
  paused_for := paused_for inner;
  resume := resume inner;
  charge cost := charge inner cost |}.

Definition limiter_of_box : Limiter W := {|
  peek cost := peek inner cost;
  acquire_cost cost := acquire_cost inner cost;
  available := available inner;
  capacity := capacity inner;
  refund cost := refund inner cost;
  reserve cost max_wait := reserve inner cost max_wait;
  pause_for duration := pause_for inner duration;
  paused_for := paused_for inner;
  resume := resume inner;
  charge cost := charge inner cost |}.

Definition limiter_of_arc : Limiter W := {|
  peek cost := peek inner cost;
  acquire_cost cost := acquire_cost inner cost;
  available := available inner;
  capacity := capacity inner;
  refund cost := refund inner cost;
  reserve cost max_wait := reserve inner cost max_wait;
  pause_for duration := pause_for inner duration;
  paused_for := paused_for inner;
  resume := resume inner;
  charge cost := charge inner cost |}.

End Forwarding.

(** ** Keyed limiters and a scope bound to one key *)

Record KeyedLimiter (W K : Type) := mkKeyed {
  keyed_peek : K -> Z -> M W Decision;
  keyed_acquire_cost : K -> Z -> M W Decision;
  keyed_refund : K -> Z -> M W unit;
  keyed_reserve : K -> Z -> Duration -> M W (option Duration);
  keyed_capacity : Z }.
Arguments keyed_peek {W K}. Arguments keyed_acquire_cost {W K}.
Arguments keyed_refund {W K}. Arguments keyed_reserve {W K}.
Arguments keyed_capacity {W K}.

(** [available] is not tracked per key; the methods the scope does not
    define are the trait's provided ones. *)
Definition KeyScope {W K} (scope : KeyedLimiter W K) (key : K) : Limiter W :=
  let acquire_cost := keyed_acquire_cost scope key in
  let reserve := keyed_reserve scope key in
  {| peek := keyed_peek scope key;
     acquire_cost := acquire_cost;
     available := mret 0;
     capacity := keyed_capacity scope;
     refund := keyed_refund scope key;
     reserve := reserve;
     pause_for := default_pause_for (mret 0) acquire_cost;
     paused_for := default_paused_for;
     resume := default_resume;
     charge := default_charge (mret 0) acquire_cost reserve (keyed_capacity scope) |}.

(** ** Verdicts *)

Inductive Verdict :=
  | Ready
  | Wait (after : Duration)
  | Never.

Definition fold_peek (acc : Verdict) (decision : Decision) : Verdict :=
  match acc, decision with
  | Never, _ => Never
  | acc, Acquired => acc
  | Ready, Retry after => Wait after
  | Wait wait, Retry after => Wait (Z.max wait after)
  | _, Impossible => Never
  end.

Definition finish_peek (acc : Verdict) : Decision :=
  match acc with
  | Never => Impossible
  | Ready => Acquired
  | Wait after => Retry after
  end.

(** ** Composition over [(limiter, cost)] items *)

Section Compose.
Context {W : Type}.
Abbreviation item := (Limiter W * Z)%type.

(** The loop of [peek_all]: stops at the first impossible constituent. *)
Fixpoint peek_loop (items : list item) (acc : Verdict) : M W Verdict :=
  match items with
  | [] => mret acc
  | (limiter, cost) :: rest =>
      let! d := peek limiter cost in
      let acc := fold_peek acc d in
      match acc with
      | Never => mret Never
      | _ => peek_loop rest acc
      end
  end.

Definition peek_all (items : list item) : M W Decision :=
  let! acc := peek_loop items Ready in mret (finish_peek acc).

Fixpoint refund_all (items : list item) : M W unit :=
  match items with
  | [] => mret tt
  | (limiter, cost) :: rest => let! _ := refund limiter cost in refund_all rest
  end.

Definition refund_first (items : list item) (count : nat) : M W unit :=
  refund_all (take count items).

(** The committing loop of [acquire_all], from item [index] on. *)
Fixpoint acquire_loop (all items : list item) (index : nat) : M W Decision :=
  match items with
  | [] => mret Acquired
  | (limiter, cost) :: rest =>
      let! d := acquire_cost limiter cost in
      match d with
      | Acquired => acquire_loop all rest (S index)
      | refused => let! _ := refund_first all index in mret refused
      end
  end.

Definition acquire_all (items : list item) : M W Decision :=
  let! d := peek_all items in
  match d with
  | Acquired => acquire_loop items items 0
  | other => mret other
  end.

(** Ten milliseconds: how much longer than its own wait a constituent may be
    held because of a slower one. *)
Definition HOLD_SLACK : Duration := from_millis 10.

Fixpoint reserve_loop (all items : list item) (index : nat) (max_wait longest : Duration)
    : M W (option Duration) :=
  match items with
  | [] => mret (Some longest)
  | (limiter, cost) :: rest =>
      let! r := reserve limiter cost max_wait in
      match r with
      | None => let! _ := refund_first all index in mret None
      | Some wait => reserve_loop all rest (S index) max_wait (Z.max longest wait)
      end
  end.

Definition reserve_each (items : list item) (max_wait : Duration) : M W (option Duration) :=
  reserve_loop items items 0 max_wait DURATION_ZERO.

(** The peeking loop of [reserve_all]: the longest and shortest waits. *)
Fixpoint spread_loop (items : list item) (longest shortest : Duration)
    : M W (option (Duration * Duration)) :=
  match items with
  | [] => mret (Some (longest, shortest))
  | (limiter, cost) :: rest =>
      let! d := peek limiter cost in
      match d with
      | Acquired => spread_loop rest (Z.max longest 0) (Z.min shortest 0)
      | Retry after => spread_loop rest (Z.max longest after) (Z.min shortest after)
      | Impossible => mret None
      end
  end.

Definition reserve_all (items : list item) (max_wait : Duration) : M W (option Duration) :=
  let! s := spread_loop items DURATION_ZERO DURATION_MAX in
  match s with
  | None => mret None
  | Some (longest, shortest) =>
      if (max_wait <? longest) || (HOLD_SLACK <? dur_sat_sub longest shortest)
      then mret None
      else reserve_each items max_wait
  end.

(** The [ATTEMPTS] loop of [drain_to]. *)
Fixpoint drain_loop (limiter : Limiter W) (remaining : Z) (attempts : nat) : M W Z :=
  match attempts with
  | O => mret 0
  | S attempts =>
      let! n := available limiter in
      if n <=? remaining then mret 0
      else
        let excess := n - remaining in
        let! d := acquire_cost limiter excess in
        if is_acquired d then mret excess else drain_loop limiter remaining attempts
  end.

Definition drain_to (limiter : Limiter W) (remaining : Z) : M W Z :=
  drain_loop limiter remaining 4.

Fixpoint paused_loop (items : list item) (longest : Duration) : M W Duration :=
  match items with
  | [] => mret longest
  | (limiter, _) :: rest =>
      let! d := paused_for limiter in paused_loop rest (Z.max longest d)
  end.

Definition paused_all (items : list item) : M W Duration := paused_loop items DURATION_ZERO.

End Compose.
