(* ===== verification/Compose.v ===== *)
(** * Composite waiting (src/src/limiter.rs, [step_all] and around) and the ledger

    One step of a composite's waiting acquire over [(limiter, cost)] items,
    and what it promises: the ledger theorems run the helpers on limiters of
    arbitrary behaviour, instrumented to log what each constituent granted
    and got back, so they hold under any interference between two calls. *)

From S2P Require Import Prelude Decisions Wait Limiter.

(** ** What a waiter has taken so far *)

Inductive Held := Nothing | One (index : nat) | All.

Record Progress := mkProgress {
  held : Held;
  due : option Z;
  switches : Z }.

Definition Progress_new : Progress := mkProgress Nothing None 0.

Definition MAX_SWITCHES : Z := 4.

Section StepAll.
Context {W : Type}.
(** The runtime's [Instant::now] and the latest representable instant. *)
Context (instant_now : W -> Z) (instant_max : Z).
Abbreviation item := (Limiter W * Z)%type.

(** [items.enumerate().filter(|(index, _)| index != bottleneck)]. *)
Definition rest_of (items : list item) (bottleneck : nat) : list item :=
  take bottleneck items ++ drop (S bottleneck) items.

Definition release_all (items : list item) (progress : Progress) : M W Progress :=
  let! _ :=
    match held progress with
    | Nothing => mret tt
    | One index =>
        match items !! index with
        | Some (limiter, cost) => refund limiter cost
        | None => mret tt
        end
    | All => refund_all items
    end in
  mret (mkProgress Nothing None (switches progress)).

(** The peeking loop that looks for the constituent with the longest wait;
    [None] when one can never grant. *)
Fixpoint bottleneck_loop (items : list item) (index : nat) (best : option (nat * Duration))
    : M W (option (option (nat * Duration))) :=
  match items with
  | [] => mret (Some best)
  | (limiter, cost) :: rest =>
      let! d := peek limiter cost in
      match d with
      | Acquired => bottleneck_loop rest (S index) best
      | Retry after =>
          let best :=
            match best with
            | Some (_, longest) => if longest <? after then Some (index, after) else best
            | None => Some (index, after)
            end in
          bottleneck_loop rest (S index) best
      | Impossible => mret None
      end
  end.

(** The second half of [step_all]: nothing is held. *)
Definition step_fresh (items : list item) (budget : Duration) (progress : Progress)
    : M W (Step * Progress) :=
  let! best := bottleneck_loop items 0 None in
  match best with
  | None => mret (StepNever, progress)
  | Some None =>
      let! d := acquire_all items in
      match d with
      | Acquired => mret (Granted 0, mkProgress All (due progress) (switches progress))
      | Impossible => mret (StepNever, progress)
      | Retry _ => mret (StepRetry 0, progress)
      end
  | Some (Some (index, wait)) =>
      if budget <? wait then mret (StepRetry wait, progress)
      else
        match items !! index with
        | None => mret (StepRetry wait, progress)
        | Some (limiter, cost) =>
            let! r := reserve limiter cost budget in
            match r with
            | Some wait => fun w =>
                ((Holding wait,
                  mkProgress (One index) (checked_add instant_max (instant_now w) wait)
                    (switches progress)), w)
            | None => mret (StepRetry wait, progress)
            end
        end
  end.

(** Gives the bottleneck back, counts the switch, and starts over. *)
Definition switch (items : list item) (budget : Duration) (progress : Progress)
    : M W (Step * Progress) :=
  let! p := release_all items progress in
  step_fresh items budget (mkProgress (held p) (due p) (sat_add u8_max (switches p) 1)).

(** The first half of [step_all]: the bottleneck's units are held. *)
Definition step_holding (items : list item) (budget : Duration) (progress : Progress)
    (bottleneck : nat) : M W (Step * Progress) := fun w =>
  let remains := match due progress with
                 | Some due => sat_sub due (instant_now w)
                 | None => 0
                 end in
  if negb (is_zero remains) then ((Holding remains, progress), w)
  else
    (let rest := rest_of items bottleneck in
     let granted := mkProgress All (due progress) (switches progress) in
     let! d := peek_all rest in
     match d with
     | Acquired =>
         let! d := acquire_all rest in
         if is_acquired d then mret (Granted 0, granted) else mret (Holding 0, progress)
     | Retry after =>
         if (after <=? HOLD_SLACK) || (MAX_SWITCHES <=? switches progress) then
           let! r := reserve_each rest budget in
           match r with
           | Some wait => mret (Granted wait, granted)
           | None => switch items budget progress
           end
         else switch items budget progress
     | Impossible =>
         let! p := release_all items progress in mret (StepNever, p)
     end) w.

Definition step_all (items : list item) (progress : Progress) (budget : Duration)
    : M W (Step * Progress) :=
  match held progress with
  | One bottleneck => step_holding items budget progress bottleneck
  | Nothing | All => step_fresh items budget progress
  end.

End StepAll.

(** ** The ledger *)

Inductive event := Took (who : nat) (units : Z) | GaveBack (who : nat) (units : Z).

Definition delta (who : nat) (e : event) : Z :=
  match e with
  | Took i n => if decide (i = who) then n else 0
  | GaveBack i n => if decide (i = who) then - n else 0
  end.

(** The units [who] has granted and not got back. *)
Definition outstanding (log : list event) (who : nat) : Z := sum_with (delta who) log.

Section Instrument.
Context {W : Type}.

Definition lift {A} (m : M W A) : M (W * list event) A := fun s =>
  let '(a, w) := m s.1 in (a, (w, s.2)).

Definition note (e : event) : M (W * list event) unit := fun s => (tt, (s.1, s.2 ++ [e])).

(** A limiter that logs every unit it grants and gets back. *)
Definition instrument (who : nat) (l : Limiter W) : Limiter (W * list event) := {|
  peek cost := lift (peek l cost);
  acquire_cost cost :=
    let! d := lift (acquire_cost l cost) in
    if is_acquired d then let! _ := note (Took who cost) in mret d else mret d;
  available := lift (available l);
  capacity := capacity l;
  refund cost := let! _ := lift (refund l cost) in note (GaveBack who cost);
  reserve cost max_wait :=
    let! r := lift (reserve l cost max_wait) in
    match r with Some _ => let! _ := note (Took who cost) in mret r | None => mret r end;
  pause_for d := lift (pause_for l d);
  paused_for := lift (paused_for l);
  resume := lift (resume l);
  charge cost :=
    let! uncharged := lift (charge l cost) in
    let! _ := note (Took who (cost - uncharged)) in mret uncharged |}.

(** Constituents with their names; two constituents that share a limiter may
    share a name. *)
Definition named : Type := list (nat * Limiter W * Z).

Definition items_of (cs : named) : list (Limiter (W * list event) * Z) :=
  (fun '(who, l, cost) => (instrument who l, cost)) <$> cs.

(** What taking every constituent's cost means for [who]. *)
Definition share (cs : named) (who : nat) : Z :=
  sum_with (fun '(i, _, cost) => if decide (i = who) then cost else 0) cs.

End Instrument.
Arguments named : clear implicits.

(** ** Keeping the books *)

Section Books.
Context {W : Type}.
Abbreviation world := (W * list event)%type.

(** [m] changes what [who] has outstanding by [f (value of m) who]. *)
Definition moves {A} (m : M world A) (f : A -> nat -> Z) : Prop :=
  forall s who, outstanding (m s).2.2 who = outstanding s.2 who + f (m s).1 who.

Lemma moves_ret {A} (a : A) f : (forall who, f a who = 0) -> moves (mret a) f.
Proof. intros H s who. simpl. rewrite H. lia. Qed.

Lemma moves_then {A B} (m : M world A) (k : A -> M world B) f h :
  moves m f -> (forall a, moves (k a) (fun b who => h b who - f a who)) -> moves (mthen m k) h.
Proof.
  intros Hm Hk s who. rewrite mthen_run. specialize (Hk (m s).1 (m s).2 who).
  specialize (Hm s who). cbn beta in *. lia.
Qed.

Lemma moves_ext {A} (m : M world A) f g :
  moves m f -> (forall a who, f a who = g a who) -> moves m g.
Proof. intros H E s who. rewrite <- E. apply H. Qed.

Lemma moves_lift {A} (m : M W A) f : (forall a who, f a who = 0) -> moves (lift m) f.
Proof. intros H s who. unfold lift. destruct (m s.1). simpl. rewrite H. lia. Qed.

Lemma outstanding_snoc log e who : outstanding (log ++ [e]) who = outstanding log who + delta who e.
Proof. unfold outstanding. by rewrite sum_with_app, sum_with_singleton. Qed.

Lemma moves_note e f : (forall who, f tt who = delta who e) -> moves (note e) f.
Proof. intros H s who. simpl. rewrite outstanding_snoc, H. done. Qed.

(** A step that moves nothing, then the rest. *)
Lemma moves_quiet {A B} (m : M world A) (k : A -> M world B) h :
  moves m (fun _ _ => 0) -> (forall a, moves (k a) h) -> moves (mthen m k) h.
Proof.
  intros Hm Hk. eapply moves_then; [exact Hm|]. intros a.
  eapply moves_ext; [apply Hk|]. intros; lia.
Qed.

Definition takes (who0 : nat) (cost : Z) (yes : bool) (who : nat) : Z :=
  if yes then delta who (Took who0 cost) else 0.

Lemma moves_acquire i (l : Limiter W) cost :
  moves (acquire_cost (instrument i l) cost) (fun d => takes i cost (is_acquired d)).
Proof.
  simpl. apply moves_quiet; [by apply moves_lift|]. intros d. unfold takes.
  destruct (is_acquired d) eqn:E; [|apply moves_ret; by rewrite E].
  eapply moves_then; [by apply (moves_note _ (fun _ who => delta who (Took i cost)))|].
  intros []. apply moves_ret. intros who. rewrite E. cbn beta. lia.
Qed.

Lemma moves_reserve i (l : Limiter W) cost max_wait :
  moves (reserve (instrument i l) cost max_wait) (fun r => takes i cost (bool_decide (is_Some r))).
Proof.
  simpl. apply moves_quiet; [by apply moves_lift|]. intros [wait|]; unfold takes.
  - eapply moves_then; [by apply (moves_note _ (fun _ who => delta who (Took i cost)))|].
    intros []. apply moves_ret. intros who. simpl. lia.
  - by apply moves_ret.
Qed.

Lemma moves_refund i (l : Limiter W) cost :
  moves (refund (instrument i l) cost) (fun _ who => - delta who (Took i cost)).
Proof.
  simpl. apply moves_quiet; [by apply moves_lift|]. intros _.
  apply moves_note. intros who. simpl. case_decide; lia.
Qed.

Lemma share_cons i (l : Limiter W) cost cs who :
  share ((i, l, cost) :: cs) who = delta who (Took i cost) + share cs who.
Proof. unfold share. by rewrite sum_with_cons. Qed.

Lemma share_nil who : share ([] : named W) who = 0.
Proof. reflexivity. Qed.

Lemma share_app (cs cs' : named W) who : share (cs ++ cs') who = share cs who + share cs' who.
Proof. apply sum_with_app. Qed.

Lemma items_of_app (cs cs' : named W) : items_of (cs ++ cs') = items_of cs ++ items_of cs'.
Proof. apply fmap_app. Qed.

(** The polls of a composite take nothing. *)
Lemma moves_peek_all (cs : named W) : moves (peek_all (items_of cs)) (fun _ _ => 0).
Proof.
  unfold peek_all. apply moves_quiet; [|intros; by apply moves_ret].
  generalize Ready. induction cs as [|[[i l] cost] cs IH]; intros acc; simpl.
  - by apply moves_ret.
  - apply moves_quiet; [by apply moves_lift|]. intros d.
    destruct (fold_peek acc d); [apply IH..|by apply moves_ret].
Qed.

Lemma moves_refund_all (cs : named W) :
  moves (refund_all (items_of cs)) (fun _ who => - share cs who).
Proof.
  induction cs as [|[[i l] cost] cs IH]; simpl; [by apply moves_ret|].
  eapply moves_then; [apply moves_refund|]. intros [].
  eapply moves_ext; [apply IH|]. intros a who. simpl. rewrite share_cons. simpl. lia.
Qed.

Lemma moves_refund_first (taken cs : named W) :
  moves (refund_first (items_of (taken ++ cs)) (length taken)) (fun _ who => - share taken who).
Proof.
  unfold refund_first. rewrite items_of_app, take_app_length'; [apply moves_refund_all|].
  unfold items_of. by rewrite length_fmap.
Qed.

(** The commit loop, with [taken] committed already. *)
Lemma moves_acquire_loop (taken cs : named W) :
  moves (acquire_loop (items_of (taken ++ cs)) (items_of cs) (length taken))
    (fun d who => if is_acquired d then share cs who else - share taken who).
Proof.
  revert taken. induction cs as [|[[i l] cost] cs IH]; intros taken; simpl.
  { by apply moves_ret. }
  eapply moves_then; [apply moves_acquire|]. intros d. unfold takes.
  assert (Href : is_acquired d = false -> moves
    (let! _ := refund_first (items_of (taken ++ (i, l, cost) :: cs)) (length taken) in mret d)
    (fun b who => (if is_acquired b then share ((i, l, cost) :: cs) who else - share taken who) - 0)).
  { intros E. eapply moves_then; [apply moves_refund_first|]. intros []. apply moves_ret.
    intros who. rewrite E. cbn beta. lia. }
  destruct d as [|after|]; simpl; [|by apply Href..].
  specialize (IH (taken ++ [(i, l, cost)])).
  rewrite <- app_assoc, length_app, Nat.add_1_r in IH. eapply moves_ext; [apply IH|].
  intros a who. cbn beta. rewrite share_app, !share_cons, share_nil. simpl.
  destruct (is_acquired a); lia.
Qed.

Lemma moves_acquire_all (cs : named W) :
  moves (acquire_all (items_of cs)) (fun d who => if is_acquired d then share cs who else 0).
Proof.
  unfold acquire_all. apply moves_quiet; [apply moves_peek_all|].
  intros [|after|]; [|by apply moves_ret..].
  eapply moves_ext; [apply (moves_acquire_loop [] cs)|]. done.
Qed.

Definition granted (r : option Duration) : bool := bool_decide (is_Some r).

Lemma moves_reserve_loop (taken cs : named W) max_wait longest :
  moves (reserve_loop (items_of (taken ++ cs)) (items_of cs) (length taken) max_wait longest)
    (fun r who => if granted r then share cs who else - share taken who).
Proof.
  revert taken longest. induction cs as [|[[i l] cost] cs IH]; intros taken longest; simpl.
  { by apply moves_ret. }
  eapply moves_then; [apply moves_reserve|]. intros [wait|]; unfold takes; simpl.
  - specialize (IH (taken ++ [(i, l, cost)]) (Z.max longest wait)).
    rewrite <- app_assoc, length_app, Nat.add_1_r in IH. eapply moves_ext; [apply IH|].
    intros a who. cbn beta. rewrite share_app, !share_cons, share_nil. simpl.
    destruct (granted a); lia.
  - eapply moves_then; [apply moves_refund_first|]. intros []. apply moves_ret.
    intros who. simpl. lia.
Qed.

Lemma moves_reserve_each (cs : named W) max_wait :
  moves (reserve_each (items_of cs) max_wait) (fun r who => if granted r then share cs who else 0).
Proof. eapply moves_ext; [apply (moves_reserve_loop [] cs)|]. done. Qed.

Lemma moves_spread_loop (cs : named W) longest shortest :
  moves (spread_loop (items_of cs) longest shortest) (fun _ _ => 0).
Proof.
  revert longest shortest. induction cs as [|[[i l] cost] cs IH]; intros; simpl.
  - by apply moves_ret.
  - apply moves_quiet; [by apply moves_lift|]. intros []; [apply IH..|by apply moves_ret].
Qed.

Lemma moves_reserve_all (cs : named W) max_wait :
  moves (reserve_all (items_of cs) max_wait) (fun r who => if granted r then share cs who else 0).
Proof.
  unfold reserve_all. apply moves_quiet; [apply moves_spread_loop|].
  intros [[longest shortest]|]; [|by apply moves_ret].
  destruct (_ || _); [by apply moves_ret|]. apply moves_reserve_each.
Qed.

End Books.

(** ** One composite step *)

Section StepBooks.
Context {W : Type} (instant_now : W -> Z) (instant_max : Z).
Abbreviation world := (W * list event)%type.
Abbreviation now := (fun s : world => instant_now s.1).

Definition one_share (cs : named W) (k : nat) (who : nat) : Z :=
  match cs !! k with
  | Some (i, _, cost) => delta who (Took i cost)
  | None => 0
  end.

(** What the progress of a waiter says it has taken. *)
Definition taken (cs : named W) (p : Progress) (who : nat) : Z :=
  match held p with
  | Nothing => 0
  | One k => one_share cs k who
  | All => share cs who
  end.

Definition owns_of (h : Held) : Owns :=
  match h with Nothing => OwnsNothing | One _ => OwnsSome | All => OwnsAll end.

(** [m] ends in a value satisfying [P], from any state. *)
Definition ends {S A} (m : M S A) (P : A -> Prop) : Prop := forall s, P (m s).1.

Lemma ends_ret {S A} (a : A) (P : A -> Prop) : P a -> ends (mret (W := S) a) P.
Proof. by intros H s. Qed.

Lemma ends_then {S A B} (m : M S A) (k : A -> M S B) (Q : A -> Prop) (P : B -> Prop) :
  ends m Q -> (forall a, Q a -> ends (k a) P) -> ends (mthen m k) P.
Proof. intros Hm Hk s. rewrite mthen_run. by apply Hk, Hm. Qed.

Lemma ends_any {S A B} (m : M S A) (k : A -> M S B) (P : B -> Prop) :
  (forall a, ends (k a) P) -> ends (mthen m k) P.
Proof. intros Hk. by apply (ends_then _ _ (fun _ => True)); [intros s|intros a _]. Qed.

Lemma items_lookup (cs : named W) k :
  items_of cs !! k = (fun '(who, l, cost) => (instrument who l, cost)) <$> cs !! k.
Proof. apply list_lookup_fmap. Qed.

Lemma share_rest (cs : named W) k who :
  share (take k cs ++ drop (S k) cs) who + one_share cs k who = share cs who.
Proof.
  unfold one_share. destruct (cs !! k) as [[[i l] cost]|] eqn:E.
  - rewrite <- (take_drop_middle cs k _ E) at 3. rewrite !share_app, share_cons. lia.
  - apply lookup_ge_None in E. rewrite take_ge, drop_ge by lia. rewrite app_nil_r. lia.
Qed.

Lemma rest_items (cs : named W) k :
  rest_of (items_of cs) k = items_of (take k cs ++ drop (S k) cs).
Proof. unfold rest_of, items_of. by rewrite <- fmap_take, <- fmap_drop, <- fmap_app. Qed.

Lemma moves_release (cs : named W) p :
  moves (release_all (items_of cs) p) (fun _ who => - taken cs p who).
Proof.
  unfold release_all. eapply moves_then with (f := fun _ who => - taken cs p who).
  - unfold taken. destruct (held p) as [|k|].
    + by apply moves_ret.
    + rewrite items_lookup. unfold one_share. destruct (cs !! k) as [[[i l] cost]|]; simpl.
      * apply moves_refund.
      * by apply moves_ret.
    + apply moves_refund_all.
  - intros []. apply moves_ret. intros who. cbn beta. lia.
Qed.

Lemma release_holds_nothing {S} (items : list (Limiter S * Z)) p :
  ends (release_all items p) (fun p' => held p' = Nothing).
Proof. apply ends_any. intros _. by apply ends_ret. Qed.

Lemma moves_bottleneck (cs : named W) index best :
  moves (bottleneck_loop (items_of cs) index best) (fun _ _ => 0).
Proof.
  revert index best. induction cs as [|[[i l] cost] cs IH]; intros; simpl.
  - by apply moves_ret.
  - apply moves_quiet; [by apply moves_lift|]. intros []; [apply IH..|by apply moves_ret].
Qed.

Definition books (cs : named W) (p : Progress) (r : Step * Progress) (who : nat) : Z :=
  taken cs r.2 who - taken cs p who.

Lemma moves_step_fresh (cs : named W) budget p :
  held p = Nothing ->
  moves (step_fresh now instant_max (items_of cs) budget p) (books cs p).
Proof.
  intros Hp. unfold step_fresh, books.
  assert (Hp0 : forall who, taken cs p who = 0) by (intros; unfold taken; by rewrite Hp).
  apply moves_quiet; [apply moves_bottleneck|].
  assert (Hstay : forall s : Step, moves (W := W) (mret (s, p))
    (fun (r : Step * Progress) who => taken cs r.2 who - taken cs p who)).
  { intros s. apply moves_ret. intros who. simpl. lia. }
  intros [[[index wait]|]|]; [| |apply Hstay].
  - destruct (budget <? wait); [apply Hstay|]. rewrite items_lookup.
    destruct (cs !! index) as [[[i l] cost]|] eqn:E; simpl fmap; cbv iota; [|apply Hstay].
    eapply moves_then; [apply moves_reserve|]. intros [wait'|]; unfold takes.
    + intros s who. simpl. rewrite Hp0. unfold taken at 1, one_share. simpl. rewrite E. simpl. lia.
    + apply moves_ret. intros who. simpl. lia.
  - eapply moves_then; [apply moves_acquire_all|].
    intros [|after|]; apply moves_ret; intros who; simpl; rewrite ?Hp0; [|lia..].
    unfold taken. simpl. lia.
Qed.

Lemma moves_switch (cs : named W) budget p :
  moves (switch now instant_max (items_of cs) budget p) (books cs p).
Proof.
  unfold switch. intros s who. rewrite mthen_run.
  pose proof (release_holds_nothing (items_of cs) p s) as Hn.
  pose proof (moves_release cs p s who) as Hr.
  destruct (release_all (items_of cs) p s) as [p' s']. simpl in *.
  rewrite moves_step_fresh by done. unfold books.
  unfold taken at 2. simpl. rewrite Hn. lia.
Qed.

Lemma moves_step_holding (cs : named W) budget p k :
  held p = One k ->
  moves (step_holding now instant_max (items_of cs) budget p k) (books cs p).
Proof.
  intros Hp. unfold step_holding. intros s.
  destruct (negb _). { intros who. unfold books. simpl. lia. }
  revert s. rewrite rest_items. set (rest := take k cs ++ drop (S k) cs).
  assert (Hall : forall who st x,
    books cs p (st, mkProgress All (due p) x) who = share rest who).
  { intros who st x. unfold books, taken. simpl. rewrite Hp.
    pose proof (share_rest cs k who). unfold rest. lia. }
  assert (Hstay : forall st who, books cs p (st, p) who = 0) by (intros; unfold books; simpl; lia).
  apply moves_quiet; [apply moves_peek_all|]. intros [|after|].
  - eapply moves_then; [apply moves_acquire_all|]. intros d. cbn beta.
    destruct (is_acquired d); apply moves_ret; intros who; rewrite ?Hall, ?Hstay; lia.
  - destruct (_ || _); [|apply moves_switch].
    eapply moves_then; [apply moves_reserve_each|]. intros [wait|]; cbn beta.
    + apply moves_ret. intros who. rewrite Hall. simpl. lia.
    + eapply moves_ext; [apply moves_switch|]. intros; simpl; lia.
  - intros s who. rewrite mthen_run.
    pose proof (release_holds_nothing (items_of cs) p s) as Hn.
    pose proof (moves_release cs p s who) as Hr.
    destruct (release_all (items_of cs) p s) as [p' s']. simpl in *.
    unfold books. simpl. unfold taken at 1. rewrite Hn. lia.
Qed.

(** A step of a waiter that does not hold everything yet moves exactly what
    its progress says. *)
Lemma moves_step_all (cs : named W) budget p :
  held p <> All -> moves (step_all now instant_max (items_of cs) p budget) (books cs p).
Proof.
  intros Hp. unfold step_all. destruct (held p) as [|k|] eqn:E; [|by apply moves_step_holding|done].
  by apply moves_step_fresh.
Qed.

(** The step reports truthfully what is held. *)
Definition truthful (r : Step * Progress) : Prop := owns_of (held r.2) = owns r.1.

Lemma step_fresh_truthful {S} (clock : S -> Z) (items : list (Limiter S * Z)) budget p :
  held p = Nothing -> ends (step_fresh clock instant_max items budget p) truthful.
Proof.
  intros Hp. unfold step_fresh, truthful. apply ends_any. intros [[[index wait]|]|].
  - destruct (_ <? _); [apply ends_ret; simpl; by rewrite Hp|].
    destruct (items !! index) as [[l cost]|]; [|apply ends_ret; simpl; by rewrite Hp].
    apply ends_any. intros [wait'|]; [by intros s|]. apply ends_ret. simpl. by rewrite Hp.
  - apply ends_any. intros []; apply ends_ret; simpl; by rewrite ?Hp.
  - apply ends_ret. simpl. by rewrite Hp.
Qed.

Lemma switch_truthful {S} (clock : S -> Z) (items : list (Limiter S * Z)) budget p :
  ends (switch clock instant_max items budget p) truthful.
Proof.
  unfold switch. eapply ends_then; [apply release_holds_nothing|].
  intros p' Hp'. by apply step_fresh_truthful.
Qed.

Lemma step_all_truthful {S} (clock : S -> Z) (items : list (Limiter S * Z)) budget p :
  held p <> All -> ends (step_all clock instant_max items p budget) truthful.
Proof.
  intros Hp. unfold step_all. destruct (held p) as [|k|] eqn:E; [by apply step_fresh_truthful| |done].
  intros s. unfold step_holding.
  destruct (negb _); [unfold truthful; simpl; by rewrite E|]. revert s.
  apply ends_any. intros [|after|].
  - apply ends_any. intros d. destruct (is_acquired d); apply ends_ret; unfold truthful; simpl; by rewrite ?E.
  - destruct (_ || _); [|apply switch_truthful].
    apply ends_any. intros [wait|]; [by apply ends_ret|apply switch_truthful].
  - eapply ends_then; [apply release_holds_nothing|]. intros p' Hp'.
    apply ends_ret. unfold truthful. simpl. by rewrite Hp'.
Qed.

Lemma moves_paused_all (cs : named W) : moves (paused_all (items_of cs)) (fun _ _ => 0).
Proof.
  unfold paused_all. generalize DURATION_ZERO. induction cs as [|[[i l] cost] cs IH]; intros d; simpl.
  - by apply moves_ret.
  - apply moves_quiet; [by apply moves_lift|]. intros d'. apply IH.
Qed.

(** ** The composite as a client of the waiting engine *)

(** Everything else changes the limiters and the clock, never this waiter's
    ledger. *)
Definition others (s s' : world) : Prop := s'.2 = s.2.

Definition ledger_inv (cs : named W) (base : nat -> Z) (o : Owns) (p : Progress) (s : world) : Prop :=
  owns_of (held p) = o /\ forall who, outstanding s.2 who = base who + taken cs p who.

#[export] Instance composite_ownership (cs : named W) (base : nat -> Z) :
  Ownership (step_all now instant_max (items_of cs)) (release_all (items_of cs))
    (paused_all (items_of cs)) others (ledger_inv cs base).
Proof.
  constructor.
  - intros o p d s Ho [Hh Hl].
    assert (Hp : held p <> All) by (intros E; rewrite E in Hh; simpl in Hh; congruence).
    split; [by apply (step_all_truthful now (items_of cs) d p Hp s)|].
    intros who. rewrite (moves_step_all cs d p Hp s who), Hl. unfold books. lia.
  - intros o p s _ [Hh Hl]. pose proof (release_holds_nothing (items_of cs) p s) as Hn.
    cbn beta in Hn. split; [by rewrite Hn|]. intros who. rewrite (moves_release cs p s who), Hl.
    unfold taken at 3. rewrite Hn. lia.
  - intros o p s [Hh Hl]. split; [done|]. intros who.
    rewrite (moves_paused_all cs s who), Hl. lia.
  - intros o p s s' [Hh Hl] Hs. split; [done|]. intros who. by rewrite Hs.
Qed.

End StepBooks.

(** ** Counting the charge *)

Section ChargeBooks.
Context {W : Type} (i : nat) (l : Limiter W).
Abbreviation il := (instrument i l).

Lemma moves_charge_loop fuel left :
  0 <= left ->
  moves (charge_loop (available il) (acquire_cost il) (reserve il) (capacity l) fuel left)
    (fun r who => delta who (Took i (left - r))).
Proof.
  revert left. induction fuel as [|fuel IH]; intros left Hl; simpl charge_loop.
  { apply moves_ret. intros who. simpl. case_decide; lia. }
  destruct (Z.ltb_spec 0 left) as [Hpos|Hz];
    [|apply moves_ret; intros who; simpl; case_decide; lia].
  eapply moves_then; [apply moves_reserve|]. intros [wait|]; unfold takes; simpl bool_decide.
  - eapply moves_ext; [apply IH; lia|]. intros r who. simpl. case_decide; lia.
  - apply moves_ext with (f := fun r who => delta who (Took i (left - r)));
      [|intros; simpl; case_decide; lia].
    apply moves_quiet; [by apply moves_lift|]. intros n.
    destruct (0 <? _); [|apply moves_ret; intros who; simpl; case_decide; lia].
    eapply moves_then; [apply moves_acquire|]. intros d. apply moves_ret.
    intros who. unfold takes. simpl. destruct (is_acquired d); simpl; case_decide; lia.
Qed.

End ChargeBooks.

(** A round that goes on takes a whole capacity, or everything left, so the
    loop ends within the fuel: more of it changes nothing. *)
Lemma charge_loop_fuel {W} av ac rs capacity (f1 f2 : nat) left (w : W) :
  0 < capacity -> 0 <= left ->
  left / capacity + 2 <= Z.of_nat f1 -> (f1 <= f2)%nat ->
  charge_loop av ac rs capacity f2 left w = charge_loop av ac rs capacity f1 left w.
Proof.
  intros Hc. revert f2 left w. induction f1 as [|f1 IH]; intros f2 left w Hl Hf H12.
  { pose proof (Z.div_pos left capacity Hl Hc). lia. }
  destruct f2 as [|f2]; [lia|]. simpl. destruct (Z.ltb_spec 0 left) as [Hpos|]; [|done].
  rewrite !mthen_run. destruct (rs _ _ w).1 as [wait|]; [|done].
  destruct (Z.le_gt_cases left capacity) as [Hle|Hgt].
  - rewrite Z.min_l, Z.sub_diag by done.
    destruct f1 as [|f1]; [pose proof (Z.div_pos left capacity Hl Hc); lia|].
    destruct f2; [lia|]. done.
  - rewrite Z.min_r by lia. apply IH; [lia| |lia].
    replace (left - capacity) with (left + (-1) * capacity) by lia.
    rewrite Z.div_add by lia. lia.
Qed.

Lemma charge_loop_bounds {W} av ac rs capacity fuel left (w : W) :
  0 < capacity -> 0 <= left ->
  0 <= (charge_loop av ac rs capacity fuel left w).1 <= left.
Proof.
  intros Hc. revert left w. induction fuel as [|fuel IH]; intros left w Hl; simpl; [lia|].
  destruct (Z.ltb_spec 0 left); [|simpl; lia].
  rewrite mthen_run. destruct (rs _ _ w).1 as [wait|].
  - specialize (IH (left - Z.min left capacity) (rs (Z.min left capacity) DURATION_MAX w).2).
    lia.
  - rewrite mthen_run. destruct (Z.ltb_spec 0 (Z.min (av (rs (Z.min left capacity) DURATION_MAX w).2).1 left));
      [|simpl; lia]. rewrite mthen_run. simpl. destruct (is_acquired _); lia.
Qed.

(** ** The reference reading of a composite's verdict *)

Definition combine (ds : list Decision) : Decision :=
  if bool_decide (Impossible ∈ ds) then Impossible
  else match omap retry_after ds with
       | [] => Acquired
       | after :: more => Retry (foldl Z.max after more)
       end.

Lemma peek_loop_never {W} (items : list (Limiter W * Z)) ds acc (w : W) :
  Forall2 (fun it d => forall w, peek it.1 it.2 w = (d, w)) items ds ->
  acc <> Never -> Impossible ∈ ds -> peek_loop items acc w = (Never, w).
Proof.
  intros H. revert acc. induction H as [|[l cost] d items ds Hd _ IH]; intros acc Ha Hin.
  { by apply not_elem_of_nil in Hin. }
  simpl in *. rewrite mthen_run, Hd. simpl. apply elem_of_cons in Hin as [<-|Hin].
  - by destruct acc.
  - destruct (fold_peek acc d) eqn:E; [by apply IH..|done].
Qed.

Lemma peek_loop_waits {W} (items : list (Limiter W * Z)) ds acc (w : W) :
  Forall2 (fun it d => forall w, peek it.1 it.2 w = (d, w)) items ds ->
  acc <> Never -> Impossible ∉ ds ->
  peek_loop items acc w =
    (match acc, omap retry_after ds with
     | Ready, a :: more => Wait (foldl Z.max a more)
     | Wait a, more => Wait (foldl Z.max a more)
     | acc, _ => acc
     end, w).
Proof.
  intros H. revert acc. induction H as [|[l cost] d items ds Hd _ IH]; intros acc Ha Hin.
  { by destruct acc. }
  apply not_elem_of_cons in Hin as [Hn Hin].
  simpl in *. rewrite mthen_run, Hd. simpl.
  destruct d as [|after|]; [..|done]; destruct acc; simpl; try done; by rewrite IH.
Qed.

(** ** A tank of units to run composites on

    The world is a clock and two tanks; a tank grants what it has, asks for
    [5] more instants otherwise, and reserves against a deficit. *)

Record tanks := mkTanks { t_clock : Z; tank_a : Z; tank_b : Z }.

Definition tank (second : bool) (cap : Z) : Limiter tanks :=
  let level w := if second then tank_b w else tank_a w in
  let add n w := if second then mkTanks (t_clock w) (tank_a w) (tank_b w + n)
                 else mkTanks (t_clock w) (tank_a w + n) (tank_b w) in
  let take_now cost w := if cap <? cost then (Impossible, w)
                         else if cost <=? level w then (Acquired, add (- cost) w)
                         else (Retry 5, w) in
  {| peek cost w := ((take_now cost w).1, w);
     acquire_cost cost := take_now cost;
     available w := (Z.max 0 (level w), w);
     capacity := cap;
     refund cost w := (tt, add cost w);
     reserve cost max_wait w :=
       if cap <? cost then (None, w)
       else if cost <=? level w then (Some 0, add (- cost) w)
       else if 5 <=? max_wait then (Some 5, add (- cost) w) else (None, w);
     pause_for _ := mret tt; paused_for := mret 0; resume := mret tt;
     charge cost w := (0, add (- cost) w) |}.

Definition two_tanks : named tanks := [(0%nat, tank false 10, 3); (1%nat, tank true 10, 4)].

(** ** Properties *)

(** C21: [acquire_all] is all-or-nothing for every list of limiters, whatever each
    of them answers and whatever other callers do between two calls: a grant
    took exactly each constituent's cost, and any other outcome leaves every
    constituent's balance as it was. *)
Theorem acquire_all_all_or_nothing {W : Type} (cs : named W) (s : W * list event) (who : nat) :
  let '(d, s') := acquire_all (items_of cs) s in
  outstanding s'.2 who = outstanding s.2 who + (if is_acquired d then share cs who else 0).
Proof.
  pose proof (moves_acquire_all cs s who) as H. by destruct (acquire_all (items_of cs) s).
Qed.

(** [reserve_all] reserves every constituent's cost or none of them. *)
Theorem reserve_all_all_or_nothing {W : Type} (cs : named W) (max_wait : Duration)
    (s : W * list event) (who : nat) :
  let '(r, s') := reserve_all (items_of cs) max_wait s in
  outstanding s'.2 who = outstanding s.2 who + (if r is Some _ then share cs who else 0).
Proof.
  pose proof (moves_reserve_all cs max_wait s who) as H.
  destruct (reserve_all (items_of cs) max_wait s) as [r s']. cbn beta zeta iota in *.
  simpl in H. rewrite H. by destruct r.
Qed.

(** C2: A composite waiter under any interleaving with other tasks, pauses,
    resumes and clock movement: it has taken exactly its share when its wait
    succeeds, and nothing at all when the wait is refused, times out or is
    cancelled at any await. *)
Theorem composite_wait_settles {W : Type} (instant_now resume_epoch : W -> Z) (instant_max : Z)
    (deadline : Deadline) (cs : named W) (s s' : W * list event) (e : Engine Progress) (who : nat) :
  execs (fun s => instant_now s.1) (fun s => resume_epoch s.1)
    (step_all (fun s => instant_now s.1) instant_max (items_of cs)) (release_all (items_of cs))
    (paused_all (items_of cs)) deadline others (start Progress_new, s) (e, s') ->
  match phase e with
  | Done (Ok _) => outstanding s'.2 who = outstanding s.2 who + share cs who
  | Done (Err _) | Dropped => outstanding s'.2 who = outstanding s.2 who
  | _ => outstanding s'.2 who = outstanding s.2 who + taken cs (Wait.held e) who
  end.
Proof.
  intros Hx.
  assert (Ho : owned (ledger_inv cs (outstanding s.2)) (e, s')).
  { eapply execs_owned; [apply composite_ownership|exact Hx|].
    simpl. split; [done|]. intros x. unfold taken. simpl. lia. }
  unfold owned, ledger_inv in Ho. destruct (phase e) as [| |[]|[[]|err]|];
    destruct_and?; repeat match goal with H : _ /\ _ |- _ => destruct H end; auto;
    match goal with Hw : forall who, _ = _ , Hh : owns_of _ = _ |- _ =>
      rewrite Hw; unfold taken; destruct (held (Wait.held e)); simpl in Hh; try discriminate; lia
    end.
Qed.

(** Two tanks, the second short of units: the waiter reserves there, wakes,
    takes the first and is done. *)
Lemma composite_wait_settles_witness :
  let e := mkEngine (Done (Ok tt)) (mkProgress All (Some 5) 0) false 0 in
  let s' := (mkTanks 5 4 (-3), [Took 1 4; Took 0 3]) in
  execs (fun s : tanks * list event => t_clock s.1) (fun s => (fun _ => 0) s.1)
    (step_all (fun s => t_clock s.1) 1000 (items_of two_tanks)) (release_all (items_of two_tanks))
    (paused_all (items_of two_tanks)) None others (start Progress_new, (mkTanks 0 7 1, [])) (e, s') /\
  outstanding s'.2 1%nat = 0 + 4.
Proof.
  intros e s'.
  assert (Hx : execs (fun s : tanks * list event => t_clock s.1) (fun s => (fun _ => 0) s.1)
    (step_all (fun s => t_clock s.1) 1000 (items_of two_tanks)) (release_all (items_of two_tanks))
    (paused_all (items_of two_tanks)) None others (start Progress_new, (mkTanks 0 7 1, [])) (e, s')).
  { pose (log1 := [Took 1 4]). pose (p1 := mkProgress (One 1) (Some 5) 0).
    pose (nap := AwaitNap 5 false 0).
    apply (execs_step _ _ _ _ _ _ _ _ (mkEngine CheckPause (mkProgress All (Some 5) 0) true 0, s')).
    1: apply (execs_step _ _ _ _ _ _ _ _ (mkEngine Looping p1 true 0, (mkTanks 5 7 (-3), log1))).
    1: apply (execs_step _ _ _ _ _ _ _ _ (mkEngine (Awaiting nap) p1 true 0, (mkTanks 5 7 (-3), log1))).
    1: apply (execs_step _ _ _ _ _ _ _ _ (mkEngine (Awaiting nap) p1 true 0, (mkTanks 0 7 (-3), log1))).
    1: eapply execs_step; [apply execs_refl|].
    - apply exec_poll_to; [by left|reflexivity].
    - by apply exec_env.
    - apply (exec_wake _ _ _ _ _ _ _ (mkEngine (Awaiting nap) p1 true 0) _ nap); [done|]. left. simpl. lia.
    - apply exec_poll_to; [by left|reflexivity].
    - apply exec_poll_to; [by right|reflexivity]. }
  split; [exact Hx|].
  exact (composite_wait_settles t_clock (fun _ => 0) 1000 None two_tanks _ s' e 1%nat Hx).
Defined.

(** [peek_all] on constituents whose answers are [ds]: impossible as soon as
    one is, granted when all are, otherwise the longest of the waits. *)
Theorem peek_all_combines {W : Type} (items : list (Limiter W * Z)) (ds : list Decision) (w : W) :
  Forall2 (fun it d => forall w, peek it.1 it.2 w = (d, w)) items ds ->
  peek_all items w = (combine ds, w).
Proof.
  intros H. unfold peek_all, combine. rewrite mthen_run.
  case_bool_decide as Hin; [by rewrite (peek_loop_never _ ds)|].
  rewrite (peek_loop_waits _ ds) by done. simpl. by destruct (omap retry_after ds).
Qed.

Definition fixed_answer (d : Decision) : Limiter unit :=
  with_defaults (fun _ => mret d) (fun _ => mret d) (mret 0) 1 default_refund.

Lemma peek_all_combines_witness :
  peek_all [(fixed_answer Acquired, 1); (fixed_answer (Retry 3), 1); (fixed_answer (Retry 9), 1)] tt
  = (Retry 9, tt).
Proof.
  apply (peek_all_combines [(fixed_answer Acquired, 1); (fixed_answer (Retry 3), 1); (fixed_answer (Retry 9), 1)]
    [Acquired; Retry 3; Retry 9] tt).
  repeat constructor.
Defined.

(** The provided [charge] terminates within its fuel and is exact: what it
    does not report as uncharged it took, and it never takes more than
    asked. *)
Theorem default_charge_exact {W : Type} (i : nat) (l : Limiter W) (cost : Z) (fuel : nat)
    (s : W * list event) (who : nat) :
  0 <= capacity l -> 0 <= cost -> (charge_fuel cost (capacity l) <= fuel)%nat ->
  let il := instrument i l in
  let '(uncharged, s') := default_charge (available il) (acquire_cost il) (reserve il) (capacity l) cost s in
  0 <= uncharged <= cost /\
  outstanding s'.2 who = outstanding s.2 who + delta who (Took i (cost - uncharged)) /\
  (0 < capacity l ->
   charge_loop (available il) (acquire_cost il) (reserve il) (capacity l) fuel cost s = (uncharged, s')).
Proof.
  intros Hc Hcost Hf il. unfold default_charge.
  destruct (Z.eqb_spec (capacity l) 0) as [E|E].
  { simpl. split; [lia|]. split; [case_decide; lia|intros; exfalso; lia]. }
  set (f0 := charge_fuel cost (capacity l)) in *.
  pose proof (charge_loop_bounds (available il) (acquire_cost il) (reserve il) (capacity l) f0 cost s) as Hb.
  pose proof (moves_charge_loop i l f0 cost Hcost s who) as Hm.
  pose proof (charge_loop_fuel (available il) (acquire_cost il) (reserve il) (capacity l) f0 fuel cost s) as Hx.
  subst il. simpl in Hb, Hx.
  destruct (charge_loop _ _ _ _ f0 cost s) as [u s']. simpl in *.
  split; [lia|]. split; [done|]. intros Hpos. apply Hx; try done.
  unfold f0, charge_fuel. pose proof (Z.div_pos cost (capacity l)). lia.
Qed.

Lemma default_charge_exact_witness :
  let il := instrument 0 (tank false 4) in
  let s := (mkTanks 0 4 0, []) in
  charge_loop (available il) (acquire_cost il) (reserve il) 4 9 10 s
  = (0, (mkTanks 0 (-6) 0, [Took 0 4; Took 0 4; Took 0 2])).
Proof.
  assert (H : 0 <= 4 /\ 0 <= 10 /\ (charge_fuel 10 4 <= 9)%nat /\ 0 < 4) by (vm_compute; intuition congruence || lia).
  destruct H as (H1 & H2 & H3 & H4).
  exact (proj2 (proj2 (default_charge_exact 0 (tank false 4) 10 9 (mkTanks 0 4 0, []) 0 H1 H2 H3)) H4).
Defined.
