(* ===== verification/Circuit.v ===== *)
(** * The circuit breaker (src/src/circuit.rs)

    The state machine guarded by one mutex ([Shared]), the trip policies, the
    tickets that stamp an admission, and the breaker as a [Limiter] around an
    inner one. Clock readings are arguments: a call reads the clock before it
    takes the lock, so two calls may reach the lock in the other order. The
    second half runs the critical sections of any number of callers, each a
    step of its own, and follows the trials that are out. *)

From stdpp Require Import sorting.
From S2P Require Import Prelude Decisions Float64 Limiter.

(** ** Data *)

Inductive Trip :=
  | Consecutive (n : Z)
  | Ratio (window : Z) (ratio : f64) (min_calls : Z)
  | Windowed (failures : Z) (period : Duration).

Definition normalised (self : Trip) : Trip :=
  match self with
  | Consecutive n => Consecutive (Z.max n 1)
  | Ratio window ratio min_calls =>
      let window := Z.max window 1 in
      Ratio window (if f64_is_nan ratio then f64_one else f64_clamp ratio f64_zero f64_one)
        (Z.min min_calls window)
  | Windowed failures period => Windowed (Z.max failures 1) period
  end.

Inductive BreakerState := Closed | Open | HalfOpen.

#[export] Instance BreakerState_eq_dec : EqDecision BreakerState.
Proof. solve_decision. Defined.

Record Shared := mkShared {
  state : BreakerState;
  generation : Z;
  consecutive : Z;
  outcomes : list bool;
  failure_times : list Z;
  half_open_inflight : Z;
  trait_probes : Z;
  half_open_successes : Z;
  open_until_ms : Z }.

Definition Shared_new : Shared := mkShared Closed 0 0 [] [] 0 0 0 0.

Definition reset_counters (s : Shared) : Shared :=
  mkShared (state s) (generation s) 0 [] [] 0 0 0 (open_until_ms s).

Record Ticket := mkTicket { t_generation : Z; probe : bool }.

Record Config := mkConfig {
  trip : Trip;
  cooldown : Duration;
  half_open_trials : Z;
  half_open_required : Z }.

(** ** Detectors *)

Definition millis_or_max (d : Duration) : Z := to_u64_or_max (as_millis d).

(** [while outcomes.len() > window { pop_front }] *)
Definition keep_last {A} (window : Z) (l : list A) : list A :=
  drop (length l - Z.to_nat window) l.

(** [while front < cutoff { pop_front }] *)
Fixpoint drop_before (cutoff : Z) (l : list Z) : list Z :=
  match l with
  | t :: rest => if t <? cutoff then drop_before cutoff rest else l
  | [] => []
  end.

Definition with_history (s : Shared) (os : list bool) (fs : list Z) : Shared :=
  mkShared (state s) (generation s) (consecutive s) os fs (half_open_inflight s)
    (trait_probes s) (half_open_successes s) (open_until_ms s).

Definition record_outcome (s : Shared) (failure : bool) (now_ms : Z) (t : Trip) : Shared :=
  match t with
  | Consecutive _ => s
  | Ratio window _ _ => with_history s (keep_last window (outcomes s ++ [failure])) (failure_times s)
  | Windowed _ period =>
      let fs := if failure then failure_times s ++ [now_ms] else failure_times s in
      let cutoff := sat_sub now_ms (millis_or_max period) in
      with_history s (outcomes s) (drop_before cutoff fs)
  end.

Definition len {A} (l : list A) : Z := Z.of_nat (length l).

Definition tripped (s : Shared) (now_ms : Z) (t : Trip) : bool :=
  match t with
  | Consecutive n => n <=? consecutive s
  | Ratio _ ratio min_calls =>
      let total := len (outcomes s) in
      if (total =? 0) || (total <? min_calls) then false
      else
        let failures := len (filter (fun f => f = true) (outcomes s)) in
        f64_le ratio (f64_div (f64_of_Z failures) (f64_of_Z total))
  | Windowed failures period =>
      let cutoff := sat_sub now_ms (millis_or_max period) in
      let recent := len (filter (fun t => cutoff <= t) (failure_times s)) in
      failures <=? recent
  end.

(** ** The state machine *)

Definition transition (s : Shared) (to : BreakerState) : Shared :=
  mkShared to (wrap64 (generation s + 1)) (consecutive s) (outcomes s) (failure_times s)
    (half_open_inflight s) (trait_probes s) (half_open_successes s) (open_until_ms s).

Definition set_trials (s : Shared) (inflight probes successes : Z) : Shared :=
  mkShared (state s) (generation s) (consecutive s) (outcomes s) (failure_times s)
    inflight probes successes (open_until_ms s).

Definition reset (s : Shared) : Shared := transition (reset_counters s) Closed.

Section Machine.
Context (config : Config).

Definition admit_locked (s : Shared) (now_ms : Z) : Result Ticket Duration * Shared :=
  match state s with
  | Closed => (Ok (mkTicket (generation s) false), s)
  | Open =>
      if open_until_ms s <=? now_ms then
        let s := set_trials (transition s HalfOpen) 1 0 0 in
        (Ok (mkTicket (generation s) true), s)
      else (Err (from_millis (open_until_ms s - now_ms)), s)
  | HalfOpen =>
      if half_open_inflight s <? half_open_trials config then
        let s := set_trials s (half_open_inflight s + 1) (trait_probes s) (half_open_successes s) in
        (Ok (mkTicket (generation s) true), s)
      else (Err DURATION_ZERO, s)
  end.

Definition admit_as (s : Shared) (now_ms : Z) (via_trait : bool) : Result Ticket Duration * Shared :=
  let '(r, s) := admit_locked s now_ms in
  match r with
  | Err after => (Err after, s)
  | Ok ticket =>
      let s :=
        if probe ticket && via_trait
        then set_trials s (half_open_inflight s) (sat_add u32_max (trait_probes s) 1)
               (half_open_successes s)
        else s in
      (Ok ticket, s)
  end.

Definition admit_ (s : Shared) (now_ms : Z) : Result Ticket Duration * Shared :=
  admit_as s now_ms false.

Definition abort_as (s : Shared) (ticket : Ticket) (via_trait : bool) : Shared :=
  if negb (probe ticket) then s
  else if (generation s =? t_generation ticket) && bool_decide (state s = HalfOpen) then
    set_trials s (sat_sub (half_open_inflight s) 1)
      (if via_trait then sat_sub (trait_probes s) 1 else trait_probes s)
      (half_open_successes s)
  else s.

Definition abort (s : Shared) (ticket : Ticket) : Shared := abort_as s ticket false.

Definition release_trait_probe (s : Shared) : Shared :=
  if bool_decide (state s = HalfOpen) && (0 <? trait_probes s) then
    set_trials s (sat_sub (half_open_inflight s) 1) (trait_probes s - 1) (half_open_successes s)
  else s.

Definition still_admits (s : Shared) (now_ms : Z) (ticket : Ticket) : Result unit Duration :=
  if (generation s =? t_generation ticket) || bool_decide (state s = Closed) then Ok tt
  else Err (match state s with
            | Open => from_millis (sat_sub (open_until_ms s) now_ms)
            | _ => DURATION_ZERO
            end).

Definition open (s : Shared) (now_ms : Z) : Shared :=
  let until := sat_add u64_max now_ms (millis_or_max (cooldown config)) in
  transition
    (mkShared (state s) (generation s) (consecutive s) (outcomes s) (failure_times s) 0 0 0 until)
    Open.

Definition set_consecutive (s : Shared) (n : Z) : Shared :=
  mkShared (state s) (generation s) n (outcomes s) (failure_times s) (half_open_inflight s)
    (trait_probes s) (half_open_successes s) (open_until_ms s).

Definition apply (s : Shared) (success : bool) (now_ms : Z) (probe : bool) : Shared :=
  match state s with
  | HalfOpen =>
      let s := if probe
               then set_trials s (sat_sub (half_open_inflight s) 1) (trait_probes s)
                      (half_open_successes s)
               else s in
      if success then
        let s := set_trials s (half_open_inflight s) (trait_probes s)
                   (wrap32 (half_open_successes s + 1)) in
        if half_open_required config <=? half_open_successes s
        then transition (reset_counters s) Closed
        else s
      else open s now_ms
  | Closed =>
      let s := set_consecutive s (if success then 0 else sat_add u32_max (consecutive s) 1) in
      let s := record_outcome s (negb success) now_ms (trip config) in
      if negb success && tripped s now_ms (trip config) then open s now_ms else s
  | Open => s
  end.

Definition settle (s : Shared) (ticket : Ticket) (success : bool) (now_ms : Z) : Shared :=
  if negb (generation s =? t_generation ticket) then s
  else apply s success now_ms (probe ticket).

Definition record_manual (s : Shared) (success : bool) (now_ms : Z) : Shared :=
  let probe := bool_decide (state s = HalfOpen) && (0 <? trait_probes s) in
  let s := if probe
           then set_trials s (half_open_inflight s) (trait_probes s - 1) (half_open_successes s)
           else s in
  apply s success now_ms probe.

Definition record_success (s : Shared) (now_ms : Z) : Shared := record_manual s true now_ms.
Definition record_failure (s : Shared) (now_ms : Z) : Shared := record_manual s false now_ms.

End Machine.

(** ** The builder *)

Record CircuitBreakerBuilder := mkBuilder {
  b_trip : Trip;
  b_cooldown : Duration;
  b_half_open_trials : Z;
  b_half_open_required : Z }.

Definition Builder_new : CircuitBreakerBuilder := mkBuilder (Consecutive 5) (from_secs 30) 1 1.
Definition with_trip (b : CircuitBreakerBuilder) (t : Trip) : CircuitBreakerBuilder :=
  mkBuilder t (b_cooldown b) (b_half_open_trials b) (b_half_open_required b).
Definition with_cooldown (b : CircuitBreakerBuilder) (d : Duration) : CircuitBreakerBuilder :=
  mkBuilder (b_trip b) d (b_half_open_trials b) (b_half_open_required b).
Definition half_open (b : CircuitBreakerBuilder) (trials required : Z) : CircuitBreakerBuilder :=
  let trials := Z.max trials 1 in
  mkBuilder (b_trip b) (b_cooldown b) trials (Z.min (Z.max required 1) trials).
(** The configuration [build] hands to the breaker. *)
Definition build (b : CircuitBreakerBuilder) : Config :=
  mkConfig (normalised (b_trip b)) (b_cooldown b) (b_half_open_trials b) (b_half_open_required b).

(** ** The breaker around a limiter *)

Section Breaker.
Context {W : Type} (inner : Limiter W) (config : Config).
(** Where the breaker's state lives, and its clock in milliseconds since its
    epoch. *)
Context (shared_at : W -> Shared) (set_shared : Shared -> W -> W) (now_ms : W -> Z).

(** One critical section. *)
Definition locked {A} (f : Shared -> A * Shared) : M W A := fun w =>
  let '(a, s) := f (shared_at w) in (a, set_shared s w).

Definition update (f : Shared -> Shared) : M W unit := locked (fun s => (tt, f s)).

Definition breaker_admit (via_trait : bool) : M W (Result Ticket Duration) := fun w =>
  locked (fun s => admit_as config s (now_ms w) via_trait) w.

Definition breaker_abort (ticket : Ticket) (via_trait : bool) : M W unit :=
  update (fun s => abort_as s ticket via_trait).

Definition breaker_settle (ticket : Ticket) (success : bool) : M W unit := fun w =>
  update (fun s => settle config s ticket success (now_ms w)) w.

Definition admit_or_shed : M W (Result Ticket ThrottleError) :=
  let! r := breaker_admit false in
  mret (match r with Ok t => Ok t | Err after => Err (CircuitOpen after) end).

Definition try_admit : M W (Result (option Ticket) ThrottleError) :=
  let! r := admit_or_shed in
  match r with
  | Err e => mret (Err e)
  | Ok ticket =>
      let! d := acquire_cost inner 1 in
      match d with
      | Acquired => mret (Ok (Some ticket))
      | Retry _ => let! _ := breaker_abort ticket false in mret (Ok None)
      | Impossible =>
          let! _ := breaker_abort ticket false in
          mret (Err (CostExceedsCapacity 1 (capacity inner)))
      end
  end.

(** *** Permits *)

Record Permit := mkPermit { p_ticket : Ticket; settled : bool }.

Definition Permit_new (ticket : Ticket) : Permit := mkPermit ticket false.

(** [Drop]: an unsettled permit counts as a failure. *)
Definition permit_drop (p : Permit) : M W unit :=
  if settled p then mret tt else breaker_settle (p_ticket p) false.

(** The consuming methods mark the permit settled, report, and drop it. *)
Definition permit_success (p : Permit) : M W unit :=
  let p := mkPermit (p_ticket p) true in
  let! _ := breaker_settle (p_ticket p) true in permit_drop p.

Definition permit_failure (p : Permit) : M W unit :=
  let p := mkPermit (p_ticket p) true in
  let! _ := breaker_settle (p_ticket p) false in permit_drop p.

Definition permit_cancel (p : Permit) : M W unit :=
  let p := mkPermit (p_ticket p) true in
  let! _ := breaker_abort (p_ticket p) false in
  let! _ := refund inner 1 in permit_drop p.

Definition breaker_try_acquire : M W (Result (option Permit) ThrottleError) :=
  let! r := try_admit in
  mret (match r with
        | Ok (Some t) => Ok (Some (Permit_new t))
        | Ok None => Ok None
        | Err e => Err e
        end).

Inductive CallError (E : Type) :=
  | Rejected (e : ThrottleError)
  | Failed (e : E).
Arguments Rejected {E}. Arguments Failed {E}.

(** Runs the operation under a permit and reports its outcome. *)
Definition settle_call {T E} (permit : Permit) (operation : M W (Result T E))
    : M W (Result T (CallError E)) :=
  let! r := operation in
  match r with
  | Ok value => let! _ := permit_success permit in mret (Ok value)
  | Err error => let! _ := permit_failure permit in mret (Err (Failed error))
  end.

(** *** The [Limiter] implementation *)

Definition breaker_peek (cost : Z) : M W Decision := fun w =>
  let now := now_ms w in
  let s := shared_at w in
  match state s with
  | Open =>
      if now <? open_until_ms s then (Retry (from_millis (open_until_ms s - now)), w)
      else peek inner cost w
  | HalfOpen =>
      if half_open_trials config <=? half_open_inflight s then (Retry DURATION_ZERO, w)
      else peek inner cost w
  | Closed => peek inner cost w
  end.

Definition breaker_acquire_cost (cost : Z) : M W Decision :=
  let! r := breaker_admit true in
  match r with
  | Err after => mret (Retry after)
  | Ok ticket =>
      let! decision := acquire_cost inner cost in
      if is_acquired decision then mret decision
      else let! _ := breaker_abort ticket true in mret decision
  end.

Definition breaker_available : M W Z :=
  let! d := breaker_peek 0 in
  if is_acquired d then available inner else mret 0.

Definition breaker_refund (cost : Z) : M W unit :=
  let! _ := refund inner cost in update release_trait_probe.

Definition breaker_reserve (cost : Z) (max_wait : Duration) : M W (option Duration) :=
  let! r := breaker_admit true in
  match r with
  | Err _ => mret None
  | Ok ticket =>
      let! reserved := reserve inner cost max_wait in
      match reserved with
      | Some _ => mret reserved
      | None => let! _ := breaker_abort ticket true in mret None
      end
  end.

Definition CircuitBreaker : Limiter W := {|
  peek := breaker_peek;
  acquire_cost := breaker_acquire_cost;
  available := breaker_available;
  capacity := capacity inner;
  refund := breaker_refund;
  reserve := breaker_reserve;
  pause_for := pause_for inner;
  paused_for := paused_for inner;
  resume := resume inner;
  charge := charge inner |}.

End Breaker.
Arguments Rejected {E}. Arguments Failed {E}.

(** ** Detectors against the whole history

    The reference looks at every outcome reported since the breaker closed,
    oldest first: [(success, now_ms)]. *)

Definition history := list (bool * Z).

Fixpoint streak (newest_first : history) : Z :=
  match newest_first with
  | (false, _) :: rest => 1 + streak rest
  | _ => 0
  end.

Definition failed_at (h : history) : list Z :=
  omap (fun o : bool * Z => if o.1 then None else Some o.2) h.

Definition trip_spec (t : Trip) (h : history) : bool :=
  match rev h with
  | (false, now) :: _ =>
      match t with
      | Consecutive n => n <=? streak (rev h)
      | Ratio window ratio min_calls =>
          let recent := take (Z.to_nat window) (rev h) in
          let failures := len (filter (fun o : bool * Z => o.1 = false) recent) in
          (min_calls <=? len recent) &&
          f64_le ratio (f64_div (f64_of_Z failures) (f64_of_Z (len recent)))
      | Windowed failures period =>
          failures <=? len (filter (fun at_ => now - millis_or_max period <= at_) (failed_at h))
      end
  | _ => false
  end.

(** The reading of the first report at which the policy trips. *)
Fixpoint first_trip (t : Trip) (seen h : history) : option Z :=
  match h with
  | [] => None
  | o :: rest =>
      if trip_spec t (seen ++ [o]) then Some o.2 else first_trip t (seen ++ [o]) rest
  end.

Definition report (config : Config) (s : Shared) (o : bool * Z) : Shared :=
  apply config s o.1 o.2 false.

Definition trip_ok (t : Trip) : Prop :=
  match t with
  | Consecutive n => n <= u32_max
  | Ratio window _ _ => 1 <= window
  | Windowed _ period => 0 <= period
  end.

Fixpoint readings_from (t : Z) (h : history) : Prop :=
  match h with
  | [] => True
  | o :: rest => t <= o.2 /\ readings_from o.2 rest
  end.

(** ** Detectors: lemmas *)

Lemma keep_last_snoc {A} (w : Z) (x : A) (l : list A) :
  1 <= w ->
  keep_last w (rev (take (Z.to_nat w) l) ++ [x]) = rev (take (Z.to_nat w) (x :: l)).
Proof.
  intros Hw. unfold keep_last. replace (rev (take (Z.to_nat w) l) ++ [x])
    with (rev (x :: take (Z.to_nat w) l)) by done.
  rewrite skipn_rev. f_equal. rewrite length_rev. destruct (Z.to_nat w) as [|n] eqn:E; [lia|].
  rewrite firstn_cons. cbn [length]. rewrite length_take.
  destruct (Nat.le_gt_cases (length l) n) as [Hl|Hl].
  - rewrite (take_ge l (S n)), (take_ge l n) by lia. apply take_ge. cbn [length]. lia.
  - rewrite Nat.min_l by lia.
    replace (S (S n) - (S (S n) - S n))%nat with (S n) by lia.
    rewrite firstn_cons, take_take. do 2 f_equal. lia.
Qed.

Lemma drop_before_filter c l :
  StronglySorted Z.le l -> drop_before c l = filter (fun t => c <= t) l.
Proof.
  induction 1 as [|t l _ IH Hall]; [done|]. simpl. rewrite filter_cons.
  destruct (Z.ltb_spec t c); case_decide; [lia|done| |lia].
  f_equal. symmetry. apply filter_id. eapply Forall_impl; [exact Hall|]. simpl. lia.
Qed.

Lemma filter_filter_ge c c' (l : list Z) :
  c <= c' -> filter (fun t => c' <= t) (filter (fun t => c <= t) l) = filter (fun t => c' <= t) l.
Proof. intros H. apply list_filter_filter_l. lia. Qed.

Lemma failed_at_snoc h ok now :
  failed_at (h ++ [(ok, now)]) = failed_at h ++ (if ok then [] else [now]).
Proof. unfold failed_at. rewrite omap_app. by destruct ok. Qed.

Lemma StronglySorted_snoc (l : list Z) x :
  StronglySorted Z.le l -> Forall (fun y => y <= x) l -> StronglySorted Z.le (l ++ [x]).
Proof.
  induction 1 as [|t l _ IH Hall]; simpl; [by repeat constructor|].
  intros Hx. inversion Hx as [|? ? Hxt Hxl]; subst.
  constructor; [by apply IH|]. apply Forall_app. split; [done|by repeat constructor].
Qed.

Lemma StronglySorted_keep (P : Z -> Prop) `{!forall x, base.Decision (P x)} (l : list Z) :
  StronglySorted Z.le l -> StronglySorted Z.le (filter P l).
Proof.
  induction 1 as [|t l _ IH Hall]; [constructor|]. rewrite filter_cons.
  case_decide; [|done]. constructor; [done|]. by apply Forall_filter_keep.
Qed.

Lemma len_failures (l : history) :
  len (filter (fun f : bool => f = true) (rev (map (fun o : bool * Z => negb o.1) l))) =
  len (filter (fun o : bool * Z => o.1 = false) l).
Proof.
  unfold len. f_equal. induction l as [|[ok t] l IH]; [done|]. cbn [map rev].
  rewrite filter_app, length_app, IH, (filter_cons _ (ok, t)).
  by destruct ok; rewrite filter_cons; simpl; repeat case_decide; simpl; try done; rewrite ?Nat.add_0_r, ?Nat.add_1_r.
Qed.

(** ** What the detector's state says about the history *)

Definition tracks (t : Trip) (seen : history) (last : Z) (s : Shared) : Prop :=
  state s = Closed /\ 0 <= last /\
  match t with
  | Consecutive _ => consecutive s = Z.min u32_max (streak (rev seen))
  | Ratio window _ _ =>
      outcomes s = rev (take (Z.to_nat window) (map (fun o => negb o.1) (rev seen)))
  | Windowed _ period =>
      failure_times s =
        filter (fun at_ => sat_sub last (millis_or_max period) <= at_) (failed_at seen) /\
      StronglySorted Z.le (failed_at seen) /\ Forall (fun at_ => 0 <= at_ <= last) (failed_at seen)
  end.

Definition seen_report (t : Trip) (s : Shared) (ok : bool) (now : Z) : Shared :=
  record_outcome (set_consecutive s (if ok then 0 else sat_add u32_max (consecutive s) 1))
    (negb ok) now t.

Lemma millis_nonneg d : 0 <= d -> 0 <= millis_or_max d.
Proof.
  intros H. unfold millis_or_max, as_millis. pose proof (Z.div_pos d NANOS_PER_MILLI H). mlia.
Qed.

Lemma streak_nonneg h : 0 <= streak h.
Proof. induction h as [|[[] t] h IH]; simpl; lia. Qed.

Lemma tracks_report t seen last s ok now :
  trip_ok t -> tracks t seen last s -> last <= now ->
  tracks t (seen ++ [(ok, now)]) now (seen_report t s ok now).
Proof.
  intros Hok (Hst & Hl & Htr) Hn. unfold tracks, seen_report. rewrite rev_app_distr. simpl rev.
  destruct t as [n|window ratio min_calls|failures period]; simpl in *;
    (split; [done|]); (split; [lia|]).
  - rewrite Htr. pose proof (streak_nonneg (rev seen)). destruct ok; mlia.
  - rewrite Htr. by apply (keep_last_snoc window (negb ok)).
  - destruct Htr as (Hf & Hs & Hb). rewrite failed_at_snoc.
    assert (Hb' : Forall (fun at_ => 0 <= at_ <= now) (failed_at seen ++ (if ok then [] else [now]))).
    { apply Forall_app. split; [eapply Forall_impl; [exact Hb|simpl; lia]|].
      destruct ok; repeat constructor; lia. }
    assert (Hs' : StronglySorted Z.le (failed_at seen ++ (if ok then [] else [now]))).
    { destruct ok; [by rewrite app_nil_r|]. apply StronglySorted_snoc; [done|].
      eapply Forall_impl; [exact Hb|]. simpl. lia. }
    split; [|done]. rewrite Hf.
    replace (if negb ok then _ else _) with
      (filter (fun at_ => sat_sub last (millis_or_max period) <= at_)
         (failed_at seen ++ (if ok then [] else [now]))).
    + rewrite drop_before_filter by by apply StronglySorted_keep.
      apply filter_filter_ge. mlia.
    + rewrite filter_app. destruct ok; simpl; [by rewrite app_nil_r|].
      rewrite (filter_id _ [now]); [done|]. repeat constructor.
      pose proof (millis_nonneg period Hok). mlia.
Qed.

Lemma tripped_spec t seen now s :
  trip_ok t -> tracks t (seen ++ [(false, now)]) now s ->
  tripped s now t = trip_spec t (seen ++ [(false, now)]).
Proof.
  intros Hok (_ & Hl & Htr). unfold trip_spec. rewrite rev_app_distr. simpl rev. cbn [app].
  destruct t as [n|window ratio min_calls|failures period]; simpl in Hok; unfold tripped.
  - rewrite Htr, rev_app_distr. cbn [rev app]. zcase; lia.
  - rewrite Htr, rev_app_distr. cbn [rev app].
    set (recent := take (Z.to_nat window) ((false, now) :: rev seen)).
    assert (Hne : len recent <> 0).
    { unfold recent, len. destruct (Z.to_nat window) as [|k] eqn:E; [lia|]. simpl. lia. }
    rewrite firstn_map. fold recent. rewrite len_failures.
    replace (len (rev (map _ recent))) with (len recent)
      by (unfold len; by rewrite length_rev, length_map).
    destruct (Z.eqb_spec (len recent) 0); [done|]. simpl orb.
    rewrite Z.ltb_antisym. by destruct (min_calls <=? len recent).
  - destruct Htr as (Hf & _ & Hb). rewrite Hf. unfold len. do 3 f_equal.
    rewrite list_filter_filter. apply filter_ext_in. eapply Forall_impl; [exact Hb|].
    simpl. mlia.
Qed.

(** Reports after the trip change nothing: the breaker is open. *)
Lemma reports_after_trip config h s : state s = Open -> foldl (report config) s h = s.
Proof.
  intros Hs. induction h as [|o h IH]; [done|]. simpl. unfold report at 2, apply.
  by rewrite Hs.
Qed.

Lemma report_closed config s ok now :
  state s = Closed ->
  report config s (ok, now) =
    let s' := seen_report (trip config) s ok now in
    if negb ok && tripped s' now (trip config) then open config s' now else s'.
Proof. intros Hs. unfold report, apply. by rewrite Hs. Qed.

Lemma detectors_follow config h seen last s :
  trip_ok (trip config) -> tracks (trip config) seen last s -> readings_from last h ->
  let s' := foldl (report config) s h in
  match first_trip (trip config) seen h with
  | None => state s' = Closed
  | Some now => state s' = Open /\
      open_until_ms s' = sat_add u64_max now (millis_or_max (cooldown config))
  end.
Proof.
  intros Hok. revert seen last s. induction h as [|[ok now] h IH]; intros seen last s Htr Hr.
  { simpl. apply Htr. }
  destruct Hr as [Hn Hr]. simpl in Hn, Hr. cbn [foldl first_trip snd].
  rewrite report_closed by apply Htr. cbv zeta.
  pose proof (tracks_report _ seen last s ok now Hok Htr Hn) as Htr'.
  destruct ok; simpl negb; cbn [andb].
  - assert (Hspec : trip_spec (trip config) (seen ++ [(true, now)]) = false).
    { unfold trip_spec. by rewrite rev_app_distr. }
    rewrite Hspec. by apply (IH _ now).
  - rewrite (tripped_spec _ seen now) by done.
    destruct (trip_spec _ _).
    + rewrite reports_after_trip by done. done.
    + by apply (IH _ now).
Qed.

Lemma normalised_ok t :
  match t with
  | Consecutive n => is_u32 n | Ratio w _ m => is_u32 w /\ is_u32 m
  | Windowed f p => is_u32 f /\ 0 <= p
  end -> trip_ok (normalised t).
Proof. destruct t; simpl; mlia. Qed.

(** ** The breaker among its callers

    A state is the shared state, the tickets its callers hold (permits and
    waiting acquires), and those of the trait calls that are between their
    admission and what they do next: a trait call admits, asks the inner
    limiter without the lock, and either keeps its trial or takes the lock
    again to abort it. Each operation is one critical section, with the clock
    reading its caller took before it. [raced] lists, under its generation,
    each trait trial that a report or a refund released while a trait call of
    that half-open period was between its two sections: neither carries an
    identity, so it may be that call's own. *)

Inductive op :=
  | OpAdmit (now : Z)
  | OpSettle (i : nat) (success : bool) (now : Z)
  | OpAbort (i : nat)
  | OpTraitAdmit (now : Z)
  | OpTraitKeep (i : nat)
  | OpTraitAbort (i : nat)
  | OpRefund
  | OpManual (success : bool) (now : Z)
  | OpReset.

Record callers := mkCallers {
  breaker : Shared;
  held : list Ticket;
  trying : list Ticket;
  raced : list Z }.

(** The trials of the current half-open period. *)
Definition current (g : Z) (t : Ticket) : Prop := probe t = true /\ t_generation t = g.

#[export] Instance current_dec g t : base.Decision (current g t).
Proof. unfold current. apply _. Defined.

(** A release of a trait trial that may be the one of a call in [trying]. *)
Definition note_race (s : Shared) (trying : list Ticket) (raced : list Z) : list Z :=
  if bool_decide (state s = HalfOpen) && (0 <? trait_probes s) &&
     bool_decide (filter (current (generation s)) trying <> [])
  then generation s :: raced else raced.

Definition step (config : Config) (c : callers) (o : op) : callers :=
  let '(mkCallers s held trying raced) := c in
  match o with
  | OpAdmit now =>
      let '(r, s) := admit_ config s now in
      mkCallers s (match r with Ok t => t :: held | Err _ => held end) trying raced
  | OpSettle i success now =>
      match held !! i with
      | Some t => mkCallers (settle config s t success now) (delete i held) trying raced
      | None => c
      end
  | OpAbort i =>
      match held !! i with
      | Some t => mkCallers (abort s t) (delete i held) trying raced
      | None => c
      end
  | OpTraitAdmit now =>
      let '(r, s) := admit_as config s now true in
      mkCallers s held (match r with Ok t => t :: trying | Err _ => trying end) raced
  | OpTraitKeep i => mkCallers s held (delete i trying) raced
  | OpTraitAbort i =>
      match trying !! i with
      | Some t => mkCallers (abort_as s t true) held (delete i trying) raced
      | None => c
      end
  | OpRefund => mkCallers (release_trait_probe s) held trying (note_race s trying raced)
  | OpManual success now =>
      mkCallers (record_manual config s success now) held trying (note_race s trying raced)
  | OpReset => mkCallers (reset s) held trying raced
  end.

Definition callers_new : callers := mkCallers Shared_new [] [] [].

(** How many of [l] are trials of the period [s] is in. *)
Definition trials_in (s : Shared) (l : list Ticket) : Z := len (filter (current (generation s)) l).

(** How many trait trials of this period were released in a race. *)
Definition races_in (s : Shared) (l : list Z) : Z := len (filter (fun g => g = generation s) l).

Definition permits_out (c : callers) : Z := trials_in (breaker c) (held c).
Definition races (c : callers) : Z := races_in (breaker c) (raced c).

Record config_ok (config : Config) : Prop := mkConfigOk {
  trials_ok : 1 <= half_open_trials config <= u32_max;
  required_ok : 1 <= half_open_required config <= half_open_trials config }.

(** The slots in use against the [P] permits out, the trait trials, the [T]
    trait calls under way and the [R] races, when [freed] slots are about to
    be given back. *)
Definition balanced (config : Config) (s : Shared) (P T R freed : Z) : Prop :=
  match state s with
  | HalfOpen =>
      let over := P + trait_probes s + freed - half_open_inflight s in
      0 <= over <= R /\ T + over <= trait_probes s + R /\
      0 <= half_open_inflight s <= half_open_trials config /\
      0 <= half_open_successes s < half_open_required config
  | Closed | Open => P = 0 /\ T = 0
  end.

(** [n] operations have run; [freed] is 1 while a slot is about to be given
    back, and 0 between two operations. *)
Record before (config : Config) (n : Z) (c : callers) (freed : Z) : Prop := mkBefore {
  bef_gen : 0 <= generation (breaker c) <= n;
  bef_held : Forall (fun t => t_generation t <= generation (breaker c)) (held c);
  bef_trying : Forall (fun t => t_generation t <= generation (breaker c)) (trying c);
  bef_raced : Forall (fun g => g <= generation (breaker c)) (raced c);
  bef_probes : 0 <= trait_probes (breaker c) <= u32_max;
  bef_state : balanced config (breaker c) (permits_out c) (trials_in (breaker c) (trying c)) (races c) freed }.

Definition sound (config : Config) (n : Z) (c : callers) : Prop := before config n c 0.

Lemma len_nonneg {A} (l : list A) : 0 <= len l.
Proof. unfold len. lia. Qed.

Lemma trials_in_nonneg s l : 0 <= trials_in s l.
Proof. apply len_nonneg. Qed.

Lemma races_in_nonneg s l : 0 <= races_in s l.
Proof. apply len_nonneg. Qed.

(** No ticket outlives a transition as a current one. *)
Lemma trials_in_transition (s s' : Shared) l :
  Forall (fun t => t_generation t <= generation s) l -> generation s < generation s' ->
  trials_in s' l = 0.
Proof.
  intros Hh Hg. unfold trials_in. rewrite filter_nothing; [done|].
  eapply Forall_impl; [exact Hh|]. simpl. unfold current. intros t Ht [_ E]. lia.
Qed.

Lemma races_in_transition (s s' : Shared) l :
  Forall (fun g => g <= generation s) l -> generation s < generation s' -> races_in s' l = 0.
Proof.
  intros Hh Hg. unfold races_in. rewrite filter_nothing; [done|].
  eapply Forall_impl; [exact Hh|]. simpl. intros g Hle E. lia.
Qed.

Lemma trials_in_same (s s' : Shared) l : generation s' = generation s -> trials_in s' l = trials_in s l.
Proof. unfold trials_in. by intros ->. Qed.

Lemma races_in_same (s s' : Shared) l : generation s' = generation s -> races_in s' l = races_in s l.
Proof. unfold races_in. by intros ->. Qed.

Lemma older {A} (f : A -> Z) (g g' : Z) l :
  Forall (fun t => f t <= g) l -> g <= g' -> Forall (fun t => f t <= g') l.
Proof. intros H Hle. eapply Forall_impl; [exact H|]. simpl. lia. Qed.

Lemma trials_in_cons s l t :
  trials_in s (t :: l) = trials_in s l + (if decide (current (generation s) t) then 1 else 0).
Proof. unfold trials_in, len. simpl. rewrite filter_cons. case_decide; simpl; lia. Qed.

Lemma trials_in_app s l k : trials_in s (l ++ k) = trials_in s l + trials_in s k.
Proof. unfold trials_in, len. rewrite filter_app, length_app. lia. Qed.

Lemma trials_in_delete s l i t : l !! i = Some t ->
  trials_in s l = trials_in s (delete i l) + (if decide (current (generation s) t) then 1 else 0).
Proof.
  intros Hi. unfold trials_in. rewrite <- (take_drop_middle l i t Hi) at 1. rewrite delete_take_drop.
  rewrite !filter_app, filter_cons. unfold len. rewrite !length_app.
  case_decide; simpl; lia.
Qed.

Lemma wrap_next g n : 0 <= g <= n -> n < u64_max -> wrap64 (g + 1) = g + 1.
Proof. intros. apply wrap64_small. mlia. Qed.

Lemma record_outcome_fields s failure now t :
  let s' := record_outcome s failure now t in
  state s' = state s /\ generation s' = generation s /\ trait_probes s' = trait_probes s.
Proof. by destruct t. Qed.

Lemma Forall_delete {A} (P : A -> Prop) (l : list A) i : Forall P l -> Forall P (delete i l).
Proof.
  intros H. rewrite delete_take_drop. apply Forall_app. split; [by apply Forall_take|by apply Forall_drop].
Qed.

Lemma delete_beyond {A} (l : list A) i : l !! i = None -> delete i l = l.
Proof. revert i. induction l as [|x l IH]; intros [|i] Hi; simpl; [done..|]. f_equal. by apply IH. Qed.

(** A transition to a state without trials. *)
Lemma sound_moved config n s s' held trying raced freed :
  before config n (mkCallers s held trying raced) freed ->
  generation s' = generation s + 1 -> state s' <> HalfOpen -> 0 <= trait_probes s' <= u32_max ->
  sound config (n + 1) (mkCallers s' held trying raced).
Proof.
  intros [Hg Hh Ht Hr _ _] Hg' Hs Hp. simpl in *. constructor; simpl; [lia| | | |done|].
  - apply (older _ (generation s)); [done|lia].
  - apply (older _ (generation s)); [done|lia].
  - apply (older id (generation s)); [done|lia].
  - unfold balanced, permits_out. simpl.
    rewrite !(trials_in_transition s) by (done || lia). by destruct (state s').
Qed.

Lemma sound_open config n s held trying raced freed now :
  before config n (mkCallers s held trying raced) freed -> n < u64_max ->
  sound config (n + 1) (mkCallers (open config s now) held trying raced).
Proof.
  intros Hb Hn. apply (sound_moved _ _ s _ _ _ _ freed); simpl; [done| |done|mlia].
  apply (wrap_next _ n); [apply Hb|done].
Qed.

Lemma before_later config n c freed : before config n c freed -> before config (n + 1) c freed.
Proof. intros [Hg Hh Ht Hr Hp Hs]. constructor; [lia|done..]. Qed.

Lemma sound_later config n c : sound config n c -> sound config (n + 1) c.
Proof. apply before_later. Qed.

Lemma sound_apply config n s held trying raced (freed : bool) success now :
  config_ok config -> n < u64_max ->
  before config n (mkCallers s held trying raced) (if freed then 1 else 0) ->
  sound config (n + 1) (mkCallers (apply config s success now freed) held trying raced).
Proof.
  intros [Ht Hr] Hn Hb. pose proof Hb as [Hg Hh Htr Hra Hp Hs]. unfold apply. simpl in *.
  unfold balanced, permits_out, races in Hs. simpl in Hs. destruct (state s) eqn:Est.
  - set (s1 := set_consecutive s _).
    destruct (record_outcome_fields s1 (negb success) now (trip config)) as (E1 & E2 & E3).
    simpl in E1, E2, E3.
    assert (Hb2 : forall f, before config n (mkCallers (record_outcome s1 (negb success) now (trip config)) held trying raced) f).
    { intros f. constructor; simpl; rewrite ?E1, ?E2, ?E3; try done.
      unfold balanced, permits_out. simpl. rewrite (trials_in_same s _ held), (trials_in_same s _ trying) by (by rewrite E2).
      rewrite E1, Est. exact Hs. }
    destruct (_ && _); [by apply (sound_open _ _ _ _ _ _ 0)|apply before_later, Hb2].
  - apply before_later. constructor; simpl; try done. unfold balanced, permits_out. simpl. by rewrite Est.
  - destruct Hs as (Ho & Hot & Hi & Hsucc). pose proof (trials_in_nonneg s held).
    assert (Hw : wrap32 (half_open_successes s + 1) = half_open_successes s + 1).
    { unfold wrap32. apply Z.mod_small. mlia. }
    destruct success.
    2: { destruct freed; [|by apply (sound_open _ _ _ _ _ _ 0)]. by apply (sound_open _ _ s _ _ _ 1). }
    destruct freed; cbn; rewrite Hw; zcase.
    1, 3: eapply (sound_moved _ _ s); [exact Hb|simpl; by apply (wrap_next _ n)|done|simpl; mlia].
    all: constructor; simpl; try done; [lia|]; unfold balanced, permits_out, races; simpl; rewrite Est;
      unfold permits_out, races, trials_in, races_in in *; simpl in *; repeat split; mlia.
Qed.

(** What an admission leaves, before its caller has taken the ticket. *)
Lemma sound_admit_locked config n s held trying raced now :
  config_ok config -> n < u64_max -> sound config n (mkCallers s held trying raced) ->
  let '(r, s') := admit_locked config s now in
  match r with
  | Err _ => s' = s
  | Ok t =>
      t_generation t = generation s' /\ probe t = bool_decide (state s' = HalfOpen) /\
      before config (n + 1) (mkCallers s' held trying raced) (if probe t then 1 else 0)
  end.
Proof.
  intros [Ht Hr] Hn Hsd. pose proof Hsd as [Hg Hh Htr Hra Hp Hs]. simpl in *.
  unfold balanced, permits_out, races in Hs. simpl in Hs. unfold admit_locked. destruct (state s) eqn:Est.
  - rewrite Est. simpl. split; [done|]. split; [done|]. apply before_later. constructor; simpl; try done.
    unfold balanced, permits_out. simpl. by rewrite Est.
  - destruct (Z.leb_spec (open_until_ms s) now); [|done]. simpl.
    rewrite (wrap_next _ n) by done. split; [done|]. split; [done|].
    constructor; simpl; rewrite ?(wrap_next _ n) by done;
      [lia|apply (older _ (generation s)); [done|lia]..|apply (older id (generation s)); [done|lia]|mlia|].
    unfold balanced, permits_out, races. simpl.
    rewrite !(trials_in_transition s), (races_in_transition s) by (done || (simpl; rewrite (wrap_next _ n); lia)).
    repeat split; mlia.
  - destruct Hs as (Ho & Hot & Hi & Hsucc). zcase; [|done].
    simpl. rewrite Est. simpl. split; [done|]. split; [done|].
    constructor; simpl; try done; [lia|]. unfold balanced, permits_out, races. simpl. rewrite Est.
    unfold trials_in, races_in in *. simpl in *. repeat split; lia.
Qed.

(** A new ticket is current exactly when it is a trial. *)
Lemma current_new s t :
  t_generation t = generation s -> current (generation s) t <-> probe t = true.
Proof. unfold current. tauto. Qed.

Lemma trials_in_new s l t : t_generation t = generation s ->
  trials_in s (t :: l) = trials_in s l + (if probe t then 1 else 0).
Proof.
  intros Hg. rewrite trials_in_cons. case_decide as E; rewrite current_new in E by done; [by rewrite E|].
  by destruct (probe t).
Qed.

Lemma sound_admit config n s held trying raced now :
  config_ok config -> n < u64_max -> sound config n (mkCallers s held trying raced) ->
  sound config (n + 1) (step config (mkCallers s held trying raced) (OpAdmit now)).
Proof.
  intros Hc Hn Hs. pose proof (sound_admit_locked config n s held trying raced now Hc Hn Hs) as H.
  unfold step, admit_, admit_as. destruct (admit_locked config s now) as [[t|after] s'];
    [|subst; by apply sound_later].
  destruct H as (Hg & Hp & [Hgn Hh Htr Hra Htp Hst]). rewrite andb_false_r. simpl in *.
  constructor; simpl; try done; [constructor; [lia|done]|].
  unfold balanced, permits_out, races in *. simpl in *. rewrite (trials_in_new s') by done. rewrite Hp in *.
  destruct (state s'); simpl in *; [lia..|]. repeat split; lia.
Qed.

Lemma sound_trait_admit config n s held trying raced now :
  config_ok config -> n < u64_max -> sound config n (mkCallers s held trying raced) ->
  sound config (n + 1) (step config (mkCallers s held trying raced) (OpTraitAdmit now)).
Proof.
  intros Hc Hn Hs. pose proof (sound_admit_locked config n s held trying raced now Hc Hn Hs) as H.
  unfold step, admit_as. destruct (admit_locked config s now) as [[t|after] s'];
    [|subst; by apply sound_later].
  destruct H as (Hg & Hp & [Hgn Hh Htr Hra Htp Hst]). destruct Hc as [Htl _]. simpl in *.
  pose proof (trials_in_nonneg s' held) as HP.
  unfold balanced, permits_out, races in Hst. simpl in Hst.
  destruct (state s') eqn:Est; rewrite ?bool_decide_false, ?bool_decide_true in Hp by done; rewrite Hp in *; simpl andb; cbv iota.
  1, 2: constructor; simpl; try done; [constructor; [lia|done]|]; unfold balanced, permits_out; simpl; rewrite Est;
    rewrite (trials_in_new s') by done; rewrite Hp; lia.
  destruct Hst as (Ho & Hot & Hi & Hsucc).
  constructor; simpl; try done; [constructor; [lia|done]|mlia|]. unfold balanced, permits_out, races. simpl. rewrite Est.
  match goal with |- context [trials_in ?x held] => rewrite !(trials_in_same s' x), (races_in_same s' x) by done end.
  rewrite (trials_in_new s') by done. rewrite Hp.
  repeat split; mlia.
Qed.

(** A caller that gives its ticket up frees one slot if it is a current
    trial. *)
Lemma before_delete config n s held trying raced i t :
  sound config n (mkCallers s held trying raced) -> held !! i = Some t -> generation s = t_generation t ->
  before config n (mkCallers s (delete i held) trying raced) (if probe t then 1 else 0).
Proof.
  intros [Hg Hh Htr Hra Hp Hs] Hi Ht. simpl in *. constructor; simpl; try done; [by apply Forall_delete|].
  unfold balanced, permits_out, races in *. simpl in *. pose proof (trials_in_delete s held i t Hi) as Hd.
  pose proof (trials_in_nonneg s (delete i held)). pose proof (current_new s t (eq_sym Ht)) as Hcur.
  assert (Hcase : (if decide (current (generation s) t) then 1 else 0) = (if probe t then 1 else 0)).
  { case_decide as E; rewrite Hcur in E; [by rewrite E|by destruct (probe t)]. }
  rewrite Hcase in Hd. destruct (state s); [destruct (probe t); lia..|]. repeat split; lia.
Qed.

Lemma sound_delete_stale config n s held trying raced i t :
  sound config n (mkCallers s held trying raced) -> held !! i = Some t -> ~ current (generation s) t ->
  sound config n (mkCallers s (delete i held) trying raced).
Proof.
  intros [Hg Hh Htr Hra Hp Hs] Hi Ht. simpl in *.
  constructor; simpl; try done; [by apply Forall_delete|].
  unfold balanced, permits_out, races in *. simpl in *. pose proof (trials_in_delete s held i t Hi) as Hd.
  rewrite decide_False in Hd by done. rewrite Hd, Z.add_0_r in Hs. done.
Qed.

(** A trait call is over: it no longer stands for its trial. *)
Lemma sound_delete_trying config n s held trying raced i :
  sound config n (mkCallers s held trying raced) ->
  sound config n (mkCallers s held (delete i trying) raced).
Proof.
  intros [Hg Hh Htr Hra Hp Hs]. simpl in *. constructor; simpl; try done; [by apply Forall_delete|].
  unfold balanced, permits_out, races in *. simpl in *.
  destruct (trying !! i) as [t|] eqn:Hi.
  - pose proof (trials_in_delete s trying i t Hi) as Hd. pose proof (trials_in_nonneg s (delete i trying)).
    destruct (state s); [case_decide; lia..|]. repeat split; case_decide; lia.
  - by rewrite delete_beyond.
Qed.

Lemma sound_trait_abort config n s held trying raced i :
  sound config n (mkCallers s held trying raced) ->
  sound config (n + 1) (step config (mkCallers s held trying raced) (OpTraitAbort i)).
Proof.
  intros Hsd. cbn [step]. destruct (trying !! i) as [t|] eqn:Hi; [|by apply sound_later].
  unfold abort_as. destruct (probe t) eqn:Ep; simpl; [|by apply sound_later, sound_delete_trying].
  destruct (Z.eqb_spec (generation s) (t_generation t)) as [E|E]; simpl; [|by apply sound_later, sound_delete_trying].
  case_bool_decide as Ehs; [|by apply sound_later, sound_delete_trying].
  destruct Hsd as [Hg Hh Htr Hra Hp Hs]. simpl in *. apply before_later.
  constructor; simpl; try done; [by apply Forall_delete|mlia|].
  unfold balanced, permits_out, races in *. simpl in *. rewrite Ehs in *.
  match goal with |- context [trials_in ?x held] => rewrite !(trials_in_same s x), (races_in_same s x) by done end.
  pose proof (trials_in_delete s trying i t Hi) as Hd. rewrite decide_True in Hd by done.
  pose proof (trials_in_nonneg s (delete i trying)). pose proof (trials_in_nonneg s held).
  repeat split; mlia.
Qed.

Lemma note_race_ok s trying raced : Forall (fun g => g <= generation s) raced ->
  Forall (fun g => g <= generation s) (note_race s trying raced) /\
  races_in s (note_race s trying raced) =
    races_in s raced +
    (if bool_decide (state s = HalfOpen) && (0 <? trait_probes s) && bool_decide (0 < trials_in s trying) then 1 else 0).
Proof.
  intros Hr. unfold note_race.
  assert (E : bool_decide (filter (current (generation s)) trying <> []) = bool_decide (0 < trials_in s trying)).
  { apply bool_decide_ext. unfold trials_in, len. destruct (filter _ trying); simpl; split; (done || lia). }
  rewrite E. destruct (_ && _ && _); [|split; [done|lia]]. split; [by constructor|].
  unfold races_in, len. rewrite filter_cons_True by done. simpl. lia.
Qed.

(** A trait trial is taken off, its slot about to be given back. *)
Lemma before_release config n s held trying raced :
  sound config n (mkCallers s held trying raced) -> state s = HalfOpen -> 0 < trait_probes s ->
  before config n (mkCallers (set_trials s (half_open_inflight s) (trait_probes s - 1) (half_open_successes s))
    held trying (note_race s trying raced)) 1.
Proof.
  intros [Hg Hh Htr Hra Hp Hs] Est Hpos. simpl in *. destruct (note_race_ok s trying raced Hra) as [Hra' Hrn].
  constructor; simpl; try done; [lia|]. unfold balanced, permits_out, races in *. simpl in *. rewrite Est in *.
  match goal with |- context [trials_in ?x held] => rewrite !(trials_in_same s x), (races_in_same s x) by done end.
  rewrite Hrn, bool_decide_true, (proj2 (Z.ltb_lt _ _)) by done. simpl andb. cbv iota.
  pose proof (trials_in_nonneg s trying).
  destruct (bool_decide (0 < trials_in s trying)) eqn:Et; [|apply bool_decide_eq_false in Et]; repeat split; lia.
Qed.

Lemma note_race_none s trying raced :
  ~ (state s = HalfOpen /\ 0 < trait_probes s) -> note_race s trying raced = raced.
Proof.
  intros Hn. unfold note_race. case_bool_decide as E; [|done].
  destruct (Z.ltb_spec 0 (trait_probes s)); [|done]. exfalso. by apply Hn.
Qed.

Lemma sound_refund config n s held trying raced :
  sound config n (mkCallers s held trying raced) ->
  sound config (n + 1) (step config (mkCallers s held trying raced) OpRefund).
Proof.
  intros Hs. cbn [step]. apply sound_later. unfold release_trait_probe.
  case_bool_decide as E; [|rewrite note_race_none; [done|tauto]].
  destruct (Z.ltb_spec 0 (trait_probes s)) as [Hpos|]; [|rewrite note_race_none; [done|lia]].
  destruct (before_release config n s held trying raced Hs E Hpos) as [Hg Hh Htr Hra Hp Hst]. simpl in *.
  constructor; simpl; try done. unfold balanced, permits_out, races in *. simpl in *. rewrite E in *.
  match goal with |- context [trials_in ?x held] => set (P := trials_in x held) in *; set (T := trials_in x trying) in * end.
  pose proof (trials_in_nonneg s held) as HP. change (trials_in s held) with P in HP.
  change (trials_in _ held) with P in Hst. change (trials_in _ trying) with T in Hst.
  match goal with |- context [races_in ?x ?l] => change (races_in x l) with (races_in s l) end.
  match type of Hst with context [races_in ?x ?l] => change (races_in x l) with (races_in s l) in Hst end.
  repeat split; mlia.
Qed.

Lemma sound_step config n c o :
  config_ok config -> n < u64_max -> sound config n c -> sound config (n + 1) (step config c o).
Proof.
  intros Hc Hn Hs. destruct c as [s held trying raced].
  destruct o as [now|i success now|i|now|i|i| |success now|].
  - by apply sound_admit.
  - cbn [step]. destruct (held !! i) as [t|] eqn:Hi; [|by apply sound_later].
    unfold settle. destruct (Z.eqb_spec (generation s) (t_generation t)) as [E|E]; simpl.
    + apply sound_apply; [done|done|]. by apply before_delete.
    + apply sound_later, (sound_delete_stale _ _ _ _ _ _ _ t); [done..|].
      intros [_ Hg]. by apply E.
  - cbn [step]. destruct (held !! i) as [t|] eqn:Hi; [|by apply sound_later].
    unfold abort, abort_as. apply sound_later. destruct (probe t) eqn:Ep; simpl.
    2: { apply (sound_delete_stale _ _ _ _ _ _ _ t); [done..|]. intros [Hpt _]. congruence. }
    destruct (Z.eqb_spec (generation s) (t_generation t)) as [E|E]; simpl.
    2: { apply (sound_delete_stale _ _ _ _ _ _ _ t); [done..|]. intros [_ Hg]. by apply E. }
    pose proof (before_delete config n s held trying raced i t Hs Hi E) as [Hg Hh Htr Hra Hp Hst].
    rewrite Ep in Hst. unfold balanced, permits_out, races in Hst. simpl in *.
    pose proof (trials_in_nonneg s (delete i held)).
    case_bool_decide as Ehs; constructor; simpl; try done; unfold balanced, permits_out, races; simpl.
    + rewrite Ehs in *.
      match goal with |- context [trials_in ?x (delete i held)] => rewrite !(trials_in_same s x), (races_in_same s x) by done end.
      repeat split; mlia.
    + destruct (state s); done.
  - by apply sound_trait_admit.
  - cbn [step]. by apply sound_later, sound_delete_trying.
  - by apply sound_trait_abort.
  - by apply sound_refund.
  - cbn [step]. unfold record_manual.
    case_bool_decide as E; [|rewrite note_race_none by tauto; by apply sound_apply].
    destruct (Z.ltb_spec 0 (trait_probes s)) as [Hpos|]; [|rewrite note_race_none by lia; by apply sound_apply].
    apply sound_apply; [done|done|]. by apply before_release.
  - cbn [step]. unfold reset. apply (sound_moved _ _ s _ _ _ _ 0); simpl; [done| |done|mlia].
    apply (wrap_next _ n); [apply Hs|done].
Qed.

Lemma sound_run config n c ops :
  config_ok config -> sound config n c -> n + len ops <= u64_max ->
  sound config (n + len ops) (run (step config) c ops).
Proof.
  intros Hc. revert n c. induction ops as [|o ops IH]; intros n c Hs Hn.
  { unfold len. simpl. by rewrite Z.add_0_r. }
  rewrite run_cons. unfold len in *. cbn [length] in *.
  replace (n + Z.of_nat (S (length ops))) with ((n + 1) + Z.of_nat (length ops)) by lia.
  apply IH; [|lia]. apply sound_step; [done|lia|done].
Qed.

Lemma sound_new config : sound config 0 callers_new.
Proof. constructor; simpl; try constructor; (done || lia). Qed.

(** What soundness says of a half-open period. *)
Lemma sound_half_open config n c now : config_ok config -> sound config n c -> state (breaker c) = HalfOpen ->
  let slots := half_open_inflight (breaker c) in
  let trials := permits_out c + trait_probes (breaker c) in
  slots <= trials <= slots + races c /\ slots <= half_open_trials config /\
  0 <= half_open_successes (breaker c) < half_open_required config /\
  (trials < half_open_trials config ->
   exists t, (admit_ config (breaker c) now).1 = Ok t /\ probe t = true).
Proof.
  intros [Hc _] [_ _ _ _ _ Hst] Hs. unfold balanced in Hst. rewrite Hs in Hst. destruct Hst as (Ho & _ & Hi & Hq).
  cbv zeta. split; [lia|]. split; [lia|]. split; [lia|]. intros Hlt.
  unfold admit_, admit_as, admit_locked. rewrite Hs. rewrite (proj2 (Z.ltb_lt _ _)) by lia. simpl. eauto.
Qed.

(** ** Properties *)


Definition two_trials : Config := mkConfig (Consecutive 1) (from_millis 10) 2 2.


(** C22: Each trip policy is decided exactly: the counters, ring and pruned times
    kept since the breaker closed trip at the same report as a reference that
    rescans the whole history, and the cooldown starts there. *)
Theorem trips_exactly (config : Config) (h : history) :
  trip_ok (trip config) -> readings_from 0 h ->
  let s := foldl (report config) Shared_new h in
  match first_trip (trip config) [] h with
  | None => state s = Closed
  | Some now => state s = Open /\
      open_until_ms s = sat_add u64_max now (millis_or_max (cooldown config))
  end.
Proof.
  intros Hok Hr. apply (detectors_follow config h [] 0); [done| |done].
  split; [done|]. split; [lia|]. destruct (trip config); simpl; [mlia|by rewrite firstn_nil|].
  repeat split; constructor.
Qed.

Lemma trips_exactly_witness :
  let config := mkConfig (Ratio 4 (f64_div f64_one (f64_of_Z 2)) 3) (from_millis 10) 1 1 in
  let s := foldl (report config) Shared_new [(true, 1); (true, 2); (false, 3); (false, 5); (true, 6)] in
  state s = Open /\ open_until_ms s = 15.
Proof.
  apply (trips_exactly (mkConfig (Ratio 4 (f64_div f64_one (f64_of_Z 2)) 3) (from_millis 10) 1 1)
    [(true, 1); (true, 2); (false, 3); (false, 5); (true, 6)]); simpl; lia.
Defined.

(** An open breaker sheds with the exact time left: asking any earlier than
    the reported wait is shed again, asking right then is a trial. *)
Theorem open_rejection_is_exact (config : Config) (s : Shared) (now later : Z) (after : Duration) :
  state s = Open -> (admit_ config s now).1 = Err after -> now <= later ->
  0 < after /\ (admit_ config s now).2 = s /\
  ((exists t, (admit_ config s later).1 = Ok t /\ probe t = true) <-> now + as_millis after <= later).
Proof.
  unfold admit_, admit_as, admit_locked. intros -> Ha Hl.
  destruct (Z.leb_spec (open_until_ms s) now) as [|Hn]; [discriminate|].
  simpl in Ha. injection Ha as <-. split; [mlia|]. split; [done|].
  unfold as_millis, from_millis. rewrite Z.div_mul by (unfold NANOS_PER_MILLI; lia).
  destruct (Z.leb_spec (open_until_ms s) later); simpl; (split; [intros [t [H1 H2]]; simplify_eq; lia|]).
  - eauto.
  - lia.
Qed.

Lemma open_rejection_is_exact_witness :
  let s := open two_trials Shared_new 0 in
  (admit_ two_trials s 4).1 = Err 6000000 /\
  (exists t, (admit_ two_trials s 10).1 = Ok t /\ probe t = true).
Proof.
  split; [reflexivity|].
  exact (proj2 (proj2 (proj2 (open_rejection_is_exact two_trials (open two_trials Shared_new 0) 4 10
    6000000 eq_refl eq_refl ltac:(lia)))) ltac:(vm_compute; congruence)).
Defined.

(** One trial: admitted, run, and reported before the next is asked for. *)
Definition trial (config : Config) (success : bool) (now : Z) (s : Shared) : Shared :=
  let '(r, s') := admit_ config s now in
  match r with
  | Ok t => settle config s' t success now
  | Err _ => s'
  end.

Lemma trial_half_open config success now s :
  config_ok config -> state s = HalfOpen -> half_open_inflight s = 0 ->
  trial config success now s =
    apply config (set_trials s 1 (trait_probes s) (half_open_successes s)) success now true.
Proof.
  intros [Ht _] Hs Hi. unfold trial, admit_, admit_as, admit_locked. rewrite Hs, Hi.
  rewrite (proj2 (Z.ltb_lt _ _)) by lia. simpl. unfold settle. simpl. by rewrite Z.eqb_refl.
Qed.

Lemma trial_open config success now s :
  state s = Open -> open_until_ms s <= now ->
  trial config success now s =
    apply config (set_trials (transition s HalfOpen) 1 0 0) success now true.
Proof.
  intros Hs Hn. unfold trial, admit_, admit_as, admit_locked. rewrite Hs.
  rewrite (proj2 (Z.leb_le _ _)) by lia. simpl. unfold settle. simpl. by rewrite Z.eqb_refl.
Qed.

Lemma trial_succeeds config now s k :
  config_ok config -> 0 <= k < half_open_required config ->
  (state s = HalfOpen /\ half_open_inflight s = 0 /\ half_open_successes s = k \/
   state s = Open /\ open_until_ms s <= now /\ k = 0) ->
  let s' := trial config true now s in
  if decide (k + 1 = half_open_required config)
  then state s' = Closed /\ consecutive s' = 0 /\ outcomes s' = [] /\ failure_times s' = []
  else state s' = HalfOpen /\ half_open_inflight s' = 0 /\ half_open_successes s' = k + 1.
Proof.
  intros Hc Hk Hs. pose proof Hc as [Ht Hr].
  assert (Hw : wrap32 (k + 1) = k + 1) by (unfold wrap32; apply Z.mod_small; mlia).
  destruct Hs as [(Hs & Hi & Hq)|(Hs & Hu & ->)].
  - rewrite trial_half_open by done. unfold apply. cbn. rewrite Hs. cbn. rewrite Hq, Hw.
    case_decide; zcase; try lia; cbn; done.
  - rewrite trial_open by done. unfold apply. cbn.
    case_decide; zcase; try lia; cbn; done.
Qed.

(** Recovery: once its cooldown is over, an open breaker stays half-open
    while fewer than [half_open_required] consecutive trials have succeeded
    and closes, with a clean history, at exactly that many; a failed trial
    anywhere before opens it again for a whole cooldown. *)
Theorem recovers_after_required_successes (config : Config) (s : Shared) (now : Z) (k : nat) :
  config_ok config -> state s = Open -> open_until_ms s <= now ->
  Z.of_nat k < half_open_required config ->
  let s_k := Nat.iter k (trial config true now) s in
  (k <> 0%nat -> state s_k = HalfOpen /\ half_open_successes s_k = Z.of_nat k) /\
  (let s' := trial config false now s_k in
   state s' = Open /\ open_until_ms s' = sat_add u64_max now (millis_or_max (cooldown config))) /\
  (Z.of_nat k + 1 = half_open_required config ->
   let s' := trial config true now s_k in
   state s' = Closed /\ consecutive s' = 0 /\ outcomes s' = [] /\ failure_times s' = []).
Proof.
  intros Hc Hs Hu Hk.
  assert (Hst : let s_k := Nat.iter k (trial config true now) s in
    state s_k = HalfOpen /\ half_open_inflight s_k = 0 /\ half_open_successes s_k = Z.of_nat k \/
    state s_k = Open /\ open_until_ms s_k <= now /\ Z.of_nat k = 0).
  { induction k as [|k IH]; [by right|]. left. rewrite Nat.iter_succ.
    pose proof (trial_succeeds config now _ (Z.of_nat k) Hc ltac:(lia) (IH ltac:(lia))) as H.
    cbv zeta in H. case_decide; [lia|]. rewrite Nat2Z.inj_succ. exact H. }
  cbv zeta in *. split; [|split].
  - intros Hk0. destruct Hst as [(H1 & _ & H2)|(_ & _ & H)]; [done|lia].
  - destruct Hst as [(H1 & H2 & _)|(H1 & H2 & _)].
    + rewrite trial_half_open by done. unfold apply. cbn. by rewrite H1.
    + by rewrite trial_open.
  - intros Hr. pose proof (trial_succeeds config now _ (Z.of_nat k) Hc ltac:(lia) Hst) as H.
    cbv zeta in H. by rewrite decide_True in H.
Qed.

Lemma recovers_after_required_successes_witness :
  state (trial two_trials true 10 (Nat.iter 1 (trial two_trials true 10) (open two_trials Shared_new 0)))
  = Closed.
Proof.
  assert (Hc : config_ok two_trials) by (constructor; vm_compute; split; congruence).
  exact (proj1 (proj2 (proj2 (recovers_after_required_successes two_trials
    (open two_trials Shared_new 0) 10 1 Hc eq_refl ltac:(vm_compute; congruence)
    ltac:(vm_compute; congruence))) eq_refl)).
Defined.

(** The bound with races is reached: [abort_as] frees a slot even if a manual
    outcome already released the trait call's own. With two trials allowed,
    three permits of one half-open period are out. *)
Theorem trait_abort_frees_a_permits_slot :
  let c := run (step two_trials) callers_new
    [OpManual false 0; OpAdmit 10; OpTraitAdmit 10; OpManual true 11; OpAdmit 12; OpTraitAbort 0; OpAdmit 13] in
  state (breaker c) = HalfOpen /\ permits_out c = 3 /\ half_open_trials two_trials = 2 /\ races c = 1.
Proof. vm_compute. done. Qed.
