(* ===== verification/Boxed.v ===== *)
(** * The waiting engine as a future (src/src/wait.rs)

    A waiting acquire as its caller polls it: the deadline is set when it is
    first run, a poll resumes it where its await is over and runs its
    segments up to the next await, and it may be dropped between two polls. *)

From S2P Require Import Prelude Decisions Compose Wait.

(** ** Polls *)

Record Waiting (T : Type) := mkWaiting { deadline : Deadline; engine : Engine T }.
Arguments mkWaiting {T}. Arguments deadline {T}. Arguments engine {T}.

Section Boxed.
Context {W T : Type} (instant_now resume_epoch : W -> Z).
Context (step : T -> Duration -> M W (Step * T)) (give_back : T -> M W T) (paused : M W Duration).

(** [Wait.ready] as a decision. *)
Definition is_ready (a : Await) (w : W) : bool :=
  match a with
  | AwaitGrant due => due <=? instant_now w
  | AwaitYield => true
  | AwaitPause due listening epoch | AwaitNap due listening epoch =>
      (due <=? instant_now w) || (listening && negb (resume_epoch w =? epoch))
  end.

Definition wake (f : Waiting T) : M W (Waiting T) := fun w =>
  match phase (engine f) with
  | Awaiting a => (if is_ready a w then mkWaiting (deadline f) (finish (engine f) (woken a)) else f, w)
  | _ => (f, w)
  end.

Definition segment (f : Waiting T) : M W (Waiting T) :=
  let! e := Wait.poll instant_now resume_epoch step give_back paused (deadline f) (engine f) in
  mret (mkWaiting (deadline f) e).

(** The segments of one poll, at most [rounds] of them. *)
Fixpoint segments (rounds : nat) (f : Waiting T) : M W (Waiting T) :=
  match rounds with
  | O => mret f
  | S rounds =>
      match phase (engine f) with
      | Looping | CheckPause => let! f := segment f in segments rounds f
      | _ => mret f
      end
  end.

Definition poll_boxed (rounds : nat) (f : Waiting T) : M W (Waiting T) :=
  let! f := wake f in segments rounds f.

Definition start_boxed (instant_max : Z) (timeout : option Duration) (t : T) : M W (Waiting T) := fun w =>
  (mkWaiting (deadline_after instant_max (instant_now w) timeout) (Wait.start t), w).

Definition drop_boxed (f : Waiting T) : M W unit :=
  let! _ := drop_future give_back (engine f) in mret tt.

End Boxed.

(** ** Ownership across polls *)

(** A synchronous segment never ends in a dropped future. *)
Lemma poll_not_dropped {W T} instant_now resume_epoch step give_back paused deadline (e : Engine T) :
  phase e = Looping \/ phase e = CheckPause ->
  ends (Wait.poll (W := W) instant_now resume_epoch step give_back paused deadline e) (fun e => phase e <> Dropped).
Proof.
  assert (Ht : forall e : Engine T, ends (time_out give_back e) (fun e => phase e <> Dropped)).
  { intros e'. apply ends_any. intros e''. by apply ends_ret. }
  assert (Hn : forall (e : Engine T) after epoch, ends (nap instant_now resume_epoch give_back paused deadline e after epoch)
    (fun e => phase e <> Dropped)).
  { intros e' after epoch. unfold nap. destruct (is_zero after).
    - destruct (_ <=? _); [by apply ends_ret|]. intros w. destruct (is_zero _); [apply Ht|].
      apply ends_any. intros p w'. by destruct (_ =? _).
    - apply ends_any. intros p w'. by destruct (_ =? _). }
  intros [E|E]; unfold Wait.poll; rewrite E.
  - intros w. unfold poll_loop. apply ends_any. intros [s t]. destruct s as [wait|wait|after|].
    + destruct (is_zero wait); [by apply ends_ret|]. by intros w'.
    + destruct (_ <? _); [apply Ht|apply Hn].
    + destruct (_ <? _); [by apply ends_ret|apply Hn].
    + by apply ends_ret.
  - intros w. unfold poll_pause. apply ends_any. intros p. destruct (is_zero p); [by apply ends_ret|].
    intros w'. destruct (_ <? _); [apply Ht|done].
Qed.

Section BoxedProof.
Context {W T : Type} (instant_now resume_epoch : W -> Z).
Context (step : T -> Duration -> M W (Step * T)) (give_back : T -> M W T) (paused : M W Duration).
Context (env : W -> W -> Prop) (Inv : Owns -> T -> W -> Prop) `{HO : !Ownership step give_back paused env Inv}.

(** What a pending future owns. *)
Definition pending (f : Waiting T) (s : W) : Prop :=
  owned Inv (engine f, s) /\ match phase (engine f) with Done _ | Dropped => False | _ => True end.

Abbreviation execution d := (exec instant_now resume_epoch step give_back paused d env).

Lemma segments_owned n f s : owned Inv (engine f, s) -> phase (engine f) <> Dropped ->
  let r := segments instant_now resume_epoch step give_back paused n f s in
  owned Inv (engine r.1, r.2) /\ phase (engine r.1) <> Dropped.
Proof.
  revert f s. induction n as [|n IH]; intros f s Ho Hd; [done|]. simpl.
  assert (Hgo : phase (engine f) = Looping \/ phase (engine f) = CheckPause ->
    let r := (let! f := segment instant_now resume_epoch step give_back paused f in
              segments instant_now resume_epoch step give_back paused n f) s in
    owned Inv (engine r.1, r.2) /\ phase (engine r.1) <> Dropped).
  { intros Hph r. subst r. rewrite mthen_run. unfold segment. rewrite mthen_run.
    set (c := Wait.poll _ _ _ _ _ _ _ s). assert (Hc : owned Inv (c.1, c.2)).
    { eapply exec_owned; [exact HO| |exact Ho]. replace (c.1, c.2) with c by by destruct c.
      apply (exec_poll instant_now resume_epoch step give_back paused (deadline f) env (engine f) s Hph). }
    apply IH; [exact Hc|]. by apply poll_not_dropped. }
  destruct (phase (engine f)) eqn:E; try (split; [exact Ho|simpl; by rewrite E]); apply Hgo; tauto.
Qed.

Lemma wake_owned f s : pending f s ->
  let r := wake instant_now resume_epoch f s in owned Inv (engine r.1, r.2) /\ phase (engine r.1) <> Dropped.
Proof.
  intros [Ho Hp]. unfold wake.
  destruct (phase (engine f)) as [| |a|r|] eqn:E; cbn [fst snd engine]; try (split; [exact Ho|by rewrite E]).
  destruct (is_ready instant_now resume_epoch a s) eqn:Er; cbn [fst snd engine]; [|split; [exact Ho|by rewrite E]].
  split; [|by destruct a]. eapply exec_owned; [exact HO| |exact Ho].
  apply (exec_wake instant_now resume_epoch step give_back paused (deadline f) env (engine f) s a); [done|].
  destruct a as [due|due listening epoch| |due listening epoch]; simpl in *; [by apply Z.leb_le| |done|];
    apply orb_true_iff in Er as [Er|Er]; [left; by apply Z.leb_le|right|left; by apply Z.leb_le|right];
    apply andb_true_iff in Er as [-> Er]; (split; [done|]); by apply negb_true_iff, Z.eqb_neq in Er.
Qed.

Lemma poll_boxed_owned rounds f s : pending f s ->
  let r := poll_boxed instant_now resume_epoch step give_back paused rounds f s in
  match phase (engine r.1) with
  | Done (Ok _) => Inv OwnsAll (held (engine r.1)) r.2
  | Done (Err _) => Inv OwnsNothing (held (engine r.1)) r.2
  | _ => pending r.1 r.2
  end.
Proof.
  intros Hf r. subst r. unfold poll_boxed. rewrite mthen_run. destruct (wake_owned f s Hf) as [Ho Hd].
  destruct (segments_owned rounds _ _ Ho Hd) as [Ho' Hd'].
  destruct (segments _ _ _ _ _ rounds _ _) as [f' s']. cbn [fst snd] in *. pose proof Ho' as Hown. unfold owned in Ho'.
  destruct (phase (engine f')) as [| |a|[u|e]|] eqn:E; try done; (split; [exact Hown|by rewrite E]).
Qed.

Lemma drop_boxed_owned f s : pending f s ->
  exists t, Inv OwnsNothing t (drop_boxed give_back f s).2.
Proof.
  intros [Ho Hp]. unfold drop_boxed, drop_future. rewrite !mthen_run.
  exists (held (fire give_back (engine f) s).1). apply (fire_owned step give_back paused env Inv (engine f) s).
  unfold owned in Ho. destruct (phase (engine f)) as [| |[]|[[]|]|]; try done; destruct_and?;
    first [by apply guards_all|by apply guards_looping].
Qed.

Lemma pending_env f s s' : pending f s -> env s s' -> pending f s'.
Proof.
  intros [Ho Hp] Hs. split; [|done]. eapply (exec_owned instant_now resume_epoch); [exact HO| |exact Ho].
  apply (exec_env instant_now resume_epoch step give_back paused (deadline f) env (engine f) s s' Hs).
Qed.

End BoxedProof.

(** ** How many segments a poll runs *)

Section Segments.
Context {W T : Type} (instant_now resume_epoch : W -> Z).
Context (step : T -> Duration -> M W (Step * T)) (give_back : T -> M W T) (paused : M W Duration).

Abbreviation segments_ := (segments instant_now resume_epoch step give_back paused).

(** The calls of the engine do not lift a pause, so the epoch it read at the
    start of a round is still there when it decides to sleep. *)
Context `{HE : !Timely resume_epoch step give_back paused}.

Lemma time_out_settled (e : Engine T) w :
  match phase (time_out give_back e w).1 with Looping | CheckPause => False | _ => True end.
Proof. unfold time_out. by rewrite mthen_run. Qed.

Lemma nap_settled deadline (e : Engine T) after w :
  match phase (nap instant_now resume_epoch give_back paused deadline e after (resume_epoch w) w).1 with
  | Looping | CheckPause => False | _ => True
  end.
Proof using HE.
  assert (Hp : resume_epoch (paused w).2 = resume_epoch w) by apply (timely_paused (Timely := HE)).
  unfold nap. destruct (is_zero after).
  - destruct (_ <=? _); [done|]. destruct (is_zero _); [apply time_out_settled|].
    rewrite mthen_run, Hp, Z.eqb_refl. done.
  - rewrite mthen_run, Hp, Z.eqb_refl. done.
Qed.

(** A round of the main loop ends at an await, at the end, or at the pause. *)
Lemma poll_loop_settled deadline (e : Engine T) w :
  phase (poll_loop instant_now resume_epoch step give_back paused deadline e w).1 <> Looping.
Proof using HE.
  unfold poll_loop. rewrite mthen_run.
  pose proof (timely_step (Timely := HE) (held e) (deadline_remaining deadline (instant_now w)) w) as Hs.
  destruct (step (held e) _ w) as [[s t] w']. simpl in *. destruct s as [wait|wait|after|].
  - by destruct (is_zero wait).
  - destruct (_ <? _); [unfold time_out; by rewrite mthen_run|]. rewrite <- Hs.
    pose proof (nap_settled deadline (mkEngine Looping t true (zero_waits e)) wait w') as Hn. by destruct (phase _).
  - destruct (_ <? _); [done|]. rewrite <- Hs.
    pose proof (nap_settled deadline (mkEngine Looping t false (zero_waits e)) after w') as Hn. by destruct (phase _).
  - done.
Qed.

Lemma poll_pause_settled deadline (e : Engine T) w :
  match phase (poll_pause instant_now resume_epoch give_back paused deadline e w).1 with
  | Looping | CheckPause => False | _ => True
  end.
Proof.
  unfold poll_pause. rewrite mthen_run. destruct (is_zero _); [done|].
  destruct (_ <? _); [apply time_out_settled|done].
Qed.

Lemma segments_stop n (f : Waiting T) w :
  match phase (engine f) with Looping | CheckPause => False | _ => True end -> segments_ n f w = (f, w).
Proof. destruct n; simpl; [done|]. by destruct (phase (engine f)). Qed.

Lemma segments_run n (f : Waiting T) w : phase (engine f) = Looping \/ phase (engine f) = CheckPause ->
  let r := Wait.poll instant_now resume_epoch step give_back paused (deadline f) (engine f) w in
  segments_ (S n) f w = segments_ n (mkWaiting (deadline f) r.1) r.2.
Proof. intros [E|E] r; subst r; simpl; rewrite E, mthen_run; unfold segment; by rewrite mthen_run. Qed.

(** Two segments are enough for a poll; more are never run. *)
Lemma two_segments n (f : Waiting T) w : segments_ (2 + n) f w = segments_ 2 f w.
Proof using HE.
  assert (Hone : forall n f w, phase (engine f) <> Looping -> segments_ (1 + n) f w = segments_ 1 f w).
  { intros k g v Hg. destruct (phase (engine g)) eqn:E; try done; try (by rewrite !segments_stop; rewrite ?E).
    rewrite !segments_run by auto. unfold Wait.poll. rewrite E.
    rewrite !segments_stop; simpl; [done|apply poll_pause_settled..]. }
  change (2 + n)%nat with (S (1 + n)). destruct (phase (engine f)) eqn:E.
  2-5: by rewrite (Hone (S n)), (Hone 1%nat) by by rewrite E.
  rewrite (segments_run (1 + n)), (segments_run 1) by auto. unfold Wait.poll. rewrite E. apply Hone. simpl. apply poll_loop_settled.
Qed.

End Segments.
