(* ===== verification/Client.v ===== *)
(** * Clients of the waiting engine that take one kind of units

    [wait_for] is [wait_with] without per-wait state. A client promises that a
    granting step takes its whole cost and any other step takes nothing; from
    that the engine gives back exactly what a failed wait took. The circuit
    breaker's waiting admission is such a client. *)

From S2P Require Import Prelude Decisions Wait Limiter Compose Circuit.

(** ** What a stateless client promises, on the ledger *)

Class Client {W} (i : nat) (cost : Z) (step : unit -> Duration -> M (W * list event) (Step * unit))
    (give_back : unit -> M (W * list event) unit) (paused : M (W * list event) Duration) : Prop := {
  client_step d : moves (step tt d)
    (fun r who => match r.1 with Granted _ => delta who (Took i cost) | _ => 0 end);
  client_whole d s : owns (step tt d s).1.1 <> OwnsSome;
  client_release : moves (give_back tt) (fun _ who => - delta who (Took i cost));
  client_paused : moves paused (fun _ _ => 0) }.

Definition client_inv {W} (i : nat) (cost : Z) (base : nat -> Z) (o : Owns) (_ : unit)
    (s : W * list event) : Prop :=
  o <> OwnsSome /\
  forall who, outstanding s.2 who = base who + match o with OwnsAll => delta who (Took i cost) | _ => 0 end.

(** What the ledger says at each point of the client's wait. *)
Definition client_owned {W} (i : nat) (cost : Z) (base : nat -> Z) (e : Engine unit) (s : W * list event)
    : Prop :=
  match phase e with
  | Done (Ok _) => forall who, outstanding s.2 who = base who + delta who (Took i cost)
  | Done (Err _) | Dropped => forall who, outstanding s.2 who = base who
  | _ => True
  end.

Section ClientProof.
Context {W : Type} (i : nat) (cost : Z).
Context (step : unit -> Duration -> M (W * list event) (Step * unit)).
Context (give_back : unit -> M (W * list event) unit) (paused : M (W * list event) Duration).
Context `{!Client i cost step give_back paused}.

#[export] Instance client_ownership (base : nat -> Z) :
  Ownership step give_back paused others (client_inv i cost base).
Proof.
  constructor.
  - intros o [] d s Ho [Hs Hl]. split; [apply client_whole|]. intros who.
    rewrite (client_step d s who), Hl. pose proof (client_whole d s) as Hw.
    destruct o; [|done|done]. destruct (step tt d s).1.1; simpl in *; lia.
  - intros o [] s Ho [Hs Hl]. split; [done|]. intros who.
    rewrite (client_release s who), Hl. destruct o; [done..|]. simpl. lia.
  - intros o [] s [Hs Hl]. split; [done|]. intros who. rewrite (client_paused s who), Hl. lia.
  - intros o [] s s' [Hs Hl] He. split; [done|]. intros who. by rewrite He.
Qed.

Lemma client_settles instant_now resume_epoch deadline s e s' :
  execs instant_now resume_epoch step give_back paused deadline others (start tt, s) (e, s') ->
  client_owned i cost (outstanding s.2) e s'.
Proof.
  intros Hx.
  assert (Ho : owned (client_inv i cost (outstanding s.2)) (e, s')).
  { eapply execs_owned; [apply client_ownership|exact Hx|]. simpl. split; [done|]. intros. lia. }
  unfold owned, client_inv in Ho. unfold client_owned.
  destruct (phase e) as [| | |[[]|err]|]; try done; destruct Ho as [_ Ho]; intros who;
    rewrite Ho; lia.
Qed.

End ClientProof.

(** ** The breaker's waiting admission

    [admit_waiting]: admit_ (or shed), wait for one unit of the inner limiter,
    then check that the breaker still admits. [SlotGuard] gives the trial slot
    back when the wait fails or its future is dropped. *)

Section Admission.
Context {W : Type} (inner : Limiter W).
Context (shared_at : W -> Shared) (set_shared : Shared -> W -> W) (now_ms : W -> Z).

Definition admission_step (_ : unit) (budget : Duration) : M W (Step * unit) :=
  let! r := reserve inner 1 budget in
  match r with
  | Some wait => mret (Granted wait, tt)
  | None =>
      let! d := peek inner 1 in
      mret (match d with
            | Retry after => StepRetry after
            | Acquired => StepRetry 0
            | Impossible => StepNever
            end, tt)
  end.

Definition admission_release (_ : unit) : M W unit := refund inner 1.

(** [SlotGuard::drop] with the ticket still in it. *)
Definition slot_drop (ticket : Ticket) : M W unit :=
  breaker_abort shared_at set_shared ticket false.

Definition admission_finish (ticket : Ticket) (r : Result unit Refusal)
    : M W (Result Ticket ThrottleError) :=
  match r with
  | Err RefusalNever =>
      let! _ := slot_drop ticket in mret (Err (CostExceedsCapacity 1 (capacity inner)))
  | Err RefusalTimedOut => let! _ := slot_drop ticket in mret (Err DeadlineExceeded)
  | Ok _ => fun w =>
      match still_admits (shared_at w) (now_ms w) ticket with
      | Ok _ => (Ok ticket, w)
      | Err retry_after =>
          (let! _ := refund inner 1 in
           let! _ := breaker_abort shared_at set_shared ticket false in
           mret (Err (CircuitOpen retry_after))) w
      end
  end.

End Admission.

(** The breaker's state next to the ledger. *)
Definition with_ledger {W} (set_shared : Shared -> W -> W) (sh : Shared) (s : W * list event)
    : W * list event := (set_shared sh s.1, s.2).

Section AdmissionProof.
Context {W : Type} (i : nat) (l : Limiter W).
Context (shared_at : W -> Shared) (set_shared : Shared -> W -> W) (now_ms : W -> Z).
Abbreviation shared := (fun s : W * list event => shared_at s.1).
Abbreviation clock := (fun s : W * list event => now_ms s.1).

#[export] Instance admission_client :
  Client i 1 (admission_step (instrument i l)) (admission_release (instrument i l))
    (paused_for (instrument i l)).
Proof.
  constructor.
  - intros d. unfold admission_step. eapply moves_then; [apply moves_reserve|].
    intros [wait|]; unfold takes; simpl bool_decide.
    + apply moves_ret. intros who. simpl. lia.
    + apply moves_quiet; [by apply moves_lift|]. intros x. apply moves_ret.
      intros who. destruct x; simpl; lia.
  - intros d s. unfold admission_step. rewrite mthen_run.
    destruct (reserve (instrument i l) 1 d s).1; [done|]. rewrite mthen_run.
    by destruct (peek (instrument i l) 1 _).1.
  - apply moves_refund.
  - by apply moves_lift.
Qed.

Lemma moves_slot_drop ticket :
  moves (slot_drop shared (with_ledger set_shared) ticket) (fun _ _ => 0).
Proof. intros s who. unfold slot_drop, breaker_abort, update, locked. simpl. lia. Qed.

Lemma moves_admission_finish ticket r :
  moves (admission_finish (instrument i l) shared (with_ledger set_shared) clock ticket r)
    (fun res who => match r, res with
                    | Ok _, Err _ => - delta who (Took i 1)
                    | _, _ => 0
                    end).
Proof.
  destruct r as [u|[]]; unfold admission_finish.
  - intros s who. destruct (still_admits _ _ ticket) as [|after]; [simpl; lia|].
    assert (Hm : moves (let! _ := refund (instrument i l) 1 in
      let! _ := slot_drop shared (with_ledger set_shared) ticket in
      mret (Err (T := Ticket) (CircuitOpen after))) (fun _ who => - delta who (Took i 1))).
    { eapply moves_then; [apply moves_refund|]. intros [].
      apply moves_quiet; [apply moves_slot_drop|]. intros []. apply moves_ret. intros. lia. }
    specialize (Hm s who). unfold slot_drop in Hm. rewrite Hm.
    rewrite !mthen_run. simpl. done.
  - apply moves_quiet; [apply moves_slot_drop|]. intros []. by apply moves_ret.
  - apply moves_quiet; [apply moves_slot_drop|]. intros []. by apply moves_ret.
Qed.

(** A failed admission returns the ticket's slot. *)
Lemma admission_finish_slot ticket r s :
  (forall sh w, shared_at (set_shared sh w) = sh) ->
  (forall c w, shared_at (refund l c w).2 = shared_at w) ->
  let '(res, s') := admission_finish (instrument i l) shared (with_ledger set_shared) clock ticket r s in
  match res with
  | Ok t => r = Ok tt /\ t = ticket /\ s' = s /\ still_admits (shared s) (clock s) ticket = Ok tt
  | Err _ => shared s' = abort (shared s) ticket
  end.
Proof.
  intros Hget Href. destruct r as [u|[]]; unfold admission_finish.
  - destruct u, (still_admits _ _ ticket) as [[]|after] eqn:E; [done|].
    rewrite !mthen_run. unfold breaker_abort, update, locked, with_ledger. simpl.
    rewrite mthen_run. simpl. rewrite Hget. unfold lift.
    specialize (Href 1 s.1). destruct (refund l 1 s.1). simpl in *. by rewrite Href.
  - rewrite mthen_run. simpl. by rewrite Hget.
  - rewrite mthen_run. simpl. by rewrite Hget.
Qed.

End AdmissionProof.

(** A waiting admission through the breaker, under any interleaving: it
    resolves to its own ticket with exactly one unit of the inner limiter
    taken, only while the breaker still admits; on any other end (shed after
    the wait, impossible, timed out, dropped at an await) no unit is held and
    the trial slot is given back. *)
Theorem admission_settles {W : Type} (i : nat) (l : Limiter W)
    (shared_at : W -> Shared) (set_shared : Shared -> W -> W) (now_ms instant_now resume_epoch : W -> Z)
    (deadline : Deadline) (ticket : Ticket) (s s' : W * list event) (e : Engine unit) (who : nat) :
  (forall sh w, shared_at (set_shared sh w) = sh) ->
  (forall c w, shared_at (refund l c w).2 = shared_at w) ->
  let il := instrument i l in
  let sh := fun s : W * list event => shared_at s.1 in
  let slot_back := slot_drop sh (with_ledger set_shared) ticket in
  execs (fun s => instant_now s.1) (fun s => resume_epoch s.1) (admission_step il)
    (admission_release il) (paused_for il) deadline others (start tt, s) (e, s') ->
  match phase e with
  | Done r =>
      let '(res, s'') := admission_finish il sh (with_ledger set_shared) (fun s => now_ms s.1) ticket r s' in
      match res with
      | Ok t => t = ticket /\ still_admits (sh s'') (now_ms s''.1) ticket = Ok tt /\
                outstanding s''.2 who = outstanding s.2 who + delta who (Took i 1)
      | Err _ => sh s'' = abort (sh s') ticket /\ outstanding s''.2 who = outstanding s.2 who
      end
  | Dropped =>
      sh (slot_back s').2 = abort (sh s') ticket /\
      outstanding (slot_back s').2.2 who = outstanding s.2 who
  | _ => True
  end.
Proof.
  intros Hget Href il sh slot_back Hx.
  pose proof (client_settles i 1 _ _ _ _ _ _ _ _ _ Hx) as Ho. unfold client_owned in Ho.
  destruct (phase e) as [| | |r|]; try done.
  - pose proof (admission_finish_slot i l shared_at set_shared now_ms ticket r s' Hget Href) as Hslot.
    pose proof (moves_admission_finish i l shared_at set_shared now_ms ticket r s' who) as Hm.
    fold il in Hslot, Hm. subst sh. cbn beta in *.
    destruct (admission_finish il _ _ _ ticket r s') as [[t|err] s'']; simpl in Hm, Hslot.
    + destruct Hslot as (-> & -> & -> & Hst). split; [done|]. split; [done|]. by rewrite Ho.
    + split; [done|]. rewrite Hm. destruct r as [[]|rf]; rewrite Ho; simpl; lia.
  - unfold slot_back, sh. simpl. rewrite Hget. split; [done|]. apply Ho.
Qed.

(** A breaker whose inner limiter is the first tank. *)
Record guarded := mkGuarded { g_tanks : tanks; g_shared : Shared }.

Definition on_tanks {A} (m : M tanks A) : M guarded A := fun w =>
  let '(a, t) := m (g_tanks w) in (a, mkGuarded t (g_shared w)).

Definition guarded_tank : Limiter guarded :=
  let l := tank false 10 in {|
  peek cost := on_tanks (peek l cost);
  acquire_cost cost := on_tanks (acquire_cost l cost);
  available := on_tanks (available l);
  capacity := capacity l;
  refund cost := on_tanks (refund l cost);
  reserve cost max_wait := on_tanks (reserve l cost max_wait);
  pause_for d := on_tanks (pause_for l d);
  paused_for := on_tanks (paused_for l);
  resume := on_tanks (resume l);
  charge cost := on_tanks (charge l cost) |}.

Lemma admission_settles_witness :
  let il := instrument 0 guarded_tank in
  let sh := fun s : guarded * list event => g_shared s.1 in
  let set_shared := fun x (w : guarded) => mkGuarded (g_tanks w) x in
  let s' := (mkGuarded (mkTanks 0 4 0) Shared_new, [Took 0 1]) in
  let '(res, s'') := admission_finish il sh (with_ledger set_shared) (fun _ => 0) (mkTicket 0 false) (Ok tt) s' in
  match res with
  | Ok t => t = mkTicket 0 false /\ still_admits (sh s'') 0 (mkTicket 0 false) = Ok tt /\
            outstanding s''.2 0%nat = 0 + 1
  | Err _ => False
  end.
Proof.
  intros il sh set_shared s'.
  assert (Hx : execs (fun s => t_clock (g_tanks s.1)) (fun _ => 0) (admission_step il)
    (admission_release il) (paused_for il) None others
    (start tt, (mkGuarded (mkTanks 0 5 0) Shared_new, [])) (mkEngine (Done (Ok tt)) tt false 0, s')).
  { apply (execs_step _ _ _ _ _ _ _ _ (mkEngine CheckPause tt true 0, s')).
    1: eapply execs_step; [apply execs_refl|].
    - apply exec_poll_to; [by left|reflexivity].
    - apply exec_poll_to; [by right|reflexivity]. }
  pose proof (admission_settles 0 guarded_tank g_shared set_shared (fun _ => 0)
    (fun w => t_clock (g_tanks w)) (fun _ => 0) None (mkTicket 0 false) _ s' _ 0
    ltac:(reflexivity) ltac:(reflexivity) Hx) as H.
  exact H.
Defined.
