(* ===== verification/SlidingWait.v ===== *)
(** * The sliding window as a limiter, and its waiting acquire (sliding.rs)

    The handle on a log in a world, and the closures its waiting acquire runs
    in the engine. *)

From S2P Require Import Prelude Decisions Limiter Compose Wait Client.
From S2P Require Sliding.

Section Handle.
Context {W : Type}.
Context (get : W -> Sliding.SlidingWindowLog) (put : Sliding.SlidingWindowLog -> W -> W) (now_ns : W -> Z).

Definition on_log {A} (f : Sliding.SlidingWindowLog -> Z -> A * Sliding.SlidingWindowLog) : M W A := fun w =>
  let '(a, self) := f (get w) (now_ns w) in (a, put self w).

(** [impl Limiter for SlidingWindowLog]; the limit is fixed when the log is
    built. [reserve] is the provided method. *)
Definition sliding_limiter (limit : Z) : Limiter W :=
  let acquire_cost cost := on_log (fun self now => Sliding.acquire_cost self now cost) in
  {| peek cost := on_log (fun self now => Sliding.peek self now cost);
     acquire_cost := acquire_cost;
     available := on_log (fun self now => Sliding.available self now);
     capacity := limit;
     refund cost := on_log (fun self _ => (tt, Sliding.refund self cost));
     reserve := default_reserve acquire_cost;
     pause_for d := on_log (fun self now => (tt, Sliding.pause_for self now d));
     paused_for := on_log (fun self now => (Sliding.paused_for self now, self));
     resume := on_log (fun self _ => (tt, (Sliding.resume self).2));
     charge cost := on_log (fun self now => Sliding.charge self now cost) |}.

End Handle.

(** The closures of [wait], on the handle. *)
Section Waiting.
Context {W : Type} (l : Limiter W) (cost : Z).

Definition wait_step (_ : unit) (_budget : Duration) : M W (Step * unit) :=
  let! d := acquire_cost l cost in
  mret (match d with
        | Acquired => Granted DURATION_ZERO
        | Retry after => StepRetry after
        | Impossible => StepNever
        end, tt).
Definition wait_release (_ : unit) : M W unit := refund l cost.
Definition wait_paused : M W Duration := paused_for l.
Definition wait_error (refusal : Refusal) : ThrottleError :=
  match refusal with
  | RefusalNever => CostExceedsCapacity cost (capacity l)
  | RefusalTimedOut => DeadlineExceeded
  end.

End Waiting.

#[export] Instance sliding_client {W} (i : nat) (l : Limiter W) (cost : Z) :
  Client i cost (wait_step (instrument i l) cost) (wait_release (instrument i l) cost) (wait_paused (instrument i l)).
Proof.
  constructor.
  - intros d. unfold wait_step. eapply moves_then; [apply moves_acquire|].
    intros x. apply moves_ret. intros who. unfold takes. destruct x; simpl; lia.
  - intros d s. unfold wait_step. rewrite mthen_run. simpl. by destruct (_ : Decision).
  - apply moves_refund.
  - by apply moves_lift.
Qed.

(** A waiting acquire has recorded its units in the window exactly when it
    succeeds: a wait that is refused, times out or is dropped at any await
    leaves the books as they were, whatever else runs. *)
Theorem sliding_wait_settles {W : Type} (get : W -> Sliding.SlidingWindowLog)
    (put : Sliding.SlidingWindowLog -> W -> W) (now_ns instant_now resume_epoch : W -> Z)
    (deadline : Deadline) (limit cost : Z) (s s' : W * list event) (e : Engine unit) (who : nat) :
  let l := instrument who (sliding_limiter get put now_ns limit) in
  execs (fun s => instant_now s.1) (fun s => resume_epoch s.1) (wait_step l cost) (wait_release l cost) (wait_paused l)
    deadline others (start tt, s) (e, s') ->
  match phase e with
  | Done (Ok _) => outstanding s'.2 who = outstanding s.2 who + cost
  | Done (Err _) | Dropped => outstanding s'.2 who = outstanding s.2 who
  | _ => True
  end.
Proof.
  intros l Hx. pose proof (client_settles who cost _ _ _ _ _ _ _ _ _ Hx) as Ho. unfold client_owned in Ho.
  destruct (phase e) as [| | |[]|]; try done; rewrite (Ho who); simpl; try lia.
  rewrite decide_True by done. lia.
Qed.
