(* ===== verification/Event.v ===== *)
(** * Notifications (the event of src/src/bulkhead.rs, adaptive.rs)

    The third-party [event_listener::Event] as an interface, and the
    accounting of wake-ups its two clients share: threads that wait for
    slots, their listeners, and the notifications that are under way. *)

From stdpp Require Import gmap fin_maps.
From S2P Require Import Prelude.

(** ** The event interface

    What the code relies on of [event_listener::Event]: a listener registers
    before its await, [notify_additional(n)] notifies [n] more listeners
    that are not notified yet (as many as there are), and a notified listener
    that is dropped passes its notification on. *)

Class Event (E : Type) := {
  (** the registered listeners, and whether each is notified *)
  listeners : E -> gmap nat bool;
  listen : nat -> E -> E;
  notify_additional : nat -> E -> E;
  (** the listener's await completes *)
  consume : nat -> E -> E;
  drop_listener : nat -> E -> E }.

Definition passes_on (ls ls' : gmap nat bool) : Prop :=
  (exists j, ls !! j = Some false /\ ls' = <[j := true]> ls) \/
  ((forall j, ls !! j <> Some false) /\ ls' = ls).

Class EventLaws (E : Type) `{Event E} : Prop := {
  law_listen i e : listeners e !! i = None -> listeners (listen i e) = <[i := false]> (listeners e);
  law_notify n e : nsteps passes_on n (listeners e) (listeners (notify_additional n e));
  law_consume i e : listeners e !! i = Some true ->
    listeners (consume i e) = delete i (listeners e);
  law_drop_idle i e : listeners e !! i = Some false ->
    listeners (drop_listener i e) = delete i (listeners e);
  law_drop_notified i e : listeners e !! i = Some true ->
    passes_on (delete i (listeners e)) (listeners (drop_listener i e)) }.

Lemma passes_on_domain ls ls' i : passes_on ls ls' -> is_Some (ls' !! i) <-> is_Some (ls !! i).
Proof.
  intros [(j & Hj & ->)|[_ ->]]; [|done].
  destruct (decide (i = j)) as [->|Hne]; [|by rewrite lookup_insert_ne].
  rewrite lookup_insert_eq, Hj. split; eauto.
Qed.

(** ** Credits

    For a client whose threads wait while [slots] are all used: [awake]
    counts the looks and notifications a thread still owes, [blocked] the
    threads that will sleep unless notified, [registered] those with a
    listener. *)

Section Wake.
Context {T : Type} (awake : Z -> T -> Z) (blocked : Z -> T -> Prop) (registered : T -> bool).
Context (awake_nonneg : forall slots t, 0 <= awake slots t).
Abbreviation cell := (T * option bool)%type.

Definition credit (slots : Z) (c : cell) : Z :=
  awake slots c.1 + match c.2 with Some true => 1 | _ => 0 end.

(** A waiter that nothing has promised to wake. *)
Definition waiting (slots : Z) (c : cell) : Prop := c.2 = Some false /\ blocked slots c.1.

(** [extra] notifications are in the hands of the thread that steps. *)
Definition wake_ok (slots used extra : Z) (v : list cell) : Prop :=
  (exists k c, v !! k = Some c /\ waiting slots c) -> slots - used <= extra + sum_with (credit slots) v.

Lemma credit_nonneg slots c : 0 <= credit slots c.
Proof using awake_nonneg.
  unfold credit. pose proof (awake_nonneg slots c.1). destruct c.2 as [[]|]; lia.
Qed.

Lemma credits_nonneg slots v : 0 <= sum_with (credit slots) v.
Proof using awake_nonneg. apply sum_with_nonneg, Forall_true, credit_nonneg. Qed.

Lemma wake_full slots used extra v : slots <= used -> 0 <= extra -> wake_ok slots used extra v.
Proof using awake_nonneg. intros H He _. pose proof (credits_nonneg slots v). lia. Qed.

Lemma wake_insert slots used used' extra extra' v i x y :
  v !! i = Some x -> wake_ok slots used extra v ->
  (waiting slots y -> waiting slots x) ->
  used - used' <= credit slots y - credit slots x + extra' - extra ->
  wake_ok slots used' extra' (<[i := y]> v).
Proof.
  intros Hi Hv Hw Hc (k & c & Hk & Hcw). rewrite (sum_with_insert _ _ _ x) by done.
  assert (Hold : exists k c, v !! k = Some c /\ waiting slots c).
  { destruct (decide (k = i)) as [->|Hne].
    - rewrite list_lookup_insert_eq in Hk by by eapply lookup_lt_Some. simplify_eq. eauto.
    - rewrite list_lookup_insert_ne in Hk by done. eauto. }
  specialize (Hv Hold). lia.
Qed.

(** Passing a notification on spends it, or finds nobody to wake. *)
Definition passed (v v' : list cell) : Prop :=
  (exists j t, v !! j = Some (t, Some false) /\ v' = <[j := (t, Some true)]> v) \/
  ((forall k c, v !! k = Some c -> c.2 <> Some false) /\ v' = v).

Lemma wake_pass slots used extra v v' :
  passed v v' -> 0 <= extra -> wake_ok slots used (extra + 1) v -> wake_ok slots used extra v'.
Proof.
  intros [(j & t & Hj & ->)|[Hn ->]] He Hv.
  - apply (wake_insert slots used used (extra + 1) extra v j (t, Some false) (t, Some true)); [done|done| |].
    + by intros [].
    + unfold credit. simpl. lia.
  - intros (k & c & Hk & Hc & _). by apply Hn in Hk.
Qed.

(** *** Each thread next to its listener *)

Definition view (ls : gmap nat bool) (ts : list T) : list cell := imap (fun i t => (t, ls !! i)) ts.

Lemma view_lookup ls ts k : view ls ts !! k = (fun t => (t, ls !! k)) <$> ts !! k.
Proof. apply list_lookup_imap. Qed.

Lemma view_update ls ls' ts i t b :
  (i < length ts)%nat -> ls' !! i = b -> (forall k, k <> i -> ls' !! k = ls !! k) ->
  view ls' (<[i := t]> ts) = <[i := (t, b)]> (view ls ts).
Proof.
  intros Hi Hb Hne. apply list_eq. intros k. rewrite view_lookup.
  destruct (decide (k = i)) as [->|Hk].
  - rewrite !list_lookup_insert_eq by (unfold view; by rewrite ?length_imap). simpl. by rewrite Hb.
  - rewrite !list_lookup_insert_ne, view_lookup, Hne by done. done.
Qed.

Definition listening (ls : gmap nat bool) (ts : list T) : Prop :=
  forall i, is_Some (ls !! i) <-> exists t, ts !! i = Some t /\ registered t = true.

(** Passing a notification on, on the view. *)
Lemma view_passes ls ls' ts : listening ls ts -> passes_on ls ls' -> passed (view ls ts) (view ls' ts).
Proof.
  intros Hreg [(j & Hj & ->)|[Hn ->]].
  - left. destruct (proj1 (Hreg j)) as (t & Ht & _); [by rewrite Hj|].
    exists j, t. rewrite view_lookup, Ht, Hj. split; [done|].
    rewrite <- (list_insert_id ts j t) at 1 by done.
    apply view_update; [by eapply lookup_lt_Some|apply lookup_insert_eq|].
    intros k Hk. by apply lookup_insert_ne.
  - right. split; [|done]. intros k c Hk. rewrite view_lookup in Hk.
    destruct (ts !! k); simplify_eq/=. apply Hn.
Qed.

(** ** The invariant of the listeners and their wake-ups *)

Record awaited (slots used extra : Z) (ls : gmap nat bool) (ts : list T) : Prop := mkAwaited {
  aw_listening : listening ls ts;
  aw_wake : wake_ok slots used extra (view ls ts) }.

(** [n] notifications are spent, one after the other. *)
Lemma awaited_notify n slots used ls ls' ts :
  nsteps passes_on n ls ls' -> awaited slots used (Z.of_nat n) ls ts -> awaited slots used 0 ls' ts.
Proof.
  induction 1 as [ls|n ls1 ls2 ls3 Hp _ IH]; [done|]. intros [Hl Hw]. apply IH. constructor.
  - intros i. by rewrite (passes_on_domain _ _ _ Hp).
  - eapply wake_pass; [by apply view_passes|lia|]. by replace (Z.of_nat n + 1) with (Z.of_nat (S n)) by lia.
Qed.

(** A thread steps without touching its listener. *)
Lemma awaited_set slots used used' extra extra' ls ts i t t' :
  awaited slots used extra ls ts -> ts !! i = Some t -> registered t' = registered t -> 0 <= extra' ->
  (blocked slots t' -> blocked slots t \/ slots <= used') ->
  (slots <= used' \/ used - used' + extra <= awake slots t' - awake slots t + extra') ->
  awaited slots used' extra' ls (<[i := t']> ts).
Proof using awake_nonneg.
  intros [Hls Hw] Hi Hr He Hwt Hc. pose proof (lookup_lt_Some _ _ _ Hi) as Hlt. constructor.
  - intros k. rewrite (Hls k). destruct (decide (k = i)) as [->|Hk]; [|by rewrite list_lookup_insert_ne].
    rewrite list_lookup_insert_eq, Hi by done.
    split; intros (x & Hx & Hxr); simplify_eq; eexists; (split; [done|congruence]).
  - rewrite (view_update ls ls _ i t' (ls !! i)) by done.
    destruct (Z.le_gt_cases slots used') as [Hfull|Hfree]; [by apply wake_full|].
    eapply (wake_insert _ _ _ _ _ _ _ (t, ls !! i)); [|exact Hw| |].
    + by rewrite view_lookup, Hi.
    + intros [Hb Hx]. split; [done|]. destruct (Hwt Hx); [done|lia].
    + unfold credit. simpl. destruct Hc; lia.
Qed.

(** More slots, as many notifications to send. *)
Lemma awaited_raise slots more used ls ts :
  (forall t, awake slots t <= awake more t) -> (forall t, blocked more t -> blocked slots t) ->
  slots <= more -> awaited slots used 0 ls ts -> awaited more used (more - slots) ls ts.
Proof.
  intros Ha Hb Hle [Hls Hw]. constructor; [done|]. intros (k & c & Hk & Hn & Hc).
  assert (Hs : sum_with (credit slots) (view ls ts) <= sum_with (credit more) (view ls ts)).
  { apply sum_with_le. intros x. unfold credit. specialize (Ha x.1). lia. }
  assert (slots - used <= 0 + sum_with (credit slots) (view ls ts)) by (apply Hw; exists k, c; firstorder).
  lia.
Qed.

(** A thread's own listener changes with the thread. *)
Lemma awaited_own slots used extra ls lm ts i t t' b' :
  awaited slots used 0 ls ts -> ts !! i = Some t ->
  lm !! i = b' -> (forall k, k <> i -> lm !! k = ls !! k) ->
  (is_Some b' <-> registered t' = true) -> ~ waiting slots (t', b') ->
  credit slots (t, ls !! i) <= credit slots (t', b') + extra ->
  awaited slots used extra lm (<[i := t']> ts).
Proof.
  intros [Hls Hw] Hi Hb Hne Hreg Hwt Hc. pose proof (lookup_lt_Some _ _ _ Hi) as Hlt. constructor.
  - intros k. destruct (decide (k = i)) as [->|Hk].
    + rewrite Hb, Hreg, list_lookup_insert_eq by done.
      split; [eauto|]. by intros (x & [= <-] & Hx).
    + rewrite Hne, (Hls k), list_lookup_insert_ne by done. done.
  - rewrite (view_update ls lm _ i t' b') by done.
    eapply (wake_insert _ _ _ _ _ _ _ (t, ls !! i)); [|exact Hw|done|lia].
    by rewrite view_lookup, Hi.
Qed.

(** *** What a thread does with its listener *)

Section Listener.
Context {E : Type} `{EventLaws E}.

Lemma unregistered ls ts i t :
  listening ls ts -> ts !! i = Some t -> registered t = false -> ls !! i = None.
Proof.
  intros Hls Hi Hr. apply eq_None_not_Some. rewrite (Hls i). intros (x & Hx & Hxr). congruence.
Qed.

Lemma awaited_listen slots used e ts i t t' :
  awaited slots used 0 (listeners e) ts -> ts !! i = Some t ->
  registered t = false -> registered t' = true -> ~ blocked slots t' ->
  awake slots t <= awake slots t' ->
  awaited slots used 0 (listeners (listen i e)) (<[i := t']> ts).
Proof.
  intros Ha Hi Hr Hr' Hb Hc. pose proof (unregistered _ _ _ _ (aw_listening _ _ _ _ _ Ha) Hi Hr) as Hnone.
  apply (awaited_own _ _ _ (listeners e) _ _ _ t _ (Some false)); try done.
  - rewrite law_listen by done. apply lookup_insert_eq.
  - intros k Hk. rewrite law_listen by done. by apply lookup_insert_ne.
  - by intros [_ ?].
  - rewrite Hnone. unfold credit. simpl. lia.
Qed.

Lemma awaited_consume slots used e ts i t t' :
  awaited slots used 0 (listeners e) ts -> ts !! i = Some t -> listeners e !! i = Some true ->
  registered t' = false -> awake slots t + 1 <= awake slots t' ->
  awaited slots used 0 (listeners (consume i e)) (<[i := t']> ts).
Proof.
  intros Ha Hi Hn Hr' Hc. apply (awaited_own _ _ _ (listeners e) _ _ _ t _ None); try done.
  - rewrite law_consume by done. apply lookup_delete_eq.
  - intros k Hk. rewrite law_consume by done. by apply lookup_delete_ne.
  - rewrite Hr'. split; [by intros []|done].
  - by intros [? _].
  - rewrite Hn. unfold credit. simpl. lia.
Qed.

Lemma awaited_drop slots used e ts i t t' :
  awaited slots used 0 (listeners e) ts -> ts !! i = Some t -> registered t = true ->
  registered t' = false -> awake slots t <= awake slots t' ->
  awaited slots used 0 (listeners (drop_listener i e)) (<[i := t']> ts).
Proof.
  intros Ha Hi Hr Hr' Hc.
  assert (Hsome : is_Some (listeners e !! i)) by (apply Ha; eauto).
  assert (Hnone : forall extra, (match listeners e !! i with Some true => 1 | _ => 0 end) <= extra ->
    awaited slots used extra (delete i (listeners e)) (<[i := t']> ts)).
  { intros extra He. apply (awaited_own _ _ _ (listeners e) _ _ _ t _ None); try done.
    - apply lookup_delete_eq.
    - intros k Hk. by apply lookup_delete_ne.
    - rewrite Hr'. split; [by intros []|done].
    - by intros [? _].
    - unfold credit. simpl. lia. }
  destruct Hsome as [[] Hb]; rewrite Hb in Hnone.
  - apply (awaited_notify 1 _ _ (delete i (listeners e))); [|apply Hnone; lia].
    eapply nsteps_once, law_drop_notified, Hb.
  - rewrite law_drop_idle by done. apply Hnone. lia.
Qed.

Lemma awaited_notified n slots used used' e ts i t t' :
  awaited slots used 0 (listeners e) ts -> ts !! i = Some t -> registered t' = registered t ->
  (blocked slots t' -> blocked slots t \/ slots <= used') ->
  (slots <= used' \/ used - used' <= awake slots t' - awake slots t + Z.of_nat n) ->
  awaited slots used' 0 (listeners (notify_additional n e)) (<[i := t']> ts).
Proof using All.
  intros Ha Hi Hr Hb Hc. eapply awaited_notify; [apply law_notify|].
  eapply awaited_set; [exact Ha|done..|lia|done|lia].
Qed.

End Listener.

Lemma awaited_quiet slots used ls ts :
  ls = ∅ -> Forall (fun t => registered t = false) ts -> awaited slots used 0 ls ts.
Proof.
  intros -> Ht. constructor.
  - intros i. rewrite lookup_empty. split; [by intros []|].
    intros (t & Hi & Hr). rewrite Forall_lookup in Ht. by rewrite (Ht i) in Hr.
  - intros (k & c & Hk & [Hc _]). rewrite view_lookup, lookup_empty in Hk.
    by destruct (ts !! k); simplify_eq/=.
Qed.

(** What a sleeper without a notification shows of the free slots. *)
Lemma awaited_sleeper slots used ls ts i t :
  awaited slots used 0 ls ts -> ts !! i = Some t -> ls !! i = Some false -> blocked slots t ->
  slots - used <= sum_with (credit slots) (view ls ts).
Proof.
  intros [_ Hw] Hi Hn Hb. apply Hw. exists i, (t, Some false). by rewrite view_lookup, Hi, Hn.
Qed.

End Wake.

(** ** An event to run on: first registered, first notified *)

Definition notify_first (ls : gmap nat bool) : gmap nat bool :=
  match head (filter (fun c : nat * bool => c.2 = false) (map_to_list ls)) with
  | Some (j, _) => <[j := true]> ls
  | None => ls
  end.

#[export] Instance map_event : Event (gmap nat bool) := {
  listeners ls := ls;
  listen i ls := <[i := false]> ls;
  notify_additional n ls := Nat.iter n notify_first ls;
  consume i ls := delete i ls;
  drop_listener i ls := if bool_decide (ls !! i = Some true)
                        then notify_first (delete i ls) else delete i ls }.

Lemma notify_first_passes ls : passes_on ls (notify_first ls).
Proof.
  unfold notify_first, passes_on.
  destruct (filter _ (map_to_list ls)) as [|[j b] cs] eqn:Ef; simpl.
  - right. split; [|done]. intros j Hj. apply elem_of_map_to_list in Hj.
    assert (Hin : (j, false) ∈ filter (fun c : nat * bool => c.2 = false) (map_to_list ls))
      by by apply list_elem_of_filter.
    rewrite Ef in Hin. by apply not_elem_of_nil in Hin.
  - left. exists j. split; [|done].
    assert (Hin : (j, b) ∈ filter (fun c : nat * bool => c.2 = false) (map_to_list ls))
      by (rewrite Ef; apply list_elem_of_here).
    apply list_elem_of_filter in Hin as [Hb Hin]. simpl in Hb. subst b.
    by apply elem_of_map_to_list.
Qed.

#[export] Instance map_event_laws : EventLaws (gmap nat bool).
Proof.
  constructor; simpl; try done.
  - intros n ls. induction n as [|n IH]; [constructor|]. simpl.
    replace (S n) with (n + 1)%nat by lia. eapply nsteps_trans; [exact IH|].
    apply nsteps_once, notify_first_passes.
  - intros i ls Hi. by rewrite bool_decide_eq_false_2 by by rewrite Hi.
  - intros i ls Hi. rewrite bool_decide_eq_true_2 by done. apply notify_first_passes.
Qed.
