(* ===== verification/Bulkhead.v ===== *)
(** * The bulkhead (src/src/bulkhead.rs, [saturating_sub] of src/src/sync.rs)

    A counter of slots in use behind compare-exchange loops, and waiters that
    park on an event. Every atomic access and every call on the event is one
    step of one thread here, so the theorems hold for all interleavings; the
    event itself is an interface. *)

From stdpp Require Import gmap fin_maps.
From S2P Require Import Prelude Decisions Event.

(** ** Threads *)

(** Where [try_take] is called from: [try_acquire], and the two checks of the
    waiting loop, before and after the listener registers. *)
Inductive Site := Try | First | Second.

Inductive Thread :=
  | Out
  | Entering (site : Site)            (* about to load [in_use] *)
  | Taking (site : Site) (seen : Z)   (* loaded; about to compare-exchange *)
  | Registering                       (* about to [listen] *)
  | Parked                            (* at [listener.await] *)
  | Leaving                           (* took its slot; its listener is to be dropped *)
  | Holding                           (* a permit *)
  | Unloading                         (* [release]: about to load *)
  | Releasing (seen : Z)              (* about to compare-exchange *)
  | Notifying.                        (* released; about to notify *)

(** What a thread does next. [Go] is the next atomic access of the code it
    runs ([spurious]: a weak compare-exchange may fail for no reason). *)
Inductive Action :=
  | StartTry
  | StartWait
  | StartRelease
  | Cancel
  | Go (spurious : bool).

Section Bulkhead.
Context {E : Type} `{Event E} (limit : Z).

Record world := mkWorld { in_use : Z; event : E; pool : list Thread }.

Definition set_thread (w : world) (i : nat) (t : Thread) : world :=
  mkWorld (in_use w) (event w) (<[i := t]> (pool w)).
Definition set_in_use (w : world) (n : Z) : world := mkWorld n (event w) (pool w).
Definition set_event (w : world) (e : E) : world := mkWorld (in_use w) e (pool w).

Definition available (w : world) : Z := sat_sub limit (in_use w).

(** [try_take] found no slot. *)
Definition refused (site : Site) : Thread :=
  match site with Try => Out | First => Registering | Second => Parked end.

(** [try_take] took one; the second check still has its listener. *)
Definition took (site : Site) : Thread :=
  match site with Second => Leaving | Try | First => Holding end.

(** The next step of [try_take]. *)
Definition try_take (w : world) (i : nat) (site : Site) (seen : Z) (spurious : bool) : world :=
  if limit <=? seen then set_thread w i (refused site)
  else if negb spurious && (in_use w =? seen) then
    set_thread (set_in_use w (seen + 1)) i (took site)
  else set_thread w i (Taking site (in_use w)).

(** The next step of [saturating_sub(&in_use, 1)]. *)
Definition saturating_sub (w : world) (i : nat) (seen : Z) (spurious : bool) : world :=
  if negb spurious && (in_use w =? seen)
  then set_thread (set_in_use w (sat_sub seen 1)) i Notifying
  else set_thread w i (Releasing (in_use w)).

Definition go (w : world) (i : nat) (t : Thread) (spurious : bool) : option world :=
  match t with
  | Entering site => Some (set_thread w i (Taking site (in_use w)))
  | Taking site seen => Some (try_take w i site seen spurious)
  | Registering => Some (set_thread (set_event w (listen i (event w))) i (Entering Second))
  | Parked =>
      match listeners (event w) !! i with
      | Some true => Some (set_thread (set_event w (consume i (event w))) i (Entering First))
      | _ => None
      end
  | Leaving => Some (set_thread (set_event w (drop_listener i (event w))) i Holding)
  | Unloading => Some (set_thread w i (Releasing (in_use w)))
  | Releasing seen => Some (saturating_sub w i seen spurious)
  | Notifying => Some (set_thread (set_event w (notify_additional 1 (event w))) i Out)
  | Out | Holding => None
  end.

(** One step of thread [i]; [None] when that action is not possible there. A
    waiting acquire on a bulkhead without slots fails at once. *)
Definition act (w : world) (i : nat) (a : Action) : option world :=
  match pool w !! i with
  | None => None
  | Some t =>
      match a, t with
      | StartTry, Out => Some (set_thread w i (Entering Try))
      | StartWait, Out => if limit =? 0 then None else Some (set_thread w i (Entering First))
      | StartRelease, Holding => Some (set_thread w i Unloading)
      | Cancel, Parked => Some (set_thread (set_event w (drop_listener i (event w))) i Out)
      | Go spurious, _ => go w i t spurious
      | _, _ => None
      end
  end.

Definition step (w : world) (s : nat * Action) : world :=
  match act w s.1 s.2 with Some w' => w' | None => w end.

(** [Bulkhead::new(limit)] with [n] callers. *)
Definition initial (e : E) (n : nat) : world := mkWorld 0 e (replicate n Out).

End Bulkhead.
Arguments world : clear implicits.

(** ** Slots and credits *)

Definition holds (t : Thread) : Z :=
  match t with Holding | Leaving | Unloading | Releasing _ => 1 | _ => 0 end.

(** The threads whose listener is registered. *)
Definition registered (t : Thread) : bool :=
  match t with Entering Second | Taking Second _ | Parked | Leaving => true | _ => false end.

(** Threads that will look for a slot before they park, and notifications
    about to be sent. *)
Definition awake (slots : Z) (t : Thread) : Z :=
  match t with
  | Entering _ | Notifying => 1
  | Taking _ seen => if seen <? slots then 1 else 0
  | _ => 0
  end.

(** A waiter that is parked, or about to park. *)
Definition blocked (slots : Z) (t : Thread) : Prop :=
  match t with Parked => True | Taking Second seen => slots <= seen | _ => False end.

Lemma awake_nonneg slots t : 0 <= awake slots t.
Proof. destruct t; simpl; try case_match; lia. Qed.

#[export] Hint Resolve awake_nonneg : core.

(** ** The invariant *)

Section Invariant.
Context {E : Type} `{EventLaws E} (limit : Z).

Definition occupied (ts : list Thread) : Z := sum_with holds ts.

Record sound (w : world E) : Prop := mkSound {
  snd_slots : in_use w = occupied (pool w);
  snd_limit : in_use w <= limit;
  snd_awaited : awaited awake blocked registered limit (in_use w) 0 (listeners (event w)) (pool w) }.

Lemma occupied_set ts i t t' :
  ts !! i = Some t -> occupied (<[i := t']> ts) = occupied ts - holds t + holds t'.
Proof. intros Hi. unfold occupied. by apply sum_with_insert. Qed.

Lemma occupied_holds ts i t : ts !! i = Some t -> 0 <= holds t <= occupied ts.
Proof.
  intros Hi. split; [destruct t; simpl; lia|].
  apply (sum_with_bound holds _ i); [intros []; simpl; lia|done].
Qed.

(** A thread steps: the slots move with it, and the event as it should. *)
Lemma bulkhead_sound_moved w i t t' used' e' :
  sound w -> pool w !! i = Some t -> used' = in_use w - holds t + holds t' -> used' <= limit ->
  awaited awake blocked registered limit used' 0 (listeners e') (<[i := t']> (pool w)) ->
  sound (mkWorld used' e' (<[i := t']> (pool w))).
Proof.
  intros Hw Hi Hu Hl Ha. constructor; simpl; [|done..].
  by rewrite (occupied_set _ _ t), <- (snd_slots w Hw).
Qed.

Lemma sound_set w i t t' used' :
  sound w -> pool w !! i = Some t -> registered t' = registered t ->
  used' = in_use w - holds t + holds t' -> used' <= limit ->
  (blocked limit t' -> blocked limit t \/ limit <= used') ->
  (limit <= used' \/ in_use w - used' <= awake limit t' - awake limit t) ->
  sound (mkWorld used' (event w) (<[i := t']> (pool w))).
Proof.
  intros Hw Hi Hr Hu Hl Hb Hc. apply (bulkhead_sound_moved w i t); try done.
  eapply awaited_set; [auto|apply Hw|done|done|done|done|lia].
Qed.

Lemma sound_take w i site seen spurious :
  sound w -> pool w !! i = Some (Taking site seen) ->
  sound (try_take limit w i site seen spurious).
Proof.
  intros Hw Hi. unfold try_take. pose proof (snd_limit w Hw) as Hl.
  destruct (Z.leb_spec limit seen) as [Hfull|Hfree]; [|case_match eqn:Ecas].
  - destruct site; simpl; apply (sound_set w i _ _ _ Hw Hi); simpl; try done; try lia;
      rewrite ?(proj2 (Z.ltb_ge _ _)) by lia; try lia.
  - apply andb_true_iff in Ecas as [_ Eq%Z.eqb_eq].
    destruct site; simpl; apply (sound_set w i _ _ _ Hw Hi); simpl; try done; try lia;
      rewrite ?(proj2 (Z.ltb_lt _ _)) by lia; lia.
  - apply (sound_set w i _ _ _ Hw Hi); simpl; try lia; try done.
    + intros Hx. destruct site; try done. by right.
    + destruct (Z.ltb_spec (in_use w) limit), (Z.ltb_spec seen limit); lia.
Qed.

Lemma sound_release w i seen spurious :
  sound w -> pool w !! i = Some (Releasing seen) -> sound (saturating_sub w i seen spurious).
Proof.
  intros Hw Hi. unfold saturating_sub. pose proof (snd_limit w Hw) as Hl.
  pose proof (occupied_holds _ _ _ Hi) as Ho. rewrite <- (snd_slots w Hw) in Ho. simpl in Ho.
  case_match eqn:Ecas.
  - apply andb_true_iff in Ecas as [_ Eq%Z.eqb_eq].
    apply (sound_set w i _ _ _ Hw Hi); simpl; try done; mlia.
  - apply (sound_set w i _ _ _ Hw Hi); simpl; try done; lia.
Qed.

Lemma sound_go w i t spurious w' :
  sound w -> pool w !! i = Some t -> go limit w i t spurious = Some w' -> sound w'.
Proof.
  intros Hw Hi Hgo. pose proof (snd_limit w Hw) as Hl. pose proof (snd_awaited w Hw) as Ha.
  destruct t as [|site|site seen| | | | | |seen|]; simpl in Hgo; simplify_eq.
  - (* the load of try_take *)
    apply (sound_set w i _ _ _ Hw Hi); simpl; try done; try lia.
    + intros Hx. destruct site; try done. by right.
    + destruct (Z.ltb_spec (in_use w) limit); lia.
  - by apply sound_take.
  - (* listen *)
    apply (bulkhead_sound_moved w i Registering); simpl; try done; try lia.
    eapply awaited_listen; [apply _|apply Ha|..]; simpl; done || lia || by intros [].
  - (* the await completes *)
    destruct (listeners (event w) !! i) as [[]|] eqn:Eb; simplify_eq.
    apply (bulkhead_sound_moved w i Parked); simpl; try done; try lia.
    eapply awaited_consume; [apply _|apply Ha|..]; simpl; done || lia || by intros [].
  - apply (bulkhead_sound_moved w i Leaving); simpl; try done; try lia.
    eapply awaited_drop; [apply _|apply Ha|..]; simpl; done || lia || by intros [].
  - apply (sound_set w i _ _ _ Hw Hi); simpl; try done; lia.
  - by apply sound_release.
  - (* notify *)
    apply (bulkhead_sound_moved w i Notifying); simpl; try done; try lia.
    eapply awaited_notified; [auto|apply _|apply Ha|done|done|done|simpl; lia].
Qed.

Lemma bulkhead_sound_step w s : sound w -> sound (step limit w s).
Proof.
  intros Hw. unfold step, act. destruct s as [i a]. simpl.
  destruct (pool w !! i) as [t|] eqn:Hi; [|done].
  pose proof (snd_limit w Hw) as Hl.
  destruct a as [| | | |spurious].
  - destruct t; try done. apply (sound_set w i _ _ _ Hw Hi); simpl; try done; lia.
  - destruct t; try done. destruct (limit =? 0); [done|].
    apply (sound_set w i _ _ _ Hw Hi); simpl; try done; lia.
  - destruct t; try done. apply (sound_set w i _ _ _ Hw Hi); simpl; try done; lia.
  - destruct t; try done. apply (bulkhead_sound_moved w i Parked); simpl; try done; try lia.
    eapply awaited_drop; [apply _|apply Hw|..]; simpl; done || lia || by intros [].
  - destruct (go limit w i t spurious) eqn:Hgo; [|done]. by apply (sound_go w i t spurious).
Qed.

Lemma sound_initial e n :
  0 <= limit -> listeners e = ∅ -> sound (initial e n).
Proof.
  intros Hl He. constructor; simpl; [|done|].
  - unfold occupied. induction n as [|n IH]; [done|]. simpl. rewrite sum_with_cons, <- IH. done.
  - apply awaited_quiet; [done|]. by apply Forall_replicate.
Qed.

Lemma sound_reachable e n (schedule : list (nat * Action)) :
  0 <= limit -> listeners e = ∅ -> sound (run (step limit) (initial e n) schedule).
Proof.
  intros Hl He. apply (run_invariant _ sound (fun _ => True));
    [by apply sound_initial|intros; by apply bulkhead_sound_step|by apply Forall_forall].
Qed.

End Invariant.

(** ** Properties *)

(** C8: Under every interleaving of the atomic accesses of any number of callers,
    spurious compare-exchange failures included, the counter equals the slots
    actually held and never exceeds the limit: no slot leaks and none is
    granted twice. *)
Theorem slots_never_exceed_limit {E : Type} `{EventLaws E} (limit : Z) (e : E) (callers : nat)
    (schedule : list (nat * Action)) :
  0 <= limit -> listeners e = ∅ ->
  let w := run (step limit) (initial e callers) schedule in
  in_use w = occupied (pool w) /\ 0 <= in_use w <= limit.
Proof.
  intros Hl He w. destruct (sound_reachable limit e callers schedule Hl He) as [Hs Hlim _].
  fold w in Hs, Hlim. split; [done|]. split; [|done]. rewrite Hs.
  apply sum_with_nonneg, Forall_true. intros []; simpl; lia.
Qed.

(** Two callers race for one slot, both having loaded the counter. *)
Definition race : list (nat * Action) :=
  [(0, StartTry); (1, StartTry); (0, Go false); (1, Go false); (0, Go false); (1, Go false); (1, Go false)]%nat.

Lemma slots_never_exceed_limit_witness :
  let w := run (step 1) (initial (∅ : gmap nat bool) 2) race in
  pool w = [Holding; Out] /\ in_use w = occupied (pool w) /\ 0 <= in_use w <= 1.
Proof.
  split; [reflexivity|].
  apply (slots_never_exceed_limit 1 (∅ : gmap nat bool) 2 race); [lia|reflexivity].
Defined.

(** C9: No wake-up is lost: whenever a waiter sleeps without a notification, every
    free slot is matched by a thread that will look before it sleeps, a
    notification on its way, or one about to be sent. In particular, when
    nothing is moving, a sleeping waiter means that every slot is held. *)
Theorem no_lost_wakeup {E : Type} `{EventLaws E} (limit : Z) (e : E) (callers : nat)
    (schedule : list (nat * Action)) (i : nat) :
  0 <= limit -> listeners e = ∅ ->
  let w := run (step limit) (initial e callers) schedule in
  pool w !! i = Some Parked -> listeners (event w) !! i = Some false ->
  limit - in_use w <= sum_with (credit awake limit) (view (listeners (event w)) (pool w)) /\
  (Forall (fun c => credit awake limit c = 0) (view (listeners (event w)) (pool w)) ->
   occupied (pool w) = limit).
Proof.
  intros Hl He w Hp Hn. destruct (sound_reachable limit e callers schedule Hl He) as [Hs Hlim Hw].
  fold w in Hs, Hlim, Hw.
  assert (Hfree : limit - in_use w <= sum_with (credit awake limit) (view (listeners (event w)) (pool w)))
    by by eapply awaited_sleeper.
  split; [done|]. intros Hq. rewrite <- Hs.
  rewrite (sum_with_zero _ _ Hq) in Hfree. lia.
Qed.

(** One slot, held; a waiter goes to sleep behind it. *)
Definition sleeper : list (nat * Action) :=
  [(0, StartTry); (0, Go false); (0, Go false);
   (1, StartWait); (1, Go false); (1, Go false); (1, Go false); (1, Go false); (1, Go false)]%nat.

Lemma no_lost_wakeup_witness :
  let w := run (step 1) (initial (∅ : gmap nat bool) 2) sleeper in
  pool w = [Holding; Parked] /\ occupied (pool w) = 1.
Proof.
  split; [reflexivity|].
  apply (no_lost_wakeup 1 (∅ : gmap nat bool) 2 sleeper 1); [lia|reflexivity..|repeat constructor].
Defined.
