(* ===== verification/Adaptive.v ===== *)
(** * Adaptive concurrency (src/src/adaptive.rs)

    Two strategies, and the limiter they drive. The limiter is given twice:
    [settle], [adjust_limit] and [try_reserve] as they run alone, and every
    atomic access as one step of one thread, for the interleavings. *)

From S2P Require Import Prelude Decisions Float64.

(** ** Strategies *)

Inductive Outcome := Success (rtt : Duration) | Failure.

Definition is_failure (o : Outcome) : bool := match o with Failure => true | _ => false end.

(** [adjust(current, in_flight, outcome)]; a strategy may keep state. *)
Definition AdaptiveStrategy (S : Type) : Type := S -> Z -> Z -> Outcome -> Z * S.

Record Aimd := mkAimd { increase : Z; decrease : f64 }.

Definition Aimd_new (increase : Z) (decrease : f64) : Aimd :=
  mkAimd (Z.max increase 1)
    (if f64_is_nan decrease then f64_div f64_one (f64_of_Z 2)
     else f64_clamp decrease f64_zero f64_one).

Definition aimd_adjust : AdaptiveStrategy Aimd := fun self current in_flight outcome =>
  (match outcome with
   | Success _ => if current <=? in_flight then sat_add u32_max current (increase self) else current
   | Failure =>
       let cut := f64_to_uint u32_max (f64_mul (f64_of_Z current) (decrease self)) in
       Z.max cut 1
   end, self).

Record Vegas := mkVegas {
  alpha : Z;
  beta : Z;
  min_rtt_ns : Z;
  samples : Z;
  probe_interval : Z }.

Definition Vegas_new (alpha beta : Z) : Vegas := mkVegas alpha (Z.max beta alpha) u64_max 0 1000.

Definition with_probe_interval (v : Vegas) (samples_ : Z) : Vegas :=
  mkVegas (alpha v) (beta v) (min_rtt_ns v) (samples v) (Z.max samples_ 1).

(** The sample, in whole nanoseconds, at least one. *)
Definition rtt_nanos (rtt : Duration) : Z := Z.max (to_u64_or_max (as_nanos rtt)) 1.

(** Updates the best latency; the value is the minimum to compare with. *)
Definition observe (v : Vegas) (rtt_ns : Z) : Z * Vegas :=
  let sample := wrap64 (samples v + 1) in
  let min_ns := if sample mod probe_interval v =? 0 then rtt_ns else Z.min (min_rtt_ns v) rtt_ns in
  (min_ns, mkVegas (alpha v) (beta v) min_ns sample (probe_interval v)).

Definition queue_estimate (current rtt_ns min_ns : Z) : Z :=
  sat_mul u64_max current (sat_sub rtt_ns min_ns) / rtt_ns.

Definition vegas_adjust : AdaptiveStrategy Vegas := fun self current _ outcome =>
  match outcome with
  | Failure => (Z.max (current / 2) 1, self)
  | Success rtt =>
      let rtt_ns := rtt_nanos rtt in
      let '(min_ns, self) := observe self rtt_ns in
      let queue := queue_estimate current rtt_ns min_ns in
      (if queue <? alpha self then sat_add u32_max current 1
       else if beta self <? queue then sat_sub current 1
       else current, self)
  end.

(** ** The limiter, one operation at a time *)

Record AdaptiveLimiter (S : Type) := mkAdaptive {
  strategy : S;
  limit : Z;
  in_flight : Z;
  decrease_epoch : Z;
  floor : Z;
  ceiling : Z }.
Arguments mkAdaptive {S}. Arguments strategy {S}. Arguments limit {S}.
Arguments in_flight {S}. Arguments decrease_epoch {S}. Arguments floor {S}.
Arguments ceiling {S}.

Definition TRAIT_POLL : Duration := from_millis 1.

Section Limiter.
Context {S : Type} (adjust : AdaptiveStrategy S).
Abbreviation limiter := (AdaptiveLimiter S).

Definition new (s : S) (floor ceiling initial : Z) : limiter :=
  let floor := Z.max floor 1 in
  let ceiling := Z.max ceiling floor in
  mkAdaptive s (clamp initial floor ceiling) 0 0 floor ceiling.

Definition with_clock (l : limiter) : limiter := new (strategy l) (floor l) (ceiling l) (limit l).

Definition set_limit (l : limiter) (s : S) (n epoch : Z) : limiter :=
  mkAdaptive s n (in_flight l) epoch (floor l) (ceiling l).
Definition set_in_flight (l : limiter) (n : Z) : limiter :=
  mkAdaptive (strategy l) (limit l) n (decrease_epoch l) (floor l) (ceiling l).

Definition try_reserve (l : limiter) (slots : Z) : bool * limiter :=
  match checked_add u32_max (in_flight l) slots with
  | None => (false, l)
  | Some wanted => if limit l <? wanted then (false, l) else (true, set_in_flight l wanted)
  end.

(** [adjust_limit] when no other outcome races it. *)
Definition adjust_limit (l : limiter) (in_flight : Z) (outcome : Outcome) : limiter :=
  let current := limit l in
  let '(proposed, s) := adjust (strategy l) current in_flight outcome in
  let new := clamp proposed (floor l) (ceiling l) in
  if new =? current then set_limit l s current (decrease_epoch l)
  else
    set_limit l s new
      (if is_failure outcome && (new <? current) then wrap64 (decrease_epoch l + 1)
       else decrease_epoch l).

Definition settle (l : limiter) (outcome : Outcome) (epoch : Z) : limiter :=
  let seen := in_flight l in
  let l := if is_failure outcome && (epoch <? decrease_epoch l) then l
           else adjust_limit l seen outcome in
  set_in_flight l (sat_sub (in_flight l) 1).

Definition release (l : limiter) (outcome : Outcome) : limiter :=
  settle l outcome (decrease_epoch l).

Definition refund (l : limiter) (cost : Z) : limiter :=
  set_in_flight l (sat_sub (in_flight l) cost).

Definition available (l : limiter) : Z := sat_sub (limit l) (in_flight l).

Definition capacity (l : limiter) : Z := ceiling l.

Definition peek (l : limiter) (cost : Z) : Decision :=
  if ceiling l <? cost then Impossible
  else if cost <=? sat_sub (limit l) (in_flight l) then Acquired
  else Retry TRAIT_POLL.

Definition acquire_cost (l : limiter) (cost : Z) : Decision * limiter :=
  if ceiling l <? cost then (Impossible, l)
  else
    let '(granted, l) := try_reserve l cost in
    (if granted then Acquired else Retry TRAIT_POLL, l).

(** A permit: the epoch it was admitted under. *)
Record AdaptivePermit := mkPermit { epoch : Z; settled : bool }.

Definition Permit_new (l : limiter) : AdaptivePermit := mkPermit (decrease_epoch l) false.

Definition try_acquire (l : limiter) : option AdaptivePermit * limiter :=
  let '(granted, l) := try_reserve l 1 in
  (if granted then Some (Permit_new l) else None, l).

Definition permit_drop (l : limiter) (p : AdaptivePermit) : limiter :=
  if settled p then l else settle l Failure (epoch p).
Definition permit_success (l : limiter) (p : AdaptivePermit) (rtt : Duration) : limiter :=
  permit_drop (settle l (Success rtt) (epoch p)) (mkPermit (epoch p) true).
Definition permit_failure (l : limiter) (p : AdaptivePermit) : limiter :=
  permit_drop (settle l Failure (epoch p)) (mkPermit (epoch p) true).
Definition permit_cancel (l : limiter) (p : AdaptivePermit) : limiter :=
  permit_drop (refund l 1) (mkPermit (epoch p) true).

End Limiter.

(** ** The builder *)

Record AdaptiveLimiterBuilder := mkBuilder { b_floor : Z; b_ceiling : Z; b_initial : option Z }.

Definition Builder_new : AdaptiveLimiterBuilder := mkBuilder 1 100 None.
Definition with_floor (b : AdaptiveLimiterBuilder) (floor : Z) : AdaptiveLimiterBuilder :=
  mkBuilder (Z.max floor 1) (b_ceiling b) (b_initial b).
Definition with_ceiling (b : AdaptiveLimiterBuilder) (ceiling : Z) : AdaptiveLimiterBuilder :=
  mkBuilder (b_floor b) ceiling (b_initial b).
Definition with_initial (b : AdaptiveLimiterBuilder) (initial : Z) : AdaptiveLimiterBuilder :=
  mkBuilder (b_floor b) (b_ceiling b) (Some initial).
Definition build {S} (b : AdaptiveLimiterBuilder) (s : S) : AdaptiveLimiter S :=
  new s (b_floor b) (b_ceiling b) (default (b_floor b) (b_initial b)).

(** ** Threads *)

Inductive Thread :=
  | Idle
  | Reserving (slots : Z) (permit : bool)                (* load [in_flight] *)
  | Checking (slots seen : Z) (permit : bool)            (* load [limit] *)
  | Claiming (slots seen wanted : Z) (permit : bool)     (* compare-exchange [in_flight] *)
  | Stamping                                             (* a new permit loads the epoch *)
  | Permitted (epoch : Z)
  | Units (n : Z)                                        (* slots taken through the trait *)
  | Reporting (outcome : Outcome)                        (* [release] loads the epoch *)
  | Settling (outcome : Outcome) (epoch : Z)             (* load [in_flight] *)
  | Judging (epoch seen : Z)                             (* a failure loads the epoch *)
  | Adjusting (outcome : Outcome) (seen : Z)             (* load [limit] *)
  | Moving (outcome : Outcome) (seen current : Z)        (* adjust, compare-exchange [limit] *)
  | Bumping                                              (* [fetch_add] the epoch *)
  | Freeing (n : Z)                                      (* load [in_flight] *)
  | Giving (n seen : Z).                                 (* compare-exchange [in_flight] *)

Inductive Action :=
  | Acquire
  | TakeUnits (cost : Z)
  | Report (outcome : Outcome)
  | Return
  | Go (spurious : bool).

Section Threads.
Context {S : Type} (adjust : AdaptiveStrategy S).

Record world := mkWorld { shared : AdaptiveLimiter S; pool : list Thread }.

(** The next atomic access of a thread: the thread's and the limiter's next
    state. *)
Definition go (l : AdaptiveLimiter S) (t : Thread) (spurious : bool)
    : option (Thread * AdaptiveLimiter S) :=
  match t with
  | Reserving slots p => Some (Checking slots (in_flight l) p, l)
  | Checking slots seen p =>
      Some (match checked_add u32_max seen slots with
            | None => Idle
            | Some wanted => if limit l <? wanted then Idle else Claiming slots seen wanted p
            end, l)
  | Claiming slots seen wanted p =>
      if negb spurious && (in_flight l =? seen)
      then Some (if p then Stamping else Units slots, set_in_flight l wanted)
      else Some (Reserving slots p, l)
  | Stamping => Some (Permitted (decrease_epoch l), l)
  | Reporting outcome => Some (Settling outcome (decrease_epoch l), l)
  | Settling outcome epoch =>
      Some (if is_failure outcome then Judging epoch (in_flight l)
            else Adjusting outcome (in_flight l), l)
  | Judging epoch seen =>
      Some (if epoch <? decrease_epoch l then Freeing 1 else Adjusting Failure seen, l)
  | Adjusting outcome seen => Some (Moving outcome seen (limit l), l)
  | Moving outcome seen current =>
      let '(proposed, s) := adjust (strategy l) current seen outcome in
      let new := clamp proposed (floor l) (ceiling l) in
      let l := set_limit l s (limit l) (decrease_epoch l) in
      if new =? current then Some (Freeing 1, l)
      else if negb spurious && (limit l =? current) then
        Some (if is_failure outcome && (new <? current) then Bumping else Freeing 1,
              set_limit l s new (decrease_epoch l))
      else Some (Moving outcome seen (limit l), l)
  | Bumping => Some (Freeing 1, set_limit l (strategy l) (limit l) (wrap64 (decrease_epoch l + 1)))
  | Freeing n => Some (Giving n (in_flight l), l)
  | Giving n seen =>
      if negb spurious && (in_flight l =? seen)
      then Some (Idle, set_in_flight l (sat_sub seen n))
      else Some (Giving n (in_flight l), l)
  | Idle | Permitted _ | Units _ => None
  end.

Definition next (l : AdaptiveLimiter S) (t : Thread) (a : Action)
    : option (Thread * AdaptiveLimiter S) :=
  match a, t with
  | Acquire, Idle => Some (Reserving 1 true, l)
  | TakeUnits cost, Idle =>
      if (ceiling l <? cost) || (cost <? 0) then None else Some (Reserving cost false, l)
  | Report outcome, Permitted epoch => Some (Settling outcome epoch, l)
  | Report outcome, Units n => if n =? 1 then Some (Reporting outcome, l) else None
  | Return, Permitted _ => Some (Freeing 1, l)
  | Return, Units n => Some (Freeing n, l)
  | Go spurious, _ => go l t spurious
  | _, _ => None
  end.

Definition step (w : world) (s : nat * Action) : world :=
  match pool w !! s.1 with
  | Some t =>
      match next (shared w) t s.2 with
      | Some (t', l') => mkWorld l' (<[s.1 := t']> (pool w))
      | None => w
      end
  | None => w
  end.

Definition initial (l : AdaptiveLimiter S) (callers : nat) : world :=
  mkWorld l (replicate callers Idle).

End Threads.
Arguments world : clear implicits.

(** ** The invariant of the interleavings *)

(** The slots a thread has in flight. *)
Definition held (t : Thread) : Z :=
  match t with
  | Stamping | Permitted _ | Reporting _ | Settling _ _ | Judging _ _ | Adjusting _ _
  | Moving _ _ _ | Bumping => 1
  | Units n | Freeing n | Giving n _ => n
  | Idle | Reserving _ _ | Checking _ _ _ | Claiming _ _ _ _ => 0
  end.

Definition thread_ok (ceiling : Z) (t : Thread) : Prop :=
  match t with
  | Reserving slots p | Checking slots _ p => 0 <= slots /\ (p = true -> slots = 1)
  | Claiming slots seen wanted p =>
      0 <= slots /\ wanted = seen + slots /\ wanted <= ceiling /\ (p = true -> slots = 1)
  | Units n | Freeing n | Giving n _ => 0 <= n
  | _ => True
  end.

Record bounded {S} (l : AdaptiveLimiter S) : Prop := mkBounded {
  bd_floor : 1 <= floor l;
  bd_limit : floor l <= limit l <= ceiling l;
  bd_in_flight : 0 <= in_flight l <= ceiling l }.

Section Invariant.
Context {S : Type} (adjust : AdaptiveStrategy S).

Record sound (w : world S) : Prop := mkSound {
  snd_bounded : bounded (shared w);
  snd_count : in_flight (shared w) = sum_with held (pool w);
  snd_threads : Forall (thread_ok (ceiling (shared w))) (pool w) }.

Lemma bounded_new (s : S) f c i : bounded (new s f c i).
Proof.
  pose proof (clamp_range i (Z.max f 1) (Z.max c (Z.max f 1)) ltac:(lia)).
  constructor; simpl; lia.
Qed.

Lemma held_nonneg c t : thread_ok c t -> 0 <= held t.
Proof. destruct t; simpl; lia. Qed.

(** One access: the count moves with the thread, the bounds stay. *)
Lemma go_ok l t spurious t' l' :
  bounded l -> thread_ok (ceiling l) t -> held t <= in_flight l ->
  go adjust l t spurious = Some (t', l') ->
  floor l' = floor l /\ ceiling l' = ceiling l /\ bounded l' /\ thread_ok (ceiling l') t' /\
  in_flight l' = in_flight l - held t + held t'.
Proof.
  intros [Hf Hl Hi] Hok Hh Hgo.
  assert (Hmv : forall s n e, floor l <= n <= ceiling l -> bounded (set_limit l s n e))
    by (intros; constructor; simpl; lia).
  destruct t; simpl in Hgo, Hok, Hh; destruct_and?; simplify_eq; try by (simpl; split_and!; try done; lia).
  - unfold checked_add; zcase; simpl; split_and!; try done; lia.
  - destruct (negb spurious && _) eqn:E; simplify_eq.
    + apply andb_true_iff in E as [_ E%Z.eqb_eq].

      split_and!; try done; [constructor; simpl; lia|by destruct permit|].
      simpl. destruct permit; simpl; lia.
    + simpl; split_and!; try done; lia.
  - destruct (is_failure outcome); simpl; split_and!; try done; lia.
  - destruct (_ <? _); simpl; split_and!; try done; lia.
  - destruct (adjust _ _ _ _) as [proposed s].
    pose proof (clamp_range proposed (floor l) (ceiling l) ltac:(lia)) as Hc.
    destruct (_ =? current); simplify_eq; [simpl; split_and!; try done; lia|].
    destruct (negb spurious && _); simplify_eq; [|simpl; split_and!; try done; lia].
    destruct (_ && _); simpl; split_and!; try done; try lia; constructor; simpl; lia.
  - destruct (negb spurious && _) eqn:E; simplify_eq.
    + apply andb_true_iff in E as [_ E%Z.eqb_eq].
      simpl; split_and!; try done; [constructor; simpl; mlia|mlia].
    + simpl; split_and!; try done; lia.
Qed.

Lemma next_ok l t a t' l' :
  bounded l -> thread_ok (ceiling l) t -> held t <= in_flight l ->
  next adjust l t a = Some (t', l') ->
  floor l' = floor l /\ ceiling l' = ceiling l /\ bounded l' /\ thread_ok (ceiling l') t' /\
  in_flight l' = in_flight l - held t + held t'.
Proof.
  intros Hb Hok Hh Hn.
  destruct a; simpl in Hn; try by (eapply go_ok).
  - destruct t; simplify_eq. simpl; split_and!; try done; lia.
  - destruct t; simplify_eq. destruct (Z.ltb_spec (ceiling l) cost), (Z.ltb_spec cost 0); simplify_eq/=.
    simpl; split_and!; try done; lia.
  - destruct t; simplify_eq; [simpl; split_and!; try done; lia|].
    destruct (Z.eqb_spec n 1); simplify_eq. simpl; split_and!; try done; lia.
  - destruct t; simplify_eq; simpl; split_and!; try done; lia.
Qed.

Lemma adaptive_sound_step w s : sound w -> sound (step adjust w s).
Proof.
  intros [Hb Hc Ht]. unfold step. destruct (pool w !! s.1) as [t|] eqn:Hi; [|by constructor].
  destruct (next adjust (shared w) t s.2) as [[t' l']|] eqn:Hn; [|by constructor].
  assert (Hok : thread_ok (ceiling (shared w)) t) by by eapply Forall_lookup_1.
  assert (Hh : held t <= in_flight (shared w)).
  { rewrite Hc. clear -Ht Hi. revert Hi. generalize s.1. induction Ht as [|u ts Hu Hts IH];
      intros [|i] Hi; simplify_eq/=; rewrite sum_with_cons.
    - assert (0 <= sum_with held ts); [|lia]. apply sum_with_nonneg.
      eapply Forall_impl; [exact Hts|]. intros. by eapply held_nonneg.
    - apply held_nonneg in Hu. specialize (IH i Hi). lia. }
  destruct (next_ok _ _ _ _ _ Hb Hok Hh Hn) as (H1 & H2 & H3 & H4 & H5).
  constructor; simpl; [done| |].
  - rewrite (sum_with_insert _ _ _ t) by done. lia.
  - rewrite H2 in *. by apply Forall_insert.
Qed.

Lemma adaptive_sound_run l n schedule :
  bounded l -> in_flight l = 0 -> sound (run (step adjust) (initial l n) schedule).
Proof.
  intros Hb Hz. apply (run_invariant _ sound (fun _ => True)).
  - constructor; simpl; [done| |by apply Forall_replicate].
    rewrite Hz, sum_with_zero; [done|]. by apply Forall_replicate.
  - intros w s _. apply adaptive_sound_step.
  - by apply Forall_forall.
Qed.

End Invariant.

(** ** A settle that runs alone *)

Lemma step_at {S} (adjust : AdaptiveStrategy S) l ts i t a :
  (i < length ts)%nat ->
  step adjust (mkWorld l (<[i := t]> ts)) (i, a) =
    match next adjust l t a with
    | Some (t', l') => mkWorld l' (<[i := t']> ts)
    | None => mkWorld l (<[i := t]> ts)
    end.
Proof.
  intros Hi. unfold step. simpl. rewrite list_lookup_insert_eq by done.
  destruct (next adjust l t a) as [[t' l']|]; [|done]. by rewrite list_insert_insert_eq.
Qed.

(** The accesses of one settle, in order; the last ones may find it done. *)
Definition solo (i : nat) (outcome : Outcome) : list (nat * Action) :=
  (i, Report outcome) :: replicate 7 (i, Go false).

Lemma run_idle {S} (adjust : AdaptiveStrategy S) l ts i n :
  (i < length ts)%nat ->
  run (step adjust) (mkWorld l (<[i := Idle]> ts)) (replicate n (i, Go false)) =
  mkWorld l (<[i := Idle]> ts).
Proof.
  intros Hi. induction n as [|n IH]; [done|]. simpl replicate. rewrite run_cons, step_at by done.
  exact IH.
Qed.

Lemma run_freeing {S} (adjust : AdaptiveStrategy S) l ts i n :
  (i < length ts)%nat ->
  run (step adjust) (mkWorld l (<[i := Freeing 1]> ts)) (replicate (2 + n) (i, Go false)) =
  mkWorld (set_in_flight l (sat_sub (in_flight l) 1)) (<[i := Idle]> ts).
Proof.
  intros Hi. simpl replicate. rewrite !run_cons, !step_at by done. simpl.
  rewrite step_at by done. simpl. rewrite Z.eqb_refl. simpl. by apply run_idle.
Qed.

Lemma run_adjusting {S} (adjust : AdaptiveStrategy S) l ts i outcome seen n :
  (i < length ts)%nat ->
  run (step adjust) (mkWorld l (<[i := Adjusting outcome seen]> ts)) (replicate (5 + n) (i, Go false)) =
  let l' := adjust_limit adjust l seen outcome in
  mkWorld (set_in_flight l' (sat_sub (in_flight l') 1)) (<[i := Idle]> ts).
Proof.
  intros Hi. simpl replicate. rewrite !run_cons, step_at by done. simpl.
  rewrite step_at by done. simpl. unfold adjust_limit.
  destruct (adjust _ _ _ _) as [proposed s]. destruct (_ =? limit l) eqn:E.
  - exact (run_freeing adjust _ ts i (1 + n) Hi).
  - rewrite Z.eqb_refl. simpl. destruct (is_failure outcome && _).
    + rewrite step_at by done. simpl. exact (run_freeing adjust _ ts i n Hi).
    + exact (run_freeing adjust _ ts i (1 + n) Hi).
Qed.

(** ** Properties *)

(** C28: Under every interleaving of any callers' accesses, for any strategy: the
    limit stays within its floor and ceiling, the in-flight count is exactly
    the slots held, and it never exceeds the ceiling. *)
Theorem limit_and_slots_bounded {S : Type} (adjust : AdaptiveStrategy S) (s : S)
    (floor_ ceiling_ initial_ : Z) (callers : nat) (schedule : list (nat * Action)) :
  let l := new s floor_ ceiling_ initial_ in
  let w := run (step adjust) (initial l callers) schedule in
  floor l <= limit (shared w) <= ceiling l /\
  in_flight (shared w) = sum_with held (pool w) /\
  0 <= in_flight (shared w) <= ceiling l.
Proof.
  intros l w.
  assert (Hs : sound w) by (apply adaptive_sound_run; [apply bounded_new|done]).
  assert (Hk : floor (shared w) = floor l /\ ceiling (shared w) = ceiling l).
  { apply (run_invariant _ (fun w => sound w /\ floor (shared w) = floor l /\
      ceiling (shared w) = ceiling l) (fun _ => True)); [| |by apply Forall_forall].
    - split; [|done]. apply (adaptive_sound_run adjust l callers []); [apply bounded_new|done].
    - intros w0 st _ (Hw & Hf & Hc). split; [by apply adaptive_sound_step|].
      unfold step. destruct (pool w0 !! st.1) as [t|] eqn:Hi; [|done].
      destruct (next adjust (shared w0) t st.2) as [[t' l']|] eqn:Hn; [|done].
      clear -Hn Hf Hc. destruct st.2, t; simpl in Hn; repeat case_match; simplify_eq/=; done. }
  destruct Hs as [[H1 H2 H3] H4 _], Hk as [Hf Hc]. rewrite Hf, Hc in *. done.
Qed.

(** A settle that no other caller interleaves with is the sequential
    [settle]: the accesses implement the operation. *)
Theorem settle_alone {S : Type} (adjust : AdaptiveStrategy S) (l : AdaptiveLimiter S)
    (ts : list Thread) (i : nat) (outcome : Outcome) (e : Z) :
  ts !! i = Some (Permitted e) ->
  run (step adjust) (mkWorld l ts) (solo i outcome) =
  mkWorld (settle adjust l outcome e) (<[i := Idle]> ts).
Proof.
  intros Hi. assert (Hlt : (i < length ts)%nat) by by eapply lookup_lt_Some.
  rewrite <- (list_insert_id ts i _ Hi) at 1. unfold solo.
  rewrite run_cons, step_at by done. cbn [next].
  change (replicate 7 (i, Go false)) with ((i, Go false) :: replicate 6 (i, Go false)).
  rewrite run_cons, step_at by done. cbn [next go]. unfold settle.
  destruct outcome as [rtt|]; cbn [is_failure andb].
  - exact (run_adjusting adjust l ts i (Success rtt) (in_flight l) 1 Hlt).
  - change (replicate 6 (i, Go false)) with ((i, Go false) :: replicate 5 (i, Go false)).
    rewrite run_cons, step_at by done. cbn [next go]. destruct (e <? decrease_epoch l).
    + exact (run_freeing adjust l ts i 3 Hlt).
    + exact (run_adjusting adjust l ts i Failure (in_flight l) 0 Hlt).
Qed.

Lemma settle_alone_witness :
  let l := mkAdaptive (Aimd_new 1 (f64_div f64_one (f64_of_Z 2))) 8 1 0 1 8 in
  let w := run (step aimd_adjust) (mkWorld l [Permitted 0]) (solo 0 Failure) in
  shared w = settle aimd_adjust l Failure 0 /\ limit (shared w) = 4.
Proof.
  intros l w. assert (H : w = mkWorld (settle aimd_adjust l Failure 0) [Idle])
    by exact (settle_alone aimd_adjust l [Permitted 0] 0 Failure 0 eq_refl).
  rewrite H. split; vm_compute; reflexivity.
Defined.

(** When the failures of one congestion event are settled one after another,
    whatever the strategy answers: once one has lowered the limit, the others
    that were admitted before it only give their slots back. *)
Theorem burst_decreases_once {S : Type} (adjust : AdaptiveStrategy S) (l : AdaptiveLimiter S)
    (e : Z) (later : list Z) :
  0 <= e <= decrease_epoch l -> decrease_epoch l < u64_max ->
  Forall (fun e' => 0 <= e' <= decrease_epoch l) later ->
  let l1 := settle adjust l Failure e in
  limit l1 < limit l ->
  let l2 := foldl (fun l e' => settle adjust l Failure e') l1 later in
  limit l2 = limit l1 /\ decrease_epoch l2 = decrease_epoch l + 1 /\
  in_flight l2 = Z.max 0 (in_flight l1 - Z.of_nat (length later)) /\ strategy l2 = strategy l1.
Proof.
  intros He Hmax Hlater l1 Hless.
  assert (Hep : decrease_epoch l1 = decrease_epoch l + 1 /\ 0 <= in_flight l1).
  { revert Hless. subst l1. unfold settle, adjust_limit. simpl. destruct (Z.ltb_spec e (decrease_epoch l));
      simpl; [lia|]. destruct (adjust _ _ _ _) as [proposed s].
    destruct (Z.eqb_spec (clamp proposed (floor l) (ceiling l)) (limit l)); simpl; [lia|].
    intros Hlt. rewrite (proj2 (Z.ltb_lt _ _)) by lia. rewrite wrap64_small by mlia. mlia. }
  destruct Hep as [Hep Hin]. clearbody l1. clear Hless He.
  revert l1 Hep Hin. induction Hlater as [|e' later He' _ IH]; intros l1 Hep Hin l2.
  { subst l2. simpl. split_and!; [done|done|lia|done]. }
  assert (Hst : settle adjust l1 Failure e' = set_in_flight l1 (sat_sub (in_flight l1) 1)).
  { unfold settle. simpl. by rewrite (proj2 (Z.ltb_lt _ _)) by lia. }
  subst l2. cbn [foldl length]. rewrite Hst.
  destruct (IH (set_in_flight l1 (sat_sub (in_flight l1) 1)) Hep ltac:(simpl; mlia)) as (H1 & H2 & H3 & H4).
  rewrite H1, H2, H3, H4. simpl. split_and!; [done|done|mlia|done].
Qed.

Definition half : Aimd := Aimd_new 1 (f64_div f64_one (f64_of_Z 2)).

Lemma burst_decreases_once_witness :
  let l := mkAdaptive half 8 3 0 1 8 in
  limit (foldl (fun l e => settle aimd_adjust l Failure e) (settle aimd_adjust l Failure 0) [0; 0])
  = limit (settle aimd_adjust l Failure 0).
Proof.
  apply (burst_decreases_once aimd_adjust (mkAdaptive half 8 3 0 1 8) 0 [0; 0]);
    [simpl; lia|simpl; mlia|repeat constructor; simpl; lia|vm_compute; reflexivity].
Defined.

(** Settled concurrently they do compound: the epoch is compared before the
    limit moves and raised after, so two failures of one event, admitted
    under the same epoch, can both lower the limit. *)
Theorem concurrent_failures_compound :
  let l := mkAdaptive half 8 2 0 1 8 in
  let schedule := [(0, Report Failure); (1, Report Failure);
                   (0, Go false); (1, Go false); (0, Go false); (1, Go false);
                   (0, Go false); (1, Go false); (0, Go false); (1, Go false); (1, Go false)]%nat in
  let w := run (step aimd_adjust) (mkWorld l [Permitted 0; Permitted 0]) schedule in
  pool w = [Bumping; Bumping] /\ limit l = 8 /\ limit (shared w) = 2 /\
  limit (settle aimd_adjust (settle aimd_adjust l Failure 0) Failure 0) = 4.
Proof. vm_compute. done. Qed.

(** How many of the latest samples the minimum covers after [n] of them. *)
Definition probe_window (p n : Z) : Z := if n <? p then n else n mod p + 1.

Lemma probe_window_next p n :
  1 <= p -> 0 <= n ->
  probe_window p (n + 1) = if (n + 1) mod p =? 0 then 1 else probe_window p n + 1.
Proof.
  intros Hp Hn. unfold probe_window. pose proof (Z.mod_pos_bound n p ltac:(lia)) as Hb.
  destruct (Z.ltb_spec (n + 1) p) as [Hlt|Hge].
  - rewrite (Z.mod_small (n + 1) p) by lia. zcase; lia.
  - destruct (Z.eq_dec (n + 1) p) as [->|Hne].
    { rewrite Z.mod_same by lia. done. }
    rewrite (proj2 (Z.ltb_ge n p)) by lia.
    destruct (Z.eq_dec (n mod p) (p - 1)) as [E|E].
    + rewrite (Z.add_mod n 1 p), E by lia.
      destruct (Z.eq_dec p 1) as [->|Hp1]; [done|].
      rewrite (Z.mod_small 1 p) by lia. replace (p - 1 + 1) with p by lia.
      rewrite Z.mod_same by lia. done.
    + assert (Hs : (n + 1) mod p = n mod p + 1).
      { rewrite (Z.div_mod n p) at 1 by lia.
        replace (p * (n / p) + n mod p + 1) with (n mod p + 1 + (n / p) * p) by lia.
        rewrite Z.mod_add by lia. apply Z.mod_small. lia. }
      rewrite Hs. zcase; lia.
Qed.

Lemma rtt_nanos_le rtt : rtt_nanos rtt <= u64_max.
Proof. unfold rtt_nanos. mlia. Qed.

(** [Vegas]: after any latencies, the stored minimum is the least of those
    since the last re-probe, which every [probe_interval]-th sample starts. *)
Theorem vegas_minimum_since_probe (v : Vegas) (rtts : list Duration) :
  min_rtt_ns v = u64_max -> samples v = 0 -> 1 <= probe_interval v ->
  Z.of_nat (length rtts) <= u64_max ->
  let n := Z.of_nat (length rtts) in
  let window := probe_window (probe_interval v) n in
  let v' := foldl (fun v rtt => (observe v (rtt_nanos rtt)).2) v rtts in
  min_rtt_ns v' =
    foldr Z.min u64_max (rtt_nanos <$> take (Z.to_nat window) (rev rtts)) /\
  samples v' = n.
Proof.
  intros Hm Hs Hp Hn. cbv zeta. set (f := fun v rtt => (observe v (rtt_nanos rtt)).2).
  enough (Hgoal : min_rtt_ns (foldl f v rtts) = foldr Z.min u64_max (rtt_nanos <$> take
      (Z.to_nat (probe_window (probe_interval v) (Z.of_nat (length rtts)))) (rev rtts)) /\
    samples (foldl f v rtts) = Z.of_nat (length rtts) /\
    probe_interval (foldl f v rtts) = probe_interval v) by (split; apply Hgoal).
  induction rtts as [|rtt rtts IH] using rev_ind.
  { simpl. by rewrite firstn_nil. }
  rewrite length_app in *. cbn [length] in *. rewrite foldl_app, rev_app_distr. cbn [foldl rev app].
  destruct (IH ltac:(lia)) as (H1 & H2 & H3). clear IH.
  set (v0 := foldl f v rtts) in *. unfold f, observe. simpl. rewrite H1, H2, H3.
  replace (Z.of_nat (length rtts + 1)) with (Z.of_nat (length rtts) + 1) by lia.
  rewrite wrap64_small by mlia. split; [|done].
  rewrite (probe_window_next _ (Z.of_nat (length rtts))) by lia.
  pose proof (rtt_nanos_le rtt). destruct (_ =? 0).
  - simpl. lia.
  - unfold probe_window. set (k := if _ <? _ then _ else _).
    assert (Hk : 0 <= k).
    { subst k. pose proof (Z.mod_pos_bound (Z.of_nat (length rtts)) (probe_interval v) ltac:(lia)). zcase; lia. }
    rewrite Z.add_1_r, Z2Nat.inj_succ by done. apply Z.min_comm.
Qed.

Lemma vegas_minimum_since_probe_witness :
  let v := with_probe_interval (Vegas_new 3 6) 3 in
  min_rtt_ns (foldl (fun v rtt => (observe v (rtt_nanos rtt)).2) v [50; 9; 40; 70]) = 40.
Proof.
  exact (proj1 (vegas_minimum_since_probe (with_probe_interval (Vegas_new 3 6) 3) [50; 9; 40; 70]
    eq_refl eq_refl ltac:(vm_compute; congruence) ltac:(vm_compute; congruence))).
Defined.
