(* ===== verification/AdaptiveWait.v ===== *)
(** * Waiting for an adaptive slot (src/src/adaptive.rs)

    [wait_for_slot] and the notifications of [settle], [adjust_limit] and
    [refund], around the atomic accesses of Adaptive.v: every access, every
    call on the event and every cancellation is a step of its own. *)

From stdpp Require Import gmap fin_maps.
From S2P Require Import Prelude Decisions Float64 Event Adaptive.

(** ** Callers *)

Inductive Caller :=
  | Plain (t : Thread)                     (* outside the waiting loop *)
  | Looking (second : bool) (t : Thread)   (* its [try_reserve(1)], before or after it listens *)
  | Registering                            (* about to [listen] *)
  | Parked                                 (* at [listener.await] *)
  | Leaving                                (* took its slot; its listener is to be dropped *)
  | Waking (n : Z) (t : Thread).           (* about to [notify_additional(n)], and then at [t] *)

Inductive Step := Act (a : Action) | StartWait | Cancel.

(** [try_reserve(1)] *)
Definition try_reserve_one : Thread := Reserving 1 true.

(** Where one access of [try_reserve] leaves the waiting loop. *)
Definition looked (second : bool) (t : Thread) : Caller :=
  match t with
  | Idle => if second then Parked else Registering
  | Stamping => if second then Leaving else Plain Stamping
  | t => Looking second t
  end.

Section Waiting.
Context {S E : Type} `{Event E} (adjust : AdaptiveStrategy S).

(** How many waiters an access is to notify: the slots given back, or those
    the limit has grown by. *)
Definition additional (l l' : AdaptiveLimiter S) (t t' : Thread) : Z :=
  match t, t' with
  | Giving n _, Idle => n
  | Moving _ _ _, _ => sat_sub (limit l') (limit l)
  | _, _ => 0
  end.

Definition resume (l l' : AdaptiveLimiter S) (t t' : Thread) : Caller :=
  let n := additional l l' t t' in if 0 <? n then Waking n t' else Plain t'.

Record world := mkWaitWorld { shared : AdaptiveLimiter S; event : E; pool : list Caller }.

(** One step of caller [i]: its next state, the limiter's and the event's. *)
Definition next (l : AdaptiveLimiter S) (e : E) (i : nat) (c : Caller) (s : Step)
    : option (Caller * AdaptiveLimiter S * E) :=
  match c, s with
  | Plain t, Act a =>
      match Adaptive.next adjust l t a with
      | Some (t', l') => Some (resume l l' t t', l', e)
      | None => None
      end
  | Plain t, StartWait =>
      match t with Idle => Some (Looking false try_reserve_one, l, e) | _ => None end
  | Looking second t, Act (Go spurious) =>
      match Adaptive.go adjust l t spurious with
      | Some (t', l') => Some (looked second t', l', e)
      | None => None
      end
  | Registering, Act (Go _) => Some (Looking true try_reserve_one, l, listen i e)
  | Parked, Act (Go _) =>
      match listeners e !! i with
      | Some true => Some (Looking false try_reserve_one, l, consume i e)
      | _ => None
      end
  | Parked, Cancel => Some (Plain Idle, l, drop_listener i e)
  | Leaving, Act (Go _) => Some (Plain Stamping, l, drop_listener i e)
  | Waking n t, Act (Go _) => Some (Plain t, l, notify_additional (Z.to_nat n) e)
  | _, _ => None
  end.

Definition step (w : world) (s : nat * Step) : world :=
  match pool w !! s.1 with
  | Some c =>
      match next (shared w) (event w) s.1 c s.2 with
      | Some (c', l', e') => mkWaitWorld l' e' (<[s.1 := c']> (pool w))
      | None => w
      end
  | None => w
  end.

Definition initial (l : AdaptiveLimiter S) (e : E) (callers : nat) : world :=
  mkWaitWorld l e (replicate callers (Plain Idle)).

End Waiting.
Arguments world : clear implicits.

(** ** The accesses under the wait *)

(** What a caller is, to the limiter. *)
Definition core (c : Caller) : Thread :=
  match c with
  | Plain t | Looking _ t | Waking _ t => t
  | Registering | Parked => Idle
  | Leaving => Stamping
  end.

Section Refinement.
Context {S E : Type} `{Event E} (adjust : AdaptiveStrategy S).

Definition accesses (w : world S E) : Adaptive.world S := mkWorld (shared w) (core <$> pool w).

(** The access of the limiter a step makes, if it makes one. *)
Definition access (w : world S E) (s : nat * Step) : list (nat * Action) :=
  match pool w !! s.1, s.2 with
  | Some (Plain _), Act a => [(s.1, a)]
  | Some (Plain t), StartWait => match t with Idle => [(s.1, Acquire)] | _ => [] end
  | Some (Looking _ _), Act (Go spurious) => [(s.1, Go spurious)]
  | Some Registering, Act (Go _) => [(s.1, Acquire)]
  | Some Parked, Act (Go _) =>
      match listeners (event w) !! s.1 with Some true => [(s.1, Acquire)] | _ => [] end
  | _, _ => []
  end.

Lemma core_resume l l' t t' : core (resume (S := S) l l' t t') = t'.
Proof. unfold resume. by case_match. Qed.

Lemma core_looked second t : core (looked second t) = t.
Proof. by destruct t, second. Qed.

Lemma access_step w s : accesses (step adjust w s) = run (Adaptive.step adjust) (accesses w) (access w s).
Proof.
  destruct s as [i st]. unfold step, access. simpl. destruct (pool w !! i) as [c|] eqn:Hi; [|done].
  assert (Hcore : (core <$> pool w) !! i = Some (core c)) by by rewrite list_lookup_fmap, Hi.
  assert (Hrun : forall a t' l' c' e', Adaptive.next adjust (shared w) (core c) a = Some (t', l') -> core c' = t' ->
    accesses (mkWaitWorld l' e' (<[i := c']> (pool w))) = run (Adaptive.step adjust) (accesses w) [(i, a)]).
  { intros a t' l' c' e' Hn <-. unfold accesses, run, Adaptive.step. simpl. rewrite Hcore, Hn. by rewrite list_fmap_insert. }
  assert (Hstop : forall a, Adaptive.next adjust (shared w) (core c) a = None ->
    accesses w = run (Adaptive.step adjust) (accesses w) [(i, a)]).
  { intros a Hn. unfold run, Adaptive.step. simpl. by rewrite Hcore, Hn. }
  assert (Hnone : forall c' e', core c' = core c -> accesses (mkWaitWorld (shared w) e' (<[i := c']> (pool w))) = accesses w).
  { intros c' e' Hc. unfold accesses. simpl. by rewrite list_fmap_insert, Hc, list_insert_id. }
  destruct c as [t|second t| | | |n t], st as [a| |]; simpl; try done; try (by apply Hnone);
    try (destruct a; simpl; done || by apply Hnone).
  - destruct (Adaptive.next adjust (shared w) t a) as [[t' l']|] eqn:Hn; [|by apply Hstop].
    eapply Hrun; [exact Hn|apply core_resume].
  - destruct t; try done. by eapply Hrun.
  - destruct a; try done.
    destruct (go adjust (shared w) t spurious) as [[t' l']|] eqn:Hn; [|by apply Hstop].
    eapply Hrun; [exact Hn|apply core_looked].
  - destruct a; try done. by eapply Hrun.
  - destruct a; try done. destruct (listeners (event w) !! i) as [[]|]; try done. by eapply Hrun.
Qed.

Lemma access_run w schedule : exists schedule',
  accesses (run (step adjust) w schedule) = run (Adaptive.step adjust) (accesses w) schedule'.
Proof.
  revert w. induction schedule as [|s schedule IH]; intros w; [by exists []|].
  rewrite run_cons. destruct (IH (step adjust w s)) as [schedule' Hs].
  exists (access w s ++ schedule'). by rewrite Hs, access_step, run_app.
Qed.

Lemma sound_accesses l e n schedule : bounded l -> in_flight l = 0 ->
  sound (accesses (run (step adjust) (initial l e n) schedule)).
Proof.
  intros Hb Hz. destruct (access_run (initial l e n) schedule) as [schedule' Hs].
  rewrite Hs. unfold accesses, initial. simpl. rewrite fmap_replicate.
  by apply (adaptive_sound_run adjust l n schedule').
Qed.

End Refinement.

(** ** Wake-ups *)

(** The looks and notifications a caller still owes when [slots] may be used.
    A caller that no longer sees room owes nothing. *)
Definition awake (slots : Z) (c : Caller) : Z :=
  match c with
  | Looking _ (Checking _ seen _) => if seen <? slots then 1 else 0
  | Looking _ _ => 1
  | Waking n _ => Z.max n 0
  | Plain _ | Registering | Parked | Leaving => 0
  end.

Definition blocked (slots : Z) (c : Caller) : Prop :=
  match c with Parked => True | Looking true (Checking _ seen _) => slots <= seen | _ => False end.

Definition registered (c : Caller) : bool :=
  match c with Looking true _ | Parked | Leaving => true | _ => false end.

(** A caller in the loop is in its [try_reserve(1)]. *)
Definition caller_ok (c : Caller) : Prop :=
  match c with
  | Looking _ t =>
      match t with
      | Reserving slots permit | Checking slots _ permit => slots = 1 /\ permit = true
      | Claiming slots seen wanted permit => slots = 1 /\ permit = true /\ wanted = seen + 1
      | _ => False
      end
  | _ => True
  end.

Lemma adaptive_awake_nonneg slots c : 0 <= awake slots c.
Proof. destruct c as [|? []| | | |]; simpl; try case_match; lia. Qed.

#[export] Hint Resolve adaptive_awake_nonneg : core.

Lemma awake_more slots more c : slots <= more -> awake slots c <= awake more c.
Proof. intros Hm. destruct c as [|? []| | | |]; simpl; try lia. zcase; lia. Qed.

Lemma blocked_less slots more c : slots <= more -> blocked more c -> blocked slots c.
Proof. intros Hm. destruct c as [|[] []| | | |]; simpl; try done; lia. Qed.

Section Invariant.
Context {S E : Type} `{EventLaws E} (adjust : AdaptiveStrategy S).
Abbreviation awaited_upto := (fun l e ts =>
  forall slots, slots <= limit l -> awaited awake blocked registered slots (in_flight l) 0 (listeners e) ts).

(** For every number of slots up to the limit, not the limit alone: the limit
    may fall to it while a caller decides. *)
Record watchful (w : world S E) : Prop := mkWatchful {
  wt_sound : sound (accesses w);
  wt_u32 : ceiling (shared w) <= u32_max;
  wt_callers : Forall caller_ok (pool w);
  wt_awaited : awaited_upto (shared w) (event w) (pool w) }.

Lemma next_ceiling l t a t' l' : Adaptive.next adjust l t a = Some (t', l') -> ceiling l' = ceiling l.
Proof. destruct a, t; simpl; intros Hn; repeat case_match; by simplify_eq. Qed.

(** What an access gives back or adds, it is to notify. *)
Lemma additional_covers l t a t' l' :
  thread_ok (ceiling l) t -> Adaptive.next adjust l t a = Some (t', l') ->
  Z.max (limit l' - limit l) 0 + (in_flight l - in_flight l') <= additional l l' t t' /\
  0 <= additional l l' t t'.
Proof.
  intros Hok Hn. destruct a, t; simpl in Hok, Hn; repeat case_match; destruct_and?; simplify_eq/=;
    try lia; try mlia.
Qed.

Lemma awake_resume l l' t t' slots : 0 <= additional l l' t t' ->
  awake slots (resume (S := S) l l' t t') = additional l l' t t' /\
  registered (resume l l' t t') = false /\ ~ blocked slots (resume l l' t t').
Proof. intros Hn. unfold resume. zcase; simpl; split_and!; try done; try lia; by intros []. Qed.

Lemma awaited_plain l e ts i t a t' l' :
  awaited_upto l e ts -> ts !! i = Some (Plain t) -> thread_ok (ceiling l) t ->
  Adaptive.next adjust l t a = Some (t', l') -> awaited_upto l' e (<[i := resume l l' t t']> ts).
Proof.
  intros Ha Hi Hok Hn slots Hs. destruct (additional_covers _ _ _ _ _ Hok Hn) as [Hc Hp].
  destruct (awake_resume l l' t t' slots Hp) as (Haw & Hr & Hb).
  eapply awaited_set; [auto| |done|by rewrite Hr|lia|by intros ?|].
  - apply (awaited_raise awake blocked registered (Z.min slots (limit l))); [..|apply Ha; lia].
    + intros c. apply awake_more. lia.
    + intros c. apply blocked_less. lia.
    + lia.
  - right. rewrite Haw. simpl. lia.
Qed.

Lemma awaited_looking l e ts i second t spurious t' l' :
  awaited_upto l e ts -> ts !! i = Some (Looking second t) -> caller_ok (Looking second t) ->
  bounded l -> ceiling l <= u32_max ->
  go adjust l t spurious = Some (t', l') -> awaited_upto l' e (<[i := looked second t']> ts).
Proof.
  intros Ha Hi Hok [_ Hl Hf] Hu Hn slots Hs.
  assert (Hset : registered (looked second t') = second -> slots <= limit l ->
    (blocked slots (looked second t') -> blocked slots (Looking second t) \/ slots <= in_flight l') ->
    (slots <= in_flight l' \/ in_flight l - in_flight l' <= awake slots (looked second t') - awake slots (Looking second t)) ->
    awaited awake blocked registered slots (in_flight l') 0 (listeners e) (<[i := looked second t']> ts)).
  { intros Hr Hs' Hb Hc. eapply awaited_set; [auto|by apply Ha|done|by destruct second|done|done|lia]. }
  destruct t; simpl in Hok, Hn; try done; destruct_and?; simplify_eq/=.
  - apply Hset; simpl; [by destruct second|done| |zcase; lia]. destruct second; [by right|done].
  - unfold checked_add in *. destruct (Z.leb_spec (seen + 1) u32_max); [destruct (Z.ltb_spec (limit l') (seen + 1))|];
      apply Hset; destruct second; simpl; try done; try (left; lia); zcase; lia.
  - destruct (negb spurious && (in_flight l =? seen)) eqn:Ecas; simplify_eq/=.
    + apply andb_true_iff in Ecas as [_ <-%Z.eqb_eq]. apply Hset; destruct second; simpl; try done; lia.
    + apply Hset; destruct second; simpl; try done; lia.
Qed.


Lemma looked_ok second t l spurious t' l' :
  caller_ok (Looking second t) -> go adjust l t spurious = Some (t', l') -> caller_ok (looked second t').
Proof.
  intros Hok Hn. destruct t; simpl in Hok, Hn; try done; destruct_and?; simplify_eq/=; [done|..].
  - unfold checked_add in *. repeat case_match; simplify_eq/=; destruct second; done.
  - repeat case_match; simplify_eq/=; destruct second; done.
Qed.

Lemma next_watchful l e ts i c s c' l' e' :
  bounded l -> ceiling l <= u32_max -> thread_ok (ceiling l) (core c) -> caller_ok c ->
  awaited_upto l e ts -> ts !! i = Some c -> next adjust l e i c s = Some (c', l', e') ->
  ceiling l' = ceiling l /\ caller_ok c' /\ awaited_upto l' e' (<[i := c']> ts).
Proof.
  intros Hb Hu Hok Hc Ha Hi Hn.
  assert (Hidle : forall c'', awake 0 c = 0 -> (forall slots, awake slots c = 0) -> registered c = false ->
    (forall slots, 0 <= awake slots c'') -> registered c'' = false -> (forall slots, ~ blocked slots c'') ->
    awaited_upto l e (<[i := c'']> ts)).
  { intros c'' _ H1 H2 H3 H4 H5 slots Hs. eapply awaited_set; [auto|by apply Ha|done|congruence|done|by intros ?%H5|].
    right. rewrite H1. specialize (H3 slots). lia. }
  destruct c as [t|second t| | | |n t], s as [a| |]; simpl in Hn; simplify_eq.
  - destruct (Adaptive.next adjust l t a) as [[t' l'']|] eqn:En; simplify_eq.
    split_and!; [by eapply next_ceiling|unfold resume; by case_match|]. by eapply awaited_plain.
  - destruct t; simplify_eq. split_and!; [done|done|]. apply Hidle; done || (intros; simpl; lia) || by intros ? [].
  - destruct a; simplify_eq. destruct (go adjust l t spurious) as [[t' l'']|] eqn:En; simplify_eq.
    split_and!; [by eapply (next_ceiling _ _ (Go spurious))|by eapply looked_ok|by eapply awaited_looking].
  - destruct a; simplify_eq. split_and!; [done..|]. intros slots Hs.
    eapply awaited_listen; [apply _|by apply Ha|..]; simpl; done || lia || by intros [].
  - destruct a; simplify_eq. destruct (listeners e !! i) as [[]|] eqn:El; simplify_eq.
    split_and!; [done..|]. intros slots Hs.
    eapply awaited_consume; [apply _|by apply Ha|..]; simpl; done || lia || by intros [].
  - split_and!; [done..|]. intros slots Hs.
    eapply awaited_drop; [apply _|by apply Ha|..]; simpl; done || lia || by intros [].
  - destruct a; simplify_eq. split_and!; [done..|]. intros slots Hs.
    eapply awaited_drop; [apply _|by apply Ha|..]; simpl; done || lia || by intros [].
  - destruct a; simplify_eq. split_and!; [done..|]. intros slots Hs.
    eapply awaited_notified; [auto|apply _|by apply Ha|done|done|done|]. right. simpl. lia.
Qed.

Lemma watchful_step w s : watchful w -> watchful (step adjust w s).
Proof.
  intros [Hs Hu Hc Ha].
  assert (Hs' : sound (accesses (step adjust w s))).
  { rewrite access_step. apply (run_invariant _ sound (fun _ => True)); [done|intros; by apply adaptive_sound_step|].
    by apply Forall_forall. }
  revert Hs'. unfold step. destruct (pool w !! s.1) as [c|] eqn:Hi; [|done].
  destruct (next adjust (shared w) (event w) s.1 c s.2) as [[[c' l'] e']|] eqn:Hn; [|done]. intros Hs'.
  assert (Hok : thread_ok (ceiling (shared w)) (core c)).
  { apply (Forall_lookup_1 _ _ s.1 _ (snd_threads _ Hs)). simpl. by rewrite list_lookup_fmap, Hi. }
  destruct (next_watchful _ _ _ _ _ _ _ _ _ (snd_bounded _ Hs) Hu Hok (Forall_lookup_1 _ _ _ _ Hc Hi) Ha Hi Hn)
    as (Hc1 & Hc2 & Hc3).
  constructor; simpl; [done|by rewrite Hc1|by apply Forall_insert|done].
Qed.

Lemma watchful_reachable l e n schedule :
  bounded l -> in_flight l = 0 -> ceiling l <= u32_max -> listeners e = ∅ ->
  watchful (run (step adjust) (initial l e n) schedule).
Proof.
  intros Hb Hz Hu He. apply (run_invariant _ watchful (fun _ => True));
    [|intros; by apply watchful_step|by apply Forall_forall].
  constructor; [by apply (sound_accesses adjust l e n [])|done|by apply Forall_replicate|].
  intros slots _. apply awaited_quiet; [done|by apply Forall_replicate].
Qed.

End Invariant.

(** ** Properties *)

(** C10: No wake-up is lost while the limit itself moves: whatever the strategy
    does to the limit and however requests finish, are cancelled or refunded,
    a waiter that sleeps without a notification means that every slot the
    limit leaves free is matched by a caller that will look before it sleeps
    or by a notification under way or about to be sent. When nothing is
    moving, a sleeping waiter means that the limit is used up. *)
Theorem adaptive_no_lost_wakeup {S E : Type} `{EventLaws E} (adjust : AdaptiveStrategy S) (s : S)
    (floor_ ceiling_ initial_ : Z) (e : E) (callers : nat) (schedule : list (nat * Step)) (i : nat) :
  Z.max ceiling_ floor_ <= u32_max -> listeners e = ∅ ->
  let w := run (step adjust) (initial (new s floor_ ceiling_ initial_) e callers) schedule in
  pool w !! i = Some Parked -> listeners (event w) !! i = Some false ->
  limit (shared w) - in_flight (shared w) <=
    sum_with (credit awake (limit (shared w))) (view (listeners (event w)) (pool w)) /\
  (Forall (fun c => credit awake (limit (shared w)) c = 0) (view (listeners (event w)) (pool w)) ->
   limit (shared w) <= sum_with (fun c => held (core c)) (pool w)).
Proof.
  intros Hu He w Hp Hn.
  assert (Hw : watchful w).
  { apply watchful_reachable; [apply bounded_new|done| |done]. simpl. mlia. }
  assert (Hfree : limit (shared w) - in_flight (shared w) <=
    sum_with (credit awake (limit (shared w))) (view (listeners (event w)) (pool w))).
  { eapply awaited_sleeper; [by apply (wt_awaited w Hw)|done..]. }
  split; [done|]. intros Hq. rewrite (sum_with_zero _ _ Hq) in Hfree.
  pose proof (snd_count _ (wt_sound w Hw)) as Hc. simpl in Hc. rewrite sum_with_fmap in Hc. lia.
Qed.

(** C32: The waiting loop is the limiter's own accesses and nothing more: every
    run of waiters, notifications and cancellations is a run of plain
    callers, so the count is exactly the slots held, a caller that is parked,
    registering, or was cancelled holds none, and the ceiling is never
    passed. *)
Theorem waiting_refines_accesses {S E : Type} `{Event E} (adjust : AdaptiveStrategy S) (s : S)
    (floor_ ceiling_ initial_ : Z) (e : E) (callers : nat) (schedule : list (nat * Step)) :
  let l := new s floor_ ceiling_ initial_ in
  let w := run (step adjust) (initial l e callers) schedule in
  (exists schedule', accesses w = run (Adaptive.step adjust) (Adaptive.initial l callers) schedule') /\
  in_flight (shared w) = sum_with (fun c => held (core c)) (pool w) /\
  in_flight (shared w) <= ceiling (shared w).
Proof.
  intros l w.
  assert (Hs : sound (accesses w)) by (apply sound_accesses; [apply bounded_new|done]).
  split; [|split].
  - destruct (access_run adjust (initial l e callers) schedule) as [schedule' Hr]. exists schedule'.
    unfold w. rewrite Hr. unfold accesses, initial. simpl. by rewrite fmap_replicate.
  - pose proof (snd_count _ Hs) as Hc. simpl in Hc. by rewrite sum_with_fmap in Hc.
  - apply (bd_in_flight _ (snd_bounded _ Hs)).
Qed.

(** A limit of one, held; two callers wait behind it, and the request
    succeeds with the limit saturated, which grows it by one. *)
Definition grow_and_wake : list (nat * Step) :=
  let go i n := replicate n (i, Act (Go false)) in
  ((0, Act Acquire) :: go 0 4 ++ (1, StartWait) :: go 1 5 ++ (2, StartWait) :: go 2 5 ++
   (0, Act (Report (Success (from_millis 1)))) :: go 0 7)%nat.

Lemma adaptive_no_lost_wakeup_witness :
  let sleep := take 17 grow_and_wake in
  let start := initial (new (Aimd_new 1 f64_one) 1 4 1) (∅ : gmap nat bool) 3 in
  let w := run (step aimd_adjust) start sleep in
  pool w = [Plain (Permitted 0); Parked; Parked] /\
  limit (shared w) <= sum_with (fun c => held (core c)) (pool w) /\
  (let w := run (step aimd_adjust) start grow_and_wake in
   limit (shared w) = 2 /\ listeners (event w) = {[1%nat := true; 2%nat := true]}).
Proof.
  split; [vm_compute; reflexivity|]. split; [|vm_compute; split; reflexivity].
  apply (adaptive_no_lost_wakeup aimd_adjust (Aimd_new 1 f64_one) 1 4 1 (∅ : gmap nat bool) 3
    (take 17 grow_and_wake) 1); [vm_compute; discriminate|reflexivity|vm_compute; reflexivity..|].
  vm_compute. repeat constructor.
Defined.
