(* ===== verification/Resume.v ===== *)
(** * Lifting a pause (src/src/rt.rs, src/src/hold.rs, the pause loop of src/src/wait.rs)

    [rt::resume] moves the epoch, lifts the pause and wakes the listeners;
    a waiter reads the epoch, sees the pause, and sleeps it out with
    [sleep_unless_resumed]. Each atomic access and each call on the event is
    one step of one thread, over one limiter's pause. *)

From stdpp Require Import gmap fin_maps.
From S2P Require Import Prelude Decisions Event.

(** ** The event, notified as a whole

    [notify(usize::MAX)]: every listener that is registered. *)

Class NotifyAll (E : Type) `{Event E} := {
  notify_all : E -> E;
  law_notify_all e : listeners (notify_all e) = (fun _ => true) <$> listeners e }.

(** ** Threads *)

(** [early] is a history variable: whether some resume was between its two
    accesses when the waiter read the epoch. *)
Inductive Thread :=
  | Out
  | Lifting                                (* [resume]: the epoch has moved *)
  | Notifying                              (* it lifted a pause that was set *)
  | Watching (epoch : Z) (early : bool)    (* has read the epoch; about to read the pause *)
  | Registering (epoch : Z) (early : bool) (* [sleep_unless_resumed]: about to listen *)
  | Comparing (epoch : Z) (early : bool)   (* about to read the epoch again *)
  | Parked (epoch : Z) (early : bool).     (* in [or(sleep, listener)] *)

(** [Timer]: the sleep is over, or the wait is dropped. *)
Inductive Action := StartResume | StartWait | SetPause | Timer | Go.

Definition is_lifting (t : Thread) : bool := match t with Lifting => true | _ => false end.

Section Resume.
Context {E : Type} `{NotifyAll E}.

Record world := mkWorld { epoch : Z; paused : bool; event : E; pool : list Thread }.

Definition set_thread (w : world) (i : nat) (t : Thread) : world :=
  mkWorld (epoch w) (paused w) (event w) (<[i := t]> (pool w)).
Definition set_event (w : world) (e : E) : world := mkWorld (epoch w) (paused w) e (pool w).
Definition set_pause (w : world) (p : bool) : world := mkWorld (epoch w) p (event w) (pool w).
(** [fetch_add] on a 64-bit word. *)
Definition bump (w : world) : world := mkWorld (wrap64 (epoch w + 1)) (paused w) (event w) (pool w).

(** [resume], access by access. *)
Definition resume_step (w : world) (i : nat) (t : Thread) : option world :=
  match t with
  | Out => Some (set_thread (bump w) i Lifting)
  | Lifting => Some (set_thread (set_pause w false) i (if paused w then Notifying else Out))
  | Notifying => Some (set_thread (set_event w (notify_all (event w))) i Out)
  | _ => None
  end.

(** [sleep_unless_resumed], after the epoch and the pause were read. *)
Definition sleep_step (w : world) (i : nat) (t : Thread) : option world :=
  match t with
  | Watching e early => Some (set_thread w i (if paused w then Registering e early else Out))
  | Registering e early => Some (set_thread (set_event w (listen i (event w))) i (Comparing e early))
  | Comparing e early =>
      if epoch w =? e then Some (set_thread w i (Parked e early))
      else Some (set_thread (set_event w (drop_listener i (event w))) i Out)
  | Parked _ _ =>
      match listeners (event w) !! i with
      | Some true => Some (set_thread (set_event w (consume i (event w))) i Out)
      | _ => None
      end
  | _ => None
  end.

Definition act (w : world) (i : nat) (a : Action) : option world :=
  match pool w !! i with
  | None => None
  | Some t =>
      match a, t with
      | StartResume, Out => resume_step w i Out
      | StartWait, Out => Some (set_thread w i (Watching (epoch w) (existsb is_lifting (pool w))))
      | SetPause, Out => Some (set_pause w true)
      | Timer, Parked _ _ => Some (set_thread (set_event w (drop_listener i (event w))) i Out)
      | Go, (Lifting | Notifying) => resume_step w i t
      | Go, (Watching _ _ | Registering _ _ | Comparing _ _ | Parked _ _) => sleep_step w i t
      | _, _ => None
      end
  end.

Definition step (w : world) (s : nat * Action) : world := default w (act w s.1 s.2).

Definition initial (e : E) (threads : nat) : world := mkWorld 0 false e (replicate threads Out).

End Resume.
Arguments world : clear implicits.

(** ** The invariant *)

Definition registered (t : Thread) : bool := match t with Comparing _ _ | Parked _ _ => true | _ => false end.

(** The epoch a waiter goes by, if it read it while no resume was half done. *)
Definition guards (t : Thread) : option Z :=
  match t with Watching e false | Registering e false | Comparing e false | Parked e false => Some e | _ => None end.

Section Invariant.
Context {E : Type} `{EventLaws E} `{!NotifyAll E}.
Implicit Types (w : world E) (ts : list Thread).

(** While the epoch is the one it read, no resume is half done; and from then
    on the pause it saw is set, its lifter is about to notify, or it knows. *)
Definition watched (ep : Z) (p : bool) (ls : gmap nat bool) (ts : list Thread) (i : nat) (t : Thread) : Prop :=
  match guards t with
  | Some e => e <= ep /\ (ep = e -> Lifting ∉ ts) /\
      match t with
      | Registering _ _ | Comparing _ _ => p = true \/ ep <> e
      | Parked _ _ => p = true \/ Notifying ∈ ts \/ ls !! i = Some true
      | _ => True
      end
  | None => True
  end.

Record sound (n : Z) w : Prop := mkSound {
  snd_epoch : 0 <= epoch w <= n;
  snd_listening : listening registered (listeners (event w)) (pool w);
  snd_watched i t : pool w !! i = Some t -> watched (epoch w) (paused w) (listeners (event w)) (pool w) i t }.

(** What the listeners do around one thread. *)
Lemma listening_set ls ls' ts i t t' :
  listening registered ls ts -> ts !! i = Some t -> (is_Some (ls' !! i) <-> registered t' = true) ->
  (forall k, k <> i -> is_Some (ls' !! k) <-> is_Some (ls !! k)) -> listening registered ls' (<[i := t']> ts).
Proof.
  intros Hl Hi Hr Hne k. destruct (decide (k = i)) as [->|Hk].
  - rewrite Hr, list_lookup_insert_eq by by eapply lookup_lt_Some. split; [eauto|]. by intros (x & [= <-] & Hx).
  - by rewrite Hne, (Hl k), list_lookup_insert_ne.
Qed.

Lemma elem_insert ts i t t' x : ts !! i = Some t -> x ∈ <[i := t']> ts -> x = t' \/ x ∈ ts.
Proof.
  intros Hi (k & Hk)%list_elem_of_lookup. destruct (decide (k = i)) as [->|Hne].
  - rewrite list_lookup_insert_eq in Hk by by eapply lookup_lt_Some. left. by injection Hk as <-.
  - rewrite list_lookup_insert_ne in Hk by done. right. by eapply list_elem_of_lookup_2.
Qed.

Lemma elem_insert_keep ts i t t' x : ts !! i = Some t -> x ∈ ts -> x <> t -> x ∈ <[i := t']> ts.
Proof.
  intros Hi (k & Hk)%list_elem_of_lookup Hne. apply list_elem_of_lookup. exists k.
  rewrite list_lookup_insert_ne; [done|]. intros <-. congruence.
Qed.

(** A waiter that another thread's step leaves alone. *)
Lemma watched_other ep p p' ls ls' ts i t t' k u :
  watched ep p ls ts k u -> ts !! i = Some t -> t <> Lifting -> t <> Notifying -> t' <> Lifting ->
  (p = true -> p' = true) -> (ls !! k = Some true -> ls' !! k = Some true) ->
  watched ep p' ls' (<[i := t']> ts) k u.
Proof.
  unfold watched. intros Hw Hi Hl Hn Hl' Hp Hk. destruct (guards u) as [e|] eqn:Eg; [|done].
  destruct Hw as (He & Hlift & Hu). split; [done|]. split.
  - intros E0 [<-|Hin]%(elem_insert _ _ _ _ _ Hi); [done|]. by apply Hlift.
  - destruct u; try done; [destruct Hu; auto..|]. destruct Hu as [Hu|[Hu|Hu]]; [auto| |auto].
    right. left. by apply (elem_insert_keep _ _ t).
Qed.

Lemma passes_true ls ls' k : passes_on ls ls' -> ls !! k = Some true -> ls' !! k = Some true.
Proof.
  intros [(j & Hj & ->)|[_ ->]] Hk; [|done]. destruct (decide (j = k)) as [->|]; [apply lookup_insert_eq|by rewrite lookup_insert_ne].
Qed.

(** Dropping or consuming its own listener. *)
Lemma gone_listener ls e e' i : listeners e = ls -> is_Some (ls !! i) ->
  e' = consume i e /\ ls !! i = Some true \/ e' = drop_listener i e ->
  (forall k, k <> i -> is_Some (listeners e' !! k) <-> is_Some (ls !! k)) /\ listeners e' !! i = None /\
  (forall k, k <> i -> ls !! k = Some true -> listeners e' !! k = Some true).
Proof.
  intros <- Hs Hc.
  assert (Hdel : (forall k, k <> i -> is_Some (delete i (listeners e) !! k) <-> is_Some (listeners e !! k)) /\
    delete i (listeners e) !! i = None /\
    (forall k, k <> i -> listeners e !! k = Some true -> delete i (listeners e) !! k = Some true)).
  { split_and!; [|apply lookup_delete_eq|]; intros k Hk; by rewrite lookup_delete_ne. }
  destruct Hc as [[-> Ht]| ->]; [by rewrite law_consume|]. destruct Hs as [[] Hb]; [|by rewrite law_drop_idle].
  pose proof (law_drop_notified i e Hb) as Hp. destruct Hdel as (H1 & H2 & H3). split_and!.
  - intros k Hk. by rewrite (passes_on_domain _ _ _ Hp), H1.
  - apply eq_None_not_Some. rewrite (passes_on_domain _ _ _ Hp), H2. by intros [].
  - intros k Hk Ht. eapply passes_true; [exact Hp|]. by apply H3.
Qed.

(** A waiter's own step, or one that changes no waiter. *)
Lemma sound_own n w i t t' p' e' : sound n w -> pool w !! i = Some t ->
  t <> Lifting -> t <> Notifying -> t' <> Lifting -> (paused w = true -> p' = true) ->
  (is_Some (listeners e' !! i) <-> registered t' = true) ->
  (forall k, k <> i -> is_Some (listeners e' !! k) <-> is_Some (listeners (event w) !! k)) ->
  (forall k, k <> i -> listeners (event w) !! k = Some true -> listeners e' !! k = Some true) ->
  watched (epoch w) p' (listeners e') (<[i := t']> (pool w)) i t' ->
  sound n (mkWorld (epoch w) p' e' (<[i := t']> (pool w))).
Proof.
  intros [He Hl Hw] Hi Ht Htn Ht' Hp Hr Hne Htrue Hown. constructor; simpl; [done|by eapply listening_set|].
  intros k u Hk. destruct (decide (k = i)) as [->|Hki].
  - rewrite list_lookup_insert_eq in Hk by by eapply lookup_lt_Some. by injection Hk as <-.
  - rewrite list_lookup_insert_ne in Hk by done. eapply watched_other; eauto.
Qed.

Lemma all_notified e k : is_Some (listeners e !! k) -> listeners (notify_all e) !! k = Some true.
Proof. intros [b Hb]. by rewrite law_notify_all, lookup_fmap, Hb. Qed.

Lemma all_domain e k : is_Some (listeners (notify_all e) !! k) <-> is_Some (listeners e !! k).
Proof. by rewrite law_notify_all, lookup_fmap, fmap_is_Some. Qed.

(** *** The accesses of a resume *)

Lemma sound_resume n w i t w' : sound n w -> n < u64_max -> pool w !! i = Some t -> resume_step w i t = Some w' -> sound (n + 1) w'.
Proof.
  intros [He Hl Hw] Hn Hi Hs. destruct t; simpl in Hs; simplify_eq.
  - assert (Hb : wrap64 (epoch w + 1) = epoch w + 1) by (apply wrap64_small; unfold is_u64; lia).
    constructor; simpl; [rewrite Hb; lia|eapply listening_set; [done|done| |done]; by rewrite (Hl i), Hi; split; [intros (x & [= <-] & ?)|]|].
    intros k u Hk. destruct (decide (k = i)) as [->|Hki].
    { rewrite list_lookup_insert_eq in Hk by by eapply lookup_lt_Some. by injection Hk as <-. }
    rewrite list_lookup_insert_ne in Hk by done. specialize (Hw k u Hk). unfold watched in *. rewrite Hb.
    destruct (guards u) as [e|]; [|done]. destruct Hw as (Hle & _ & Hu). split; [lia|]. split; [intros; lia|].
    destruct u; try done; [right; lia..|]. destruct Hu as [Hu|[Hu|Hu]]; [auto| |auto].
    right. left. by apply (elem_insert_keep _ _ Out).
  - assert (Hin : Lifting ∈ pool w) by by eapply list_elem_of_lookup_2.
    constructor; simpl; [lia|eapply listening_set; [done|done| |done];
      rewrite (Hl i), Hi; split; [intros (x & [= <-] & ?); done|by destruct (paused w)]|].
    intros k u Hk. destruct (decide (k = i)) as [->|Hki].
    { rewrite list_lookup_insert_eq in Hk by by eapply lookup_lt_Some. injection Hk as <-. by destruct (paused w). }
    rewrite list_lookup_insert_ne in Hk by done. specialize (Hw k u Hk). unfold watched in *.
    destruct (guards u) as [e|]; [|done]. destruct Hw as (Hle & Hno & Hu).
    assert (Hne : epoch w <> e) by (intros Heq; by apply Hno). split; [lia|]. split; [done|].
    destruct u; try done; [by right|by right|]. right. destruct Hu as [Hu|[Hu|Hu]]; [left|left|by right].
    + rewrite Hu. apply list_elem_of_lookup. exists i. apply list_lookup_insert_eq. by eapply lookup_lt_Some.
    + by apply (elem_insert_keep _ _ Lifting).
  - constructor; simpl; [lia|eapply listening_set; [done|done| |intros; apply all_domain]|].
    { rewrite all_domain, (Hl i), Hi. split; [intros (x & [= <-] & ?); done|done]. }
    intros k u Hk. destruct (decide (k = i)) as [->|Hki].
    { rewrite list_lookup_insert_eq in Hk by by eapply lookup_lt_Some. by injection Hk as <-. }
    rewrite list_lookup_insert_ne in Hk by done. pose proof (Hw k u Hk) as Hwk. unfold watched in *.
    destruct (guards u) as [e|]; [|done]. destruct Hwk as (Hle & Hno & Hu). split; [done|]. split.
    { intros Heq [?|Hin]%(elem_insert _ _ _ _ _ Hi); [done|]. by apply Hno. }
    destruct u; try done. right. right. apply all_notified, Hl. by eexists.
Qed.

(** *** The accesses of a waiter *)

Lemma sound_sleep n w i t w' : sound n w -> pool w !! i = Some t -> sleep_step w i t = Some w' -> sound n w'.
Proof.
  intros Hs Hi Hst. pose proof Hs as [He Hl Hw]. pose proof (Hw i t Hi) as Hown.
  assert (Hreg : is_Some (listeners (event w) !! i) <-> registered t = true).
  { rewrite (Hl i), Hi. split; [by intros (x & [= <-] & ?)|eauto]. }
  destruct t as [| | |e early|e early|e early|e early]; simpl in Hst; simplify_eq.
  - apply (sound_own n w i _ _ _ _ Hs Hi); try done.
    + by destruct (paused w).
    + rewrite Hreg. by destruct (paused w).
    + unfold watched in *. destruct (paused w) eqn:Ep; [|done]. simpl. destruct early; [done|]. simpl in Hown.
      destruct Hown as (Hle & Hno & _). split; [done|]. split; [|by left].
      intros Heq [?|Hin]%(elem_insert _ _ _ _ _ Hi); [done|]. by apply Hno.
  - pose proof (law_listen i (event w)) as Hlis. assert (Hnone : listeners (event w) !! i = None).
    { apply eq_None_not_Some. rewrite Hreg. done. }
    specialize (Hlis Hnone). apply (sound_own n w i _ _ _ _ Hs Hi); try done; cbn [set_event event]; rewrite ?Hlis.
    + rewrite lookup_insert_eq. split; eauto.
    + intros k Hk. by rewrite lookup_insert_ne.
    + intros k Hk. by rewrite lookup_insert_ne.
    + unfold watched in *. simpl in *. destruct early; [done|]. destruct Hown as (Hle & Hno & Hu). split; [done|]. split; [|done].
      intros Heq [?|Hin]%(elem_insert _ _ _ _ _ Hi); [done|]. by apply Hno.
  - destruct (epoch w =? e) eqn:Eeq; simplify_eq.
    + apply Z.eqb_eq in Eeq. apply (sound_own n w i _ _ _ _ Hs Hi); try done.
      unfold watched in *. simpl in *. destruct early; [done|]. destruct Hown as (Hle & Hno & Hu). split; [done|]. split.
      * intros Heq [?|Hin]%(elem_insert _ _ _ _ _ Hi); [done|]. by apply Hno.
      * destruct Hu as [Hu|Hu]; [by left|done].
    + destruct (gone_listener _ (event w) _ i eq_refl (proj2 Hreg eq_refl) (or_intror eq_refl)) as (H1 & H2 & H3).
      apply (sound_own n w i _ _ _ _ Hs Hi); try done. cbn [set_event event]. rewrite H2. split; [by intros []|done].
  - destruct (listeners (event w) !! i) as [[]|] eqn:Eb; simplify_eq.
    destruct (gone_listener _ (event w) _ i eq_refl (ltac:(rewrite Eb; eauto)) (or_introl (conj eq_refl Eb))) as (H1 & H2 & H3).
    apply (sound_own n w i _ _ _ _ Hs Hi); try done. cbn [set_event event]. rewrite H2. split; [by intros []|done].
Qed.

Lemma existsb_lifting ts : existsb is_lifting ts = false -> Lifting ∉ ts.
Proof.
  intros Hf Hin. assert (existsb is_lifting ts = true); [|congruence]. apply existsb_exists. exists Lifting.
  split; [by apply list_elem_of_In|done].
Qed.

Lemma resume_sound_step n w s : sound n w -> n < u64_max -> sound (n + 1) (step w s).
Proof.
  intros Hs Hn. assert (Hlater : forall w, sound n w -> sound (n + 1) w) by (intros ? []; constructor; [lia|done..]).
  destruct s as [i a]. unfold step, act. simpl. destruct (pool w !! i) as [t|] eqn:Hi; [|by apply Hlater].
  assert (Hreg : is_Some (listeners (event w) !! i) <-> registered t = true).
  { rewrite (snd_listening _ _ Hs i), Hi. split; [by intros (x & [= <-] & ?)|eauto]. }
  destruct a; destruct t as [| | |e early|e early|e early|e early]; try (by apply Hlater);
    try (by eapply sound_resume; [exact Hs|exact Hn|exact Hi|reflexivity]);
    try (destruct (sleep_step w i _) as [w'|] eqn:Hst; [by eapply Hlater, sound_sleep|by apply Hlater]).
  - apply Hlater, (sound_own n w i Out); try done. unfold watched. simpl.
    destruct (existsb is_lifting (pool w)) eqn:El; [done|]. split; [lia|]. split; [|done].
    intros _ [?|Hin]%(elem_insert _ _ _ _ _ Hi); [done|]. by eapply existsb_lifting.
  - apply Hlater. unfold set_pause. rewrite <- (list_insert_id (pool w) i Out) by done. by apply (sound_own n w i Out).
  - apply Hlater. destruct (gone_listener _ (event w) _ i eq_refl (proj2 Hreg eq_refl) (or_intror eq_refl)) as (H1 & H2 & H3).
    apply (sound_own n w i _ _ _ _ Hs Hi); try done. cbn [set_event event]. rewrite H2. split; [by intros []|done].
Qed.

Lemma resume_sound_run e threads schedule : listeners e = ∅ -> Z.of_nat (length schedule) <= u64_max ->
  sound (Z.of_nat (length schedule)) (run step (initial e threads) schedule).
Proof.
  intros He. assert (Hinit : sound 0 (initial e threads)).
  { constructor; simpl; [lia| |].
    - intros i. rewrite He, lookup_empty. split; [by intros []|]. intros (t & Ht & Hr).
      apply lookup_replicate in Ht as [-> _]. done.
    - intros i t [-> _]%lookup_replicate. done. }
  change (Z.of_nat (length schedule)) with (0 + Z.of_nat (length schedule)).
  revert Hinit. generalize (initial e threads) 0. induction schedule as [|s schedule IH]; intros w n Hs Hn.
  { by rewrite Z.add_0_r. }
  rewrite run_cons. cbn [length] in *. replace (n + Z.of_nat (S (length schedule))) with ((n + 1) + Z.of_nat (length schedule)) by lia.
  apply IH; [|lia]. apply resume_sound_step; [done|lia].
Qed.

End Invariant.

(** ** An event to run on *)

#[export] Instance map_notify_all : NotifyAll (gmap nat bool) := { notify_all ls := (fun _ => true) <$> ls; law_notify_all _ := eq_refl }.

(** ** Properties *)

(** C16: A resume wakes every waiter it should, under every interleaving of the
    accesses of any number of waiters and resumes: a waiter asleep on a pause
    that is no longer set, and that read the epoch while no resume was half
    done, has been notified, or the resume that lifted the pause is about to
    notify it; and once notified its next step wakes it. The bound on the run
    keeps the 64-bit epoch from wrapping. *)
Theorem resume_wakes_sleepers {E : Type} `{EventLaws E} `{!NotifyAll E} (e : E) (threads : nat)
    (schedule : list (nat * Action)) (i : nat) (read : Z) :
  listeners e = ∅ -> Z.of_nat (length schedule) <= u64_max ->
  let w := run step (initial e threads) schedule in
  pool w !! i = Some (Parked read false) -> paused w = false ->
  (exists j, pool w !! j = Some Notifying /\ listeners (event (step w (j, Go))) !! i = Some true) \/
  (listeners (event w) !! i = Some true /\ pool (step w (i, Go)) !! i = Some Out).
Proof.
  intros He Hlen w Hi Hp. destruct (resume_sound_run e threads schedule He Hlen) as [_ Hl Hw]. fold w in Hl, Hw.
  specialize (Hw i _ Hi). unfold watched in Hw. simpl in Hw. rewrite Hp in Hw.
  destruct Hw as (_ & _ & [?|[Hn|Ht]]); [done|left|right].
  - apply list_elem_of_lookup in Hn as [j Hj]. exists j. split; [done|].
    unfold step, act. simpl. rewrite Hj. simpl. apply all_notified, Hl. by eexists.
  - split; [done|]. unfold step, act. simpl. rewrite Hi. simpl. rewrite Ht. simpl.
    apply list_lookup_insert_eq. by eapply lookup_lt_Some.
Qed.

(** The waiter listens before the resume begins. *)
Definition woken_run : list (nat * Action) :=
  [(2, SetPause); (0, StartWait); (0, Go); (0, Go); (0, Go); (1, StartResume); (1, Go)]%nat.

Lemma resume_wakes_sleepers_witness :
  let w := run step (initial (∅ : gmap nat bool) 3) woken_run in
  pool w = [Parked 0 false; Notifying; Out] /\ paused w = false /\
  exists j, pool w !! j = Some Notifying /\ listeners (event (step w (j, Go))) !! 0%nat = Some true.
Proof.
  split; [reflexivity|]. split; [reflexivity|].
  destruct (resume_wakes_sleepers (H := map_event) (∅ : gmap nat bool) 3 woken_run 0 0 ltac:(reflexivity) ltac:(vm_compute; congruence) ltac:(reflexivity) ltac:(reflexivity))
    as [Hn|[Ht _]]; [exact Hn|exfalso; vm_compute in Ht; discriminate].
Defined.

(** The resume moves the epoch, the waiter reads it and sees the pause still
    set, and the resume lifts the pause and notifies before the waiter
    listens: it compares the epoch with itself. *)
Definition early_run : list (nat * Action) :=
  [(2, SetPause); (1, StartResume); (0, StartWait); (0, Go); (1, Go); (1, Go); (0, Go); (0, Go)]%nat.

(** A waiter that reads the epoch between the two accesses of a resume
    sleeps through it: the pause is lifted, every resume is over, and nothing
    but its own timer will wake it, though the epoch was moved before the
    pause was lifted. *)
Theorem early_epoch_sleeps_through_resume :
  let w := run step (initial (∅ : gmap nat bool) 3) early_run in
  pool w = [Parked 1 true; Out; Out] /\ paused w = false /\ epoch w = 1 /\
  listeners (event w) !! 0%nat = Some false /\ act w 0 Go = None.
Proof. vm_compute. done. Qed.
