(* ===== verification/Backoff.v ===== *)
(** * Backoff policies (src/src/backoff.rs)

    The delay curves, the jitter, and the SplitMix64 generator behind it, on
    64-bit words with their wrap-around. The entropy a fresh iterator is
    seeded with is an argument. *)

From Stdlib Require Import Floats.SpecFloat.
From S2P Require Import Prelude Float64.

Definition DEFAULT_MAX : Duration := from_secs 30.
Definition DEFAULT_BASE : Duration := from_millis 100.
Definition DEFAULT_FACTOR : f64 := f64_of_Z 2.

Inductive Jitter := NoJitter | Full | Equal | Decorrelated.
Inductive Kind := Constant | Linear | Exponential.

Record Backoff := mkBackoff {
  kind : Kind;
  base : Duration;
  factor : f64;
  increment : Duration;
  max : Duration;
  jitter : Jitter;
  seed : Z }.

Definition constant (delay : Duration) : Backoff :=
  mkBackoff Constant delay DEFAULT_FACTOR DURATION_ZERO delay NoJitter 0.
Definition linear (initial increment : Duration) : Backoff :=
  mkBackoff Linear initial DEFAULT_FACTOR increment DEFAULT_MAX NoJitter 0.
Definition exponential (initial : Duration) (factor : f64) : Backoff :=
  mkBackoff Exponential initial factor DURATION_ZERO DEFAULT_MAX NoJitter 0.

Definition with_max (b : Backoff) (m : Duration) : Backoff :=
  mkBackoff (kind b) (base b) (factor b) (increment b) m (jitter b) (seed b).
Definition with_jitter (b : Backoff) (j : Jitter) : Backoff :=
  mkBackoff (kind b) (base b) (factor b) (increment b) (max b) j (seed b).
Definition with_seed (b : Backoff) (s : Z) : Backoff :=
  mkBackoff (kind b) (base b) (factor b) (increment b) (max b) (jitter b) s.

Definition default_backoff : Backoff :=
  with_jitter (with_max (exponential DEFAULT_BASE DEFAULT_FACTOR) DEFAULT_MAX) Decorrelated.

Definition dur_to_nanos (d : Duration) : Z := to_u64_or_max (as_nanos d).

(** ** The generator *)

Definition Rng : Type := Z.

(** [wrapping_mul] and [wrapping_add] on [u64]. *)
Definition wmul (x y : Z) : Z := wrap64 (x * y).
Definition wadd (x y : Z) : Z := wrap64 (x + y).

Definition mix (z : Z) : Z :=
  let z := wmul (Z.lxor z (Z.shiftr z 30)) 0xBF58476D1CE4E5B9 in
  let z := wmul (Z.lxor z (Z.shiftr z 27)) 0x94D049BB133111EB in
  Z.lxor z (Z.shiftr z 31).

Definition next_u64 (r : Rng) : Z * Rng :=
  let r := wadd r 0x9E3779B97F4A7C15 in
  let z := wmul (Z.lxor r (Z.shiftr r 30)) 0xBF58476D1CE4E5B9 in
  let z := wmul (Z.lxor z (Z.shiftr z 27)) 0x94D049BB133111EB in
  (Z.lxor z (Z.shiftr z 31), r).

Definition range (r : Rng) (lo hi : Z) : Z * Rng :=
  if hi <=? lo then (lo, r)
  else
    match checked_add u64_max (hi - lo) 1 with
    | Some span => let '(n, r) := next_u64 r in (lo + n mod span, r)
    | None => next_u64 r
    end.

(** [seed.rotate_left(32)] *)
Definition rotate_left_32 (x : Z) : Z := Z.lor (wrap64 (Z.shiftl x 32)) (Z.shiftr x 32).

Definition entropy_seed (nanos counter : Z) : Z :=
  mix (Z.lxor nanos (wmul counter 0x9E3779B97F4A7C15)).

(** ** The iterator *)

Record BackoffIter := mkIter {
  policy : Backoff;
  attempt : Z;
  previous : Duration;
  rng : Rng }.

Definition iter_seeded (b : Backoff) (s : Z) : BackoffIter := mkIter b 0 (base b) s.

Definition iter (b : Backoff) (entropy : Z) : BackoffIter :=
  iter_seeded b (mix (Z.lxor entropy (rotate_left_32 (seed b)))).

(** [for _ in 0..n { scaled *= factor }] *)
Fixpoint scale (factor : f64) (n : nat) (scaled : f64) : f64 :=
  match n with
  | O => scaled
  | S n => scale factor n (f64_mul scaled factor)
  end.

Definition raw_nanos (b : Backoff) (attempt : Z) : Z :=
  let base := dur_to_nanos (base b) in
  match kind b with
  | Constant => base
  | Linear => sat_add u64_max base (sat_mul u64_max (dur_to_nanos (increment b)) attempt)
  | Exponential =>
      let scaled := scale (factor b) (Z.to_nat (Z.min attempt 64)) (f64_of_Z base) in
      if f64_is_finite scaled && f64_le f64_zero scaled && f64_lt scaled (f64_of_Z u64_max)
      then f64_to_uint u64_max scaled else u64_max
  end.

Definition decorrelated (it : BackoffIter) (max : Z) : Z * BackoffIter :=
  let base := dur_to_nanos (base (policy it)) in
  let prev := dur_to_nanos (previous it) in
  let hi := Z.min (Z.max (sat_mul u64_max prev 3) base) max in
  let lo := Z.min base hi in
  let '(chosen, r) := range (rng it) lo hi in
  (chosen, mkIter (policy it) (attempt it) (from_nanos (Z.max chosen base)) r).

Definition with_rng (it : BackoffIter) (r : Rng) : BackoffIter :=
  mkIter (policy it) (attempt it) (previous it) r.

Definition next_nanos (it : BackoffIter) : Z * BackoffIter :=
  let max := dur_to_nanos (max (policy it)) in
  let capped := Z.min (raw_nanos (policy it) (attempt it)) max in
  match jitter (policy it) with
  | Decorrelated => decorrelated it max
  | Full => let '(n, r) := range (rng it) 0 capped in (n, with_rng it r)
  | Equal =>
      let half := capped / 2 in
      let '(n, r) := range (rng it) 0 (capped - half) in (half + n, with_rng it r)
  | NoJitter => (capped, it)
  end.

Definition next_delay (it : BackoffIter) : Duration * BackoffIter :=
  let '(nanos, it) := next_nanos it in
  (from_nanos nanos, mkIter (policy it) (sat_add u32_max (attempt it) 1) (previous it) (rng it)).

(** The delays of the first [n] retries. *)
Fixpoint delays (n : nat) (it : BackoffIter) : list Duration :=
  match n with
  | O => []
  | S n => let '(d, it) := next_delay it in d :: delays n it
  end.

(** ** Words *)

Lemma wrap64_range x : is_u64 (wrap64 x).
Proof.
  unfold wrap64, is_u64. pose proof (Z.mod_pos_bound x (u64_max + 1)). unfold u64_max in *. lia.
Qed.

Lemma lxor_u64 x y : is_u64 x -> is_u64 y -> is_u64 (Z.lxor x y).
Proof.
  intros Hx Hy. unfold is_u64 in *. assert (0 <= Z.lxor x y) by (apply Z.lxor_nonneg; lia).
  split; [done|]. change u64_max with (2 ^ 64 - 1) in *.
  destruct (Z.eq_dec (Z.lxor x y) 0) as [->|Hne]; [lia|].
  assert (Z.log2 (Z.lxor x y) < 64); [|assert (Z.lxor x y < 2 ^ 64); [|lia]; apply Z.log2_lt_pow2; lia].
  pose proof (Z.log2_lxor x y ltac:(lia) ltac:(lia)) as Hl.
  assert (Hb : forall z, 0 <= z <= 2 ^ 64 - 1 -> Z.log2 z < 64).
  { intros z Hz. destruct (Z.eq_dec z 0) as [->|]; [done|]. apply Z.log2_lt_pow2; lia. }
  pose proof (Hb x Hx). pose proof (Hb y Hy). lia.
Qed.

Lemma shiftr_u64 x n : 0 <= n -> is_u64 x -> is_u64 (Z.shiftr x n).
Proof.
  unfold is_u64. intros Hn Hx. rewrite Z.shiftr_div_pow2 by done.
  assert (0 < 2 ^ n) by (apply Z.pow_pos_nonneg; lia).
  split; [apply Z.div_pos; lia|]. apply Z.div_le_upper_bound; nia.
Qed.

#[export] Hint Resolve wrap64_range lxor_u64 shiftr_u64 : throttle.

Lemma next_u64_range r : is_u64 (next_u64 r).1 /\ is_u64 (next_u64 r).2.
Proof.
  unfold next_u64, wadd, wmul. simpl. split; [|apply wrap64_range].
  apply lxor_u64; [apply wrap64_range|apply shiftr_u64; [lia|apply wrap64_range]].
Qed.

Lemma mix_range z : is_u64 (mix z).
Proof.
  unfold mix, wmul. apply lxor_u64; [apply wrap64_range|apply shiftr_u64; [lia|apply wrap64_range]].
Qed.

(** A draw is the generator's next word folded into the bounds, the full
    64-bit span included; degenerate bounds leave the generator alone. *)
Definition draw (r : Rng) (lo hi : Z) : Z * Rng :=
  (lo + (next_u64 r).1 mod (hi - lo + 1), if hi <=? lo then r else (next_u64 r).2).

#[global] Arguments draw : simpl never.

Lemma range_draw r lo hi : 0 <= lo -> lo <= hi -> hi <= u64_max -> range r lo hi = draw r lo hi.
Proof.
  intros Hlo Hle Hhi. unfold range, draw, checked_add. pose proof (next_u64_range r) as [Hn _].
  destruct (Z.leb_spec hi lo).
  - replace (hi - lo + 1) with 1 by lia. by rewrite Z.mod_1_r, Z.add_0_r.
  - destruct (Z.leb_spec (hi - lo + 1) u64_max).
    + by destruct (next_u64 r).
    + unfold is_u64 in Hn. rewrite Z.mod_small by lia. replace lo with 0 by lia.
      by destruct (next_u64 r).
Qed.

Lemma draw_bounds r lo hi : lo <= hi -> lo <= (draw r lo hi).1 <= hi.
Proof.
  intros Hle. unfold draw. cbn [fst]. pose proof (Z.mod_pos_bound (next_u64 r).1 (hi - lo + 1) ltac:(lia)). lia.
Qed.

(** ** Delays *)

Record backoff_ok (b : Backoff) : Prop := mkBackoffOk {
  base_ok : is_duration (base b);
  increment_ok : is_duration (increment b);
  max_ok : is_duration (max b) }.

Lemma nanos_range d : is_duration d -> is_u64 (dur_to_nanos d).
Proof. unfold dur_to_nanos. intros. apply to_u64_or_max_range. unfold as_nanos. mlia. Qed.

Lemma raw_nanos_range b n : backoff_ok b -> 0 <= n -> is_u64 (raw_nanos b n).
Proof.
  intros [Hb Hi _] Hn. pose proof (nanos_range _ Hb). pose proof (nanos_range _ Hi) as Hinc.
  unfold raw_nanos. destruct (kind b).
  - done.
  - unfold sat_add, sat_mul, is_u64 in *. assert (0 <= dur_to_nanos (increment b) * n) by nia. lia.
  - destruct (_ && _ && _); [apply f64_to_uint_range; mlia|mlia].
Qed.

(** The iterator after [k] delays. *)
Definition after (k : nat) (b : Backoff) (s : Z) : BackoffIter :=
  Nat.iter k (fun it => (next_delay it).2) (iter_seeded b s).

Definition iter_ok (b : Backoff) (k : nat) (it : BackoffIter) : Prop :=
  policy it = b /\ attempt it = Z.min (Z.of_nat k) u32_max /\ 0 <= previous it.

Lemma next_nanos_policy it :
  policy (next_nanos it).2 = policy it /\ attempt (next_nanos it).2 = attempt it.
Proof.
  unfold next_nanos, decorrelated. destruct (jitter (policy it)); try done;
    by destruct (range _ _ _).
Qed.

Lemma next_nanos_previous it :
  backoff_ok (policy it) -> 0 <= previous it -> 0 <= previous (next_nanos it).2.
Proof.
  intros [Hb _ _] Hp. unfold next_nanos, decorrelated.
  pose proof (nanos_range _ Hb) as Hbn. unfold is_u64 in Hbn.
  destruct (jitter (policy it)); try done; destruct (range _ _ _); simpl; unfold from_nanos; lia.
Qed.

Lemma iter_ok_next b k it :
  backoff_ok b -> iter_ok b k it -> iter_ok b (S k) (next_delay it).2.
Proof.
  intros Hb (Hp & Ha & Hprev). unfold next_delay.
  pose proof (next_nanos_policy it) as [Hp' Ha'].
  pose proof (next_nanos_previous it ltac:(by rewrite Hp) Hprev) as Hpv.
  destruct (next_nanos it) as [n it']. simpl in *. split_and!; simpl; [congruence|mlia|done].
Qed.

Lemma after_ok b s k : backoff_ok b -> iter_ok b k (after k b s).
Proof.
  intros Hb. induction k as [|k IH]; [|by apply iter_ok_next].
  split_and!; [done|done|]. apply Hb.
Qed.

(** ** Doubling in [f64] is exact *)

Fixpoint double_pos (k : nat) (m : positive) : positive :=
  match k with O => m | S k => xO (double_pos k m) end.

Lemma double_pos_Z k m : Zpos (double_pos k m) = Zpos m * 2 ^ Z.of_nat k.
Proof.
  induction k as [|k IH]; [simpl; lia|]. simpl double_pos.
  rewrite Pos2Z.inj_xO, IH, Nat2Z.inj_succ, Z.pow_succ_r by lia. lia.
Qed.

Lemma digits_double k m : Zpos (digits2_pos (double_pos k m)) = Zpos (digits2_pos m) + Z.of_nat k.
Proof. induction k as [|k IH]; [simpl; lia|]. simpl double_pos. simpl digits2_pos. lia. Qed.

Lemma digits_bounds m : 2 ^ (Zpos (digits2_pos m) - 1) <= Zpos m < 2 ^ Zpos (digits2_pos m).
Proof.
  induction m as [m IH|m IH|]; [| |simpl; lia]; simpl digits2_pos;
    rewrite !Pos2Z.inj_succ; set (d := Zpos (digits2_pos m)) in *;
    (assert (Hd : 1 <= d) by lia);
    replace (Z.succ d - 1) with (Z.succ (d - 1)) by lia;
    rewrite !Z.pow_succ_r by lia; lia.
Qed.

Lemma mul_double_pos k m : (m * double_pos k 1)%positive = double_pos k m.
Proof.
  apply Pos2Z.inj. rewrite Pos2Z.inj_mul, !double_pos_Z. lia.
Qed.

(** [x] is the positive integer [v], in normal form with exponent [e]. *)
Definition is_int (x : f64) (v e : Z) : Prop :=
  exists m, x = S754_finite false m e /\ Zpos (digits2_pos m) = 53 /\
            -52 <= e <= 900 /\ Zpos m * 2 ^ (e + 52) = v * 2 ^ 52.

Lemma two_float : f64_of_Z 2 = S754_finite false (double_pos 52 1) (-51).
Proof. reflexivity. Qed.

Lemma shr_double m : SpecFloat.iter_pos shr_1 52%positive (Build_shr_record (Zpos (double_pos 52 m)) false false) =
  Build_shr_record (Zpos m) false false.
Proof. reflexivity. Qed.

Definition exact_record (m : positive) : shr_record := Build_shr_record (Zpos m) false false.

(** The two normalisation steps of a rounding, on mantissas of 53 and of 105
    bits. *)
Lemma shr_fexp_normal m e :
  Zpos (digits2_pos m) = 53 -> -1074 <= e ->
  shr_fexp 53 1024 (Zpos m) e loc_Exact = (exact_record m, e).
Proof.
  intros Hd He. unfold shr_fexp, Zdigits2. rewrite Hd.
  replace (Z.sub (fexp 53 1024 (Z.add 53 e)) e) with 0; [done|].
  change (0 = Z.max (53 + e - 53) (-1074) - e). lia.
Qed.

Lemma shr_fexp_double m e :
  Zpos (digits2_pos m) = 53 -> -1074 <= e ->
  shr_fexp 53 1024 (Zpos (double_pos 52 m)) (e + -51) loc_Exact = (exact_record m, e + 1).
Proof.
  intros Hd He. unfold shr_fexp, Zdigits2. rewrite digits_double, Hd.
  replace (Z.sub (fexp 53 1024 (Z.add (53 + Z.of_nat 52) (e + -51))) (e + -51)) with 52.
  - unfold shr, shr_record_of_loc. rewrite shr_double. unfold exact_record.
    f_equal. change (Z.add ?a ?b) with (a + b). lia.
  - change (52 = Z.max (53 + Z.of_nat 52 + (e + -51) - 53) (-1074) - (e + -51)). lia.
Qed.

Lemma round_exact mx ex m e :
  shr_fexp 53 1024 mx ex loc_Exact = (exact_record m, e) ->
  Zpos (digits2_pos m) = 53 -> -1074 <= e <= 971 ->
  binary_round_aux 53 1024 false mx ex loc_Exact = S754_finite false m e.
Proof.
  intros H Hd He. unfold binary_round_aux. rewrite H. simpl.
  rewrite shr_fexp_normal by (done || lia). simpl.
  destruct (Z.leb_spec e (1024 - 53)); [done|lia].
Qed.

Lemma mul_two m e :
  Zpos (digits2_pos m) = 53 -> -1074 <= e < 971 ->
  f64_mul (S754_finite false m e) (f64_of_Z 2) = S754_finite false m (e + 1).
Proof.
  intros Hd He. rewrite two_float. unfold f64_mul, SFmul. rewrite mul_double_pos.
  apply round_exact; [|done|lia]. apply shr_fexp_double; [done|lia].
Qed.

Lemma iter_xO k m : Pos.iter xO m (Pos.of_succ_nat k) = double_pos (S k) m.
Proof.
  induction k as [|k IH]; [done|]. simpl Pos.of_succ_nat. by rewrite Pos.iter_succ, IH.
Qed.

Lemma shl_align_double m k :
  shl_align m 0 (- Z.of_nat k) = (double_pos k m, - Z.of_nat k).
Proof. destruct k as [|k]; [done|]. unfold shl_align. simpl. by rewrite iter_xO. Qed.

Lemma of_int b :
  0 < b < 2 ^ 53 -> exists e, e <= 0 /\ is_int (f64_of_Z b) b e.
Proof.
  intros Hb. destruct b as [|m|m]; try lia.
  pose proof (digits_bounds m) as Hd. set (d := Zpos (digits2_pos m)) in *.
  assert (Hd53 : 1 <= d <= 53).
  { split; [lia|]. assert (Hp : 2 ^ (d - 1) < 2 ^ 53) by lia.
    apply Z.pow_lt_mono_r_iff in Hp; lia. }
  set (k := Z.to_nat (53 - d)). assert (Hkd : - Z.of_nat k = d - 53) by lia.
  assert (Hk : Zpos (digits2_pos (double_pos k m)) = 53) by (rewrite digits_double; lia).
  exists (- Z.of_nat k). split; [lia|].
  exists (double_pos k m). split; [|split; [done|split; [lia|]]].
  - unfold f64_of_Z, binary_normalize, binary_round.
    replace (fexp 53 1024 (Z.add (Zpos (digits2_pos m)) 0)) with (- Z.of_nat k).
    + rewrite shl_align_double. apply round_exact; [|done|lia].
      apply shr_fexp_normal; [done|lia].
    + change (- Z.of_nat k = Z.max (d + 0 - 53) (-1074)). lia.
  - rewrite double_pos_Z, <- Z.mul_assoc, <- Z.pow_add_r by lia. do 2 f_equal. lia.
Qed.

Lemma double_int x v e :
  is_int x v e -> e < 900 -> is_int (f64_mul x (f64_of_Z 2)) (v * 2) (e + 1).
Proof.
  intros (m & -> & Hd & He & Hv) Hlt. exists m. split; [by apply mul_two; [|lia]|].
  split; [done|]. split; [lia|]. replace (e + 1 + 52) with (Z.succ (e + 52)) by lia.
  rewrite Z.pow_succ_r by lia. lia.
Qed.

Lemma scale_int n x v e :
  is_int x v e -> e + Z.of_nat n <= 900 ->
  is_int (scale (f64_of_Z 2) n x) (v * 2 ^ Z.of_nat n) (e + Z.of_nat n).
Proof.
  revert x v e. induction n as [|n IH]; intros x v e Hx He.
  { rewrite Z.mul_1_r, Z.add_0_r. exact Hx. }
  cbn [scale]. rewrite Nat2Z.inj_succ, Z.pow_succ_r by lia.
  replace (v * (2 * 2 ^ Z.of_nat n)) with (v * 2 * 2 ^ Z.of_nat n) by lia.
  replace (e + Z.succ (Z.of_nat n)) with (e + 1 + Z.of_nat n) by lia.
  apply IH; [|lia]. apply double_int; [done|lia].
Qed.

(** The comparison of the specification, with its cases read as integers. *)
Lemma spec_compare m n :
  CompareSpec (m = n) (Zpos m < Zpos n) (Zpos n < Zpos m) (PosDef.Pos.compare_cont Eq m n).
Proof.
  change (PosDef.Pos.compare_cont Eq m n) with (Pos.compare m n).
  destruct (Pos.compare_spec m n); by constructor.
Qed.

Lemma mantissa_lt m v :
  v = Zpos m * 4096 ->
  match PosDef.Pos.compare_cont Eq m 4503599627370496 with Lt => true | _ => false end = (v <? 2 ^ 64).
Proof.
  intros ->. replace (2 ^ 64) with (4503599627370496 * 4096) by reflexivity.
  destruct (spec_compare m 4503599627370496) as [E|E|E]; symmetry;
    [apply Z.ltb_ge|apply Z.ltb_lt|apply Z.ltb_ge]; lia.
Qed.

(** The checks of [raw_nanos] on an exact integer: it is kept below [2^64]. *)
Lemma int_lt_u64 x v e :
  is_int x v e -> f64_lt x (f64_of_Z u64_max) = (v <? 2 ^ 64).
Proof.
  intros (m & -> & Hd & He & Hv). pose proof (digits_bounds m) as Hb. rewrite Hd in Hb.
  change (f64_of_Z u64_max) with (S754_finite false 4503599627370496 12).
  unfold f64_lt, SFltb, SFcompare. rewrite Z.compare_antisym.
  assert (Hp : 0 < 2 ^ (e + 52)) by (apply Z.pow_pos_nonneg; lia).
  destruct (Z.compare_spec 12 e) as [<-|Hlt|Hlt]; simpl CompOpp; cbv iota.
  - apply mantissa_lt. rewrite Z.pow_add_r in Hv by lia. clear -Hv. nia.
  - symmetry. apply Z.ltb_ge. assert (2 ^ (13 + 52) <= 2 ^ (e + 52)) by (apply Z.pow_le_mono_r; lia).
    change (2 ^ 64) with (2 ^ 12 * 2 ^ 52). nia.
  - symmetry. apply Z.ltb_lt. assert (2 ^ (e + 52) <= 2 ^ (11 + 52)) by (apply Z.pow_le_mono_r; lia).
    change (2 ^ 64) with (2 ^ 12 * 2 ^ 52). nia.
Qed.

Lemma int_to_u64 x v e :
  is_int x v e -> f64_to_uint u64_max x = Z.min u64_max v.
Proof.
  intros (m & -> & Hd & He & Hv). unfold f64_to_uint, f64_trunc_Z. f_equal.
  destruct (Z.leb_spec 0 e).
  - rewrite Z.shiftl_mul_pow2 by done. rewrite Z.pow_add_r in Hv by lia. nia.
  - rewrite Z.shiftr_div_pow2 by lia.
    assert (Hm : Zpos m = v * 2 ^ (- e)).
    { assert (Hs : 2 ^ 52 = 2 ^ (e + 52) * 2 ^ (- e)) by (rewrite <- Z.pow_add_r by lia; f_equal; lia).
      rewrite Hs in Hv. assert (0 < 2 ^ (e + 52)) by (apply Z.pow_pos_nonneg; lia). nia. }
    rewrite Hm. apply Z.div_mul. apply Z.pow_nonzero; lia.
Qed.

Lemma scale_zero n : scale (f64_of_Z 2) n f64_zero = f64_zero.
Proof. induction n as [|n IH]; [done|exact IH]. Qed.

Lemma raw_exponential b n :
  kind b = Exponential -> factor b = f64_of_Z 2 -> 0 <= base b < 2 ^ 53 -> 0 <= n ->
  raw_nanos b n = Z.min u64_max (base b * 2 ^ n).
Proof.
  intros Hk Hf Hb Hn. unfold raw_nanos. rewrite Hk, Hf.
  assert (Hd : dur_to_nanos (base b) = base b) by (unfold dur_to_nanos, as_nanos; mlia).
  rewrite Hd. set (t := Z.to_nat (Z.min n 64)).
  destruct (Z.eq_dec (base b) 0) as [E|E].
  { rewrite E. change (f64_of_Z 0) with f64_zero. rewrite scale_zero. simpl. mlia. }
  destruct (of_int (base b) ltac:(lia)) as (e & He & Hi).
  pose proof (scale_int t _ _ _ Hi ltac:(lia)) as Hs. fold (base b) in Hs.
  set (x := scale _ t _) in *. rewrite (int_lt_u64 _ _ _ Hs), (int_to_u64 _ _ _ Hs).
  assert (Hfin : f64_is_finite x && f64_le f64_zero x = true) by (by destruct Hs as (m & -> & _)).
  rewrite Hfin. cbn [andb]. assert (Ht : Z.of_nat t = Z.min n 64) by lia. rewrite Ht.
  destruct (Z.le_gt_cases n 64) as [Hle|Hgt].
  - rewrite (Z.min_l n 64) by done. change (2 ^ 64) with (u64_max + 1). zcase; lia.
  - rewrite (Z.min_r n 64) by lia. assert (2 ^ 64 <= 2 ^ n) by (apply Z.pow_le_mono_r; lia).
    change (2 ^ 64) with (u64_max + 1) in *. assert (HU : 0 < u64_max) by done.
    assert (u64_max + 1 <= base b * (u64_max + 1)) by nia.
    assert (u64_max + 1 <= base b * 2 ^ n) by nia. zcase; lia.
Qed.

(** ** The policy a delay follows *)

(** The delay before jitter and cap at the [n]-th retry: the base; the base
    and [n] increments; or the base multiplied [n] times by the factor, at
    most 64 times and in [f64], then cut to whole nanoseconds. It never goes
    beyond 64 bits, and a product that is negative or no number is as long
    as can be. *)
Definition curve (b : Backoff) (n : Z) : Z :=
  let base := dur_to_nanos (base b) in
  match kind b with
  | Constant => base
  | Linear => Z.min (base + n * dur_to_nanos (increment b)) u64_max
  | Exponential =>
      let x := Nat.iter (Z.to_nat (Z.min n 64)) (fun x => f64_mul x (factor b)) (f64_of_Z base) in
      match x with
      | S754_zero _ => 0
      | S754_finite false m e =>
          if f64_lt x (f64_of_Z (2 ^ 64)) then Z.min (f64_trunc_Z m e) u64_max else u64_max
      | _ => u64_max
      end
  end.

(** The bounds of the delay that follows the delay [prev]. *)
Definition bounds (b : Backoff) (n prev : Z) : Z * Z :=
  let base := dur_to_nanos (base b) in
  let cap := dur_to_nanos (max b) in
  let capped := Z.min (curve b n) cap in
  match jitter b with
  | NoJitter => (capped, capped)
  | Full => (0, capped)
  | Equal => (capped / 2, capped)
  | Decorrelated => (Z.min base cap, Z.min (Z.max base (3 * prev)) cap)
  end.

Lemma scale_iter f n x : scale f n x = Nat.iter n (fun y => f64_mul y f) x.
Proof.
  revert x. induction n as [|n IH]; intros x; [done|]. simpl scale. rewrite IH.
  by rewrite Nat.iter_succ_r.
Qed.

Lemma raw_nanos_curve b n : backoff_ok b -> 0 <= n -> raw_nanos b n = curve b n.
Proof.
  intros [Hb Hi _] Hn. pose proof (nanos_range _ Hb) as Hbn. pose proof (nanos_range _ Hi) as Hin.
  unfold raw_nanos, curve, is_u64 in *. destruct (kind b); [done| |].
  - assert (0 <= n * dur_to_nanos (increment b)) by nia. unfold sat_add, sat_mul. lia.
  - rewrite scale_iter. set (x := Nat.iter _ _ _).
    change (f64_of_Z u64_max) with (f64_of_Z (2 ^ 64)).
    destruct x as [[]|[]| |[] m e]; try done.
    change (f64_is_finite (S754_finite false m e)) with true.
    change (f64_le f64_zero (S754_finite false m e)) with true. cbn [andb].
    destruct (f64_lt _ _); [|done]. unfold f64_to_uint. lia.
Qed.

Lemma curve_range b n : backoff_ok b -> 0 <= n -> is_u64 (curve b n).
Proof. intros Hb Hn. rewrite <- raw_nanos_curve by done. by apply raw_nanos_range. Qed.

Lemma bounds_ordered b n prev :
  backoff_ok b -> 0 <= n ->
  0 <= (bounds b n prev).1 <= (bounds b n prev).2 /\ (bounds b n prev).2 <= dur_to_nanos (max b).
Proof.
  intros Hb Hn. pose proof (curve_range b n Hb Hn) as Hc.
  pose proof (nanos_range _ (base_ok b Hb)). pose proof (nanos_range _ (max_ok b Hb)).
  unfold bounds, is_u64 in *. set (capped := Z.min (curve b n) _). assert (0 <= capped) by lia.
  destruct (jitter b); simpl; try lia.
  split; [|lia]. split; [apply Z.div_pos|apply Z.div_le_upper_bound]; lia.
Qed.

(** What one delay is and leaves behind, for an iterator that has given [k]. *)
Definition delay_ok (b : Backoff) (k : nat) (it : BackoffIter) : Prop :=
  let '(lo, hi) := bounds b (Z.min (Z.of_nat k) u32_max) (dur_to_nanos (previous it)) in
  let '(d, r) := draw (rng it) lo hi in
  (next_delay it).1 = d /\ rng (next_delay it).2 = r /\
  (jitter b = Decorrelated ->
     dur_to_nanos (previous (next_delay it).2) = Z.max d (dur_to_nanos (base b))).

Lemma draw_point r lo : draw r lo lo = (lo, r).
Proof. unfold draw. rewrite Z.leb_refl. f_equal. replace (lo - lo + 1) with 1 by lia. rewrite Z.mod_1_r. lia. Qed.

(** Half the range on top of its half. *)
Lemma draw_shift r lo hi : draw r lo hi = (lo + (draw r 0 (hi - lo)).1, (draw r 0 (hi - lo)).2).
Proof.
  unfold draw. simpl. replace (hi - lo - 0 + 1) with (hi - lo + 1) by lia. f_equal.
  repeat case_match; try done; lia.
Qed.

Lemma dur_to_nanos_u64 n : is_u64 n -> dur_to_nanos n = n.
Proof. intros H. unfold dur_to_nanos, as_nanos. mlia. Qed.

Lemma dur_to_nanos_nonneg d : 0 <= d -> 0 <= dur_to_nanos d <= u64_max.
Proof. intros H. unfold dur_to_nanos, to_u64_or_max, as_nanos. mlia. Qed.

Lemma next_delay_ok b k it : backoff_ok b -> iter_ok b k it -> delay_ok b k it.
Proof.
  intros Hb (Hp & Ha & Hprev). unfold delay_ok.
  pose proof (bounds_ordered b (Z.min (Z.of_nat k) u32_max) (dur_to_nanos (previous it)) Hb ltac:(mlia)) as [Ho Hm].
  pose proof (nanos_range _ (max_ok b Hb)) as Hcap. pose proof (nanos_range _ (base_ok b Hb)) as Hbn.
  pose proof (dur_to_nanos_nonneg _ Hprev) as Hpn. unfold is_u64 in *.
  unfold bounds in *. rewrite <- raw_nanos_curve in * by (done || mlia).
  unfold next_delay, next_nanos, decorrelated, from_nanos, with_rng. rewrite Hp, Ha.
  destruct (jitter b); simpl in Ho, Hm.
  - rewrite draw_point. by split_and!.
  - rewrite range_draw by lia. by split_and!.
  - rewrite range_draw by lia. rewrite (draw_shift _ (_ / 2)). by split_and!.
  - set (hi := Z.min (Z.max (sat_mul u64_max _ 3) _) _).
    assert (Hhi : hi = Z.min (Z.max (dur_to_nanos (base b)) (3 * dur_to_nanos (previous it))) (dur_to_nanos (max b)))
      by (subst hi; unfold sat_mul; lia).
    rewrite <- Hhi in *. replace (Z.min (dur_to_nanos (base b)) hi) with (Z.min (dur_to_nanos (base b)) (dur_to_nanos (max b))) by lia.
    rewrite range_draw by lia.
    pose proof (draw_bounds (rng it) _ hi (proj2 Ho)) as Hd.
    destruct (draw (rng it) _ hi) as [d r]. simpl in *. split_and!; [done|done|].
    intros _. apply dur_to_nanos_u64. unfold is_u64. lia.
Qed.

Lemma next_delay_capped b k it :
  backoff_ok b -> iter_ok b k it -> 0 <= (next_delay it).1 <= dur_to_nanos (max b).
Proof.
  intros Hb Hit. pose proof (next_delay_ok b k it Hb Hit) as Hd. unfold delay_ok in Hd.
  pose proof (bounds_ordered b (Z.min (Z.of_nat k) u32_max) (dur_to_nanos (previous it)) Hb ltac:(mlia)) as [Ho Hm].
  destruct (bounds _ _ _) as [lo hi]. simpl in Ho, Hm. pose proof (draw_bounds (rng it) lo hi ltac:(lia)) as Hr.
  destruct (draw _ lo hi) as [d r]. destruct Hd as [-> _]. simpl in Hr. lia.
Qed.

(** The delay before the [k]-th: its predecessor, no shorter than the base. *)
Lemma after_previous b s k :
  backoff_ok b -> jitter b = Decorrelated ->
  dur_to_nanos (previous (after k b s)) =
  match k with O => dur_to_nanos (base b) | S j => Z.max (next_delay (after j b s)).1 (dur_to_nanos (base b)) end.
Proof.
  intros Hb Hj. destruct k as [|j]; [done|].
  pose proof (next_delay_ok b j _ Hb (after_ok b s j Hb)) as Hd. unfold delay_ok in Hd.
  change (after (S j) b s) with (next_delay (after j b s)).2.
  destruct (bounds _ _ _) as [lo hi]. destruct (draw _ _ _) as [d r]. destruct Hd as (-> & _ & Hd). auto.
Qed.

Lemma bounds_previous b n p p' : jitter b <> Decorrelated -> bounds b n p = bounds b n p'.
Proof. unfold bounds. by destruct (jitter b). Qed.

(** ** Properties *)

(** C34: Every delay is the policy's, for every seed and every retry. Before
    jitter it is on the policy's curve (constant, growing by the increment,
    or multiplied by the factor, which for the factor two is exact doubling),
    cut off at the maximum; the jitter then draws it from its bounds: none
    leaves it, full takes anything from zero up to it, equal anything from
    its half up to it, and decorrelated anything from the base up to three
    times the delay before (the base, for the first), no more than the
    maximum. The draw is the generator's next word folded into the bounds,
    so no delay is ever longer than the maximum. *)
Theorem delay_within_policy (b : Backoff) (s : Z) (k : nat) :
  backoff_ok b ->
  let base := dur_to_nanos (base b) in
  let cap := dur_to_nanos (max b) in
  let n := Z.min (Z.of_nat k) u32_max in
  let capped := Z.min (curve b n) cap in
  let d j := (next_delay (after j b s)).1 in
  let prev := match k with O => base | S j => Z.max (d j) base end in
  let '(lo, hi) := match jitter b with
    | NoJitter => (capped, capped)
    | Full => (0, capped)
    | Equal => (capped / 2, capped)
    | Decorrelated => (Z.min base cap, Z.min (Z.max base (3 * prev)) cap)
    end in
  let '(word, r) := next_u64 (rng (after k b s)) in
  0 <= lo <= hi /\ hi <= cap /\
  d k = lo + word mod (hi - lo + 1) /\
  rng (after (S k) b s) = (if hi <=? lo then rng (after k b s) else r) /\
  (kind b = Exponential -> factor b = f64_of_Z 2 -> Backoff.base b < 2 ^ 53 ->
     curve b n = Z.min (Backoff.base b * 2 ^ n) u64_max).
Proof.
  intros Hb base0 cap n capped d prev.
  pose proof (next_delay_ok b k _ Hb (after_ok b s k Hb)) as Hd. unfold delay_ok in Hd. fold n in Hd.
  assert (Hn : 0 <= n) by (subst n; mlia).
  assert (E : bounds b n (dur_to_nanos (previous (after k b s))) = bounds b n prev).
  { destruct (jitter b) eqn:Hj; [by apply bounds_previous; rewrite Hj..|].
    by rewrite after_previous. }
  rewrite E in Hd. pose proof (bounds_ordered b n prev Hb Hn) as [Ho Hm].
  change (match jitter b with
    | NoJitter => (capped, capped) | Full => (0, capped) | Equal => (capped / 2, capped)
    | Decorrelated => (Z.min base0 cap, Z.min (Z.max base0 (3 * prev)) cap) end) with (bounds b n prev).
  destruct (bounds b n prev) as [lo hi]. unfold draw in Hd.
  destruct (next_u64 (rng (after k b s))) as [word r]. simpl in Ho, Hm, Hd.
  destruct Hd as (Hd & Hr & _). split_and!; try done; [lia..|].
  intros Hk Hf Hlt. rewrite <- raw_nanos_curve, raw_exponential by (done || (split; [apply Hb|done])). lia.
Qed.

Lemma delay_within_policy_witness :
  let d0 := (next_delay (after 0 default_backoff 42)).1 in
  let d1 := (next_delay (after 1 default_backoff 42)).1 in
  d1 = 100000000 + (next_u64 (rng (after 1 default_backoff 42))).1
         mod (Z.min (Z.max 100000000 (3 * Z.max d0 100000000)) 30000000000 - 100000000 + 1).
Proof.
  assert (Hb : backoff_ok default_backoff) by (constructor; vm_compute; split; congruence).
  pose proof (delay_within_policy default_backoff 42 1 Hb) as H.
  cbv zeta in H. destruct (next_u64 (rng (after 1 default_backoff 42))) as [word r].
  exact (proj1 (proj2 (proj2 H))).
Defined.

(** Exponential backoff with factor two is exact integer doubling: the [f64]
    loop of repeated multiplication loses nothing for any base below [2^53]
    nanoseconds, at any attempt, and the cap makes up for the overflow. *)
Theorem exponential_doubles (b : Backoff) (s : Z) (k : nat) :
  backoff_ok b -> kind b = Exponential -> factor b = DEFAULT_FACTOR -> jitter b = NoJitter ->
  base b < 2 ^ 53 -> Z.of_nat k <= u32_max ->
  (next_delay (after k b s)).1 = Z.min (base b * 2 ^ Z.of_nat k) (dur_to_nanos (max b)).
Proof.
  intros Hb Hkind Hf Hj Hlt Hk. pose proof (next_delay_ok b k _ Hb (after_ok b s k Hb)) as H.
  unfold delay_ok, bounds in H. rewrite Hj, draw_point in H. destruct H as [-> _].
  rewrite (Z.min_l (Z.of_nat k) u32_max) by done.
  rewrite <- raw_nanos_curve, raw_exponential by (done || lia || (split; [apply Hb|done])).
  pose proof (nanos_range _ (max_ok b Hb)) as Hm. unfold is_u64 in Hm. lia.
Qed.

Lemma exponential_doubles_witness :
  let b := with_max (exponential (from_millis 100) DEFAULT_FACTOR) (from_secs 10) in
  delays 8 (iter_seeded b 0) = map from_millis [100; 200; 400; 800; 1600; 3200; 6400; 10000] /\
  (next_delay (after 70 b 0)).1 = from_secs 10.
Proof.
  split; [vm_compute; reflexivity|].
  rewrite (exponential_doubles (with_max (exponential (from_millis 100) DEFAULT_FACTOR) (from_secs 10)) 0 70);
    [vm_compute; reflexivity|constructor; vm_compute; split; congruence|reflexivity..|vm_compute; congruence].
Defined.
