(* ===== verification/Bucket.v ===== *)
(** * The token bucket interface

    The token bucket is the third-party crate [better_bucket]; the sources
    only call it. Its operations are a class, what the sources rely on is a
    class of laws, and [Meter] is a concrete bucket that satisfies them, to
    run the models on. A clock reading is the time in nanoseconds. *)

From S2P Require Import Prelude.

Inductive BucketDecision :=
  | Allowed
  | Denied (retry_after : Duration)
  | Unknown.  (* the enum is non-exhaustive *)

Class Bucket (B : Type) := {
  bk_capacity : B -> Z;
  available_at : B -> Z -> Z;
  time_until_at : B -> Z -> Z -> option Duration;
  acquire_at : B -> Z -> Z -> BucketDecision * B;
  reserve_at : B -> Z -> Duration -> Z -> option Duration * B;
  bk_refund : B -> Z -> B;
  acquire_up_to_at : B -> Z -> Z -> Z * B }.

(** What the sources rely on: a cost above the capacity can never be granted;
    the wait of a cost is what a denial reports and what a reservation grants
    up to a bound; a denied call changes nothing; the balance decides what is
    granted at once. *)
Class BucketLaws (B : Type) `{Bucket B} : Prop := {
  law_never b cost now : time_until_at b cost now = None <-> bk_capacity b < cost;
  law_wait b cost now w : time_until_at b cost now = Some w -> 0 <= w;
  law_acquire b cost now :
    match time_until_at b cost now with
    | None => acquire_at b cost now = (Denied DURATION_MAX, b)
    | Some w => if decide (w = 0) then (acquire_at b cost now).1 = Allowed
                else acquire_at b cost now = (Denied w, b)
    end;
  law_reserve b cost max_wait now :
    match time_until_at b cost now with
    | Some w => if decide (w <= max_wait) then (reserve_at b cost max_wait now).1 = Some w
                else reserve_at b cost max_wait now = (None, b)
    | None => reserve_at b cost max_wait now = (None, b)
    end;
  law_available b cost now : 0 < cost <= bk_capacity b ->
    time_until_at b cost now = Some 0 <-> cost <= available_at b now;
  law_capacity b cost max_wait now :
    bk_capacity (acquire_at b cost now).2 = bk_capacity b /\
    bk_capacity (reserve_at b cost max_wait now).2 = bk_capacity b /\
    bk_capacity (bk_refund b cost) = bk_capacity b }.

(** [BucketConfig::new(capacity, amount, period, initial)] and the
    constructors; [None] stands for its error. *)
Class BucketConfig (B : Type) := {
  config_bucket : Z -> Z -> Duration -> Z -> Z -> option B;
  (** [Bucket::per_duration], [Bucket::per_second] *)
  per_duration_bucket : Z -> Duration -> Z -> B;
  per_second_bucket : Z -> Z -> B }.

(** ** A concrete bucket

    [credit] is the balance times the period, so that refilling [amount] per
    period is exact; it is negative while reservations are owed. *)

Record Meter := mkMeter {
  m_capacity : Z;
  m_amount : positive;
  m_period : positive;
  credit : Z;
  last : Z }.

Definition m_full (m : Meter) : Z := m_capacity m * Zpos (m_period m).

Definition credit_at (m : Meter) (now : Z) : Z :=
  Z.min (m_full m) (credit m + Z.max 0 (now - last m) * Zpos (m_amount m)).

(** Rounded up. *)
Definition div_up (a b : Z) : Z := - (- a / b).

Definition m_time_until (m : Meter) (cost now : Z) : option Duration :=
  if m_capacity m <? cost then None
  else Some (Z.max 0 (div_up (cost * Zpos (m_period m) - credit_at m now) (Zpos (m_amount m)))).

Definition m_take (m : Meter) (cost now : Z) : Meter :=
  mkMeter (m_capacity m) (m_amount m) (m_period m)
    (credit_at m now - cost * Zpos (m_period m)) (Z.max (last m) now).

#[export] Instance meter_bucket : Bucket Meter := {
  bk_capacity := m_capacity;
  available_at m now := Z.max 0 (credit_at m now / Zpos (m_period m));
  time_until_at := m_time_until;
  acquire_at m cost now :=
    match m_time_until m cost now with
    | None => (Denied DURATION_MAX, m)
    | Some w => if decide (w = 0) then (Allowed, m_take m cost now) else (Denied w, m)
    end;
  reserve_at m cost max_wait now :=
    match m_time_until m cost now with
    | None => (None, m)
    | Some w => if decide (w <= max_wait) then (Some w, m_take m cost now) else (None, m)
    end;
  bk_refund m cost := mkMeter (m_capacity m) (m_amount m) (m_period m)
    (Z.min (m_full m) (credit m + cost * Zpos (m_period m))) (last m);
  acquire_up_to_at m n now :=
    let k := Z.min n (Z.max 0 (credit_at m now / Zpos (m_period m))) in (k, m_take m k now) }.

Definition m_per_duration (amount : Z) (period : Duration) (now : Z) : Meter :=
  match amount, period with
  | Zpos a, Zpos p => mkMeter (Zpos a) a p (Zpos a * Zpos p) now
  | _, _ => mkMeter 0 1 1 0 now
  end.

#[export] Instance meter_config : BucketConfig Meter := {
  config_bucket capacity amount period initial now :=
    match amount, period with
    | Zpos a, Zpos p =>
        if capacity <=? 0 then None else Some (mkMeter capacity a p (Z.min initial capacity * Zpos p) now)
    | _, _ => None
    end;
  per_duration_bucket := m_per_duration;
  per_second_bucket amount := m_per_duration amount (from_secs 1) }.

Lemma div_up_nonpos a b : 0 < b -> div_up a b <= 0 <-> a <= 0.
Proof.
  intros Hb. unfold div_up. split; intros H.
  - assert (Hd : 0 <= - a / b) by lia. pose proof (Z.mul_div_le (- a) b Hb). nia.
  - pose proof (Z.div_pos (- a) b). lia.
Qed.

#[export] Instance meter_laws : BucketLaws Meter.
Proof.
  constructor; simpl.
  - intros m cost now. unfold m_time_until. zcase; split; intros; try done; lia.
  - intros m cost now w. unfold m_time_until. zcase; intros; simplify_eq. lia.
  - intros m cost now. destruct (m_time_until m cost now) as [w|]; [|done]. by case_decide.
  - intros m cost max_wait now. destruct (m_time_until m cost now) as [w|]; [|done]. by case_decide.
  - intros m cost now Hc. unfold m_time_until. rewrite (proj2 (Z.ltb_ge _ _)) by lia.
    set (d := div_up _ _). assert (Hd : Some (Z.max 0 d) = Some 0 <-> d <= 0).
    { split; [intros [=]; lia|intros; f_equal; lia]. }
    rewrite Hd. subst d. rewrite div_up_nonpos by lia.
    set (c := credit_at m now). set (p := Zpos (m_period m)). assert (Hp : 0 < p) by (unfold p; lia).
    split; intros H.
    + assert (cost <= c / p); [|lia]. apply Z.div_le_lower_bound; lia.
    + destruct (Z.max_spec 0 (c / p)) as [[Hlt E]|[Hle E]]; rewrite E in H.
      * pose proof (Z.mul_div_le c p Hp). nia.
      * lia.
  - intros m cost max_wait now. destruct (m_time_until m cost now) as [w|]; [|done].
    by repeat case_decide.
Qed.

(** ** Accounting

    What a bucket's grants add up to: a credit in units times its refill
    period, which grants take from, refunds give back to, and the refill of
    [bk_amount] per [bk_period] raises, never above the capacity. *)
Class BucketAccount (B : Type) `{Bucket B} `{BucketConfig B} := {
  bk_amount : B -> Z;
  bk_period : B -> Z;
  bk_credit : B -> Z -> Z;
  account_period b : 0 < bk_period b /\ 0 <= bk_amount b;
  account_same b cost now :
    (bk_amount (acquire_at b cost now).2 = bk_amount b /\ bk_period (acquire_at b cost now).2 = bk_period b) /\
    (bk_amount (bk_refund b cost) = bk_amount b /\ bk_period (bk_refund b cost) = bk_period b);
  account_refill b now now' : now <= now' ->
    bk_credit b now <= bk_credit b now' <= bk_credit b now + (now' - now) * bk_amount b;
  account_acquire b cost now : 0 < cost ->
    match (acquire_at b cost now).1 with
    | Allowed => cost * bk_period b <= bk_credit b now /\
        bk_credit (acquire_at b cost now).2 now = bk_credit b now - cost * bk_period b
    | _ => bk_credit (acquire_at b cost now).2 now = bk_credit b now
    end;
  account_refund b cost now : 0 <= cost ->
    bk_credit b now <= bk_credit (bk_refund b cost) now <= bk_credit b now + cost * bk_period b;
  account_config capacity amount period initial now :
    0 < capacity -> 0 < amount -> 0 < period -> 0 <= initial <= capacity ->
    exists b, config_bucket capacity amount period initial now = Some b /\ bk_capacity b = capacity /\
      bk_amount b = amount /\ bk_period b = period /\ bk_credit b now = initial * period }.

#[export, refine] Instance meter_account : BucketAccount Meter := {
  bk_amount m := Zpos (m_amount m);
  bk_period m := Zpos (m_period m);
  bk_credit := credit_at }.
Proof.
  - intros m. lia.
  - intros m cost now. simpl. destruct (m_time_until m cost now); [case_decide|]; by split_and!.
  - intros m now now' Hle. unfold credit_at.
    assert (Z.max 0 (now - last m) * Zpos (m_amount m) <= Z.max 0 (now' - last m) * Zpos (m_amount m) <=
      Z.max 0 (now - last m) * Zpos (m_amount m) + (now' - now) * Zpos (m_amount m)); [|lia].
    rewrite <- Z.mul_add_distr_r. split; apply Z.mul_le_mono_nonneg_r; lia.
  - intros m cost now Hc. simpl. unfold m_time_until. zcase; simpl; [lia|].
    case_decide as Hw; simpl; [|lia].
    pose proof (proj1 (div_up_nonpos (cost * Zpos (m_period m) - credit_at m now) (Zpos (m_amount m)) eq_refl)
      ltac:(lia)). split; [lia|].
    assert (Hfull : credit_at m now <= m_full m) by (unfold credit_at; lia).
    unfold credit_at at 1, m_take. simpl. rewrite (Z.max_l 0) by lia. unfold m_full in *. simpl.
    assert (0 <= cost * Zpos (m_period m)) by lia. lia.
  - intros m cost now Hc. unfold credit_at, m_full; simpl; unfold m_full.
    assert (0 <= cost * Zpos (m_period m) /\ 0 <= Z.max 0 (now - last m) * Zpos (m_amount m))
      by (split; apply Z.mul_nonneg_nonneg; lia). lia.
  - intros capacity amount period initial now Hc Ha Hp Hi. simpl.
    destruct amount as [|a|a], period as [|p|p]; try lia.
    rewrite (proj2 (Z.leb_gt _ _)) by done. eexists. split; [done|]. simpl. split_and!; try done.
    unfold credit_at, m_full. simpl. rewrite Z.sub_diag. nia.
Defined.

(** ** The core of a bucket

    The stores keep one [BucketCore] per key, built from a shared
    [BucketConfig] when the key is first seen; its readings are the time since
    the limiter was built. *)

Record BucketConf := mkConf {
  conf_capacity : Z;
  refill_amount : Z;
  refill_period : Duration;
  conf_initial : Z }.

Class BucketCore (B : Type) := {
  core_new : BucketConf -> Z -> B;
  core_reset_at : B -> Z -> B;
  (** [BucketConfig::new]; [None] stands for its error. *)
  config_new : Z -> Z -> Duration -> Z -> option BucketConf }.

Definition conf_ok (c : BucketConf) : Prop :=
  0 < conf_capacity c /\ 0 < refill_amount c /\ 0 < refill_period c /\ 0 <= conf_initial c <= conf_capacity c.

(** How long until the bucket is full again. *)
Definition full_wait {B} `{Bucket B} (b : B) (now : Z) : Duration :=
  default DURATION_MAX (time_until_at b (bk_capacity b) now).

(** What a store relies on beyond the accounting: a bucket starts with its
    initial balance; taking what is there, or reserving, lowers the credit by
    exactly that; the wait for a cost is enough to refill it, grows with the
    cost, shrinks no faster than time passes and never because of a grant. *)
Class BucketCoreLaws (B : Type) `{BucketAccount B} `{BucketCore B} : Prop := {
  core_config capacity amount period initial c :
    config_new capacity amount period initial = Some c -> c = mkConf capacity amount period initial;
  core_start c now : conf_ok c ->
    bk_capacity (core_new c now) = conf_capacity c /\ bk_amount (core_new c now) = refill_amount c /\
    bk_period (core_new c now) = refill_period c /\
    bk_credit (core_new c now) now = conf_initial c * refill_period c;
  core_available b now : available_at b now = Z.max 0 (bk_credit b now / bk_period b);
  core_up_to b n now : 0 <= n <= available_at b now ->
    let '(k, b') := acquire_up_to_at b n now in
    k = n /\ bk_credit b' now = bk_credit b now - n * bk_period b /\
    bk_capacity b' = bk_capacity b /\ bk_amount b' = bk_amount b /\ bk_period b' = bk_period b;
  core_reserve b cost max_wait now : 0 <= cost ->
    match reserve_at b cost max_wait now with
    | (Some _, b') =>
        bk_credit b' now = bk_credit b now - cost * bk_period b /\
        bk_capacity b' = bk_capacity b /\ bk_amount b' = bk_amount b /\ bk_period b' = bk_period b
    | (None, b') => b' = b /\ forall w, time_until_at b cost now = Some w -> max_wait < w
    end;
  core_wait b cost now : cost <= bk_capacity b -> exists w, time_until_at b cost now = Some w /\ 0 <= w /\
    cost * bk_period b <= bk_credit b now + w * bk_amount b;
  core_wait_mono b c c' now w w' : c <= c' ->
    time_until_at b c now = Some w -> time_until_at b c' now = Some w' -> w <= w';
  core_full b now : 0 < bk_capacity b <= available_at b now -> full_wait b now = 0;
  core_elapsed b now now' : now <= now' -> full_wait b now <= full_wait b now' + (now' - now);
  core_spend b cost max_wait now : 0 <= cost ->
    full_wait b now <= full_wait (acquire_at b cost now).2 now /\
    full_wait b now <= full_wait (reserve_at b cost max_wait now).2 now }.

#[export] Instance meter_core : BucketCore Meter := {
  core_new c now :=
    mkMeter (conf_capacity c) (Z.to_pos (refill_amount c)) (Z.to_pos (refill_period c))
      (conf_initial c * refill_period c) now;
  core_reset_at m now := mkMeter (m_capacity m) (m_amount m) (m_period m) (m_full m) now;
  config_new capacity amount period initial :=
    if (0 <? capacity) && (0 <? amount) && (0 <? period) then Some (mkConf capacity amount period initial)
    else None }.

Lemma div_up_mono a a' b : 0 < b -> a <= a' -> div_up a b <= div_up a' b.
Proof. intros Hb Ha. unfold div_up. pose proof (Z.div_le_mono (- a') (- a) b). lia. Qed.

Lemma div_up_enough a b : 0 < b -> a <= div_up a b * b.
Proof. intros Hb. unfold div_up. pose proof (Z.mul_div_le (- a) b Hb). lia. Qed.

Lemma div_up_shift a b k : 0 < b -> div_up (a + k * b) b = div_up a b + k.
Proof. intros Hb. unfold div_up. replace (- (a + k * b)) with (- a + (- k) * b) by ring. rewrite Z.div_add; lia. Qed.

Lemma meter_full_wait m now : full_wait m now = Z.max 0 (div_up (m_full m - credit_at m now) (Zpos (m_amount m))).
Proof. unfold full_wait. simpl. unfold m_time_until. rewrite (proj2 (Z.ltb_ge _ _)) by lia. done. Qed.

Lemma meter_take_full_wait m cost now : 0 <= cost -> full_wait m now <= full_wait (m_take m cost now) now.
Proof.
  intros Hc. rewrite !meter_full_wait. simpl. apply Z.max_le_compat_l, div_up_mono; [lia|].
  unfold credit_at at 2, m_take, m_full. simpl. rewrite (Z.max_l 0) by lia.
  assert (0 <= cost * Zpos (m_period m)) by lia. unfold credit_at, m_full. lia.
Qed.

#[export] Instance meter_core_laws : BucketCoreLaws Meter.
Proof.
  constructor; simpl.
  - intros capacity amount period initial c. destruct (_ && _ && _); [|done]. by intros [= <-].
  - intros c now (Hc & Ha & Hp & Hi). split_and!; [done|lia..|]. unfold credit_at, m_full. simpl.
    rewrite Z2Pos.id by done. rewrite Z.sub_diag. nia.
  - done.
  - intros m n now Hn. rewrite Z.min_l by lia. split_and!; try done.
    unfold credit_at at 1, m_take. simpl. rewrite (Z.max_l 0) by lia. unfold m_full. simpl.
    assert (0 <= n * Zpos (m_period m)) by lia. unfold credit_at, m_full. lia.
  - intros m cost max_wait now Hc. unfold m_time_until. destruct (Z.ltb_spec (m_capacity m) cost).
    + split; [done|]. intros w. done.
    + case_decide.
      * split_and!; try done. unfold credit_at at 1, m_take. simpl. rewrite (Z.max_l 0) by lia. unfold m_full. simpl.
        assert (0 <= cost * Zpos (m_period m)) by lia. unfold credit_at, m_full. lia.
      * split; [done|]. intros w [= <-]. lia.
  - intros m cost now Hc. unfold m_time_until. rewrite (proj2 (Z.ltb_ge _ _)) by lia. eexists. split; [done|].
    split; [lia|]. pose proof (div_up_enough (cost * Zpos (m_period m) - credit_at m now) (Zpos (m_amount m)) eq_refl). lia.
  - intros m c c' now w w' Hc. unfold m_time_until. zcase; try done. intros [= <-] [= <-].
    apply Z.max_le_compat_l, div_up_mono; [lia|]. nia.
  - intros m now [Hc Ha]. rewrite meter_full_wait. unfold m_full.
    assert (Hd : m_capacity m * Zpos (m_period m) <= credit_at m now).
    { pose proof (Z.mul_div_le (credit_at m now) (Zpos (m_period m)) eq_refl). nia. }
    pose proof (proj2 (div_up_nonpos (m_capacity m * Zpos (m_period m) - credit_at m now) (Zpos (m_amount m)) eq_refl)
      ltac:(lia)). lia.
  - intros m now now' Hn. rewrite !meter_full_wait. pose proof (account_refill m now now' Hn) as [_ H]. simpl in H.
    pose proof (div_up_mono (m_full m - credit_at m now)
      (m_full m - credit_at m now' + (now' - now) * Zpos (m_amount m)) (Zpos (m_amount m)) eq_refl ltac:(lia)) as Hd.
    rewrite div_up_shift in Hd by lia. lia.
  - intros m cost max_wait now Hc. destruct (m_time_until m cost now) as [w|]; [|done].
    split; case_decide; try done; by apply meter_take_full_wait.
Qed.
