(* ===== verification/Throttle.v ===== *)
(** * The throttle (src/src/throttle.rs)

    A token bucket behind a pause. The bucket is the interface of Bucket.v;
    a clock reading is in nanoseconds, and every operation takes the one it
    read. *)

From stdpp Require Import strings.
From S2P Require Import Prelude Decisions Hold Bucket Wait Limiter.

Record Throttle (B : Type) := mkThrottle { bucket : B; epoch : Z; hold : Hold }.
Arguments mkThrottle {B}. Arguments bucket {B}. Arguments epoch {B}. Arguments hold {B}.

Section Throttle.
Context {B : Type} `{Bucket B}.
Abbreviation throttle := (Throttle B).

Definition from_bucket (b : B) (now : Z) : throttle := mkThrottle b now Hold.new.

Definition with_bucket (self : throttle) (b : B) : throttle := mkThrottle b (epoch self) (hold self).
Definition with_hold (self : throttle) (h : Hold) : throttle := mkThrottle (bucket self) (epoch self) h.

(** Nanoseconds since the throttle's epoch. *)
Definition since_epoch (self : throttle) (now : Z) : Z := nanos_between (sat_sub now (epoch self)).

Definition capacity (self : throttle) : Z := bk_capacity (bucket self).

Definition held (self : throttle) (now : Z) : Duration :=
  if is_set (hold self) then remaining (hold self) (since_epoch self now) else DURATION_ZERO.

Definition available (self : throttle) (now : Z) : Z :=
  if negb (is_zero (held self now)) then 0 else available_at (bucket self) now.

Definition decide (self : throttle) (cost now : Z) : Decision * throttle :=
  if capacity self <? cost then (Impossible, self)
  else
    let held := held self now in
    if negb (is_zero held) then (Retry held, self)
    else
      let '(d, b) := acquire_at (bucket self) cost now in
      (match d with
       | Allowed => Acquired
       | Denied retry_after => if retry_after =? DURATION_MAX then Impossible else Retry retry_after
       | Unknown => Impossible
       end, with_bucket self b).

Definition try_acquire_with_cost (self : throttle) (cost now : Z) : bool * throttle :=
  let '(d, self) := decide self cost now in (is_acquired d, self).

Definition try_acquire (self : throttle) (now : Z) : bool * throttle :=
  try_acquire_with_cost self 1 now.

Definition peek (self : throttle) (cost now : Z) : Decision :=
  if capacity self <? cost then Impossible
  else
    let held := held self now in
    match time_until_at (bucket self) cost now with
    | None => Impossible
    | Some wait =>
        let after := Z.max wait held in
        if is_zero after then Acquired else Retry after
    end.

Definition reserve (self : throttle) (cost : Z) (max_wait : Duration) (now : Z)
    : option Duration * throttle :=
  if negb (is_zero (held self now)) then (None, self)
  else let '(r, b) := reserve_at (bucket self) cost max_wait now in (r, with_bucket self b).

Definition refund (self : throttle) (cost : Z) : throttle :=
  with_bucket self (bk_refund (bucket self) cost).

Definition drain_to (self : throttle) (remaining now : Z) : Z * throttle :=
  let available := available_at (bucket self) now in
  if available <=? remaining then (0, self)
  else
    let '(n, b) := acquire_up_to_at (bucket self) (available - remaining) now in
    (n, with_bucket self b).

Definition pause_for (self : throttle) (duration : Duration) (now : Z) : throttle :=
  with_hold self (extend (hold self) (since_epoch self now) duration).

Definition resume (self : throttle) : throttle := with_hold self (clear (hold self)).2.

Definition paused_for (self : throttle) (now : Z) : Duration := held self now.

(** The step of the waiting acquire. *)
Definition step (self : throttle) (cost : Z) (budget : Duration) (now : Z) : Step * throttle :=
  if capacity self <? cost then (StepNever, self)
  else
    let held := held self now in
    if negb (is_zero held) then (StepRetry held, self)
    else
      let '(r, b) := reserve_at (bucket self) cost budget now in
      let self := with_bucket self b in
      (match r with
       | Some wait => Granted wait
       | None =>
           match time_until_at b cost now with
           | None => StepNever
           | Some wait => StepRetry wait
           end
       end, self).

(** The [while left > 0] loop of [charge]; a round takes a whole capacity or
    all that is left, so [cost / capacity + 1] rounds are enough. *)
Fixpoint charge_loop (fuel : nat) (capacity left now : Z) (b : B) : Z * B :=
  match fuel with
  | O => (left, b)
  | S fuel =>
      if 0 <? left then
        let chunk := Z.min left capacity in
        let '(r, b) := reserve_at b chunk DURATION_MAX now in
        match r with
        | None => (left, b)
        | Some _ => charge_loop fuel capacity (left - chunk) now b
        end
      else (0, b)
  end.

Definition charge (self : throttle) (cost now : Z) : Z * throttle :=
  if capacity self =? 0 then (cost, self)
  else
    let '(uncharged, b) :=
      charge_loop (charge_fuel cost (capacity self)) (capacity self) cost now (bucket self) in
    (uncharged, with_bucket self b).

(** ** The handle as a [Limiter] *)

Section Handle.
Context {W : Type} (get : W -> throttle) (put : throttle -> W -> W) (clock : W -> Z).

Definition on_throttle {A} (f : throttle -> Z -> A * throttle) : M W A := fun w =>
  let '(a, t) := f (get w) (clock w) in (a, put t w).

(** The capacity is fixed when the throttle is built. *)
Definition throttle_limiter (capacity : Z) : Limiter W := {|
  Limiter.peek cost := on_throttle (fun t now => (peek t cost now, t));
  Limiter.acquire_cost cost := on_throttle (fun t now => decide t cost now);
  Limiter.available := on_throttle (fun t now => (available t now, t));
  Limiter.capacity := capacity;
  Limiter.refund cost := on_throttle (fun t _ => (tt, refund t cost));
  Limiter.reserve cost max_wait := on_throttle (fun t now => reserve t cost max_wait now);
  Limiter.pause_for d := on_throttle (fun t now => (tt, pause_for t d now));
  Limiter.paused_for := on_throttle (fun t now => (paused_for t now, t));
  Limiter.resume := on_throttle (fun t _ => (tt, resume t));
  Limiter.charge cost := on_throttle (fun t now => charge t cost now) |}.

End Handle.
End Throttle.

(** ** The builder *)

Record ThrottleBuilder := mkBuilder {
  amount : Z;
  period : Duration;
  burst_ : option Z;
  initial_ : option Z }.

Definition Builder_new : ThrottleBuilder := mkBuilder 0 (from_secs 1) None None.
Definition rate (b : ThrottleBuilder) (amount : Z) (period : Duration) : ThrottleBuilder :=
  mkBuilder amount period (burst_ b) (initial_ b).
Definition builder_per_second (b : ThrottleBuilder) (amount : Z) : ThrottleBuilder :=
  rate b amount (from_secs 1).
Definition builder_per_minute (b : ThrottleBuilder) (amount : Z) : ThrottleBuilder :=
  rate b amount (from_secs 60).
Definition burst (b : ThrottleBuilder) (n : Z) : ThrottleBuilder :=
  mkBuilder (amount b) (period b) (Some n) (initial_ b).
Definition initial (b : ThrottleBuilder) (n : Z) : ThrottleBuilder :=
  mkBuilder (amount b) (period b) (burst_ b) (Some n).

Section Build.
Context {B : Type} `{Bucket B} `{BucketConfig B}.

Definition config (b : ThrottleBuilder) (now : Z) : Result B ThrottleError :=
  if amount b =? 0 then
    Err (InvalidConfig "rate amount must be non-zero; set it with rate/per_second/per_minute")
  else if is_zero (period b) then Err (InvalidConfig "rate period must be non-zero")
  else
    let capacity := default (amount b) (burst_ b) in
    if capacity =? 0 then Err (InvalidConfig "burst must be non-zero")
    else
      let initial := Z.min (default capacity (initial_ b)) capacity in
      match config_bucket capacity (amount b) (period b) initial now with
      | Some bucket => Ok bucket
      | None => Err (InvalidConfig "the token bucket rejected the configuration")
      end.

Definition try_build (b : ThrottleBuilder) (now : Z) : Result (Throttle B) ThrottleError :=
  match config b now with
  | Ok bucket => Ok (from_bucket bucket now)
  | Err e => Err e
  end.

(** A configuration mistake builds a throttle that grants nothing. *)
Definition build (b : ThrottleBuilder) (now : Z) : Throttle B :=
  from_bucket (match config b now with
               | Ok bucket => bucket
               | Err _ => per_second_bucket 0 now
               end) now.

Definition per_duration (amount : Z) (period : Duration) (now : Z) : Throttle B :=
  from_bucket (per_duration_bucket amount period now) now.
Definition per_second (rate now : Z) : Throttle B := from_bucket (per_second_bucket rate now) now.
Definition per_minute (rate now : Z) : Throttle B := per_duration rate (from_secs 60) now.
Definition smooth (amount_ : Z) (period : Duration) (now : Z) : Throttle B :=
  build (burst (rate Builder_new amount_ period) 1) now.

End Build.

(** ** Lemmas *)

Section Lemmas.
Context {B : Type} `{BucketLaws B}.

Lemma held_remaining (t : Throttle B) now :
  held t now = remaining (hold t) (since_epoch t now).
Proof.
  unfold held, is_set. destruct (Z.eqb_spec (until_ns (hold t)) 0) as [E|E]; [|done].
  unfold remaining, since_epoch, nanos_between. rewrite E. simpl. mlia.
Qed.

Lemma since_epoch_exact (t : Throttle B) now :
  epoch t <= now -> now - epoch t <= u64_max -> since_epoch t now = now - epoch t.
Proof. unfold since_epoch, nanos_between, as_nanos. intros. mlia. Qed.

Lemma decide_held (t : Throttle B) cost now :
  0 < held t now ->
  decide t cost now = (if capacity t <? cost then Impossible else Retry (held t now), t).
Proof.
  intros Hh. unfold decide, is_zero. destruct (_ <? cost); [done|].
  by rewrite (proj2 (Z.eqb_neq _ _)) by lia.
Qed.

Lemma decide_free (t : Throttle B) cost now :
  held t now = 0 -> (forall w, time_until_at (bucket t) cost now = Some w -> w < DURATION_MAX) ->
  (decide t cost now).1 = peek t cost now.
Proof.
  intros Hh Hmax. unfold decide, peek, is_zero. rewrite Hh. simpl.
  pose proof (law_acquire (bucket t) cost now) as Ha. pose proof (law_wait (bucket t) cost now) as Hw.
  pose proof (law_never (bucket t) cost now) as Hn. unfold capacity.
  destruct (Z.ltb_spec (bk_capacity (bucket t)) cost) as [|Hc]; [done|].
  destruct (time_until_at (bucket t) cost now) as [w|].
  - specialize (Hw w eq_refl). specialize (Hmax w eq_refl). rewrite Z.max_l by done.
    destruct (acquire_at (bucket t) cost now) as [d b]. case_decide as E; simplify_eq/=.
    + done.
    + rewrite (proj2 (Z.eqb_neq w 0)) by done. by rewrite (proj2 (Z.eqb_neq w _)) by lia.
  - exfalso. assert (bk_capacity (bucket t) < cost) by by apply Hn. lia.
Qed.

(** Reserving the chunks in order, all of them granted. *)
Fixpoint reserve_chunks (now : Z) (b : B) (cs : list Z) : option B :=
  match cs with
  | [] => Some b
  | c :: cs =>
      match reserve_at b c DURATION_MAX now with
      | (Some _, b) => reserve_chunks now b cs
      | (None, _) => None
      end
  end.

Lemma charge_loop_chunks fuel cap cost now b :
  0 < cap -> 0 <= cost -> (if cost =? 0 then 1 else cost / cap + 2) <= Z.of_nat fuel ->
  let '(uncharged, b') := charge_loop fuel cap cost now b in
  0 <= uncharged <= cost /\
  exists cs, reserve_chunks now b cs = Some b' /\ sum_with (fun c => c) cs = cost - uncharged /\
    Forall (fun c => 0 < c <= cap) cs /\
    (uncharged = 0 \/ exists c, 0 < c <= cap /\ (reserve_at b' c DURATION_MAX now).1 = None).
Proof.
  intros Hc. revert cost b. induction fuel as [|fuel IH]; intros cost b Hcost Hf.
  { pose proof (Z.div_pos cost cap Hcost Hc). destruct (cost =? 0); lia. }
  assert (Hnil : sum_with (fun c : Z => c) [] = 0) by done.
  simpl. destruct (Z.ltb_spec 0 cost);
    [|split; [lia|]; exists []; split_and!; [done|lia|constructor|by left]].
  set (chunk := Z.min cost cap). pose proof (law_reserve b chunk DURATION_MAX now) as Hr.
  destruct (reserve_at b chunk DURATION_MAX now) as [[w|] b'] eqn:E.
  - assert (Hf' : (if cost - chunk =? 0 then 1 else (cost - chunk) / cap + 2) <= Z.of_nat fuel).
    { rewrite (proj2 (Z.eqb_neq cost 0)) in Hf by lia. pose proof (Z.div_pos cost cap Hcost Hc).
      destruct (Z.eqb_spec (cost - chunk) 0); [lia|].
      replace (cost - chunk) with (cost + (-1) * cap) by lia. rewrite Z.div_add by lia. lia. }
    specialize (IH (cost - chunk) b' ltac:(lia) Hf').
    destruct (charge_loop fuel cap (cost - chunk) now b') as [u b''].
    destruct IH as (Hu & cs & I1 & I2 & I3 & I4). split; [lia|]. exists (chunk :: cs).
    simpl. rewrite E, sum_with_cons. split_and!; [done|lia|constructor; [lia|done]|done].
  - assert (Hb : b' = b).
    { destruct (time_until_at b chunk now); [case_decide|]; simplify_eq/=; done. }
    subst b'. split; [lia|]. exists []. split_and!; [done|lia|constructor|].
    right. exists chunk. split; [lia|]. by rewrite E.
Qed.

End Lemmas.

(** ** Properties *)

(** A pause holds everything: for its whole length no call takes a token or
    changes the throttle, refusals report exactly the time left, a shorter
    pause never shortens a longer one, and a resume lifts it. *)
Theorem pause_holds_everything {B : Type} `{BucketLaws B} (t : Throttle B) (d : Duration) (now later : Z) :
  0 <= d -> epoch t <= now <= later -> later - epoch t <= u64_max -> now - epoch t + d <= u64_max ->
  let t' := pause_for t d now in
  paused_for t' later = Z.max (paused_for t later) (now + d - later) /\
  paused_for (resume t') later = 0 /\
  (later < now + d -> forall cost budget,
     decide t' cost later =
       (if capacity t <? cost then Impossible else Retry (paused_for t' later), t') /\
     reserve t' cost budget later = (None, t') /\
     step t' cost budget later =
       (if capacity t <? cost then StepNever else StepRetry (paused_for t' later), t') /\
     available t' later = 0).
Proof.
  intros Hd He Hl Hs t'. unfold paused_for.
  assert (Hheld : held t' later = Z.max (held t later) (now + d - later)).
  { rewrite !held_remaining. change (since_epoch t' later) with (since_epoch t later).
    change (hold t') with (extend (hold t) (since_epoch t now) d).
    rewrite (since_epoch_exact t now), (since_epoch_exact t later) by lia.
    rewrite extend_remaining by (unfold is_u64; lia). unfold sat_sub.
    pose proof (remaining_nonneg (hold t) (later - epoch t)). lia. }
  split; [done|]. split.
  { rewrite held_remaining. unfold remaining. simpl. unfold since_epoch, nanos_between. mlia. }
  intros Hlt cost budget.
  assert (Hpos : 0 < held t' later) by lia. assert (Hz : is_zero (held t' later) = false).
  { unfold is_zero. apply Z.eqb_neq. lia. }
  split; [by apply (decide_held t')|]. unfold reserve, step, available. rewrite Hz. simpl.
  by destruct (_ <? cost).
Qed.

Definition ten_per_second : Throttle Meter := per_second 10 0.

Lemma pause_holds_everything_witness :
  let t' := pause_for ten_per_second (from_millis 5) 1000 in
  paused_for t' 2000 = 4999000 /\ decide t' 1 2000 = (Retry (paused_for t' 2000), t').
Proof.
  destruct (pause_holds_everything ten_per_second (from_millis 5) 1000 2000
    ltac:(vm_compute; congruence) ltac:(vm_compute; split; congruence) ltac:(vm_compute; congruence)
    ltac:(vm_compute; congruence)) as (H1 & _ & H3).
  split; [exact H1|]. exact (proj1 (H3 ltac:(vm_compute; reflexivity) 1 0)).
Defined.

(** [peek] predicts [acquire_cost] without taking anything: not paused, it is
    the very decision; paused, both refuse. *)
Theorem peek_predicts_acquire {B : Type} `{BucketLaws B} (t : Throttle B) (cost now : Z) :
  (forall w, time_until_at (bucket t) cost now = Some w -> w < DURATION_MAX) ->
  is_acquired (peek t cost now) = is_acquired (decide t cost now).1 /\
  (paused_for t now = 0 -> peek t cost now = (decide t cost now).1) /\
  (is_acquired (decide t cost now).1 = false -> (decide t cost now).2 = t \/ time_until_at (bucket t) cost now = Some 0).
Proof.
  intros Hmax. assert (Hnn : 0 <= held t now) by (rewrite held_remaining; apply remaining_nonneg).
  destruct (Z.eq_dec (held t now) 0) as [E|E].
  - rewrite (decide_free t cost now) by done. split; [done|]. split; [done|].
    intros Hna. unfold decide in *. unfold is_zero. rewrite E. simpl.
    destruct (_ <? cost); [by left|].
    pose proof (law_acquire (bucket t) cost now) as Ha.
    destruct (time_until_at (bucket t) cost now) as [w|].
    + case_decide as Ew; [right; by subst|]. rewrite Ha. left. by destruct t.
    + rewrite Ha. left. by destruct t.
  - rewrite decide_held by lia. split; [|split].
    + unfold peek, is_zero. destruct (_ <? cost); [done|].
      destruct (time_until_at (bucket t) cost now) as [w|]; [|done].
      by rewrite (proj2 (Z.eqb_neq _ _)) by lia.
    + unfold paused_for. lia.
    + intros _. by left.
Qed.

Lemma peek_predicts_acquire_witness :
  peek ten_per_second 4 0 = Acquired /\
  is_acquired (peek ten_per_second 4 0) = is_acquired (decide ten_per_second 4 0).1.
Proof.
  split; [vm_compute; reflexivity|].
  apply (peek_predicts_acquire ten_per_second 4 0). intros w Hw. vm_compute in Hw.
  injection Hw as <-. vm_compute. reflexivity.
Defined.

(** [charge] is exact: the units it does not report as uncharged are reserved,
    in chunks of at most the capacity, even while the throttle is paused; units
    stay uncharged only when the bucket refuses a reservation of any length, or
    when the throttle is closed. *)
Theorem throttle_charge_exact {B : Type} `{BucketLaws B} (t : Throttle B) (cost now : Z) :
  0 < capacity t -> 0 <= cost ->
  let '(uncharged, t') := charge t cost now in
  0 <= uncharged <= cost /\ t' = with_bucket t (bucket t') /\
  exists cs, reserve_chunks now (bucket t) cs = Some (bucket t') /\
    sum_with (fun c => c) cs = cost - uncharged /\ Forall (fun c => 0 < c <= capacity t) cs /\
    (uncharged = 0 \/
     exists c, 0 < c <= capacity t /\ (reserve_at (bucket t') c DURATION_MAX now).1 = None).
Proof.
  intros Hc Hcost. unfold charge. rewrite (proj2 (Z.eqb_neq _ _)) by lia.
  pose proof (charge_loop_chunks (charge_fuel cost (capacity t)) (capacity t) cost now (bucket t) Hc Hcost) as Hl.
  destruct (charge_loop _ _ _ _ _) as [u b].
  destruct Hl as (Hu & Hcs).
  { unfold charge_fuel. pose proof (Z.div_pos cost (capacity t) Hcost Hc). destruct (cost =? 0); lia. }
  done.
Qed.

Lemma throttle_charge_exact_witness :
  let t := pause_for ten_per_second (from_secs 1) 0 in
  let '(uncharged, t') := charge t 25 0 in
  uncharged = 0 /\ credit (bucket t') = -15 * NANOS_PER_SEC /\ 0 <= uncharged <= 25.
Proof.
  assert (Hc : 0 < capacity (pause_for ten_per_second (from_secs 1) 0)) by (vm_compute; reflexivity).
  pose proof (throttle_charge_exact (pause_for ten_per_second (from_secs 1) 0) 25 0 Hc ltac:(lia)) as H.
  split; [vm_compute; reflexivity|]. split; [vm_compute; reflexivity|]. exact (proj1 H).
Defined.
