(* ===== verification/Retry.v ===== *)
(** * Retries (src/src/retry.rs)

    [Retry::drive] runs an operation until it succeeds, is given up on, or a
    bound is reached; [RetryBudget] is a token bucket of milli-retries. The
    operation, the sleep and the runtime clock are effects on a world. *)

From S2P Require Import Prelude Decisions Float64 Backoff Bucket.

Inductive RetryAction := RetryNow | RetryAfter (after : Duration) | GiveUp.

Record Retry := mkRetry {
  backoff : Backoff;
  max_attempts : Z;
  respect_retry_after : bool;
  max_retry_after : Duration;
  max_elapsed : option Duration }.

Definition DEFAULT_MAX_ATTEMPTS : Z := 5.
Definition DEFAULT_MAX_RETRY_AFTER : Duration := from_secs 300.

Definition Retry_new (b : Backoff) : Retry :=
  mkRetry b DEFAULT_MAX_ATTEMPTS true DEFAULT_MAX_RETRY_AFTER None.
Definition with_max_attempts (r : Retry) (n : Z) : Retry :=
  mkRetry (backoff r) (Z.max n 1) (respect_retry_after r) (max_retry_after r) (max_elapsed r).
Definition with_respect (r : Retry) (yes : bool) : Retry :=
  mkRetry (backoff r) (max_attempts r) yes (max_retry_after r) (max_elapsed r).
Definition with_max_retry_after (r : Retry) (cap : Duration) : Retry :=
  mkRetry (backoff r) (max_attempts r) (respect_retry_after r) cap (max_elapsed r).
Definition with_max_elapsed (r : Retry) (budget : Duration) : Retry :=
  mkRetry (backoff r) (max_attempts r) (respect_retry_after r) (max_retry_after r) (Some budget).

Section Drive.
Context {W T E : Type}.
Context (operation : M W (Result T E)) (classify : E -> RetryAction).
Context (sleep : Duration -> M W unit) (instant_now : W -> Z).
(** [budget.try_withdraw()], when there is a budget. *)
Context (withdraw : option (M W bool)).
Context (self : Retry).

(** The delay chosen after a failed attempt; [None] gives up. *)
Definition choose (action : RetryAction) (delays : BackoffIter) : option Duration * BackoffIter :=
  match action with
  | GiveUp => (None, delays)
  | RetryNow => let '(d, delays) := next_delay delays in (Some d, delays)
  | RetryAfter after =>
      let '(computed, delays) := next_delay delays in
      (if negb (respect_retry_after self) then Some computed
       else if max_retry_after self <? after then None else Some after, delays)
  end.

Definition over_elapsed (elapsed delay : Duration) : bool :=
  match max_elapsed self with
  | Some max => max <? dur_sat_add elapsed delay
  | None => false
  end.

(** The loop of [drive]; [None] only without fuel. *)
Fixpoint drive_loop (fuel : nat) (delays : BackoffIter) (attempt : Z) (elapsed : Duration)
    : M W (option (Result T E)) :=
  match fuel with
  | O => mret None
  | S fuel => fun w =>
      let started := instant_now w in
      (let! outcome := operation in fun w =>
       let elapsed := dur_sat_add elapsed (sat_sub (instant_now w) started) in
       match outcome with
       | Ok value => (Some (Ok value), w)
       | Err error =>
           if max_attempts self <=? attempt then (Some (Err error), w)
           else
             let '(delay, delays) := choose (classify error) delays in
             match delay with
             | None => (Some (Err error), w)
             | Some delay =>
                 if over_elapsed elapsed delay then (Some (Err error), w)
                 else
                   (let! granted := match withdraw with Some m => m | None => mret true end in
                    if negb granted then mret (Some (Err error))
                    else
                      let! _ := sleep delay in
                      drive_loop fuel delays (attempt + 1) (dur_sat_add elapsed delay)) w
             end
       end) w
  end.

(** One round per attempt is enough. *)
Definition drive (entropy : Z) : M W (option (Result T E)) :=
  drive_loop (Z.to_nat (max_attempts self)) (iter (backoff self) entropy) 1 DURATION_ZERO.

End Drive.

Section Run.
Context {W T E : Type}.
Context (operation : M W (Result T E)) (classify : E -> RetryAction).
Context (sleep : Duration -> M W unit) (instant_now : W -> Z).

Definition run (self : Retry) (entropy : Z) : M W (option (Result T E)) :=
  drive operation classify sleep instant_now None self entropy.

Definition run_with_budget (self : Retry) (entropy : Z) (deposit : M W unit) (try_withdraw : M W bool)
    : M W (option (Result T E)) :=
  let! _ := deposit in drive operation classify sleep instant_now (Some try_withdraw) self entropy.

End Run.

Definition retry_if_retryable (e : ThrottleError) : RetryAction :=
  if is_retryable e then RetryNow else GiveUp.

(** ** The budget *)

Definition MILLI : Z := 1000.

Record RetryBudget (B : Type) := mkBudget {
  balance_ : B;
  deposit_ : Z;
  floor_ : Z;
  max_retries : Z }.
Arguments mkBudget {B}. Arguments balance_ {B}. Arguments deposit_ {B}.
Arguments floor_ {B}. Arguments max_retries {B}.

Section Budget.
Context {B : Type} `{Bucket B} `{BucketConfig B}.

(** The parameters of the balance's bucket: capacity, refill, period,
    initial. *)
Definition balance_config (floor max_retries : Z) : Z * Z * Duration * Z :=
  let max_retries := clamp max_retries 1 (u32_max / MILLI) in
  let capacity := max_retries * MILLI in
  let '(amount, period) :=
    if floor =? 0 then (1, from_secs 3600)
    else (Z.min (sat_mul u32_max floor MILLI) capacity, from_secs 1) in
  (capacity, amount, period, Z.min (sat_mul u32_max floor MILLI) capacity).

Definition assemble (deposit floor max_retries now : Z) : RetryBudget B :=
  let '(capacity, amount, period, initial) := balance_config floor max_retries in
  mkBudget
    (match config_bucket capacity amount period initial now with
     | Some bucket => bucket
     | None => per_second_bucket 0 now
     end)
    deposit floor (clamp max_retries 1 (u32_max / MILLI)).

Definition Budget_new (ratio : f64) (min_per_second now : Z) : RetryBudget B :=
  let ratio := if f64_is_nan ratio then f64_zero else f64_clamp ratio f64_zero (f64_of_Z 1000) in
  let deposit := f64_round_to_uint u32_max (f64_mul ratio (f64_of_Z MILLI)) in
  let max_retries := Z.max (sat_mul u32_max min_per_second 10) 10 in
  assemble deposit min_per_second max_retries now.

Definition with_max_balance (self : RetryBudget B) (retries now : Z) : RetryBudget B :=
  assemble (deposit_ self) (floor_ self) retries now.

Definition budget_with_clock (self : RetryBudget B) (now : Z) : RetryBudget B :=
  assemble (deposit_ self) (floor_ self) (max_retries self) now.

Definition with_balance (self : RetryBudget B) (b : B) : RetryBudget B :=
  mkBudget b (deposit_ self) (floor_ self) (max_retries self).

Definition deposit (self : RetryBudget B) : RetryBudget B :=
  with_balance self (bk_refund (balance_ self) (deposit_ self)).

Definition try_withdraw (self : RetryBudget B) (now : Z) : bool * RetryBudget B :=
  let '(d, b) := acquire_at (balance_ self) MILLI now in
  (match d with Allowed => true | _ => false end, with_balance self b).

Definition balance (self : RetryBudget B) (now : Z) : Z :=
  available_at (balance_ self) now / MILLI.

End Budget.

(** ** The log of a run *)

Inductive retry_event := Tried (spent : Duration) | Withdrew | Slept (d : Duration).

Definition cost_of (e : retry_event) : Duration :=
  match e with Tried spent => spent | Slept d => d | Withdrew => 0 end.
Definition naps (log : list retry_event) : Z :=
  sum_with (fun e => match e with Slept _ => 1 | _ => 0 end) log.
Definition total (log : list retry_event) : Z := sum_with cost_of log.

Section Logged.
Context {W T E : Type}.
Context (operation : M W (Result T E)) (sleep : Duration -> M W unit) (instant_now : W -> Z).

Abbreviation world := (W * list retry_event)%type.

Definition logged_operation : M world (Result T E) := fun s =>
  let '(r, w) := operation s.1 in
  (r, (w, s.2 ++ [Tried (sat_sub (instant_now w) (instant_now s.1))])).
Definition logged_sleep (d : Duration) : M world unit := fun s =>
  let '(r, w) := sleep d s.1 in (r, (w, s.2 ++ [Slept d])).
Definition logged_withdraw (m : M W bool) : M world bool := fun s =>
  let '(r, w) := m s.1 in (r, (w, if r then s.2 ++ [Withdrew] else s.2)).
Definition logged_now (s : world) : Z := instant_now s.1.

Lemma logged_operation_run s :
  let o := operation s.1 in
  logged_operation s = (o.1, (o.2, s.2 ++ [Tried (sat_sub (instant_now o.2) (instant_now s.1))])).
Proof. unfold logged_operation. by destruct (operation s.1). Qed.

Lemma logged_sleep_run d s : logged_sleep d s = ((sleep d s.1).1, ((sleep d s.1).2, s.2 ++ [Slept d])).
Proof. unfold logged_sleep. by destruct (sleep d s.1). Qed.

Lemma logged_withdraw_run m s :
  logged_withdraw m s = ((m s.1).1, ((m s.1).2, if (m s.1).1 then s.2 ++ [Withdrew] else s.2)).
Proof. unfold logged_withdraw. by destruct (m s.1). Qed.

End Logged.

(** The longest a policy ever sleeps. *)
Definition longest_nap (self : Retry) : Duration :=
  Z.max (dur_to_nanos (max (backoff self)))
    (if respect_retry_after self then max_retry_after self else 0).

(** A round that is repeated: how long its attempt took, and the delay slept
    after it. With a budget, the retry is paid for between the two. *)
Definition round : Type := Duration * Duration.

Definition round_log (bill : list retry_event) (r : round) : list retry_event :=
  Tried r.1 :: bill ++ [Slept r.2].

Definition rounds_log (bill : list retry_event) (rs : list round) : list retry_event :=
  concat (map (round_log bill) rs).

Lemma rounds_log_cons bill r rs : rounds_log bill (r :: rs) = round_log bill r ++ rounds_log bill rs.
Proof. reflexivity. Qed.

Definition nap_ok (self : Retry) (r : round) : Prop := 0 <= r.2 <= longest_nap self.

Section Bounded.
Context {W T E : Type}.
Context (operation : M W (Result T E)) (classify : E -> RetryAction).
Context (sleep : Duration -> M W unit) (instant_now : W -> Z) (withdraw : option (M W bool)).
Context (self : Retry).
Hypothesis Hbackoff : backoff_ok (backoff self).
(** A [Duration] is not negative. *)
Hypothesis Hclassify : forall e d, classify e = RetryAfter d -> 0 <= d.

Lemma choose_ok e k it d it' :
  iter_ok (backoff self) k it -> choose self (classify e) it = (Some d, it') ->
  0 <= d <= longest_nap self /\ iter_ok (backoff self) (S k) it'.
Proof.
  intros Hit Hc. pose proof (next_delay_capped _ k it Hbackoff Hit) as [Hd0 Hd].
  pose proof (iter_ok_next _ k it Hbackoff Hit) as Hn. pose proof (Hclassify e) as Hcl.
  unfold choose in Hc. unfold longest_nap. destruct (classify e) as [|after|]; [| |done];
    destruct (next_delay it) as [c it1]; simpl in *; simplify_eq; [split; [lia|done]|].
  specialize (Hcl after eq_refl).
  destruct (respect_retry_after self); simpl in *; simplify_eq; [|split; [lia|done]].
  destruct (Z.ltb_spec (max_retry_after self) after); simplify_eq. split; [lia|done].
Qed.

Abbreviation logged_drive := (drive_loop (logged_operation operation instant_now) classify
  (logged_sleep sleep) (logged_now instant_now) (logged_withdraw <$> withdraw) self).

(** What a repeated attempt costs when there is a budget. *)
Definition bill : list retry_event := match withdraw with Some _ => [Withdrew] | None => [] end.

(** One run of the loop from some log: what it adds. *)
Definition adds (attempt : Z) (L : list retry_event) (r : option (Result T E)) (L' : list retry_event) : Prop :=
  exists res rs x, r = Some res /\ L' = L ++ rounds_log bill rs ++ [Tried x] /\
    1 + Z.of_nat (length rs) <= Z.max 1 (max_attempts self - attempt + 1) /\ Forall (nap_ok self) rs /\
    (forall m, max_elapsed self = Some m -> m < DURATION_MAX ->
       rs = [] \/ total (L ++ rounds_log bill rs) <= m).

Definition adding (attempt : Z) (L : list retry_event) (o : option (Result T E) * (W * list retry_event)) : Prop :=
  adds attempt L o.1 o.2.2.

Lemma adds_stop attempt L res x w : adding attempt L (Some res, (w, L ++ [Tried x])).
Proof.
  exists res, [], x. split_and!; [done|done|simpl; lia|constructor|by left].
Qed.

(** A round that goes on: a try, a withdrawal, a nap, then the rest. *)
Lemma adds_round attempt L r L' x d :
  attempt < max_attempts self -> 0 <= d <= longest_nap self ->
  (forall m, max_elapsed self = Some m -> m < DURATION_MAX -> total (L ++ round_log bill (x, d)) <= m) ->
  adds (attempt + 1) (L ++ round_log bill (x, d)) r L' -> adds attempt L r L'.
Proof.
  intros Ha Hd Hm (res & rs & y & -> & -> & Ht & Hok & Hel).
  exists res, ((x, d) :: rs), y. split_and!; [done| |simpl length; lia|by constructor|].
  - by rewrite rounds_log_cons, <- !app_assoc.
  - intros m Hmax Hlt. right. specialize (Hm m Hmax Hlt). specialize (Hel m Hmax Hlt).
    rewrite rounds_log_cons, app_assoc. destruct Hel as [-> |Hel]; [by rewrite app_nil_r|done].
Qed.

Lemma total_snoc L e : total (L ++ [e]) = total L + cost_of e.
Proof. unfold total. by rewrite sum_with_app, sum_with_singleton. Qed.

Lemma total_round L x d : total (L ++ round_log bill (x, d)) = total L + x + d.
Proof.
  unfold total, round_log, bill. rewrite sum_with_app, sum_with_cons, sum_with_app, sum_with_singleton.
  destruct withdraw; rewrite ?sum_with_singleton; unfold sum_with; simpl; lia.
Qed.

(** The budget's answer, when there is one. *)
Lemma ask_run s :
  let ask := match logged_withdraw <$> withdraw with Some m => m | None => mret true end in
  (exists w, ask s = (true, (w, s.2 ++ bill))) \/ (exists w, ask s = (false, (w, s.2))).
Proof.
  unfold bill. destruct withdraw as [m|]; simpl.
  - rewrite logged_withdraw_run. destruct (m s.1) as [[] w]; simpl; [left|right]; by eauto.
  - left. exists s.1. rewrite app_nil_r. by destruct s.
Qed.

Lemma sat_steps t x d :
  0 <= x -> 0 <= d ->
  dur_sat_add (dur_sat_add (Z.min DURATION_MAX t) x) d = Z.min DURATION_MAX (t + x + d).
Proof. intros. unfold dur_sat_add, sat_add. lia. Qed.

Lemma drive_loop_adds fuel it k attempt elapsed s :
  iter_ok (backoff self) k it -> Z.max 1 (max_attempts self - attempt + 1) <= Z.of_nat fuel ->
  elapsed = Z.min DURATION_MAX (total s.2) ->
  adding attempt s.2 (logged_drive fuel it attempt elapsed s).
Proof.
  revert it k attempt elapsed s. induction fuel as [|fuel IH]; intros it k attempt elapsed s Hit Hf He; [lia|].
  cbn [drive_loop]. rewrite mthen_run.
  rewrite logged_operation_run. cbv zeta.
  destruct (operation s.1) as [outcome w] eqn:Eop. cbn [fst snd].
  set (x := sat_sub (instant_now w) (instant_now s.1)).
  assert (Hx : 0 <= x) by apply sat_sub_nonneg.
  change (sat_sub (logged_now instant_now (w, s.2 ++ [Tried x])) (logged_now instant_now s)) with x.
  destruct outcome as [value|error]; [apply adds_stop|].
  destruct (Z.leb_spec (max_attempts self) attempt) as [|Hatt]; [apply adds_stop|].
  destruct (choose self (classify error) it) as [[d|] it'] eqn:Ec; [|apply adds_stop].
  destruct (choose_ok _ k it d it' Hit Ec) as [[Hd0 Hd] Hit'].
  destruct (over_elapsed self _ d) eqn:Eo; [apply adds_stop|].
  subst elapsed.
  assert (Hel : forall m, max_elapsed self = Some m -> m < DURATION_MAX -> total s.2 + x + d <= m).
  { intros m Hm Hlt. unfold over_elapsed in Eo. rewrite Hm in Eo. apply Z.ltb_ge in Eo.
    rewrite sat_steps in Eo by done. lia. }
  rewrite sat_steps by done.
  assert (Hgo : forall w2,
    let m := mthen (logged_sleep sleep d) (fun _ => logged_drive fuel it' (attempt + 1)
               (Z.min DURATION_MAX (total s.2 + x + d))) in
    adding attempt s.2 (m (w2, (s.2 ++ [Tried x]) ++ bill))).
  { intros w2 m. subst m. rewrite mthen_run, logged_sleep_run. cbn [fst snd].
    assert (Happ : ((s.2 ++ [Tried x]) ++ bill) ++ [Slept d] = s.2 ++ round_log bill (x, d))
      by (unfold round_log; by rewrite <- !app_assoc).
    rewrite Happ. apply (adds_round _ _ _ _ x d); [done|done| |].
    - intros m Hm Hlt. rewrite total_round. auto.
    - apply (IH it' (S k) (attempt + 1) _ (_, _)); [done|lia|]. cbn [snd]. by rewrite total_round. }
  rewrite mthen_run.
  destruct (ask_run (w, s.2 ++ [Tried x])) as [[w2 ->]|[w2 ->]]; cbn [fst snd negb mret].
  - apply Hgo.
  - apply adds_stop.
Qed.

(** The log changes nothing: forgetting it gives the loop of the program. *)
Lemma drive_loop_erase fuel it attempt elapsed s :
  drive_loop operation classify sleep instant_now withdraw self fuel it attempt elapsed s.1 =
  let o := logged_drive fuel it attempt elapsed s in (o.1, o.2.1).
Proof.
  revert it attempt elapsed s. induction fuel as [|fuel IH]; intros it attempt elapsed s; [done|].
  cbn [drive_loop]. rewrite !mthen_run, logged_operation_run. cbv zeta.
  destruct (operation s.1) as [[value|error] w]; cbn [fst snd]; [done|].
  unfold logged_now at 1 2. cbn [fst snd].
  destruct (max_attempts self <=? attempt); [done|].
  destruct (choose self (classify error) it) as [[d|] it']; [|done].
  destruct (over_elapsed self _ d); [done|]. rewrite !mthen_run.
  destruct withdraw as [m|]; cbn [fmap option_fmap option_map fst snd mret].
  - rewrite logged_withdraw_run. cbn [fst snd]. destruct (m w) as [[] w2]; cbn [fst snd negb mret]; [|reflexivity].
    rewrite !mthen_run, logged_sleep_run. cbn [fst snd]. by rewrite <- IH.
  - cbn [negb]. rewrite !mthen_run, logged_sleep_run. cbn [fst snd]. by rewrite <- IH.
Qed.

(** C20: [drive] always returns. What it does is a sequence of rounds and a
    last attempt: a round is an attempt, then, with a budget, one retry
    withdrawn from it, then one sleep, and nothing else. The attempts are at
    least one and at most [max_attempts]; no sleep is longer than the
    backoff's maximum or, for a delay the caller's error asked for,
    [max_retry_after]; and with an elapsed bound the last attempt, unless it
    is the first, is started before that much time has been spent attempting
    and sleeping (how long that attempt then takes is up to the operation). *)
Theorem drive_bounded entropy w :
  1 <= max_attempts self ->
  exists res rs x w',
    drive operation classify sleep instant_now withdraw self entropy w = (Some res, w') /\
    drive (logged_operation operation instant_now) classify (logged_sleep sleep) (logged_now instant_now)
      (logged_withdraw <$> withdraw) self entropy (w, []) =
      (Some res, (w', rounds_log bill rs ++ [Tried x])) /\
    1 + Z.of_nat (length rs) <= max_attempts self /\
    Forall (nap_ok self) rs /\
    (forall m, max_elapsed self = Some m -> m < DURATION_MAX ->
       rs = [] \/ total (rounds_log bill rs) <= m).
Proof.
  intros Hmax. assert (Hz : DURATION_ZERO = Z.min DURATION_MAX (total [])) by reflexivity.
  pose proof (drive_loop_adds (Z.to_nat (max_attempts self)) (iter (backoff self) entropy)
    0 1 DURATION_ZERO (w, []) (after_ok _ _ 0 Hbackoff) ltac:(lia) Hz) as H.
  pose proof (drive_loop_erase (Z.to_nat (max_attempts self)) (iter (backoff self) entropy)
    1 DURATION_ZERO (w, [])) as He. unfold adding in H. unfold drive.
  destruct (logged_drive _ _ _ _ _) as [r [w' log]]. cbn [fst snd] in *.
  destruct H as (res & rs & x & -> & -> & Ht & Hok & Hel). rewrite app_nil_l in *.
  exists res, rs, x, w'. split_and!; (done || lia).
Qed.

End Bounded.

(** A run of three attempts: the first two fail, the third succeeds. *)
Lemma drive_bounded_witness :
  let operation : M Z (Result Z ThrottleError) := fun n => (if n <? 2 then Err BulkheadFull else Ok n, n + 1) in
  exists res (rs : list round) w',
    drive operation (fun _ => RetryNow) (fun _ => mret tt) (fun n => n) None (Retry_new default_backoff) 42 0
      = (Some res, w') /\ 1 + Z.of_nat (length rs) <= 5.
Proof.
  intros operation. assert (Hb : backoff_ok (backoff (Retry_new default_backoff)))
    by (constructor; vm_compute; split; congruence).
  destruct (drive_bounded operation (fun _ => RetryNow) (fun _ => mret tt) (fun n => n) None
    (Retry_new default_backoff) Hb ltac:(done) 42 0 ltac:(done)) as (res & rs & x & w' & H & _ & Ht & _).
  exists res, rs, w'. split; [exact H|exact Ht].
Defined.

(** ** What a budget allows *)

Inductive budget_op := Deposit | Withdraw.

Section Allowance.
Context {B : Type} `{BucketAccount B}.

(** A run of calls at their clock readings: the budget and the retries it has
    granted. *)
Definition budget_step (s : RetryBudget B * Z) (o : budget_op * Z) : RetryBudget B * Z :=
  match o with
  | (Deposit, _) => (deposit s.1, s.2)
  | (Withdraw, now) => let '(granted, b) := try_withdraw s.1 now in (b, s.2 + if granted then 1 else 0)
  end.

(** The clock never runs backwards over a run that starts at [t]. *)
Fixpoint clocked (t : Z) (ops : list (budget_op * Z)) : Prop :=
  match ops with [] => True | (_, now) :: rest => t <= now /\ clocked now rest end.
Definition last_reading (t : Z) (ops : list (budget_op * Z)) : Z := foldl (fun _ o => o.2) t ops.
Definition deposits (ops : list (budget_op * Z)) : Z :=
  sum_with (fun o => match o.1 with Deposit => 1 | Withdraw => 0 end) ops.

Lemma budget_step_account s o t :
  0 <= deposit_ s.1 -> t <= o.2 -> 0 <= bk_credit (balance_ s.1) t ->
  let s' := budget_step s o in
  deposit_ s'.1 = deposit_ s.1 /\ bk_period (balance_ s'.1) = bk_period (balance_ s.1) /\
  bk_amount (balance_ s'.1) = bk_amount (balance_ s.1) /\ 0 <= bk_credit (balance_ s'.1) o.2 /\
  (s'.2 - s.2) * MILLI * bk_period (balance_ s.1) + bk_credit (balance_ s'.1) o.2 <=
    bk_credit (balance_ s.1) t + (o.2 - t) * bk_amount (balance_ s.1) +
    deposits [o] * deposit_ s.1 * bk_period (balance_ s.1).
Proof.
  intros Hd Ht Hpos. pose proof (account_refill (balance_ s.1) t o.2 Ht) as Hr.
  pose proof (account_same (balance_ s.1)) as Hsame. unfold deposits. rewrite sum_with_singleton.
  destruct o as [[|] now]; simpl in *.
  - pose proof (account_refund (balance_ s.1) (deposit_ s.1) now Hd) as Hc.
    destruct (Hsame (deposit_ s.1) now) as [_ [Ha Hp]]. split_and!; [done|done|done|lia|lia].
  - pose proof (account_acquire (balance_ s.1) MILLI now ltac:(done)) as Hc.
    destruct (Hsame MILLI now) as [[Ha Hp] _]. unfold try_withdraw.
    destruct (acquire_at (balance_ s.1) MILLI now) as [d b]. simpl in *.
    destruct d; simpl; split_and!; try done; lia.
Qed.

Lemma budget_run_account ops s t :
  0 <= deposit_ s.1 -> clocked t ops -> 0 <= bk_credit (balance_ s.1) t ->
  let s' := Prelude.run budget_step s ops in
  (s'.2 - s.2) * MILLI * bk_period (balance_ s.1) <=
    bk_credit (balance_ s.1) t + (last_reading t ops - t) * bk_amount (balance_ s.1) +
    deposits ops * deposit_ s.1 * bk_period (balance_ s.1).
Proof.
  revert s t. induction ops as [|[o now] ops IH]; intros s t Hd Hc Hpos s'.
  - subst s'. change (Prelude.run budget_step s []) with s. unfold deposits, sum_with. cbn. lia.
  - destruct Hc as [Ht Hc].
    pose proof (budget_step_account s (o, now) t Hd Ht Hpos) as (Ed & Ep & Ea & Hpos' & Hle).
    subst s'. rewrite Prelude.run_cons.
    specialize (IH (budget_step s (o, now)) now ltac:(by rewrite Ed) Hc Hpos'). cbv zeta in IH.
    rewrite Ed, Ep, Ea in IH. unfold last_reading in *. cbn [foldl snd] in *.
    unfold deposits in *. rewrite sum_with_cons. rewrite sum_with_singleton in Hle.
    set (p := bk_period (balance_ s.1)) in *. set (a := bk_amount (balance_ s.1)) in *. lia.
Qed.

Lemma clocked_last t ops : clocked t ops -> t <= last_reading t ops.
Proof.
  revert t. induction ops as [|[o now] ops IH]; intros t; simpl; [done|].
  intros [Ht Hc]. specialize (IH now Hc). unfold last_reading in *. simpl. lia.
Qed.

(** The parameters of an assembled budget are valid, so it is never the closed
    fallback bucket. *)
Lemma assemble_account dep floor retries now :
  0 <= floor <= u32_max ->
  let self := assemble dep floor retries now in
  deposit_ self = dep /\
  exists initial, bk_credit (balance_ self) now = initial * bk_period (balance_ self) /\
    0 <= initial <= floor * MILLI /\
    if floor =? 0 then bk_period (balance_ self) = from_secs 3600 /\ bk_amount (balance_ self) = 1
    else bk_period (balance_ self) = from_secs 1 /\ bk_amount (balance_ self) <= floor * MILLI.
Proof.
  intros Hf. unfold assemble, balance_config.
  pose proof (clamp_range retries 1 (u32_max / MILLI) ltac:(done)) as Hr.
  set (cap := clamp retries 1 (u32_max / MILLI) * MILLI).
  assert (Hcap : 0 < cap) by (unfold cap, MILLI in *; lia). unfold sat_mul, MILLI, u32_max in *.
  destruct (Z.eqb_spec floor 0) as [-> |Hne]; split; try done.
  - destruct (account_config cap 1 (from_secs 3600) 0 now) as (b & E & _ & Ha & Hp & Hi); [mlia..|].
    rewrite (Z.min_r _ (0 * 1000)) by lia. rewrite (Z.min_l (0 * 1000)) by lia.
    change (0 * 1000) with 0. rewrite E. cbn [balance_]. exists 0. rewrite Hp, Ha. split_and!; try done; lia.
  - set (n := Z.min (Z.min 4294967295 (floor * 1000)) cap). assert (Hn : 0 < n <= cap) by lia.
    assert (Hn' : n <= floor * 1000) by lia.
    destruct (account_config cap n (from_secs 1) n now) as (b & E & _ & Ha & Hp & Hi); [mlia..|].
    rewrite E. cbn [balance_]. exists n. rewrite Hp, Ha. split_and!; try done; lia.
Qed.

(** C36: A retry budget bounds retries by requests. Over any run of deposits
    and withdrawals on a clock that does not run backwards, a budget made by
    [RetryBudget::new] grants no more retries than the second's floor it
    starts with, plus [ratio] per deposit (in thousandths, rounded), plus
    [min_per_second] for every second that has passed; with no floor, one
    thousandth of a retry per hour takes its place. *)
Theorem budget_bounds_retries ratio min_per_second now ops :
  0 <= min_per_second <= u32_max -> clocked now ops ->
  let self := Budget_new ratio min_per_second now in
  let granted := (Prelude.run budget_step (self, 0) ops).2 in
  let elapsed := last_reading now ops - now in
  if min_per_second =? 0
  then granted * MILLI * from_secs 3600 <= deposits ops * deposit_ self * from_secs 3600 + elapsed
  else granted * MILLI * from_secs 1 <=
    (min_per_second * MILLI + deposits ops * deposit_ self) * from_secs 1 + elapsed * min_per_second * MILLI.
Proof.
  intros Hf Hc self granted elapsed.
  assert (Hself : exists dep, 0 <= dep /\
    self = assemble dep min_per_second (Z.max (sat_mul u32_max min_per_second 10) 10) now).
  { eexists. split; [|reflexivity]. by apply f64_round_to_uint_range. }
  destruct Hself as (dep & Hdep & Eself).
  destruct (assemble_account dep min_per_second
    (Z.max (sat_mul u32_max min_per_second 10) 10) now Hf) as (Ed & initial & Hi & Hir & Hpa).
  rewrite <- Eself in Ed, Hi, Hpa. assert (Hd : 0 <= deposit_ self) by (by rewrite Ed).
  pose proof (account_period (balance_ self)) as [Hp _].
  pose proof (budget_run_account ops (self, 0) now Hd Hc ltac:(simpl; nia)) as Hrun.
  cbn [fst snd] in Hrun. fold granted elapsed in Hrun. rewrite Hi, Z.sub_0_r in Hrun.
  assert (Hel : 0 <= elapsed) by (subst elapsed; apply Z.le_0_sub, clocked_last; done).
  destruct (Z.eqb_spec min_per_second 0) as [-> |]; destruct Hpa as [Ep Ha]; rewrite Ep in Hrun.
  - rewrite Ha in Hrun. lia.
  - assert (elapsed * bk_amount (balance_ self) <= elapsed * (min_per_second * MILLI)) by nia.
    assert (initial * from_secs 1 <= min_per_second * MILLI * from_secs 1) by mlia. lia.
Qed.

End Allowance.

Lemma budget_bounds_retries_witness :
  let ops := [(Deposit, 0); (Deposit, 0); (Withdraw, 0); (Withdraw, from_secs 1)] in
  let granted := (Prelude.run budget_step (Budget_new (B := Meter) (f64_of_Z 1) 0 0, 0) ops).2 in
  granted = 2 /\ granted * MILLI * from_secs 3600 <= 2 * 1000 * from_secs 3600 + from_secs 1.
Proof.
  intros ops granted. split; [vm_compute; reflexivity|].
  exact (budget_bounds_retries (B := Meter) (f64_of_Z 1) 0 0 ops ltac:(vm_compute; split; congruence)
    ltac:(vm_compute; repeat split; congruence)).
Defined.
