(* ===== verification/Ordered.v ===== *)
(** * Ordered collections

    The standard library's [BTreeMap] and [BTreeSet] are finite maps and sets
    here; what the sources use of their order is the first and the last
    element, which are computed and characterised in this file. *)

From stdpp Require Import gmap fin_maps.
From S2P Require Import Prelude.

(** A decidable linear order. *)
Class Order {A : Type} (le : A -> A -> bool) : Prop := {
  order_total x y : le x y = true \/ le y x = true;
  order_trans x y z : le x y = true -> le y z = true -> le x z = true;
  order_antisym x y : le x y = true -> le y x = true -> x = y }.

Definition reverse {A} (le : A -> A -> bool) : A -> A -> bool := fun x y => le y x.

(** Lexicographic, as the derived [Ord] of a tuple. *)
Definition lex {A B} (leA : A -> A -> bool) (leB : B -> B -> bool) (x y : A * B) : bool :=
  if negb (leA y.1 x.1) then true else leA x.1 y.1 && leB x.2 y.2.

#[global] Typeclasses Opaque reverse lex.

#[export] Instance Z_order : Order Z.leb.
Proof. constructor; intros; rewrite ?Z.leb_le in *; lia. Qed.

#[export] Instance reverse_order {A} (le : A -> A -> bool) `{!Order le} : Order (reverse le).
Proof.
  constructor; unfold reverse.
  - intros x y. destruct (order_total (le := le) y x); auto.
  - intros x y z Hx Hy. exact (order_trans z y x Hy Hx).
  - intros x y Hx Hy. exact (order_antisym x y Hy Hx).
Qed.

Lemma lex_spec {A B} (leA : A -> A -> bool) (leB : B -> B -> bool) `{!Order leA} (x y : A * B) :
  lex leA leB x y = true <->
  leA x.1 y.1 = true /\ (leA y.1 x.1 = true -> leB x.2 y.2 = true).
Proof.
  unfold lex. destruct (leA y.1 x.1) eqn:E; simpl.
  - rewrite andb_true_iff. tauto.
  - split; [|done]. intros _. split; [|done]. by destruct (order_total (le := leA) x.1 y.1); [|congruence].
Qed.

#[export] Instance lex_order {A B} (leA : A -> A -> bool) (leB : B -> B -> bool)
    `{!Order leA, !Order leB} : Order (lex leA leB).
Proof.
  constructor.
  - intros x y. rewrite !lex_spec by done.
    destruct (order_total (le := leA) x.1 y.1), (order_total (le := leB) x.2 y.2),
      (leA x.1 y.1) eqn:E1, (leA y.1 x.1) eqn:E2; try tauto; try congruence; try (by left); try (by right).
  - intros x y z. rewrite !lex_spec by done. intros [H1 H2] [H3 H4].
    split; [by eapply order_trans|]. intros H5.
    eapply order_trans; [apply H2|apply H4]; by eapply order_trans.
  - intros [a b] [c d]. rewrite !lex_spec by done. simpl. intros [H1 H2] [H3 H4].
    f_equal; [by apply order_antisym|]. apply order_antisym; auto.
Qed.

Section Least.
Context {A : Type} (le : A -> A -> bool) `{!Order le}.

Lemma order_refl x : le x x = true.
Proof. by destruct (order_total (le := le) x x). Qed.

Fixpoint least (l : list A) : option A :=
  match l with
  | [] => None
  | x :: l =>
      match least l with
      | Some y => if le x y then Some x else Some y
      | None => Some x
      end
  end.

Lemma least_None l : least l = None <-> l = [].
Proof. destruct l as [|x l]; simpl; [done|]. by destruct (least l); [case_match|]. Qed.

Lemma least_in l x : least l = Some x -> x ∈ l /\ forall y, y ∈ l -> le x y = true.
Proof.
  revert x. induction l as [|a l IH]; intros x; simpl; [done|].
  destruct (least l) as [b|] eqn:El.
  - destruct (IH b eq_refl) as [Hb Hle]. destruct (le a b) eqn:E; intros [= <-].
    + split; [by left|]. intros y [-> |Hy]%elem_of_cons; [apply order_refl|].
      by eapply order_trans; [|apply Hle].
    + split; [by right|]. intros y [-> |Hy]%elem_of_cons; [|auto].
      by destruct (order_total (le := le) b a); [|congruence].
  - intros [= <-]. apply least_None in El as ->. split; [by left|].
    intros y Hy%list_elem_of_singleton. subst. apply order_refl.
Qed.

(** The least element is the one that is below all. *)
Lemma least_Some l x : least l = Some x <-> x ∈ l /\ forall y, y ∈ l -> le x y = true.
Proof.
  split; [apply least_in|]. intros [Hx Hle]. destruct (least l) as [y|] eqn:E.
  - apply least_in in E as [Hy Hle']. f_equal. apply order_antisym; auto.
  - apply least_None in E as ->. by apply elem_of_nil in Hx.
Qed.

(** So it depends on the elements alone. *)
Lemma least_ext l l' : (forall x, x ∈ l <-> x ∈ l') -> least l = least l'.
Proof.
  intros E. destruct (least l') as [x|] eqn:El'.
  - apply least_Some in El' as [Hin Hle]. apply least_Some. split; [by apply E|]. intros y Hy. by apply Hle, E.
  - apply least_None in El' as ->. apply least_None. destruct l as [|x l]; [done|].
    exfalso. apply (not_elem_of_nil x), E. by left.
Qed.

End Least.

(** [BTreeSet::first] and [BTreeSet::last] *)
Section Sets.
Context {A : Type} `{Countable A} (le : A -> A -> bool) `{!Order le}.

Definition set_first (s : gset A) : option A := least le (elements s).
Definition set_last (s : gset A) : option A := least (reverse le) (elements s).

Lemma set_first_Some s x : set_first s = Some x <-> x ∈ s /\ forall y, y ∈ s -> le x y = true.
Proof. unfold set_first. rewrite least_Some by done. by setoid_rewrite elem_of_elements. Qed.

Lemma set_first_None s : set_first s = None <-> s = ∅.
Proof.
  unfold set_first. rewrite least_None. rewrite elements_empty_iff. apply leibniz_equiv_iff.
Qed.

Lemma set_last_Some s x : set_last s = Some x <-> x ∈ s /\ forall y, y ∈ s -> le y x = true.
Proof. unfold set_last. rewrite least_Some by apply _. by setoid_rewrite elem_of_elements. Qed.

Lemma set_last_None s : set_last s = None <-> s = ∅.
Proof.
  unfold set_last. rewrite least_None. rewrite elements_empty_iff. apply leibniz_equiv_iff.
Qed.

End Sets.
