(* ===== verification/Queue.v ===== *)
(** * The waiting queue's schedule (src/src/queue.rs, [State])

    Who holds the turn: the index of waiters by priority, key and arrival, its
    operations under the queue's lock, and its invariant. The scan it
    implements is in Schedule.v, the waiting tasks around it in Turns.v, and
    the order of turns over a whole run in TurnOrder.v. *)

From Stdlib Require Import Sorted.
From stdpp Require Import gmap fin_maps.
From S2P Require Import Prelude Ordered.

Record Waiter := mkWaiter { priority : Z; deadline_ms : option Z; key_id : Z }.

Record KeyState := mkKeyState {
  id : Z;
  recency : Z;          (* the service at which the key was last served *)
  waiting : Z }.

Record Level := mkLevel {
  order : gset (Z * Z);           (* (recency, key id), least recent first *)
  by_key : gmap Z (list Z);       (* each key's waiters, in arrival order *)
  seqs : gset Z }.

Definition Level_default : Level := mkLevel ∅ ∅ ∅.

(** [queue.iter().position(|&s| s == seq)] and [queue.remove(pos)] *)
Fixpoint remove_pos (seq : Z) (queue : list Z) : list Z :=
  match queue with
  | [] => []
  | s :: rest => if s =? seq then rest else s :: remove_pos seq rest
  end.

(** The part of [insert] that files a waiter in its level. *)
Definition level_insert (level : Level) (recency key_id seq : Z) : Level :=
  let queue := default [] (by_key level !! key_id) in
  mkLevel
    (if queue is [] then {[(recency, key_id)]} ∪ order level else order level)
    (<[key_id := queue ++ [seq]]> (by_key level))
    ({[seq]} ∪ seqs level).

(** The part of [remove] that takes it out. *)
Definition level_remove (level : Level) (recency key_id seq : Z) : Level :=
  let '(order, by_key) :=
    match by_key level !! key_id with
    | None => (order level, by_key level)
    | Some queue =>
        match remove_pos seq queue with
        | [] => (order level ∖ {[(recency, key_id)]}, delete key_id (by_key level))
        | queue => (order level, <[key_id := queue]> (by_key level))
        end
    end in
  mkLevel order by_key (seqs level ∖ {[seq]}).

(** The part of [serve] that moves a key behind the others. *)
Definition level_serve (level : Level) (old stamp key_id : Z) : Level :=
  if decide ((old, key_id) ∈ order level)
  then mkLevel ({[(stamp, key_id)]} ∪ (order level ∖ {[(old, key_id)]})) (by_key level) (seqs level)
  else level.

Section State.
Context {K : Type} `{Countable K}.

Record State := mkState {
  waiters : gmap Z Waiter;
  levels : gmap Z Level;             (* by priority; the highest is first *)
  deadlines : gset (Z * Z);          (* (deadline, seq) *)
  keys : gmap K KeyState;
  key_of : gmap Z K;
  recency_floor : Z;
  service_seq : Z;
  next_seq : Z;
  next_key_id : Z;
  prune_at : Z }.

Definition State_new (capacity : Z) : State :=
  mkState ∅ ∅ ∅ ∅ ∅ 0 0 0 0 (sat_add u64_max (sat_mul u64_max capacity 2) 16).

Definition len (s : State) : Z := Z.of_nat (size (waiters s)).

(** The key's identity and recency, filed as waiting once more. *)
Definition enter_key (s : State) (key : K) : Z * Z * State :=
  match keys s !! key with
  | Some state =>
      (id state, recency state,
       mkState (waiters s) (levels s) (deadlines s)
         (<[key := mkKeyState (id state) (recency state) (waiting state + 1)]> (keys s))
         (key_of s) (recency_floor s) (service_seq s) (next_seq s) (next_key_id s) (prune_at s))
  | None =>
      let id := next_key_id s in
      (id, recency_floor s,
       mkState (waiters s) (levels s) (deadlines s)
         (<[key := mkKeyState id (recency_floor s) 1]> (keys s))
         (<[id := key]> (key_of s)) (recency_floor s) (service_seq s) (next_seq s)
         (wrap64 (id + 1)) (prune_at s))
  end.

Definition insert (s : State) (priority : Z) (deadline_ms : option Z) (key : K) : Z * State :=
  let seq := next_seq s in
  let '(key_id, recency, s) := enter_key s key in
  let level := default Level_default (levels s !! priority) in
  (seq,
   mkState (<[seq := mkWaiter priority deadline_ms key_id]> (waiters s))
     (<[priority := level_insert level recency key_id seq]> (levels s))
     (match deadline_ms with
      | Some deadline => {[(deadline, seq)]} ∪ deadlines s
      | None => deadlines s
      end)
     (keys s) (key_of s) (recency_floor s) (service_seq s) (wrap64 (seq + 1))
     (next_key_id s) (prune_at s)).

Definition keys_recency (s : State) (key_id : Z) : Z :=
  match key_of s !! key_id ≫= fun key => keys s !! key with
  | Some state => recency state
  | None => recency_floor s
  end.

(** [self.keys.retain(..)], with the closure's effects on the floor and on
    [key_of]. *)
Definition maybe_prune_keys (s : State) : State :=
  if Z.of_nat (size (keys s)) <=? prune_at s then s
  else
    let gone := filter (fun e => waiting e.2 <= 0) (keys s) in
    mkState (waiters s) (levels s) (deadlines s)
      (filter (fun e => 0 < waiting e.2) (keys s))
      (map_fold (fun _ state key_of => delete (id state) key_of) (key_of s) gone)
      (map_fold (fun _ state floor => Z.max floor (recency state)) (recency_floor s) gone)
      (service_seq s) (next_seq s) (next_key_id s) (prune_at s).

(** The key of a waiter that leaves waits once less. *)
Definition leave_key (s : State) (key_id : Z) : State :=
  match key_of s !! key_id with
  | None => s
  | Some key =>
      mkState (waiters s) (levels s) (deadlines s)
        (alter (fun state => mkKeyState (id state) (recency state) (sat_sub (waiting state) 1)) key (keys s))
        (key_of s) (recency_floor s) (service_seq s) (next_seq s) (next_key_id s) (prune_at s)
  end.

Definition remove (s : State) (seq : Z) : option Waiter * State :=
  match waiters s !! seq with
  | None => (None, s)
  | Some waiter =>
      let recency := keys_recency s (key_id waiter) in
      let levels :=
        match levels s !! priority waiter with
        | None => levels s
        | Some level =>
            let level := level_remove level recency (key_id waiter) seq in
            if decide (seqs level = ∅) then delete (priority waiter) (levels s)
            else <[priority waiter := level]> (levels s)
        end in
      let deadlines :=
        match deadline_ms waiter with
        | Some deadline => deadlines s ∖ {[(deadline, seq)]}
        | None => deadlines s
        end in
      let s := mkState (delete seq (waiters s)) levels deadlines (keys s) (key_of s)
        (recency_floor s) (service_seq s) (next_seq s) (next_key_id s) (prune_at s) in
      (Some waiter, maybe_prune_keys (leave_key s (key_id waiter)))
  end.

Abbreviation pair_le := (lex Z.leb Z.leb).

(** The [while let] of [prune_expired]; every round takes a deadline out. *)
Fixpoint prune_loop (fuel : nat) (s : State) (now_ms : Z) : State :=
  match fuel with
  | O => s
  | S fuel =>
      match set_first pair_le (deadlines s) with
      | None => s
      | Some (deadline, seq) =>
          if now_ms <? deadline then s else prune_loop fuel (remove s seq).2 now_ms
      end
  end.

Definition prune_expired (s : State) (now_ms : Z) : State :=
  prune_loop (S (size (deadlines s))) s now_ms.

Definition winner (s : State) (now_ms : Z) : option Z * State :=
  let s := prune_expired s now_ms in
  (p ← set_first (reverse Z.leb) (dom (levels s));
   level ← levels s !! p;
   first ← set_first pair_le (order level);
   queue ← by_key level !! first.2;
   head queue, s).

Definition serve (s : State) (seq : Z) : State :=
  match waiters s !! seq with
  | None => s
  | Some waiter =>
      let stamp := wrap64 (service_seq s + 1) in
      let stamped keys levels :=
        mkState (waiters s) levels (deadlines s) keys (key_of s) (recency_floor s) stamp
          (next_seq s) (next_key_id s) (prune_at s) in
      let s :=
        match key_of s !! key_id waiter with
        | None => stamped (keys s) (levels s)
        | Some key =>
            match keys s !! key with
            | None => stamped (keys s) (levels s)
            | Some state =>
                stamped (<[key := mkKeyState (id state) stamp (waiting state)]> (keys s))
                  ((fun level => level_serve level (recency state) stamp (key_id waiter)) <$> levels s)
            end
        end in
      (remove s seq).2
  end.

Definition oldest (s : State) : option Z := set_first Z.leb (dom (waiters s)).

Definition weakest (s : State) : option (Z * Z) :=
  p ← set_last (reverse Z.leb) (dom (levels s));
  level ← levels s !! p;
  seq ← set_last Z.leb (seqs level);
  Some (seq, p).

End State.
#[global] Arguments State K {_ _}.

(** ** A level's index *)

(** [has seq key]: a waiter of this level. The index lists them by key, in
    arrival order, and orders the keys by recency. *)
Record level_ok (has : Z -> Z -> Prop) (rec : Z -> Z) (l : Level) : Prop := mkLevelOk {
  ok_seqs seq : seq ∈ seqs l <-> exists k, has seq k;
  ok_queue k q : by_key l !! k = Some q ->
    q <> [] /\ StronglySorted Z.lt q /\ forall seq, seq ∈ q <-> has seq k;
  ok_keys seq k : has seq k -> is_Some (by_key l !! k);
  ok_order r k : (r, k) ∈ order l <-> r = rec k /\ is_Some (by_key l !! k) }.

Lemma remove_pos_filter seq q :
  StronglySorted Z.lt q -> forall x, x ∈ remove_pos seq q <-> x ∈ q /\ x <> seq.
Proof.
  induction 1 as [|y q Hs IH Hy]; intros x; simpl.
  - rewrite elem_of_nil. tauto.
  - rewrite List.Forall_forall in Hy. rewrite elem_of_cons.
    destruct (Z.eqb_spec y seq) as [-> |Hne].
    + split; [|tauto]. intros Hx. split; [by right|]. apply list_elem_of_In in Hx. specialize (Hy x Hx). lia.
    + rewrite elem_of_cons, IH. split; [intros [-> |]; tauto|tauto].
Qed.

Lemma remove_pos_sorted seq q : StronglySorted Z.lt q -> StronglySorted Z.lt (remove_pos seq q).
Proof.
  induction 1 as [|y q Hs IH Hy]; simpl; [constructor|].
  case_match; [done|]. constructor; [done|]. rewrite List.Forall_forall in *. intros x Hx.
  apply list_elem_of_In, (remove_pos_filter seq q Hs) in Hx as [Hx _]. apply Hy. by apply list_elem_of_In.
Qed.

Lemma sorted_snoc (q : list Z) x : StronglySorted Z.lt q -> (forall y, y ∈ q -> y < x) -> StronglySorted Z.lt (q ++ [x]).
Proof.
  induction 1 as [|y q Hs IH Hy]; intros Hx; simpl; [by repeat constructor|].
  constructor; [apply IH; intros; apply Hx; by right|].
  rewrite List.Forall_forall in *. intros z [Hz|[-> |[]]]%in_app_iff; [auto|]. apply Hx. by left.
Qed.

Lemma level_ok_empty (has : Z -> Z -> Prop) rec : (forall seq k, ~ has seq k) -> level_ok has rec Level_default.
Proof.
  intros Hno. constructor; simpl.
  - intros seq. split; [set_solver|]. intros [k Hk]. by destruct (Hno seq k).
  - intros k q. by rewrite lookup_empty.
  - intros seq k Hk. by destruct (Hno seq k).
  - intros r k. rewrite lookup_empty. split; [set_solver|]. by intros [_ []].
Qed.

Lemma level_ok_ext (has has' : Z -> Z -> Prop) rec rec' l :
  level_ok has rec l -> (forall seq k, has seq k <-> has' seq k) ->
  (forall seq k, has seq k -> rec k = rec' k) -> level_ok has' rec' l.
Proof.
  intros [H1 H2 H3 H4] Hh Hr. constructor.
  - intros seq. rewrite H1. by setoid_rewrite Hh.
  - intros k q Hq. destruct (H2 k q Hq) as (Hne & Hs & Hin). split_and!; [done|done|].
    intros seq. by rewrite Hin, Hh.
  - intros seq k Hk. apply (H3 seq). by apply Hh.
  - intros r k. rewrite H4. split; intros [-> [q Hq]]; (split; [|by eexists]).
    + destruct (H2 k q Hq) as (Hne & _ & Hin). destruct q as [|x q]; [done|].
      apply (Hr x). apply Hin. by left.
    + destruct (H2 k q Hq) as (Hne & _ & Hin). destruct q as [|x q]; [done|].
      symmetry. apply (Hr x). apply Hin. by left.
Qed.

Lemma level_insert_ok (has : Z -> Z -> Prop) rec l k0 seq0 :
  level_ok has rec l -> (forall seq k, has seq k -> seq < seq0) ->
  level_ok (fun seq k => has seq k \/ seq = seq0 /\ k = k0) rec (level_insert l (rec k0) k0 seq0).
Proof.
  intros [H1 H2 H3 H4] Hlt. constructor; unfold level_insert; simpl.
  - intros seq. rewrite elem_of_union, elem_of_singleton, H1. naive_solver.
  - intros k q. destruct (decide (k = k0)) as [-> |Hne].
    + rewrite lookup_insert_eq. intros [= <-].
      destruct (by_key l !! k0) as [q|] eqn:Eq; simpl.
      * destruct (H2 k0 q Eq) as (Hq & Hs & Hin). split_and!; [by destruct q| |].
        -- apply sorted_snoc; [done|]. intros y Hy. apply (Hlt y k0). by apply Hin.
        -- intros seq. rewrite elem_of_app, list_elem_of_singleton, Hin. naive_solver.
      * split_and!; [done|by repeat constructor|]. intros seq. rewrite list_elem_of_singleton.
        split; [naive_solver|]. intros [Hh|[-> _]]; [|done]. destruct (H3 seq k0 Hh) as [q Hq]. congruence.
    + rewrite lookup_insert_ne by done. intros Hq. destruct (H2 k q Hq) as (Hne' & Hs & Hin).
      split_and!; [done|done|]. intros seq. rewrite Hin. naive_solver.
  - intros seq k [Hh|[-> ->]]; [|by rewrite lookup_insert_eq].
    destruct (decide (k = k0)) as [-> |]; [by rewrite lookup_insert_eq|].
    rewrite lookup_insert_ne by done. eauto.
  - intros r k. assert (Hdom : is_Some (<[k0:=default [] (by_key l !! k0) ++ [seq0]]> (by_key l) !! k) <->
        k = k0 \/ is_Some (by_key l !! k)).
    { rewrite lookup_insert_is_Some. destruct (decide (k = k0)); naive_solver. }
    rewrite Hdom. destruct (by_key l !! k0) as [q|] eqn:Eq; simpl.
    + destruct (H2 k0 q Eq) as (Hq & _). destruct q as [|x q]; [done|]. rewrite H4.
      split; [naive_solver|]. intros [-> [-> |?]]; [|done]. split; [done|]. by rewrite Eq.
    + rewrite elem_of_union, elem_of_singleton, H4. split; [|naive_solver].
      intros [[= -> ->]|[-> ?]]; [by split; [|left]|by split; [|right]].
Qed.

Lemma level_remove_ok (has : Z -> Z -> Prop) rec l k0 seq0 :
  level_ok has rec l -> has seq0 k0 -> (forall k, has seq0 k -> k = k0) ->
  level_ok (fun seq k => has seq k /\ seq <> seq0) rec (level_remove l (rec k0) k0 seq0).
Proof.
  intros [H1 H2 H3 H4] Hh Huniq. destruct (H3 seq0 k0 Hh) as [q0 Eq].
  destruct (H2 k0 q0 Eq) as (Hne & Hs & Hin).
  pose proof (remove_pos_filter seq0 q0 Hs) as Hrin. pose proof (remove_pos_sorted seq0 q0 Hs) as Hrs.
  assert (Hother : forall k q, k <> k0 -> by_key l !! k = Some q ->
    q <> [] /\ StronglySorted Z.lt q /\ (forall seq, seq ∈ q <-> has seq k /\ seq <> seq0)).
  { intros k q Hk Hq. destruct (H2 k q Hq) as (Hne' & Hs' & Hin'). split_and!; [done|done|].
    intros seq. rewrite Hin'. split; [|tauto]. intros Hhk. split; [done|]. intros ->. by specialize (Huniq k Hhk). }
  assert (Hseqs : forall seq, seq ∈ seqs l ∖ {[seq0]} <-> exists k, has seq k /\ seq <> seq0).
  { intros seq. rewrite elem_of_difference, elem_of_singleton, H1. naive_solver. }
  unfold level_remove. rewrite Eq. destruct (remove_pos seq0 q0) as [|x q] eqn:Er; constructor; simpl.
  - done.
  - intros k q. destruct (decide (k = k0)) as [-> |]; [by rewrite lookup_delete_eq|].
    rewrite lookup_delete_ne by done. by apply Hother.
  - intros seq k [Hk Hseq]. destruct (decide (k = k0)) as [-> |].
    + apply Hin in Hk. assert (Hx : seq ∈ []) by (by apply Hrin). by apply elem_of_nil in Hx.
    + rewrite lookup_delete_ne by done. eauto.
  - intros r k. rewrite elem_of_difference, elem_of_singleton, H4.
    destruct (decide (k = k0)) as [-> |].
    + rewrite lookup_delete_eq. split; [|by intros [_ []]]. intros [[-> _] Hr]. by destruct Hr.
    + rewrite lookup_delete_ne by done. naive_solver.
  - done.
  - intros k q'. destruct (decide (k = k0)) as [-> |].
    + rewrite lookup_insert_eq. intros [= <-]. split_and!; [done|done|].
      intros seq. rewrite Hrin, Hin. done.
    + rewrite lookup_insert_ne by done. by apply Hother.
  - intros seq k [Hk Hseq]. destruct (decide (k = k0)) as [-> |]; [by rewrite lookup_insert_eq|].
    rewrite lookup_insert_ne by done. eauto.
  - intros r k. rewrite H4, lookup_insert_is_Some.
    destruct (decide (k0 = k)) as [<- |]; [rewrite Eq|]; naive_solver.
Qed.

Lemma level_serve_ok (has : Z -> Z -> Prop) rec l stamp k0 :
  level_ok has rec l -> (forall k, rec k <> stamp) ->
  level_ok has (fun k => if decide (k = k0) then stamp else rec k) (level_serve l (rec k0) stamp k0).
Proof.
  intros [H1 H2 H3 H4] Hfresh. unfold level_serve. case_decide as Hin; constructor; simpl; try done.
  - intros r k. rewrite elem_of_union, elem_of_singleton, elem_of_difference, elem_of_singleton, H4.
    apply H4 in Hin as [_ Hk0]. case_decide as Hk; [subst|]; naive_solver.
  - intros r k. rewrite H4. case_decide as Hk; [subst|done]. rewrite H4 in Hin. naive_solver.
Qed.

(** ** The index of all waiters *)

Definition has (ws : gmap Z Waiter) (p seq k : Z) : Prop :=
  exists w, ws !! seq = Some w /\ priority w = p /\ key_id w = k.

Definition drop_deadline (w : Waiter) (seq : Z) (dl : gset (Z * Z)) : gset (Z * Z) :=
  match deadline_ms w with Some d => dl ∖ {[(d, seq)]} | None => dl end.
Definition add_deadline (w : Waiter) (seq : Z) (dl : gset (Z * Z)) : gset (Z * Z) :=
  match deadline_ms w with Some d => {[(d, seq)]} ∪ dl | None => dl end.

Record index_ok (ws : gmap Z Waiter) (rec : Z -> Z) (lv : gmap Z Level) (dl : gset (Z * Z)) : Prop := mkIndexOk {
  index_level p l : lv !! p = Some l -> seqs l <> ∅ /\ level_ok (has ws p) rec l;
  index_present seq w : ws !! seq = Some w -> is_Some (lv !! priority w);
  index_deadline d seq : (d, seq) ∈ dl <-> exists w, ws !! seq = Some w /\ deadline_ms w = Some d }.

Lemma index_ext ws rec rec' lv dl :
  index_ok ws rec lv dl -> (forall seq w, ws !! seq = Some w -> rec (key_id w) = rec' (key_id w)) ->
  index_ok ws rec' lv dl.
Proof.
  intros [H1 H2 H3] Hr. constructor; [|done..]. intros p l Hl. destruct (H1 p l Hl) as [Hne Hok].
  split; [done|]. eapply level_ok_ext; [done|done|]. intros seq k (w & Hw & _ & <-). eauto.
Qed.

Lemma has_level ws rec lv dl p : index_ok ws rec lv dl -> level_ok (has ws p) rec (default Level_default (lv !! p)).
Proof.
  intros [H1 H2 H3]. destruct (lv !! p) as [l|] eqn:E; simpl; [by apply H1|].
  apply level_ok_empty. intros seq k (w & Hw & <- & _). destruct (H2 seq w Hw). congruence.
Qed.

Lemma index_insert ws rec lv dl seq0 w :
  index_ok ws rec lv dl -> (forall seq w, ws !! seq = Some w -> seq < seq0) ->
  index_ok (<[seq0 := w]> ws) rec
    (<[priority w := level_insert (default Level_default (lv !! priority w)) (rec (key_id w)) (key_id w) seq0]> lv)
    (add_deadline w seq0 dl).
Proof.
  intros Hix Hlt. assert (Hfresh : ws !! seq0 = None).
  { destruct (ws !! seq0) as [w'|] eqn:E; [|done]. specialize (Hlt _ _ E). lia. }
  pose proof (has_level ws rec lv dl (priority w) Hix) as Hok. destruct Hix as [H1 H2 H3].
  assert (Hhas : forall p seq k, has (<[seq0 := w]> ws) p seq k <->
    has ws p seq k \/ seq = seq0 /\ k = key_id w /\ p = priority w).
  { intros p seq k. unfold has. setoid_rewrite lookup_insert_Some.
    split; [naive_solver|]. intros [(w' & Hw & Hp)|(-> & -> & ->)]; [|by eauto 10].
    exists w'. split; [right|done]. split; [intros <-; congruence|done]. }
  constructor.
  - intros p l. rewrite lookup_insert_Some. intros [[<- <-]|[Hne Hl]].
    + split; [unfold level_insert; simpl; set_solver|].
      eapply level_ok_ext; [apply (level_insert_ok _ rec _ (key_id w) seq0 Hok)| |done].
      * intros seq k (w' & Hw & _). eauto.
      * intros seq k. simpl. rewrite Hhas. tauto.
    + destruct (H1 p l Hl) as [Hs Hl']. split; [done|]. eapply level_ok_ext; [done| |done].
      intros seq k. rewrite Hhas. split; [by left|]. intros [?|(_ & _ & ->)]; [done|congruence].
  - intros seq w'. rewrite lookup_insert_is_Some', lookup_insert_Some.
    intros [[<- <-]|[Hne Hw]]; [by left|right; eauto].
  - intros d seq. unfold add_deadline. setoid_rewrite lookup_insert_Some.
    destruct (deadline_ms w) as [d0|] eqn:Ed.
    + rewrite elem_of_union, elem_of_singleton, H3. split.
      * intros [[= -> ->]|(w' & Hw & Hd)]; [by eauto|]. exists w'. split; [right|done].
        split; [intros <-; congruence|done].
      * intros (w' & [[<- <-]|[Hne Hw]] & Hd); [left; congruence|right; eauto].
    + rewrite H3. split.
      * intros (w' & Hw & Hd). exists w'. split; [right|done]. split; [intros <-; congruence|done].
      * intros (w' & [[<- <-]|[Hne Hw]] & Hd); [congruence|eauto].
Qed.

(** The levels after a removal. *)
Definition levels_remove (lv : gmap Z Level) (w : Waiter) (rec seq : Z) : gmap Z Level :=
  match lv !! priority w with
  | None => lv
  | Some level =>
      let level := level_remove level rec (key_id w) seq in
      if decide (seqs level = ∅) then delete (priority w) lv else <[priority w := level]> lv
  end.

Lemma index_remove ws rec lv dl seq0 w :
  index_ok ws rec lv dl -> ws !! seq0 = Some w ->
  index_ok (delete seq0 ws) rec (levels_remove lv w (rec (key_id w)) seq0) (drop_deadline w seq0 dl).
Proof.
  intros [H1 H2 H3] Hw. destruct (H2 seq0 w Hw) as [l Hl]. destruct (H1 _ l Hl) as [Hne Hok].
  assert (Hhas : forall p seq k, has (delete seq0 ws) p seq k <-> has ws p seq k /\ seq <> seq0).
  { intros p seq k. unfold has. setoid_rewrite lookup_delete_Some. naive_solver. }
  pose proof (level_remove_ok _ rec l (key_id w) seq0 Hok ltac:(by exists w)
    ltac:(intros k (w' & Hw' & _ & <-); congruence)) as Hok'.
  unfold levels_remove. rewrite Hl. set (l' := level_remove l (rec (key_id w)) (key_id w) seq0) in *.
  assert (Hpres : forall seq w', delete seq0 ws !! seq = Some w' -> is_Some (lv !! priority w')).
  { intros seq w' [_ Hw']%lookup_delete_Some. eauto. }
  assert (Hok'' : level_ok (has (delete seq0 ws) (priority w)) rec l').
  { eapply level_ok_ext; [done| |done]. intros seq k. simpl. by rewrite Hhas. }
  constructor.
  - intros p m Hm. assert (Hother : p <> priority w -> lv !! p = Some m ->
      seqs m <> ∅ /\ level_ok (has (delete seq0 ws) p) rec m).
    { intros Hp Hmp. destruct (H1 p m Hmp) as [Hs Hm']. split; [done|]. eapply level_ok_ext; [done| |done].
      intros seq k. rewrite Hhas. split; [|by intros []]. intros Hh. split; [done|]. intros ->.
      destruct Hh as (w' & Hw' & <- & _). congruence. }
    case_decide as Hemp; [apply lookup_delete_Some in Hm as []|apply lookup_insert_Some in Hm as [[<- <-]|[]]]; auto.
  - intros seq w' Hw'. destruct (Hpres seq w' Hw') as [m Hm].
    destruct (decide (priority w' = priority w)) as [E|E].
    + assert (Hs : seq ∈ seqs l').
      { apply (ok_seqs _ _ _ Hok''). exists (key_id w'). exists w'. by rewrite E. }
      case_decide as Hemp; [rewrite Hemp in Hs; set_solver|]. rewrite E, lookup_insert_eq. eauto.
    + case_decide; [rewrite lookup_delete_ne by done|rewrite lookup_insert_ne by done]; eauto.
  - intros d seq. unfold drop_deadline. setoid_rewrite lookup_delete_Some.
    destruct (deadline_ms w) as [d0|] eqn:Ed.
    + rewrite elem_of_difference, elem_of_singleton, H3. split; [|naive_solver].
      intros ((w' & Hw' & Hd) & Hnot). exists w'. split; [|done]. split; [|done]. intros <-. naive_solver congruence.
    + rewrite H3. naive_solver congruence.
Qed.

Lemma index_serve ws rec lv dl stamp k0 :
  index_ok ws rec lv dl -> (forall k, rec k <> stamp) ->
  index_ok ws (fun k => if decide (k = k0) then stamp else rec k)
    ((fun level => level_serve level (rec k0) stamp k0) <$> lv) dl.
Proof.
  intros [H1 H2 H3] Hfresh. constructor; [| |done].
  - intros p l. rewrite lookup_fmap. destruct (lv !! p) as [m|] eqn:Em; simpl; [|done]. intros [= <-].
    destruct (H1 p m Em) as [Hne Hok]. split; [unfold level_serve; by case_decide|]. by apply level_serve_ok.
  - intros seq w Hw. rewrite lookup_fmap, fmap_is_Some. eauto.
Qed.

(** ** The keys' bookkeeping *)

Definition waiting_on (ws : gmap Z Waiter) (i : Z) : Z :=
  Z.of_nat (size (filter (fun sw => key_id sw.2 = i) ws)).

Lemma waiting_on_insert ws seq w i :
  ws !! seq = None ->
  waiting_on (<[seq := w]> ws) i = waiting_on ws i + if decide (key_id w = i) then 1 else 0.
Proof.
  intros Hn. unfold waiting_on. case_decide as E.
  - rewrite map_filter_insert_True by done. rewrite map_size_insert_None; [lia|].
    apply map_lookup_filter_None. by left.
  - rewrite map_filter_insert_False by done. rewrite delete_id by done. lia.
Qed.

Lemma waiting_on_delete ws seq w i :
  ws !! seq = Some w ->
  waiting_on (delete seq ws) i = waiting_on ws i - if decide (key_id w = i) then 1 else 0.
Proof.
  intros Hw. rewrite <- (insert_id ws seq w Hw) at 2. rewrite <- insert_delete_eq.
  rewrite waiting_on_insert by apply lookup_delete_eq. lia.
Qed.

Lemma waiting_on_pos ws seq w : ws !! seq = Some w -> 0 < waiting_on ws (key_id w).
Proof.
  intros Hw. pose proof (waiting_on_delete ws seq w (key_id w) Hw) as E. rewrite decide_True in E by done.
  unfold waiting_on in *. lia.
Qed.

Lemma waiting_on_none ws i : (forall seq w, ws !! seq = Some w -> key_id w <> i) -> waiting_on ws i = 0.
Proof.
  intros Hno. unfold waiting_on. enough (filter (fun sw => key_id sw.2 = i) ws = ∅) as -> by done.
  apply map_empty_filter. intros seq w Hw. simpl. eauto.
Qed.

Section Invariant.
Context {K : Type} `{Countable K}.
Implicit Types (s : State K) (ks : gmap K KeyState) (ko : gmap Z K).

Record keys_ok (ws : gmap Z Waiter) ks ko (service n : Z) : Prop := mkKeysOk {
  key_state k st : ks !! k = Some st ->
    ko !! id st = Some k /\ 0 <= recency st <= service /\ waiting st = waiting_on ws (id st);
  key_known i k : ko !! i = Some k -> 0 <= i < n /\ exists st, ks !! k = Some st /\ id st = i;
  key_waiter seq w : ws !! seq = Some w -> is_Some (ko !! key_id w) }.

Record wf (n : Z) s : Prop := mkWf {
  wf_index : index_ok (waiters s) (keys_recency s) (levels s) (deadlines s);
  wf_keys : keys_ok (waiters s) (keys s) (key_of s) (service_seq s) (next_key_id s);
  wf_seqs seq w : waiters s !! seq = Some w -> 0 <= seq < next_seq s;
  wf_counters : 0 <= recency_floor s <= service_seq s /\ service_seq s <= n /\
    0 <= next_seq s <= n /\ 0 <= next_key_id s <= n }.

Lemma queue_wf_new capacity : wf 0 (State_new (K := K) capacity).
Proof.
  constructor; simpl; [| |by intros seq w; rewrite lookup_empty|lia].
  - constructor; simpl.
    + intros p l. by rewrite lookup_empty.
    + intros seq w. by rewrite lookup_empty.
    + intros d seq. setoid_rewrite lookup_empty. split; [set_solver|naive_solver].
  - constructor; simpl.
    + intros k st. by rewrite lookup_empty.
    + intros i k. by rewrite lookup_empty.
    + intros seq w. by rewrite lookup_empty.
Qed.

Lemma wf_later n m s : wf n s -> n <= m -> wf m s.
Proof. intros [H1 H2 H3 H4] Hm. constructor; [done..|lia]. Qed.

(** The recency of a known key, whatever its entry. *)
Lemma recency_known ws ks ko service n k st :
  keys_ok ws ks ko service n -> ks !! k = Some st -> ko !! id st ≫= (fun key => ks !! key) = Some st.
Proof. intros Hk Hst. destruct (key_state _ _ _ _ _ Hk k st Hst) as [-> _]. done. Qed.

Lemma enter_key_ok n s key :
  wf n s -> n < u64_max ->
  let '(i, r, s') := enter_key s key in
  (forall j, keys_recency s' j = keys_recency s j) /\ r = keys_recency s i /\
  (exists st, keys s' !! key = Some st /\ id st = i) /\
  waiters s' = waiters s /\ levels s' = levels s /\ deadlines s' = deadlines s /\
  service_seq s' = service_seq s /\ next_seq s' = next_seq s /\ recency_floor s' = recency_floor s /\
  0 <= next_key_id s' <= next_key_id s + 1 /\
  (forall seq w, key_id w = i -> waiters s !! seq = None ->
    keys_ok (<[seq := w]> (waiters s)) (keys s') (key_of s') (service_seq s) (next_key_id s')).
Proof.
  intros [_ Hk _ Hc] Hn. destruct Hk as [K1 K2 K3]. unfold enter_key.
  destruct (keys s !! key) as [st|] eqn:Est; cbn [waiters levels deadlines service_seq next_seq recency_floor next_key_id keys key_of].
  - destruct (K1 key st Est) as (Hko & Hr & Hwt).
    assert (Hrec : forall j, keys_recency (mkState (waiters s) (levels s) (deadlines s)
        (<[key := mkKeyState (id st) (recency st) (waiting st + 1)]> (keys s))
        (key_of s) (recency_floor s) (service_seq s) (next_seq s) (next_key_id s) (prune_at s)) j = keys_recency s j).
    { intros j. unfold keys_recency. simpl. destruct (key_of s !! j) as [k'|] eqn:Ej; simpl; [|done].
      destruct (decide (key = k')) as [<- |]; [by rewrite lookup_insert_eq, Est|by rewrite lookup_insert_ne]. }
    split_and!; try done; try lia.
    + unfold keys_recency. rewrite Hko. simpl. by rewrite Est.
    + eexists. by rewrite lookup_insert_eq.
    + intros seq w Hw Hnone. constructor.
      * intros k st'. rewrite lookup_insert_Some. intros [[<- <-]|[Hne Hst']]; simpl.
        -- split_and!; [done|lia|lia|]. rewrite waiting_on_insert, decide_True by done. lia.
        -- destruct (K1 k st' Hst') as (Hko' & Hr' & Hwt'). split_and!; [done|lia|lia|].
           rewrite waiting_on_insert, decide_False by (done || congruence). lia.
      * intros i k Hi. destruct (K2 i k Hi) as (Hlt & st' & Hst' & Hid). split; [done|].
        destruct (decide (key = k)) as [<- |]; [|by rewrite lookup_insert_ne; eauto].
        rewrite lookup_insert_eq. eexists. split; [done|]. simpl. congruence.
      * intros seq' w'. rewrite lookup_insert_Some. intros [[<- <-]|[_ Hw']]; [by rewrite Hw, Hko|eauto].
  - assert (Hfresh : key_of s !! next_key_id s = None).
    { destruct (key_of s !! next_key_id s) as [k'|] eqn:E; [|done]. destruct (K2 _ _ E). lia. }
    assert (Hwrap : wrap64 (next_key_id s + 1) = next_key_id s + 1) by (apply wrap64_small; mlia).
    split_and!; try done; try lia.
    + intros j. unfold keys_recency. simpl. destruct (decide (next_key_id s = j)) as [<- |Hne].
      * rewrite lookup_insert_eq, Hfresh. simpl. by rewrite lookup_insert_eq.
      * rewrite lookup_insert_ne by done. destruct (key_of s !! j) as [k'|] eqn:Ej; simpl; [|done].
        rewrite lookup_insert_ne; [done|]. intros <-. destruct (K2 _ _ Ej) as (_ & st & Hst & _). congruence.
    + unfold keys_recency. by rewrite Hfresh.
    + eexists. by rewrite lookup_insert_eq.
    + intros seq w Hw Hnone. rewrite Hwrap.
      assert (Hno : waiting_on (waiters s) (next_key_id s) = 0).
      { apply waiting_on_none. intros seq' w' Hw' E. destruct (K3 _ _ Hw') as [k' Hk']. rewrite E in Hk'. congruence. }
      constructor.
      * intros k st'. rewrite lookup_insert_Some. intros [[<- <-]|[Hne Hst']]; simpl.
        -- split_and!; [by rewrite lookup_insert_eq|lia|lia|]. rewrite waiting_on_insert, decide_True by done. lia.
        -- destruct (K1 k st' Hst') as (Hko' & Hr' & Hwt').
           assert (id st' <> next_key_id s) by congruence.
           split_and!; [by rewrite lookup_insert_ne|lia|lia|].
           rewrite waiting_on_insert, decide_False by (done || congruence). lia.
      * intros i k. rewrite lookup_insert_Some. intros [[<- <-]|[Hne Hi]].
        -- split; [lia|]. rewrite lookup_insert_eq. by eexists.
        -- destruct (K2 i k Hi) as (Hlt & st' & Hst' & Hid). split; [lia|]. exists st'. split; [|done].
           rewrite lookup_insert_ne; [done|]. intros <-. congruence.
      * intros seq' w'. rewrite lookup_insert_Some. intros [[<- <-]|[_ Hw']].
        -- by rewrite Hw, lookup_insert_eq.
        -- destruct (decide (next_key_id s = key_id w')) as [<- |]; [by rewrite lookup_insert_eq|].
           rewrite lookup_insert_ne by done. eauto.
Qed.

Lemma insert_ok n s p d key :
  wf n s -> n < u64_max ->
  let '(seq, s') := insert s p d key in
  wf (n + 1) s' /\ seq = next_seq s /\
  exists i, waiters s' = <[seq := mkWaiter p d i]> (waiters s) /\ waiters s !! seq = None.
Proof.
  intros Hwf Hn. pose proof (enter_key_ok n s key Hwf Hn) as He. unfold insert.
  destruct (enter_key s key) as [[i r] s1].
  destruct He as (Hrec & -> & _ & Ew & El & Ed & Es & En & Ef & Hid & Hkeys).
  destruct Hwf as [Hix Hk Hsq Hc].
  assert (Hnone : waiters s !! next_seq s = None).
  { destruct (waiters s !! next_seq s) as [w|] eqn:E; [|done]. specialize (Hsq _ _ E). lia. }
  assert (Hwrap : wrap64 (next_seq s + 1) = next_seq s + 1) by (apply wrap64_small; mlia).
  split; [|by rewrite Ew; eauto]. rewrite Ew, El, Ed, Es, Ef.
  constructor; simpl.
  - eapply index_ext.
    + exact (index_insert _ (keys_recency s) _ _ (next_seq s) (mkWaiter p d i) Hix
        ltac:(intros; apply Hsq in H0; lia)).
    + intros seq w _. rewrite <- Hrec. unfold keys_recency. simpl. by rewrite Ef.
  - by apply (Hkeys (next_seq s) (mkWaiter p d i)).
  - intros seq w. rewrite Hwrap, lookup_insert_Some. intros [[<- _]|[_ Hw]]; [lia|]. specialize (Hsq _ _ Hw). lia.
  - rewrite Hwrap. lia.
Qed.

Lemma keys_recency_leave s i j : keys_recency (leave_key s i) j = keys_recency s j.
Proof.
  unfold leave_key, keys_recency. destruct (key_of s !! i) as [key|]; [|done]. simpl.
  destruct (key_of s !! j) as [k|]; simpl; [|done]. rewrite lookup_alter.
  case_decide; [subst|done]. by destruct (keys s !! k).
Qed.

Lemma leave_key_ok ws s seq w :
  keys_ok ws (keys s) (key_of s) (service_seq s) (next_key_id s) -> ws !! seq = Some w ->
  let s' := leave_key s (key_id w) in
  keys_ok (delete seq ws) (keys s') (key_of s') (service_seq s') (next_key_id s') /\
  waiters s' = waiters s /\ levels s' = levels s /\ deadlines s' = deadlines s /\
  service_seq s' = service_seq s /\ next_seq s' = next_seq s /\ next_key_id s' = next_key_id s /\
  recency_floor s' = recency_floor s.
Proof.
  intros [K1 K2 K3] Hw. destruct (K3 seq w Hw) as [key Hkey]. unfold leave_key. rewrite Hkey. simpl.
  destruct (K2 _ _ Hkey) as (_ & st0 & Hst0 & Hid0). destruct (K1 key st0 Hst0) as (Hko & Hr & Hwt).
  pose proof (waiting_on_pos ws seq w Hw) as Hpos.
  split_and!; try done. constructor.
  - intros k st. rewrite lookup_alter. case_decide as E; [subst k|].
    + rewrite Hst0. simpl. intros [= <-]. simpl. split_and!; [done|lia|lia|].
      rewrite (waiting_on_delete ws seq w) by done. rewrite decide_True by done.
      unfold sat_sub. rewrite Hwt, Hid0. lia.
    + intros Hst. destruct (K1 k st Hst) as (Hko' & Hr' & Hwt'). split_and!; [done|lia|lia|].
      rewrite (waiting_on_delete ws seq w) by done. rewrite decide_False; [lia|]. intros Heq. congruence.
  - intros i k Hi. destruct (K2 i k Hi) as (Hlt & st & Hst & Hid). split; [done|].
    rewrite lookup_alter. case_decide as E; [subst k|by eauto]. rewrite Hst. simpl. by eexists.
  - intros seq' w' [_ Hw']%lookup_delete_Some. eauto.
Qed.

Lemma prune_key_of (gone : gmap K KeyState) ko i k :
  map_fold (fun _ st ko => delete (id st) ko) ko gone !! i = Some k <->
  ko !! i = Some k /\ forall k' st, gone !! k' = Some st -> id st <> i.
Proof.
  revert i k. apply (map_fold_weak_ind (fun ko' gone => forall i k, ko' !! i = Some k <->
    ko !! i = Some k /\ forall k' st, gone !! k' = Some st -> id st <> i)).
  - intros i k. setoid_rewrite lookup_empty. naive_solver.
  - intros k0 st0 m r Hnone IH i k. rewrite lookup_delete_Some, IH.
    setoid_rewrite lookup_insert_Some. split; [naive_solver|].
    intros [Hk Hall]. split_and!; [apply (Hall k0); by left|done|].
    intros k' st Hst. apply (Hall k'). right. split; [|done]. intros <-. congruence.
Qed.

Lemma prune_floor (gone : gmap K KeyState) floor hi :
  floor <= hi -> (forall k st, gone !! k = Some st -> recency st <= hi) ->
  floor <= map_fold (fun _ st f => Z.max f (recency st)) floor gone <= hi.
Proof.
  intros Hf. apply (map_fold_weak_ind (fun f gone =>
    (forall k st, gone !! k = Some st -> recency st <= hi) -> floor <= f <= hi)); [lia|].
  intros k st m r Hnone IH Hall.
  assert (Hr : recency st <= hi) by (apply (Hall k), lookup_insert_eq).
  enough (floor <= r <= hi) by lia. apply IH. intros k' st' Hst'. apply (Hall k').
  rewrite lookup_insert_ne; [done|]. intros <-. congruence.
Qed.

Lemma maybe_prune_keys_ok n s :
  wf n s ->
  let s' := maybe_prune_keys s in
  wf n s' /\ waiters s' = waiters s /\ deadlines s' = deadlines s /\
  forall seq w, waiters s !! seq = Some w -> keys_recency s' (key_id w) = keys_recency s (key_id w).
Proof.
  intros Hwf. unfold maybe_prune_keys. case_match; [done|]. destruct Hwf as [Hix Hk Hsq Hc].
  set (gone := filter (fun e => waiting e.2 <= 0) (keys s)).
  set (kept := filter (fun e => 0 < waiting e.2) (keys s)). destruct Hk as [K1 K2 K3].
  assert (Hgone : forall i k st, waiting_on (waiters s) i <> 0 -> gone !! k = Some st -> id st <> i).
  { intros i k st Hpos [Hst Hle]%map_lookup_filter_Some Hid. simpl in Hle.
    destruct (K1 k st Hst) as (_ & _ & Hwt). rewrite Hid in Hwt. unfold waiting_on in *. lia. }
  assert (Hkeep : forall seq w, waiters s !! seq = Some w -> exists k st, key_of s !! key_id w = Some k /\
    keys s !! k = Some st /\ kept !! k = Some st /\
    map_fold (fun _ st ko => delete (id st) ko) (key_of s) gone !! key_id w = Some k).
  { intros seq w Hw. destruct (K3 seq w Hw) as [k Hko]. destruct (K2 _ _ Hko) as (_ & st & Hst & Hid).
    pose proof (waiting_on_pos _ _ _ Hw) as Hpos. destruct (K1 k st Hst) as (_ & _ & Hwt).
    exists k, st. split_and!; [done|done| |].
    - apply map_lookup_filter_Some. split; [done|]. simpl. rewrite Hwt, Hid. lia.
    - apply prune_key_of. split; [done|]. intros k' st' Hst'. eapply Hgone; [|done]. lia. }
  assert (Hrec : forall seq w, waiters s !! seq = Some w ->
    (match map_fold (fun _ st ko => delete (id st) ko) (key_of s) gone !! key_id w ≫= fun key => kept !! key with
     | Some st => recency st
     | None => map_fold (fun _ st f => Z.max f (recency st)) (recency_floor s) gone end) = keys_recency s (key_id w)).
  { intros seq w Hw. destruct (Hkeep seq w Hw) as (k & st & Hko & Hst & Hkept & ->).
    unfold keys_recency. rewrite Hko. simpl. by rewrite Hkept, Hst. }
  split; [|by eauto].
  pose proof (prune_floor gone (recency_floor s) (service_seq s) ltac:(lia)
    ltac:(intros k st [Hst _]%map_lookup_filter_Some; apply K1 in Hst; lia)) as Hfl.
  constructor; simpl; [| |done|lia].
  - eapply index_ext; [done|]. intros seq w Hw. symmetry. by apply (Hrec seq).
  - constructor.
    + intros k st [Hst Hpos]%map_lookup_filter_Some. simpl in Hpos. destruct (K1 k st Hst) as (Hko & Hr & Hwt).
      split_and!; [|lia|lia|done]. apply prune_key_of. split; [done|]. intros k' st' Hst'. eapply Hgone; [|done]. lia.
    + intros i k [Hi Hall]%prune_key_of. destruct (K2 i k Hi) as (Hlt & st & Hst & Hid). split; [done|].
      exists st. split; [|done]. apply map_lookup_filter_Some. split; [done|]. simpl.
      destruct (Z.lt_ge_cases 0 (waiting st)); [done|]. exfalso. apply (Hall k st); [|done].
      apply map_lookup_filter_Some. split; [done|]. simpl. lia.
    + intros seq w Hw. destruct (Hkeep seq w Hw) as (k & st & _ & _ & _ & Hko). by eexists.
Qed.

(** A removal: the waiter goes, everything else stays in its place. *)
Lemma remove_ok n s seq :
  wf n s ->
  let '(o, s') := remove s seq in
  wf n s' /\ o = waiters s !! seq /\ waiters s' = delete seq (waiters s) /\
  deadlines s' = match waiters s !! seq with Some w => drop_deadline w seq (deadlines s) | None => deadlines s end /\
  forall q w, waiters s' !! q = Some w -> keys_recency s' (key_id w) = keys_recency s (key_id w).
Proof.
  intros Hwf. unfold remove. destruct (waiters s !! seq) as [w|] eqn:Ew.
  2:{ split_and!; try done. by rewrite delete_id. }
  destruct Hwf as [Hix Hk Hsq Hc].
  set (s1 := mkState (delete seq (waiters s)) _ _ _ _ _ _ _ _ _).
  pose proof (leave_key_ok (waiters s) s1 seq w Hk Ew) as (Hk' & E1 & E2 & E3 & E4 & E5 & E6 & E7).
  set (s2 := leave_key s1 (key_id w)) in *.
  assert (Hrec : forall j, keys_recency s2 j = keys_recency s j) by (intros j; exact (keys_recency_leave s1 (key_id w) j)).
  assert (Hwf2 : wf n s2).
  { constructor; [| |intros q w' Hq|]; rewrite ?E1, ?E2, ?E3, ?E4, ?E5, ?E6, ?E7.
    - eapply index_ext; [exact (index_remove _ _ _ _ seq w Hix Ew)|]. intros q w' _. by rewrite Hrec.
    - by rewrite E4, E6 in Hk'.
    - rewrite E1 in Hq. change (delete seq (waiters s) !! q = Some w') in Hq.
      apply lookup_delete_Some in Hq as [_ Hq]. exact (Hsq q w' Hq).
    - done. }
  destruct (maybe_prune_keys_ok n s2 Hwf2) as (Hwf3 & Ew3 & Ed3 & Hr3).
  split_and!; [done|done|by rewrite Ew3, E1|by rewrite Ed3, E3|].
  intros q w'. rewrite Ew3. intros Hq. by rewrite (Hr3 q w' Hq), Hrec.
Qed.

End Invariant.
