(* ===== verification/Schedule.v ===== *)
(** * Who holds the turn (src/src/queue.rs, [prune_expired], [winner], [serve])

    The index of Queue.v against a scan of the same state: the turn belongs to
    the live waiter with the highest priority, then the key with the smallest
    recency stamp and number, then the smallest sequence number. What those
    stamps and numbers say about the run is the subject of TurnOrder.v. *)

From Stdlib Require Import Sorted.
From stdpp Require Import gmap fin_maps.
From S2P Require Import Prelude Ordered Queue.

(** ** The scan *)

(** A waiter whose deadline has not passed. *)
Definition live (now_ms : Z) (w : Waiter) : Prop :=
  match deadline_ms w with Some d => now_ms < d | None => True end.

#[export] Instance live_dec now_ms w : base.Decision (live now_ms w).
Proof. unfold live. destruct (deadline_ms w); apply _. Defined.

Abbreviation Rank := (Z * (Z * (Z * Z)))%type.
Definition rank_le : Rank -> Rank -> bool :=
  lex (reverse Z.leb) (lex Z.leb (lex Z.leb Z.leb)).

Section Turn.
Context {K : Type} `{Countable K}.
Implicit Types (s : State K).

Definition rank s (e : Z * Waiter) : Rank :=
  (priority e.2, (keys_recency s (key_id e.2), (key_id e.2, e.1))).

Definition ranks s (now_ms : Z) : list Rank :=
  rank s <$> map_to_list (filter (fun e => live now_ms e.2) (waiters s)).

Definition turn s (now_ms : Z) : option Z :=
  (fun r : Rank => r.2.2.2) <$> least rank_le (ranks s now_ms).

Lemma first_pair (d q : Z) (l : gset (Z * Z)) :
  set_first (lex Z.leb Z.leb) l = Some (d, q) ->
  (d, q) ∈ l /\ forall d' q', (d', q') ∈ l -> d <= d' /\ (d' <= d -> q <= q').
Proof.
  intros Ef. pose proof (set_first_Some (lex Z.leb Z.leb) l (d, q)) as Hs. rewrite Hs in Ef.
  destruct Ef as [Hin Hmin]. split; [done|]. intros d' q' Hin'. specialize (Hmin _ Hin').
  pose proof (lex_spec Z.leb Z.leb (d, q) (d', q')) as Hl. rewrite Hl in Hmin. simpl in Hmin.
  by rewrite !Z.leb_le in Hmin.
Qed.

Lemma first_highest p (l : gset Z) :
  set_first (reverse Z.leb) l = Some p -> p ∈ l /\ forall p', p' ∈ l -> p' <= p.
Proof.
  intros Ef. pose proof (set_first_Some (reverse Z.leb) l p) as Hs. rewrite Hs in Ef.
  destruct Ef as [Hin Hmin]. split; [done|]. intros p' Hin'. by apply Z.leb_le, Hmin.
Qed.

(** ** Dropping the expired *)

Lemma prune_loop_ok n fuel s now_ms :
  wf n s -> (size (deadlines s) < fuel)%nat ->
  let s' := prune_loop fuel s now_ms in
  wf n s' /\ waiters s' = filter (fun e => live now_ms e.2) (waiters s) /\
  forall q w, waiters s' !! q = Some w -> keys_recency s' (key_id w) = keys_recency s (key_id w).
Proof.
  revert s. induction fuel as [|fuel IH]; intros s Hwf Hf; [lia|]. cbn [prune_loop].
  destruct (set_first _ (deadlines s)) as [[d q]|] eqn:Ef.
  - apply first_pair in Ef as [Hin Hmin].
    destruct (Z.ltb_spec now_ms d) as [Hlt|Hle].
    + split_and!; [done| |done]. symmetry. apply map_filter_id. intros q' w' Hw'. simpl. unfold live.
      destruct (deadline_ms w') as [d'|] eqn:Ed; [|done].
      assert (Hd : (d', q') ∈ deadlines s) by (apply (index_deadline _ _ _ _ (wf_index _ _ Hwf)); eauto).
      destruct (Hmin _ _ Hd). lia.
    + pose proof (remove_ok n s q Hwf) as Hrm. destruct (remove s q) as [o s'].
      destruct Hrm as (Hwf' & _ & Ews & Edl & Hrec). simpl.
      apply (index_deadline _ _ _ _ (wf_index _ _ Hwf)) in Hin as (w & Hw & Hd). rewrite Hw in Edl.
      assert (Hsize : (size (deadlines s') < fuel)%nat).
      { rewrite Edl. unfold drop_deadline. rewrite Hd.
        assert (Hin : {[(d, q)]} ⊆ deadlines s).
        { apply singleton_subseteq_l, (index_deadline _ _ _ _ (wf_index _ _ Hwf)). eauto. }
        pose proof (subseteq_size _ _ Hin) as Hsz. rewrite size_singleton in Hsz.
        rewrite size_difference, size_singleton by done. lia. }
      destruct (IH s' Hwf' Hsize) as (H1 & H2 & H3). split_and!; [done| |].
      * rewrite H2, Ews, map_filter_delete. apply delete_id, map_lookup_filter_None. right.
        intros w' Hw'. simpl. unfold live. simplify_eq. rewrite Hd. lia.
      * intros q' w' Hq'. rewrite (H3 q' w' Hq'). apply (Hrec q').
        rewrite H2 in Hq'. by apply map_lookup_filter_Some in Hq' as [].
  - rewrite set_first_None in Ef. split_and!; [done| |done]. symmetry. apply map_filter_id. intros q' w' Hw'.
    simpl. unfold live. destruct (deadline_ms w') as [d'|] eqn:Ed; [|done].
    assert (Hd : (d', q') ∈ deadlines s) by (apply (index_deadline _ _ _ _ (wf_index _ _ Hwf)); eauto).
    rewrite Ef in Hd. set_solver.
Qed.

Lemma prune_expired_ok n s now_ms :
  wf n s ->
  let s' := prune_expired s now_ms in
  wf n s' /\ waiters s' = filter (fun e => live now_ms e.2) (waiters s) /\
  forall q w, waiters s' !! q = Some w -> keys_recency s' (key_id w) = keys_recency s (key_id w).
Proof. intros Hwf. apply prune_loop_ok; [done|lia]. Qed.

(** ** The winner *)

Definition pick s : option Z :=
  p ← set_first (reverse Z.leb) (dom (levels s));
  level ← levels s !! p;
  first ← set_first (lex Z.leb Z.leb) (order level);
  queue ← by_key level !! first.2;
  head queue.

Lemma winner_pick s now_ms : winner s now_ms = (pick (prune_expired s now_ms), prune_expired s now_ms).
Proof. reflexivity. Qed.

Definition waiter_ranks s : list Rank := rank s <$> map_to_list (waiters s).

Lemma waiter_ranks_in s r :
  r ∈ waiter_ranks s <-> exists q w, waiters s !! q = Some w /\ r = rank s (q, w).
Proof.
  unfold waiter_ranks. rewrite list_elem_of_fmap. split.
  - intros ([q w] & -> & Hin%elem_of_map_to_list). eauto.
  - intros (q & w & Hw & ->). exists (q, w). split; [done|]. by apply elem_of_map_to_list.
Qed.

(** The front of the index is the least rank of all waiters. *)
Lemma pick_least n s : wf n s -> pick s = (fun r : Rank => r.2.2.2) <$> least rank_le (waiter_ranks s).
Proof.
  intros Hwf. pose proof (wf_index _ _ Hwf) as Hix. unfold pick.
  destruct (set_first _ (dom (levels s))) as [p|] eqn:Ep; simpl.
  2:{ rewrite set_first_None in Ep. assert (Hr : waiter_ranks s = []); [|by rewrite Hr].
      destruct (waiter_ranks s) as [|r l] eqn:E; [done|]. exfalso.
      assert (Hin : r ∈ waiter_ranks s) by (rewrite E; by left).
      apply waiter_ranks_in in Hin as (q & w & Hw & _).
      destruct (index_present _ _ _ _ Hix q w Hw) as [l' Hl']. apply elem_of_dom_2 in Hl'. rewrite Ep in Hl'. set_solver. }
  apply first_highest in Ep as [[l Hl]%elem_of_dom Hmax]. rewrite Hl. simpl.
  destruct (index_level _ _ _ _ Hix p l Hl) as [Hne [L1 L2 L3 L4]].
  destruct (set_first _ (order l)) as [[r k]|] eqn:Eo; simpl.
  2:{ rewrite set_first_None in Eo. apply set_choose_L in Hne as [q Hq].
      apply L1 in Hq as [k Hk]. destruct (L3 _ _ Hk) as [qs Hqs].
      assert (Ho : (keys_recency s k, k) ∈ order l) by (apply L4; eauto). rewrite Eo in Ho. set_solver. }
  apply first_pair in Eo as [Ho Hmin]. apply L4 in Ho as [-> [qs Hqs]]. rewrite Hqs. simpl.
  destruct (L2 k qs Hqs) as (Hqne & Hsort & Hin). destruct qs as [|q qs]; [done|]. simpl.
  assert (Hq : has (waiters s) p q k) by (apply Hin; by left). destruct Hq as (w & Hw & Hp & Hk).
  enough (Hleast : least rank_le (waiter_ranks s) = Some (rank s (q, w))) by by rewrite Hleast.
  apply least_Some; [apply _|]. split; [apply waiter_ranks_in; eauto|].
  intros r' (q' & w' & Hw' & ->)%waiter_ranks_in. unfold rank_le, rank.
  rewrite lex_spec by apply _. simpl. unfold reverse. rewrite Hp, Hk, !Z.leb_le.
  assert (Hpri : priority w' <= p).
  { destruct (index_present _ _ _ _ Hix q' w' Hw') as [l' Hl']. apply elem_of_dom_2 in Hl'.
    by apply Hmax. }
  split; [done|]. intros Hge. assert (Hpw : priority w' = p) by lia.
  assert (Hh : has (waiters s) p q' (key_id w')) by by exists w'.
  destruct (L3 _ _ Hh) as [qs' Hqs'].
  assert (Ho' : (keys_recency s (key_id w'), key_id w') ∈ order l) by (apply L4; eauto).
  specialize (Hmin _ _ Ho').
  rewrite lex_spec by apply _. simpl. rewrite !Z.leb_le. split; [apply Hmin|]. intros Hrec.
  rewrite lex_spec by apply _. simpl. rewrite !Z.leb_le. split; [by apply Hmin|]. intros Hkey.
  assert (Hkk : key_id w' = k) by (destruct Hmin as [_ Hmin]; specialize (Hmin Hrec); lia).
  assert (Hq' : q' ∈ q :: qs) by (apply Hin; exists w'; by rewrite Hkk).
  apply elem_of_cons in Hq' as [-> |Hq']; [lia|]. apply StronglySorted_inv in Hsort as [_ Hall].
  rewrite List.Forall_forall in Hall. apply list_elem_of_In in Hq'. specialize (Hall _ Hq'). lia.
Qed.

Lemma winner_turn n s now_ms : wf n s -> (winner s now_ms).1 = turn s now_ms.
Proof.
  intros Hwf. rewrite winner_pick. simpl.
  destruct (prune_expired_ok n s now_ms Hwf) as (Hwf' & Ews & Hrec).
  rewrite (pick_least n _ Hwf'). unfold turn. do 2 f_equal. unfold waiter_ranks, ranks. rewrite Ews.
  apply list_fmap_ext. intros i [q w] Hin%list_elem_of_lookup_2%elem_of_map_to_list.
  unfold rank. simpl. rewrite (Hrec q w); [done|by rewrite Ews].
Qed.

(** ** Serving *)

Lemma serve_ok n s seq w :
  wf n s -> n < u64_max -> waiters s !! seq = Some w ->
  let s' := serve s seq in
  wf (n + 1) s' /\ waiters s' = delete seq (waiters s) /\
  forall q w', waiters s' !! q = Some w' ->
    keys_recency s' (key_id w') = if decide (key_id w' = key_id w) then service_seq s + 1
                                  else keys_recency s (key_id w').
Proof.
  intros Hwf Hn Hw. unfold serve. rewrite Hw. destruct Hwf as [Hix Hk Hsq Hc].
  destruct (key_waiter _ _ _ _ _ Hk seq w Hw) as [key Hko]. rewrite Hko.
  destruct (key_known _ _ _ _ _ Hk _ _ Hko) as (_ & st & Hst & Hid). rewrite Hst.
  assert (Hwrap : wrap64 (service_seq s + 1) = service_seq s + 1) by (apply wrap64_small; mlia). rewrite Hwrap.
  set (s1 := mkState _ _ _ _ _ _ _ _ _ _).
  assert (Hrec0 : keys_recency s (key_id w) = recency st) by (unfold keys_recency; rewrite Hko; simpl; by rewrite Hst).
  assert (Hrec : forall j, keys_recency s1 j = if decide (j = key_id w) then service_seq s + 1 else keys_recency s j).
  { intros j. unfold keys_recency. simpl. case_decide as E; [subst j; rewrite Hko; simpl; by rewrite lookup_insert_eq|].
    destruct (key_of s !! j) as [k'|] eqn:Ej; simpl; [|done]. rewrite lookup_insert_ne; [done|].
    intros <-. destruct (key_known _ _ _ _ _ Hk _ _ Ej) as (_ & st' & Hst' & Hid'). congruence. }
  assert (Hle : forall j, keys_recency s j <= service_seq s).
  { intros j. unfold keys_recency. destruct (key_of s !! j) as [k'|]; simpl; [|lia].
    destruct (keys s !! k') as [st'|] eqn:E; [|lia]. apply (key_state _ _ _ _ _ Hk) in E. lia. }
  assert (Hwf1 : wf (n + 1) s1).
  { constructor; simpl; [| |done|lia].
    - eapply index_ext.
      + rewrite <- Hrec0. apply (index_serve _ _ _ _ (service_seq s + 1) (key_id w) Hix). intros j. specialize (Hle j). lia.
      + intros q w' _. by rewrite Hrec.
    - destruct Hk as [K1 K2 K3]. constructor; [| |done].
      + intros k st'. rewrite lookup_insert_Some. intros [[<- <-]|[Hne Hst']]; simpl.
        * destruct (K1 key st Hst) as (H1 & H2 & H3). split_and!; [done|lia|lia|done].
        * destruct (K1 k st' Hst') as (H1 & H2 & H3). split_and!; [done|lia|lia|done].
      + intros i k Hi. destruct (K2 i k Hi) as (Hlt & st' & Hst' & Hid'). split; [done|].
        destruct (decide (key = k)) as [<- |]; [|by rewrite lookup_insert_ne; eauto].
        rewrite lookup_insert_eq. eexists. split; [done|]. simpl. congruence. }
  pose proof (remove_ok (n + 1) s1 seq Hwf1) as Hrm. destruct (remove s1 seq) as [o s'].
  destruct Hrm as (Hwf' & _ & Ews & _ & Hr'). simpl. split_and!; [done|by rewrite Ews|].
  intros q w' Hq. by rewrite (Hr' q w' Hq), Hrec.
Qed.

(** ** What no operation but [insert] changes *)

Lemma remove_next_seq s q : next_seq (remove s q).2 = next_seq s.
Proof.
  unfold remove. destruct (waiters s !! q) as [w|]; [|done]. simpl.
  unfold maybe_prune_keys, leave_key. simpl. by repeat case_match.
Qed.

Lemma prune_next_seq s now_ms : next_seq (prune_expired s now_ms) = next_seq s.
Proof.
  unfold prune_expired. generalize (S (size (deadlines s))). intros fuel. revert s.
  induction fuel as [|fuel IH]; intros s; [done|]. cbn [prune_loop].
  case_match; [|done]. case_match. case_match; [done|]. by rewrite IH, remove_next_seq.
Qed.

Lemma serve_next_seq s q : next_seq (serve s q) = next_seq s.
Proof. unfold serve. case_match; [|done]. rewrite remove_next_seq. by repeat case_match. Qed.

(** Without deadlines nothing expires. *)
Lemma prune_nothing s now_ms : deadlines s = ∅ -> prune_expired s now_ms = s.
Proof.
  intros E. unfold prune_expired. cbn [prune_loop]. destruct (set_first _ _) as [[d q]|] eqn:Ef; [|done].
  apply first_pair in Ef as [Hin _]. rewrite E in Hin. set_solver.
Qed.

Lemma recency_le n s j : wf n s -> keys_recency s j <= service_seq s.
Proof.
  intros Hwf. pose proof (wf_counters _ _ Hwf). unfold keys_recency.
  destruct (key_of s !! j) as [k|]; simpl; [|lia]. destruct (keys s !! k) as [st|] eqn:E; [|lia].
  apply (key_state _ _ _ _ _ (wf_keys _ _ Hwf)) in E. lia.
Qed.

Lemma turn_waiter s now_ms q :
  turn s now_ms = Some q ->
  exists w, waiters s !! q = Some w /\ live now_ms w /\
  forall q' w', waiters s !! q' = Some w' -> live now_ms w' -> rank_le (rank s (q, w)) (rank s (q', w')) = true.
Proof.
  unfold turn. destruct (least rank_le (ranks s now_ms)) as [r|] eqn:E; [|done]. simpl. intros [= <-].
  pose proof (least_Some rank_le (ranks s now_ms) r) as Hl. rewrite Hl in E. destruct E as [Hin Hmin].
  apply list_elem_of_fmap in Hin as ([q w] & -> & Hin%elem_of_map_to_list).
  apply map_lookup_filter_Some in Hin as [Hw Hlive]. exists w. split_and!; [done|done|].
  intros q' w' Hw' Hl'. apply Hmin. apply list_elem_of_fmap. exists (q', w'). split; [done|].
  by apply elem_of_map_to_list, map_lookup_filter_Some.
Qed.

(** A key that has just been served waits behind every other key of its
    priority. *)
Lemma serve_rotates n s seq w now_ms q w' z wz :
  wf n s -> n < u64_max -> waiters s !! seq = Some w ->
  let s' := serve s seq in
  turn s' now_ms = Some q -> waiters s' !! q = Some w' ->
  waiters s' !! z = Some wz -> live now_ms wz -> priority w' <= priority wz ->
  key_id wz <> key_id w -> key_id w' <> key_id w.
Proof.
  intros Hwf Hn Hw s' Ht Hq Hz Hlz Hp Hkz Hkq.
  destruct (serve_ok n s seq w Hwf Hn Hw) as (_ & Ews & Hrec). fold s' in Ews, Hrec.
  destruct (turn_waiter s' now_ms q Ht) as (w'' & Hw'' & _ & Hmin). simplify_eq.
  specialize (Hmin z wz Hz Hlz). unfold rank_le, rank in Hmin.
  rewrite lex_spec in Hmin by apply _. simpl in Hmin. unfold reverse in Hmin. rewrite !Z.leb_le in Hmin.
  destruct Hmin as [Hp' Hmin]. specialize (Hmin Hp).
  rewrite lex_spec in Hmin by apply _. simpl in Hmin. rewrite !Z.leb_le in Hmin. destruct Hmin as [Hr _].
  rewrite (Hrec q w' Hq), (Hrec z wz Hz), decide_True, decide_False in Hr by done.
  pose proof (recency_le n s (key_id wz) Hwf). lia.
Qed.

End Turn.
