(* ===== verification/Turns.v ===== *)
(** * The waiting queue's tasks (src/src/queue.rs, [Queue] and [LeaveGuard])

    Any number of calls of [acquire] on one queue, interleaved: each section
    under the queue's lock is one step, and so is each step of the waiting loop
    outside it (register a listener, look at the eviction flag, read the clock,
    await). The wrapped limiter is any limiter. *)

From stdpp Require Import gmap fin_maps.
From S2P Require Import Prelude Decisions Limiter Ordered Queue Schedule.

Inductive Overflow := Reject | DropOldest | DropLowestPriority.

(** How long a waiter without the turn sleeps before it looks again. *)
Definition RECHECK : Duration := from_secs 60.

(** A waiter's [Signal]: its event, on which only the waiter itself listens,
    and the eviction flag. *)
Record Signal := mkSignal { listening : bool; notified : bool; evicted : bool }.
Definition Signal_default : Signal := mkSignal false false false.

(** [event.notify(usize::MAX)]: reaches the listeners there are. *)
Definition wake (sg : Signal) : Signal := mkSignal (listening sg) (notified sg || listening sg) (evicted sg).
Definition set_evicted (sg : Signal) : Signal := mkSignal (listening sg) (notified sg) true.
(** [event.listen()]: a new listener, not notified yet. *)
Definition listen (sg : Signal) : Signal := mkSignal true false (evicted sg).

(** [cap_to_deadline] *)
Definition cap_to_deadline (wait : Duration) (now_ms : Z) (deadline_ms : option Z) : Duration :=
  match deadline_ms with
  | Some d => Z.min wait (from_millis (sat_sub d now_ms))
  | None => wait
  end.

(** A registered call. *)
Record Call := mkCall { c_seq : Z; c_deadline : option Z; c_cost : Z }.

Inductive Task :=
  | Idle
  | Top (c : Call)                    (* at the top of the loop *)
  | Listening (c : Call)              (* listener registered *)
  | Checked (c : Call)                (* not evicted *)
  | Locking (c : Call) (now_ms : Z)   (* about to lock *)
  | Parked (c : Call) (sleep_for : Duration) (on_limiter : bool)
  | Leaving (c : Call) (r : option (Result unit ThrottleError))  (* the guard drops; [None]: cancelled *)
  | Finished (r : option (Result unit ThrottleError)).

(** ** The builder *)

Record QueueBuilder := mkBuilder { b_capacity : Z; b_overflow : Overflow }.

Definition Builder_new : QueueBuilder := mkBuilder 1024 Reject.
Definition with_capacity (b : QueueBuilder) (n : Z) : QueueBuilder := mkBuilder (Z.max n 1) (b_overflow b).
Definition with_overflow (b : QueueBuilder) (o : Overflow) : QueueBuilder := mkBuilder (b_capacity b) o.
(** [Queue::new]'s clamp; the fields a built queue has. *)
Definition build (b : QueueBuilder) : Z * Overflow := (Z.max (b_capacity b) 1, b_overflow b).

(** ** The queue and its callers *)

Section Queue.
Context {K I : Type} `{Countable K}.
Context (inner : Limiter I) (capacity : Z) (overflow : Overflow).

Record world := mkWorld {
  state : State K;
  signals : gmap Z Signal;
  limiter : I;
  tasks : list Task }.

Definition set_task (w : world) (i : nat) (t : Task) : world :=
  mkWorld (state w) (signals w) (limiter w) (<[i := t]> (tasks w)).
Definition set_state (w : world) (s : State K) : world :=
  mkWorld s (signals w) (limiter w) (tasks w).
Definition set_signals (w : world) (sgs : gmap Z Signal) : world :=
  mkWorld (state w) sgs (limiter w) (tasks w).
Definition set_limiter (w : world) (l : I) : world :=
  mkWorld (state w) (signals w) l (tasks w).

(** Under the lock. *)
Definition wake_winner (w : world) (now_ms : Z) : world :=
  let '(winner, s) := winner (state w) now_ms in
  let w := set_state w s in
  match winner with
  | Some seq =>
      match waiters s !! seq with
      | Some _ => set_signals w (alter wake seq (signals w))
      | None => w
      end
  | None => w
  end.

Definition evict (w : world) (seq : Z) : world :=
  let '(waiter, s) := remove (state w) seq in
  let w := set_state w s in
  match waiter with
  | Some _ => set_signals w (alter (fun sg => wake (set_evicted sg)) seq (signals w))
  | None => w
  end.

Definition victim (s : State K) (priority : Z) : option Z :=
  match overflow with
  | Reject => None
  | DropOldest => oldest s
  | DropLowestPriority =>
      match weakest s with
      | Some (seq, weakest) => if weakest <? priority then Some seq else None
      | None => None
      end
  end.

(** The end of [register]: file the new waiter, wake whoever has the turn. *)
Definition enlist (w : world) (now_ms priority : Z) (deadline_ms : option Z) (key : K) : Z * world :=
  let '(seq, s) := insert (state w) priority deadline_ms key in
  let w := set_signals (set_state w s) (<[seq := Signal_default]> (signals w)) in
  (seq, wake_winner w now_ms).

Definition register (w : world) (now_ms priority : Z) (deadline_ms : option Z) (key : K)
    : Result Z ThrottleError * world :=
  let w := set_state w (prune_expired (state w) now_ms) in
  if len (state w) <? capacity then
    let '(seq, w) := enlist w now_ms priority deadline_ms key in (Ok seq, w)
  else
    match victim (state w) priority with
    | None => (Err QueueFull, w)
    | Some seq =>
        let '(seq, w) := enlist (evict w seq) now_ms priority deadline_ms key in (Ok seq, w)
    end.

(** The start of [wait]. *)
Definition enter (w : world) (i : nat) (now_ms priority : Z) (deadline : option Duration) (key : K) (cost : Z)
    : world :=
  let deadline_ms := (fun d => sat_add u64_max now_ms (to_u64_or_max (as_millis d))) <$> deadline in
  let '(r, w) := register w now_ms priority deadline_ms key in
  match r with
  | Ok seq => set_task w i (Top (mkCall seq deadline_ms cost))
  | Err e => set_task w i (Finished (Some (Err e)))
  end.

(** The section of the loop that holds the lock. *)
Definition locked (w : world) (i : nat) (c : Call) (now_ms : Z) : world :=
  let '(winner, s) := winner (state w) now_ms in
  let w := set_state w s in
  if decide (winner = Some (c_seq c)) then
    let '(d, l) := acquire_cost inner (c_cost c) (limiter w) in
    let w := set_limiter w l in
    match d with
    | Acquired =>
        let w := set_state w (serve (state w) (c_seq c)) in
        set_task (wake_winner w now_ms) i (Leaving c (Some (Ok tt)))
    | Retry after => set_task w i (Parked c (cap_to_deadline after now_ms (c_deadline c)) true)
    | Impossible =>
        set_task w i (Leaving c (Some (Err (CostExceedsCapacity (c_cost c) (Limiter.capacity inner)))))
    end
  else set_task w i (Parked c (cap_to_deadline RECHECK now_ms (c_deadline c)) false).

(** [LeaveGuard::drop] *)
Definition leave (w : world) (seq now_ms : Z) : world :=
  let '(waiter, s) := remove (state w) seq in
  let w := set_state w s in
  match waiter with Some _ => wake_winner w now_ms | None => w end.

Definition go (w : world) (i : nat) (t : Task) (now_ms : Z) : option world :=
  match t with
  | Top c => Some (set_task (set_signals w (alter listen (c_seq c) (signals w))) i (Listening c))
  | Listening c =>
      match signals w !! c_seq c with
      | Some sg =>
          Some (set_task w i (if evicted sg then Leaving c (Some (Err QueueFull)) else Checked c))
      | None => None
      end
  | Checked c =>
      Some (set_task w i
        (match c_deadline c with
         | Some d => if d <=? now_ms then Leaving c (Some (Err DeadlineExceeded)) else Locking c now_ms
         | None => Locking c now_ms
         end))
  | Locking c read_ms => Some (locked w i c read_ms)
  | Leaving c r => Some (set_task (leave w (c_seq c) now_ms) i (Finished r))
  | Idle | Parked _ _ _ | Finished _ => None
  end.

(** What a task does next: call [acquire], its next step, the end of its
    await (by notification, or because its sleep is over), or being dropped
    there. *)
Inductive Action :=
  | Acquire (priority : Z) (deadline : option Duration) (key : K) (cost : Z)
  | Go
  | Resume
  | Elapse
  | Cancel.

Definition act (w : world) (i : nat) (a : Action) (now_ms : Z) : option world :=
  match tasks w !! i with
  | None => None
  | Some t =>
      match a, t with
      | Acquire priority deadline key cost, Idle => Some (enter w i now_ms priority deadline key cost)
      | Go, _ => go w i t now_ms
      | Resume, Parked c _ _ =>
          match signals w !! c_seq c with
          | Some sg => if notified sg then Some (set_task w i (Top c)) else None
          | None => None
          end
      | Elapse, Parked c _ _ => Some (set_task w i (Top c))
      | Cancel, Parked c _ _ => Some (set_task w i (Leaving c None))
      | _, _ => None
      end
  end.

Definition step (w : world) (s : nat * Action * Z) : world :=
  match act w s.1.1 s.1.2 s.2 with Some w' => w' | None => w end.

(** A new queue with [n] callers to come. *)
Definition initial (l : I) (n : nat) : world :=
  mkWorld (State_new capacity) ∅ l (replicate n Idle).

End Queue.

(** ** Invariants *)

Definition call_of (t : Task) : option Call :=
  match t with
  | Top c | Listening c | Checked c | Locking c _ | Parked c _ _ | Leaving c _ => Some c
  | Idle | Finished _ => None
  end.

(** The task has a listener. *)
Definition armed (t : Task) : bool :=
  match t with Listening _ | Checked _ | Locking _ _ | Parked _ _ _ => true | _ => false end.

(** Asleep without the turn. *)
Definition sidelined (t : Task) : bool := match t with Parked _ _ false => true | _ => false end.

Section Invariant.
Context {K I : Type} `{Countable K}.
Context (inner : Limiter I) (capacity : Z) (overflow : Overflow).

Abbreviation world := (world (K := K) (I := I)).
Implicit Types (w : world) (t : Task) (c : Call) (sg : Signal).

Definition owns (ts : list Task) (q : Z) : Prop :=
  exists i t c, ts !! i = Some t /\ call_of t = Some c /\ c_seq c = q.

Record sound (n : Z) w : Prop := mkSound {
  sound_wf : wf n (state w);
  sound_call i t c : tasks w !! i = Some t -> call_of t = Some c ->
    c_seq c < next_seq (state w) /\
    exists sg, signals w !! c_seq c = Some sg /\ (armed t = true -> listening sg = true);
  sound_inj i j t u c d : tasks w !! i = Some t -> tasks w !! j = Some u ->
    call_of t = Some c -> call_of u = Some d -> c_seq c = c_seq d -> i = j;
  sound_owner q : is_Some (waiters (state w) !! q) -> owns (tasks w) q;
  sound_capacity : len (state w) <= capacity }.

(** A step under the lock that only takes waiters out or wakes. *)
Record quieter (n : Z) w w' : Prop := mkQuieter {
  quieter_wf : wf n (state w');
  quieter_tasks : tasks w' = tasks w;
  quieter_next : next_seq (state w') = next_seq (state w);
  quieter_waiters : waiters (state w') ⊆ waiters (state w);
  quieter_signals q sg : signals w !! q = Some sg ->
    exists sg', signals w' !! q = Some sg' /\ listening sg' = listening sg }.

Lemma quieter_refl n w : wf n (state w) -> quieter n w w.
Proof. intros Hwf. constructor; try done. eauto. Qed.

Lemma quieter_trans n m w1 w2 w3 : quieter n w1 w2 -> quieter m w2 w3 -> quieter m w1 w3.
Proof.
  intros [A1 A2 A3 A4 A5] [B1 B2 B3 B4 B5]. constructor; [done|congruence|congruence|by etrans|].
  intros q sg Hq. destruct (A5 q sg Hq) as (sg' & Hq' & E). destruct (B5 q sg' Hq') as (sg'' & Hq'' & E').
  exists sg''. split; [done|congruence].
Qed.

Lemma quieter_signal n w f q :
  wf n (state w) -> (forall sg, listening (f sg) = listening sg) ->
  quieter n w (set_signals w (alter f q (signals w))).
Proof.
  intros Hwf Hf. constructor; try done. intros q' sg Hq. simpl. rewrite lookup_alter.
  case_decide; [subst; rewrite Hq; simpl|]; eauto.
Qed.

Lemma len_subset (s s' : State K) : waiters s' ⊆ waiters s -> len s' <= len s.
Proof.
  intros Hsub. unfold len. rewrite <- !size_dom.
  pose proof (subseteq_size _ _ (subseteq_dom _ _ Hsub)). lia.
Qed.

Lemma sound_quieter n m w w' : sound n w -> quieter m w w' -> sound m w'.
Proof.
  intros [S1 S2 S3 S4 S5] [Q1 Q2 Q3 Q4 Q5]. constructor; [done|..].
  - intros i t c. rewrite Q2, Q3. intros Hi Hc. destruct (S2 i t c Hi Hc) as (Hlt & sg & Hsg & Ha).
    split; [done|]. destruct (Q5 _ _ Hsg) as (sg' & Hsg' & E). exists sg'. rewrite E. done.
  - intros i j t u c d. rewrite Q2. apply S3.
  - intros q [w0 Hq]. rewrite Q2. apply S4. eapply lookup_weaken in Hq; [|done]. eauto.
  - pose proof (len_subset _ _ Q4). lia.
Qed.

Lemma quieter_winner n w now_ms : wf n (state w) -> quieter n w (set_state w (winner (state w) now_ms).2).
Proof.
  intros Hwf. rewrite winner_pick. simpl. destruct (prune_expired_ok n (state w) now_ms Hwf) as (H1 & H2 & _).
  constructor; simpl; [done|done|apply prune_next_seq| |by eauto]. rewrite H2. apply map_filter_subseteq.
Qed.

Lemma quieter_remove n w q : wf n (state w) -> quieter n w (set_state w (remove (state w) q).2).
Proof.
  intros Hwf. pose proof (remove_ok n (state w) q Hwf) as Hr. pose proof (remove_next_seq (state w) q) as Hn.
  destruct (remove (state w) q) as [o s']. destruct Hr as (H1 & _ & H2 & _). simpl in *.
  constructor; simpl; [done|done|done| |by eauto]. rewrite H2. apply delete_subseteq.
Qed.

Lemma quieter_wake_winner n w now_ms : wf n (state w) -> quieter n w (wake_winner w now_ms).
Proof.
  intros Hwf. pose proof (quieter_winner n w now_ms Hwf) as Hq. unfold wake_winner.
  destruct (winner (state w) now_ms) as [o s]. simpl in Hq. destruct o as [q|]; [|done].
  destruct (waiters s !! q); [|done]. eapply quieter_trans; [done|].
  exact (quieter_signal n (set_state w s) wake q (quieter_wf _ _ _ Hq) ltac:(done)).
Qed.

Lemma quieter_evict n w q : wf n (state w) -> quieter n w (evict w q).
Proof.
  intros Hwf. pose proof (quieter_remove n w q Hwf) as Hq. unfold evict.
  destruct (remove (state w) q) as [o s]. simpl in Hq. destruct o as [w0|]; [|done].
  eapply quieter_trans; [done|].
  exact (quieter_signal n (set_state w s) (fun sg => wake (set_evicted sg)) q (quieter_wf _ _ _ Hq) ltac:(done)).
Qed.

Lemma quieter_leave n w q now_ms : wf n (state w) -> quieter n w (leave w q now_ms).
Proof.
  intros Hwf. pose proof (quieter_remove n w q Hwf) as Hq. unfold leave.
  destruct (remove (state w) q) as [o s]. simpl in Hq. destruct o as [w0|]; [|done].
  eapply quieter_trans; [done|]. apply quieter_wake_winner, Hq.
Qed.

Lemma quieter_serve n w q :
  wf n (state w) -> n < u64_max -> quieter (n + 1) w (set_state w (serve (state w) q)).
Proof.
  intros Hwf Hn. destruct (waiters (state w) !! q) as [w0|] eqn:Hq.
  - destruct (serve_ok n (state w) q w0 Hwf Hn Hq) as (H1 & H2 & _).
    constructor; simpl; [done|done|apply serve_next_seq| |by eauto]. rewrite H2. apply delete_subseteq.
  - unfold serve. rewrite Hq. destruct w. apply quieter_refl. eapply wf_later; [done|lia].
Qed.

Lemma lookup_task w i t j u :
  (i < length (tasks w))%nat -> <[i := t]> (tasks w) !! j = Some u ->
  j = i /\ u = t \/ j <> i /\ tasks w !! j = Some u.
Proof.
  intros Hlt Hj. destruct (decide (i = j)) as [<- |]; [|rewrite list_lookup_insert_ne in Hj by done; auto].
  rewrite list_lookup_insert_eq in Hj by done. simplify_eq. by left.
Qed.

(** A task moves on, keeping its call or ending it. *)
Lemma sound_task n w i t t' :
  sound n w -> tasks w !! i = Some t ->
  (forall c, call_of t' = Some c -> call_of t = Some c) ->
  (forall c, call_of t' = Some c -> armed t' = true -> forall sg, signals w !! c_seq c = Some sg -> listening sg = true) ->
  (forall c, call_of t = Some c -> call_of t' = None -> waiters (state w) !! c_seq c = None) ->
  sound n (set_task w i t').
Proof.
  intros [S1 S2 S3 S4 S5] Hi Hc Ha Hend. pose proof (lookup_lt_Some _ _ _ Hi) as Hlt.
  assert (Hat : forall j u, <[i := t']> (tasks w) !! j = Some u -> j = i /\ u = t' \/ j <> i /\ tasks w !! j = Some u)
    by (intros; by apply lookup_task).
  constructor; simpl; [done| | | |done].
  - intros j u c [[-> ->]|[Hne Hj]]%Hat Hu; [|eauto].
    destruct (S2 i t c Hi (Hc c Hu)) as (Hl & sg & Hsg & _). split; [done|]. exists sg. eauto.
  - intros j k u v c d [[-> ->]|[Hnj Hj]]%Hat [[-> ->]|[Hnk Hk]]%Hat Hu Hv E; [done|..].
    + eapply (S3 i k); eauto.
    + eapply (S3 j i); eauto.
    + eapply (S3 j k); eauto.
  - intros q Hq. destruct (S4 q Hq) as (j & u & c & Hj & Hu & E).
    destruct (decide (i = j)) as [<- |Hne].
    + simplify_eq. destruct (call_of t') as [c'|] eqn:Ec'.
      * exists i, t', c'. rewrite list_lookup_insert_eq by done. specialize (Hc c' eq_refl). simplify_eq. done.
      * destruct Hq as [w0 Hq]. by rewrite (Hend c Hu eq_refl) in Hq.
    + exists j, u, c. by rewrite list_lookup_insert_ne.
Qed.

Lemma wake_winner_task w i t now_ms : wake_winner (set_task w i t) now_ms = set_task (wake_winner w now_ms) i t.
Proof.
  unfold wake_winner. change (state (set_task w i t)) with (state w).
  destruct (winner (state w) now_ms) as [[q|] s]; [|reflexivity]. by destruct (waiters s !! q).
Qed.

Lemma insert_next_seq n (s : State K) p d key :
  wf n s -> n < u64_max -> next_seq (insert s p d key).2 = next_seq s + 1.
Proof.
  intros Hwf Hn. pose proof (wf_counters _ _ Hwf). unfold insert. destruct (enter_key s key) as [[i r] s'].
  simpl. apply wrap64_small. mlia.
Qed.

(** The new waiter is filed, and its call is at the top of its loop; what is
    left of [register] is to wake the winner. *)
Definition filed w (i : nat) (p : Z) (d : option Z) (key : K) (cost : Z) : world :=
  let '(seq, s) := insert (state w) p d key in
  set_task (set_signals (set_state w s) (<[seq := Signal_default]> (signals w))) i (Top (mkCall seq d cost)).

Lemma enlist_filed w i now_ms p d key cost :
  (let '(seq, w') := enlist w now_ms p d key in set_task w' i (Top (mkCall seq d cost))) =
  wake_winner (filed w i p d key cost) now_ms.
Proof.
  unfold enlist, filed. destruct (insert (state w) p d key) as [seq s]. by rewrite wake_winner_task.
Qed.

Lemma sound_filed n w i p d key cost :
  sound n w -> n < u64_max -> tasks w !! i = Some Idle -> len (state w) < capacity ->
  sound (n + 1) (filed w i p d key cost).
Proof.
  intros [S1 S2 S3 S4 S5] Hn Hi Hlen. pose proof (lookup_lt_Some _ _ _ Hi) as Hlt. unfold filed.
  pose proof (insert_ok n (state w) p d key S1 Hn) as Hins.
  pose proof (insert_next_seq n (state w) p d key S1 Hn) as Hnext.
  destruct (insert (state w) p d key) as [seq s']. simpl in Hnext.
  destruct Hins as (Hwf' & Eseq & ki & Ews & Hnone).
  assert (Hne : forall j u c, tasks w !! j = Some u -> call_of u = Some c -> c_seq c <> seq).
  { intros j u c Hj Hu. destruct (S2 j u c Hj Hu). lia. }
  pose proof (lookup_task w i (Top (mkCall seq d cost))) as Hat.
  constructor; simpl; [done|..].
  - intros j u c [[-> ->]|[Hji Hj]]%Hat Hu; [| |done].
    + injection Hu as <-. simpl. rewrite lookup_insert_eq. split; [lia|]. by eexists.
    + destruct (S2 j u c Hj Hu) as (Hl & sg & Hsg & Ha). split; [lia|].
      rewrite lookup_insert_ne by (specialize (Hne j u c Hj Hu); congruence). eauto.
  - intros j k u v c e Hj Hk Hu Hv E. apply Hat in Hj as [[-> ->]|[Hnj Hj]]; [| |done];
      apply Hat in Hk as [[-> ->]|[Hnk Hk]]; try done.
    + injection Hu as <-. by destruct (Hne k v e Hk Hv).
    + injection Hv as <-. by destruct (Hne j u c Hj Hu).
    + eapply (S3 j k); eauto.
  - intros q. rewrite Ews, lookup_insert_is_Some. intros [<- |[Hqs Hq]].
    + eexists i, _, _. by rewrite list_lookup_insert_eq.
    + destruct (S4 q Hq) as (j & u & c & Hj & Hu & E). exists j, u, c. rewrite list_lookup_insert_ne; [done|].
      intros <-. by simplify_eq.
  - unfold len in *. rewrite Ews, map_size_insert_None by done. lia.
Qed.

Lemma victim_waits n (s : State K) p q :
  wf n s -> victim overflow s p = Some q -> is_Some (waiters s !! q).
Proof.
  intros Hwf Hv. unfold victim in Hv. destruct overflow; [done| |].
  - pose proof (set_first_Some Z.leb (dom (waiters s)) q) as Hs. unfold oldest in Hv. rewrite Hs in Hv.
    by apply elem_of_dom, Hv.
  - destruct (weakest s) as [[q' p']|] eqn:Ew; [|done]. case_match; [|done]. injection Hv as ->.
    unfold weakest in Ew. destruct (set_last (reverse Z.leb) _) as [p0|]; [|done]. simpl in Ew.
    destruct (levels s !! p0) as [l|] eqn:El; [|done]. simpl in Ew.
    destruct (set_last Z.leb (seqs l)) as [q0|] eqn:Es; [|done]. simpl in Ew. simplify_eq.
    pose proof (set_last_Some Z.leb (seqs l) q) as Hs. rewrite Hs in Es. destruct Es as [Hin _].
    destruct (index_level _ _ _ _ (wf_index _ _ Hwf) _ l El) as [_ Hok].
    apply (ok_seqs _ _ _ Hok) in Hin as (k & w0 & Hw0 & _). eauto.
Qed.

Lemma evict_len n w q : wf n (state w) -> is_Some (waiters (state w) !! q) -> len (state (evict w q)) < len (state w).
Proof.
  intros Hwf [w0 Hq]. pose proof (remove_ok n (state w) q Hwf) as Hr. unfold evict.
  destruct (remove (state w) q) as [o s']. destruct Hr as (_ & -> & E & _). rewrite Hq. simpl.
  unfold len. rewrite E, map_size_delete_Some by eauto.
  assert (size (waiters (state w)) <> 0%nat); [|lia]. intros Hz%map_size_empty_inv. rewrite Hz, lookup_empty in Hq. done.
Qed.

Lemma sound_finished n w i r : sound n w -> tasks w !! i = Some Idle -> sound n (set_task w i (Finished r)).
Proof. intros Hs Hi. by apply (sound_task n w i Idle). Qed.

(** [register] turns the call away, or files it, perhaps in the place of an
    evicted waiter. *)
Lemma enter_cases n w i now_ms p d key cost :
  sound n w -> tasks w !! i = Some Idle ->
  let w0 := set_state w (prune_expired (state w) now_ms) in
  let dl := (fun d => sat_add u64_max now_ms (to_u64_or_max (as_millis d))) <$> d in
  let w' := enter capacity overflow w i now_ms p d key cost in
  quieter n w w0 /\
  (w' = set_task w0 i (Finished (Some (Err QueueFull))) \/
   exists w1, quieter n w0 w1 /\ len (state w1) < capacity /\ w' = wake_winner (filed w1 i p dl key cost) now_ms).
Proof.
  intros Hs Hi. cbv zeta. pose proof (quieter_winner n w now_ms (sound_wf _ _ Hs)) as Hq.
  rewrite winner_pick in Hq. cbn [snd] in Hq. split; [done|]. unfold enter, register.
  set (w0 := set_state w (prune_expired (state w) now_ms)) in *. set (dl := _ <$> d).
  pose proof (quieter_wf _ _ _ Hq) as Hwf0.
  destruct (Z.ltb_spec (len (state w0)) capacity) as [Hlt|Hge].
  - right. exists w0. split_and!; [by apply quieter_refl|done|]. rewrite <- enlist_filed.
    by destruct (enlist w0 now_ms p dl key).
  - destruct (victim overflow (state w0) p) as [q|] eqn:Ev; [right|by left].
    pose proof (evict_len n w0 q Hwf0 (victim_waits n _ _ _ Hwf0 Ev)) as Hl.
    pose proof (sound_capacity _ _ (sound_quieter _ _ _ _ Hs Hq)).
    exists (evict w0 q). split_and!; [by apply quieter_evict|lia|]. rewrite <- enlist_filed.
    by destruct (enlist (evict w0 q) now_ms p dl key).
Qed.

Lemma filed_task w i p d key cost now_ms n m w1 :
  sound n w -> tasks w !! i = Some Idle -> n < u64_max -> m = n + 1 ->
  quieter n w w1 -> len (state w1) < capacity ->
  sound m (filed w1 i p d key cost) /\ sound m (wake_winner (filed w1 i p d key cost) now_ms).
Proof.
  intros Hs Hi Hn -> Hq Hl.
  assert (Hf : sound (n + 1) (filed w1 i p d key cost)).
  { apply sound_filed; [by eapply sound_quieter|done|by rewrite (quieter_tasks _ _ _ Hq)|done]. }
  split; [done|]. eapply sound_quieter; [exact Hf|]. apply quieter_wake_winner, Hf.
Qed.

Lemma sound_enter n w i now_ms p d key cost :
  sound n w -> n < u64_max -> tasks w !! i = Some Idle ->
  sound (n + 1) (enter capacity overflow w i now_ms p d key cost).
Proof.
  intros Hs Hn Hi. destruct (enter_cases n w i now_ms p d key cost Hs Hi) as (Hq & [-> |(w1 & Hq1 & Hl & ->)]).
  - apply (sound_finished (n + 1)); [|done]. eapply sound_quieter; [by eapply sound_quieter|].
    apply quieter_refl. eapply wf_later; [apply Hq|lia].
  - by apply (filed_task w i p _ key cost now_ms n (n + 1) w1 Hs Hi Hn eq_refl (quieter_trans _ _ _ _ _ Hq Hq1)).
Qed.

Lemma turns_sound_later n m w : sound n w -> n <= m -> sound m w.
Proof. intros Hs Hm. eapply sound_quieter; [done|]. apply quieter_refl. eapply wf_later; [apply Hs|done]. Qed.

(** A task in the loop moves on with its call and its listener. *)
Lemma sound_move n w i t t' :
  sound n w -> tasks w !! i = Some t -> call_of t' = call_of t -> (armed t' = true -> armed t = true) ->
  sound n (set_task w i t').
Proof.
  intros Hs Hi Hc Ha. apply (sound_task n w i t); [done|done|congruence| |congruence].
  intros c Hc' Ha' sg Hsg. rewrite Hc in Hc'. destruct (sound_call _ _ Hs i t c Hi Hc') as (_ & sg' & Hsg' & Hl).
  simplify_eq. auto.
Qed.

Lemma sound_locked n w i c now_ms :
  sound n w -> n < u64_max -> tasks w !! i = Some (Locking c now_ms) ->
  sound (n + 1) (locked inner w i c now_ms).
Proof.
  intros Hs Hn Hi. unfold locked.
  pose proof (quieter_winner n w now_ms (sound_wf _ _ Hs)) as Hq.
  destruct (winner (state w) now_ms) as [o s]. simpl in Hq.
  assert (Hs0 : sound (n + 1) (set_state w s)) by (eapply turns_sound_later; [eapply sound_quieter; done|lia]).
  case_decide; [|by eapply sound_move].
  destruct (acquire_cost inner (c_cost c) (limiter (set_state w s))) as [d l].
  set (w1 := set_limiter (set_state w s) l).
  assert (Hq1 : quieter n w w1).
  { destruct Hq as [Q1 Q2 Q3 Q4 Q5]. constructor; [exact Q1|exact Q2|exact Q3|exact Q4|exact Q5]. }
  assert (Hs1 : sound (n + 1) w1) by exact (turns_sound_later n (n + 1) w1 (sound_quieter n n w w1 Hs Hq1) ltac:(lia)).
  destruct d; [|by eapply sound_move..].
  pose proof (quieter_serve n w1 (c_seq c) (quieter_wf _ _ _ Hq1) Hn) as Hq2.
  pose proof (quieter_wake_winner (n + 1) _ now_ms (quieter_wf _ _ _ Hq2)) as Hq3.
  pose proof (quieter_trans _ _ _ _ _ Hq2 Hq3) as Hq4.
  eapply (sound_move _ _ i (Locking c now_ms));
    [eapply sound_quieter; [|exact Hq4]; eapply sound_quieter; [exact Hs|exact Hq1]| |done|done].
  by rewrite (quieter_tasks _ _ _ Hq4), (quieter_tasks _ _ _ Hq1).
Qed.

Lemma leave_gone n w q now_ms : wf n (state w) -> waiters (state (leave w q now_ms)) !! q = None.
Proof.
  intros Hwf. pose proof (remove_ok n (state w) q Hwf) as Hr. unfold leave.
  destruct (remove (state w) q) as [o s]. destruct Hr as (Hwf' & _ & E & _).
  assert (Hgone : waiters s !! q = None) by (rewrite E; apply lookup_delete_eq).
  destruct o; [|done].
  pose proof (quieter_waiters _ _ _ (quieter_wake_winner n (set_state w s) now_ms Hwf')) as Hsub.
  by eapply lookup_weaken_None; [|exact Hsub].
Qed.

Lemma turns_sound_go n w i t now_ms w' :
  sound n w -> n < u64_max -> tasks w !! i = Some t -> go inner w i t now_ms = Some w' -> sound (n + 1) w'.
Proof.
  intros Hs Hn Hi Hgo. destruct t as [|c|c|c|c r|c d b|c r|r]; simpl in Hgo; simplify_eq.
  - eapply turns_sound_later; [|instantiate (1 := n); lia].
    pose proof (sound_call _ _ Hs i (Top c) c Hi eq_refl) as (_ & sg & Hsg & _).
    assert (Hs1 : sound n (set_signals w (alter listen (c_seq c) (signals w)))).
    { destruct Hs as [S1 S2 S3 S4 S5]. constructor; simpl; try done.
      intros j u e Hj Hu. destruct (S2 j u e Hj Hu) as (Hl & sg' & Hsg' & Ha). split; [done|].
      rewrite lookup_alter. case_decide as E; [|by eauto]. rewrite Hsg. simpl. by eexists. }
    apply (sound_task n _ i (Top c)); [done|done|done| |done].
    intros e [= <-] _ sg' Hsg'. simpl in Hsg'. rewrite lookup_alter, decide_True, Hsg in Hsg' by done.
    simpl in Hsg'. by simplify_eq.
  - case_match; simplify_eq. eapply turns_sound_later; [|instantiate (1 := n); lia].
    case_match; by eapply sound_move.
  - eapply turns_sound_later; [|instantiate (1 := n); lia]. destruct (c_deadline c); [|by eapply sound_move].
    case_match; by eapply sound_move.
  - by apply sound_locked.
  - pose proof (quieter_leave n w (c_seq c) now_ms (sound_wf _ _ Hs)) as Hq.
    eapply turns_sound_later; [|instantiate (1 := n); lia].
    apply (sound_task n _ i (Leaving c r)); [by eapply sound_quieter| |done|done|].
    + by rewrite (quieter_tasks _ _ _ Hq).
    + intros e [= <-] _. apply (leave_gone n), Hs.
Qed.

Lemma turns_sound_step n w s : sound n w -> n < u64_max -> sound (n + 1) (step inner capacity overflow w s).
Proof.
  intros Hs Hn. assert (Hkeep : sound (n + 1) w) by (eapply turns_sound_later; [done|lia]).
  unfold step, act. destruct s as [[i a] now]. simpl. destruct (tasks w !! i) as [t|] eqn:Hi; [|done].
  destruct a as [p d key cost| | | |].
  - destruct t; try done. by apply sound_enter.
  - destruct (go inner w i t now) eqn:Eg; [|by destruct t]. by destruct t; eapply turns_sound_go.
  - destruct t as [|?|?|?|?|c| |]; try done. destruct (signals w !! c_seq c) as [sg|]; [|done].
    destruct (notified sg); [|done]. by eapply sound_move.
  - destruct t; try done. by eapply sound_move.
  - destruct t; try done. by eapply sound_move.
Qed.

(** ** Without deadlines: who has the turn is awake *)

Definition undated w : Prop :=
  forall q x, waiters (state w) !! q = Some x -> deadline_ms x = None.

(** The waiter at the front, asleep without the turn, has been notified. *)
Definition awake w : Prop := forall q i c d sg,
  pick (state w) = Some q -> tasks w !! i = Some (Parked c d false) -> c_seq c = q ->
  signals w !! q = Some sg -> notified sg = true.

Lemma undated_winner n w now_ms :
  wf n (state w) -> undated w -> winner (state w) now_ms = (pick (state w), state w).
Proof.
  intros Hwf Hu. rewrite winner_pick, prune_nothing; [done|]. apply set_eq. intros [d q].
  rewrite (index_deadline _ _ _ _ (wf_index _ _ Hwf)). split; [|set_solver].
  intros (w0 & Hw0 & Hd). rewrite (Hu q w0 Hw0) in Hd. done.
Qed.

Lemma undated_quieter n w w' : quieter n w w' -> undated w -> undated w'.
Proof. intros Hq Hu q w0 Hw0. eapply lookup_weaken in Hw0; [|apply Hq]. eauto. Qed.

Lemma pick_waits n (s : State K) q : wf n s -> pick s = Some q -> is_Some (waiters s !! q).
Proof.
  intros Hwf. rewrite (pick_least n) by done. destruct (least _ _) as [r|] eqn:E; [|done]. intros [= <-].
  pose proof (least_Some rank_le (waiter_ranks s) r) as Hl. rewrite Hl in E.
  destruct E as [(q & w0 & Hw0 & ->)%waiter_ranks_in _]. by eexists.
Qed.

Lemma wake_winner_awake n w now_ms : sound n w -> undated w -> awake (wake_winner w now_ms).
Proof.
  intros Hs Hu. unfold wake_winner. rewrite (undated_winner n) by (done || apply Hs).
  destruct (pick (state w)) as [q|] eqn:Ep; [|intros q i c d sg; simpl; congruence].
  destruct (pick_waits n _ _ (sound_wf _ _ Hs) Ep) as [w0 Hw0]. rewrite Hw0.
  intros q' i c d sg. simpl. rewrite Ep. intros [= <-] Hi Hc. rewrite lookup_alter, decide_True by done.
  destruct (sound_call _ _ Hs i _ c Hi eq_refl) as (_ & sg0 & Hsg0 & Hl). rewrite Hc in Hsg0.
  rewrite Hsg0. simpl. intros [= <-]. simpl. rewrite Hl by done. apply orb_true_r.
Qed.

Lemma awake_task w i t :
  awake w -> (forall c d, t = Parked c d false -> pick (state w) <> Some (c_seq c)) -> awake (set_task w i t).
Proof.
  intros Ha Ht q j c d sg Hp Hj Hc Hsg. simpl in *.
  destruct (decide (i = j)) as [<- |]; [|rewrite list_lookup_insert_ne in Hj by done; by eapply Ha].
  destruct (Nat.lt_ge_cases i (length (tasks w))).
  - rewrite list_lookup_insert_eq in Hj by done. simplify_eq. by destruct (Ht c d eq_refl).
  - rewrite list_insert_ge in Hj by done. by eapply Ha.
Qed.

(** The calls without a deadline. *)
Definition dateless (s : nat * Action (K := K) * Z) : Prop :=
  match s.1.2 with Acquire _ (Some _) _ _ => False | _ => True end.

Record lively (n : Z) w : Prop := mkLively { lively_sound : sound n w; lively_undated : undated w; lively_awake : awake w }.

Lemma lively_task n w i t :
  lively n w -> sound n (set_task w i t) ->
  (forall c d, t = Parked c d false -> pick (state w) <> Some (c_seq c)) -> lively n (set_task w i t).
Proof. intros [_ Hu Ha] Hs Ht. constructor; [done|done|by apply awake_task]. Qed.

Lemma lively_wake n w now_ms : sound n w -> undated w -> lively n (wake_winner w now_ms).
Proof.
  intros Hs Hu. pose proof (quieter_wake_winner n w now_ms (sound_wf _ _ Hs)) as Hq.
  constructor; [by eapply sound_quieter|by eapply undated_quieter|by eapply wake_winner_awake].
Qed.

Lemma undated_filed n w i p key cost :
  wf n (state w) -> n < u64_max -> undated w -> undated (filed w i p None key cost).
Proof.
  intros Hwf Hn Hu. unfold filed. pose proof (insert_ok n (state w) p None key Hwf Hn) as Hi.
  destruct (insert (state w) p None key) as [seq s']. destruct Hi as (_ & _ & ki & Ews & _).
  intros q w0. simpl. rewrite Ews, lookup_insert_Some. intros [[<- <-]|[_ Hw0]]; [done|eauto].
Qed.

Lemma lively_enter n w i now_ms p key cost :
  lively n w -> n < u64_max -> tasks w !! i = Some Idle ->
  lively (n + 1) (enter capacity overflow w i now_ms p None key cost).
Proof.
  intros [Hs Hu Ha] Hn Hi. pose proof (sound_enter n w i now_ms p None key cost Hs Hn Hi) as Hs'.
  pose proof (undated_winner n w now_ms (sound_wf _ _ Hs) Hu) as Hwin. rewrite winner_pick in Hwin.
  injection Hwin as _ Hpr.
  destruct (enter_cases n w i now_ms p None key cost Hs Hi) as (Hq & [E|(w1 & Hq1 & Hl & E)]); rewrite E in *.
  - constructor; [done|exact (undated_quieter _ _ _ Hq Hu)|]. apply awake_task; [|done]. rewrite Hpr.
    by destruct w.
  - pose proof (quieter_trans _ _ _ _ _ Hq Hq1) as Hq2.
    apply lively_wake; [by apply (filed_task w i p _ key cost now_ms n (n + 1) w1 Hs Hi Hn eq_refl Hq2)|].
    apply (undated_filed n); [apply Hq1|done|]. exact (undated_quieter _ _ _ Hq2 Hu).
Qed.

Lemma lively_locked n w i c now_ms :
  lively n w -> n < u64_max -> tasks w !! i = Some (Locking c now_ms) -> lively (n + 1) (locked inner w i c now_ms).
Proof.
  intros [Hs Hu Ha] Hn Hi. pose proof (sound_locked n w i c now_ms Hs Hn Hi) as Hs'. unfold locked in *.
  pose proof (undated_winner n w now_ms (sound_wf _ _ Hs) Hu) as Hwin. rewrite Hwin in *. clear Hwin.
  assert (Hw : set_state w (state w) = w) by (by destruct w). rewrite Hw in *. clear Hw.
  case_decide as Hp.
  2:{ constructor; [done|done|]. apply awake_task; [done|]. by intros c' d [= <- _]. }
  destruct (acquire_cost inner (c_cost c) (limiter w)) as [d l].
  destruct d; [|constructor; [exact Hs'|exact Hu|apply awake_task; [exact Ha|done]]..].
  set (w1 := set_limiter w l) in *.
  assert (Hq1 : quieter n w w1) by (destruct (quieter_refl n w (sound_wf _ _ Hs)) as [Q1 Q2 Q3 Q4 Q5];
    constructor; [exact Q1|exact Q2|exact Q3|exact Q4|exact Q5]).
  pose proof (quieter_serve n w1 (c_seq c) (quieter_wf _ _ _ Hq1) Hn) as Hq2.
  set (w2 := set_state w1 (serve (state w1) (c_seq c))) in *.
  apply lively_task; [|done|done]. apply lively_wake.
  - exact (sound_quieter _ _ _ _ (sound_quieter _ _ _ _ Hs Hq1) Hq2).
  - exact (undated_quieter _ _ _ Hq2 (undated_quieter _ _ _ Hq1 Hu)).
Qed.

Lemma lively_leave n w q now_ms : lively n w -> lively n (leave w q now_ms).
Proof.
  intros [Hs Hu Ha]. pose proof (quieter_remove n w q (sound_wf _ _ Hs)) as Hq. unfold leave.
  destruct (remove (state w) q) as [o s'] eqn:Er. simpl in Hq. destruct o.
  - apply lively_wake; [exact (sound_quieter _ _ _ _ Hs Hq)|exact (undated_quieter _ _ _ Hq Hu)].
  - unfold remove in Er. destruct (waiters (state w) !! q); [done|]. injection Er as <-. by destruct w.
Qed.

Lemma lively_step n w s :
  lively n w -> n < u64_max -> dateless s -> lively (n + 1) (step inner capacity overflow w s).
Proof.
  intros Hl Hn Hd. pose proof (turns_sound_step n w s (lively_sound _ _ Hl) Hn) as Hs'.
  assert (Hkeep : lively (n + 1) w) by (destruct Hl as [H1 H2 H3];
    constructor; [exact (turns_sound_later n (n + 1) w H1 ltac:(lia))|done|done]).
  unfold step, act in *. destruct s as [[i a] now]. simpl in *. destruct (tasks w !! i) as [t|] eqn:Hi; [|done].
  assert (Hend : forall t', sound (n + 1) (set_task w i t') -> sidelined t' = false -> lively (n + 1) (set_task w i t')).
  { intros t' Hst Ht. apply lively_task; [done|done|]. by intros c d ->. }
  destruct a as [p d key cost| | | |].
  - destruct t; try done. destruct d; [done|]. by apply lively_enter.
  - destruct t as [|c|c|c|c r|c d b|c r|r]; simpl in *; try done.
    + destruct (lively_sound _ _ Hl) as [_ S2 S3 _ _]. constructor; [done|apply Hl|].
      apply awake_task; [|done]. intros q j e d sg Hp Hj He. simpl in *. rewrite lookup_alter.
      case_decide as E; [|by apply (lively_awake _ _ Hl q j e d)].
      assert (i = j) as <- by (eapply (S3 i j); [done..|by simpl; congruence]). by simplify_eq.
    + destruct (signals w !! c_seq c) as [sg|]; [|done]. apply Hend; [done|]. by destruct (evicted sg).
    + apply Hend; [done|]. destruct (c_deadline c); [|done]. by case_match.
    + by apply lively_locked.
    + apply lively_task; [|done|done]. apply lively_leave, Hkeep.
  - destruct t as [|?|?|?|?|c| |]; try done. destruct (signals w !! c_seq c) as [sg|]; [|done].
    destruct (notified sg); [|done]. by apply Hend.
  - destruct t; try done. by apply Hend.
  - destruct t; try done. by apply Hend.
Qed.

End Invariant.

(** ** Properties *)

Section Reachable.
Context {K I : Type} `{Countable K}.
Context (inner : Limiter I) (capacity : Z) (overflow : Overflow).

Lemma turns_sound_initial l n : 0 <= capacity -> sound (K := K) capacity 0 (initial (I := I) capacity l n).
Proof.
  intros Hc. constructor; simpl; [apply queue_wf_new| | | |done].
  - intros i t c Hi. apply lookup_replicate in Hi as [-> _]. done.
  - intros i j t u c d Hi. apply lookup_replicate in Hi as [-> _]. done.
  - intros q. rewrite lookup_empty. by intros [].
Qed.

Lemma turns_sound_run schedule (n : Z) (w : world (K := K)) :
  sound capacity n w -> n + Z.of_nat (length schedule) <= u64_max ->
  sound capacity (n + Z.of_nat (length schedule)) (run (step inner capacity overflow) w schedule).
Proof.
  revert n w. induction schedule as [|s schedule IH]; intros n w Hs Hb.
  - by rewrite Z.add_0_r.
  - rewrite run_cons. simpl length in *. replace (n + Z.of_nat (S (length schedule)))
      with (n + 1 + Z.of_nat (length schedule)) by lia. apply IH; [|lia]. apply turns_sound_step; [done|lia].
Qed.

Lemma lively_run schedule (n : Z) (w : world (K := K)) :
  lively capacity n w -> n + Z.of_nat (length schedule) <= u64_max -> Forall dateless schedule ->
  exists m, lively capacity m (run (step inner capacity overflow) w schedule).
Proof.
  intros Hl Hb Hd. revert n w Hl Hb. induction Hd as [|s schedule Hs _ IH]; intros n w Hl Hb; [by exists n|].
  rewrite run_cons. simpl length in *. apply (IH (n + 1)); [|lia]. apply lively_step; [done|lia|done].
Qed.

End Reachable.

(** C15: The queue never holds more waiters than its capacity, and every waiter in
    it belongs to exactly one call that is still running: whatever the
    interleaving, no call that ended, failed or was dropped leaves a waiter
    behind to block the others. *)
Theorem queue_bounded_and_owned {K I : Type} `{Countable K} (inner : Limiter I) (capacity : Z) (overflow : Overflow)
    (l : I) (callers : nat) (schedule : list (nat * Action (K := K) * Z)) :
  0 <= capacity -> Z.of_nat (length schedule) <= u64_max ->
  let w := run (step inner capacity overflow) (initial capacity l callers) schedule in
  len (state w) <= capacity /\
  forall q, is_Some (waiters (state w) !! q) ->
    exists i, (exists t c, tasks w !! i = Some t /\ call_of t = Some c /\ c_seq c = q) /\
    forall j t c, tasks w !! j = Some t -> call_of t = Some c -> c_seq c = q -> j = i.
Proof.
  intros Hc Hb w. destruct (turns_sound_run inner capacity overflow schedule 0 _
    (turns_sound_initial capacity l callers Hc) ltac:(lia)) as [_ _ Hinj Hown Hcap]. fold w in Hinj, Hown, Hcap.
  split; [done|]. intros q Hq. destruct (Hown q Hq) as (i & t & c & Hi & Ht & Hcq).
  exists i. split; [by eauto|]. intros j u d Hj Hu Hd. eapply Hinj; [done..|congruence].
Qed.

(** Fairness across keys: once a key's waiter has been served, that key does
    not get the turn again while a live waiter of another key and of at least
    the same priority waits. *)
Theorem served_key_goes_last {K I : Type} `{Countable K} (inner : Limiter I) (capacity : Z) (overflow : Overflow)
    (l : I) (callers : nat) (schedule : list (nat * Action (K := K) * Z)) (served q other : Z)
    (w_served w_q w_other : Waiter) (now_ms : Z) :
  0 <= capacity -> Z.of_nat (length schedule) < u64_max ->
  let w := run (step inner capacity overflow) (initial capacity l callers) schedule in
  waiters (state w) !! served = Some w_served ->
  let s := serve (state w) served in
  (winner s now_ms).1 = Some q -> waiters s !! q = Some w_q ->
  waiters s !! other = Some w_other -> live now_ms w_other ->
  priority w_q <= priority w_other -> key_id w_other <> key_id w_served ->
  key_id w_q <> key_id w_served.
Proof.
  intros Hc Hb w Hserved s Hw Hq Ho Hl Hp Hk. pose proof (turns_sound_run inner capacity overflow schedule 0 _
    (turns_sound_initial capacity l callers Hc) ltac:(lia)) as Hs. pose proof (sound_wf _ _ _ Hs) as Hwf. fold w in Hwf.
  destruct (serve_ok _ (state w) served w_served Hwf ltac:(lia) Hserved) as (Hwf' & _).
  pose proof (winner_turn _ _ now_ms Hwf') as Ht. fold s in Ht. rewrite Ht in Hw.
  exact (serve_rotates _ (state w) served w_served now_ms q w_q other w_other Hwf ltac:(lia) Hserved Hw Hq Ho Hl Hp Hk).
Qed.

(** C12: No turn is lost while nobody sets a deadline: at any moment the waiter at
    the front belongs to a running call that is either on its way to the lock,
    asleep on the limiter's own wait, or already notified; it never sleeps on
    the turn's backstop timer. *)
Theorem turn_holder_is_woken {K I : Type} `{Countable K} (inner : Limiter I) (capacity : Z) (overflow : Overflow)
    (l : I) (callers : nat) (schedule : list (nat * Action (K := K) * Z)) (now_ms q : Z) :
  0 <= capacity -> Z.of_nat (length schedule) <= u64_max -> Forall dateless schedule ->
  let w := run (step inner capacity overflow) (initial capacity l callers) schedule in
  turn (state w) now_ms = Some q ->
  exists i t c, tasks w !! i = Some t /\ call_of t = Some c /\ c_seq c = q /\
    (sidelined t = true -> exists sg, signals w !! q = Some sg /\ notified sg = true).
Proof.
  intros Hc Hb Hd w Ht.
  destruct (lively_run inner capacity overflow schedule 0 (initial capacity l callers)) as [m [Hs Hu Ha]]; [|lia|done|].
  { constructor; [by apply turns_sound_initial| |]; intros q' x; simpl; [by rewrite lookup_empty|done]. }
  fold w in Hs, Hu, Ha. rewrite <- (winner_turn m) in Ht by apply Hs.
  rewrite (undated_winner m w now_ms (sound_wf _ _ _ Hs) Hu) in Ht. simpl in Ht.
  destruct (sound_owner _ _ _ Hs q (pick_waits m _ _ (sound_wf _ _ _ Hs) Ht)) as (i & t & c & Hi & Hcl & Hq).
  exists i, t, c. split_and!; [done..|]. intros Hsl.
  destruct t as [| | | | |c' d []| |]; try done. injection Hcl as ->.
  destruct (sound_call _ _ _ Hs i _ c Hi eq_refl) as (_ & sg & Hsg & _). rewrite Hq in Hsg.
  exists sg. split; [done|]. by eapply Ha.
Qed.

(** ** Runs on a gate

    The wrapped limiter holds units and never refills. *)
Definition gate : Limiter Z :=
  with_defaults
    (fun cost tokens => (if cost <=? tokens then Acquired else Retry (from_secs 1), tokens))
    (fun cost tokens => if cost <=? tokens then (Acquired, tokens - cost) else (Retry (from_secs 1), tokens))
    (fun tokens => (tokens, tokens)) 10
    (fun cost tokens => (tt, tokens + cost)).

Abbreviation gate_action := (Action (K := Z)).

(** Task [i] goes on [n] steps at one reading of the clock. *)
Definition steps (i n : nat) (now_ms : Z) : list (nat * gate_action * Z) := replicate n (i, Go, now_ms).

(** Two keys, two calls of the first and one of the second; the first call is
    served. *)
Definition two_keys : list (nat * gate_action * Z) :=
  [(0%nat, Acquire 1 None 7 1, 0); (1%nat, Acquire 1 None 7 1, 0); (2%nat, Acquire 1 None 8 1, 0)]
  ++ steps 1 4 0 ++ steps 0 4 0.

Lemma queue_bounded_and_owned_witness :
  let w := run (step gate 2 DropOldest) (initial 2 0 3) two_keys in
  len (state w) = 2 /\ len (state w) <= 2.
Proof.
  intros w. split; [vm_compute; reflexivity|].
  apply (queue_bounded_and_owned gate 2 DropOldest 0 3 two_keys); [lia|vm_compute; congruence].
Defined.

Lemma served_key_goes_last_witness :
  let w := run (step gate 4 Reject) (initial 4 0 3) two_keys in
  let served := mkWaiter 1 None 0 in
  let next := mkWaiter 1 None 1 in
  waiters (state w) !! 0 = Some served /\ (winner (serve (state w) 0) 0).1 = Some 2 /\
  key_id next <> key_id served.
Proof.
  intros w served next. split; [vm_compute; reflexivity|]. split; [vm_compute; reflexivity|].
  apply (served_key_goes_last gate 4 Reject 0 3 two_keys 0 2 2 served next next 0);
    first [vm_compute; reflexivity | simpl; lia | exact Logic.I].
Defined.

Lemma turn_holder_is_woken_witness :
  let w := run (step gate 4 Reject) (initial 4 5 3) two_keys in
  exists i t c, tasks w !! i = Some t /\ call_of t = Some c /\ c_seq c = 2 /\
    (sidelined t = true -> exists sg, signals w !! 2 = Some sg /\ notified sg = true).
Proof.
  apply (turn_holder_is_woken gate 4 Reject 5 3 two_keys 0 2); [lia|vm_compute; congruence| |vm_compute; reflexivity].
  repeat constructor.
Defined.

(** A run in which the turn-holder expires under another waiter's eyes. *)
Definition stranding : list (nat * gate_action * Z) :=
  (* the first call wants 6 units of 5, until 100 ms; the second wants one *)
  [(0%nat, Acquire 1 (Some (from_millis 100)) 7 6, 0)] ++ steps 0 4 0 ++
  [(1%nat, Acquire 1 None 8 1, 0)] ++ steps 1 4 0 ++
  (* a third joins just before the deadline and looks right after it *)
  [(2%nat, Acquire 1 None 9 1, 99)] ++ steps 2 4 100 ++
  (* the first call wakes at its deadline and leaves *)
  [(0%nat, Elapse, 100)] ++ steps 0 4 100.

(** With deadlines a turn can be lost: a waiter that finds the turn-holder
    expired while it looks for its own turn takes it out of the queue without
    waking the next one, and the expired call, finding itself gone, does not
    either. The waiter that has the turn now sleeps a minute, un-notified,
    although the limiter would grant it at once. *)
Theorem expired_turn_strands_the_next :
  let w := run (step gate 4 Reject) (initial 4 5 3) stranding in
  turn (state w) 100 = Some 1 /\
  tasks w = [Finished (Some (Err DeadlineExceeded));
             Parked (mkCall 1 None 1) RECHECK false; Parked (mkCall 2 None 1) RECHECK false] /\
  notified <$> signals w !! 1 = Some false /\
  (acquire_cost gate 1 (limiter w)).1 = Acquired.
Proof. vm_compute. done. Qed.
