(* ===== verification/TurnOrder.v ===== *)
(** * Whose turn it is (src/src/queue.rs)

    The queue's schedule against the history of its run. The history is what
    the callers can see: who joined, with which priority, deadline and key,
    and who was served. From it alone a reference says whose turn it is, and
    the index of Queue.v, with its recency stamps and key numbers, agrees. *)

From stdpp Require Import gmap fin_maps.
From S2P Require Import Prelude Decisions Limiter Ordered Queue Schedule Turns.

(** ** Histories *)

Section History.
Context {K : Type} `{Countable K}.

Record Arrival := mkArrival { a_priority : Z; a_deadline : option Z; a_key : K }.

Inductive event :=
  | Arrived (seq : Z) (a : Arrival)
  | Served (seq : Z).

(** The latest event first. *)
Abbreviation history := (list event).
Implicit Types (h : history) (key : K).

Fixpoint arrival h (seq : Z) : option Arrival :=
  match h with
  | [] => None
  | Arrived q a :: h => if decide (q = seq) then Some a else arrival h seq
  | Served _ :: h => arrival h seq
  end.

Fixpoint services h : Z :=
  match h with
  | [] => 0
  | Served _ :: h => services h + 1
  | Arrived _ _ :: h => services h
  end.

(** Which service was the key's last, counting from 1; 0 if it had none. *)
Fixpoint last_service h key : Z :=
  match h with
  | [] => 0
  | Served q :: h => if decide (a_key <$> arrival h q = Some key) then services h + 1 else last_service h key
  | Arrived _ _ :: h => last_service h key
  end.

(** The keys in the order in which each first arrived. *)
Fixpoint keys_met h : list K :=
  match h with
  | [] => []
  | Arrived _ a :: h => let met := keys_met h in if decide (a_key a ∈ met) then met else met ++ [a_key a]
  | Served _ :: h => keys_met h
  end.

Fixpoint position key (l : list K) : Z :=
  match l with
  | [] => 0
  | k :: l => if decide (k = key) then 0 else 1 + position key l
  end.

(** *** The reference *)

Definition still (now_ms : Z) (a : Arrival) : Prop :=
  match a_deadline a with Some d => now_ms < d | None => True end.

#[export] Instance still_dec now_ms a : base.Decision (still now_ms a).
Proof. unfold still. destruct (a_deadline a); apply _. Defined.

(** The highest priority goes first; then the key served longest ago, keys
    never served first, in the order in which they first came; then arrival. *)
Definition standing h (seq : Z) (a : Arrival) : Rank :=
  (a_priority a, (last_service h (a_key a), (position (a_key a) (keys_met h), seq))).

Definition standings h (waiting : list Z) (now_ms : Z) : list Rank :=
  omap (fun seq => a ← arrival h seq; if decide (still now_ms a) then Some (standing h seq a) else None) waiting.

Definition whose_turn h (waiting : list Z) (now_ms : Z) : option Z :=
  (fun r : Rank => r.2.2.2) <$> least rank_le (standings h waiting now_ms).

Lemma standings_in h waiting now_ms r :
  r ∈ standings h waiting now_ms <->
  exists seq a, seq ∈ waiting /\ arrival h seq = Some a /\ still now_ms a /\ r = standing h seq a.
Proof.
  unfold standings. rewrite list_elem_of_omap. split.
  - intros (seq & Hin & E). destruct (arrival h seq) as [a|] eqn:Ea; [|done]. simpl in E. case_decide; [|done].
    injection E as <-. eauto 6.
  - intros (seq & a & Hin & Ea & Hs & ->). exists seq. split; [done|]. rewrite Ea. simpl. by rewrite decide_True.
Qed.

(** *** Facts of histories *)

Lemma met_grows e h key : key ∈ keys_met h -> key ∈ keys_met (e :: h).
Proof. destruct e; simpl; [|done]. case_decide; [done|]. intros. apply elem_of_app. by left. Qed.

Lemma met_longer e h : (length (keys_met h) <= length (keys_met (e :: h)))%nat.
Proof. destruct e; simpl; [|done]. case_decide; [done|]. rewrite length_app. lia. Qed.

Lemma keys_met_nodup h : NoDup (keys_met h).
Proof.
  induction h as [|[q a|q] h IH]; simpl; [constructor| |done]. case_decide as Hin; [done|].
  apply NoDup_app. split_and!; [done| |apply NoDup_singleton]. intros k Hk ->%list_elem_of_singleton. done.
Qed.

Lemma arrival_met h seq a : arrival h seq = Some a -> a_key a ∈ keys_met h.
Proof.
  induction h as [|[q b|q] h IH]; simpl; [done| |done]. destruct (decide (q = seq)).
  - intros [= ->]. case_decide; [done|]. apply elem_of_app. right. by left.
  - intros Ha. by apply (met_grows (Arrived q b)), IH.
Qed.

Lemma unmet_unserved h key : key ∉ keys_met h -> last_service h key = 0.
Proof.
  induction h as [|[q a|q] h IH]; intros Hno; [done| |]; cbn [last_service].
  - apply IH. intros Hin. by apply Hno, met_grows.
  - rewrite decide_False; [by apply IH|]. intros Ha. destruct (arrival h q) as [a|] eqn:E; [|done].
    injection Ha as <-. by apply Hno, (arrival_met h q).
Qed.

Lemma position_app key l k : key ∈ l -> position key (l ++ k) = position key l.
Proof.
  induction l as [|x l IH]; simpl; [by intros ?%elem_of_nil|]. case_decide; [done|].
  intros [->|Hin]%elem_of_cons; [done|]. by rewrite IH.
Qed.

Lemma position_last key l : key ∉ l -> position key (l ++ [key]) = Z.of_nat (length l).
Proof.
  induction l as [|x l IH]; simpl; [by rewrite decide_True|]. intros Hno. rewrite elem_of_cons in Hno.
  rewrite decide_False by naive_solver. rewrite IH by naive_solver. lia.
Qed.

End History.
#[global] Arguments Arrival : clear implicits.
#[global] Arguments event : clear implicits.

(** ** What the queue's state keeps of its history *)

Section Kept.
Context {K : Type} `{Countable K}.
Implicit Types (s : State K) (h : list (event K)) (key : K).

Definition known s key : option (Z * Z) := (fun st => (id st, recency st)) <$> keys s !! key.

(** Every waiter is filed as it arrived. *)
Definition as_arrived h s : Prop := forall seq x, waiters s !! seq = Some x ->
  exists a, arrival h seq = Some a /\ priority x = a_priority a /\ deadline_ms x = a_deadline a /\
    key_of s !! key_id x = Some (a_key a).

(** Keys carry their place among the keys met and their last service. *)
Record as_served h s : Prop := mkAsServed {
  served_known key : known s key =
    if decide (key ∈ keys_met h) then Some (position key (keys_met h), last_service h key) else None;
  served_floor : recency_floor s = 0;
  served_count : service_seq s = services h;
  served_next : next_key_id s = Z.of_nat (length (keys_met h)) }.

(** [room] is how many keys the state knows before it forgets idle ones. *)
Record kept (room : Z) h s : Prop := mkKept {
  kept_room : prune_at s = room;
  kept_arrived : as_arrived h s;
  kept_served : Z.of_nat (length (keys_met h)) <= room -> as_served h s }.

Lemma kept_new capacity : kept (prune_at (State_new (K := K) capacity)) [] (State_new capacity).
Proof.
  constructor; [done| |].
  - intros seq x. simpl. by rewrite lookup_empty.
  - intros _. constructor; [|done..]. intros key. unfold known. simpl. by rewrite lookup_empty.
Qed.

Lemma known_size h s : as_served h s -> size (keys s) = length (keys_met h).
Proof.
  intros [Hk _ _ _]. rewrite <- size_dom.
  assert (E : dom (keys s) = list_to_set (keys_met h)).
  { apply set_eq. intros key. rewrite elem_of_list_to_set, elem_of_dom. specialize (Hk key). unfold known in Hk.
    case_decide; destruct (keys s !! key); simpl in Hk; split; naive_solver. }
  rewrite E. apply size_list_to_set, keys_met_nodup.
Qed.

(** *** Joining *)

Lemma insert_as_arrived n h s p d key :
  wf n s -> n < u64_max -> as_arrived h s ->
  let '(seq, s') := insert s p d key in as_arrived (Arrived seq (mkArrival p d key) :: h) s'.
Proof.
  intros Hwf Hn Ha. pose proof (insert_ok n s p d key Hwf Hn) as Hi. pose proof (wf_keys _ _ Hwf) as Hk.
  unfold insert, enter_key in *. destruct (keys s !! key) as [st|] eqn:Est; destruct Hi as (_ & _ & i & _ & Hnone).
  - destruct (key_state _ _ _ _ _ Hk key st Est) as (Hko & _ & _).
    intros seq x. simpl. rewrite lookup_insert_Some. intros [[<- <-]|[Hne Hx]].
    + eexists. rewrite decide_True by done. done.
    + destruct (Ha seq x Hx) as (a & H1 & H2). exists a. by rewrite decide_False.
  - assert (Hfresh : key_of s !! next_key_id s = None).
    { destruct (key_of s !! next_key_id s) as [k'|] eqn:E; [|done]. destruct (key_known _ _ _ _ _ Hk _ _ E). lia. }
    intros seq x. simpl. rewrite lookup_insert_Some. intros [[<- <-]|[Hne Hx]].
    + eexists. rewrite decide_True by done. simpl. by rewrite lookup_insert_eq.
    + destruct (Ha seq x Hx) as (a & H1 & H2 & H3 & H4). exists a. rewrite decide_False by done.
      split_and!; [done..|]. rewrite lookup_insert_ne; [done|]. intros E. by rewrite <- E, Hfresh in H4.
Qed.

Lemma insert_as_served n h s p d key :
  wf n s -> n < u64_max -> as_served h s ->
  let '(seq, s') := insert s p d key in as_served (Arrived seq (mkArrival p d key) :: h) s'.
Proof.
  intros Hwf Hn [S1 S2 S3 S4]. pose proof (wf_counters _ _ Hwf) as Hc. pose proof (S1 key) as Hkey.
  unfold insert, enter_key, known in *. destruct (keys s !! key) as [st|] eqn:Est; case_decide as Hin; try done.
  - constructor; simpl; rewrite ?(decide_True _ _ Hin); try done.
    intros key'. rewrite <- S1. unfold known. simpl. destruct (decide (key = key')) as [<- |].
    + by rewrite lookup_insert_eq, Est.
    + by rewrite lookup_insert_ne.
  - constructor; simpl; rewrite ?(decide_False _ _ Hin); try done.
    + intros key'. unfold known. simpl. destruct (decide (key = key')) as [<- |Hne].
      * rewrite lookup_insert_eq, decide_True by (apply elem_of_app; right; by left). simpl.
        by rewrite position_last, S4, S2, unmet_unserved.
      * rewrite lookup_insert_ne, S1 by done. destruct (decide (key' ∈ keys_met h)) as [Hin'|Hin'].
        -- rewrite decide_True by (apply elem_of_app; by left). by rewrite position_app.
        -- rewrite decide_False; [done|]. rewrite elem_of_app, list_elem_of_singleton. naive_solver.
    + rewrite length_app, Nat2Z.inj_add, <- S4. simpl. apply wrap64_small. mlia.
Qed.

Lemma kept_insert room n h s p d key :
  wf n s -> n < u64_max -> kept room h s ->
  let '(seq, s') := insert s p d key in kept room (Arrived seq (mkArrival p d key) :: h) s'.
Proof.
  intros Hwf Hn [Hroom Ha Hs]. pose proof (insert_as_arrived n h s p d key Hwf Hn Ha) as Ha'.
  pose proof (fun Hs => insert_as_served n h s p d key Hwf Hn Hs) as Hs'.
  assert (Hr : prune_at (insert s p d key).2 = room) by (unfold insert, enter_key; by destruct (keys s !! key)).
  destruct (insert s p d key) as [seq s']. constructor; [done..|]. intros Hle. apply Hs', Hs.
  pose proof (met_longer (Arrived seq (mkArrival p d key)) h). lia.
Qed.

(** *** Leaving *)

(** What a removal leaves as it is, in particular when no key is forgotten. *)
Lemma remove_keeps s seq :
  let s' := (remove s seq).2 in
  prune_at s' = prune_at s /\ key_of s' ⊆ key_of s /\
  service_seq s' = service_seq s /\ next_key_id s' = next_key_id s /\
  (Z.of_nat (size (keys s)) <= prune_at s ->
   recency_floor s' = recency_floor s /\ forall key, known s' key = known s key).
Proof.
  unfold remove. destruct (waiters s !! seq) as [x|]; [|done]. simpl.
  set (s1 := mkState _ _ _ _ _ _ _ _ _ _).
  assert (Hl : let s2 := leave_key s1 (key_id x) in
    prune_at s2 = prune_at s /\ key_of s2 = key_of s /\ service_seq s2 = service_seq s /\ next_key_id s2 = next_key_id s /\
    recency_floor s2 = recency_floor s /\ size (keys s2) = size (keys s) /\ forall key, known s2 key = known s key).
  { unfold leave_key. simpl. destruct (key_of s !! key_id x) as [k|]; [|done]. simpl. split_and!; try done.
    - by rewrite <- !size_dom, dom_alter_L.
    - intros key. unfold known. simpl. rewrite lookup_alter. case_decide; [subst|done]. by destruct (keys s !! key). }
  cbv zeta in Hl. destruct Hl as (E1 & E2 & E3 & E4 & E5 & E6 & E7). set (s2 := leave_key s1 (key_id x)) in *.
  unfold maybe_prune_keys. rewrite E6, E1. destruct (Z.leb_spec (Z.of_nat (size (keys s))) (prune_at s)).
  - rewrite E1, E2, E3, E4, E5. done.
  - simpl. rewrite E2, E3, E4. split_and!; try done; [|lia].
    apply map_subseteq_spec. intros i k Hi. by apply prune_key_of in Hi as [Hi _].
Qed.

Lemma kept_remove room n h s seq : wf n s -> kept room h s -> kept room h (remove s seq).2.
Proof.
  intros Hwf [Hroom Ha Hs]. pose proof (remove_ok n s seq Hwf) as Hr.
  destruct (remove_keeps s seq) as (E1 & E2 & E3 & E4 & E5).
  destruct (remove s seq) as [o s']. destruct Hr as (Hwf' & _ & Ews & _). simpl in *.
  constructor; [congruence| |].
  - intros q x Hx. pose proof (key_waiter _ _ _ _ _ (wf_keys _ _ Hwf') q x Hx) as [k Hk].
    rewrite Ews in Hx. apply lookup_delete_Some in Hx as [_ Hx]. destruct (Ha q x Hx) as (a & H1 & H2 & H3 & H4).
    exists a. split_and!; [done..|]. pose proof (lookup_weaken _ _ _ _ Hk E2). congruence.
  - intros Hle. specialize (Hs Hle). pose proof (known_size h s Hs) as Hz. destruct Hs as [S1 S2 S3 S4].
    destruct E5 as [E5 E6]; [lia|]. constructor; [|congruence..]. intros key. by rewrite E6.
Qed.

Lemma kept_prune room n h s now_ms : wf n s -> kept room h s -> kept room h (prune_expired s now_ms).
Proof.
  unfold prune_expired. generalize (S (size (deadlines s))). intros fuel. revert s.
  induction fuel as [|fuel IH]; intros s Hwf Hk; [done|]. cbn [prune_loop].
  destruct (set_first _ _) as [[d q]|]; [|done]. case_match; [done|]. apply IH; [|by eapply kept_remove].
  pose proof (remove_ok n s q Hwf) as Hr. destruct (remove s q). apply Hr.
Qed.

(** *** Being served *)

Lemma kept_serve room n h s seq :
  wf n s -> n < u64_max -> is_Some (waiters s !! seq) -> kept room h s -> kept room (Served seq :: h) (serve s seq).
Proof.
  intros Hwf Hn [x Hx] [Hroom Ha Hs]. destruct (serve_ok n s seq x Hwf Hn Hx) as (Hwf' & Ews & _).
  destruct (Ha seq x Hx) as (a & Harr & _ & _ & Hko). pose proof (wf_counters _ _ Hwf) as Hc.
  destruct (key_known _ _ _ _ _ (wf_keys _ _ Hwf) _ _ Hko) as (_ & st & Hst & Hid).
  assert (Hwrap : wrap64 (service_seq s + 1) = service_seq s + 1) by (apply wrap64_small; mlia).
  unfold serve in *. rewrite Hx, Hko, Hst, Hwrap in *.
  match goal with |- kept _ _ (remove ?s1 _).2 => set (s1' := s1) in * end.
  destruct (remove_keeps s1' seq) as (E1 & E2 & E3 & E4 & E5). constructor; [by rewrite E1| |].
  - intros q y Hy. pose proof (key_waiter _ _ _ _ _ (wf_keys _ _ Hwf') q y Hy) as [k Hk].
    rewrite Ews in Hy. apply lookup_delete_Some in Hy as [_ Hy]. destruct (Ha q y Hy) as (b & H1 & H2 & H3 & H4).
    exists b. split_and!; [done..|]. pose proof (lookup_weaken _ _ _ _ Hk E2) as Hk'.
    change (key_of s1') with (key_of s) in Hk'. congruence.
  - intros Hle. change (Z.of_nat (length (keys_met h)) <= room) in Hle. specialize (Hs Hle).
    pose proof (known_size h s Hs) as Hz. destruct Hs as [S1 S2 S3 S4].
    assert (Hsize : size (keys s1') = size (keys s)) by (apply map_size_insert_Some; by exists st).
    destruct E5 as [E5 E6]; [rewrite Hsize; simpl; lia|]. constructor; simpl.
    + intros key. rewrite E6. pose proof (S1 key) as Hkey. unfold known in *. simpl. rewrite Harr. simpl.
      destruct (decide (a_key a = key)) as [<- |Hne].
      * rewrite lookup_insert_eq. rewrite Hst in Hkey. simpl in *. case_decide; [|done].
        rewrite decide_True by done. congruence.
      * rewrite lookup_insert_ne by done. rewrite Hkey. case_decide; [|done]. rewrite decide_False by congruence. done.
    + rewrite E5. exact S2.
    + rewrite E3. simpl. by rewrite S3.
    + rewrite E4. exact S4.
Qed.

(** *** The index agrees with the history *)

Lemma rank_standing n h s seq x a :
  wf n s -> as_arrived h s -> as_served h s -> waiters s !! seq = Some x -> arrival h seq = Some a ->
  rank s (seq, x) = standing h seq a.
Proof.
  intros Hwf Ha [Hs _ _ _] Hx Harr. destruct (Ha seq x Hx) as (a' & H1 & H2 & _ & Hko). simplify_eq.
  destruct (key_known _ _ _ _ _ (wf_keys _ _ Hwf) _ _ Hko) as (_ & st & Hst & Hid). specialize (Hs (a_key a)).
  unfold known in Hs. rewrite Hst in Hs. simpl in Hs. case_decide; [|done]. unfold rank, standing, keys_recency. simpl.
  rewrite Hko. simpl. rewrite Hst. congruence.
Qed.

Lemma live_still h s seq x a now_ms : as_arrived h s -> waiters s !! seq = Some x ->
  arrival h seq = Some a -> (live now_ms x <-> still now_ms a).
Proof.
  intros Ha Hx Harr. destruct (Ha seq x Hx) as (a' & H1 & _ & Hd & _). simplify_eq. unfold live, still. by rewrite Hd.
Qed.

(** [waiting] lists the live waiters. *)
Definition lists_waiting s (waiting : list Z) (now_ms : Z) : Prop :=
  forall seq, seq ∈ waiting <-> exists x, waiters s !! seq = Some x /\ live now_ms x.

Lemma winner_whose_turn n h s waiting now_ms :
  wf n s -> as_arrived h s -> as_served h s -> lists_waiting s waiting now_ms ->
  (winner s now_ms).1 = whose_turn h waiting now_ms.
Proof.
  intros Hwf Ha Hs Hw. rewrite (winner_turn n) by done. unfold turn, whose_turn. f_equal.
  apply least_ext; [apply _|]. intros r. rewrite standings_in. unfold ranks. rewrite list_elem_of_fmap. split.
  - intros ([seq x] & -> & [Hx Hl]%elem_of_map_to_list%map_lookup_filter_Some). simpl in Hl.
    destruct (Ha seq x Hx) as (a & Harr & _). exists seq, a. split; [apply Hw; eauto|]. split; [done|].
    split; [by apply (live_still h s seq x)|]. by apply (rank_standing n).
  - intros (seq & a & (x & Hx & Hl)%Hw & Harr & _ & ->). exists (seq, x). split; [symmetry; by apply (rank_standing n)|].
    by apply elem_of_map_to_list, map_lookup_filter_Some.
Qed.

(** However many keys there are, no waiter is passed by a lower priority, or
    by a later arrival of its own key and priority. *)
Definition never_passed h (seq : Z) (waiting : list Z) : Prop :=
  exists a, arrival h seq = Some a /\ forall seq' a', seq' ∈ waiting -> arrival h seq' = Some a' ->
    a_priority a' <= a_priority a /\ (a_priority a' = a_priority a -> a_key a' = a_key a -> seq <= seq').

Lemma winner_never_passed n h s waiting now_ms seq :
  wf n s -> as_arrived h s -> lists_waiting s waiting now_ms -> (winner s now_ms).1 = Some seq ->
  seq ∈ waiting /\ never_passed h seq waiting.
Proof.
  intros Hwf Ha Hw. rewrite (winner_turn n) by done. intros (x & Hx & Hl & Hmin)%turn_waiter.
  split; [apply Hw; eauto|]. destruct (Ha seq x Hx) as (a & Harr & Hp & _ & Hko). exists a. split; [done|].
  intros seq' a' (x' & Hx' & Hl')%Hw Harr'. specialize (Hmin seq' x' Hx' Hl').
  destruct (Ha seq' x' Hx') as (b & E & Hp' & _ & Hko'). simplify_eq. unfold rank_le, rank in Hmin. simpl in Hmin.
  apply lex_spec in Hmin as [H1 H2]; [|apply _]. unfold reverse in H1, H2. simpl in H1, H2. rewrite Z.leb_le in H1, H2.
  split; [lia|]. intros Ep Ek. specialize (H2 ltac:(lia)).
  assert (Ei : key_id x' = key_id x).
  { destruct (key_known _ _ _ _ _ (wf_keys _ _ Hwf) _ _ Hko) as (_ & st & Hst & <-).
    destruct (key_known _ _ _ _ _ (wf_keys _ _ Hwf) _ _ Hko') as (_ & st' & Hst' & <-). congruence. }
  rewrite Ei in H2. apply lex_spec in H2 as [_ H2]; [|apply _]. specialize (H2 (order_refl _ _)). simpl in H2.
  apply lex_spec in H2 as [_ H2]; [|apply _]. specialize (H2 (order_refl _ _)). simpl in H2. lia.
Qed.

Lemma winner_none n s waiting now_ms : wf n s -> lists_waiting s waiting now_ms ->
  (winner s now_ms).1 = None -> waiting = [].
Proof.
  intros Hwf Hw. rewrite (winner_turn n) by done. unfold turn. destruct (least _ _) eqn:E; [done|]. intros _.
  apply least_None in E. destruct waiting as [|q waiting]; [done|]. exfalso.
  destruct (proj1 (Hw q)) as (x & Hx & Hl); [by left|].
  assert (Hin : rank s (q, x) ∈ ranks s now_ms).
  { apply list_elem_of_fmap. exists (q, x). split; [done|]. by apply elem_of_map_to_list, map_lookup_filter_Some. }
  rewrite E in Hin. by apply elem_of_nil in Hin.
Qed.

End Kept.

(** ** The run *)

Section Run.
Context {K I : Type} `{Countable K}.
Context (inner : Limiter I) (capacity : Z) (overflow : Overflow).

Abbreviation world := (world (K := K) (I := I)).
Abbreviation move := (nat * Action (K := K) * Z)%type.
Implicit Types (w : world) (h : list (event K)) (s : move).

(** What a step shows: its task's call joined the queue, or was granted. *)
Definition events w s w' : list (event K) :=
  match tasks w !! s.1.1, s.1.2, tasks w' !! s.1.1 with
  | Some Idle, Acquire p _ key _, Some (Top c) => [Arrived (c_seq c) (mkArrival p (c_deadline c) key)]
  | Some (Locking c _), Go, Some (Leaving _ (Some (Ok _))) => [Served (c_seq c)]
  | _, _, _ => []
  end.

Fixpoint history_of h w (schedule : list move) : list (event K) :=
  match schedule with
  | [] => h
  | s :: schedule => let w' := step inner capacity overflow w s in history_of (events w s w' ++ h) w' schedule
  end.

(** The calls in line: joined, not granted, not evicted, their deadline
    ahead. *)
Definition ungranted (t : Task) : option Call :=
  match t with Leaving _ (Some (Ok _)) => None | _ => call_of t end.

Definition timely (now_ms : Z) (deadline : option Z) : Prop :=
  match deadline with Some d => now_ms < d | None => True end.

#[export] Instance timely_dec now_ms d : base.Decision (timely now_ms d).
Proof. unfold timely. destruct d; apply _. Defined.

Definition in_line w (now_ms : Z) : list Z :=
  omap (fun t =>
    c ← ungranted t;
    sg ← signals w !! c_seq c;
    if evicted sg then None
    else if decide (timely now_ms (c_deadline c)) then Some (c_seq c) else None) (tasks w).

Lemma in_line_in w now_ms seq : seq ∈ in_line w now_ms <->
  exists i t c sg, tasks w !! i = Some t /\ ungranted t = Some c /\ signals w !! c_seq c = Some sg /\
    evicted sg = false /\ timely now_ms (c_deadline c) /\ c_seq c = seq.
Proof.
  unfold in_line. rewrite list_elem_of_omap. split.
  - intros (t & [i Hi]%list_elem_of_lookup & E). destruct (ungranted t) as [c|] eqn:Et; [|done]. simpl in E.
    destruct (signals w !! c_seq c) as [sg|] eqn:Esg; [|done]. simpl in E. destruct (evicted sg) eqn:Ee; [done|].
    case_decide; [|done]. injection E as <-. by exists i, t, c, sg.
  - intros (i & t & c & sg & Hi & Et & Esg & Ee & Ht & <-). exists t. split; [by eapply list_elem_of_lookup_2|].
    rewrite Et. simpl. rewrite Esg. simpl. by rewrite Ee, decide_True.
Qed.

Lemma ungranted_call t c : ungranted t = Some c -> call_of t = Some c.
Proof. destruct t as [|?|?|?|?|?|? [[]|]|]; done. Qed.

(** Up to [now_ms], the queue holds exactly the calls in line. *)
Record attended (now_ms : Z) w : Prop := mkAttended {
  att_evicted seq sg : signals w !! seq = Some sg -> evicted sg = true -> waiters (state w) !! seq = None;
  att_granted i c : tasks w !! i = Some (Leaving c (Some (Ok tt))) -> waiters (state w) !! c_seq c = None;
  att_present i t c sg : tasks w !! i = Some t -> ungranted t = Some c -> signals w !! c_seq c = Some sg ->
    evicted sg = false -> timely now_ms (c_deadline c) -> is_Some (waiters (state w) !! c_seq c);
  att_reading i c read_ms : tasks w !! i = Some (Locking c read_ms) -> read_ms <= now_ms;
  att_deadline i t c x : tasks w !! i = Some t -> call_of t = Some c -> waiters (state w) !! c_seq c = Some x ->
    deadline_ms x = c_deadline c }.

Lemma attended_lists n now_ms w : sound capacity n w -> attended now_ms w ->
  lists_waiting (state w) (in_line w now_ms) now_ms.
Proof.
  intros Hs [A1 A2 A3 A4 A5] seq. rewrite in_line_in. split.
  - intros (i & t & c & sg & Hi & Et & Esg & Ee & Ht & <-). destruct (A3 i t c sg) as [x Hx]; [done..|].
    exists x. split; [done|]. unfold live. by rewrite (A5 i t c x Hi (ungranted_call t c Et) Hx).
  - intros (x & Hx & Hl). destruct (sound_owner _ _ _ Hs seq) as (i & t & c & Hi & Hc & <-); [by eexists|].
    destruct (sound_call _ _ _ Hs i t c Hi Hc) as (_ & sg & Hsg & _). exists i, t, c, sg.
    split; [done|]. split.
    { destruct t as [|?|?|?|?|?|e [[[]|]|]|]; try done. simpl in Hc. simplify_eq. by rewrite (A2 i c Hi) in Hx. }
    split; [done|]. split; [destruct (evicted sg) eqn:Ee; [|done]; by rewrite (A1 _ sg Hsg Ee) in Hx|].
    split; [|done]. unfold live in Hl. by rewrite (A5 i t c x Hi Hc Hx) in Hl.
Qed.

(** A step under the lock that drops nobody still in time. *)
Record spares (now_ms : Z) w w' : Prop := mkSpares {
  spares_tasks : tasks w' = tasks w;
  spares_waiters : waiters (state w') ⊆ waiters (state w);
  spares_flags seq : evicted <$> signals w' !! seq = evicted <$> signals w !! seq;
  spares_live seq x : waiters (state w) !! seq = Some x -> live now_ms x -> waiters (state w') !! seq = Some x }.

Lemma spares_trans now_ms w1 w2 w3 : spares now_ms w1 w2 -> spares now_ms w2 w3 -> spares now_ms w1 w3.
Proof.
  intros [A1 A2 A3 A4] [B1 B2 B3 B4]. constructor; [congruence|by etrans| |auto].
  intros seq. by rewrite B3, A3.
Qed.

Lemma spares_signal now_ms w f seq : (forall sg, evicted (f sg) = evicted sg) ->
  spares now_ms w (set_signals w (alter f seq (signals w))).
Proof.
  intros Hf. constructor; try done. intros q. simpl. rewrite lookup_alter. case_decide; [subst|done].
  destruct (signals w !! q); simpl; [by rewrite Hf|done].
Qed.

Lemma live_earlier now_ms read_ms x : read_ms <= now_ms -> live now_ms x -> live read_ms x.
Proof. unfold live. destruct (deadline_ms x); [lia|done]. Qed.

Lemma spares_prune n now_ms w read_ms : wf n (state w) -> read_ms <= now_ms ->
  spares now_ms w (set_state w (prune_expired (state w) read_ms)).
Proof.
  intros Hwf Hr. destruct (prune_expired_ok n (state w) read_ms Hwf) as (_ & E & _).
  constructor; simpl; [done|rewrite E; apply map_filter_subseteq|done|]. intros seq x Hx Hl. rewrite E.
  apply map_lookup_filter_Some. split; [done|]. simpl. by eapply live_earlier.
Qed.

Lemma spares_wake_winner n now_ms w read_ms : wf n (state w) -> read_ms <= now_ms ->
  spares now_ms w (wake_winner w read_ms).
Proof.
  intros Hwf Hr. pose proof (spares_prune n now_ms w read_ms Hwf Hr) as Hs. unfold wake_winner.
  rewrite winner_pick. destruct (pick _) as [q|]; [|done]. destruct (waiters _ !! q); [|done].
  eapply spares_trans; [exact Hs|]. by apply (spares_signal now_ms (set_state w _)).
Qed.

Lemma attended_spares now_ms w w' : attended now_ms w -> spares now_ms w w' -> attended now_ms w'.
Proof.
  intros [A1 A2 A3 A4 A5] [B1 B2 B3 B4].
  assert (Hback : forall seq sg', signals w' !! seq = Some sg' ->
    exists sg, signals w !! seq = Some sg /\ evicted sg' = evicted sg).
  { intros seq sg' E. specialize (B3 seq). rewrite E in B3. destruct (signals w !! seq) as [sg|]; [|done].
    injection B3 as Hev. eauto. }
  constructor; rewrite ?B1.
  - intros seq sg' (sg & Hsg & ->)%Hback He. eapply lookup_weaken_None; [by eapply A1|exact B2].
  - intros i c Hi. eapply lookup_weaken_None; [by eapply A2|exact B2].
  - intros i t c sg' Hi Ht (sg & Hsg & Ee)%Hback He Htm. rewrite Ee in He.
    destruct (A3 i t c sg Hi Ht Hsg He Htm) as [x Hx]. exists x. apply B4; [done|]. unfold live.
    by rewrite (A5 i t c x Hi (ungranted_call t c Ht) Hx).
  - exact A4.
  - intros i t c x Hi Ht Hx. eapply A5; [done..|]. by eapply lookup_weaken.
Qed.

(** A task goes on in the loop. *)
Lemma attended_move now_ms w i t t' : attended now_ms w -> tasks w !! i = Some t ->
  (forall c, call_of t' = Some c -> call_of t = Some c) -> (forall c, ungranted t' = Some c -> ungranted t = Some c) ->
  (forall c, t' <> Leaving c (Some (Ok tt))) -> (forall c r, t' = Locking c r -> r <= now_ms) ->
  attended now_ms (set_task w i t').
Proof.
  intros [A1 A2 A3 A4 A5] Hi Hc Hu Hg Hr. pose proof (lookup_lt_Some _ _ _ Hi) as Hlt.
  pose proof (fun j u => lookup_task w i t' j u Hlt) as Hat. constructor; simpl; [done|..].
  - intros j c [[-> E]|[_ Hj]]%Hat; [by destruct (Hg c)|eauto].
  - intros j u c sg [[-> ->]|[_ Hj]]%Hat Hu'; [|eauto]. eapply A3; [done|]. by apply Hu.
  - intros j c r [[-> E]|[_ Hj]]%Hat; [by eapply Hr|eauto].
  - intros j u c x [[-> ->]|[_ Hj]]%Hat Hu'; [|eauto]. eapply A5; [done|]. by apply Hc.
Qed.

(** A task's waiter is taken out with the end of its call. *)
Lemma attended_gone n now_ms w w' i t c t' : sound capacity n w -> attended now_ms w ->
  tasks w !! i = Some t -> call_of t = Some c -> ungranted t' = None -> (forall e, call_of t' = Some e -> e = c) ->
  tasks w' = <[i := t']> (tasks w) -> signals w' = signals w ->
  waiters (state w') = delete (c_seq c) (waiters (state w)) -> attended now_ms w'.
Proof.
  intros Hs [A1 A2 A3 A4 A5] Hi Hc Hu Hc' Et Es Ew. pose proof (lookup_lt_Some _ _ _ Hi) as Hlt.
  pose proof (fun j u => lookup_task w i t' j u Hlt) as Hat. constructor; rewrite ?Et, ?Es, ?Ew.
  - intros seq sg Hsg He. rewrite lookup_delete_None. right. by eapply A1.
  - intros j e [[-> E]|[_ Hj]]%Hat; rewrite lookup_delete_None; [left|right; by eapply A2].
    rewrite (Hc' e); [done|by rewrite <- E].
  - intros j u e sg [[-> ->]|[Hne Hj]]%Hat Hu' Hsg He Ht; [congruence|].
    rewrite lookup_delete_ne; [by eapply A3|]. intros E. apply Hne. symmetry.
    eapply (sound_inj _ _ _ Hs); [exact Hi|exact Hj|exact Hc|by apply ungranted_call|done].
  - intros j e r [[-> <-]|[_ Hj]]%Hat; [done|eauto].
  - intros j u e x [[-> ->]|[_ Hj]]%Hat Hu'; rewrite lookup_delete_Some.
    + intros [Hne _]. by rewrite (Hc' e Hu') in Hne.
    + intros [_ Hx]. eauto.
Qed.

Lemma attended_evict n now_ms w seq : wf n (state w) -> attended now_ms w -> attended now_ms (evict w seq).
Proof.
  intros Hwf [A1 A2 A3 A4 A5]. pose proof (remove_ok n (state w) seq Hwf) as Hr. unfold evict.
  destruct (remove (state w) seq) as [o s']. destruct Hr as (_ & -> & Ew & _).
  assert (Hsub : waiters s' ⊆ waiters (state w)) by (rewrite Ew; apply delete_subseteq).
  destruct (waiters (state w) !! seq) as [y|] eqn:Ey.
  2:{ rewrite delete_id in Ew by done. constructor; simpl; rewrite ?Ew; done. }
  constructor; simpl.
  - intros q sg Hsg He. rewrite Ew, lookup_delete_None. destruct (decide (seq = q)); [by left|right].
    rewrite lookup_alter_ne in Hsg by done. by eapply A1.
  - intros i c Hi. eapply lookup_weaken_None; [by eapply A2|done].
  - intros i t c sg Hi Ht Hsg He Htm. rewrite lookup_alter in Hsg. rewrite Ew. case_decide as E.
    + rewrite E in Hsg. destruct (signals w !! c_seq c); simpl in Hsg; [injection Hsg as <-|]; done.
    + rewrite lookup_delete_ne by done. by eapply A3.
  - exact A4.
  - intros i t c x Hi Ht Hx. eapply A5; [done..|]. by eapply lookup_weaken.
Qed.

Lemma attended_filed n now_ms w i p d key cost : sound capacity n w -> n < u64_max -> tasks w !! i = Some Idle ->
  attended now_ms w -> attended now_ms (filed w i p d key cost).
Proof.
  intros Hs Hn Hi [A1 A2 A3 A4 A5]. pose proof (lookup_lt_Some _ _ _ Hi) as Hlt. unfold filed.
  pose proof (insert_ok n (state w) p d key (sound_wf _ _ _ Hs) Hn) as Hins.
  destruct (insert (state w) p d key) as [seq s']. destruct Hins as (_ & Eseq & ki & Ew & Hnone).
  assert (Hne : forall j u c, tasks w !! j = Some u -> call_of u = Some c -> seq <> c_seq c).
  { intros j u c Hj Hu. destruct (sound_call _ _ _ Hs j u c Hj Hu). lia. }
  pose proof (fun j u => lookup_task w i (Top (mkCall seq d cost)) j u Hlt) as Hat.
  constructor; simpl; rewrite ?Ew.
  - intros q sg. rewrite lookup_insert_Some. intros [[<- <-]|[Hq Hsg]] He; [done|].
    rewrite lookup_insert_ne by done. by eapply A1.
  - intros j c [[-> E]|[_ Hj]]%Hat; [done|]. rewrite lookup_insert_ne by (by eapply Hne). by eapply A2.
  - intros j u c sg [[-> ->]|[_ Hj]]%Hat Hu.
    + injection Hu as <-. simpl. rewrite !lookup_insert_eq. by eexists.
    + apply ungranted_call in Hu as Hc. rewrite !lookup_insert_ne by (by eapply Hne). by eapply A3.
  - intros j c r [[-> E]|[_ Hj]]%Hat; [done|eauto].
  - intros j u c x [[-> ->]|[_ Hj]]%Hat Hu.
    + injection Hu as <-. simpl. rewrite lookup_insert_eq. by intros [= <-].
    + rewrite lookup_insert_ne by (by eapply Hne). eauto.
Qed.

(** The state keeps the history [h], and the queue holds the calls in line. *)
Definition traced (room now_ms : Z) h w : Prop := kept room h (state w) /\ attended now_ms w.

Lemma traced_wake_winner room n now_ms h w read_ms : wf n (state w) -> read_ms <= now_ms ->
  traced room now_ms h w -> traced room now_ms h (wake_winner w read_ms).
Proof.
  intros Hwf Hr [Hk Ha]. split; [|eapply attended_spares; [exact Ha|by eapply spares_wake_winner]].
  pose proof (kept_prune room n h (state w) read_ms Hwf Hk). unfold wake_winner. rewrite winner_pick.
  destruct (pick _) as [q|]; [|done]. by destruct (waiters _ !! q).
Qed.

Lemma traced_prune room n now_ms h w read_ms : wf n (state w) -> read_ms <= now_ms ->
  traced room now_ms h w -> traced room now_ms h (set_state w (prune_expired (state w) read_ms)).
Proof.
  intros Hwf Hr [Hk Ha]. split; [by eapply kept_prune|]. eapply attended_spares; [exact Ha|by eapply spares_prune].
Qed.

Lemma traced_evict room n now_ms h w seq : wf n (state w) ->
  traced room now_ms h w -> traced room now_ms h (evict w seq).
Proof.
  intros Hwf [Hk Ha]. split; [|by eapply attended_evict]. pose proof (kept_remove room n h (state w) seq Hwf Hk).
  unfold evict. destruct (remove (state w) seq) as [[x|] s']; done.
Qed.

Lemma traced_filed room n now_ms h w i p d key cost : sound capacity n w -> n < u64_max -> tasks w !! i = Some Idle ->
  traced room now_ms h w ->
  let seq := next_seq (state w) in
  traced room now_ms (Arrived seq (mkArrival p d key) :: h) (filed w i p d key cost) /\
  tasks (filed w i p d key cost) !! i = Some (Top (mkCall seq d cost)).
Proof.
  intros Hs Hn Hi [Hk Ha]. pose proof (lookup_lt_Some _ _ _ Hi) as Hlt.
  pose proof (attended_filed n now_ms w i p d key cost Hs Hn Hi Ha) as Ha'.
  pose proof (kept_insert room n h (state w) p d key (sound_wf _ _ _ Hs) Hn Hk) as Hk'.
  pose proof (insert_ok n (state w) p d key (sound_wf _ _ _ Hs) Hn) as Hi'. unfold filed in *.
  destruct (insert (state w) p d key) as [seq s']. destruct Hi' as (_ & -> & _).
  split; [by split|]. simpl. by rewrite list_lookup_insert_eq.
Qed.

(** A task goes on without a word to the queue. *)
Lemma traced_move room now_ms h w i t t' : traced room now_ms h w -> tasks w !! i = Some t ->
  call_of t' = call_of t -> ungranted t' = ungranted t -> (forall c, t' <> Leaving c (Some (Ok tt))) ->
  (forall c r, t' = Locking c r -> r <= now_ms) -> traced room now_ms h (set_task w i t').
Proof.
  intros [Hk Ha] Hi Hc Hu Hg Hr. split; [done|].
  apply (attended_move _ _ _ t); [done|done|by rewrite Hc|by rewrite Hu|done|done].
Qed.

Lemma traced_limiter room now_ms h w l : traced room now_ms h w -> traced room now_ms h (set_limiter w l).
Proof. intros [Hk Ha]. split; [done|]. by eapply attended_spares. Qed.

(** *** Joining *)

Lemma enter_forms w i now_ms p d key cost :
  let w0 := set_state w (prune_expired (state w) now_ms) in
  let dl := (fun d => sat_add u64_max now_ms (to_u64_or_max (as_millis d))) <$> d in
  let w' := enter capacity overflow w i now_ms p d key cost in
  w' = set_task w0 i (Finished (Some (Err QueueFull))) \/
  exists w1, (w1 = w0 \/ exists seq, w1 = evict w0 seq) /\ w' = wake_winner (filed w1 i p dl key cost) now_ms.
Proof.
  cbv zeta. unfold enter, register. set (w0 := set_state w _). set (dl := _ <$> d).
  destruct (_ <? _); [|destruct (victim overflow (state w0) p) as [q|]; [|by left]]; right.
  - exists w0. split; [by left|]. rewrite <- enlist_filed. by destruct (enlist w0 now_ms p dl key).
  - exists (evict w0 q). split; [right; by exists q|]. rewrite <- enlist_filed.
    by destruct (enlist (evict w0 q) now_ms p dl key).
Qed.

Lemma traced_enter room n now_ms h w i read_ms p d key cost :
  sound capacity n w -> n < u64_max -> read_ms <= now_ms -> tasks w !! i = Some Idle -> traced room now_ms h w ->
  let w' := enter capacity overflow w i read_ms p d key cost in
  traced room now_ms (events w (i, Acquire p d key cost, read_ms) w' ++ h) w'.
Proof.
  intros Hs Hn Hr Hi Ht. pose proof (lookup_lt_Some _ _ _ Hi) as Hlt. cbv zeta. unfold events. cbn [fst snd]. rewrite Hi.
  pose proof (quieter_winner n w read_ms (sound_wf _ _ _ Hs)) as Hq. rewrite winner_pick in Hq. cbn [snd] in Hq.
  pose proof (traced_prune room n now_ms h w read_ms (sound_wf _ _ _ Hs) Hr Ht) as Ht0.
  destruct (enter_forms w i read_ms p d key cost) as [-> |(w1 & Hw1 & ->)]; set (w0 := set_state w _) in *.
  - simpl. rewrite list_lookup_insert_eq by done. by apply (traced_move _ _ _ w0 i Idle).
  - set (dl := _ <$> d).
    assert (H1 : quieter n w0 w1 /\ traced room now_ms h w1).
    { destruct Hw1 as [-> |(q & ->)]; [split; [apply quieter_refl, Hq|done]|].
      split; [by apply quieter_evict, Hq|]. by eapply traced_evict; [apply Hq|]. }
    destruct H1 as [Hq1 Ht1]. pose proof (quieter_trans _ _ _ _ _ Hq Hq1) as Hq2.
    pose proof (sound_quieter capacity n n w w1 Hs Hq2) as Hs1.
    assert (Hi1 : tasks w1 !! i = Some Idle) by by rewrite (quieter_tasks _ _ _ Hq2).
    destruct (traced_filed room n now_ms h w1 i p dl key cost Hs1 Hn Hi1 Ht1) as [Ht2 Htop].
    assert (Hwf : wf (n + 1) (state (filed w1 i p dl key cost))).
    { pose proof (insert_ok n (state w1) p dl key (sound_wf _ _ _ Hs1) Hn) as Hins. unfold filed.
      destruct (insert (state w1) p dl key). apply Hins. }
    rewrite (quieter_tasks _ _ _ (quieter_wake_winner (n + 1) _ read_ms Hwf)), Htop. simpl.
    by eapply traced_wake_winner.
Qed.

(** *** Being served *)

Lemma traced_served room n now_ms h w i c read_ms l : sound capacity n w -> n < u64_max -> read_ms <= now_ms ->
  tasks w !! i = Some (Locking c read_ms) -> pick (state w) = Some (c_seq c) -> traced room now_ms h w ->
  let w1 := set_state (set_limiter w l) (serve (state w) (c_seq c)) in
  traced room now_ms (Served (c_seq c) :: h) (set_task (wake_winner w1 read_ms) i (Leaving c (Some (Ok tt)))).
Proof.
  intros Hs Hn Hr Hi Hp [Hk Ha] w1. destruct (pick_waits n _ _ (sound_wf _ _ _ Hs) Hp) as [x Hx].
  destruct (serve_ok n (state w) (c_seq c) x (sound_wf _ _ _ Hs) Hn Hx) as (Hwf & Ew & _).
  rewrite <- wake_winner_task. apply (traced_wake_winner room (n + 1)); [done|done|]. split.
  - apply (kept_serve room n); [apply Hs|done|by exists x|done].
  - apply (attended_gone n now_ms w _ i (Locking c read_ms) c (Leaving c (Some (Ok tt)))); try done. by intros e [= <-].
Qed.

Lemma traced_locked room n now_ms h w i c read_ms a : sound capacity n w -> n < u64_max -> read_ms <= now_ms ->
  tasks w !! i = Some (Locking c read_ms) -> traced room now_ms h w ->
  let w' := locked inner w i c read_ms in
  traced room now_ms (events w (i, Go, a) w' ++ h) w'.
Proof.
  intros Hs Hn Hr Hi Ht. pose proof (lookup_lt_Some _ _ _ Hi) as Hlt. cbv zeta. unfold events. cbn [fst snd]. rewrite Hi.
  pose proof (quieter_winner n w read_ms (sound_wf _ _ _ Hs)) as Hq.
  pose proof (traced_prune room n now_ms h w read_ms (sound_wf _ _ _ Hs) Hr Ht) as Ht0.
  unfold locked. rewrite winner_pick in *. cbn [snd] in Hq. set (w0 := set_state w _) in *.
  pose proof (sound_quieter capacity n n w w0 Hs Hq) as Hs0.
  destruct (decide (pick _ = _)) as [Hp|_].
  2:{ simpl. rewrite list_lookup_insert_eq by done. by apply (traced_move _ _ _ w0 i (Locking c read_ms)). }
  destruct (acquire_cost inner (c_cost c) (limiter w0)) as [[|after|] l].
  - pose proof (traced_served room n now_ms h w0 i c read_ms l Hs0 Hn Hr Hi Hp Ht0) as H1. cbv zeta in H1.
    destruct (pick_waits n _ _ (sound_wf _ _ _ Hs0) Hp) as [x Hx].
    destruct (serve_ok n (state w0) (c_seq c) x (sound_wf _ _ _ Hs0) Hn Hx) as (Hwf & _).
    set (w1 := set_state (set_limiter w0 l) _) in *. change (set_state _ (serve _ _)) with w1.
    simpl tasks. rewrite (quieter_tasks _ _ _ (quieter_wake_winner (n + 1) w1 read_ms Hwf)).
    rewrite list_lookup_insert_eq by done. exact H1.
  - simpl. rewrite list_lookup_insert_eq by done.
    by apply (traced_move _ _ _ (set_limiter w0 l) i (Locking c read_ms)); [apply traced_limiter|..].
  - simpl. rewrite list_lookup_insert_eq by done.
    by apply (traced_move _ _ _ (set_limiter w0 l) i (Locking c read_ms)); [apply traced_limiter|..].
Qed.

(** *** Leaving *)

Lemma traced_leave room n now_ms h w i c r read_ms : sound capacity n w -> read_ms <= now_ms ->
  tasks w !! i = Some (Leaving c r) -> traced room now_ms h w ->
  traced room now_ms h (set_task (leave w (c_seq c) read_ms) i (Finished r)).
Proof.
  intros Hs Hr Hi [Hk Ha]. pose proof (remove_ok n (state w) (c_seq c) (sound_wf _ _ _ Hs)) as Hrm.
  pose proof (kept_remove room n h (state w) (c_seq c) (sound_wf _ _ _ Hs) Hk) as Hk'. unfold leave.
  destruct (remove (state w) (c_seq c)) as [o s']. destruct Hrm as (Hwf & _ & Ew & _). simpl in Hk'.
  assert (Ht : traced room now_ms h (set_task (set_state w s') i (Finished r))).
  { split; [done|]. apply (attended_gone n now_ms w _ i (Leaving c r) c (Finished r)); done. }
  destruct o; [|done]. rewrite <- wake_winner_task. by apply (traced_wake_winner room n).
Qed.

(** *** Any step *)

Lemma traced_go room n now_ms h w i t read_ms w' : sound capacity n w -> n < u64_max -> read_ms <= now_ms ->
  tasks w !! i = Some t -> go inner w i t read_ms = Some w' -> traced room now_ms h w ->
  traced room now_ms (events w (i, Go, read_ms) w' ++ h) w'.
Proof.
  intros Hs Hn Hr Hi Hgo Ht. pose proof (lookup_lt_Some _ _ _ Hi) as Hlt.
  destruct t as [|c|c|c|c r|c d b|c r|r]; simpl in Hgo; simplify_eq.
  4: { assert (Hr' : r <= now_ms) by (eapply att_reading; [apply Ht|exact Hi]).
       by apply (traced_locked room n). }
  all: unfold events; cbn [fst snd]; rewrite Hi; simpl app.
  - apply (traced_move _ _ _ _ i (Top c)); try done. destruct Ht as [Hk Ha]. split; [done|].
    eapply attended_spares; [exact Ha|by apply spares_signal].
  - destruct (signals w !! c_seq c) as [sg|]; simplify_eq.
    by destruct (evicted sg); apply (traced_move _ _ _ _ i (Listening c)).
  - set (t' := match c_deadline c with None => _ | Some d => _ end).
    assert (Hc : t' = Leaving c (Some (Err DeadlineExceeded)) \/ t' = Locking c read_ms).
    { unfold t'. destruct (c_deadline c) as [d|]; [|by right]. destruct (d <=? read_ms); auto. }
    destruct Hc as [-> | ->]; apply (traced_move _ _ _ _ i (Checked c)); try done. by intros e r [= _ <-].
  - by apply (traced_leave room n).
Qed.

Lemma traced_step room n now_ms h w s : sound capacity n w -> n < u64_max -> s.2 <= now_ms ->
  traced room now_ms h w ->
  let w' := step inner capacity overflow w s in traced room now_ms (events w s w' ++ h) w'.
Proof.
  intros Hs Hn Hr Ht. destruct s as [[i a] read_ms]. cbv zeta. unfold step. cbn [fst snd] in *.
  destruct (act inner capacity overflow w i a read_ms) as [w'|] eqn:E; unfold act in E.
  2:{ assert (events w (i, a, read_ms) w = []) as ->; [|done]. unfold events. cbn [fst snd].
      destruct (tasks w !! i) as [t|]; [|done]. by destruct t, a. }
  destruct (tasks w !! i) as [t|] eqn:Hi; [|done]. destruct a as [p d key cost| | | |].
  - destruct t; try done. injection E as <-. by apply (traced_enter room n).
  - by apply (traced_go room n now_ms h w i t).
  - destruct t as [|?|?|?|?|c d b| |]; try done. destruct (signals w !! c_seq c) as [sg|]; [|done].
    destruct (notified sg); [|done]. injection E as <-. unfold events. cbn [fst snd]. rewrite Hi.
    by apply (traced_move _ _ _ _ i (Parked c d b)).
  - destruct t as [|?|?|?|?|c d b| |]; try done. injection E as <-. unfold events. cbn [fst snd]. rewrite Hi.
    by apply (traced_move _ _ _ _ i (Parked c d b)).
  - destruct t as [|?|?|?|?|c d b| |]; try done. injection E as <-. unfold events. cbn [fst snd]. rewrite Hi.
    by apply (traced_move _ _ _ _ i (Parked c d b)).
Qed.

(** A step is at most one event. *)
Lemma met_step h w s w' : (length (keys_met (events w s w' ++ h)) <= S (length (keys_met h)))%nat.
Proof.
  unfold events. repeat case_match; simpl; try lia. case_decide; [lia|]. rewrite length_app. simpl. lia.
Qed.

Lemma met_run h w schedule :
  (length (keys_met (history_of h w schedule)) <= length (keys_met h) + length schedule)%nat.
Proof.
  revert h w. induction schedule as [|s schedule IH]; intros h w; simpl; [lia|].
  etrans; [apply IH|]. pose proof (met_step h w s (step inner capacity overflow w s)). lia.
Qed.

Lemma traced_initial now_ms l n :
  traced (prune_at (State_new (K := K) capacity)) now_ms [] (initial capacity l n).
Proof.
  split; [apply kept_new|].
  constructor; simpl; [by intros seq sg; rewrite lookup_empty|intros i ? Hi|intros i ? ? ? Hi|intros i ? ? Hi|intros i ? ? ? Hi];
    apply lookup_replicate in Hi as [E _]; by simplify_eq.
Qed.

Lemma traced_run room now_ms schedule n h w : sound capacity n w -> n + Z.of_nat (length schedule) <= u64_max ->
  Forall (fun s => s.2 <= now_ms) schedule -> traced room now_ms h w ->
  let w' := run (step inner capacity overflow) w schedule in
  sound capacity (n + Z.of_nat (length schedule)) w' /\ traced room now_ms (history_of h w schedule) w'.
Proof.
  intros Hs Hb Hr. revert n h w Hs Hb. induction Hr as [|s schedule Hr _ IH]; intros n h w Hs Hb Ht.
  - by rewrite Z.add_0_r.
  - rewrite run_cons. cbn [history_of]. simpl length in *.
    replace (n + Z.of_nat (S (length schedule))) with (n + 1 + Z.of_nat (length schedule)) by lia.
    apply IH; [apply turns_sound_step; [done|lia]|lia|]. by apply (traced_step room n); [|lia|..].
Qed.

End Run.

(** ** Properties *)

(** C11: The index names the turn-holder of the history: after any interleaving
    of calls, evictions, expiries and cancellations, [winner] is, of the
    calls in line (joined, not granted, not evicted, their deadline ahead),
    the one of the highest priority, whose key was granted longest ago, keys
    never granted first in the order in which they came, and of that key the
    one that joined first. So it is as long as the run has not met more than
    [2 * capacity + 16] keys, below which no idle key's recency is dropped.
    Beyond that, the winner is still a call in line passed by none of higher
    priority and by no earlier one of its key and priority, and there is one
    whenever a call is in line. The clock has not read past [now_ms]; the
    bound keeps the 64-bit sequence numbers from wrapping. *)
Theorem winner_is_the_turn {K I : Type} `{Countable K} (inner : Limiter I) (capacity : Z) (overflow : Overflow)
    (l : I) (callers : nat) (schedule : list (nat * Action (K := K) * Z)) (now_ms : Z) :
  0 <= capacity -> Z.of_nat (length schedule) <= u64_max -> Forall (fun s => s.2 <= now_ms) schedule ->
  let w0 := initial capacity l callers in
  let w := run (step inner capacity overflow) w0 schedule in
  let h := history_of inner capacity overflow [] w0 schedule in
  let line := in_line w now_ms in
  (Z.of_nat (length (keys_met h)) <= 2 * capacity + 16 -> (winner (state w) now_ms).1 = whose_turn h line now_ms) /\
  match (winner (state w) now_ms).1 with
  | Some seq => seq ∈ line /\ never_passed h seq line
  | None => line = []
  end.
Proof.
  intros Hc Hb Hr w0 w h line. destruct (traced_run inner capacity overflow _ now_ms schedule 0 [] w0
    (turns_sound_initial capacity l callers Hc) ltac:(lia) Hr (traced_initial capacity now_ms l callers)) as [Hs [Hk Ha]].
  fold w h in Hs, Hk, Ha. pose proof (sound_wf _ _ _ Hs) as Hwf. pose proof (attended_lists _ _ _ _ Hs Ha) as Hl. split.
  - intros Hm. eapply winner_whose_turn; [done|apply Hk| |done]. eapply kept_served; [exact Hk|].
    pose proof (met_run inner capacity overflow [] w0 schedule) as Hl'. fold h in Hl'. simpl in Hl' |- *.
    unfold sat_add, sat_mul. lia.
  - destruct (winner (state w) now_ms).1 as [seq|] eqn:Ew.
    + by eapply winner_never_passed; [|apply Hk|..].
    + by eapply winner_none.
Qed.

(** Of two keys with calls waiting the second goes next, though a call of the
    first joined earlier: the first has been served. *)
Lemma winner_is_the_turn_witness :
  let w0 := initial 4 5 3 in
  let w := run (step gate 4 Reject) w0 two_keys in
  let h := history_of gate 4 Reject [] w0 two_keys in
  h = [Served 0; Arrived 2 (mkArrival 1 None 8); Arrived 1 (mkArrival 1 None 7); Arrived 0 (mkArrival 1 None 7)] /\
  in_line w 0 = [1; 2] /\ whose_turn h [1; 2] 0 = Some 2 /\
  (winner (state w) 0).1 = whose_turn h (in_line w 0) 0.
Proof.
  intros w0 w h. split; [vm_compute; reflexivity|]. split; [vm_compute; reflexivity|]. split; [vm_compute; reflexivity|].
  assert (Hr : Forall (fun s => s.2 <= 0) two_keys) by (repeat (constructor; [simpl; lia|]); constructor).
  pose proof (winner_is_the_turn gate 4 Reject 5 3 two_keys 0 ltac:(lia) ltac:(vm_compute; congruence) Hr) as Ht.
  cbv zeta in Ht. fold w0 in Ht. fold w h in Ht. destruct Ht as [Ht _]. apply Ht. vm_compute. congruence.
Defined.
