(* ===== verification/Text.v ===== *)
(** * Text

    A [&str] is the list of its characters, each the code point of a Unicode
    scalar value. This file writes out what the sources use of the standard
    library on strings: trimming, splitting, case-insensitive comparison and
    the parsing of integers. *)

From Stdlib Require Import Ascii String.
From S2P Require Import Prelude.

Abbreviation str := (list Z).

(** An ASCII literal of the sources. *)
Fixpoint chars (s : string) : str :=
  match s with
  | EmptyString => []
  | String c s => Z.of_N (N_of_ascii c) :: chars s
  end.

Definition is_ascii_digit (c : Z) : bool := (48 <=? c) && (c <=? 57).

(** [char::is_whitespace]: the Unicode property White_Space. *)
Definition is_whitespace (c : Z) : bool :=
  ((9 <=? c) && (c <=? 13)) || (c =? 32) || (c =? 0x85) || (c =? 0xA0) || (c =? 0x1680) ||
  ((0x2000 <=? c) && (c <=? 0x200A)) || (c =? 0x2028) || (c =? 0x2029) || (c =? 0x202F) ||
  (c =? 0x205F) || (c =? 0x3000).

Definition to_ascii_lowercase (c : Z) : Z := if (65 <=? c) && (c <=? 90) then c + 32 else c.
Definition eq_ignore_ascii_case (a b : str) : bool :=
  bool_decide (to_ascii_lowercase <$> a = to_ascii_lowercase <$> b).

(** ** Trimming and splitting *)

Fixpoint trim_start (s : str) : str :=
  match s with
  | c :: rest => if is_whitespace c then trim_start rest else s
  | [] => []
  end.
Definition trim (s : str) : str := reverse (trim_start (reverse (trim_start s))).

(** The pieces between the characters that satisfy [p]: always at least one. *)
Fixpoint split (p : Z -> bool) (s : str) : list str :=
  match s with
  | [] => [[]]
  | c :: rest =>
      match split p rest with
      | piece :: pieces => if p c then [] :: piece :: pieces else (c :: piece) :: pieces
      | [] => [[]]
      end
  end.

Definition nonempty (s : str) : bool := match s with [] => false | _ => true end.

Definition split_whitespace (s : str) : list str :=
  List.filter nonempty (split is_whitespace s).

(** [split_once]: around the first character that satisfies [p]. *)
Fixpoint split_once (p : Z -> bool) (s : str) : option (str * str) :=
  match s with
  | [] => None
  | c :: rest =>
      if p c then Some ([], rest)
      else match split_once p rest with Some (a, b) => Some (c :: a, b) | None => None end
  end.

(** [find] and [split_at]: around the first character that satisfies [p],
    which stays with the second part. *)
Fixpoint split_at_first (p : Z -> bool) (s : str) : str * str :=
  match s with
  | [] => ([], [])
  | c :: rest => if p c then ([], s) else let '(a, b) := split_at_first p rest in (c :: a, b)
  end.

(** [rfind] and [split_at]: around the last character that satisfies [p]. *)
Fixpoint split_at_last (p : Z -> bool) (s : str) : option (str * str) :=
  match s with
  | [] => None
  | c :: rest =>
      match split_at_last p rest with
      | Some (a, b) => Some (c :: a, b)
      | None => if p c then Some ([], s) else None
      end
  end.

Definition strip_suffix (p : Z -> bool) (s : str) : option str :=
  match reverse s with
  | c :: rest => if p c then Some (reverse rest) else None
  | [] => None
  end.

(** ** Integers *)

(** The value of a run of decimal digits. *)
Definition digits_value (s : str) : Z := foldl (fun acc c => acc * 10 + (c - 48)) 0 s.

Definition parse_digits (s : str) : option Z :=
  if nonempty s && forallb is_ascii_digit s then Some (digits_value s) else None.

(** [str::parse] for an unsigned type: an optional plus sign, then digits;
    fails on overflow. *)
Definition parse_unsigned (max : Z) (s : str) : option Z :=
  let digits := match s with c :: rest => if c =? 43 then rest else s | [] => [] end in
  match parse_digits digits with
  | Some v => if v <=? max then Some v else None
  | None => None
  end.

(** [str::parse::<i64>] *)
Definition parse_i64 (s : str) : option Z :=
  let '(sign, digits) :=
    match s with
    | c :: rest => if c =? 45 then (-1, rest) else if c =? 43 then (1, rest) else (1, s)
    | [] => (1, [])
    end in
  match parse_digits digits with
  | Some v => if (i64_min <=? sign * v) && (sign * v <=? i64_max) then Some (sign * v) else None
  | None => None
  end.

(** ** Lemmas *)

(** A word: what splitting at white space leaves whole. *)
Definition word (s : str) : Prop := s <> [] /\ Forall (fun c => is_whitespace c = false) s.

Lemma word_of_bool s : nonempty s && forallb (fun c => negb (is_whitespace c)) s = true -> word s.
Proof.
  intros [Hne Hs]%andb_prop. split; [by destruct s|]. rewrite forallb_forall in Hs.
  apply Forall_forall. intros c Hc. apply negb_true_iff, Hs. by apply list_elem_of_In.
Qed.

Lemma spaces_of_bool s : forallb is_whitespace s = true -> Forall (fun c => is_whitespace c = true) s.
Proof. rewrite forallb_forall, Forall_forall. intros H c Hc. apply H. by apply list_elem_of_In. Qed.

Lemma trim_start_word c s : is_whitespace c = false -> trim_start (c :: s) = c :: s.
Proof. intros H. simpl. by rewrite H. Qed.

Lemma trim_word_ends a b s :
  is_whitespace a = false -> is_whitespace b = false -> trim (a :: s ++ [b]) = a :: s ++ [b].
Proof.
  intros Ha Hb. unfold trim. rewrite trim_start_word by done.
  rewrite app_comm_cons, reverse_app. simpl (reverse [b]).
  change (reverse [b] ++ reverse (a :: s)) with (b :: reverse (a :: s)).
  rewrite trim_start_word by done. rewrite reverse_cons, reverse_involutive. done.
Qed.

Lemma trim_start_spaces s t :
  Forall (fun c => is_whitespace c = true) s -> trim_start (s ++ t) = trim_start t.
Proof. induction 1 as [|c s Hc _ IH]; simpl; [done|]. by rewrite Hc. Qed.

Lemma trim_start_id s : word s -> forall t, trim_start (s ++ t) = s ++ t.
Proof.
  intros [Hne Hs] t. destruct s as [|c s]; [done|]. apply Forall_cons in Hs as [Hc _].
  by apply trim_start_word.
Qed.

(** White space around a word goes. *)
Lemma trim_word a s b :
  Forall (fun c => is_whitespace c = true) a -> Forall (fun c => is_whitespace c = true) b -> word s ->
  trim (a ++ s ++ b) = s.
Proof.
  intros Ha Hb Hs. unfold trim. rewrite trim_start_spaces, trim_start_id by done.
  rewrite reverse_app, trim_start_spaces by (by apply Forall_reverse).
  rewrite <- (app_nil_r (reverse s)), trim_start_id, app_nil_r; [apply reverse_involutive|].
  destruct Hs as [Hne Hs]. split; [|by apply Forall_reverse].
  intros E. apply Hne. rewrite <- (reverse_involutive s), E. done.
Qed.

Lemma split_at_first_app p a b :
  Forall (fun c => p c = false) a -> match b with [] => True | c :: _ => p c = true end ->
  split_at_first p (a ++ b) = (a, b).
Proof.
  intros Ha Hb. induction Ha as [|c a Hc _ IH]; simpl.
  - destruct b as [|c b]; [done|]. simpl. by rewrite Hb.
  - by rewrite Hc, IH.
Qed.

Lemma split_once_app p a c b :
  Forall (fun c => p c = false) a -> p c = true -> split_once p (a ++ c :: b) = Some (a, b).
Proof. intros Ha Hc. induction Ha as [|d a Hd _ IH]; simpl; [by rewrite Hc|]. by rewrite Hd, IH. Qed.

Lemma split_once_none p a : Forall (fun c => p c = false) a -> split_once p a = None.
Proof. induction 1 as [|d a Hd _ IH]; simpl; [done|]. by rewrite Hd, IH. Qed.

Lemma split_at_last_none p b : Forall (fun c => p c = false) b -> split_at_last p b = None.
Proof. induction 1 as [|d b Hd _ IH]; simpl; [done|]. by rewrite IH, Hd. Qed.

Lemma split_at_last_app p a c b :
  Forall (fun c => p c = false) b -> p c = true -> split_at_last p (a ++ c :: b) = Some (a, c :: b).
Proof.
  intros Hb Hc. induction a as [|d a IH]; simpl; [by rewrite split_at_last_none, Hc|]. by rewrite IH.
Qed.

Lemma strip_suffix_app p a c : strip_suffix p (a ++ [c]) = if p c then Some a else None.
Proof. unfold strip_suffix. rewrite reverse_snoc. by rewrite reverse_involutive. Qed.

Lemma split_nonempty p s : split p s <> [].
Proof. destruct s as [|c s]; simpl; [done|]. destruct (split p s); [done|]. by destruct (p c). Qed.

Lemma split_piece p s : Forall (fun c => p c = false) s -> split p s = [s].
Proof. induction 1 as [|c s Hc _ IH]; simpl; [done|]. by rewrite IH, Hc. Qed.

Lemma split_app p s c t :
  Forall (fun c => p c = false) s -> p c = true -> split p (s ++ c :: t) = s :: split p t.
Proof.
  intros Hs Hc. induction Hs as [|d s Hd _ IH]; simpl.
  - destruct (split p t) eqn:E; [by destruct (split_nonempty p t)|]. by rewrite Hc.
  - rewrite IH, Hd. done.
Qed.

Lemma split_whitespace_word s : word s -> split_whitespace s = [s].
Proof. intros [Hne Hs]. unfold split_whitespace. rewrite split_piece by done. by destruct s. Qed.

Lemma split_whitespace_cons s t :
  word s -> split_whitespace (s ++ 32 :: t) = s :: split_whitespace t.
Proof.
  intros [Hne Hs]. unfold split_whitespace. rewrite split_app by done. by destruct s.
Qed.

Lemma split_whitespace_space t : split_whitespace (32 :: t) = split_whitespace t.
Proof.
  unfold split_whitespace. simpl (split _ (32 :: t)).
  destruct (split is_whitespace t) eqn:E; [by destruct (split_nonempty is_whitespace t)|done].
Qed.

(** White space around a value whose first and last characters are none goes. *)
Lemma trim_around a s b :
  Forall (fun c => is_whitespace c = true) a -> Forall (fun c => is_whitespace c = true) b ->
  trim_start s = s -> trim_start (reverse s) = reverse s -> s <> [] -> trim (a ++ s ++ b) = s.
Proof.
  intros Ha Hb Hs Hr Hne. unfold trim. rewrite trim_start_spaces by done.
  assert (Happ : forall s t, trim_start s = s -> s <> [] -> trim_start (s ++ t) = s ++ t).
  { intros [|c u] t Hu Hn; [done|]. simpl in *. destruct (is_whitespace c); [|done].
    exfalso. clear -Hu. assert (H : (length (trim_start u) <= length u)%nat).
    - clear. induction u as [|d u IH]; simpl; [lia|]. destruct (is_whitespace d); simpl; lia.
    - rewrite Hu in H. simpl in H. lia. }
  rewrite Happ by done. rewrite reverse_app, trim_start_spaces by (by apply Forall_reverse).
  rewrite Hr. apply reverse_involutive.
Qed.

Lemma digit_not_space c : is_ascii_digit c = true -> is_whitespace c = false.
Proof.
  unfold is_ascii_digit, is_whitespace. intros H. apply andb_prop in H as [H1%Z.leb_le H2%Z.leb_le].
  repeat (rewrite ?orb_false_iff, ?andb_false_iff, ?Z.eqb_neq, ?Z.leb_gt); lia.
Qed.

Lemma digits_word s : s <> [] -> Forall (fun c => is_ascii_digit c = true) s -> word s.
Proof. intros Hne Hs. split; [done|]. eapply Forall_impl; [done|]. intros c. apply digit_not_space. Qed.

Lemma forallb_digits s : Forall (fun c => is_ascii_digit c = true) s -> forallb is_ascii_digit s = true.
Proof. induction 1 as [|c s Hc _ IH]; simpl; [done|]. by rewrite Hc, IH. Qed.

Lemma forallb_forall_digits s : forallb is_ascii_digit s = true -> Forall (fun c => is_ascii_digit c = true) s.
Proof. rewrite forallb_forall, Forall_forall. intros H c Hc. apply H. by apply list_elem_of_In. Qed.

Lemma digits_value_from acc s :
  foldl (fun acc c => acc * 10 + (c - 48)) acc s = acc * 10 ^ Z.of_nat (length s) + digits_value s.
Proof.
  unfold digits_value. revert acc. induction s as [|c s IH]; intros acc; [simpl; lia|].
  simpl foldl. rewrite (IH (acc * 10 + (c - 48))), (IH (0 * 10 + (c - 48))). simpl length.
  rewrite Nat2Z.inj_succ, Z.pow_succ_r by lia. ring.
Qed.

Lemma digits_value_cons c s : digits_value (c :: s) = (c - 48) * 10 ^ Z.of_nat (length s) + digits_value s.
Proof. apply (digits_value_from (0 * 10 + (c - 48))). Qed.

Lemma digit_range c : is_ascii_digit c = true <-> 0 <= c - 48 <= 9.
Proof. unfold is_ascii_digit. rewrite andb_true_iff, !Z.leb_le. lia. Qed.

Lemma digits_value_nonneg s : Forall (fun c => is_ascii_digit c = true) s -> 0 <= digits_value s.
Proof.
  induction 1 as [|c s Hc _ IH]; [done|]. rewrite digits_value_cons. apply digit_range in Hc.
  pose proof (Z.pow_nonneg 10 (Z.of_nat (length s))). nia.
Qed.

Lemma parse_unsigned_digits max s :
  s <> [] -> Forall (fun c => is_ascii_digit c = true) s ->
  parse_unsigned max s = if digits_value s <=? max then Some (digits_value s) else None.
Proof.
  intros Hne Hs. unfold parse_unsigned, parse_digits. destruct s as [|c s]; [done|].
  assert (Hp : c =? 43 = false).
  { apply Forall_cons in Hs as [Hc _]. unfold is_ascii_digit in Hc. apply andb_prop in Hc as [Hc%Z.leb_le _].
    apply Z.eqb_neq. lia. }
  rewrite Hp, forallb_digits by done. done.
Qed.

Lemma parse_i64_digits s :
  s <> [] -> Forall (fun c => is_ascii_digit c = true) s -> 0 <= digits_value s <= i64_max ->
  parse_i64 s = Some (digits_value s).
Proof.
  intros Hne Hs Hv. unfold parse_i64, parse_digits. destruct s as [|c s]; [done|].
  assert (Hp : c =? 45 = false /\ c =? 43 = false).
  { apply Forall_cons in Hs as [Hc _]. unfold is_ascii_digit in Hc. apply andb_prop in Hc as [Hc%Z.leb_le _].
    rewrite !Z.eqb_neq. lia. }
  destruct Hp as [-> ->]. rewrite forallb_digits by done. simpl (nonempty _ && true).
  set (v := digits_value (c :: s)) in *. cbv iota. rewrite Z.mul_1_l.
  rewrite (proj2 (Z.leb_le _ _)), (proj2 (Z.leb_le _ _)) by (unfold i64_min, i64_max in *; lia). done.
Qed.

(** ** Decimal digits of a bounded number, most significant first *)

Fixpoint decimal (width : nat) (n : Z) : str :=
  match width with
  | O => []
  | S width => decimal width (n / 10) ++ [48 + n mod 10]
  end.

Lemma decimal_digits width n : Forall (fun c => is_ascii_digit c = true) (decimal width n).
Proof.
  revert n. induction width as [|width IH]; intros n; simpl; [constructor|].
  apply Forall_app. split; [apply IH|]. repeat constructor. unfold is_ascii_digit.
  pose proof (Z.mod_pos_bound n 10 ltac:(lia)). rewrite andb_true_iff, !Z.leb_le. lia.
Qed.

Lemma decimal_value width n : 0 <= n < 10 ^ Z.of_nat width -> digits_value (decimal width n) = n.
Proof.
  unfold digits_value. revert n. induction width as [|width IH]; intros n Hn.
  - simpl in *. change (10 ^ Z.of_nat 0) with 1 in Hn. simpl. lia.
  - simpl. rewrite foldl_app, IH; simpl.
    + pose proof (Z.div_mod n 10 ltac:(lia)). lia.
    + rewrite Nat2Z.inj_succ, Z.pow_succ_r in Hn by lia. split; [apply Z.div_pos; lia|].
      apply Z.div_lt_upper_bound; lia.
Qed.

Lemma decimal_nonempty width n : decimal (S width) n <> [].
Proof. simpl. by destruct (decimal width (n / 10)). Qed.

Lemma decimal_word width n : word (decimal (S width) n).
Proof. apply digits_word; [apply decimal_nonempty|apply decimal_digits]. Qed.

Lemma parse_decimal max width n :
  0 <= n < 10 ^ Z.of_nat (S width) -> n <= max -> parse_unsigned max (decimal (S width) n) = Some n.
Proof.
  intros Hn Hm. rewrite parse_unsigned_digits by (apply decimal_nonempty || apply decimal_digits).
  rewrite decimal_value by done. by rewrite (proj2 (Z.leb_le _ _)).
Qed.

Lemma parse_i64_decimal width n :
  0 <= n < 10 ^ Z.of_nat (S width) -> n <= i64_max -> parse_i64 (decimal (S width) n) = Some n.
Proof.
  intros Hn Hm. rewrite parse_i64_digits by
    (apply decimal_nonempty || apply decimal_digits || (rewrite decimal_value by done; lia)).
  by rewrite decimal_value.
Qed.

#[global] Arguments decimal : simpl never.
#[global] Arguments parse_unsigned : simpl never.
#[global] Arguments parse_i64 : simpl never.
