(* ===== verification/TimeUtil.v ===== *)
(** * TimeUtil (timeutil.rs)

    The civil-time conversion of the HTTP-date and RFC 3339 parsers, and a
    reference calendar that counts the days of every year and month. *)

From Stdlib Require Import String.
From S2P Require Import Prelude Text.

Definition SECS_PER_DAY : Z := 86400.

Definition MONTHS : list str :=
  map chars ["Jan"; "Feb"; "Mar"; "Apr"; "May"; "Jun"; "Jul"; "Aug"; "Sep"; "Oct"; "Nov"; "Dec"]%string.

(** [Iterator::position] *)
Fixpoint position {A} (p : A -> bool) (l : list A) : option Z :=
  match l with
  | [] => None
  | x :: l => if p x then Some 0 else Z.succ <$> position p l
  end.

Definition month_index (name : str) : option Z :=
  (fun i => i + 1) <$> position (eq_ignore_ascii_case name) MONTHS.

(** The divisions are on [i64], so they truncate toward zero. *)
Definition days_from_civil (year month day : Z) : Z :=
  let m := month in
  let d := day in
  let y := if m <=? 2 then year - 1 else year in
  let era := (if 0 <=? y then y else y - 399) ÷ 400 in
  let yoe := y - era * 400 in
  let doy := (153 * (if 2 <? m then m - 3 else m + 9) + 2) ÷ 5 + d - 1 in
  let doe := yoe * 365 + yoe ÷ 4 - yoe ÷ 100 + doy in
  era * 146097 + doe - 719468.

Definition within (lo hi x : Z) : bool := (lo <=? x) && (x <=? hi).

Definition civil_to_unix (year month day h m s : Z) : option Z :=
  if negb (within 0 9999 year) || negb (within 1 12 month) || negb (within 1 31 day) ||
     (23 <? h) || (59 <? m) || (60 <? s)
  then None
  else
    let days := days_from_civil year month day in
    let secs_of_day := h * 3600 + m * 60 + s in
    at_midnight ← checked_i64 (days * SECS_PER_DAY);
    checked_i64 (at_midnight + secs_of_day).

(** ** The reference calendar *)

Definition leap (y : Z) : bool := (y mod 4 =? 0) && (negb (y mod 100 =? 0) || (y mod 400 =? 0)).
Definition days_in_year (y : Z) : Z := if leap y then 366 else 365.
Definition days_in_month (y m : Z) : Z :=
  if m =? 2 then (if leap y then 29 else 28)
  else if (m =? 4) || (m =? 6) || (m =? 9) || (m =? 11) then 30 else 31.

(** The days before the [d]-th of month [m] of year [y], counted from
    1 January of the year 0: all earlier years, all earlier months, all
    earlier days. *)
Definition day_number (y m d : Z) : Z :=
  sum_with days_in_year (seqZ 0 y) + sum_with (days_in_month y) (seqZ 1 (m - 1)) + (d - 1).

(** Seconds from 1970-01-01T00:00:00Z. *)
Definition unix_seconds (y m d h mi s : Z) : Z :=
  (day_number y m d - day_number 1970 1 1) * 86400 + h * 3600 + mi * 60 + s.

(** A field of the date or of the time is out of its range. *)
Definition out_of_range (y m d h mi s : Z) : bool :=
  negb (within 0 9999 y && within 1 12 m && within 1 31 d && (h <=? 23) && (mi <=? 59) && (s <=? 60)).

(** ** Lemmas *)

Lemma within_spec lo hi x : within lo hi x = true <-> lo <= x <= hi.
Proof. unfold within. rewrite andb_true_iff, !Z.leb_le. done. Qed.

(** The leap years below [y], by inclusion and exclusion. *)
Lemma years_closed y : 0 <= y ->
  sum_with days_in_year (seqZ 0 y) = 365 * y + (y + 3) / 4 - (y + 99) / 100 + (y + 399) / 400.
Proof.
  revert y. apply natlike_ind; [done|]. intros y Hy IH.
  rewrite <- Z.add_1_r, seqZ_app, sum_with_app, IH, Z.add_0_l by lia.
  change (seqZ y 1) with [y]. rewrite sum_with_singleton. unfold days_in_year, leap.
  destruct (Z.eqb_spec (y mod 4) 0), (Z.eqb_spec (y mod 100) 0), (Z.eqb_spec (y mod 400) 0);
    simpl; Z.to_euclidean_division_equations; lia.
Qed.

Lemma leap_spec y : leap y = true <-> y mod 4 = 0 /\ (y mod 100 <> 0 \/ y mod 400 = 0).
Proof. unfold leap. rewrite andb_true_iff, orb_true_iff, negb_true_iff, !Z.eqb_eq, Z.eqb_neq. done. Qed.

(** The eras of 400 years do not matter: the count is a closed formula of the
    year that starts in March. *)
Lemma days_from_civil_closed year month day :
  let y := if month <=? 2 then year - 1 else year in
  0 <= year ->
  days_from_civil year month day =
    365 * y + y / 4 - y / 100 + y / 400 + (153 * (if 2 <? month then month - 3 else month + 9) + 2) ÷ 5
    + day - 1 - 719468.
Proof.
  intros y Hy. unfold days_from_civil. fold y. cbv zeta.
  generalize ((153 * (if 2 <? month then month - 3 else month + 9) + 2) ÷ 5). intros doy.
  assert (Hy' : -1 <= y) by (unfold y; zcase; lia). clearbody y. clear - Hy'.
  zcase; Z.to_euclidean_division_equations; lia.
Qed.

Lemma months_closed y m : 1 <= m <= 12 ->
  sum_with (days_in_month y) (seqZ 1 (m - 1)) =
    if m <=? 2 then 31 * (m - 1)
    else 59 + (if leap y then 1 else 0) + (153 * (m - 3) + 2) / 5.
Proof.
  intros Hm. assert (H : m ∈ seqZ 1 12) by (rewrite elem_of_seqZ; lia). clear Hm. revert m H.
  apply Forall_forall. vm_compute seqZ. repeat constructor; unfold days_in_month; by destruct (leap y).
Qed.

Lemma day_number_epoch : day_number 1970 1 1 = 719528.
Proof. vm_compute. reflexivity. Qed.

(** The code's count is the reference count, for every date. *)
Lemma days_from_civil_spec y m d : 0 <= y -> 1 <= m <= 12 ->
  days_from_civil y m d = day_number y m d - day_number 1970 1 1.
Proof.
  intros Hy Hm. rewrite day_number_epoch.
  rewrite days_from_civil_closed by done. unfold day_number. rewrite years_closed, months_closed by done.
  assert (Hl : (if leap y then 1 else 0) = (y + 4) / 4 - (y + 100) / 100 + (y + 400) / 400 - ((y + 3) / 4 - (y + 99) / 100 + (y + 399) / 400)).
  { destruct (leap y) eqn:E.
    - apply leap_spec in E. Z.to_euclidean_division_equations; lia.
    - assert (~ (y mod 4 = 0 /\ (y mod 100 <> 0 \/ y mod 400 = 0))) by (rewrite <- leap_spec, E; done).
      Z.to_euclidean_division_equations; lia. }
  destruct (Z.leb_spec m 2).
  - rewrite (proj2 (Z.ltb_ge 2 m)) by done. assert (m = 1 \/ m = 2) as [-> | ->] by lia; simpl;
      Z.to_euclidean_division_equations; lia.
  - rewrite (proj2 (Z.ltb_lt 2 m)), Hl by done. rewrite Z.quot_div_nonneg by lia.
    Z.to_euclidean_division_equations; lia.
Qed.

Lemma day_number_bounds y m d : 0 <= y <= 9999 -> 1 <= m <= 12 -> 1 <= d <= 31 ->
  0 <= day_number y m d <= 3652455.
Proof.
  intros Hy Hm Hd. unfold day_number. rewrite years_closed, months_closed by lia.
  destruct (leap y); zcase; Z.to_euclidean_division_equations; lia.
Qed.

Lemma month_index_spec i name :
  MONTHS !! i = Some name -> month_index name = Some (Z.of_nat i + 1).
Proof. do 12 (destruct i as [|i]; [intros [= <-]; reflexivity|]). done. Qed.

Lemma civil_to_unix_exact y m d h mi s :
  0 <= h -> 0 <= mi -> 0 <= s ->
  civil_to_unix y m d h mi s = if out_of_range y m d h mi s then None else Some (unix_seconds y m d h mi s).
Proof.
  intros Hh Hmi Hs. unfold civil_to_unix, out_of_range. rewrite !negb_andb, <- !Z.ltb_antisym.
  destruct (_ || _) eqn:E; [done|].
  repeat match goal with H : _ || _ = false |- _ => apply orb_false_iff in H as [H ?] end.
  rewrite !negb_false_iff, !within_spec, !Z.ltb_ge in *.
  rewrite days_from_civil_spec by lia. unfold unix_seconds, SECS_PER_DAY.
  pose proof (day_number_bounds y m d) as B. rewrite day_number_epoch.
  rewrite checked_i64_small by mlia. simpl. rewrite checked_i64_small by mlia. f_equal. lia.
Qed.

(** ** Theorems *)

(** The civil-time conversion is total and exact: it
    fails exactly when a field is out of range, and otherwise it is the number
    of seconds of the days a calendar with leap years counts from 1970, plus
    the time of day. The checked arithmetic never fails. *)
Theorem civil_time_exact y m d h mi s :
  0 <= h -> 0 <= mi -> 0 <= s ->
  civil_to_unix y m d h mi s = if out_of_range y m d h mi s then None else Some (unix_seconds y m d h mi s).
Proof. apply civil_to_unix_exact. Qed.

Lemma civil_time_exact_witness :
  civil_to_unix 1994 11 6 8 49 37 = Some 784111777 /\ unix_seconds 1994 11 6 8 49 37 = 784111777 /\
  civil_to_unix 10000 1 1 0 0 0 = None.
Proof.
  split_and!; [rewrite (civil_time_exact 1994 11 6 8 49 37) by lia|..]; vm_compute; reflexivity.
Defined.
