(* ===== verification/RetryAfter.v ===== *)
(** * RetryAfter (retry_after.rs)

    The value of a [Retry-After] header: a number of seconds, or one of the
    three date formats of HTTP. The clock reading of [parse_retry_after] is the
    argument [now_unix_secs]. *)

From Stdlib Require Import String.
From S2P Require Import Prelude Text TimeUtil.

(** The separators of the formats. *)
Definition colon : Z := 58.
Definition dash : Z := 45.

Definition parse_hms (value : str) : option (Z * Z * Z) :=
  match split (Z.eqb colon) value with
  | h :: m :: s :: parts =>
      h ← parse_unsigned u32_max h;
      m ← parse_unsigned u32_max m;
      s ← parse_unsigned u32_max s;
      match parts with
      | [] => if (23 <? h) || (59 <? m) || (60 <? s) then None else Some (h, m, s)
      | _ => None
      end
  | _ => None
  end.

(** The day, month and year are read with the types of the source: [u32],
    a name, [i64]. *)
Definition parse_date (day month year time : str) : option Z :=
  day ← parse_unsigned u32_max day;
  month ← month_index month;
  year ← parse_i64 year;
  '(h, m, s) ← parse_hms time;
  civil_to_unix year month day h m s.

(** [1900 + yy] and [2000 + yy] are plain additions on [i64]; a release build
    wraps around. *)
Definition parse_rfc850_date (date time : str) : option Z :=
  match split (Z.eqb dash) date with
  | day :: month :: yy :: parts =>
      day ← parse_unsigned u32_max day;
      month ← month_index month;
      yy ← parse_i64 yy;
      match parts with
      | [] =>
          let year := if 70 <=? yy then wrap_i64 (1900 + yy) else wrap_i64 (2000 + yy) in
          '(h, m, s) ← parse_hms time;
          civil_to_unix year month day h m s
      | _ => None
      end
  | _ => None
  end.

Definition is_gmt (token : str) : bool := bool_decide (token = chars "GMT").

Definition parse_http_date (value : str) : option Z :=
  match split_whitespace value with
  | [_; day; month; year; time; zone] => if is_gmt zone then parse_date day month year time else None
  | [_; month; day; time; year] => parse_date day month year time
  | [_; date; time; zone] => if is_gmt zone then parse_rfc850_date date time else None
  | _ => None
  end.

Definition parse_retry_after_at (value : str) (now_unix_secs : Z) : option Duration :=
  let trimmed := trim value in
  match trimmed with
  | [] => None
  | _ =>
      if forallb is_ascii_digit trimmed then from_secs <$> parse_unsigned u64_max trimmed
      else
        target ← parse_http_date trimmed;
        let delta := i64_sat_sub target now_unix_secs in
        Some (from_secs (Z.max delta 0))
  end.

(** ** The date formats as a sender prints them *)

Inductive date_format := ImfFixdate | Asctime | Rfc850.

Definition month_name (m : Z) : str := nth (Z.to_nat (m - 1)) MONTHS [].
Definition two (n : Z) : str := decimal 2 n.
Definition hms (h mi s : Z) : str := two h ++ colon :: two mi ++ colon :: two s.
(** A day of the month padded with a space. *)
Definition padded (d : Z) : str := if d <? 10 then 32 :: decimal 1 d else two d.

Definition http_date (f : date_format) (dow : str) (y m d h mi s : Z) : str :=
  match f with
  | ImfFixdate =>
      dow ++ 32 :: two d ++ 32 :: month_name m ++ 32 :: decimal 4 y ++ 32 :: hms h mi s ++ 32 :: chars "GMT"
  | Asctime => dow ++ 32 :: month_name m ++ 32 :: padded d ++ 32 :: hms h mi s ++ 32 :: decimal 4 y
  | Rfc850 =>
      dow ++ 32 :: (two d ++ dash :: month_name m ++ dash :: two (y mod 100)) ++ 32 :: hms h mi s ++ 32 :: chars "GMT"
  end.

(** The years a format can name: RFC 850 has two digits of it. *)
Definition expressible (f : date_format) (y : Z) : Prop :=
  match f with Rfc850 => 1970 <= y <= 2069 | _ => 0 <= y <= 9999 end.

#[global] Arguments two : simpl never.
#[global] Arguments hms : simpl never.
#[global] Arguments month_name : simpl never.

(** ** Lemmas *)

Ltac digits := apply decimal_nonempty || apply decimal_digits || apply decimal_word.

Lemma parse_decimal_u32 width n : 0 <= n < 10 ^ Z.of_nat (S width) -> n <= 9999 -> parse_unsigned u32_max (decimal (S width) n) = Some n.
Proof. intros. apply parse_decimal; mlia. Qed.

Lemma digit_not c d : is_ascii_digit d = true -> is_ascii_digit c = false -> (c =? d) = false.
Proof. intros Hd Hc. apply Z.eqb_neq. intros ->. congruence. Qed.

Lemma digits_piece c width n :
  is_ascii_digit c = false -> Forall (fun d => (c =? d) = false) (decimal width n).
Proof.
  intros Hc. eapply Forall_impl; [apply decimal_digits|]. intros d Hd. by apply digit_not.
Qed.

Lemma parse_hms_print h mi s :
  0 <= h <= 23 -> 0 <= mi <= 59 -> 0 <= s <= 60 -> parse_hms (hms h mi s) = Some (h, mi, s).
Proof.
  intros Hh Hmi Hs. unfold parse_hms, hms, two.
  rewrite !split_app, split_piece by (done || by apply digits_piece).
  rewrite !parse_decimal_u32 by (simpl; lia). simpl.
  by rewrite !(proj2 (Z.ltb_ge _ _)) by lia.
Qed.

Lemma hms_word h mi s : word (hms h mi s).
Proof.
  unfold hms, two. split; [intros E; apply app_eq_nil in E as [E _]; revert E; digits|].
  rewrite !Forall_app, !Forall_cons, !Forall_app, !Forall_cons.
  split_and!; try done; apply decimal_word.
Qed.

Lemma gmt_word : word (chars "GMT").
Proof. split; [done|]. vm_compute chars. repeat constructor; done. Qed.

Lemma rfc850_word d name yy : word name -> word (two d ++ dash :: name ++ dash :: two yy).
Proof.
  intros [_ Hname]. split; [intros E; apply app_eq_nil in E as [E _]; revert E; digits|].
  rewrite !Forall_app, !Forall_cons, !Forall_app, !Forall_cons.
  split_and!; try done; apply decimal_word.
Qed.

Lemma month_name_spec m : 1 <= m <= 12 ->
  month_index (month_name m) = Some m /\ word (month_name m) /\ Forall (fun c => (dash =? c) = false) (month_name m).
Proof.
  intros Hm. assert (H : m ∈ seqZ 1 12) by (rewrite elem_of_seqZ; lia). clear Hm. revert m H.
  apply Forall_forall. vm_compute seqZ. repeat constructor; done.
Qed.

Lemma in_range_fields y m d h mi s : out_of_range y m d h mi s = false ->
  0 <= y <= 9999 /\ 1 <= m <= 12 /\ 1 <= d <= 31 /\ h <= 23 /\ mi <= 59 /\ s <= 60.
Proof.
  unfold out_of_range. rewrite negb_false_iff, !andb_true_iff, !within_spec, !Z.leb_le. lia.
Qed.

Section fields.
Context (y m d h mi s : Z) (Hrange : out_of_range y m d h mi s = false)
  (Hh : 0 <= h) (Hmi : 0 <= mi) (Hs : 0 <= s).

Lemma civil_in_range : civil_to_unix y m d h mi s = Some (unix_seconds y m d h mi s).
Proof using All. by rewrite civil_to_unix_exact, Hrange. Qed.

Lemma parse_date_print width :
  parse_unsigned u32_max (decimal (S width) d) = Some d ->
  parse_date (decimal (S width) d) (month_name m) (decimal 4 y) (hms h mi s) =
    Some (unix_seconds y m d h mi s).
Proof using All.
  intros Hd. destruct (in_range_fields _ _ _ _ _ _ Hrange) as (? & ? & ? & ? & ? & ?).
  unfold parse_date. rewrite Hd. simpl.
  rewrite (proj1 (month_name_spec m ltac:(lia))). simpl.
  rewrite parse_i64_decimal by mlia. simpl.
  rewrite parse_hms_print by lia. simpl. apply civil_in_range.
Qed.

Lemma parse_rfc850_print : 1970 <= y <= 2069 ->
  parse_rfc850_date (two d ++ dash :: month_name m ++ dash :: two (y mod 100)) (hms h mi s) =
    Some (unix_seconds y m d h mi s).
Proof using All.
  intros Hy. destruct (in_range_fields _ _ _ _ _ _ Hrange) as (? & ? & ? & ? & ? & ?).
  destruct (month_name_spec m ltac:(lia)) as (Hm & _ & Hd).
  unfold parse_rfc850_date, two.
  rewrite !split_app, split_piece by (done || by apply digits_piece).
  pose proof (Z.mod_pos_bound y 100 ltac:(lia)).
  rewrite parse_decimal_u32 by (simpl; lia). simpl. rewrite Hm. simpl.
  rewrite parse_i64_decimal by (simpl; mlia). simpl.
  rewrite !wrap_i64_small by mlia. rewrite parse_hms_print by lia. simpl.
  replace (if 70 <=? y mod 100 then 1900 + y mod 100 else 2000 + y mod 100) with y; [apply civil_in_range|].
  zcase; Z.to_euclidean_division_equations; lia.
Qed.

Lemma http_date_tokens f dow : word dow -> expressible f y ->
  parse_http_date (http_date f dow y m d h mi s) = Some (unix_seconds y m d h mi s).
Proof using All.
  intros Hdow Hy. destruct (in_range_fields _ _ _ _ _ _ Hrange) as (? & ? & ? & ? & ? & ?).
  destruct (month_name_spec m ltac:(lia)) as (_ & Hm & _).
  pose proof (hms_word h mi s) as Hhms. pose proof gmt_word as Hgmt.
  pose proof (rfc850_word d (month_name m) (y mod 100) Hm) as Hdate.
  unfold parse_http_date. destruct f; unfold http_date.
  - rewrite !split_whitespace_cons, split_whitespace_word by (done || digits).
    apply parse_date_print. apply parse_decimal_u32; simpl; lia.
  - unfold padded. destruct (Z.ltb_spec d 10).
    + rewrite <- app_comm_cons.
      rewrite !split_whitespace_cons, split_whitespace_space, split_whitespace_cons, split_whitespace_cons,
        split_whitespace_word by (done || digits).
      apply parse_date_print. apply parse_decimal_u32; simpl; lia.
    + rewrite !split_whitespace_cons, split_whitespace_word by (done || digits).
      apply parse_date_print. apply parse_decimal_u32; simpl; lia.
  - rewrite !split_whitespace_cons, split_whitespace_word by done. by apply parse_rfc850_print.
Qed.
End fields.

(** A date does not look like a number of seconds, and has no white space at
    its ends. *)
Lemma word_trim_start s t : word s -> trim_start (s ++ t) = s ++ t.
Proof. intros Hs. by apply trim_start_id. Qed.

Lemma http_date_ends f dow y m d h mi s : word dow -> exists first middle last,
  http_date f dow y m d h mi s = first ++ 32 :: middle ++ 32 :: last /\ word first /\ word last.
Proof.
  intros Hdow. destruct f; unfold http_date.
  - eexists dow, (two d ++ 32 :: month_name m ++ 32 :: decimal 4 y ++ 32 :: hms h mi s), _.
    split_and!; [|done|apply gmt_word]. by rewrite <- ?app_assoc, <- ?app_comm_cons, <- ?app_assoc, <- ?app_comm_cons, <- ?app_assoc.
  - eexists dow, (month_name m ++ 32 :: padded d ++ 32 :: hms h mi s), _.
    split_and!; [|done|apply (decimal_word 3)]. by rewrite <- ?app_assoc, <- ?app_comm_cons, <- ?app_assoc, <- ?app_comm_cons.
  - eexists dow, ((two d ++ dash :: month_name m ++ dash :: two (y mod 100)) ++ 32 :: hms h mi s), _.
    split_and!; [|done|apply gmt_word]. by rewrite <- (app_assoc _ (32 :: _)).
Qed.

Lemma trim_sentence a first middle last b :
  Forall (fun c => is_whitespace c = true) a -> Forall (fun c => is_whitespace c = true) b ->
  word first -> word last ->
  trim (a ++ (first ++ 32 :: middle ++ 32 :: last) ++ b) = first ++ 32 :: middle ++ 32 :: last.
Proof.
  intros Ha Hb Hf [Hln Hl]. apply trim_around; try done.
  - by apply word_trim_start.
  - rewrite reverse_app, reverse_cons, reverse_app, reverse_cons, <- !app_assoc.
    apply word_trim_start. split; [|by apply Forall_reverse].
    intros E. apply Hln. by rewrite <- (reverse_involutive last), E.
  - destruct first; [by destruct Hf|done].
Qed.

(** ** Theorems *)

(** C37: Round trip: a date printed in any of the three formats of HTTP, with any
    day-of-week word and any white space around it, is the time from now to
    that instant, and zero when the instant has passed. *)
Theorem http_date_roundtrip f dow y m d h mi s now a b :
  word dow -> expressible f y -> out_of_range y m d h mi s = false -> 0 <= h -> 0 <= mi -> 0 <= s ->
  Forall (fun c => is_whitespace c = true) a -> Forall (fun c => is_whitespace c = true) b ->
  parse_retry_after_at (a ++ http_date f dow y m d h mi s ++ b) now =
    Some (from_secs (Z.max 0 (Z.min i64_max (unix_seconds y m d h mi s - now)))).
Proof.
  intros Hdow Hy Hr Hh Hmi Hs Ha Hb. pose proof (http_date_tokens y m d h mi s Hr Hh Hmi Hs f dow Hdow Hy) as Hp.
  destruct (http_date_ends f dow y m d h mi s Hdow) as (first & middle & last & E & Hf & Hl). rewrite E in *.
  unfold parse_retry_after_at. rewrite trim_sentence by done.
  destruct (first ++ 32 :: middle ++ 32 :: last) eqn:Es; [by destruct first|]. rewrite <- Es in *.
  rewrite forallb_app. change (forallb is_ascii_digit (32 :: middle ++ 32 :: last)) with false.
  rewrite andb_false_r, Hp. simpl. do 2 f_equal. mlia.
Qed.

Lemma http_date_roundtrip_witness :
  let date := http_date Rfc850 (chars "Sunday,") 1994 11 6 8 49 37 in
  date = chars "Sunday, 06-Nov-94 08:49:37 GMT" /\
  parse_retry_after_at (chars "  " ++ date ++ chars " ") 784111717 = Some (from_secs 60).
Proof.
  intros date. split; [vm_compute; reflexivity|]. etransitivity.
  - apply (http_date_roundtrip Rfc850); [apply word_of_bool | simpl; lia | | lia | lia | lia |
      apply spaces_of_bool | apply spaces_of_bool]; vm_compute; reflexivity.
  - vm_compute. reflexivity.
Defined.

(** C40: A value that is a single word is a number of seconds, exactly, or an
    error: it is accepted exactly when it is all digits and fits 64 bits. *)
Theorem retry_after_seconds w now a b :
  word w -> Forall (fun c => is_whitespace c = true) a -> Forall (fun c => is_whitespace c = true) b ->
  parse_retry_after_at (a ++ w ++ b) now =
    if forallb is_ascii_digit w && (digits_value w <=? u64_max) then Some (from_secs (digits_value w)) else None.
Proof.
  intros Hw Ha Hb. unfold parse_retry_after_at. rewrite trim_word by done.
  assert (Hne : w <> []) by apply Hw.
  destruct w as [|c u] eqn:E; [done|]. rewrite <- E in *. clear c u E.
  destruct (forallb is_ascii_digit w) eqn:Ed; simpl.
  - apply forallb_forall_digits in Ed. rewrite parse_unsigned_digits by done. by destruct (_ <=? _).
  - unfold parse_http_date. rewrite split_whitespace_word by done. done.
Qed.

Lemma retry_after_seconds_witness :
  parse_retry_after_at (chars " " ++ chars "120" ++ []) 0 = Some (from_secs 120) /\
  parse_retry_after_at ([] ++ chars "18446744073709551616" ++ []) 0 = None /\
  parse_retry_after_at ([] ++ chars "+5" ++ []) 0 = None.
Proof.
  split_and!; (etransitivity; [apply retry_after_seconds; [apply word_of_bool|apply spaces_of_bool..]|]);
    vm_compute; reflexivity.
Defined.
