(* ===== verification/Provider.v ===== *)
(** * Provider (provider.rs)

    The rate-limit headers of a response: which headers a profile reads, the
    four formats of a reset time, and the windows they make. *)

From Stdlib Require Import String.
From S2P Require Import Prelude Text TimeUtil RetryAfter.

Record Window := mkWindow {
  limit : option Z;
  remaining : option Z;
  reset : option Duration }.

Record RateLimitInfo := mkRateLimitInfo {
  requests : option Window;
  tokens : option Window;
  retry_after : option Duration }.

Inductive ResetFormat := DeltaSeconds | DurationString | UnixSeconds | Rfc3339.

Record Triple := mkTriple {
  limit_header : str;
  remaining_header : str;
  reset_header : str }.

Record HeaderProfile := mkProfile {
  requests_headers : option Triple;
  tokens_headers : option Triple;
  retry_after_header : option str;
  reset_format : ResetFormat }.

Definition triple (limit remaining reset : string) : option Triple :=
  Some (mkTriple (chars limit) (chars remaining) (chars reset)).

Definition OPENAI : HeaderProfile := {|
  requests_headers :=
    triple "x-ratelimit-limit-requests" "x-ratelimit-remaining-requests" "x-ratelimit-reset-requests";
  tokens_headers :=
    triple "x-ratelimit-limit-tokens" "x-ratelimit-remaining-tokens" "x-ratelimit-reset-tokens";
  retry_after_header := Some (chars "retry-after");
  reset_format := DurationString |}.

Definition ANTHROPIC : HeaderProfile := {|
  requests_headers :=
    triple "anthropic-ratelimit-requests-limit" "anthropic-ratelimit-requests-remaining"
      "anthropic-ratelimit-requests-reset";
  tokens_headers :=
    triple "anthropic-ratelimit-tokens-limit" "anthropic-ratelimit-tokens-remaining"
      "anthropic-ratelimit-tokens-reset";
  retry_after_header := Some (chars "retry-after");
  reset_format := Rfc3339 |}.

Definition GITHUB : HeaderProfile := {|
  requests_headers := triple "x-ratelimit-limit" "x-ratelimit-remaining" "x-ratelimit-reset";
  tokens_headers := None;
  retry_after_header := Some (chars "retry-after");
  reset_format := UnixSeconds |}.

Definition RFC : HeaderProfile := {|
  requests_headers := triple "ratelimit-limit" "ratelimit-remaining" "ratelimit-reset";
  tokens_headers := None;
  retry_after_header := Some (chars "retry-after");
  reset_format := DeltaSeconds |}.

Definition STRIPE : HeaderProfile := {|
  requests_headers := None;
  tokens_headers := None;
  retry_after_header := Some (chars "retry-after");
  reset_format := DeltaSeconds |}.

Definition AWS : HeaderProfile := {|
  requests_headers := None;
  tokens_headers := None;
  retry_after_header := Some (chars "retry-after");
  reset_format := DeltaSeconds |}.

(** ** Durations such as [1m30.5s] *)

Definition dot : Z := 46.

(** The loop over the fractional digits; [place] is what the previous digit
    was worth. *)
Fixpoint fraction_loop (digits : str) (place nanos : Z) : Z :=
  match digits with
  | [] => nanos
  | digit :: digits =>
      let place := place / 10 in
      if place =? 0 then nanos
      else fraction_loop digits place (sat_add u128_max nanos ((digit - 48) * place))
  end.

Definition scaled (number : str) (unit_nanos : Z) : option Z :=
  let '(whole, fraction) :=
    match split_once (Z.eqb dot) number with Some parts => parts | None => (number, []) end in
  if negb (nonempty whole) && negb (nonempty fraction) then None
  else if negb (forallb is_ascii_digit whole) || negb (forallb is_ascii_digit fraction) then None
  else
    let whole_value :=
      if negb (nonempty whole) then 0
      else match parse_unsigned u128_max whole with Some v => v | None => u128_max end in
    Some (fraction_loop fraction unit_nanos (sat_mul u128_max whole_value unit_nanos)).

Definition unit_nanos (unit : str) : option Z :=
  if bool_decide (unit = chars "ns") then Some 1
  else if bool_decide (unit = chars "us") || bool_decide (unit = 0xB5 :: chars "s")
            || bool_decide (unit = 0x3BC :: chars "s") then Some 1000
  else if bool_decide (unit = chars "ms") then Some 1000000
  else if bool_decide (unit = chars "s") then Some 1000000000
  else if bool_decide (unit = chars "m") then Some 60000000000
  else if bool_decide (unit = chars "h") then Some 3600000000000
  else None.

Definition in_number (c : Z) : bool := is_ascii_digit c || (c =? dot).

(** The [while !rest.is_empty()] loop; every round takes a unit, so as many
    rounds as there are characters are enough. *)
Fixpoint duration_loop (fuel : nat) (rest : str) (total_nanos : Z) : option Z :=
  match fuel with
  | O => match rest with [] => Some total_nanos | _ => None end
  | S fuel =>
      match rest with
      | [] => Some total_nanos
      | _ =>
          let '(number, tail) := split_at_first (fun c => negb (in_number c)) rest in
          let '(unit, tail) := split_at_first in_number tail in
          per_unit ← unit_nanos unit;
          nanos ← scaled number per_unit;
          duration_loop fuel tail (sat_add u128_max total_nanos nanos)
      end
  end.

Definition parse_duration_string (value : str) : option Duration :=
  match value with
  | [] => None
  | _ =>
      match parse_unsigned u64_max value with
      | Some secs => Some (from_secs secs)
      | None => (fun total => from_nanos (to_u64_or_max total)) <$> duration_loop (length value) value 0
      end
  end.

(** ** RFC 3339 timestamps *)

Definition one_of (a b : Z) (c : Z) : bool := (c =? a) || (c =? b).

Definition split_offset (rest : str) : option (str * Z) :=
  match strip_suffix (one_of 90 122) rest with
  | Some time => Some (time, 0)
  | None =>
      '(time, zone) ← split_at_last (one_of 43 dash) rest;
      let sign := match zone with c :: _ => if c =? dash then -1 else 1 | [] => 1 end in
      let digits := List.filter (fun c => negb (c =? colon)) (tail zone) in
      if negb (length digits =? 4)%nat || negb (forallb is_ascii_digit digits) then None
      else
        hours ← parse_i64 (take 2 digits);
        minutes ← parse_i64 (drop 2 digits);
        if (23 <? hours) || (59 <? minutes) then None
        else Some (time, sign * (hours * 3600 + minutes * 60))
  end.

Definition parse_rfc3339 (value : str) : option Z :=
  '(date, rest) ← split_once (one_of 84 116) value;
  '(time, offset_secs) ← split_offset rest;
  time ← head (split (Z.eqb dot) time);
  match split (Z.eqb dash) date with
  | [year; month; day] =>
      year ← parse_i64 year;
      month ← parse_unsigned u32_max month;
      day ← parse_unsigned u32_max day;
      match split (Z.eqb colon) time with
      | [hour; minute; second] =>
          hour ← parse_unsigned u32_max hour;
          minute ← parse_unsigned u32_max minute;
          second ← parse_unsigned u32_max second;
          at_utc ← civil_to_unix year month day hour minute second;
          checked_i64 (at_utc - offset_secs)
      | _ => None
      end
  | _ => None
  end.

(** ** Reading the headers *)

Fixpoint header (headers : list (str * str)) (name : str) : option str :=
  match headers with
  | [] => None
  | (k, v) :: headers => if eq_ignore_ascii_case k name then Some v else header headers name
  end.

Definition parse_u64 (value : str) : option Z := parse_unsigned u64_max (trim value).

(** From [now] to [at], zero when it has passed. *)
Definition seconds_until (at_secs now : Z) : Duration := from_secs (Z.max 0 (i64_sat_sub at_secs now)).

Definition parse_reset (self : HeaderProfile) (value : str) (now : Z) : option Duration :=
  match reset_format self with
  | DeltaSeconds => from_secs <$> parse_unsigned u64_max (trim value)
  | DurationString => parse_duration_string (trim value)
  | UnixSeconds => (fun at_secs => seconds_until at_secs now) <$> parse_i64 (trim value)
  | Rfc3339 => (fun at_secs => seconds_until at_secs now) <$> parse_rfc3339 (trim value)
  end.

Definition window (self : HeaderProfile) (headers : list (str * str)) (t : Triple) (now : Z)
    : option Window :=
  let limit := v ← header headers (limit_header t); parse_u64 v in
  let remaining := v ← header headers (remaining_header t); parse_u64 v in
  let reset := v ← header headers (reset_header t); parse_reset self v now in
  match limit, remaining, reset with
  | None, None, None => None
  | _, _, _ => Some (mkWindow limit remaining reset)
  end.

Definition parse_at (self : HeaderProfile) (headers : list (str * str)) (now_unix_secs : Z)
    : RateLimitInfo := {|
  requests := t ← requests_headers self; window self headers t now_unix_secs;
  tokens := t ← tokens_headers self; window self headers t now_unix_secs;
  retry_after :=
    name ← retry_after_header self;
    value ← header headers name;
    parse_retry_after_at value now_unix_secs |}.

(** ** A duration as a sender prints it

    A component is a decimal number and a unit; the digits after the point
    are at most as many as the unit has decimal places of a nanosecond. *)

Inductive time_unit := Nanos | Micros | MicroSign | GreekMu | Millis | Seconds | Minutes | Hours.

Definition unit_text (u : time_unit) : str :=
  match u with
  | Nanos => chars "ns" | Micros => chars "us" | MicroSign => 0xB5 :: chars "s" | GreekMu => 0x3BC :: chars "s"
  | Millis => chars "ms" | Seconds => chars "s" | Minutes => chars "m" | Hours => chars "h"
  end.
Definition unit_size (u : time_unit) : Z :=
  match u with
  | Nanos => 1 | Micros | MicroSign | GreekMu => 1000 | Millis => 1000000 | Seconds => 1000000000
  | Minutes => 60000000000 | Hours => 3600000000000
  end.
Definition decimal_places (u : time_unit) : nat :=
  match u with
  | Nanos => 0 | Micros | MicroSign | GreekMu => 3 | Millis => 6 | Seconds => 9 | Minutes => 10 | Hours => 11
  end.

Record component := mkComponent { whole : str; fraction : option str; in_unit : time_unit }.

Definition all_digits (s : str) : Prop := Forall (fun c => is_ascii_digit c = true) s.
Definition fraction_digits (c : component) : str := match fraction c with Some f => f | None => [] end.
Definition well_formed (c : component) : Prop :=
  all_digits (whole c) /\ all_digits (fraction_digits c) /\ whole c ++ fraction_digits c <> [] /\
  (length (fraction_digits c) <= decimal_places (in_unit c))%nat.

Definition number_text (c : component) : str :=
  whole c ++ match fraction c with Some f => dot :: f | None => [] end.
Definition component_text (c : component) : str := number_text c ++ unit_text (in_unit c).

(** The exact value, a whole number of nanoseconds. *)
Definition component_nanos (c : component) : Z :=
  (digits_value (whole c) * 10 ^ Z.of_nat (length (fraction_digits c)) + digits_value (fraction_digits c))
  * unit_size (in_unit c) / 10 ^ Z.of_nat (length (fraction_digits c)).

(** ** Lemmas on durations *)

Lemma unit_nanos_text u : unit_nanos (unit_text u) = Some (unit_size u).
Proof. by destruct u. Qed.

Lemma unit_divides u n : (n <= decimal_places u)%nat ->
  exists q, 0 < q /\ unit_size u = 10 ^ Z.of_nat n * q.
Proof.
  intros Hn. exists (unit_size u / 10 ^ Z.of_nat n).
  assert (H : forallb (fun n => (0 <? unit_size u / 10 ^ Z.of_nat n) &&
    (unit_size u =? 10 ^ Z.of_nat n * (unit_size u / 10 ^ Z.of_nat n))) (seq 0 (S (decimal_places u))) = true)
    by (destruct u; vm_compute; reflexivity).
  rewrite forallb_forall in H. rewrite <- Z.ltb_lt, <- Z.eqb_eq. apply andb_prop, H, in_seq. lia.
Qed.

Lemma fraction_loop_exact digits q nanos :
  all_digits digits -> 0 < q -> 0 <= nanos <= u128_max ->
  fraction_loop digits (10 ^ Z.of_nat (length digits) * q) nanos =
    Z.min u128_max (nanos + digits_value digits * q).
Proof.
  intros Hd Hq. revert nanos. induction Hd as [|c digits Hc Hd IH]; intros nanos Hn.
  - simpl. change (digits_value []) with 0. lia.
  - cbn [fraction_loop length]. apply digit_range in Hc.
    pose proof (Z.pow_pos_nonneg 10 (Z.of_nat (length digits))) as Hp.
    pose proof (digits_value_nonneg _ Hd) as Hv.
    rewrite Nat2Z.inj_succ, Z.pow_succ_r, <- Z.mul_assoc, Z.mul_comm, Z.div_mul by lia.
    rewrite (proj2 (Z.eqb_neq _ _)) by nia.
    rewrite IH by (unfold sat_add; nia). rewrite digits_value_cons.
    set (p := 10 ^ Z.of_nat (length digits)) in *. clearbody p. unfold sat_add. nia.
Qed.

Lemma parse_u128_digits s : s <> [] -> all_digits s ->
  match parse_unsigned u128_max s with Some v => v | None => u128_max end = Z.min u128_max (digits_value s).
Proof. intros Hne Hs. rewrite parse_unsigned_digits by done. zcase; lia. Qed.

Lemma scaled_number c : well_formed c ->
  scaled (number_text c) (unit_size (in_unit c)) = Some (Z.min u128_max (component_nanos c)).
Proof.
  intros (Hw & Hf & Hne & Hlen). unfold scaled, number_text.
  assert (Hs : match split_once (Z.eqb dot) (whole c ++ match fraction c with Some f => dot :: f | None => [] end) with
               | Some parts => parts | None => (whole c ++ match fraction c with Some f => dot :: f | None => [] end, []) end
             = (whole c, fraction_digits c)).
  { assert (Hdot : Forall (fun d => (dot =? d) = false) (whole c)).
    { eapply Forall_impl; [exact Hw|]. intros d Hd. by apply digit_not. }
    unfold fraction_digits. destruct (fraction c) as [f|].
    - by rewrite split_once_app.
    - rewrite app_nil_r, split_once_none by done. done. }
  rewrite Hs. clear Hs. rewrite !forallb_digits by done. simpl.
  destruct (unit_divides (in_unit c) (length (fraction_digits c)) Hlen) as (q & Hq & Hu).
  pose proof (digits_value_nonneg _ Hw) as Hvw. pose proof (digits_value_nonneg _ Hf) as Hvf.
  pose proof (Z.pow_pos_nonneg 10 (Z.of_nat (length (fraction_digits c)))) as Hp.
  replace (negb (nonempty (whole c)) && negb (nonempty (fraction_digits c))) with false.
  2:{ destruct (whole c), (fraction_digits c); done. }
  f_equal. unfold component_nanos. rewrite Hu.
  assert (Hwhole : (if negb (nonempty (whole c)) then 0
     else match parse_unsigned u128_max (whole c) with Some v => v | None => u128_max end) =
     Z.min u128_max (digits_value (whole c))).
  { destruct (whole c) eqn:E; [done|]. simpl. by apply parse_u128_digits. }
  rewrite Hwhole, fraction_loop_exact by (done || unfold sat_mul, u128_max in *; nia).
  set (p := 10 ^ Z.of_nat (length (fraction_digits c))) in *.
  replace ((digits_value (whole c) * p + digits_value (fraction_digits c)) * (p * q))
    with ((digits_value (whole c) * p * q + digits_value (fraction_digits c) * q) * p) by ring.
  rewrite Z.div_mul by lia. assert (1 <= p * q) by nia. unfold sat_mul.
  set (v := digits_value (whole c)) in *. set (f := digits_value (fraction_digits c)) in *.
  assert (v <= v * (p * q)) by nia. assert (0 <= f * q) by nia.
  rewrite <- Z.mul_assoc. unfold u128_max in *. destruct (Z.min_spec 340282366920938463463374607431768211455 v) as [[Hl E]|[Hl E]];
    rewrite E; nia.
Qed.

(** The text of the components that follow starts with a digit or a point. *)
Lemma number_text_chars c : well_formed c -> Forall (fun d => negb (in_number d) = false) (number_text c).
Proof.
  intros (Hw & Hf & _). unfold number_text, fraction_digits, in_number in *. apply Forall_app. split.
  - eapply Forall_impl; [exact Hw|]. intros d Hd. simpl. by rewrite Hd.
  - destruct (fraction c) as [f|]; constructor; [done|]. eapply Forall_impl; [exact Hf|]. intros d Hd. simpl. by rewrite Hd.
Qed.

Lemma number_text_nonempty c : well_formed c -> number_text c <> [].
Proof.
  intros (_ & _ & Hne & _) E. apply app_eq_nil in E as [E1 E2]. apply Hne. unfold fraction_digits. rewrite E1.
  by destruct (fraction c).
Qed.

Lemma unit_text_chars u : Forall (fun d => in_number d = false) (unit_text u).
Proof. destruct u; vm_compute; repeat constructor. Qed.

Lemma components_start cs : Forall well_formed cs ->
  match concat (map component_text cs) with [] => True | c :: _ => in_number c = true end.
Proof.
  destruct 1 as [|c cs Hc _]; simpl; [done|]. unfold component_text.
  pose proof (number_text_chars c Hc) as H. destruct (number_text c) eqn:E; [by destruct (number_text_nonempty c Hc)|].
  simpl. apply Forall_cons in H as [H _]. by apply negb_false_iff in H.
Qed.

Lemma component_nanos_nonneg c : well_formed c -> 0 <= component_nanos c.
Proof.
  intros (Hw & Hf & _). unfold component_nanos. pose proof (digits_value_nonneg _ Hw).
  pose proof (digits_value_nonneg _ Hf). apply Z.div_pos; [|apply Z.pow_pos_nonneg; lia].
  assert (0 < unit_size (in_unit c)) by (by destruct (in_unit c)).
  pose proof (Z.pow_pos_nonneg 10 (Z.of_nat (length (fraction_digits c)))). nia.
Qed.

Lemma duration_loop_exact cs fuel total :
  Forall well_formed cs -> (length (concat (map component_text cs)) <= fuel)%nat -> 0 <= total <= u128_max ->
  duration_loop fuel (concat (map component_text cs)) total =
    Some (Z.min u128_max (total + sum_with component_nanos cs)).
Proof.
  intros Hcs. revert fuel total. induction Hcs as [|c cs Hc Hcs IH]; intros fuel total Hfuel Ht.
  - simpl. destruct fuel; simpl; f_equal; change (sum_with component_nanos []) with 0; lia.
  - simpl concat in *. unfold component_text at 1. unfold component_text at 1 in Hfuel. rewrite <- app_assoc in *.
    rewrite !length_app in Hfuel. pose proof (number_text_nonempty c Hc) as Hne.
    destruct fuel as [|fuel]; [destruct (number_text c); simpl in Hfuel; [done|lia]|]. simpl duration_loop.
    destruct (number_text c ++ unit_text (in_unit c) ++ concat (map component_text cs)) eqn:E;
      [by apply app_eq_nil in E as [E _]|]. rewrite <- E. clear E.
    rewrite split_at_first_app; [|by apply number_text_chars|].
    2:{ by destruct (in_unit c). }
    rewrite split_at_first_app; [|apply unit_text_chars|by apply components_start].
    rewrite unit_nanos_text. simpl. rewrite scaled_number by done. simpl.
    assert (Hlen : (0 < length (number_text c))%nat) by (destruct (number_text c); simpl; [done|lia]).
    pose proof (component_nanos_nonneg c Hc).
    rewrite IH; [|lia|unfold sat_add; lia]. f_equal. rewrite sum_with_cons. unfold sat_add.
    assert (0 <= sum_with component_nanos cs); [|lia].
    apply sum_with_nonneg. eapply Forall_impl; [exact Hcs|]. apply component_nanos_nonneg.
Qed.

Lemma components_not_bare c t : well_formed c -> parse_unsigned u64_max (component_text c ++ t) = None.
Proof.
  intros Hc. unfold component_text. rewrite <- app_assoc. unfold parse_unsigned, parse_digits.
  assert (Hu : forall s, forallb is_ascii_digit (s ++ unit_text (in_unit c) ++ t) = false).
  { intros s. rewrite !forallb_app. destruct (in_unit c); simpl; by rewrite ?andb_false_r. }
  pose proof (number_text_chars c Hc) as Hn. pose proof (number_text_nonempty c Hc) as Hne.
  destruct (number_text c) as [|d n] eqn:E; [done|]. apply Forall_cons in Hn as [Hd _]. simpl app.
  destruct (Z.eq_dec d 43) as [->|Hd']; [by vm_compute in Hd|]. apply Z.eqb_neq in Hd'. rewrite Hd'.
  rewrite (app_comm_cons n), Hu, andb_false_r. done.
Qed.

(** ** RFC 3339 timestamps as a sender prints them *)

Inductive zone := Zulu (z : Z) | Offset (west with_colon : bool) (hours minutes : Z).

Definition zone_text (z : zone) : str :=
  match z with
  | Zulu z => [z]
  | Offset west with_colon hours minutes =>
      (if west then dash else 43) :: two hours ++ (if with_colon then [colon] else []) ++ two minutes
  end.
Definition zone_secs (z : zone) : Z :=
  match z with
  | Zulu _ => 0
  | Offset west _ hours minutes => (if west then -1 else 1) * (hours * 3600 + minutes * 60)
  end.
Definition zone_ok (z : zone) : Prop :=
  match z with
  | Zulu z => one_of 90 122 z = true
  | Offset _ _ hours minutes => 0 <= hours <= 23 /\ 0 <= minutes <= 59
  end.

Definition clock_text (h mi s : Z) (fraction : option str) : str :=
  hms h mi s ++ match fraction with Some f => dot :: f | None => [] end.
Definition timestamp (sep : Z) (y m d h mi s : Z) (fraction : option str) (z : zone) : str :=
  (decimal 4 y ++ dash :: two m ++ dash :: two d) ++ sep :: clock_text h mi s fraction ++ zone_text z.

(** ** Lemmas on timestamps *)

Lemma two_chars n : exists a b, two n = [a; b] /\ is_ascii_digit a = true /\ is_ascii_digit b = true.
Proof.
  pose proof (decimal_digits 2 n) as H. unfold two. unfold decimal in *. simpl in *.
  apply Forall_cons in H as [Ha H]. apply Forall_cons in H as [Hb _]. eauto.
Qed.

Lemma digits_avoid p s : all_digits s -> (forall c, is_ascii_digit c = true -> p c = false) ->
  Forall (fun c => p c = false) s.
Proof. intros Hs Hp. eapply Forall_impl; [exact Hs|]. intros c. apply Hp. Qed.

Lemma digit_not_sign a b c : is_ascii_digit a = false -> is_ascii_digit b = false ->
  is_ascii_digit c = true -> one_of a b c = false.
Proof.
  intros Ha Hb Hc. unfold one_of. rewrite !(Z.eqb_sym c). by rewrite !digit_not.
Qed.

Lemma digits_kept s : all_digits s -> List.filter (fun c => negb (c =? colon)) s = s.
Proof.
  induction 1 as [|c s Hc _ IH]; simpl; [done|]. rewrite (Z.eqb_sym c), digit_not by done. simpl. by rewrite IH.
Qed.

Lemma split_offset_zone time z : zone_ok z -> split_offset (time ++ zone_text z) = Some (time, zone_secs z).
Proof.
  unfold split_offset. destruct z as [c|west with_colon hours minutes]; cbn [zone_text zone_secs zone_ok].
  - intros Hc. by rewrite strip_suffix_app, Hc.
  - intros [Hh Hm]. pose proof (parse_i64_decimal 1 hours) as Ph. pose proof (parse_i64_decimal 1 minutes) as Pm.
    pose proof (decimal_digits 2 hours) as Dh. pose proof (decimal_digits 2 minutes) as Dm.
    fold (two hours) in *. fold (two minutes) in *.
    destruct (two_chars hours) as (a & b & Eh & Ha & Hb). destruct (two_chars minutes) as (c & d & Em & Hc & Hd).
    rewrite Eh, Em in *.
    replace (time ++ (if west then dash else 43) :: [a; b] ++ (if with_colon then [colon] else []) ++ [c; d])
      with ((time ++ (if west then dash else 43) :: [a; b] ++ (if with_colon then [colon] else []) ++ [c]) ++ [d])
      by (by destruct with_colon; rewrite <- app_assoc).
    rewrite strip_suffix_app, (digit_not_sign 90 122) by done. rewrite <- app_assoc.
    replace ((((if west then dash else 43) :: [a; b] ++ (if with_colon then [colon] else []) ++ [c]) ++ [d]))
      with ((if west then dash else 43) :: [a; b] ++ (if with_colon then [colon] else []) ++ [c; d])
      by (by destruct with_colon).
    rewrite split_at_last_app; [|by destruct with_colon; repeat constructor; done || by apply digit_not_sign|by destruct west].
    assert (Hkept : List.filter (fun c0 => negb (c0 =? colon)) ([a; b] ++ (if with_colon then [colon] else []) ++ [c; d])
      = [a; b; c; d]).
    { rewrite <- (digits_kept [a; b; c; d]) by (by repeat constructor). by destruct with_colon. }
    unfold mbind, option_bind. cbn [tail]. rewrite Hkept. simpl. rewrite Ha, Hb, Hc, Hd. simpl.
    rewrite Ph, Pm by mlia. rewrite !(proj2 (Z.ltb_ge _ _)) by lia. by destruct west.
Qed.

Lemma parse_rfc3339_print sep y m d h mi s fraction z :
  one_of 84 116 sep = true -> zone_ok z -> out_of_range y m d h mi s = false -> 0 <= h -> 0 <= mi -> 0 <= s ->
  parse_rfc3339 (timestamp sep y m d h mi s fraction z) = Some (unix_seconds y m d h mi s - zone_secs z).
Proof.
  intros Hsep Hz Hr Hh Hmi Hs. destruct (in_range_fields _ _ _ _ _ _ Hr) as (? & ? & ? & ? & ? & ?).
  unfold parse_rfc3339, timestamp. rewrite split_once_app; [|..|done].
  2:{ unfold two. rewrite !Forall_app, !Forall_cons, !Forall_app, !Forall_cons.
      split_and!; try done; (apply digits_avoid; [apply decimal_digits|intros c; by apply digit_not_sign]). }
  cbn [mbind option_bind]. rewrite split_offset_zone by done. cbn [mbind option_bind].
  assert (Hhms : head (split (Z.eqb dot) (clock_text h mi s fraction)) = Some (hms h mi s)).
  { assert (Forall (fun c => (dot =? c) = false) (hms h mi s)).
    { unfold hms, two. rewrite !Forall_app, !Forall_cons, !Forall_app, !Forall_cons.
      split_and!; try done; by apply digits_piece. }
    unfold clock_text. destruct fraction as [f|]; [by rewrite split_app|]. by rewrite app_nil_r, split_piece. }
  rewrite Hhms. cbn [mbind option_bind]. unfold two.
  rewrite !split_app, split_piece by (done || by apply digits_piece).
  rewrite parse_i64_decimal by (simpl; mlia). cbn [mbind option_bind]. rewrite !parse_decimal_u32 by (simpl; lia). cbn [mbind option_bind].
  unfold hms, two. rewrite !split_app, split_piece by (done || by apply digits_piece).
  rewrite !parse_decimal_u32 by (simpl; lia). cbn [mbind option_bind].
  rewrite civil_in_range by done. cbn [mbind option_bind]. apply checked_i64_small.
  unfold unix_seconds. pose proof (day_number_bounds y m d). rewrite day_number_epoch.
  assert (-86400 <= zone_secs z <= 86400) by (destruct z as [|[] ? ? ?]; simpl in *; lia). mlia.
Qed.

(** ** Theorems *)

(** Round trip: a duration printed as any number of components, each a decimal
    number with its unit, is read back as exactly their sum, saturating at
    2^64-1 nanoseconds; a bare number is seconds. *)
Theorem duration_string_roundtrip c cs :
  Forall well_formed (c :: cs) ->
  parse_duration_string (concat (map component_text (c :: cs))) =
    Some (Z.min u64_max (sum_with component_nanos (c :: cs))).
Proof.
  intros Hcs. pose proof (duration_loop_exact (c :: cs) _ 0 Hcs (Nat.le_refl _)) as Hloop.
  assert (Hbare : parse_unsigned u64_max (concat (map component_text (c :: cs))) = None).
  { apply components_not_bare. by apply Forall_cons in Hcs as [Hc _]. }
  unfold parse_duration_string. rewrite Hbare.
  destruct (concat (map component_text (c :: cs))) eqn:E.
  - exfalso. simpl in E. unfold component_text in E. apply Forall_cons in Hcs as [Hc _].
    apply app_eq_nil in E as [E _]. apply app_eq_nil in E as [E _]. by destruct (number_text_nonempty c Hc).
  - rewrite Hloop by (unfold u128_max; lia). simpl. f_equal. unfold from_nanos, to_u64_or_max, u128_max, u64_max. lia.
Qed.

Lemma duration_string_roundtrip_witness :
  let c := mkComponent (chars "1") None Hours in
  let cs := [mkComponent (chars "2") None Minutes; mkComponent (chars "3") (Some (chars "25")) Seconds] in
  concat (map component_text (c :: cs)) = chars "1h2m3.25s" /\
  parse_duration_string (chars "1h2m3.25s") = Some 3723250000000.
Proof.
  intros c cs. split; [vm_compute; reflexivity|].
  etransitivity; [apply (duration_string_roundtrip c cs)|vm_compute; reflexivity].
  unfold c, cs, well_formed, all_digits, fraction_digits. simpl whole. simpl fraction. simpl in_unit.
  repeat constructor; done.
Defined.

(** C38: Round trip: an RFC 3339 timestamp, with or without a fraction, in UTC or
    with an offset written either way, is the instant it names. *)
Theorem rfc3339_roundtrip sep y m d h mi s fraction z :
  one_of 84 116 sep = true -> zone_ok z -> out_of_range y m d h mi s = false ->
  0 <= h -> 0 <= mi -> 0 <= s ->
  parse_rfc3339 (timestamp sep y m d h mi s fraction z) = Some (unix_seconds y m d h mi s - zone_secs z).
Proof. apply parse_rfc3339_print. Qed.

Lemma rfc3339_roundtrip_witness :
  timestamp 84 2024 2 29 12 30 0 (Some (chars "5")) (Offset false true 2 0) = chars "2024-02-29T12:30:00.5+02:00" /\
  parse_rfc3339 (timestamp 84 2024 2 29 12 30 0 (Some (chars "5")) (Offset false true 2 0)) = Some 1709202600.
Proof.
  split; [vm_compute; reflexivity|]. rewrite rfc3339_roundtrip by (done || simpl; lia). vm_compute. reflexivity.
Defined.
