(* ===== verification/HashTable.v ===== *)
(** * The hash table interface

    The hash table is the third-party crate [hashbrown]: a multiset of values,
    each stored under the hash it was inserted with. Its operations are a
    class and what the sources rely on a class of laws; [Chain], an association
    list, satisfies them. The store keeps its items in a vector and their
    positions in such a table; the second half of this file is that index, for
    any item type, and the invariant that ties the two together. *)

From S2P Require Import Prelude.

Class HashTable (T : Type) := {
  ht_new : T;
  (** Every value with the hash it is stored under. *)
  ht_elements : T -> list (Z * Z);
  (** [find(hash, eq)]: a value for which [eq] holds; [eq] is asked about every
      value stored under [hash], and possibly about others. *)
  find : T -> Z -> (Z -> bool) -> option Z;
  (** [find_entry(hash, eq)] and [remove] of what it finds. *)
  find_entry_remove : T -> Z -> (Z -> bool) -> T;
  (** [find_mut(hash, eq)] and an assignment to what it finds. *)
  find_mut_set : T -> Z -> (Z -> bool) -> Z -> T;
  (** [insert_unique(hash, value, hasher)]; growing the table rehashes the
      values with [hasher]. *)
  insert_unique : T -> Z -> Z -> (Z -> Z) -> T }.

Class HashTableLaws (T : Type) `{HashTable T} : Prop := {
  law_new : ht_elements ht_new = [];
  law_find t hash eq :
    match find t hash eq with
    | Some v => eq v = true /\ exists h, (h, v) ∈ ht_elements t
    | None => forall v, (hash, v) ∈ ht_elements t -> eq v = false
    end;
  law_remove t hash eq :
    (exists h v, eq v = true /\ ht_elements t ≡ₚ (h, v) :: ht_elements (find_entry_remove t hash eq)) \/
    ((forall v, (hash, v) ∈ ht_elements t -> eq v = false) /\ find_entry_remove t hash eq = t);
  law_set t hash eq new :
    (exists h v rest, eq v = true /\ ht_elements t ≡ₚ (h, v) :: rest /\
       ht_elements (find_mut_set t hash eq new) ≡ₚ (h, new) :: rest) \/
    ((forall v, (hash, v) ∈ ht_elements t -> eq v = false) /\ find_mut_set t hash eq new = t);
  law_insert t hash value hasher :
    (forall h v, (h, v) ∈ ht_elements t -> hasher v = h) ->
    ht_elements (insert_unique t hash value hasher) ≡ₚ (hash, value) :: ht_elements t }.

(** ** A concrete table: an association list, searched under the exact hash *)

Abbreviation Chain := (list (Z * Z)).

Fixpoint chain_find (t : Chain) (hash : Z) (eq : Z -> bool) : option Z :=
  match t with
  | [] => None
  | (h, v) :: t => if (h =? hash) && eq v then Some v else chain_find t hash eq
  end.
Fixpoint chain_remove (t : Chain) (hash : Z) (eq : Z -> bool) : Chain :=
  match t with
  | [] => []
  | (h, v) :: t => if (h =? hash) && eq v then t else (h, v) :: chain_remove t hash eq
  end.
Fixpoint chain_set (t : Chain) (hash : Z) (eq : Z -> bool) (new : Z) : Chain :=
  match t with
  | [] => []
  | (h, v) :: t => if (h =? hash) && eq v then (h, new) :: t else (h, v) :: chain_set t hash eq new
  end.

#[export] Instance chain_table : HashTable Chain := {
  ht_new := [];
  ht_elements t := t;
  find := chain_find;
  find_entry_remove := chain_remove;
  find_mut_set := chain_set;
  insert_unique t hash value _ := (hash, value) :: t }.

#[export] Instance chain_laws : HashTableLaws Chain.
Proof.
  assert (Hmiss : forall h v hash (eq : Z -> bool), (h =? hash) && eq v = false -> h = hash -> eq v = false).
  { intros h v hash eq E ->. by rewrite Z.eqb_refl in E. }
  constructor; simpl.
  - done.
  - intros t hash eq. induction t as [|[h v] t IH]; simpl; [by intros v ?%elem_of_nil|].
    destruct ((h =? hash) && eq v) eqn:E.
    + apply andb_prop in E as [_ E]. split; [done|]. exists h. by left.
    + destruct (chain_find t hash eq) as [w|].
      * destruct IH as (Hw & h' & Hin). split; [done|]. exists h'. by right.
      * intros w [[= -> ->]|Hin]%elem_of_cons; [by eapply Hmiss|auto].
  - intros t hash eq. induction t as [|[h v] t IH]; simpl; [right; split; [by intros v ?%elem_of_nil|done]|].
    destruct ((h =? hash) && eq v) eqn:E.
    + apply andb_prop in E as [_ E]. left. by exists h, v.
    + destruct IH as [(h' & w & Hw & Hp)|[Hno Eq]].
      * left. exists h', w. split; [done|]. etrans; [by apply perm_skip|apply perm_swap].
      * right. split; [|by rewrite Eq]. intros w [[= -> ->]|Hin]%elem_of_cons; [by eapply Hmiss|auto].
  - intros t hash eq new. induction t as [|[h v] t IH]; simpl; [right; split; [by intros v ?%elem_of_nil|done]|].
    destruct ((h =? hash) && eq v) eqn:E.
    + apply andb_prop in E as [_ E]. left. by exists h, v, t.
    + destruct IH as [(h' & w & rest & Hw & Hp & Hq)|[Hno Eq]].
      * left. exists h', w, ((h, v) :: rest). split_and!; [done|..]; (etrans; [by apply perm_skip|apply perm_swap]).
      * right. split; [|by rewrite Eq]. intros w [[= -> ->]|Hin]%elem_of_cons; [by eapply Hmiss|auto].
  - done.
Qed.

(** ** Positions of a vector, indexed by hash *)

(** [u32::try_from(pos).unwrap_or(u32::MAX)] of a [usize]. *)
Definition u32_of_usize (pos : nat) : Z := Z.min (Z.of_nat pos) u32_max.

(** [Vec::swap_remove]: the last item takes the place of the removed one. *)
Definition swap_remove {A} (l : list A) (pos : nat) : list A :=
  match last l with
  | Some x => take (length l - 1) (<[pos := x]> l)
  | None => []
  end.

Section Indexed.
Context {T : Type} `{HashTable T} {A : Type} (hash_of : A -> Z).

(** The position of the item under [hash] that satisfies [is_it]. *)
Definition position_of (index : T) (items : list A) (hash : Z) (is_it : A -> bool) : option nat :=
  Z.to_nat <$> find index hash (fun pos => match items !! Z.to_nat pos with Some x => is_it x | None => false end).

(** Removes the item at [pos]: its index entry goes, and the entry of the last
    item, which takes its place, is redirected. *)
Definition unlink (index : T) (items : list A) (pos : nat) : T :=
  match length items, items !! pos with
  | O, _ | _, None => index
  | S last, Some x =>
      let index := find_entry_remove index (hash_of x) (fun p => Z.to_nat p =? pos)%nat in
      if negb (pos =? last)%nat then
        match items !! last with
        | Some moved => find_mut_set index (hash_of moved) (fun p => Z.to_nat p =? last)%nat (u32_of_usize pos)
        | None => index
        end
      else index
  end.

(** Indexes the item just pushed at the end of [items]. *)
Definition link (index : T) (items : list A) (x : A) : T :=
  insert_unique index (hash_of x) (u32_of_usize (length items))
    (fun p => match (items ++ [x]) !! Z.to_nat p with Some held => hash_of held | None => 0 end).

(** The table holds exactly the positions of the vector, each once, under the
    hash of the item there. *)
Definition indexed (index : T) (items : list A) : Prop :=
  NoDup (ht_elements index).*2 /\
  (forall h v, (h, v) ∈ ht_elements index <-> 0 <= v /\ exists x, items !! Z.to_nat v = Some x /\ hash_of x = h) /\
  Z.of_nat (length items) <= u32_max + 1.

End Indexed.

(** ** Lemmas *)

Lemma swap_remove_snoc {A} (l : list A) y pos :
  swap_remove (l ++ [y]) pos = take (length l) (<[pos := y]> (l ++ [y])).
Proof. unfold swap_remove. rewrite last_snoc, length_app. simpl. by rewrite Nat.add_sub. Qed.

Lemma swap_remove_last {A} (l : list A) y : swap_remove (l ++ [y]) (length l) = l.
Proof. rewrite swap_remove_snoc, insert_app_r_alt, take_app_length by lia. done. Qed.

Lemma swap_remove_inner {A} (l : list A) y pos : (pos < length l)%nat ->
  swap_remove (l ++ [y]) pos = <[pos := y]> l.
Proof.
  intros Hp. rewrite swap_remove_snoc, insert_app_l by done.
  rewrite <- (length_insert l pos y) at 1. apply take_app_length.
Qed.

(** What [swap_remove] leaves: everything but the removed item. *)
Lemma swap_remove_perm {A} (l : list A) pos x : l !! pos = Some x -> l ≡ₚ x :: swap_remove l pos.
Proof.
  intros Hx. destruct l as [|y l _] using rev_ind; [done|].
  apply lookup_app_Some in Hx as [Hx|[Hge Hx]].
  - rewrite swap_remove_inner by by eapply lookup_lt_Some.
    apply list_elem_of_split_length in Hx as (l1 & l2 & -> & ->).
    rewrite insert_app_r_alt, Nat.sub_diag by lia. simpl.
    rewrite <- app_assoc. simpl. rewrite <- (Permutation_middle l1 (l2 ++ [y]) x). apply perm_skip.
    apply Permutation_app_head. symmetry. apply Permutation_cons_append.
  - apply list_lookup_singleton_Some in Hx as [Hi ->].
    replace pos with (length l) by lia. rewrite swap_remove_last. symmetry. apply Permutation_cons_append.
Qed.

Lemma swap_remove_length {A} (l : list A) pos x :
  l !! pos = Some x -> length l = S (length (swap_remove l pos)).
Proof. intros Hx. by rewrite (swap_remove_perm l pos x Hx) at 1. Qed.

Section IndexedLemmas.
Context {T : Type} `{HashTableLaws T} {A : Type} (hash_of : A -> Z).
Implicit Types (index : T) (items : list A).

Lemma indexed_new : indexed hash_of ht_new [].
Proof.
  unfold indexed. rewrite law_new. split_and!; [constructor| |simpl; unfold u32_max; lia].
  intros h v. rewrite elem_of_nil. split; [done|]. intros (_ & x & ? & _). done.
Qed.

Lemma position_of_found index items hash is_it pos :
  position_of index items hash is_it = Some pos -> exists x, items !! pos = Some x /\ is_it x = true.
Proof.
  unfold position_of. pose proof (law_find index hash
    (fun p => match items !! Z.to_nat p with Some x => is_it x | None => false end)) as Hf.
  destruct (find index hash _) as [v|]; [|done]. intros [= <-]. destruct Hf as [Hf _].
  destruct (items !! Z.to_nat v) as [x|]; [eauto|done].
Qed.

Lemma position_of_missing index items hash is_it :
  indexed hash_of index items -> position_of index items hash is_it = None ->
  forall pos x, items !! pos = Some x -> hash_of x = hash -> is_it x = false.
Proof.
  intros (_ & Hin & _). unfold position_of. pose proof (law_find index hash
    (fun p => match items !! Z.to_nat p with Some x => is_it x | None => false end)) as Hf.
  destruct (find index hash _) as [v|]; [done|]. intros _ pos x Hx Hh.
  specialize (Hf (Z.of_nat pos)). rewrite Nat2Z.id, Hx in Hf. apply Hf, Hin.
  split; [lia|]. rewrite Nat2Z.id. eauto.
Qed.

Lemma u32_of_usize_small pos : Z.of_nat pos <= u32_max -> u32_of_usize pos = Z.of_nat pos.
Proof. unfold u32_of_usize. lia. Qed.

Lemma indexed_position index items v h : indexed hash_of index items ->
  (h, v) ∈ ht_elements index -> v = Z.of_nat (Z.to_nat v) /\ (Z.to_nat v < length items)%nat.
Proof.
  intros (_ & Hin & _) (Hv & x & Hx & _)%Hin. split; [lia|]. by eapply lookup_lt_Some.
Qed.

Lemma indexed_link index items x :
  indexed hash_of index items -> Z.of_nat (length items) <= u32_max ->
  indexed hash_of (link hash_of index items x) (items ++ [x]).
Proof.
  intros Hidx Hlen. pose proof Hidx as (Hnd & Hin & _).
  assert (Hp : ht_elements (link hash_of index items x) ≡ₚ (hash_of x, Z.of_nat (length items)) :: ht_elements index).
  { unfold link. rewrite u32_of_usize_small by done. apply law_insert. intros h v Hv.
    destruct (indexed_position _ _ _ _ Hidx Hv) as [_ Hlt]. rewrite lookup_app_l by done.
    apply Hin in Hv as (_ & y & -> & <-). done. }
  split_and!.
  - rewrite Hp. simpl. constructor; [|done]. intros ([h v] & Hv & Hv')%list_elem_of_fmap.
    simpl in Hv. subst v. destruct (indexed_position _ _ _ _ Hidx Hv'). lia.
  - intros h v. rewrite Hp, elem_of_cons, Hin. split.
    + intros [[= -> ->]|(Hv & y & Hy & Hh)].
      * split; [lia|]. exists x. by rewrite Nat2Z.id, lookup_app_r, Nat.sub_diag.
      * split; [done|]. exists y. split; [|done]. by apply lookup_app_l_Some.
    + intros (Hv & y & Hy & Hh). apply lookup_app_Some in Hy as [Hy|[Hge Hy]]; [right; eauto|].
      apply list_lookup_singleton_Some in Hy as [Hi ->]. left. f_equal; [done|]. lia.
  - rewrite length_app. simpl. lia.
Qed.

(** Taking one entry out of a table without duplicate positions. *)
Lemma take_entry (E R : list (Z * Z)) h v : NoDup E.*2 -> E ≡ₚ (h, v) :: R ->
  NoDup R.*2 /\ v ∉ R.*2 /\ forall h' w, (h', w) ∈ R <-> (h', w) ∈ E /\ w <> v.
Proof.
  intros Hnd Hp. rewrite Hp in Hnd. simpl in Hnd. apply NoDup_cons in Hnd as [Hv Hnd].
  split_and!; [done..|]. intros h' w. rewrite Hp, elem_of_cons. split.
  - intros Hw. split; [by right|]. intros ->. apply Hv. apply list_elem_of_fmap. by exists (h', v).
  - intros [[[= -> ->]|Hw] Hne]; done.
Qed.

Lemma indexed_unlink index items pos x : indexed hash_of index items -> items !! pos = Some x ->
  indexed hash_of (unlink hash_of index items pos) (swap_remove items pos).
Proof.
  intros Hidx Hx. pose proof Hidx as (Hnd & Hin & Hlen).
  destruct items as [|y l _] using rev_ind; [done|].
  pose proof (lookup_lt_Some _ _ _ Hx) as Hlt. rewrite length_app in Hlt, Hlen. simpl in Hlt, Hlen.
  unfold unlink. rewrite length_app, Nat.add_comm, Hx. simpl.
  set (index1 := find_entry_remove index (hash_of x) (fun p => (Z.to_nat p =? pos)%nat)).
  assert (H1 : NoDup (ht_elements index1).*2 /\ Z.of_nat pos ∉ (ht_elements index1).*2 /\
    forall h w, (h, w) ∈ ht_elements index1 <-> (h, w) ∈ ht_elements index /\ w <> Z.of_nat pos).
  { destruct (law_remove index (hash_of x) (fun p => (Z.to_nat p =? pos)%nat)) as [(h & v & Hv%Nat.eqb_eq & Hp)|[Hno _]].
    - assert (Hvi : (h, v) ∈ ht_elements index) by (rewrite Hp; left).
      destruct (indexed_position _ _ _ _ Hidx Hvi) as [Hv' _]. replace (Z.of_nat pos) with v by lia.
      by eapply take_entry.
    - exfalso. specialize (Hno (Z.of_nat pos)). rewrite Nat2Z.id, Nat.eqb_refl in Hno.
      discriminate Hno. apply Hin. split; [lia|]. rewrite Nat2Z.id. eauto. }
  destruct H1 as (Hnd1 & Hpos & Hin1). destruct (Nat.eqb_spec pos (length l)) as [->|Hne]; simpl.
  - rewrite swap_remove_last. split_and!; [done| |lia]. intros h v. rewrite Hin1, Hin. split.
    + intros [(Hv & z & Hz & Hh) Hne]. split; [done|]. exists z. split; [|done].
      apply lookup_snoc_Some in Hz as [[_ Hz]|[E _]]; [done|lia].
    + intros (Hv & z & Hz & Hh). pose proof (lookup_lt_Some _ _ _ Hz). split; [|lia]. split; [done|].
      exists z. split; [|done]. by apply lookup_app_l_Some.
  - rewrite lookup_app_r, Nat.sub_diag by done. simpl. rewrite swap_remove_inner by lia.
    rewrite u32_of_usize_small by lia.
    set (index2 := find_mut_set index1 (hash_of y) (fun p => (Z.to_nat p =? length l)%nat) (Z.of_nat pos)).
    assert (H2 : exists rest, ht_elements index2 ≡ₚ (hash_of y, Z.of_nat pos) :: rest /\
      NoDup rest.*2 /\ Z.of_nat pos ∉ rest.*2 /\
      forall h w, (h, w) ∈ rest <-> (h, w) ∈ ht_elements index1 /\ w <> Z.of_nat (length l)).
    { destruct (law_set index1 (hash_of y) (fun p => (Z.to_nat p =? length l)%nat) (Z.of_nat pos))
        as [(h & v & rest & Hv%Nat.eqb_eq & Hp & Hq)|[Hno _]].
      - assert (Hvi : (h, v) ∈ ht_elements index) by (apply Hin1; rewrite Hp; left).
        destruct (indexed_position _ _ _ _ Hidx Hvi) as [Hv' _]. exists rest.
        destruct (take_entry _ _ _ _ Hnd1 Hp) as (Hr & _ & Hr').
        assert (h = hash_of y) as ->.
        { apply Hin in Hvi as (_ & z & Hz & <-). rewrite Hv, lookup_app_r, Nat.sub_diag in Hz by done.
          by injection Hz as ->. }
        split_and!; [done|done| |].
        + intros Hi. apply Hpos. rewrite Hp. simpl. by right.
        + intros h' w. rewrite Hr'. by replace v with (Z.of_nat (length l)) by lia.
      - exfalso. specialize (Hno (Z.of_nat (length l))). rewrite Nat2Z.id, Nat.eqb_refl in Hno.
        discriminate Hno. apply Hin1. split; [|lia]. apply Hin. split; [lia|]. exists y.
        by rewrite Nat2Z.id, lookup_app_r, Nat.sub_diag. }
    destruct H2 as (rest & Hp & Hnd2 & Hpos2 & Hin2). split_and!.
    + rewrite Hp. simpl. by constructor.
    + intros h v. rewrite Hp, elem_of_cons, Hin2, Hin1, Hin. split.
      * intros [[= -> ->]|[[(Hv & z & Hz & Hh) Hn1] Hn2]].
        -- split; [lia|]. exists y. rewrite Nat2Z.id, list_lookup_insert_eq by lia. done.
        -- split; [done|]. exists z. split; [|done]. rewrite list_lookup_insert_ne by lia.
           apply lookup_snoc_Some in Hz as [[_ Hz]|[E _]]; [done|lia].
      * intros (Hv & z & Hz & Hh). destruct (Nat.eq_dec pos (Z.to_nat v)) as [Hpv|Hpv].
        -- left. rewrite Hpv, list_lookup_insert_eq in Hz by lia. injection Hz as ->. subst h. f_equal. lia.
        -- right. rewrite list_lookup_insert_ne in Hz by done. pose proof (lookup_lt_Some _ _ _ Hz).
           split; [split; [split; [done|]|lia]|lia]. exists z. split; [|done]. by apply lookup_app_l_Some.
    + rewrite length_insert. lia.
Qed.

(** Changing items in place, under the same hashes, keeps the index. *)
Lemma indexed_same_hashes index items items' :
  hash_of <$> items = hash_of <$> items' -> indexed hash_of index items -> indexed hash_of index items'.
Proof.
  intros Hh (Hnd & Hin & Hlen).
  assert (Hl : length items = length items') by (by rewrite <- (length_fmap hash_of items), Hh, length_fmap).
  split_and!; [done| |by rewrite <- Hl]. intros h v. rewrite Hin.
  assert (Hi : forall l : list A, (exists x, l !! Z.to_nat v = Some x /\ hash_of x = h) <->
    (hash_of <$> l) !! Z.to_nat v = Some h).
  { intros l. rewrite list_lookup_fmap, fmap_Some. naive_solver. }
  by rewrite !Hi, Hh.
Qed.

End IndexedLemmas.

(** ** Cursors that go around a vector *)

(** A cursor beyond the end starts over. *)
Definition wrapped (len cursor : nat) : nat := if (len <=? cursor)%nat then O else cursor.

(** Where a cursor is [j] steps on. *)
Definition around (len cursor j : nat) : nat := ((wrapped len cursor + j) mod len)%nat.

Lemma wrapped_lt len cursor : len <> O -> (wrapped len cursor < len)%nat.
Proof. intros Hl. unfold wrapped. destruct (Nat.leb_spec len cursor); lia. Qed.

Lemma around_zero len cursor : len <> O -> around len cursor 0 = wrapped len cursor.
Proof. intros Hl. unfold around. rewrite Nat.add_0_r. by apply Nat.mod_small, wrapped_lt. Qed.

Lemma around_step len cursor j : len <> O ->
  around len (S (wrapped len cursor)) j = around len cursor (S j).
Proof.
  intros Hl. pose proof (wrapped_lt len cursor Hl) as Hc. unfold around.
  set (c := wrapped len cursor) in *. replace (c + S j)%nat with (S c + j)%nat by lia.
  unfold wrapped. destruct (Nat.leb_spec len (S c)); [|done].
  replace (S c + j)%nat with (j + 1 * len)%nat by lia. by rewrite Nat.Div0.mod_add.
Qed.
