(* ===== verification/Eviction.v ===== *)
(** * Eviction (eviction.rs)

    Which keys a per-key limiter may forget, and what it does when it is full
    of keys it may not. *)

From S2P Require Import Prelude.

Definition DEFAULT_MAX_KEYS : Z := Z.shiftl 1 20.

Inductive WhenFull := RefuseNew | ForgetDebt.

Record Eviction := mkEviction {
  max_keys : option Z;
  idle_ttl : option Duration;
  when_full : WhenFull }.

Definition capacity (max_keys : Z) : Eviction := mkEviction (Some max_keys) None RefuseNew.
Definition idle (ttl : Duration) : Eviction := mkEviction (Some DEFAULT_MAX_KEYS) (Some ttl) RefuseNew.
Definition new (max_keys : Z) (ttl : Duration) : Eviction := mkEviction (Some max_keys) (Some ttl) RefuseNew.
Definition unbounded : Eviction := mkEviction None None RefuseNew.

Definition with_capacity (self : Eviction) (max_keys : Z) : Eviction :=
  mkEviction (Some max_keys) (idle_ttl self) (when_full self).
Definition with_idle (self : Eviction) (ttl : Duration) : Eviction :=
  mkEviction (max_keys self) (Some ttl) (when_full self).
Definition without_capacity (self : Eviction) : Eviction :=
  mkEviction None (idle_ttl self) (when_full self).
Definition with_when_full (self : Eviction) (when_full : WhenFull) : Eviction :=
  mkEviction (max_keys self) (idle_ttl self) when_full.

Definition default_eviction : Eviction := capacity DEFAULT_MAX_KEYS.
