(* ===== verification/Ledger.v ===== *)
(** * Ledger (store.rs: [Debt], [Ledger], [restore_debt])

    What a shard remembers of the keys it forgot while they were limited: the
    hash of the key and the time by which its bucket would be full again. *)

From S2P Require Import Prelude Decisions Bucket HashTable.

Definition LEDGER_SCAN : nat := 8.

Record Debt := mkDebt { debt_hash : Z; settles_at : Duration }.

Record Ledger (T : Type) := mkLedger { index : T; debts : list Debt; cursor : nat }.
Arguments mkLedger {T}. Arguments index {T}. Arguments debts {T}. Arguments cursor {T}.

Section Ledger.
Context {T : Type} `{HashTable T}.
Abbreviation ledger := (Ledger T).

Definition new : ledger := mkLedger ht_new [] 0.

Definition with_cursor (self : ledger) (cursor : nat) : ledger := mkLedger (index self) (debts self) cursor.
Definition with_debts (self : ledger) (debts : list Debt) : ledger := mkLedger (index self) debts (cursor self).

Definition position (self : ledger) (hash : Z) : option nat :=
  position_of (index self) (debts self) hash (fun debt => debt_hash debt =? hash).

Definition remove_at (self : ledger) (pos : nat) : option Debt * ledger :=
  match debts self !! pos with
  | None => (None, self)
  | Some debt =>
      (Some debt, mkLedger (unlink debt_hash (index self) (debts self) pos) (swap_remove (debts self) pos) (cursor self))
  end.

Definition pay_down (self : ledger) (hash cost : Z) (config : BucketConf) : bool * ledger :=
  match (pos ← position self hash; debt ← debts self !! pos; Some (pos, debt)) with
  | None => (false, self)
  | Some (pos, debt) =>
      let per_token := as_nanos (refill_period config) / Z.max (refill_amount config) 1 in
      let credit := from_nanos (to_u64_or_max (sat_mul u128_max per_token cost)) in
      (true, with_debts self (<[pos := mkDebt (debt_hash debt) (dur_sat_sub (settles_at debt) credit)]> (debts self)))
  end.

Definition take (self : ledger) (hash : Z) : option Duration * ledger :=
  match position self hash with
  | None => (None, self)
  | Some pos => let '(debt, self) := remove_at self pos in (settles_at <$> debt, self)
  end.

(** The scan of a full ledger: it stops at a settled debt, and otherwise
    finds the one that settles soonest among those it looked at. *)
Fixpoint record_scan (debts : list Debt) (now : Duration) (rounds : nat) (cursor : nat)
    (soonest : option (nat * Duration)) : nat * option (nat * Duration) :=
  match rounds with
  | O => (cursor, soonest)
  | S rounds =>
      let cursor := if (length debts <=? cursor)%nat then O else cursor in
      match debts !! cursor with
      | Some held =>
          if settles_at held <=? now then (cursor, Some (cursor, settles_at held))
          else
            let soonest :=
              match soonest with
              | Some (_, at_) => if settles_at held <? at_ then Some (cursor, settles_at held) else soonest
              | None => Some (cursor, settles_at held)
              end in
            record_scan debts now rounds (S cursor) soonest
      | None => record_scan debts now rounds (S cursor) soonest
      end
  end.

Definition push (self : ledger) (debt : Debt) : ledger :=
  mkLedger (link debt_hash (index self) (debts self) debt) (debts self ++ [debt]) (cursor self).

Definition record (self : ledger) (debt : Debt) (now : Duration) (cap : Z) (forget : bool)
    : Result unit Duration * ledger :=
  match position self (debt_hash debt) with
  | Some pos =>
      (Ok tt,
       match debts self !! pos with
       | Some held =>
           with_debts self
             (<[pos := mkDebt (debt_hash held) (Z.max (settles_at held) (settles_at debt))]> (debts self))
       | None => self
       end)
  | None =>
      if cap <=? Z.of_nat (length (debts self)) then
        let '(cursor, soonest) :=
          record_scan (debts self) now (Nat.min LEDGER_SCAN (length (debts self))) (cursor self) None in
        let self := with_cursor self cursor in
        match soonest with
        | Some (pos, at_) =>
            if (at_ <=? now) || forget then (Ok tt, push (remove_at self pos).2 debt)
            else (Err (dur_sat_sub at_ now), self)
        | None => (Err DURATION_MAX, self)
        end
      else (Ok tt, push self debt)
  end.

Fixpoint sweep (self : ledger) (now : Duration) (budget : nat) : ledger :=
  match budget with
  | O => self
  | S budget =>
      match debts self with
      | [] => self
      | _ =>
          let self := if (length (debts self) <=? cursor self)%nat then with_cursor self O else self in
          match debts self !! cursor self with
          | Some debt =>
              if settles_at debt <=? now then sweep (remove_at self (cursor self)).2 now budget
              else sweep (with_cursor self (S (cursor self))) now budget
          | None => sweep (with_cursor self (S (cursor self))) now budget
          end
      end
  end.

End Ledger.

(** ** Rebuilding the state of a forgotten key *)

Section Restore.
Context {B : Type} `{Bucket B}.

(** Debt beyond an empty bucket is reserved in chunks of at most the capacity,
    so [debt / capacity + 1] rounds are enough. *)
Fixpoint reserve_debt (fuel : nat) (b : B) (capacity debt now : Z) : B :=
  match fuel with
  | O => b
  | S fuel =>
      if (0 <? debt) && (0 <? capacity) then
        let chunk := Z.min debt capacity in
        match reserve_at b chunk DURATION_MAX now with
        | (None, b) => b
        | (Some _, b) => reserve_debt fuel b capacity (debt - chunk) now
        end
      else b
  end.

Definition restore_debt (b : B) (config : BucketConf) (now : Z) (settles_at : Duration) : B :=
  let remaining := dur_sat_sub settles_at now in
  if is_zero remaining then b
  else
    let period := Z.max (as_nanos (refill_period config)) 1 in
    let missing := div_up (as_nanos remaining * refill_amount config) period in
    let capacity := conf_capacity config in
    let available := available_at b now in
    let keep := sat_sub capacity missing in
    let b := if keep <? available then (acquire_up_to_at b (available - keep) now).2 else b in
    let debt := sat_sub missing capacity in
    reserve_debt (Z.to_nat (debt / capacity + 1)) b capacity debt now.

End Restore.

(** ** Lemmas on the ledger *)

Section LedgerLemmas.
Context {T : Type} `{HashTableLaws T}.
Implicit Types (l : Ledger T).

(** The index is the debts' positions, one debt per hash. *)
Definition ledger_wf l : Prop := indexed debt_hash (index l) (debts l) /\ NoDup (debt_hash <$> debts l).

(** The ledger holds a debt of [h] until [t] or later. *)
Definition owed l (h : Z) (t : Duration) : Prop :=
  exists d, d ∈ debts l /\ debt_hash d = h /\ t <= settles_at d.

(** The ledger holds a debt of [h]. *)
Definition known l (h : Z) : Prop := h ∈ debt_hash <$> debts l.

Lemma owed_known l h t : owed l h t -> known l h.
Proof. intros (d & Hd & <- & _). apply list_elem_of_fmap. eauto. Qed.

Lemma known_owed l h : known l h -> exists t, owed l h t.
Proof. intros (d & -> & Hd)%list_elem_of_fmap. exists (settles_at d), d. done. Qed.

Lemma ledger_wf_new : ledger_wf (new (T := T)).
Proof. split; [apply indexed_new|constructor]. Qed.

Lemma position_some l h pos : position l h = Some pos -> exists d, debts l !! pos = Some d /\ debt_hash d = h.
Proof. intros (d & Hd & Hh%Z.eqb_eq)%position_of_found. eauto. Qed.

Lemma position_none l h : ledger_wf l -> position l h = None -> h ∉ debt_hash <$> debts l.
Proof.
  intros [Hidx _] Hp (d & -> & (i & Hi)%list_elem_of_lookup)%list_elem_of_fmap.
  pose proof (position_of_missing _ _ _ _ _ Hidx Hp i d Hi eq_refl) as E. simpl in E.
  by rewrite Z.eqb_refl in E.
Qed.

Lemma debt_unique l d d' : NoDup (debt_hash <$> debts l) -> d ∈ debts l -> d' ∈ debts l ->
  debt_hash d = debt_hash d' -> d = d'.
Proof.
  intros Hnd (i & Hi)%list_elem_of_lookup (j & Hj)%list_elem_of_lookup Hh.
  assert (i = j) as ->; [|congruence].
  eapply (NoDup_lookup (debt_hash <$> debts l)); [done|..]; rewrite list_lookup_fmap, ?Hi, ?Hj; simpl; [done|by rewrite Hh].
Qed.

(** Removal at a position takes exactly the debt there. *)
Lemma ledger_remove_at_perm l pos d : debts l !! pos = Some d ->
  debts l ≡ₚ d :: debts (remove_at l pos).2.
Proof. intros Hd. unfold remove_at. rewrite Hd. simpl. by apply swap_remove_perm. Qed.

Lemma ledger_wf_remove l pos : ledger_wf l -> ledger_wf (remove_at l pos).2.
Proof.
  intros [Hidx Hnd]. destruct (debts l !! pos) as [d|] eqn:Hd.
  - pose proof (ledger_remove_at_perm l pos d Hd) as Hp. split.
    + unfold remove_at. rewrite Hd. simpl. by eapply indexed_unlink.
    + rewrite Hp in Hnd. simpl in Hnd. by apply NoDup_cons in Hnd as [_ Hnd].
  - unfold remove_at. by rewrite Hd.
Qed.

Lemma owed_remove l pos d h t : ledger_wf l -> debts l !! pos = Some d -> debt_hash d <> h \/ settles_at d < t ->
  owed l h t -> owed (remove_at l pos).2 h t.
Proof.
  intros Hwf Hd Hne (d' & Hin & Hh & Ht). exists d'. split; [|done].
  rewrite (ledger_remove_at_perm l pos d Hd) in Hin. apply elem_of_cons in Hin as [->|]; [|done].
  exfalso. destruct Hne as [|Hlt]; [done|lia].
Qed.

Lemma ledger_remove_at_length l pos d : debts l !! pos = Some d ->
  length (debts l) = S (length (debts (remove_at l pos).2)).
Proof. intros Hd. by rewrite (ledger_remove_at_perm l pos d Hd) at 1. Qed.

Lemma ledger_wf_same_hashes l ds :
  debt_hash <$> debts l = debt_hash <$> ds -> ledger_wf l -> ledger_wf (with_debts l ds).
Proof.
  intros Hh [Hidx Hnd]. split; simpl; [by eapply indexed_same_hashes|by rewrite <- Hh].
Qed.

Lemma replace_debt_hashes l pos d settles : debts l !! pos = Some d ->
  debt_hash <$> debts l = debt_hash <$> <[pos := mkDebt (debt_hash d) settles]> (debts l).
Proof.
  intros Hd. rewrite list_fmap_insert. simpl. symmetry. apply list_insert_id. by rewrite list_lookup_fmap, Hd.
Qed.

Lemma pay_down_wf l h cost config : ledger_wf l -> ledger_wf (pay_down l h cost config).2.
Proof.
  intros Hwf. unfold pay_down. destruct (position l h) as [pos|]; simpl; [|done].
  destruct (debts l !! pos) as [d|] eqn:Hd; simpl; [|done].
  apply ledger_wf_same_hashes; [|done]. by apply replace_debt_hashes.
Qed.

Lemma pay_down_known l h cost config h' : known (pay_down l h cost config).2 h' <-> known l h'.
Proof.
  unfold pay_down, known. destruct (position l h) as [pos|]; simpl; [|done].
  destruct (debts l !! pos) as [d|] eqn:Hd; simpl; [|done]. by rewrite <- (replace_debt_hashes l pos d _ Hd).
Qed.

Lemma pay_down_owed l h cost config h' t : h' <> h -> owed l h' t -> owed (pay_down l h cost config).2 h' t.
Proof.
  intros Hne (d' & (i & Hi)%list_elem_of_lookup & Hh & Ht). unfold pay_down.
  destruct (position l h) as [pos|] eqn:Hp; simpl; [|exists d'; split; [by eapply list_elem_of_lookup_2|done]].
  destruct (position_some _ _ _ Hp) as (d & Hd & Hdh). rewrite Hd. simpl.
  exists d'. split; [|done]. eapply list_elem_of_lookup_2. simpl. rewrite list_lookup_insert_ne; [done|congruence].
Qed.

Lemma pay_down_length l h cost config : length (debts (pay_down l h cost config).2) = length (debts l).
Proof.
  unfold pay_down. destruct (position l h) as [pos|]; simpl; [|done].
  destruct (debts l !! pos) as [d|]; simpl; [|done]. apply length_insert.
Qed.

Lemma take_spec l h : ledger_wf l ->
  let '(r, l') := take l h in
  ledger_wf l' /\ (length (debts l') <= length (debts l))%nat /\
  ~ known l' h /\ (forall h', known l' h' -> known l h') /\
  (forall h' t, h' <> h -> owed l h' t -> owed l' h' t) /\
  match r with
  | Some s => owed l h s /\ (forall t, owed l h t -> t <= s) /\ length (debts l) = S (length (debts l'))
  | None => (forall t, ~ owed l h t) /\ l' = l
  end.
Proof.
  intros Hwf. unfold take. destruct (position l h) as [pos|] eqn:Hp.
  - destruct (position_some _ _ _ Hp) as (d & Hd & Hh).
    destruct (remove_at l pos) as [r l'] eqn:E. assert (r = Some d) as ->.
    { unfold remove_at in E. rewrite Hd in E. by injection E. }
    assert (El : l' = (remove_at l pos).2) by by rewrite E.
    pose proof (ledger_remove_at_perm l pos d Hd) as Hperm. rewrite <- El in Hperm. simpl.
    pose proof (ledger_remove_at_length l pos d Hd) as Hlen. rewrite <- El in Hlen.
    split_and!.
    + rewrite El. by apply ledger_wf_remove.
    + lia.
    + unfold known. destruct Hwf as [_ Hnd]. rewrite Hperm in Hnd. simpl in Hnd.
      apply NoDup_cons in Hnd as [Hnd _]. by rewrite <- Hh.
    + intros h'. unfold known. rewrite Hperm. simpl. by right.
    + intros h' t Hne Ho. rewrite El. eapply owed_remove; [done..| |done]. left. congruence.
    + exists d. split_and!; [by eapply list_elem_of_lookup_2|done|lia].
    + intros t (d' & Hd' & Hh' & Ht). destruct Hwf as [_ Hnd].
      replace d with d'; [done|]. eapply debt_unique; [exact Hnd|done|by eapply list_elem_of_lookup_2|congruence].
    + done.
  - pose proof (position_none _ _ Hwf Hp) as Hno.
    split_and!; try done. intros t Ho. by apply owed_known in Ho.
Qed.

Lemma known_remove l pos h : known (remove_at l pos).2 h -> known l h.
Proof.
  destruct (debts l !! pos) as [d|] eqn:Hd; [|unfold remove_at; by rewrite Hd].
  unfold known. rewrite (Permutation_map debt_hash (ledger_remove_at_perm l pos d Hd)). by right.
Qed.

Lemma known_push l d h : known (push l d) h <-> known l h \/ h = debt_hash d.
Proof. unfold known, push. simpl. rewrite fmap_app. simpl. by rewrite elem_of_app, list_elem_of_singleton. Qed.

Lemma record_scan_spec (ds : list Debt) now rounds cur soonest :
  (match soonest with Some (p, at_) => (exists d, ds !! p = Some d /\ settles_at d = at_) | None => True end) ->
  match (record_scan ds now rounds cur soonest).2 with
  | Some (p, at_) => exists d, ds !! p = Some d /\ settles_at d = at_
  | None => True
  end.
Proof.
  revert cur soonest. induction rounds as [|rounds IH]; intros cur soonest Hs; simpl; [done|].
  destruct (ds !! _) as [d|] eqn:Hd; [|by apply IH].
  destruct (settles_at d <=? now); simpl; [eauto|]. apply IH.
  destruct soonest as [[p at_]|]; [|eauto]. destruct (settles_at d <? at_); eauto.
Qed.

Lemma push_wf l d : ledger_wf l -> debt_hash d ∉ debt_hash <$> debts l ->
  Z.of_nat (length (debts l)) <= u32_max -> ledger_wf (push l d).
Proof.
  intros [Hidx Hnd] Hno Hlen. split; simpl; [by apply indexed_link|].
  rewrite fmap_app. simpl. apply NoDup_app. split_and!; [done| |apply NoDup_singleton].
  intros h Hin ->%list_elem_of_singleton. done.
Qed.

Lemma owed_push l d h t : owed (push l d) h t <-> owed l h t \/ (debt_hash d = h /\ t <= settles_at d).
Proof.
  unfold owed, push. simpl. split.
  - intros (d' & [Hd|Hd%list_elem_of_singleton]%elem_of_app & Hh & Ht); subst; eauto.
  - intros [(d' & Hd & Hh & Ht)|[Hh Ht]]; [exists d'|exists d]; rewrite elem_of_app, list_elem_of_singleton; eauto.
Qed.

(** Recording a debt: when it succeeds the debt is held, and without [forget]
    nothing that is not settled is lost; when it fails nothing changes. *)
Lemma record_spec l d now cap forget : ledger_wf l -> Z.of_nat (length (debts l)) <= u32_max ->
  let '(r, l') := record l d now cap forget in
  ledger_wf l' /\
  (Z.of_nat (length (debts l')) <= Z.max (Z.of_nat (length (debts l))) (Z.min cap (Z.of_nat (length (debts l)) + 1))) /\
  (forall h, known l' h -> known l h \/ h = debt_hash d) /\
  match r with
  | Ok _ => owed l' (debt_hash d) (settles_at d) /\
      (forget = false -> forall h t, now < t -> owed l h t -> owed l' h t)
  | Err w => debts l' = debts l
  end.
Proof.
  intros Hwf Hlen. unfold record. destruct (position l (debt_hash d)) as [pos|] eqn:Hp.
  - destruct (position_some _ _ _ Hp) as (d0 & Hd & Hh). rewrite Hd. split_and!.
    + apply ledger_wf_same_hashes; [|done]. by apply replace_debt_hashes.
    + simpl. rewrite length_insert. lia.
    + intros h. unfold known. simpl. rewrite <- (replace_debt_hashes l pos d0) by done. by left.
    + exists (mkDebt (debt_hash d0) (Z.max (settles_at d0) (settles_at d))). simpl. split_and!; [|done|lia].
      apply list_elem_of_insert. by eapply lookup_lt_Some.
    + intros _ h t Ht (d' & Hin & Hh' & Ht'). apply list_elem_of_lookup in Hin as (i & Hi).
      destruct (decide (i = pos)) as [->|Hne].
      * rewrite Hd in Hi. injection Hi as <-. exists (mkDebt (debt_hash d0) (Z.max (settles_at d0) (settles_at d))).
        simpl. split_and!; [|done|lia]. apply list_elem_of_insert. by eapply lookup_lt_Some.
      * exists d'. split_and!; [|done..]. simpl. eapply list_elem_of_lookup_2.
        by rewrite list_lookup_insert_ne.
  - pose proof (position_none _ _ Hwf Hp) as Hno.
    destruct (Z.leb_spec cap (Z.of_nat (length (debts l)))) as [Hfull|Hroom].
    2:{ split_and!; [by apply push_wf|simpl; rewrite length_app; simpl; lia|intros h; apply known_push|apply owed_push; right; split; [done|lia]|].
        intros _ h t _ Ho. apply owed_push. by left. }
    pose proof (record_scan_spec (debts l) now (Nat.min LEDGER_SCAN (length (debts l))) (cursor l) None I) as Hscan.
    destruct (record_scan _ _ _ _ _) as [cur [[pos at_]|]] eqn:E; [|split_and!; simpl; [done|lia|by left|done]]. simpl in Hscan.
    destruct Hscan as (d0 & Hd & Hat). destruct ((at_ <=? now) || forget) eqn:Ea; [|split_and!; simpl; [done|lia|by left|done]].
    set (lc := with_cursor l cur). assert (Hwfc : ledger_wf lc) by done. assert (Hdc : debts lc !! pos = Some d0) by done.
    pose proof (ledger_remove_at_length lc pos d0 Hdc) as Hl. change (debts lc) with (debts l) in Hl.
    split_and!.
    + apply push_wf; [by apply ledger_wf_remove| |lia].
      intros (d' & E' & Hin)%list_elem_of_fmap. apply Hno, list_elem_of_fmap. exists d'. split; [done|].
      change (debts l) with (debts lc). rewrite (ledger_remove_at_perm lc pos d0 Hdc). by right.
    + simpl. rewrite length_app. simpl. lia.
    + intros h. rewrite known_push. intros [Hk|Hk]; [left|by right]. by apply (known_remove lc) in Hk.
    + apply owed_push. right. split; [done|lia].
    + intros -> h t Ht Ho. apply owed_push. left. eapply owed_remove; [done|exact Hdc| |done].
      right. rewrite orb_false_r in Ea. apply Z.leb_le in Ea. lia.
Qed.

Lemma record_result l d now cap forget r l' :
  record l d now cap forget = (r, l') -> ledger_wf l -> Z.of_nat (length (debts l)) <= u32_max ->
  ledger_wf l' /\
  (Z.of_nat (length (debts l')) <= Z.max (Z.of_nat (length (debts l))) (Z.min cap (Z.of_nat (length (debts l)) + 1))) /\
  (forall h, known l' h -> known l h \/ h = debt_hash d) /\
  match r with
  | Ok _ => owed l' (debt_hash d) (settles_at d) /\
      (forget = false -> forall h t, now < t -> owed l h t -> owed l' h t)
  | Err w => debts l' = debts l
  end.
Proof. intros E Hwf Hlen. pose proof (record_spec l d now cap forget Hwf Hlen) as Hs. by rewrite E in Hs. Qed.

(** With room, recording cannot fail. *)
Lemma record_room l d now cap forget : Z.of_nat (length (debts l)) < cap -> (record l d now cap forget).1 = Ok tt.
Proof. intros Hl. unfold record. destruct (position l _); [done|]. by rewrite (proj2 (Z.leb_gt _ _)). Qed.

(** Sweeping drops only settled debts. *)
Lemma sweep_spec now budget l : ledger_wf l ->
  ledger_wf (sweep l now budget) /\ (length (debts (sweep l now budget)) <= length (debts l))%nat /\
  (forall h, known (sweep l now budget) h -> known l h) /\
  (forall h t, now < t -> owed l h t -> owed (sweep l now budget) h t).
Proof.
  revert l. induction budget as [|budget IH]; intros l Hwf; simpl; [done|].
  destruct (debts l) as [|d0 ds] eqn:Ed; [by rewrite Ed|]. rewrite <- Ed. clear d0 ds Ed.
  set (lc := if (length (debts l) <=? cursor l)%nat then with_cursor l 0 else l).
  assert (Hd : debts lc = debts l) by (unfold lc; by destruct (_ <=? _)%nat).
  assert (Hwfc : ledger_wf lc) by (unfold lc; by destruct (_ <=? _)%nat).
  assert (Ho : forall h t, owed l h t -> owed lc h t) by (unfold owed; by rewrite Hd).
  assert (Hkn : forall h, known lc h -> known l h) by (unfold known; by rewrite Hd).
  rewrite <- Hd. destruct (debts lc !! cursor lc) as [d|] eqn:E.
  - destruct (Z.leb_spec (settles_at d) now).
    + destruct (IH (remove_at lc (cursor lc)).2) as (? & ? & Hk' & Hk); [by apply ledger_wf_remove|].
      pose proof (ledger_remove_at_length lc _ d E). split_and!; [done|lia| |].
      * intros h Hh. by apply Hkn, known_remove with (cursor lc), Hk'.
      * intros h t Ht Hot. apply Hk; [done|]. eapply owed_remove; [done..| |by apply Ho]. right. lia.
    + destruct (IH (with_cursor lc (S (cursor lc)))) as (? & ? & Hk' & Hk); [done|]. split_and!; [done|done|intros h Hh; exact (Hkn h (Hk' h Hh))|].
      intros h t Ht Hot. apply Hk; [done|]. by apply Ho.
  - destruct (IH (with_cursor lc (S (cursor lc)))) as (? & ? & Hk' & Hk); [done|]. split_and!; [done|done|intros h Hh; exact (Hkn h (Hk' h Hh))|].
    intros h t Ht Hot. apply Hk; [done|]. by apply Ho.
Qed.

(** *** Refusals *)

(** Sweeps that drop nothing looked at unsettled debts only. *)
Definition unsettled (ds : list Debt) (cursor : nat) (now : Duration) (n : nat) : Prop :=
  forall j, (j < n)%nat -> exists d, ds !! around (length ds) cursor j = Some d /\ now < settles_at d.

Lemma sweep_unsettled now budget l : ledger_wf l -> debts l <> [] ->
  length (debts (sweep l now budget)) = length (debts l) ->
  debts (sweep l now budget) = debts l /\ unsettled (debts l) (cursor l) now budget.
Proof.
  revert l. induction budget as [|budget IH]; intros l Hwf Hne Hlen; [split; [done|]; intros j; lia|].
  simpl in Hlen |- *. destruct (debts l) as [|d0 ds] eqn:Ed; [done|]. rewrite <- Ed in *. clear d0 ds Ed.
  assert (Hlen0 : length (debts l) <> O) by (by destruct (debts l)).
  pose proof (wrapped_lt (length (debts l)) (cursor l) Hlen0) as Hc.
  set (c := wrapped (length (debts l)) (cursor l)) in *.
  assert (El : (if (length (debts l) <=? cursor l)%nat then with_cursor l 0 else l) = with_cursor l c).
  { subst c. unfold wrapped. destruct (_ <=? _)%nat; [done|by destruct l]. }
  rewrite El in *. simpl in Hlen |- *. destruct (lookup_lt_is_Some_2 _ _ Hc) as [d Hd]. rewrite Hd in *.
  destruct (Z.leb_spec (settles_at d) now) as [Hle|Hgt].
  - exfalso. set (l' := (remove_at (with_cursor l c) c).2) in *.
    destruct (sweep_spec now budget l') as (_ & Hle' & _); [by apply (ledger_wf_remove (with_cursor l c))|].
    pose proof (ledger_remove_at_length (with_cursor l c) c d Hd) as Hr. simpl in Hr. fold l' in Hr. lia.
  - destruct (IH (with_cursor l (S c)) Hwf Hne Hlen) as [E Hu]. split; [exact E|].
    intros [|j] Hj; [exists d; by rewrite around_zero|].
    destruct (Hu j ltac:(lia)) as (d' & Hd' & Hs). exists d'. split; [|done]. simpl in Hd'.
    subst c. rewrite around_step in Hd' by lia. exact Hd'.
Qed.

Lemma record_scan_finds (ds : list Debt) now rounds cur soonest :
  (ds <> [] /\ (0 < rounds)%nat) \/ soonest <> None -> (record_scan ds now rounds cur soonest).2 <> None.
Proof.
  revert cur soonest. induction rounds as [|rounds IH]; intros cur soonest Hor; simpl; [destruct Hor as [[_ Hr]|Hr]; [lia|done]|].
  set (c := if (length ds <=? cur)%nat then O else cur).
  destruct (ds !! c) as [d|] eqn:Hd.
  - destruct (settles_at d <=? now); simpl; [done|]. apply IH. right.
    destruct soonest as [[p at_]|]; [|done]. by destruct (settles_at d <? at_).
  - apply IH. destruct Hor as [[Hne _]|Hor]; [exfalso|by right].
    apply lookup_ge_None in Hd. change c with (wrapped (length ds) cur) in Hd.
    pose proof (wrapped_lt (length ds) cur ltac:(by destruct ds)). lia.
Qed.

(** Only a full ledger that forgets nothing refuses a debt. *)
Lemma record_refused l d now cap forget w l' : 1 <= cap ->
  record l d now cap forget = (Err w, l') -> cap <= Z.of_nat (length (debts l)) /\ forget = false.
Proof.
  intros Hcap. unfold record. destruct (position l _) as [pos|]; [done|].
  destruct (Z.leb_spec cap (Z.of_nat (length (debts l)))) as [Hfull|]; [|done].
  pose proof (record_scan_finds (debts l) now (Nat.min LEDGER_SCAN (length (debts l))) (cursor l) None) as Hf.
  destruct (record_scan _ _ _ _ _) as [c [[pos at_]|]]; simpl in Hf.
  - destruct forget; [by rewrite orb_true_r|]. done.
  - exfalso. apply Hf; [left|done]. destruct (debts l); [simpl in Hfull; lia|]. split; [done|]. simpl. lia.
Qed.

End LedgerLemmas.

(** ** Restoring a debt *)

Section RestoreLemmas.
Context {B : Type} `{BucketCoreLaws B}.

Lemma full_wait_enough (b : B) now :
  bk_capacity b * bk_period b <= bk_credit b now + full_wait b now * bk_amount b /\ 0 <= full_wait b now.
Proof.
  destruct (core_wait b (bk_capacity b) now) as (w & Hw & Hw0 & He); [lia|].
  unfold full_wait. rewrite Hw. simpl. done.
Qed.

(** Reserving a debt in chunks lowers the credit by all of it, or stops at a
    wait beyond the largest duration. *)
Lemma reserve_debt_spec fuel b debt now :
  0 < bk_capacity b -> 0 <= debt -> debt <= (Z.of_nat fuel) * bk_capacity b ->
  let b' := reserve_debt fuel b (bk_capacity b) debt now in
  bk_capacity b' = bk_capacity b /\ bk_amount b' = bk_amount b /\ bk_period b' = bk_period b /\
  (bk_credit b' now = bk_credit b now - debt * bk_period b \/ DURATION_MAX < full_wait b' now).
Proof.
  intros Hc. revert b Hc debt. induction fuel as [|fuel IH]; intros b Hc debt Hd Hf; simpl.
  - assert (debt = 0) as -> by lia. split_and!; [done..|]. left. lia.
  - destruct (Z.ltb_spec 0 debt) as [Hpos|Hz]; [|simpl; split_and!; [done..|left; assert (debt = 0) as -> by lia; lia]].
    rewrite (proj2 (Z.ltb_lt _ _)) by done. simpl.
    assert (Hchunk : 0 <= Z.min debt (bk_capacity b)) by lia.
    pose proof (core_reserve b _ DURATION_MAX now Hchunk) as Hr.
    destruct (reserve_at b _ _ now) as [[w|] b1].
    + destruct Hr as (Hcr & Hcap & Ha & Hp). rewrite <- Hcap.
      assert (Hrest : debt - Z.min debt (bk_capacity b1) <= Z.of_nat fuel * bk_capacity b1).
      { rewrite Hcap. rewrite Nat2Z.inj_succ in Hf. destruct (Z.min_spec debt (bk_capacity b)) as [[? ->]|[? ->]]; nia. }
      destruct (IH b1 ltac:(lia) (debt - Z.min debt (bk_capacity b1))) as (G1 & G2 & G3 & G4); [lia|done|].
      rewrite Hcap in *. split_and!; [congruence..|]. destruct G4 as [G4|G4]; [left|by right].
      rewrite G4, Hcr, Hp. ring.
    + destruct Hr as [-> Hr]. split_and!; [done..|]. right.
      destruct (core_wait b (Z.min debt (bk_capacity b)) now) as (w & Hw & _); [lia|].
      destruct (core_wait b (bk_capacity b) now) as (w' & Hw' & _); [lia|].
      pose proof (core_wait_mono b _ _ now w w' (Z.le_min_r _ _) Hw Hw'). specialize (Hr w Hw).
      unfold full_wait. rewrite Hw'. simpl. lia.
Qed.

Lemma restore_debt_capacity b config now settles : conf_ok config -> bk_capacity b = conf_capacity config ->
  bk_capacity (restore_debt b config now settles) = conf_capacity config.
Proof.
  intros (Hc0 & Ha0 & Hp0 & Hi) Hcap. unfold restore_debt, is_zero. destruct (_ =? 0); [done|].
  set (missing := div_up _ _). set (keep := sat_sub (conf_capacity config) missing).
  assert (Hk : 0 <= keep) by apply sat_sub_nonneg.
  set (b1 := if keep <? available_at b now then (acquire_up_to_at b (available_at b now - keep) now).2 else b).
  assert (Hb1 : bk_capacity b1 = conf_capacity config).
  { unfold b1. destruct (Z.ltb_spec keep (available_at b now)); [|done].
    pose proof (core_up_to b (available_at b now - keep) now) as Hu.
    destruct (acquire_up_to_at b _ now) as [k b']. simpl. destruct Hu as (_ & _ & -> & _); [lia|done]. }
  clearbody b1. clearbody keep. rewrite <- Hb1. set (debt := sat_sub missing (bk_capacity b1)). assert (Hd : 0 <= debt) by apply sat_sub_nonneg.
  assert (Hcb : 0 < bk_capacity b1) by (rewrite Hb1; done).
  destruct (reserve_debt_spec (Z.to_nat (debt / bk_capacity b1 + 1)) b1 debt now Hcb Hd) as (E & _).
  - pose proof (Z.div_pos debt (bk_capacity b1) Hd Hcb). rewrite Z2Nat.id by lia.
    pose proof (Z.mul_succ_div_gt debt (bk_capacity b1) Hcb). lia.
  - exact E.
Qed.

(** A fresh bucket made to owe is not full before its debt settles. *)
Lemma restore_debt_spec config now settles_at : conf_ok config ->
  let b := restore_debt (core_new config now : B) config now settles_at in
  settles_at - now <= full_wait b now \/ DURATION_MAX < full_wait b now.
Proof.
  intros Hok b. destruct (core_start (B := B) config now Hok) as (Hcap & Ha & Hp & Hcr).
  destruct Hok as (Hc0 & Ha0 & Hp0 & Hi). unfold b, restore_debt, is_zero. clear b.
  set (b := core_new config now) in *. unfold dur_sat_sub, sat_sub, as_nanos.
  pose proof (full_wait_enough b now) as [_ Hw0].
  destruct (Z.eqb_spec (Z.max 0 (settles_at - now)) 0) as [E|E]; [left; lia|].
  rewrite (Z.max_r 0 (settles_at - now)), (Z.max_l (refill_period config) 1) by lia.
  set (rem := settles_at - now) in *.
  set (missing := div_up (rem * refill_amount config) (refill_period config)).
  assert (Hm : rem * refill_amount config <= missing * refill_period config) by by apply div_up_enough.
  assert (Hrem : 0 < rem) by lia. assert (Hm0 : 0 < missing) by (clearbody missing; nia).
  set (keep := Z.max 0 (conf_capacity config - missing)).
  pose proof (core_available b now) as Hav.
  set (b1 := if keep <? available_at b now then (acquire_up_to_at b (available_at b now - keep) now).2 else b).
  assert (G1 : bk_capacity b1 = conf_capacity config /\ bk_amount b1 = refill_amount config /\
    bk_period b1 = refill_period config /\ bk_credit b1 now <= keep * refill_period config).
  { assert (Hfit : bk_credit b now = available_at b now * refill_period config).
    { rewrite Hav, Hcr, Hp, Z.div_mul by lia. rewrite Z.max_r by lia. done. }
    unfold b1. destruct (Z.ltb_spec keep (available_at b now)) as [Hk|Hk].
    - assert (Hn : 0 <= available_at b now - keep <= available_at b now) by lia.
      pose proof (core_up_to b _ now Hn) as Hu.
      destruct (acquire_up_to_at b _ now) as [k b']. destruct Hu as (-> & Hb & Hbc & Hba & Hbp). simpl.
      split_and!; [congruence..|]. rewrite Hb, Hp, Hfit. lia.
    - split_and!; [done..|]. rewrite Hfit. nia. }
  clearbody b1. destruct G1 as (Hc1 & Ha1 & Hp1 & Hcr1). rewrite <- Hc1.
  assert (Hcb : 0 < bk_capacity b1) by lia.
  set (debt := Z.max 0 (missing - bk_capacity b1)). assert (Hdebt : 0 <= debt) by lia.
  assert (Hfuel : debt <= Z.of_nat (Z.to_nat (debt / bk_capacity b1 + 1)) * bk_capacity b1).
  { pose proof (Z.div_pos debt (bk_capacity b1) Hdebt Hcb). rewrite Z2Nat.id by lia.
    pose proof (Z.mul_succ_div_gt debt (bk_capacity b1) Hcb). lia. }
  destruct (reserve_debt_spec _ b1 debt now Hcb Hdebt Hfuel) as (Hc2 & Ha2 & Hp2 & [Hcr2|Hbig]); [left|by right].
  set (b2 := reserve_debt _ _ _ _ _) in *. clearbody b2.
  destruct (full_wait_enough b2 now) as [He He0]. rewrite Hc2, Hp2, Ha2, Hcr2, Ha1, Hp1 in He.
  set (w := full_wait b2 now) in *. set (p := refill_period config) in *. set (a := refill_amount config) in *.
  assert (Hkeep : bk_capacity b1 - keep + debt = missing) by (unfold debt, keep; lia).
  assert (missing * p <= w * a); [|clearbody w missing; nia].
  rewrite <- Hkeep. clearbody debt keep w. nia.
Qed.

End RestoreLemmas.
