(* ===== verification/Shard.v ===== *)
(** * Shard (store.rs: [Entry], [Slot], [ShardMap])

    One shard of the store: a bucket per key in a vector, the index of their
    positions, the CLOCK hand that chooses what to evict, and the ledger of
    what was evicted while it was limited. *)

From S2P Require Import Prelude Decisions Bucket HashTable.
From S2P Require Ledger.

Definition CLOCK_SCAN : nat := 32.
Definition MIN_REFUSAL_WAIT : Duration := from_millis 1.

Record Entry (B : Type) := mkEntry { bucket : B; referenced : bool; last_seen_ms : Z }.
Arguments mkEntry {B}. Arguments bucket {B}. Arguments referenced {B}. Arguments last_seen_ms {B}.

Record Slot (K B : Type) := mkSlot { hash : Z; key : K; entry : Entry B }.
Arguments mkSlot {K B}. Arguments hash {K B}. Arguments key {K B}. Arguments entry {K B}.

Record ShardMap (T K B : Type) := mkShardMap {
  index : T;
  slots : list (Slot K B);
  hand : nat;
  sweep : nat;
  ledger : Ledger.Ledger T }.
Arguments mkShardMap {T K B}. Arguments index {T K B}. Arguments slots {T K B}.
Arguments hand {T K B}. Arguments sweep {T K B}. Arguments ledger {T K B}.

Section Entry.
Context {B : Type} `{Bucket B}.

Definition Entry_new (bucket : B) (now_ms : Z) : Entry B := mkEntry bucket false now_ms.

Definition touch (self : Entry B) (now_ms : Z) (track_idle : bool) : Entry B :=
  mkEntry (bucket self) true
    (if track_idle && (last_seen_ms self <? now_ms) then now_ms else last_seen_ms self).

Definition is_expired (self : Entry B) (now_ms ttl_ms : Z) : bool :=
  ttl_ms <=? sat_sub now_ms (last_seen_ms self).

Definition is_lossless (self : Entry B) (now : Duration) : bool :=
  bk_capacity (bucket self) <=? available_at (bucket self) now.

Definition recovers_in (self : Entry B) (now : Duration) : Duration :=
  default DURATION_MAX (time_until_at (bucket self) (bk_capacity (bucket self)) now).

Definition with_bucket (self : Entry B) (b : B) : Entry B := mkEntry b (referenced self) (last_seen_ms self).
Definition unreferenced (self : Entry B) : Entry B := mkEntry (bucket self) false (last_seen_ms self).

End Entry.

Section Shard.
Context {T : Type} `{HashTable T} {K : Type} `{EqDecision K} {B : Type} `{Bucket B}.
Abbreviation shard := (ShardMap T K B).

Definition new : shard := mkShardMap ht_new [] 0 0 Ledger.new.

Definition with_slots (self : shard) (slots : list (Slot K B)) : shard :=
  mkShardMap (index self) slots (hand self) (sweep self) (ledger self).
Definition with_hand (self : shard) (hand : nat) : shard :=
  mkShardMap (index self) (slots self) hand (sweep self) (ledger self).
Definition with_sweep (self : shard) (sweep : nat) : shard :=
  mkShardMap (index self) (slots self) (hand self) sweep (ledger self).
Definition with_ledger (self : shard) (ledger : Ledger.Ledger T) : shard :=
  mkShardMap (index self) (slots self) (hand self) (sweep self) ledger.

Definition position (self : shard) (hash_ : Z) (key_ : K) : option nat :=
  position_of (index self) (slots self) hash_
    (fun slot => (hash slot =? hash_) && bool_decide (key slot = key_)).

Definition get (self : shard) (hash_ : Z) (key_ : K) : option (Entry B) :=
  pos ← position self hash_ key_; entry <$> slots self !! pos.

(** What a caller does to the entry it was given. *)
Definition set_entry (self : shard) (pos : nat) (e : Entry B) : shard :=
  match slots self !! pos with
  | Some slot => with_slots self (<[pos := mkSlot (hash slot) (key slot) e]> (slots self))
  | None => self
  end.

Definition insert (self : shard) (hash_ : Z) (key_ : K) (e : Entry B) : shard :=
  let slot := mkSlot hash_ key_ e in
  mkShardMap (link hash (index self) (slots self) slot) (slots self ++ [slot])
    (hand self) (sweep self) (ledger self).

Definition remove_at (self : shard) (pos : nat) : option (Slot K B) * shard :=
  match slots self !! pos with
  | None => (None, self)
  | Some slot =>
      (Some slot, mkShardMap (unlink hash (index self) (slots self) pos) (swap_remove (slots self) pos)
                    (hand self) (sweep self) (ledger self))
  end.

Fixpoint sweep_idle (self : shard) (now : Duration) (now_ms ttl_ms : Z) (budget : nat) (reclaimed : nat)
    : nat * shard :=
  match budget with
  | O => (reclaimed, self)
  | S budget =>
      match slots self with
      | [] => (reclaimed, self)
      | _ =>
          let self := if (length (slots self) <=? sweep self)%nat then with_sweep self O else self in
          let expired :=
            match slots self !! sweep self with
            | Some slot => is_expired (entry slot) now_ms ttl_ms && is_lossless (entry slot) now
            | None => false
            end in
          if expired then sweep_idle (remove_at self (sweep self)).2 now now_ms ttl_ms budget (S reclaimed)
          else sweep_idle (with_sweep self (S (sweep self))) now now_ms ttl_ms budget reclaimed
      end
  end.

(** What the hand's scan has found so far. *)
Record Scan := mkScan {
  victim : option nat;
  first_recovered : option nat;
  limited : option (nat * bool * Duration);
  soonest : Duration }.

(** The scan of [evict_one]: it clears the reference bits it passes, stops at
    a full bucket not seen since the hand last passed, and otherwise remembers
    the first full one and the limited one to prefer. *)
Fixpoint scan (self : shard) (now : Duration) (rounds : nat) (found : Scan) : Scan * shard :=
  match rounds with
  | O => (found, self)
  | S rounds =>
      let self := if (length (slots self) <=? hand self)%nat then with_hand self O else self in
      let pos := hand self in
      match slots self !! pos with
      | Some slot =>
          let was_referenced := referenced (entry slot) in
          let self := set_entry self pos (unreferenced (entry slot)) in
          if is_lossless (entry slot) now then
            if negb was_referenced then
              (mkScan (Some pos) (first_recovered found) (limited found) (soonest found), self)
            else
              let found :=
                match first_recovered found with
                | None => mkScan (victim found) (Some pos) (limited found) (soonest found)
                | Some _ => found
                end in
              scan (with_hand self (S pos)) now rounds found
          else
            let recovers_in := recovers_in (entry slot) now in
            let better :=
              match limited found with
              | None => true
              | Some (_, other_referenced, _) => other_referenced && negb was_referenced
              end in
            let limited := if better then Some (pos, was_referenced, recovers_in) else limited found in
            let found :=
              mkScan (victim found) (first_recovered found) limited (Z.min (soonest found) recovers_in) in
            scan (with_hand self (S pos)) now rounds found
      | None => scan (with_hand self (S pos)) now rounds found
      end
  end.

Definition evict_one (self : shard) (now : Duration) (ledger_cap : Z) (forget : bool)
    : Result unit Duration * shard :=
  let len := length (slots self) in
  if (len =? 0)%nat then (Ok tt, self)
  else
    let '(found, self) := scan self now (Nat.min CLOCK_SCAN len) (mkScan None None None DURATION_MAX) in
    let refused := Err (Z.max (soonest found) MIN_REFUSAL_WAIT) in
    let chosen :=
      match (match victim found with Some pos => Some pos | None => first_recovered found end) with
      | Some pos => (Ok pos, self)
      | None =>
          match limited found with
          | None => (refused, self)
          | Some (pos, _, recovers_in) =>
              match slots self !! pos with
              | None => (refused, self)
              | Some slot =>
                  let debt := Ledger.mkDebt (hash slot) (dur_sat_add now recovers_in) in
                  match Ledger.record (ledger self) debt now ledger_cap forget with
                  | (Err ledger_wait, l) =>
                      (Err (Z.max (Z.min (soonest found) ledger_wait) MIN_REFUSAL_WAIT), with_ledger self l)
                  | (Ok _, l) => (Ok pos, with_ledger self l)
                  end
              end
          end
      end in
    match chosen with
    | (Ok pos, self) => (Ok tt, with_hand (remove_at self pos).2 (S pos))
    | (Err wait, self) => (Err wait, self)
    end.

End Shard.

(** ** Lemmas *)

Section ShardLemmas.
Context {T : Type} `{HashTableLaws T} {K : Type} `{EqDecision K} {B : Type} `{BucketCoreLaws B}.
Context (hash_one : K -> Z) (cap : Z).
Implicit Types (s : ShardMap T K B) (e : Entry B).

(** A slot without its reference bit and its time stamp. *)
Definition core (slot : Slot K B) : Z * K * B := (hash slot, key slot, bucket (entry slot)).

(** The index is the slots' positions, one slot per key, under the key's hash;
    slots and debts are bounded. *)
Definition shard_wf s : Prop :=
  indexed hash (index s) (slots s) /\ NoDup (key <$> slots s) /\
  Forall (fun slot => hash slot = hash_one (key slot) /\ 0 < bk_capacity (bucket (entry slot))) (slots s) /\
  Ledger.ledger_wf (ledger s) /\
  Z.of_nat (length (slots s)) <= cap /\ Z.of_nat (length (Ledger.debts (ledger s))) <= cap.

(** The shard knows that the key of [h] is not clear of its debt before [t]:
    from its bucket, or from the ledger. *)
Definition owes s (now : Duration) (h : Z) (t : Duration) : Prop :=
  Ledger.owed (ledger s) h t \/
  exists slot, slot ∈ slots s /\ hash slot = h /\ t <= now + full_wait (bucket (entry slot)) now.

(** Same buckets, index and ledger. *)
Definition same s s' : Prop :=
  index s = index s' /\ core <$> slots s = core <$> slots s' /\ ledger s = ledger s'.

Lemma same_refl s : same s s.
Proof. done. Qed.

Lemma same_sym s s' : same s s' -> same s' s.
Proof. unfold same. intuition congruence. Qed.

Lemma same_trans s1 s2 s3 : same s1 s2 -> same s2 s3 -> same s1 s3.
Proof. unfold same. intuition congruence. Qed.

Lemma core_projections (l l' : list (Slot K B)) : core <$> l = core <$> l' ->
  hash <$> l = hash <$> l' /\ key <$> l = key <$> l' /\ length l = length l'.
Proof.
  intros Hc. assert (Hp : forall {X} (f : Z * K * B -> X), (f ∘ core) <$> l = (f ∘ core) <$> l').
  { intros X f. by rewrite !list_fmap_compose, Hc. }
  split_and!; [apply (Hp _ (fun c => c.1.1))|apply (Hp _ (fun c => c.1.2))|].
  by rewrite <- (length_fmap core l), Hc, length_fmap.
Qed.

Lemma same_slot (l l' : list (Slot K B)) slot : core <$> l = core <$> l' -> slot ∈ l ->
  exists slot', slot' ∈ l' /\ core slot' = core slot.
Proof.
  intros Hc Hin. assert (Hi : core slot ∈ core <$> l') by (rewrite <- Hc; by apply list_elem_of_fmap_2).
  apply list_elem_of_fmap in Hi as (slot' & -> & Hs). eauto.
Qed.

Lemma shard_wf_same s s' : same s s' -> shard_wf s -> shard_wf s'.
Proof.
  intros (Hi & Hc & Hl) (Hidx & Hnd & Hall & Hled & Hcap & Hlen).
  destruct (core_projections _ _ Hc) as (Hh & Hk & Hn).
  split_and!; [rewrite <- Hi; by eapply indexed_same_hashes|by rewrite <- Hk| |by rewrite <- Hl|lia|by rewrite <- Hl].
  apply Forall_forall. intros slot Hslot.
  destruct (same_slot (slots s') (slots s) slot (eq_sym Hc) Hslot) as (slot' & Hin & [= E1 E2 E3]).
  rewrite Forall_forall in Hall. destruct (Hall slot' Hin) as [Ha Hb]. by rewrite <- E1, <- E2, <- E3.
Qed.

Lemma owes_same s s' now h t : same s s' -> owes s now h t -> owes s' now h t.
Proof.
  intros (Hi & Hc & Hl) [Ho|(slot & Hin & Hh & Ht)]; [left; by rewrite <- Hl|right].
  destruct (same_slot _ _ slot Hc Hin) as (slot' & Hin' & [= E1 E2 E3]).
  exists slot'. rewrite E1, E3. done.
Qed.

Lemma shard_wf_new : 0 <= cap -> shard_wf new.
Proof.
  intros Hcap. split_and!; [apply indexed_new|constructor|constructor|apply Ledger.ledger_wf_new|done..].
Qed.

(** ** Lookup *)

Lemma position_spec s k pos : shard_wf s ->
  position s (hash_one k) k = Some pos <-> exists slot, slots s !! pos = Some slot /\ key slot = k.
Proof.
  intros (Hidx & Hnd & Hall & _). rewrite Forall_forall in Hall.
  assert (Hf : forall p, position s (hash_one k) k = Some p -> exists slot, slots s !! p = Some slot /\ key slot = k).
  { intros p (slot & Hs & [_ Hk%bool_decide_eq_true]%andb_prop)%position_of_found. eauto. }
  split; [apply Hf|]. intros (slot & Hs & Hk). destruct (position s (hash_one k) k) as [p|] eqn:E.
  - destruct (Hf p eq_refl) as (slot' & Hs' & Hk'). f_equal. eapply (NoDup_lookup (key <$> slots s)); [done|..].
    + rewrite list_lookup_fmap, Hs'. simpl. by rewrite Hk'.
    + rewrite list_lookup_fmap, Hs. simpl. by rewrite Hk.
  - destruct (Hall slot) as [Hh _]; [by eapply list_elem_of_lookup_2|]. rewrite Hk in Hh.
    pose proof (position_of_missing _ _ _ _ _ Hidx E pos slot Hs Hh) as Hn. simpl in Hn.
    rewrite Hh, Z.eqb_refl, bool_decide_eq_true_2 in Hn by done. done.
Qed.

Lemma get_spec s k e : shard_wf s ->
  get s (hash_one k) k = Some e <-> exists slot, slot ∈ slots s /\ key slot = k /\ entry slot = e.
Proof.
  intros Hwf. unfold get. split.
  - destruct (position s (hash_one k) k) as [pos|] eqn:E; [|done]. simpl.
    apply position_spec in E as (slot & Hs & Hk); [|done]. rewrite Hs. intros [= <-].
    exists slot. split; [by eapply list_elem_of_lookup_2|done].
  - intros (slot & (pos & Hs)%list_elem_of_lookup & Hk & <-).
    assert (E : position s (hash_one k) k = Some pos) by (apply position_spec; eauto).
    rewrite E. simpl. by rewrite Hs.
Qed.

Lemma get_none s k : shard_wf s -> get s (hash_one k) k = None -> k ∉ key <$> slots s.
Proof.
  intros Hwf Hg (slot & -> & Hs)%list_elem_of_fmap.
  assert (E : get s (hash_one (key slot)) (key slot) = Some (entry slot)) by (apply get_spec; eauto). congruence.
Qed.

(** ** Changing, inserting and removing entries *)

Lemma set_entry_core s pos slot e : slots s !! pos = Some slot -> bucket e = bucket (entry slot) ->
  same s (set_entry s pos e).
Proof.
  intros Hs Hb. unfold set_entry. rewrite Hs. split_and!; [done| |done]. simpl.
  rewrite list_fmap_insert. replace (core (mkSlot (hash slot) (key slot) e)) with (core slot)
    by (unfold core; simpl; by rewrite Hb).
  symmetry. apply list_insert_id. by rewrite list_lookup_fmap, Hs.
Qed.

Lemma set_entry_wf s pos slot e : slots s !! pos = Some slot -> bk_capacity (bucket e) = bk_capacity (bucket (entry slot)) ->
  shard_wf s -> shard_wf (set_entry s pos e).
Proof.
  intros Hs Hb (Hidx & Hnd & Hall & Hled & Hcap & Hlen). unfold set_entry. rewrite Hs.
  assert (Hh : hash <$> slots s = hash <$> <[pos := mkSlot (hash slot) (key slot) e]> (slots s)).
  { rewrite list_fmap_insert. symmetry. apply list_insert_id. by rewrite list_lookup_fmap, Hs. }
  assert (Hk : key <$> slots s = key <$> <[pos := mkSlot (hash slot) (key slot) e]> (slots s)).
  { rewrite list_fmap_insert. symmetry. apply list_insert_id. by rewrite list_lookup_fmap, Hs. }
  split_and!; simpl; [by eapply indexed_same_hashes|by rewrite <- Hk| |done|by rewrite length_insert|done].
  apply Forall_insert; [done|]. simpl. rewrite Hb. rewrite Forall_forall in Hall. apply Hall.
  by eapply list_elem_of_lookup_2.
Qed.

Lemma insert_wf s k e : shard_wf s -> k ∉ key <$> slots s -> 0 < bk_capacity (bucket e) ->
  Z.of_nat (length (slots s)) < cap -> cap <= u32_max -> shard_wf (insert s (hash_one k) k e).
Proof.
  intros (Hidx & Hnd & Hall & Hled & Hcap & Hlen) Hk He Hl Hu. split_and!; simpl; [|..|done| |done].
  - apply indexed_link; [done|lia].
  - rewrite fmap_app. apply NoDup_app. split_and!; [done| |apply NoDup_singleton].
    intros k' Hin ->%list_elem_of_singleton. done.
  - apply Forall_app. split; [done|]. by constructor.
  - rewrite length_app. simpl. lia.
Qed.

Lemma remove_at_perm s pos slot : slots s !! pos = Some slot -> slots s ≡ₚ slot :: slots (remove_at s pos).2.
Proof. intros Hs. unfold remove_at. rewrite Hs. simpl. by apply swap_remove_perm. Qed.

Lemma remove_at_wf s pos : shard_wf s -> shard_wf (remove_at s pos).2.
Proof.
  intros (Hidx & Hnd & Hall & Hled & Hcap & Hlen). destruct (slots s !! pos) as [slot|] eqn:Hs.
  2:{ unfold remove_at. by rewrite Hs. }
  pose proof (remove_at_perm s pos slot Hs) as Hp.
  assert (Hl : ledger (remove_at s pos).2 = ledger s) by (unfold remove_at; by rewrite Hs).
  split_and!; rewrite ?Hl; [|..|done| |done].
  - unfold remove_at. rewrite Hs. simpl. by eapply indexed_unlink.
  - rewrite Hp in Hnd. simpl in Hnd. by apply NoDup_cons in Hnd as [_ Hnd].
  - rewrite Hp in Hall. by apply Forall_cons in Hall as [_ Hall].
  - rewrite Hp in Hcap. simpl in Hcap. lia.
Qed.

Lemma remove_at_owes s pos slot now h t : slots s !! pos = Some slot ->
  owes s now h t -> owes (remove_at s pos).2 now h t \/ (hash slot = h /\ t <= now + full_wait (bucket (entry slot)) now).
Proof.
  intros Hs Ho. assert (Hl : ledger (remove_at s pos).2 = ledger s) by (unfold remove_at; by rewrite Hs).
  destruct Ho as [Ho|(slot' & Hin & Hh & Ht)]; [left; left; by rewrite Hl|].
  rewrite (remove_at_perm s pos slot Hs) in Hin. apply elem_of_cons in Hin as [->|Hin]; [by right|].
  left. right. eauto.
Qed.

Lemma lossless_full s slot now : shard_wf s -> slot ∈ slots s -> is_lossless (entry slot) now = true ->
  full_wait (bucket (entry slot)) now = 0.
Proof.
  intros (_ & _ & Hall & _) Hin Hl%Z.leb_le. rewrite Forall_forall in Hall. destruct (Hall slot Hin) as [_ Hc].
  by apply core_full.
Qed.

(** Removing a key whose bucket is full forgets nothing. *)
Lemma remove_lossless_owes s pos slot now h t : shard_wf s -> slots s !! pos = Some slot ->
  is_lossless (entry slot) now = true -> now < t -> owes s now h t -> owes (remove_at s pos).2 now h t.
Proof.
  intros Hwf Hs Hl Ht Ho. destruct (remove_at_owes _ _ _ _ _ _ Hs Ho) as [|[_ Hle]]; [done|].
  rewrite (lossless_full s slot now) in Hle; [lia|done|by eapply list_elem_of_lookup_2|done].
Qed.

(** ** Making room *)

Lemma remove_at_length s pos slot : slots s !! pos = Some slot ->
  length (slots s) = S (length (slots (remove_at s pos).2)).
Proof. intros Hs. exact (Permutation_length (remove_at_perm s pos slot Hs)). Qed.

(** Every slot of [s'] was a slot of [s], with its bucket. *)
Definition shrinks s s' : Prop :=
  forall slot', slot' ∈ slots s' -> exists slot, slot ∈ slots s /\ core slot = core slot'.

Lemma shrinks_same s s' : same s s' -> shrinks s s'.
Proof. intros (_ & Hc & _) slot' Hin. by apply (same_slot (slots s') (slots s)). Qed.

Lemma shrinks_trans s1 s2 s3 : shrinks s1 s2 -> shrinks s2 s3 -> shrinks s1 s3.
Proof.
  intros H12 H23 slot3 H3'. destruct (H23 _ H3') as (slot2 & H2' & <-).
  destruct (H12 _ H2') as (slot1 & H1' & <-). eauto.
Qed.

Lemma shrinks_remove s pos : shrinks s (remove_at s pos).2.
Proof.
  intros slot' Hin. exists slot'. split; [|done]. destruct (slots s !! pos) as [slot|] eqn:Hs.
  - rewrite (remove_at_perm s pos slot Hs). by right.
  - unfold remove_at in Hin. by rewrite Hs in Hin.
Qed.

Lemma remove_at_ledger s pos : ledger (remove_at s pos).2 = ledger s.
Proof. unfold remove_at. by destruct (slots s !! pos). Qed.

Lemma sweep_idle_spec now now_ms ttl_ms budget : forall s reclaimed, shard_wf s ->
  let s' := (sweep_idle s now now_ms ttl_ms budget reclaimed).2 in
  shard_wf s' /\ (length (slots s') <= length (slots s))%nat /\ shrinks s s' /\ ledger s' = ledger s /\
  (forall h t, now < t -> owes s now h t -> owes s' now h t).
Proof.
  induction budget as [|budget IH]; intros s reclaimed Hwf; simpl.
  { split_and!; [done|done|by apply shrinks_same|done|done]. }
  destruct (slots s) as [|slot0 rest] eqn:Es.
  { split_and!; [done|simpl; rewrite ?Es; simpl; lia|by apply shrinks_same|done|done]. }
  rewrite <- Es. clear slot0 rest Es.
  set (sc := if (length (slots s) <=? sweep s)%nat then with_sweep s 0 else s).
  assert (Hsc : same s sc /\ slots sc = slots s) by (unfold sc; by destruct (_ <=? _)%nat).
  destruct Hsc as [Hsame Hslots]. assert (Hwfc := shard_wf_same _ _ Hsame Hwf). rewrite <- Hslots.
  assert (Hgo : forall s' n, shard_wf s' -> (length (slots s') <= length (slots sc))%nat -> shrinks sc s' ->
    ledger s' = ledger sc -> (forall h t, now < t -> owes sc now h t -> owes s' now h t) ->
    let s'' := (sweep_idle s' now now_ms ttl_ms budget n).2 in
    shard_wf s'' /\ (length (slots s'') <= length (slots sc))%nat /\ shrinks s s'' /\ ledger s'' = ledger s /\
    (forall h t, now < t -> owes s now h t -> owes s'' now h t)).
  { intros s' n Hs' Hl Hsh Hle Ho. destruct (IH s' n Hs') as (G1 & G2 & G3 & G4 & G5). split_and!; [done|lia|..].
    - eapply shrinks_trans; [by apply shrinks_same|]. by eapply shrinks_trans.
    - rewrite G4, Hle. by destruct Hsame as (_ & _ & ->).
    - intros h t Ht Hot. apply G5; [done|]. apply Ho; [done|]. by eapply owes_same. }
  destruct (slots sc !! sweep sc) as [slot|] eqn:E; [|apply Hgo; [done|done|by apply shrinks_same|done|done]].
  destruct (is_expired _ _ _ && is_lossless _ _) eqn:El; [|apply Hgo; [done|done|by apply shrinks_same|done|done]].
  apply andb_prop in El as [_ El]. pose proof (remove_at_length sc _ slot E) as Hl.
  apply Hgo; [by apply remove_at_wf|lia|apply shrinks_remove|apply remove_at_ledger|].
  intros h t Ht Ho. by eapply remove_lossless_owes.
Qed.

(** What a scan reports is true of the buckets, whose cores it never changes. *)
Definition found_ok s (now : Duration) (found : Scan) : Prop :=
  (forall p, victim found = Some p \/ first_recovered found = Some p ->
     exists c, (core <$> slots s) !! p = Some c /\ bk_capacity c.2 <= available_at c.2 now) /\
  (forall p r w, limited found = Some (p, r, w) ->
     exists c, (core <$> slots s) !! p = Some c /\ w = full_wait c.2 now).

Lemma found_ok_same s s' now found : same s s' -> found_ok s now found -> found_ok s' now found.
Proof. intros (_ & Hc & _). unfold found_ok. by rewrite Hc. Qed.

Lemma scan_spec now rounds : forall s found, found_ok s now found ->
  let '(f, s') := scan s now rounds found in same s s' /\ found_ok s now f.
Proof.
  induction rounds as [|rounds IH]; intros s found Hf; simpl; [done|].
  set (sc := if (length (slots s) <=? hand s)%nat then with_hand s 0 else s).
  assert (Hsc : same s sc) by (unfold sc; by destruct (_ <=? _)%nat).
  assert (Hgo : forall s' f, same sc s' -> found_ok s now f ->
    let '(f', s'') := scan s' now rounds f in same s s'' /\ found_ok s now f').
  { intros s' f Hs' Hf'. pose proof (same_trans _ _ _ Hsc Hs') as Hss. specialize (IH s' f (found_ok_same _ _ _ _ Hss Hf')).
    destruct (scan s' now rounds f) as [f' s'']. destruct IH as [G1 G2]. split; [by eapply same_trans|].
    eapply found_ok_same; [|exact G2]. by apply same_sym. }
  destruct (slots sc !! hand sc) as [slot|] eqn:E; [|by apply Hgo].
  assert (Hset : same sc (set_entry sc (hand sc) (unreferenced (entry slot)))) by by eapply set_entry_core.
  assert (Hcore : (core <$> slots s) !! hand sc = Some (core slot)).
  { destruct Hsc as (_ & -> & _). by rewrite list_lookup_fmap, E. }
  destruct Hf as [Hf1 Hf2]. destruct (is_lossless (entry slot) now) eqn:El.
  - assert (Hfull : exists c, (core <$> slots s) !! hand sc = Some c /\ bk_capacity c.2 <= available_at c.2 now).
    { exists (core slot). split; [done|]. by apply Z.leb_le in El. }
    destruct (referenced (entry slot)); simpl.
    + apply Hgo; [exact Hset|]. destruct (first_recovered found) eqn:Er; [rewrite <- Er in Hf1; exact (conj Hf1 Hf2)|].
      split; simpl; [|exact Hf2]. intros p [Hp|[= <-]]; [|done]. apply Hf1. by left.
    + split; [exact (same_trans _ _ _ Hsc Hset)|]. split; simpl; [|exact Hf2]. intros p [[= <-]|Hp]; [done|]. apply Hf1. by right.
  - apply Hgo; [exact Hset|]. split; simpl; [by apply Hf1|]. intros p r w.
    destruct (match limited found with None => true | Some (_, o, _) => o && negb (referenced (entry slot)) end).
    + intros [= <- _ <-]. by exists (core slot).
    + apply Hf2.
Qed.

Lemma core_lookup s p c : (core <$> slots s) !! p = Some c ->
  exists slot, slots s !! p = Some slot /\ hash slot = c.1.1 /\ key slot = c.1.2 /\ bucket (entry slot) = c.2.
Proof. rewrite list_lookup_fmap. intros (slot & Hs & ->)%fmap_Some. by exists slot. Qed.

(** The ways [evict_one] can end. *)
Inductive evicted s (now : Duration) (ledger_cap : Z) (forget : bool) :
    Result unit Duration * ShardMap T K B -> Prop :=
  | Nothing : slots s = [] -> evicted s now ledger_cap forget (Ok tt, s)
  | Recovered s1 pos slot :
      same s s1 -> slots s1 !! pos = Some slot -> is_lossless (entry slot) now = true ->
      evicted s now ledger_cap forget (Ok tt, with_hand (remove_at s1 pos).2 (S pos))
  | Moved s1 pos slot l :
      same s s1 -> slots s1 !! pos = Some slot ->
      Ledger.record (ledger s1) (Ledger.mkDebt (hash slot) (dur_sat_add now (full_wait (bucket (entry slot)) now)))
        now ledger_cap forget = (Ok tt, l) ->
      evicted s now ledger_cap forget (Ok tt, with_hand (remove_at (with_ledger s1 l) pos).2 (S pos))
  | Refused s1 w : same s s1 -> MIN_REFUSAL_WAIT <= w -> evicted s now ledger_cap forget (Err w, s1)
  | LedgerFull s1 w debt lw l :
      same s s1 -> MIN_REFUSAL_WAIT <= w ->
      Ledger.record (ledger s1) debt now ledger_cap forget = (Err lw, l) ->
      evicted s now ledger_cap forget (Err w, with_ledger s1 l).

Lemma evict_one_cases s now ledger_cap forget :
  evicted s now ledger_cap forget (evict_one s now ledger_cap forget).
Proof.
  unfold evict_one. destruct (Nat.eqb_spec (length (slots s)) 0) as [Hz|Hnz].
  { constructor. by apply length_zero_iff_nil. }
  set (none := mkScan None None None DURATION_MAX).
  assert (Hnone : found_ok s now none) by (split; [intros p [[=]|[=]]|intros p r w [=]]).
  pose proof (scan_spec now (Nat.min CLOCK_SCAN (length (slots s))) s none Hnone) as Hscan.
  destruct (scan s now _ none) as [f s1]. destruct Hscan as [Hsame Hf].
  apply (found_ok_same _ _ _ _ Hsame) in Hf as [Hf1 Hf2].
  destruct (match victim f with Some pos => Some pos | None => first_recovered f end) as [pos|] eqn:Ev.
  - destruct (Hf1 pos) as (c & Hc & Hl); [destruct (victim f); auto|].
    apply core_lookup in Hc as (slot & Hs & _ & _ & Hb).
    apply (Recovered _ _ _ _ s1 pos slot); [done|done|]. apply Z.leb_le. by rewrite Hb.
  - destruct (limited f) as [[[pos r] w]|] eqn:El; [|apply Refused; [done|lia]].
    destruct (Hf2 pos r w eq_refl) as (c & Hc & ->).
    apply core_lookup in Hc as (slot & Hs & _ & _ & <-). rewrite Hs.
    destruct (Ledger.record _ _ _ _ _) as [[[]|lw] l] eqn:Er.
    + by eapply Moved.
    + eapply LedgerFull; [done|lia|done].
Qed.

Lemma with_ledger_wf s l : shard_wf s -> Ledger.ledger_wf l ->
  Z.of_nat (length (Ledger.debts l)) <= cap -> shard_wf (with_ledger s l).
Proof. intros (? & ? & ? & _ & ? & _) Hl Hlen. by split_and!. Qed.

Lemma same_length s s' : same s s' -> length (slots s') = length (slots s).
Proof. intros (_ & Hc & _). by apply core_projections in Hc as (_ & _ & ->). Qed.

(** Moving a limited key to the ledger keeps what it owes. *)
Lemma moved_owes s pos slot l now h t :
  slots s !! pos = Some slot -> t <= DURATION_MAX ->
  (forall h t, now < t -> Ledger.owed (ledger s) h t -> Ledger.owed l h t) ->
  Ledger.owed l (hash slot) (dur_sat_add now (full_wait (bucket (entry slot)) now)) ->
  now < t -> owes s now h t -> owes (remove_at (with_ledger s l) pos).2 now h t.
Proof.
  intros Hs Hmax Hkeep (d & Hd & Hdh & Hdt) Ht Ho.
  assert (Ho2 : owes (with_ledger s l) now h t) by (destruct Ho as [Ho|Ho]; [left; simpl; by apply Hkeep|by right]).
  assert (Hs2 : slots (with_ledger s l) !! pos = Some slot) by done.
  destruct (remove_at_owes _ pos slot now h t Hs2 Ho2) as [|[<- Hle]]; [done|].
  left. exists d. unfold remove_at. simpl. rewrite Hs. simpl. split_and!; [done|done|].
  unfold dur_sat_add, sat_add in Hdt. lia.
Qed.

(** Evicting one key: a full bucket, or a limited one whose debt the ledger
    takes. Without [forget] every unsettled debt survives; a refusal leaves the
    slots alone and asks for at least a millisecond. *)
Lemma evict_one_spec s now ledger_cap forget : shard_wf s -> cap <= u32_max -> ledger_cap <= cap ->
  let '(r, s') := evict_one s now ledger_cap forget in
  shard_wf s' /\ shrinks s s' /\
  (forget = false -> forall h t, now < t <= DURATION_MAX -> owes s now h t -> owes s' now h t) /\
  match r with
  | Ok _ => slots s = [] \/ length (slots s) = S (length (slots s'))
  | Err w => length (slots s') = length (slots s) /\ MIN_REFUSAL_WAIT <= w /\
      length (Ledger.debts (ledger s')) = length (Ledger.debts (ledger s))
  end.
Proof.
  intros Hwf Hu Hlc. pose proof Hwf as (_ & _ & _ & Hled & _ & Hlen).
  destruct (evict_one_cases s now ledger_cap forget)
    as [Hnil|s1 pos slot Hsame Hs Hl|s1 pos slot l Hsame Hs Hrec|s1 w Hsame Hw|s1 w d lw l Hsame Hw Hrec];
    [split_and!; [done|by apply shrinks_same|done|by left]|..];
    pose proof (shard_wf_same _ _ Hsame Hwf) as Hwf1; pose proof (same_length _ _ Hsame) as Hn;
    pose proof (shrinks_same _ _ Hsame) as Hsh;
    assert (Howes : forall h t, owes s now h t -> owes s1 now h t) by (intros h t; by apply owes_same).
  - pose proof (remove_at_length s1 pos slot Hs). split_and!; [by apply (remove_at_wf s1)| | |right; simpl; lia].
    + exact (shrinks_trans _ _ _ Hsh (shrinks_remove s1 pos)).
    + intros _ h t [Ht _] Ho. apply (remove_lossless_owes s1 pos slot now h t); auto.
  - destruct Hsame as (_ & _ & Hle). rewrite Hle in Hled, Hlen.
    destruct (Ledger.record_result _ _ _ _ _ _ _ Hrec Hled) as (Hlwf & Hll & _ & Hd & Hkeep); [lia|].
    assert (Hwf2 : shard_wf (with_ledger s1 l)) by (apply with_ledger_wf; [done|done|lia]).
    pose proof (remove_at_length (with_ledger s1 l) pos slot Hs) as Hrl. simpl in Hrl.
    split_and!; [by apply (remove_at_wf (with_ledger s1 l))| | |right; simpl; lia].
    + exact (shrinks_trans _ _ _ Hsh (shrinks_remove (with_ledger s1 l) pos)).
    + intros Hforget h t [Ht Hmax] Ho. apply (moved_owes s1 pos slot l now h t); auto.
  - split_and!; [done|done|by auto|done|done|]. by destruct Hsame as (_ & _ & <-).
  - destruct Hsame as (_ & _ & Hle). rewrite Hle in Hled, Hlen.
    destruct (Ledger.record_result _ _ _ _ _ _ _ Hrec Hled) as (Hlwf & Hll & _ & Hds); [lia|].
    split_and!; [apply with_ledger_wf; [done|done|by rewrite Hds]|exact Hsh| |done|done|simpl; by rewrite Hds, Hle].
    intros _ h t _ Ho. apply Howes in Ho as [(d' & Hd' & Hx)|Ho]; [left; exists d'; simpl; by rewrite Hds|by right].
Qed.

(** The ledger learns only hashes of slots. *)
Lemma evict_one_known s now ledger_cap forget h : shard_wf s -> cap <= u32_max ->
  Ledger.known (ledger (evict_one s now ledger_cap forget).2) h ->
  Ledger.known (ledger s) h \/ exists slot, slot ∈ slots s /\ hash slot = h.
Proof.
  intros Hwf Hu. pose proof Hwf as (_ & _ & _ & Hled & _ & Hlen).
  destruct (evict_one_cases s now ledger_cap forget)
    as [Hnil|s1 pos slot Hsame Hs Hl|s1 pos slot l Hsame Hs Hrec|s1 w Hsame Hw|s1 w d lw l Hsame Hw Hrec]; [by left|..];
    pose proof (shrinks_same _ _ Hsame) as Hsh;
    destruct Hsame as (_ & _ & Hle); rewrite Hle in Hled, Hlen; simpl.
  - rewrite remove_at_ledger, Hle. by left.
  - rewrite remove_at_ledger. simpl. rewrite Hle.
    destruct (Ledger.record_result _ _ _ _ _ _ _ Hrec Hled) as (_ & _ & Hk & _); [lia|].
    intros [Hk'| ->]%Hk; [by left|right]. simpl.
    destruct (Hsh slot) as (slot' & Hin & [= E _ _]); [by eapply list_elem_of_lookup_2|]. eauto.
  - rewrite Hle. by left.
  - rewrite Hle. destruct (Ledger.record_result _ _ _ _ _ _ _ Hrec Hled) as (_ & _ & _ & Hds); [lia|].
    unfold Ledger.known. rewrite Hds. by left.
Qed.

Lemma shrinks_with_ledger s l : shrinks s (with_ledger s l).
Proof. intros slot Hin. by exists slot. Qed.

(** ** One place per hash

    When only one key has the hash [h], the shard never holds both its bucket
    and a debt of it. *)
Definition exclusive s (h : Z) : Prop :=
  (forall slot, slot ∈ slots s -> hash slot <> h) \/ ~ Ledger.known (ledger s) h.

Lemma shrinks_hash s s' h : shrinks s s' -> (forall slot, slot ∈ slots s -> hash slot <> h) ->
  forall slot, slot ∈ slots s' -> hash slot <> h.
Proof. intros Hsh Hs slot' Hin. destruct (Hsh _ Hin) as (slot & Hin' & [= E _ _]). rewrite <- E. auto. Qed.

Lemma exclusive_shrinks s s' h : shrinks s s' ->
  (Ledger.known (ledger s') h -> Ledger.known (ledger s) h) -> exclusive s h -> exclusive s' h.
Proof. intros Hsh Hk [He|He]; [left; by eapply shrinks_hash|right; auto]. Qed.

Lemma same_hash_slot s i j slot slot' h :
  (forall k k', hash_one k = h -> hash_one k' = h -> k = k') -> shard_wf s ->
  slots s !! i = Some slot -> slots s !! j = Some slot' -> hash slot = h -> hash slot' = h -> i = j.
Proof.
  intros Hinj (_ & Hnd & Hall & _) Hi Hj Hh Hh'. rewrite Forall_forall in Hall.
  destruct (Hall slot) as [E _]; [by eapply list_elem_of_lookup_2|].
  destruct (Hall slot') as [E' _]; [by eapply list_elem_of_lookup_2|].
  eapply (NoDup_lookup (key <$> slots s)); [done|..]; rewrite list_lookup_fmap, ?Hi, ?Hj; simpl; [done|].
  f_equal. apply Hinj; congruence.
Qed.

Lemma removed_hash s pos slot h :
  (forall k k', hash_one k = h -> hash_one k' = h -> k = k') -> shard_wf s ->
  slots s !! pos = Some slot -> hash slot = h -> forall slot', slot' ∈ slots (remove_at s pos).2 -> hash slot' <> h.
Proof.
  intros Hinj Hwf Hs Hh slot' Hin Hh'. pose proof (remove_at_perm s pos slot Hs) as Hp.
  destruct Hwf as (Hidx & Hnd & Hall & _). rewrite Hp in Hnd. simpl in Hnd. apply NoDup_cons in Hnd as [Hno _].
  rewrite Forall_forall in Hall. apply Hno, list_elem_of_fmap. exists slot'. split; [|done].
  apply Hinj; [rewrite <- Hh; symmetry; apply Hall; by eapply list_elem_of_lookup_2|].
  rewrite <- Hh'. symmetry. apply Hall. rewrite Hp. by right.
Qed.

Lemma evict_one_exclusive s now ledger_cap forget h :
  (forall k k', hash_one k = h -> hash_one k' = h -> k = k') ->
  shard_wf s -> cap <= u32_max -> ledger_cap <= cap -> exclusive s h ->
  exclusive (evict_one s now ledger_cap forget).2 h.
Proof.
  intros Hinj Hwf Hu Hlc He. pose proof Hwf as (_ & _ & _ & Hled & _ & Hlen).
  destruct (evict_one_cases s now ledger_cap forget)
    as [Hnil|s1 pos slot Hsame Hs Hl|s1 pos slot l Hsame Hs Hrec|s1 w Hsame Hw|s1 w d lw l Hsame Hw Hrec]; [done|..];
    pose proof (shard_wf_same _ _ Hsame Hwf) as Hwf1; pose proof (shrinks_same _ _ Hsame) as Hsh;
    destruct Hsame as (_ & _ & Hle); rewrite Hle in Hled, Hlen; simpl.
  - eapply exclusive_shrinks; [exact (shrinks_trans _ _ _ Hsh (shrinks_remove s1 pos))| |done].
    simpl. by rewrite remove_at_ledger, Hle.
  - destruct (Ledger.record_result _ _ _ _ _ _ _ Hrec Hled) as (Hlwf & Hll & Hk & _); [lia|].
    assert (Hwf2 : shard_wf (with_ledger s1 l)) by (apply with_ledger_wf; [done|done|lia]).
    pose proof (remove_at_ledger (with_ledger s1 l) pos) as Hledger.
    destruct (decide (hash slot = h)) as [Hh|Hh].
    + left. by apply (removed_hash (with_ledger s1 l) pos slot h Hinj).
    + apply (exclusive_shrinks s); [exact (shrinks_trans _ _ _ Hsh (shrinks_remove (with_ledger s1 l) pos))| |done].
      simpl. rewrite Hledger. intros [Hk'| ->]%Hk; [by rewrite Hle|done].
  - apply (exclusive_shrinks s); [done| |done]. by rewrite Hle.
  - destruct (Ledger.record_result _ _ _ _ _ _ _ Hrec Hled) as (_ & _ & _ & Hds); [lia|].
    apply (exclusive_shrinks s); [done| |done]. unfold Ledger.known. simpl. by rewrite Hds, Hle.
Qed.

(** *** Refusals *)

Lemma sweep_idle_keeps now now_ms ttl_ms budget : forall s reclaimed, shard_wf s ->
  let s' := (sweep_idle s now now_ms ttl_ms budget reclaimed).2 in
  length (slots s') = length (slots s) -> slots s' = slots s /\ hand s' = hand s.
Proof.
  induction budget as [|budget IH]; intros s reclaimed Hwf; simpl; [done|].
  destruct (slots s) as [|slot0 rest] eqn:Es; [simpl; by rewrite Es|].
  rewrite <- Es. clear slot0 rest Es.
  set (sc := if (length (slots s) <=? sweep s)%nat then with_sweep s 0 else s).
  assert (Hsc : slots sc = slots s /\ hand sc = hand s /\ shard_wf sc) by (unfold sc; by destruct (_ <=? _)%nat).
  clearbody sc. destruct Hsc as (Hslots & Hhand & Hwfc). rewrite <- Hslots, <- Hhand.
  destruct (slots sc !! sweep sc) as [slot|] eqn:E; [|by apply (IH (with_sweep sc _))].
  destruct (is_expired _ _ _ && is_lossless _ _); [|by apply (IH (with_sweep sc _))].
  intros Hl. exfalso. pose proof (remove_at_length sc _ slot E) as Hr.
  destruct (sweep_idle_spec now now_ms ttl_ms budget _ (S reclaimed) (remove_at_wf sc (sweep sc) Hwfc)) as (_ & Hle & _). lia.
Qed.

(** The scan finds nothing full only if all it passes is limited. *)
Lemma scan_limited now (cores : list (Z * K * B)) rounds : cores <> [] -> forall s found, core <$> slots s = cores ->
  let f := (scan s now rounds found).1 in
  victim f = None -> first_recovered f = None ->
  first_recovered found = None /\ ((0 < rounds)%nat \/ limited found <> None -> limited f <> None) /\
  forall j, (j < rounds)%nat -> exists c, cores !! around (length cores) (hand s) j = Some c /\
    available_at c.2 now < bk_capacity c.2.
Proof.
  intros Hne. assert (Hn0 : length cores <> O) by (by destruct cores).
  induction rounds as [|rounds IH]; intros s found Hc; simpl.
  { intros _ Hr. split_and!; [done|intros [|]; [lia|done]|lia]. }
  assert (Hlen : length (slots s) = length cores) by (by rewrite <- Hc, length_fmap).
  pose proof (wrapped_lt (length cores) (hand s) Hn0) as Hlt. set (c := wrapped (length cores) (hand s)) in *.
  assert (Hsc : (if (length (slots s) <=? hand s)%nat then with_hand s 0 else s) = with_hand s c).
  { subst c. unfold wrapped. rewrite Hlen. destruct (_ <=? _)%nat; [done|by destruct s]. }
  rewrite Hsc. simpl. destruct (lookup_lt_is_Some_2 (slots s) c ltac:(lia)) as [slot Hs]. rewrite Hs.
  assert (Hset : core <$> slots (with_hand (set_entry (with_hand s c) c (unreferenced (entry slot))) (S c)) = cores).
  { rewrite <- Hc. symmetry. apply (set_entry_core (with_hand s c) c slot _ Hs). by destruct (entry slot). }
  assert (Hhd : hand (with_hand (set_entry (with_hand s c) c (unreferenced (entry slot))) (S c)) = S c) by done.
  assert (Hat : cores !! around (length cores) (hand s) 0 = Some (core slot))
    by (rewrite around_zero by done; fold c; by rewrite <- Hc, list_lookup_fmap, Hs).
  destruct (is_lossless (entry slot) now) eqn:El.
  - destruct (referenced (entry slot)); simpl; [|done]. intros Hv Hf. exfalso.
    destruct (IH _ _ Hset Hv Hf) as [Hr _]. destruct (first_recovered found) eqn:E; simpl in Hr; congruence.
  - intros Hv Hf. destruct (IH _ _ Hset Hv Hf) as (Hr & Hl & Hj). simpl in Hr, Hl. split_and!; [done| |].
    + intros _. apply Hl. right. destruct (match limited found with None => true | Some (_, o, _) => _ end) eqn:E; [done|].
      by destruct (limited found).
    + intros [|j] Hjlt; [exists (core slot); split; [done|]; by apply Z.leb_gt in El|].
      destruct (Hj j ltac:(lia)) as (c' & Hc' & Hx). exists c'. split; [|done].
      rewrite Hhd in Hc'. subst c. by rewrite around_step in Hc'.
Qed.

(** The slots the hand comes to next are limited. *)
Definition limited_slots s (now : Duration) (n : nat) : Prop :=
  forall j, (j < n)%nat -> exists slot, slots s !! around (length (slots s)) (hand s) j = Some slot /\
    is_lossless (entry slot) now = false.

(** An eviction fails only when the hand finds nothing full and the ledger is
    full and forgets nothing. *)
Lemma evict_one_refused s now ledger_cap forget w s' : 1 <= ledger_cap ->
  evict_one s now ledger_cap forget = (Err w, s') ->
  limited_slots s now (Nat.min CLOCK_SCAN (length (slots s))) /\ forget = false /\
  ledger_cap <= Z.of_nat (length (Ledger.debts (ledger s))).
Proof.
  intros Hcap. unfold evict_one. destruct (Nat.eqb_spec (length (slots s)) 0) as [|Hnz]; [done|].
  assert (Hcn : core <$> slots s <> []) by (by destruct (slots s)).
  set (n := Nat.min CLOCK_SCAN (length (slots s))).
  assert (Hn : (0 < n)%nat) by (subst n; unfold CLOCK_SCAN; lia). clearbody n.
  pose proof (scan_limited now _ n Hcn s (mkScan None None None DURATION_MAX) eq_refl) as Hsl.
  assert (Hnone : found_ok s now (mkScan None None None DURATION_MAX)) by (split; [intros p [[=]|[=]]|intros p r w0 [=]]).
  pose proof (scan_spec now n s _ Hnone) as Hscan.
  destruct (scan s now _ _) as [f s1]. destruct Hscan as [Hsame Hf]. simpl in Hsl.
  apply (found_ok_same _ _ _ _ Hsame) in Hf as [_ Hf2].
  destruct (victim f) as [v|]; [done|]. destruct (first_recovered f) as [r|]; [done|].
  destruct (Hsl eq_refl eq_refl) as (_ & Hlim & Hj). clear Hsl.
  destruct (limited f) as [[[pos r] rin]|] eqn:El.
  2:{ exfalso. apply Hlim; [by left|done]. }
  destruct (Hf2 pos r rin eq_refl) as (c & Hc & ->). apply core_lookup in Hc as (slot & Hs & _). rewrite Hs.
  destruct (Ledger.record _ _ _ _ _) as [[[]|lw] l] eqn:Er; [done|]. intros _.
  apply Ledger.record_refused in Er as [Hled Hforget]; [|done]. split_and!; [|done|by destruct Hsame as (_ & _ & ->)].
  intros j Hjlt. destruct (Hj j Hjlt) as (c' & Hc' & Hx). rewrite length_fmap in Hc'.
  rewrite list_lookup_fmap in Hc'. apply fmap_Some in Hc' as (slot' & Hs' & ->).
  exists slot'. split; [done|]. by apply Z.leb_gt.
Qed.

End ShardLemmas.
