(* ===== verification/Store.v ===== *)
(** * Store (store.rs)

    The sharded map of a per-key limiter. A key's hash picks its shard and is
    what the shard's index and ledger are searched by; the hasher is a
    parameter. A shard is behind a read-write lock: an operation is one or two
    locked sections, and the sections of concurrent operations interleave. *)

From S2P Require Import Prelude Decisions Bucket HashTable Shard Eviction.
From S2P Require Ledger.

Definition SHARD_SHIFT : Z := 40.
Definition MAX_SHARDS : Z := Z.shiftl 1 16.
Definition MAX_KEYS_PER_SHARD : Z := Z.shiftl 1 14.
Definition TTL_SWEEP : nat := 8.
Definition MAX_SLOTS : Z := u32_max.

(** [usize::next_power_of_two] of a positive number. *)
Definition next_power_of_two (n : Z) : Z := Z.shiftl 1 (Z.log2_up n).

Definition millis (now : Duration) : Z := to_u64_or_max (as_millis now).

(** What a store does with its shards, fixed when it is built. *)
Record Settings := mkSettings {
  per_shard_cap : Z;
  idle_ttl_ms : option Z;
  forget_debt : bool }.

Record Store (T K B : Type) := mkStore {
  shards : list (ShardMap T K B);
  shard_mask : Z;
  settings : Settings }.
Arguments mkStore {T K B}. Arguments shards {T K B}. Arguments shard_mask {T K B}. Arguments settings {T K B}.

Section Store.
Context {T : Type} `{HashTable T} {K : Type} `{EqDecision K} {B : Type} `{Bucket B} `{BucketCore B}.
Context (hash_one : K -> Z).
Abbreviation shard := (ShardMap T K B).
Abbreviation store := (Store T K B).

Definition new_settings (eviction : Eviction) (min_idle : Duration) (shard_count : Z) : Settings := {|
  per_shard_cap :=
    match max_keys eviction with
    | None => MAX_SLOTS
    | Some max => clamp (div_up max shard_count) 1 MAX_SLOTS
    end;
  idle_ttl_ms :=
    (fun ttl => sat_add u64_max (to_u64_or_max (div_up (as_nanos (Z.max ttl min_idle)) 1000000)) 1)
      <$> idle_ttl eviction;
  forget_debt := match when_full eviction with ForgetDebt => true | RefuseNew => false end |}.

Definition shard_count_for (shards : Z) (eviction : Eviction) : Z :=
  let for_cap := match max_keys eviction with None => 1 | Some max => div_up max MAX_KEYS_PER_SHARD end in
  next_power_of_two (clamp (Z.max shards for_cap) 1 MAX_SHARDS).

Definition new (shards : Z) (eviction : Eviction) (min_idle : Duration) : store :=
  let shard_count := shard_count_for shards eviction in
  mkStore (replicate (Z.to_nat shard_count) Shard.new) (shard_count - 1)
    (new_settings eviction min_idle shard_count).

Definition shard_count (self : store) : Z := Z.of_nat (length (shards self)).

(** [self.shards[index]]: [None] where the index panics. *)
Definition shard_index (self : store) (hash : Z) : nat :=
  Z.to_nat (Z.land (Z.shiftr hash SHARD_SHIFT) (shard_mask self)).

(** A locked section on the shard of a hash. *)
Definition locked {R} (self : store) (hash : Z) (section : shard -> R * shard) : option (R * store) :=
  s ← shards self !! shard_index self hash;
  let '(r, s) := section s in
  Some (r, mkStore (<[shard_index self hash := s]> (shards self)) (shard_mask self) (settings self)).

(** ** Locked sections *)

Section Sections.
Context (set : Settings).

(** An operation on the bucket of a key that is there; [keep] is what becomes
    of the entry around it. *)
Definition on_entry {R} (keep : Entry B -> Entry B) (op : B -> R * B) (hash : Z) (key : K) (s : shard)
    : option R * shard :=
  match (pos ← Shard.position s hash key; slot ← slots s !! pos; Some (pos, slot)) with
  | None => (None, s)
  | Some (pos, slot) =>
      let e := keep (entry slot) in
      let '(r, b) := op (bucket e) in
      (Some r, set_entry s pos (with_bucket e b))
  end.

Definition touched (now : Duration) (e : Entry B) : Entry B :=
  touch e (millis now) (match idle_ttl_ms set with Some _ => true | None => false end).

(** Under the read lock: the key's own entry, if it has one. *)
Definition fast_path {R} (now : Duration) (op : B -> R * B) (hash : Z) (key : K) (s : shard) : option R * shard :=
  on_entry (touched now) op hash key s.

Definition make_room (now : Duration) (s : shard) : Result unit Duration * shard :=
  let s :=
    match idle_ttl_ms set with
    | Some ttl_ms => (sweep_idle s now (millis now) ttl_ms TTL_SWEEP 0).2
    | None => s
    end in
  let s := with_ledger s (Ledger.sweep (ledger s) now Ledger.LEDGER_SCAN) in
  if per_shard_cap set <=? Z.of_nat (length (slots s)) then evict_one s now (per_shard_cap set) (forget_debt set)
  else (Ok tt, s).

(** Under the write lock: looks again, takes what the key owes, makes room,
    and inserts a bucket that owes it. *)
Definition slow_path {R} (now : Duration) (config : BucketConf) (op : B -> R * B) (hash : Z) (key : K) (s : shard)
    : Result R Duration * shard :=
  match fast_path now op hash key s with
  | (Some r, s) => (Ok r, s)
  | (None, s) =>
      let '(owed, l) := Ledger.take (ledger s) hash in
      match make_room now (with_ledger s l) with
      | (Err wait, s) =>
          (Err wait,
           match owed with
           | Some settles_at =>
               with_ledger s (Ledger.record (ledger s) (Ledger.mkDebt hash settles_at) now u64_max false).2
           | None => s
           end)
      | (Ok _, s) =>
          let b := core_new config now in
          let b := match owed with Some settles_at => Ledger.restore_debt b config now settles_at | None => b end in
          let '(r, b) := op b in
          (Ok r, insert s hash key (with_bucket (Entry_new b (millis now)) b))
      end
  end.

(** A bucket as an operation would see it, without creating one. *)
Definition view_of (now : Duration) (config : BucketConf) (hash : Z) (key : K) (s : shard) : B :=
  match get s hash key with
  | Some e => bucket e
  | None =>
      let fresh := core_new config now in
      match (pos ← Ledger.position (ledger s) hash; Ledger.debts (ledger s) !! pos) with
      | Some debt => Ledger.restore_debt fresh config now (Ledger.settles_at debt)
      | None => fresh
      end
  end.

Definition refund_fast (cost hash : Z) (key : K) (s : shard) : option bool * shard :=
  match on_entry id (fun b => (tt, bk_refund b cost)) hash key s with
  | (Some _, s) => (Some true, s)
  | (None, s) =>
      (match Ledger.position (ledger s) hash with None => Some false | Some _ => None end, s)
  end.

Definition refund_slow (cost : Z) (config : BucketConf) (hash : Z) (key : K) (s : shard) : bool * shard :=
  match on_entry id (fun b => (tt, bk_refund b cost)) hash key s with
  | (Some _, s) => (true, s)
  | (None, s) => let '(known, l) := Ledger.pay_down (ledger s) hash cost config in (known, with_ledger s l)
  end.

Definition remove_section (hash : Z) (key : K) (s : shard) : bool * shard :=
  let '(debt, l) := Ledger.take (ledger s) hash in
  let s := with_ledger s l in
  let debt := match debt with Some _ => true | None => false end in
  match Shard.position s hash key with
  | Some pos => let '(slot, s) := remove_at s pos in (match slot with Some _ => true | None => debt end, s)
  | None => (debt, s)
  end.

End Sections.

(** ** The operations of the store *)

(** Two sections, one after the other, on the same shard. *)
Definition then_locked {R A} (r : option (option R * store)) (hash : Z) (done : R -> A) (section : shard -> A * shard)
    : option (A * store) :=
  '(r, self) ← r;
  match r with
  | Some r => Some (done r, self)
  | None => locked self hash section
  end.

Definition with_or_insert {R} (self : store) (key : K) (now : Duration) (config : BucketConf) (op : B -> R * B)
    : option (Result R Duration * store) :=
  let hash := hash_one key in
  then_locked (locked self hash (fast_path (settings self) now op hash key)) hash Ok
    (slow_path (settings self) now config op hash key).

Definition with_existing {R} (self : store) (key : K) (op : B -> R * B) : option (option R * store) :=
  locked self (hash_one key) (on_entry id op (hash_one key) key).

Definition view {R} (self : store) (key : K) (now : Duration) (config : BucketConf) (op : B -> R) : option R :=
  s ← shards self !! shard_index self (hash_one key);
  Some (op (view_of now config (hash_one key) key s)).

Definition refund (self : store) (key : K) (cost : Z) (config : BucketConf) : option (bool * store) :=
  let hash := hash_one key in
  then_locked (locked self hash (refund_fast cost hash key)) hash id (refund_slow cost config hash key).

Definition remove (self : store) (key : K) : option (bool * store) :=
  locked self (hash_one key) (remove_section (hash_one key) key).

(** Each shard is cleared under its own lock. *)
Definition clear_shard (self : store) (i : nat) : store :=
  mkStore (<[i := Shard.new]> (shards self)) (shard_mask self) (settings self).
Definition clear (self : store) : store :=
  foldl clear_shard self (seq 0 (length (shards self))).

Definition len (self : store) : Z := sum_with (fun s => Z.of_nat (length (slots s))) (shards self).
Definition is_empty (self : store) : bool :=
  forallb (fun s => match slots s with [] => true | _ => false end) (shards self).

End Store.

(** ** Lemmas on the locked sections *)

Section SectionLemmas.
Context {T : Type} `{HashTableLaws T} {K : Type} `{EqDecision K} {B : Type} `{BucketCoreLaws B}.
Context (hash_one : K -> Z) (set : Settings).
Context (Hcap : 1 <= per_shard_cap set <= u32_max).
Implicit Types (s : ShardMap T K B).
Abbreviation wf := (shard_wf hash_one (per_shard_cap set)).

(** Slots of other keys keep their buckets, or go. *)
Definition isolates (k : K) s s' : Prop :=
  forall slot', slot' ∈ slots s' -> key slot' <> k -> exists slot, slot ∈ slots s /\ core slot = core slot'.

(** Only [h] has its hash. *)
Definition sole (h : Z) : Prop := forall k k', hash_one k = h -> hash_one k' = h -> k = k'.

Lemma isolates_shrinks k s s' : shrinks s s' -> isolates k s s'.
Proof. intros Hs slot' Hin _. auto. Qed.

Lemma with_ledger_take s h : wf s ->
  let '(owed, l) := Ledger.take (ledger s) h in
  wf (with_ledger s l) /\ (forall h', Ledger.known l h' -> Ledger.known (ledger s) h') /\ ~ Ledger.known l h /\
  (forall now h' t, owes s now h' t -> owes (with_ledger s l) now h' t \/
     (h' = h /\ exists settles, owed = Some settles /\ t <= settles)) /\
  (forall settles, owed = Some settles -> Z.of_nat (length (Ledger.debts l)) < per_shard_cap set).
Proof.
  intros Hwf. pose proof Hwf as (_ & _ & _ & Hled & _ & Hlen).
  pose proof (Ledger.take_spec (ledger s) h Hled) as Hspec.
  destruct (Ledger.take (ledger s) h) as [owed l]. destruct Hspec as (Hl & Hle & Hno & Hkn & Hkeep & Howed).
  split_and!; [apply with_ledger_wf; [done|done|lia]|done|done| |].
  - intros now h' t [Ho|Ho]; [|left; by right]. destruct (decide (h' = h)) as [->|Hne]; [|left; left; by apply Hkeep].
    destruct owed as [settles|]; [|destruct Howed as [Hn _]; by destruct (Hn t)].
    right. split; [done|]. exists settles. split; [done|]. by apply Howed.
  - intros settles ->. destruct Howed as (_ & _ & Hl'). lia.
Qed.

Lemma with_ledger_sweep s now budget : wf s ->
  let s' := with_ledger s (Ledger.sweep (ledger s) now budget) in
  wf s' /\ (forall h, Ledger.known (ledger s') h -> Ledger.known (ledger s) h) /\
  (length (Ledger.debts (ledger s')) <= length (Ledger.debts (ledger s)))%nat /\
  (forall h t, now < t -> owes s now h t -> owes s' now h t).
Proof.
  intros Hwf. pose proof Hwf as (_ & _ & _ & Hled & _ & Hlen).
  destruct (Ledger.sweep_spec now budget (ledger s) Hled) as (Hl & Hle & Hkn & Hkeep).
  split_and!; [apply with_ledger_wf; [done|done|lia]|done|done|].
  intros h t Ht [Ho|Ho]; [left; by apply Hkeep|by right].
Qed.

Lemma make_room_spec now s : wf s ->
  let '(r, s') := make_room set now s in
  wf s' /\ shrinks s s' /\ (forall h, sole h -> exclusive s h -> exclusive s' h) /\
  (forget_debt set = false -> forall h t, now < t <= DURATION_MAX -> owes s now h t -> owes s' now h t) /\
  (forall h, Ledger.known (ledger s') h -> Ledger.known (ledger s) h \/ exists slot, slot ∈ slots s /\ hash slot = h) /\
  match r with
  | Ok _ => Z.of_nat (length (slots s')) < per_shard_cap set
  | Err w => MIN_REFUSAL_WAIT <= w /\
      (length (Ledger.debts (ledger s')) <= length (Ledger.debts (ledger s)))%nat
  end.
Proof.
  intros Hwf. unfold make_room.
  set (s1 := match idle_ttl_ms set with Some _ => _ | None => s end).
  assert (G : wf s1 /\ shrinks s s1 /\ ledger s1 = ledger s /\ (forall h t, now < t -> owes s now h t -> owes s1 now h t)).
  { unfold s1. destruct (idle_ttl_ms set) as [ttl|]; [|split_and!; [done|by apply shrinks_same|done|done]].
    destruct (sweep_idle_spec hash_one (per_shard_cap set) now (millis now) ttl TTL_SWEEP s 0%nat Hwf)
      as (? & _ & ? & ? & ?). done. }
  clearbody s1. destruct G as (Hwf1 & Hsh1 & Hl1 & Ho1).
  destruct (with_ledger_sweep s1 now Ledger.LEDGER_SCAN Hwf1) as (Hwf2 & Hkn2 & Hn2 & Ho2).
  set (s2 := with_ledger s1 _) in *.
  assert (He2 : forall h, exclusive s h -> exclusive s2 h).
  { intros h. apply exclusive_shrinks; [exact Hsh1|]. rewrite <- Hl1. apply Hkn2. }
  assert (Hk2 : forall h, Ledger.known (ledger s2) h -> Ledger.known (ledger s) h) by (rewrite <- Hl1; apply Hkn2).
  rewrite Hl1 in Hn2.
  destruct (Z.leb_spec (per_shard_cap set) (Z.of_nat (length (slots s2)))) as [Hfull|Hroom].
  2:{ split_and!; [done|done|auto| |auto|done]. intros _ h t [Ht _] Ho. auto. }
  assert (Hu : per_shard_cap set <= u32_max) by lia.
  pose proof (evict_one_spec hash_one _ s2 now (per_shard_cap set) (forget_debt set) Hwf2 Hu (Z.le_refl _)) as Hev.
  pose proof (fun h Hinj => evict_one_exclusive hash_one _ s2 now (per_shard_cap set) (forget_debt set) h Hinj Hwf2 Hu (Z.le_refl _)) as Hex.
  pose proof (fun h => evict_one_known hash_one _ s2 now (per_shard_cap set) (forget_debt set) h Hwf2 Hu) as Hkn.
  destruct (evict_one s2 now (per_shard_cap set) (forget_debt set)) as [r s3].
  destruct Hev as (Hwf3 & Hsh3 & Ho3 & Hr). cbn [snd] in Hex, Hkn.
  split_and!; [exact Hwf3|exact (shrinks_trans _ _ _ Hsh1 Hsh3)|intros h Hs He; exact (Hex h Hs (He2 h He))| | |].
  - intros Hf h t Ht Ho. apply Ho3; [done|done|]. apply Ho2, Ho1; [lia|lia|done].
  - intros h [Hk|(slot & Hin & Hh)]%Hkn; [left; auto|right].
    destruct (Hsh1 slot Hin) as (slot' & Hin' & [= E _ _]). exists slot'. by rewrite E.
  - destruct r as [u|w].
    + destruct Hwf2 as (_ & _ & _ & _ & Hlen & _). destruct Hr as [Hnil|Hr]; [rewrite Hnil in Hfull; simpl in Hfull; lia|lia].
    + destruct Hr as (_ & Hw & Hd). split; [done|]. by rewrite Hd.
Qed.

(** ** The key's own entry *)

Lemma on_entry_spec {R} keep (op : B -> R * B) k s : wf s ->
  (forall e, bucket (keep e) = bucket e) -> (forall b, bk_capacity (op b).2 = bk_capacity b) ->
  let '(r, s') := on_entry keep op (hash_one k) k s in
  wf s' /\ ledger s' = ledger s /\
  match r with
  | None => s' = s /\ k ∉ key <$> slots s
  | Some _ => exists pos slot e, slots s !! pos = Some slot /\ key slot = k /\ s' = set_entry s pos e /\
      bucket e = (op (bucket (entry slot))).2
  end.
Proof.
  intros Hwf Hkeep Hop. unfold on_entry. destruct (Shard.position s (hash_one k) k) as [pos|] eqn:E; simpl.
  - apply (position_spec hash_one (per_shard_cap set)) in E as (slot & Hs & Hk); [|done]. rewrite Hs. simpl.
    destruct (op (bucket (keep (entry slot)))) as [r b] eqn:Eo. simpl.
    assert (Hb : b = (op (bucket (entry slot))).2) by (by rewrite <- (Hkeep (entry slot)), Eo).
    split_and!; [|unfold set_entry; by rewrite Hs|].
    + eapply set_entry_wf; [done| |done]. simpl. rewrite Hb. apply Hop.
    + exists pos, slot, (with_bucket (keep (entry slot)) b). done.
  - split_and!; [done|done|done|]. intros (slot & -> & (pos & Hs)%list_elem_of_lookup)%list_elem_of_fmap.
    assert (E' : Shard.position s (hash_one (key slot)) (key slot) = Some pos)
      by (apply (position_spec hash_one (per_shard_cap set)); eauto). congruence.
Qed.

(** The key's own entry, before and after. *)
Lemma on_entry_entry {R} keep (op : B -> R * B) k s : wf s ->
  (forall e, bucket (keep e) = bucket e) -> (forall b, bk_capacity (op b).2 = bk_capacity b) ->
  let '(r, s') := on_entry keep op (hash_one k) k s in
  match r with
  | Some _ => exists e, get s (hash_one k) k = Some e /\ bucket <$> get s' (hash_one k) k = Some (op (bucket e)).2
  | None => get s (hash_one k) k = None
  end.
Proof.
  intros Hwf Hkeep Hop. pose proof (on_entry_spec keep op k s Hwf Hkeep Hop) as Hspec.
  destruct (on_entry keep op (hash_one k) k s) as [[r|] s']; destruct Hspec as (Hwf' & _ & Hs).
  - destruct Hs as (pos & slot & e & Hs & Hk & -> & He). exists (entry slot). split.
    + apply (get_spec hash_one (per_shard_cap set)); [done|]. exists slot. split_and!; [by eapply list_elem_of_lookup_2|done..].
    + assert (Hg : get (set_entry s pos e) (hash_one k) k = Some e); [|by rewrite Hg; simpl; rewrite He].
      apply (get_spec hash_one (per_shard_cap set)); [done|]. exists (mkSlot (hash slot) (key slot) e).
      split_and!; [|done..]. unfold set_entry. rewrite Hs. simpl. apply list_elem_of_insert. by eapply lookup_lt_Some.
  - destruct Hs as [-> Hk]. destruct (get s (hash_one k) k) as [e|] eqn:Eg; [exfalso|done].
    apply (get_spec hash_one (per_shard_cap set)) in Eg as (slot & Hin & Hkey & _); [|done].
    apply Hk, list_elem_of_fmap. by exists slot.
Qed.

Lemma set_entry_slots s pos slot e slot' : slots s !! pos = Some slot -> slot' ∈ slots (set_entry s pos e) ->
  slot' = mkSlot (hash slot) (key slot) e \/ exists j, j <> pos /\ slots s !! j = Some slot'.
Proof.
  intros Hs Hin. unfold set_entry in Hin. rewrite Hs in Hin. simpl in Hin.
  apply list_elem_of_lookup in Hin as (j & Hj). destruct (decide (j = pos)) as [->|Hne].
  - rewrite list_lookup_insert_eq in Hj by by eapply lookup_lt_Some. left. by injection Hj.
  - rewrite list_lookup_insert_ne in Hj by done. right. eauto.
Qed.

Lemma set_entry_isolates s pos slot e : slots s !! pos = Some slot -> isolates (key slot) s (set_entry s pos e).
Proof.
  intros Hs slot' Hin Hne. destruct (set_entry_slots _ _ _ _ _ Hs Hin) as [->|(j & _ & Hj)]; [done|].
  exists slot'. split; [by eapply list_elem_of_lookup_2|done].
Qed.

Lemma set_entry_hashes s pos slot e : slots s !! pos = Some slot ->
  hash <$> slots (set_entry s pos e) = hash <$> slots s.
Proof.
  intros Hs. unfold set_entry. rewrite Hs. simpl. rewrite list_fmap_insert. simpl.
  apply list_insert_id. by rewrite list_lookup_fmap, Hs.
Qed.

Lemma hashes_exclusive s s' h : hash <$> slots s' = hash <$> slots s -> ledger s' = ledger s ->
  exclusive s h -> exclusive s' h.
Proof.
  intros Hh Hl [He|He]; [left|right; by rewrite Hl]. intros slot Hin E.
  assert (Hi : h ∈ hash <$> slots s) by (rewrite <- Hh, <- E; by apply list_elem_of_fmap_2).
  apply list_elem_of_fmap in Hi as (slot' & -> & Hs). by apply (He slot').
Qed.

Lemma set_entry_owes s pos slot e now h t : slots s !! pos = Some slot ->
  hash slot <> h \/ full_wait (bucket (entry slot)) now <= full_wait (bucket e) now ->
  owes s now h t -> owes (set_entry s pos e) now h t.
Proof.
  intros Hs Hk Ho. assert (Hl : ledger (set_entry s pos e) = ledger s) by (unfold set_entry; by rewrite Hs).
  destruct Ho as [Ho|(slot' & (j & Hj)%list_elem_of_lookup & Hh & Ht)]; [left; by rewrite Hl|right].
  unfold set_entry. rewrite Hs. simpl. destruct (decide (j = pos)) as [->|Hne].
  - rewrite Hs in Hj. injection Hj as <-. exists (mkSlot (hash slot) (key slot) e). simpl.
    split_and!; [apply list_elem_of_insert; by eapply lookup_lt_Some|done|]. destruct Hk as [Hk|Hk]; [done|lia].
  - exists slot'. split_and!; [|done..]. eapply list_elem_of_lookup_2. by rewrite list_lookup_insert_ne.
Qed.

Lemma on_entry_facts {R} keep (op : B -> R * B) k s : wf s ->
  (forall e, bucket (keep e) = bucket e) -> (forall b, bk_capacity (op b).2 = bk_capacity b) ->
  let s' := (on_entry keep op (hash_one k) k s).2 in
  wf s' /\ isolates k s s' /\ (forall h, exclusive s h -> exclusive s' h) /\
  (forall now h t, hash_one k <> h \/ (forall b, full_wait b now <= full_wait (op b).2 now) ->
     owes s now h t -> owes s' now h t).
Proof.
  intros Hwf Hkeep Hop. pose proof (on_entry_spec keep op k s Hwf Hkeep Hop) as Hspec.
  destruct (on_entry keep op (hash_one k) k s) as [[r|] s']; destruct Hspec as (Hwf' & Hl & Hs); simpl.
  - destruct Hs as (pos & slot & e & Hs & <- & -> & He).
    split_and!; [done|by apply set_entry_isolates| |].
    + intros h. apply hashes_exclusive; [by eapply set_entry_hashes|done].
    + intros now h t Hk. eapply set_entry_owes; [done|]. rewrite He.
      destruct Hk as [Hk|Hk]; [left|right; apply Hk]. destruct Hwf as (_ & _ & Hall & _).
      rewrite Forall_forall in Hall. destruct (Hall slot) as [-> _]; [by eapply list_elem_of_lookup_2|done].
  - destruct Hs as [-> _]. split_and!; [done|by apply isolates_shrinks, shrinks_same|done|done].
Qed.

Lemma insert_facts s k e : wf s -> k ∉ key <$> slots s -> 0 < bk_capacity (bucket e) ->
  Z.of_nat (length (slots s)) < per_shard_cap set ->
  let s' := insert s (hash_one k) k e in
  wf s' /\ isolates k s s' /\
  (forall h, (h = hash_one k -> ~ Ledger.known (ledger s) h) -> exclusive s h -> exclusive s' h) /\
  (forall now h t, owes s now h t -> owes s' now h t) /\
  (forall now t, t <= now + full_wait (bucket e) now -> owes s' now (hash_one k) t).
Proof.
  intros Hwf Hk He Hroom s'. split_and!.
  - apply insert_wf; [done|done|done|done|lia].
  - intros slot' Hin Hne. unfold s', insert in Hin. simpl in Hin.
    apply elem_of_app in Hin as [Hin| ->%list_elem_of_singleton]; [eauto|done].
  - intros h Hno [Hs|Hs]; [|by right]. destruct (decide (h = hash_one k)) as [E|E]; [right; by apply Hno|left].
    intros slot' Hin. unfold s', insert in Hin. simpl in Hin.
    apply elem_of_app in Hin as [Hin| ->%list_elem_of_singleton]; [auto|simpl; congruence].
  - intros now h t [Ho|(slot & Hin & Hx)]; [by left|right]. exists slot. split; [|done].
    unfold s', insert. simpl. apply elem_of_app. by left.
  - intros now t Ht. right. exists (mkSlot (hash_one k) k e). split_and!; [|done..].
    unfold s', insert. simpl. apply elem_of_app. right. by apply list_elem_of_singleton.
Qed.

Lemma restored_capacity config now settles : conf_ok config ->
  bk_capacity (Ledger.restore_debt (core_new config now : B) config now settles) = conf_capacity config.
Proof. intros Hok. apply Ledger.restore_debt_capacity; [done|]. by apply core_start. Qed.

(** Putting a debt back that the section took, when it found no room. *)
Lemma put_back_facts s k now settles : wf s -> k ∉ key <$> slots s ->
  Z.of_nat (length (Ledger.debts (ledger s))) < per_shard_cap set ->
  let s' := with_ledger s (Ledger.record (ledger s) (Ledger.mkDebt (hash_one k) settles) now u64_max false).2 in
  wf s' /\ (forall h, sole h -> exclusive s h -> exclusive s' h) /\
  (forall h t, now < t -> owes s now h t -> owes s' now h t) /\
  (forall t, t <= settles -> owes s' now (hash_one k) t).
Proof.
  intros Hwf Hk Hlen. pose proof Hwf as (_ & _ & Hall & Hled & _ & _).
  pose proof (Ledger.record_room (ledger s) (Ledger.mkDebt (hash_one k) settles) now u64_max false) as Hok.
  destruct (Ledger.record _ _ _ _ _) as [r l] eqn:Er. simpl in Hok. rewrite Hok in Er by (unfold u32_max, u64_max in *; lia).
  destruct (Ledger.record_result _ _ _ _ _ _ _ Er Hled) as (Hl & Hll & Hkn & (d & Hd & Hdh & Hdt) & Hkeep); [lia|]. simpl.
  simpl in Hdh, Hdt, Hkn. split_and!.
  - apply with_ledger_wf; [done|done|lia].
  - intros h Hsole He. destruct (decide (h = hash_one k)) as [->|Hne].
    + left. intros slot Hin Hh. apply Hk, list_elem_of_fmap. exists slot. split; [|done].
      rewrite Forall_forall in Hall. destruct (Hall slot Hin) as [E _]. apply Hsole; [done|congruence].
    + apply (exclusive_shrinks s); [apply shrinks_with_ledger| |done]. by intros [|]%Hkn.
  - intros h t Ht [Ho|Ho]; [left; by apply Hkeep|by right].
  - intros t Ht. left. exists d. split_and!; [done|done|lia].
Qed.

(** The write-locked section: the same facts, the key's own debt included. *)
Lemma slow_path_facts {R} now config (op : B -> R * B) k s : wf s -> conf_ok config ->
  (forall b, bk_capacity (op b).2 = bk_capacity b) ->
  let s' := (slow_path set now config op (hash_one k) k s).2 in
  wf s' /\ isolates k s s' /\ (forall h, sole h -> exclusive s h -> exclusive s' h) /\
  (forall h t, forget_debt set = false -> 0 <= now < t -> t <= DURATION_MAX ->
     hash_one k <> h \/ (forall b, full_wait b now <= full_wait (op b).2 now) ->
     owes s now h t -> owes s' now h t).
Proof.
  intros Hwf Hok Hop. unfold slow_path, fast_path.
  pose proof (on_entry_facts (touched set now) op k s Hwf (fun e => eq_refl) Hop) as Hf.
  pose proof (on_entry_spec (touched set now) op k s Hwf (fun e => eq_refl) Hop) as Hspec.
  destruct (on_entry _ op (hash_one k) k s) as [[r|] s0]; simpl in Hf.
  { destruct Hf as (? & ? & ? & Ho). split_and!; try done; [auto|]. intros h t _ _ _. apply Ho. }
  destruct Hspec as (_ & _ & -> & Hk). clear Hf.
  pose proof (with_ledger_take s (hash_one k) Hwf) as Ht.
  destruct (Ledger.take (ledger s) (hash_one k)) as [owed l]. destruct Ht as (Hwf1 & Hkn1 & Hno1 & Ho1 & Hlen1).
  set (s1 := with_ledger s l) in *.
  assert (He1 : forall h, exclusive s h -> exclusive s1 h)
    by (intros h; apply exclusive_shrinks; [apply shrinks_with_ledger|apply Hkn1]).
  pose proof (make_room_spec now s1 Hwf1) as Hm.
  destruct (make_room set now s1) as [r s2]. destruct Hm as (Hwf2 & Hsh2 & He2 & Ho2 & Hkn2 & Hr).
  assert (Hsh : shrinks s s2) by exact (shrinks_trans _ _ _ (shrinks_with_ledger s l) Hsh2).
  assert (Hk2 : k ∉ key <$> slots s2).
  { intros (slot & -> & Hin)%list_elem_of_fmap. destruct (Hsh slot Hin) as (slot' & Hin' & [= _ E _]).
    apply Hk, list_elem_of_fmap. eauto. }
  destruct r as [u|w].
  - set (b := match owed with Some _ => _ | None => core_new config now end).
    assert (Hb : bk_capacity b = conf_capacity config).
    { unfold b. destruct owed; [by apply restored_capacity|by apply core_start]. }
    destruct (op b) as [r b'] eqn:Eo. assert (Hb' : b' = (op b).2) by by rewrite Eo. simpl.
    destruct (insert_facts s2 k (with_bucket (Entry_new b (millis now)) b') Hwf2 Hk2) as (G1 & G2 & G3 & G4 & G5); [|done|].
    { simpl. rewrite Hb', Hop, Hb. apply Hok. }
    split_and!; [done| | |].
    + intros slot' Hin Hne. destruct (G2 slot' Hin Hne) as (slot & Hin' & <-). by apply Hsh.
    + intros h Hsole He. apply G3; [|auto]. intros ->. intros [Hk'|(slot & Hin & Hh)]%Hkn2; [done|].
      destruct Hwf as (_ & _ & Hall & _). rewrite Forall_forall in Hall. destruct (Hall slot Hin) as [E _].
      apply Hk, list_elem_of_fmap. exists slot. split; [|done]. apply Hsole; [done|congruence].
    + intros h t Hf [Hnow Ht] Hmax Hkeep Ho. destruct (Ho1 now h t Ho) as [Ho'|(-> & settles & -> & Hs)]; [by apply G4, Ho2|].
      apply G5. simpl. destruct Hkeep as [Hkeep|Hkeep]; [done|]. specialize (Hkeep b). rewrite <- Hb' in Hkeep.
      destruct (Ledger.restore_debt_spec (B := B) config now settles Hok); unfold b in Hkeep; cbv iota in Hkeep; lia.
  - destruct Hr as [_ Hr]. destruct owed as [settles|]; simpl.
    + destruct (put_back_facts s2 k now settles Hwf2 Hk2) as (G1 & G2 & G3 & G4); [specialize (Hlen1 settles eq_refl); simpl in Hr; lia|].
      split_and!; [done|by apply isolates_shrinks|auto|].
      intros h t Hf [Hnow Ht] Hmax _ Ho. destruct (Ho1 now h t Ho) as [Ho'|(-> & settles' & [= <-] & Hs)]; [|by apply G4].
      by apply G3, Ho2.
    + split_and!; [done|by apply isolates_shrinks|auto|].
      intros h t Hf [Hnow Ht] Hmax _ Ho. destruct (Ho1 now h t Ho) as [Ho'|(-> & settles' & [=] & _)]. by apply Ho2.
Qed.

(** ** What an operation is asked about *)

Lemma fast_path_result {R} now (op : B -> R * B) h k s :
  fast_path set now op h k s =
    match get s h k with
    | Some e => (Some (op (bucket e)).1, (fast_path set now op h k s).2)
    | None => (None, s)
    end.
Proof.
  unfold fast_path, on_entry, get. destruct (Shard.position s h k) as [pos|]; simpl; [|done].
  destruct (slots s !! pos) as [slot|]; simpl; [|done]. by destruct (op (bucket (entry slot))).
Qed.

Lemma take_settles (l : Ledger.Ledger T) h :
  (Ledger.take l h).1 = Ledger.settles_at <$> (pos ← Ledger.position l h; Ledger.debts l !! pos).
Proof.
  unfold Ledger.take. destruct (Ledger.position l h) as [pos|]; simpl; [|done].
  unfold Ledger.remove_at. by destruct (Ledger.debts l !! pos).
Qed.

(** The shard has no room for a new key: it has all the keys it may have, the
    next ones the hand comes to are all limited, and its ledger, which may
    not forget, is full too, of debts of which the next ones are unsettled. *)
Record no_room s (now : Duration) : Prop := mkNoRoom {
  nr_slots : Z.of_nat (length (slots s)) = per_shard_cap set;
  nr_limited : limited_slots s now (Nat.min CLOCK_SCAN (length (slots s)));
  nr_policy : forget_debt set = false;
  nr_ledger : Z.of_nat (length (Ledger.debts (ledger s))) = per_shard_cap set;
  nr_debts : Ledger.unsettled (Ledger.debts (ledger s)) (Ledger.cursor (ledger s)) now Ledger.LEDGER_SCAN }.

(** For any number of debts looked at. *)
Lemma swept_refused budget now s s1 w s' : wf s -> wf s1 -> (length (slots s1) <= length (slots s))%nat ->
  ledger s1 = ledger s -> (length (slots s1) = length (slots s) -> slots s1 = slots s /\ hand s1 = hand s) ->
  let s2 := with_ledger s1 (Ledger.sweep (ledger s1) now budget) in
  per_shard_cap set <= Z.of_nat (length (slots s2)) ->
  evict_one s2 now (per_shard_cap set) (forget_debt set) = (Err w, s') ->
  Z.of_nat (length (slots s)) = per_shard_cap set /\ limited_slots s now (Nat.min CLOCK_SCAN (length (slots s))) /\
  forget_debt set = false /\ Z.of_nat (length (Ledger.debts (ledger s))) = per_shard_cap set /\
  Ledger.unsettled (Ledger.debts (ledger s)) (Ledger.cursor (ledger s)) now budget.
Proof.
  intros Hwf Hwf1 Hle Hl1 Hkeep s2 Hfull He. apply evict_one_refused in He as (Hlim & Hf & Hd); [|lia].
  destruct (with_ledger_sweep s1 now budget Hwf1) as (_ & _ & Hn2 & _). fold s2 in Hn2.
  pose proof Hwf as (_ & _ & _ & Hled & Hlen & Hdlen). unfold s2 in *. clear s2. cbn [slots ledger with_ledger] in *.
  destruct (Hkeep ltac:(lia)) as [Es Eh]. rewrite Hl1 in Hd, Hn2.
  assert (Hne : Ledger.debts (ledger s) <> []) by (intros E; rewrite E in Hn2; simpl in Hn2; lia).
  destruct (Ledger.sweep_unsettled now budget (ledger s) Hled Hne) as [_ Hu]; [lia|].
  unfold limited_slots in *. cbn [slots hand with_ledger] in Hlim. rewrite Es, Eh in Hlim.
  split_and!; [lia|exact Hlim|done|lia|done].
Qed.

Lemma make_room_refused now s w s' : wf s -> make_room set now s = (Err w, s') -> no_room s now.
Proof.
  intros Hwf. unfold make_room.
  set (s1 := match idle_ttl_ms set with Some _ => _ | None => s end).
  assert (G : wf s1 /\ (length (slots s1) <= length (slots s))%nat /\ ledger s1 = ledger s /\
    (length (slots s1) = length (slots s) -> slots s1 = slots s /\ hand s1 = hand s)).
  { unfold s1. destruct (idle_ttl_ms set) as [ttl|]; [|done].
    destruct (sweep_idle_spec hash_one (per_shard_cap set) now (millis now) ttl TTL_SWEEP s 0%nat Hwf) as (? & ? & _ & ? & _).
    split_and!; try done. by apply (sweep_idle_keeps hash_one (per_shard_cap set)). }
  clearbody s1. destruct G as (Hwf1 & Hle & Hl1 & Hkeep).
  pose proof (swept_refused Ledger.LEDGER_SCAN now s s1 w s' Hwf Hwf1 Hle Hl1 Hkeep) as Hr. cbv zeta in Hr.
  destruct (Z.leb_spec (per_shard_cap set)
    (Z.of_nat (length (slots (with_ledger s1 (Ledger.sweep (ledger s1) now Ledger.LEDGER_SCAN)))))) as [Hfull|]; [|done].
  intros He. destruct (Hr Hfull He) as (G1 & G2 & G3 & G4 & G5). by constructor.
Qed.

(** A key is kept out only when it is new and there is no room: one that owes
    something gives its own place in the ledger back. *)
Lemma slow_path_result {R} now config (op : B -> R * B) k s : wf s ->
  (slow_path set now config op (hash_one k) k s).1 = Ok (op (view_of now config (hash_one k) k s)).1 \/
  (get s (hash_one k) k = None /\ ~ Ledger.known (ledger s) (hash_one k) /\ no_room s now /\
   exists w, (slow_path set now config op (hash_one k) k s).1 = Err w /\ MIN_REFUSAL_WAIT <= w).
Proof.
  intros Hwf. unfold slow_path, view_of. rewrite fast_path_result.
  destruct (get s (hash_one k) k) as [e|] eqn:Eg; [by left|].
  pose proof (with_ledger_take s (hash_one k) Hwf) as Ht. pose proof (take_settles (ledger s) (hash_one k)) as Hs.
  pose proof Hwf as (_ & _ & _ & Hled & _ & Hdlen). pose proof (Ledger.take_spec (ledger s) (hash_one k) Hled) as Htake.
  destruct (Ledger.take (ledger s) (hash_one k)) as [owed l]. destruct Ht as (Hwf1 & _ & Hno & _ & Howed). simpl in Hs.
  pose proof (make_room_spec now _ Hwf1) as Hm. pose proof (make_room_refused now (with_ledger s l)) as Hrefused.
  destruct (make_room set now (with_ledger s l)) as [[u|w] s2].
  - left. rewrite Hs. destruct (pos ← Ledger.position (ledger s) (hash_one k); Ledger.debts (ledger s) !! pos) as [d|]; simpl;
      by destruct (op _).
  - right. specialize (Hrefused w s2 Hwf1 eq_refl). destruct owed as [settles|].
    { exfalso. specialize (Howed settles eq_refl). pose proof (nr_ledger _ _ Hrefused) as E. simpl in E. lia. }
    destruct Htake as (_ & _ & _ & _ & _ & _ & ->). split_and!; [done|done|by destruct s|].
    exists w. split; [done|]. by destruct Hm as (_ & _ & _ & _ & _ & Hw & _).
Qed.

(** What the section leaves of the key: the bucket its operation leaves, or,
    when it is kept out, nothing. *)
Lemma slow_path_entry {R} now config (op : B -> R * B) k s : wf s -> conf_ok config ->
  (forall b, bk_capacity (op b).2 = bk_capacity b) ->
  let '(r, s') := slow_path set now config op (hash_one k) k s in
  bucket <$> get s' (hash_one k) k =
    match r with Ok _ => Some (op (view_of now config (hash_one k) k s)).2 | Err _ => None end.
Proof.
  intros Hwf Hok Hop. pose proof (slow_path_facts now config op k s Hwf Hok Hop) as (Hwf' & _).
  revert Hwf'. unfold slow_path, view_of. unfold fast_path at 1 2.
  pose proof (on_entry_entry (touched set now) op k s Hwf (fun e => eq_refl) Hop) as He.
  pose proof (on_entry_spec (touched set now) op k s Hwf (fun e => eq_refl) Hop) as Hspec.
  destruct (on_entry _ op (hash_one k) k s) as [[r|] s0].
  { intros _. destruct He as (e & -> & He). exact He. }
  destruct Hspec as (_ & _ & -> & Hk). rewrite He. clear He.
  pose proof (with_ledger_take s (hash_one k) Hwf) as Ht. pose proof (take_settles (ledger s) (hash_one k)) as Hs.
  destruct (Ledger.take (ledger s) (hash_one k)) as [owed l]. destruct Ht as (Hwf1 & _). simpl in Hs.
  pose proof (make_room_spec now _ Hwf1) as Hm.
  destruct (make_room set now (with_ledger s l)) as [[u|w] s2]; destruct Hm as (Hwf2 & Hsh & _).
  - set (b := match owed with Some _ => _ | None => core_new config now end).
    assert (Hb : b = match pos ← Ledger.position (ledger s) (hash_one k); Ledger.debts (ledger s) !! pos with
      | Some d => Ledger.restore_debt (core_new config now) config now (Ledger.settles_at d) | None => core_new config now end).
    { subst b. rewrite Hs. by destruct (pos ← _; _) as [d|]. }
    rewrite <- Hb. destruct (op b) as [r b'] eqn:Eo. cbn [snd]. intros Hwf'.
    match goal with |- _ <$> get ?s' _ _ = _ => assert (Hg : get s' (hash_one k) k = Some (with_bucket (Entry_new b' (millis now)) b')) end.
    { apply (get_spec hash_one (per_shard_cap set)); [done|]. eexists (mkSlot _ _ _). split_and!; [|done..].
      unfold insert. simpl. apply elem_of_app. right. by apply list_elem_of_singleton. }
    by rewrite Hg.
  - intros Hwf'. destruct (get _ (hash_one k) k) as [e|] eqn:Eg; [exfalso|done].
    apply (get_spec hash_one (per_shard_cap set)) in Eg as (slot & Hin & Hkey & _); [|exact Hwf'].
    apply Hk, list_elem_of_fmap. assert (Hin2 : slot ∈ slots s2) by (by destruct owed).
    destruct (Hsh slot Hin2) as (slot' & Hin' & [= _ E _]). exists slot'. split; [congruence|exact Hin'].
Qed.

End SectionLemmas.

(** ** Interleavings

    An event is one locked section of one operation; the sections of any
    number of concurrent operations are a list of events. *)

Section Events.
Context {T : Type} `{HashTableLaws T} {K : Type} `{EqDecision K} {B : Type} `{BucketCoreLaws B} `{!BucketLaws B}.
Context (hash_one : K -> Z).
Implicit Types (self : Store T K B).

Inductive event :=
  | FastPath (key : K) (now : Duration) (op : B -> B)
  | SlowPath (key : K) (now : Duration) (config : BucketConf) (op : B -> B)
  | Existing (key : K) (op : B -> B)
  | RefundFast (key : K) (cost : Z)
  | RefundSlow (key : K) (cost : Z) (config : BucketConf)
  | Remove (key : K)
  | Clear (i : nat).

Definition unit_op (op : B -> B) (b : B) : unit * B := (tt, op b).

Definition section_of (set : Settings) (e : event) (s : ShardMap T K B) : ShardMap T K B :=
  match e with
  | FastPath key now op => (fast_path set now (unit_op op) (hash_one key) key s).2
  | SlowPath key now config op => (slow_path set now config (unit_op op) (hash_one key) key s).2
  | Existing key op => (on_entry id (unit_op op) (hash_one key) key s).2
  | RefundFast key cost => (refund_fast cost (hash_one key) key s).2
  | RefundSlow key cost config => (refund_slow cost config (hash_one key) key s).2
  | Remove key => (remove_section (hash_one key) key s).2
  | Clear _ => s
  end.

Definition event_key (e : event) : option K :=
  match e with
  | FastPath key _ _ | SlowPath key _ _ _ | Existing key _ | RefundFast key _ | RefundSlow key _ _ | Remove key => Some key
  | Clear _ => None
  end.

Definition step self (e : event) : option (Store T K B) :=
  match event_key e with
  | Some key => snd <$> locked self (hash_one key) (fun s => (tt, section_of (settings self) e s))
  | None => match e with Clear i => Some (clear_shard self i) | _ => None end
  end.

Fixpoint steps self (es : list event) : option (Store T K B) :=
  match es with
  | [] => Some self
  | e :: es => self' ← step self e; steps self' es
  end.

(** Operations on a bucket leave its capacity alone. *)
Definition event_ok (e : event) : Prop :=
  match e with
  | FastPath _ _ op | Existing _ op => forall b, bk_capacity (op b) = bk_capacity b
  | SlowPath _ _ config op => conf_ok config /\ forall b, bk_capacity (op b) = bk_capacity b
  | _ => True
  end.

(** The event gives nothing back under the hash [h]: other hashes, or an
    operation that does not shorten the wait of a bucket. *)
Definition keeps (h : Z) (e : event) : Prop :=
  match e with
  | FastPath key now op | SlowPath key now _ op =>
      hash_one key <> h \/ forall b, full_wait b now <= full_wait (op b) now
  | Existing key _ | RefundFast key _ | RefundSlow key _ _ | Remove key => hash_one key <> h
  | Clear _ => False
  end.

(** The readings of the clock never go back. *)
Fixpoint timed (now : Duration) (es : list event) (now' : Duration) : Prop :=
  match es with
  | [] => now <= now'
  | (FastPath _ n _ | SlowPath _ n _ _) :: es => now <= n /\ timed n es now'
  | _ :: es => timed now es now'
  end.

Lemma timed_le es : forall now now', timed now es now' -> now <= now'.
Proof.
  induction es as [|e es IH]; intros now now' Ht; [done|].
  destruct e; simpl in Ht; try (by apply IH); destruct Ht as [Hn Ht]; apply IH in Ht; lia.
Qed.

(** Every shard is well formed, and holds only keys it is the shard of. *)
Definition store_wf self : Prop :=
  1 <= per_shard_cap (settings self) <= u32_max /\
  (exists k, 0 <= k /\ shard_mask self = Z.ones k /\ Z.of_nat (length (shards self)) = 2 ^ k) /\
  (forall i s, shards self !! i = Some s ->
     shard_wf hash_one (per_shard_cap (settings self)) s /\
     forall slot, slot ∈ slots s -> shard_index self (hash slot) = i).

(** ** Lemmas *)

Lemma shard_index_lt self h : store_wf self -> (shard_index self h < length (shards self))%nat.
Proof.
  intros (_ & (k & Hk & Hm & Hl) & _). unfold shard_index. rewrite Hm, Z.land_ones by done.
  pose proof (Z.mod_pos_bound (Z.shiftr h SHARD_SHIFT) (2 ^ k) ltac:(lia)). lia.
Qed.

(** The reading an event takes of the clock, if it takes one, is [now]. *)
Definition at_time (now : Duration) (e : event) : Prop :=
  match e with FastPath _ n _ | SlowPath _ n _ _ => now = n | _ => True end.

Lemma remove_section_facts set s k : shard_wf hash_one (per_shard_cap set) s ->
  let s' := (remove_section (hash_one k) k s).2 in
  shard_wf hash_one (per_shard_cap set) s' /\ shrinks s s' /\
  (forall h, Ledger.known (ledger s') h -> Ledger.known (ledger s) h) /\
  (forall now h t, hash_one k <> h -> owes s now h t -> owes s' now h t).
Proof.
  intros Hwf. unfold remove_section. pose proof (with_ledger_take hash_one set s (hash_one k) Hwf) as Ht.
  destruct (Ledger.take (ledger s) (hash_one k)) as [owed l]. destruct Ht as (Hwf1 & Hkn & _ & Ho & _).
  set (s1 := with_ledger s l) in *.
  assert (Ho1 : forall now h t, hash_one k <> h -> owes s now h t -> owes s1 now h t).
  { intros now h t Hne Hot. destruct (Ho now h t Hot) as [|[-> _]]; [done|done]. }
  destruct (Shard.position s1 (hash_one k) k) as [pos|] eqn:Ep; [|split_and!; [done|apply shrinks_with_ledger|done|done]].
  apply (position_spec hash_one (per_shard_cap set)) in Ep as (slot & Hs & Hk); [|done].
  destruct (remove_at s1 pos) as [r s2] eqn:Er. assert (E2 : s2 = (remove_at s1 pos).2) by by rewrite Er. subst s2. simpl.
  split_and!.
  - by apply remove_at_wf.
  - exact (shrinks_trans _ _ _ (shrinks_with_ledger s l) (shrinks_remove s1 pos)).
  - rewrite remove_at_ledger. apply Hkn.
  - intros now h t Hne Hot. destruct (remove_at_owes s1 pos slot now h t Hs (Ho1 now h t Hne Hot)) as [|[Hh _]]; [done|].
    destruct Hwf1 as (_ & _ & Hall & _). rewrite Forall_forall in Hall.
    destruct (Hall slot) as [E _]; [by eapply list_elem_of_lookup_2|]. congruence.
Qed.

Lemma refund_on_entry set s k cost : shard_wf hash_one (per_shard_cap set) s ->
  let s' := (on_entry id (fun b : B => (tt, bk_refund b cost)) (hash_one k) k s).2 in
  shard_wf hash_one (per_shard_cap set) s' /\ isolates k s s' /\ (forall h, exclusive s h -> exclusive s' h) /\
  (forall now h t, hash_one k <> h -> owes s now h t -> owes s' now h t).
Proof.
  intros Hwf. destruct (on_entry_facts hash_one set id (fun b : B => (tt, bk_refund b cost)) k s Hwf)
    as (G1 & G2 & G3 & G4); [done|intros b; by apply (law_capacity b cost 0 0)|].
  split_and!; try done. intros now h t Hne. apply G4. by left.
Qed.

Lemma section_facts set e s k : 1 <= per_shard_cap set <= u32_max -> event_key e = Some k -> event_ok e ->
  shard_wf hash_one (per_shard_cap set) s ->
  let s' := section_of set e s in
  shard_wf hash_one (per_shard_cap set) s' /\ isolates k s s' /\
  (forall h, sole hash_one h -> exclusive s h -> exclusive s' h) /\
  (forall now h t, forget_debt set = false -> keeps h e -> at_time now e -> 0 <= now < t -> t <= DURATION_MAX ->
     owes s now h t -> owes s' now h t).
Proof.
  intros Hcap Hkey Hok Hwf. destruct e as [key n op|key n config op|key op|key cost|key cost config|key|i]; simpl in Hkey;
    try discriminate Hkey; injection Hkey as ->; simpl in *.
  - destruct (on_entry_facts hash_one set (touched set n) (unit_op op) k s Hwf) as (G1 & G2 & G3 & G4); [done|exact Hok|].
    split_and!; [done|done|auto|]. intros now h t _ Hk -> _ _. by apply G4.
  - destruct (slow_path_facts hash_one set Hcap n config (unit_op op) k s Hwf) as (G1 & G2 & G3 & G4); [apply Hok|apply Hok|].
    split_and!; [done|done|auto|]. intros now h t Hf Hk -> Ht Hmax. by apply G4.
  - destruct (on_entry_facts hash_one set id (unit_op op) k s Hwf) as (G1 & G2 & G3 & G4); [done|exact Hok|].
    split_and!; [done|done|auto|]. intros now h t _ Hk _ _ _. apply G4. by left.
  - destruct (refund_on_entry set s k cost Hwf) as (G1 & G2 & G3 & G4).
    unfold refund_fast. destruct (on_entry _ _ _ _ s) as [[u|] s']; simpl in *;
      (split_and!; [done|done|auto|]); intros now h t _ Hk _ _ _; by apply G4.
  - destruct (refund_on_entry set s k cost Hwf) as (G1 & G2 & G3 & G4).
    unfold refund_slow. destruct (on_entry _ _ _ _ s) as [[u|] s']; simpl in *.
    + split_and!; [done|done|auto|]. intros now h t _ Hk _ _ _. by apply G4.
    + destruct (Ledger.pay_down (ledger s') (hash_one k) cost config) as [known l] eqn:Ep.
      assert (El : l = (Ledger.pay_down (ledger s') (hash_one k) cost config).2) by by rewrite Ep. subst l. simpl.
      pose proof G1 as (_ & _ & _ & Hled & _ & Hlen). split_and!.
      * apply with_ledger_wf; [done|by apply Ledger.pay_down_wf|by rewrite Ledger.pay_down_length].
      * done.
      * intros h Hsole He. apply (exclusive_shrinks s'); [apply shrinks_with_ledger| |auto].
        simpl. apply Ledger.pay_down_known.
      * intros now h t _ Hk _ _ _ Ho. apply G4 in Ho as [Ho|Ho]; [left|by right|done].
        apply Ledger.pay_down_owed; [congruence|done].
  - destruct (remove_section_facts set s k Hwf) as (G1 & G2 & G3 & G4).
    split_and!; [done|by apply isolates_shrinks| |].
    + intros h _. apply exclusive_shrinks; [done|apply G3].
    + intros now h t _ Hk _ _ _. by apply G4.
Qed.

(** The slots of the key the section is about are under its hash. *)
Lemma locked_step self e k : event_key e = Some k -> store_wf self ->
  exists s, shards self !! shard_index self (hash_one k) = Some s /\
    step self e = Some (mkStore (<[shard_index self (hash_one k) := section_of (settings self) e s]> (shards self))
      (shard_mask self) (settings self)).
Proof.
  intros Hk Hwf. pose proof (shard_index_lt self (hash_one k) Hwf) as Hlt.
  apply lookup_lt_is_Some in Hlt as [s Hs]. exists s. split; [done|].
  unfold step. rewrite Hk. unfold locked. rewrite Hs. reflexivity.
Qed.

Lemma step_wf self e : event_ok e -> store_wf self ->
  exists self', step self e = Some self' /\ store_wf self' /\
    settings self' = settings self /\ shard_mask self' = shard_mask self /\ length (shards self') = length (shards self).
Proof.
  intros Hok Hwf. pose proof Hwf as (Hcap & (n & Hn & Hm & Hl) & Hshards). destruct (event_key e) as [k|] eqn:Ek.
  - destruct (locked_step self e k Ek Hwf) as (s & Hs & ->). eexists. split; [done|].
    destruct (Hshards _ _ Hs) as [Hs1 Hs2]. destruct (section_facts _ e s k Hcap Ek Hok Hs1) as (G1 & G2 & _ & _).
    split_and!; [|done|done|apply length_insert].
    split; [exact Hcap|split; [exists n; split_and!; [exact Hn|exact Hm|cbn [shards]; rewrite length_insert; exact Hl]|]]. intros i s' Hi. cbn [shards] in Hi.
    unfold shard_index. cbn [shard_mask settings]. fold (shard_index self). destruct (decide (i = shard_index self (hash_one k))) as [->|Hne].
    + rewrite list_lookup_insert_eq in Hi by by eapply lookup_lt_Some. injection Hi as <-. split; [done|].
      intros slot Hin. destruct G1 as (_ & _ & Hall & _). rewrite Forall_forall in Hall. destruct (Hall slot Hin) as [Hh _].
      destruct (decide (key slot = k)) as [<-|Hkey]; [by rewrite Hh|].
      destruct (G2 slot Hin Hkey) as (slot' & Hin' & [= <- _ _]). by apply Hs2.
    + rewrite list_lookup_insert_ne in Hi by done. by apply Hshards.
  - destruct e as [| | | | | |i]; try discriminate. exists (clear_shard self i). split; [done|].
    split_and!; [|done|done|simpl; apply length_insert]. unfold clear_shard.
    split; [exact Hcap|split; [exists n; split_and!; [exact Hn|exact Hm|cbn [shards]; rewrite length_insert; exact Hl]|]]. intros j s' Hj. cbn [shards] in Hj.
    destruct (decide (j = i)) as [->|Hne].
    + destruct (decide (i < length (shards self))%nat) as [Hlt|Hge]; [|rewrite list_insert_ge in Hj by lia; by apply Hshards].
      rewrite list_lookup_insert_eq in Hj by done. injection Hj as <-. split; [apply shard_wf_new; simpl; lia|].
      intros slot Hin. simpl in Hin. by apply elem_of_nil in Hin.
    + rewrite list_lookup_insert_ne in Hj by done. by apply Hshards.
Qed.

Lemma steps_wf self es : Forall event_ok es -> store_wf self ->
  exists self', steps self es = Some self' /\ store_wf self' /\ settings self' = settings self /\
    shard_mask self' = shard_mask self /\ length (shards self') = length (shards self).
Proof.
  intros Hes. revert self. induction Hes as [|e es He _ IH]; intros self Hwf; simpl; [by exists self|].
  destruct (step_wf self e He Hwf) as (self1 & -> & Hwf1 & E1 & E2 & E3). simpl.
  destruct (IH self1 Hwf1) as (self2 & -> & Hwf2 & F1 & F2 & F3). exists self2. split_and!; [done|done|congruence..].
Qed.

(** A store as built. *)
Lemma next_power_of_two_spec n : 1 <= n -> exists k, 0 <= k /\ next_power_of_two n = 2 ^ k /\ n <= 2 ^ k.
Proof.
  intros Hn. exists (Z.log2_up n). pose proof (Z.log2_up_nonneg n). split_and!; [done| |].
  - unfold next_power_of_two. by rewrite Z.shiftl_1_l.
  - destruct (Z.eq_dec n 1) as [->|Hne]; [done|]. apply Z.log2_up_spec. lia.
Qed.

Lemma settings_cap eviction min_idle n : 1 <= per_shard_cap (new_settings eviction min_idle n) <= u32_max.
Proof.
  simpl. destruct (max_keys eviction) as [m|]; [|by vm_compute].
  apply (clamp_range (div_up m n) 1 MAX_SLOTS). by vm_compute.
Qed.

Lemma store_new_wf shards_ eviction min_idle : store_wf (new shards_ eviction min_idle).
Proof.
  unfold new, shard_count_for. set (n := clamp _ 1 MAX_SHARDS).
  assert (Hn : 1 <= n) by (apply (clamp_range _ 1 MAX_SHARDS); by vm_compute).
  destruct (next_power_of_two_spec n Hn) as (k & Hk & Hp & _). rewrite Hp.
  assert (Hpos : 0 < 2 ^ k) by (apply Z.pow_pos_nonneg; lia).
  pose proof (settings_cap eviction min_idle (2 ^ k)) as Hcap. split; [done|split].
  - exists k. split_and!; [done|simpl; by rewrite Z.ones_equiv, <- Z.sub_1_r|simpl; rewrite length_replicate; lia].
  - intros i s Hs. simpl in Hs. apply lookup_replicate in Hs as [-> _]. split.
    + apply shard_wf_new. unfold settings. lia.
    + intros slot Hin. by apply elem_of_nil in Hin.
Qed.

(** ** What callers see *)

(** The live entry of a key. *)
Definition lookup self (k : K) : option (Entry B) :=
  s ← shards self !! shard_index self (hash_one k); get s (hash_one k) k.

(** The slot at a place. *)
Definition slot_at self (i p : nat) : option (Slot K B) := s ← shards self !! i; slots s !! p.

Lemma slot_at_spec self i p slot : slot_at self i p = Some slot <->
  exists s, shards self !! i = Some s /\ slots s !! p = Some slot.
Proof. unfold slot_at. destruct (shards self !! i) as [s|]; simpl; naive_solver. Qed.

Lemma lookup_spec self k e : store_wf self ->
  lookup self k = Some e <-> exists i p slot, slot_at self i p = Some slot /\ key slot = k /\ entry slot = e.
Proof.
  intros Hwf. pose proof (shard_index_lt self (hash_one k) Hwf) as Hlt.
  apply lookup_lt_is_Some in Hlt as [s Hs]. destruct Hwf as (_ & _ & Hshards).
  unfold lookup. rewrite Hs. simpl. destruct (Hshards _ _ Hs) as [Hswf _]. rewrite (get_spec hash_one _ s k e Hswf). split.
  - intros (slot & (p & Hp)%list_elem_of_lookup & Hk & He). exists (shard_index self (hash_one k)), p, slot.
    split; [apply slot_at_spec; eauto|done].
  - intros (i & p & slot & (s' & Hs' & Hp)%slot_at_spec & Hk & He).
    destruct (Hshards _ _ Hs') as [(_ & _ & Hall & _) Hhome]. rewrite Forall_forall in Hall.
    assert (Hin : slot ∈ slots s') by (by eapply list_elem_of_lookup_2). destruct (Hall slot Hin) as [Hh _].
    specialize (Hhome slot Hin). rewrite Hh, Hk in Hhome. rewrite <- Hhome, Hs in Hs'. injection Hs' as <-.
    exists slot. done.
Qed.

(** The key has no state in its shard, which has no room for it. *)
Definition kept_out self (k : K) (now : Duration) : Prop :=
  lookup self k = None /\
  exists s, shards self !! shard_index self (hash_one k) = Some s /\
    ~ Ledger.known (ledger s) (hash_one k) /\ no_room (settings self) s now.

(** An operation for a key is asked about the bucket that a view of the key
    shows, whether the key is live, forgotten in debt or new, and the key has
    the bucket it leaves; only a new key without room may be refused. *)
Lemma with_or_insert_result {R} self k now config (op : B -> R * B) : store_wf self ->
  exists s r self', shards self !! shard_index self (hash_one k) = Some s /\
    with_or_insert hash_one self k now config op = Some (r, self') /\
    (r = Ok (op (view_of now config (hash_one k) k s)).1 \/
     (kept_out self k now /\ exists w, r = Err w /\ MIN_REFUSAL_WAIT <= w)) /\
    (conf_ok config -> (forall b, bk_capacity (op b).2 = bk_capacity b) ->
     bucket <$> lookup self' k =
       match r with Ok _ => Some (op (view_of now config (hash_one k) k s)).2 | Err _ => None end).
Proof.
  intros Hwf. pose proof (shard_index_lt self (hash_one k) Hwf) as Hlt.
  pose proof Hlt as Hlt'. apply lookup_lt_is_Some in Hlt as [s Hs]. destruct Hwf as (Hcap & _ & Hshards).
  destruct (Hshards _ _ Hs) as [Hswf _]. exists s. unfold with_or_insert, then_locked, locked, lookup. rewrite Hs.
  cbn [mbind option_bind].
  pose proof (fast_path_result (settings self) now op (hash_one k) k s) as Hf.
  pose proof (on_entry_entry hash_one (settings self) (touched (settings self) now) op k s Hswf (fun e => eq_refl)) as He.
  fold (fast_path (settings self) now op (hash_one k) k s) in He.
  unfold shard_index in *. cbn [shards shard_mask settings].
  destruct (fast_path (settings self) now op (hash_one k) k s) as [[r|] s0].
  - destruct (get s (hash_one k) k) as [e|] eqn:Eg; [|done]. injection Hf as ->.
    do 2 eexists. split_and!; [done|reflexivity|left; unfold view_of; by rewrite Eg|].
    intros _ Hop. cbn [shards]. rewrite list_lookup_insert_eq by done. cbn [mbind option_bind].
    destruct (He Hop) as (e' & [= <-] & Hb). unfold view_of. rewrite Eg. exact Hb.
  - destruct (get s (hash_one k) k) as [e|] eqn:Eg; [done|]. injection Hf as ->. clear He.
    pose proof (slow_path_result hash_one (settings self) Hcap now config op k s Hswf) as Hr.
    pose proof (slow_path_entry hash_one (settings self) Hcap now config op k s Hswf) as Hent.
    destruct (slow_path (settings self) now config op (hash_one k) k s) as [r s'] eqn:Es.
    rewrite list_insert_id by exact Hs. cbn [mbind option_bind shards shard_mask settings]. rewrite Hs.
    cbn [mbind option_bind]. rewrite Es. do 2 eexists. split_and!; [done|reflexivity| |].
    + simpl in Hr. destruct Hr as [Hr|(_ & Hno & Hroom & Hr)]; [by left|right]. split; [|exact Hr].
      unfold kept_out, lookup, shard_index. rewrite Hs. simpl. split; [done|]. by exists s.
    + intros Hok Hop. cbn [shards]. rewrite list_lookup_insert_eq by done. cbn [mbind option_bind]. by apply Hent.
Qed.

Lemma slot_unique self i j p q slot slot' : store_wf self ->
  slot_at self i p = Some slot -> slot_at self j q = Some slot' -> key slot = key slot' -> i = j /\ p = q.
Proof.
  intros (_ & _ & Hshards) (s & Hs & Hp)%slot_at_spec (s' & Hs' & Hq)%slot_at_spec Hk.
  destruct (Hshards _ _ Hs) as [(_ & Hnd & Hall & _) Hhome]. destruct (Hshards _ _ Hs') as [(_ & _ & Hall' & _) Hhome'].
  rewrite Forall_forall in Hall, Hall'.
  assert (Hin : slot ∈ slots s) by (by eapply list_elem_of_lookup_2).
  assert (Hin' : slot' ∈ slots s') by (by eapply list_elem_of_lookup_2).
  destruct (Hall slot Hin) as [E _]. destruct (Hall' slot' Hin') as [E' _].
  assert (i = j) as ->.
  { rewrite <- (Hhome slot Hin), <- (Hhome' slot' Hin'), E, E', Hk. done. }
  split; [done|]. rewrite Hs in Hs'. injection Hs' as <-.
  eapply (NoDup_lookup (key <$> slots s)); [done|..]; rewrite list_lookup_fmap, ?Hp, ?Hq; simpl; [done|by rewrite Hk].
Qed.

Lemma len_bound self : store_wf self -> len self <= per_shard_cap (settings self) * shard_count self.
Proof.
  intros (_ & _ & Hshards). unfold len, shard_count.
  assert (Hall : Forall (fun s => Z.of_nat (length (slots s)) <= per_shard_cap (settings self)) (shards self)).
  { apply Forall_lookup. intros i s Hs. destruct (Hshards i s Hs) as [(_ & _ & _ & _ & Hc & _) _]. done. }
  clear Hshards. induction Hall as [|s l Hs _ IH]; [simpl; unfold sum_with; simpl; lia|]. rewrite sum_with_cons. simpl length. rewrite Nat2Z.inj_succ, Z.mul_succ_r. lia.
Qed.

(** The spread cap exceeds the configured one by less than one key per shard. *)
Lemma cap_spread eviction min_idle n max : 0 < n -> max_keys eviction = Some max -> 0 <= max ->
  per_shard_cap (new_settings eviction min_idle n) * n <= Z.max max 1 + n - 1 \/
  per_shard_cap (new_settings eviction min_idle n) = 1.
Proof.
  intros Hn Hm Hmax0. simpl. rewrite Hm. unfold clamp. pose proof (div_up_enough max n Hn).
  assert (Hu : div_up max n * n <= max + n - 1).
  { unfold div_up. pose proof (Z.mod_pos_bound (- max) n Hn). pose proof (Z.div_mod (- max) n ltac:(lia)). lia. }
  destruct (Z.ltb_spec (div_up max n) 1); [by right|]. left.
  destruct (Z.ltb_spec MAX_SLOTS (div_up max n)); [|lia]. nia.
Qed.

(** ** Debt over a run *)

Definition store_owes self (now : Duration) (h : Z) (t : Duration) : Prop :=
  exists s, shards self !! shard_index self h = Some s /\ owes s now h t /\ exclusive s h.

Lemma owes_later (s : ShardMap T K B) now now' h t : now <= now' -> owes s now h t -> owes s now' h t.
Proof.
  intros Hn [Ho|(slot & Hin & Hh & Ht)]; [by left|right]. exists slot. split_and!; [done|done|].
  pose proof (core_elapsed (bucket (entry slot)) now now' Hn). lia.
Qed.

Lemma step_owes self e now h t self' : store_wf self -> event_ok e -> step self e = Some self' ->
  sole hash_one h -> forget_debt (settings self) = false -> keeps h e -> at_time now e -> 0 <= now < t -> t <= DURATION_MAX ->
  store_owes self now h t -> store_owes self' now h t.
Proof.
  intros Hwf Hok Hstep Hsole Hf Hkeep Hat Ht Hmax (s & Hs & Ho & He).
  destruct (event_key e) as [k|] eqn:Ek; [|by destruct e].
  destruct (locked_step self e k Ek Hwf) as (s0 & Hs0 & Hst). rewrite Hst in Hstep. apply (inj Some) in Hstep. subst self'.
  pose proof Hwf as (Hcap & _ & Hshards). destruct (Hshards _ _ Hs0) as [Hwf0 _].
  destruct (section_facts _ e s0 k Hcap Ek Hok Hwf0) as (_ & _ & G3 & G4).
  unfold store_owes, shard_index. cbn [shards shard_mask].
  destruct (decide (shard_index self h = shard_index self (hash_one k))) as [E|E].
  - rewrite E, Hs0 in Hs. injection Hs as <-. exists (section_of (settings self) e s0).
    split_and!; [|by apply G4|by apply G3]. unfold shard_index in *. rewrite E.
    apply list_lookup_insert_eq. by eapply lookup_lt_Some.
  - exists s. split_and!; [|done|done]. unfold shard_index in *. by rewrite list_lookup_insert_ne.
Qed.

Lemma steps_owes es : forall self now now' h t self', store_wf self -> Forall event_ok es -> steps self es = Some self' ->
  sole hash_one h -> forget_debt (settings self) = false -> Forall (keeps h) es -> timed now es now' ->
  0 <= now -> now' < t <= DURATION_MAX -> store_owes self now h t -> store_owes self' now' h t.
Proof.
  induction es as [|e es IH]; intros self now now' h t self' Hwf Hok Hst Hsole Hf Hkeep Htime H0' Ht Ho; simpl in *.
  - injection Hst as <-. destruct Ho as (s & Hs & Ho & He). exists s. split_and!; [done|by eapply owes_later|done].
  - apply Forall_cons in Hok as [Hok1 Hok]. apply Forall_cons in Hkeep as [Hk1 Hkeep].
    destruct (step_wf self e Hok1 Hwf) as (self1 & E & Hwf1 & Es & _). rewrite E in Hst. simpl in Hst.
    assert (Htail : forall n, now <= n -> timed n es now' -> at_time n e -> store_owes self' now' h t).
    { intros n Hn Htl Hat. assert (Hle : n <= now') by (by eapply timed_le).
      apply (IH self1 n now' h t self'); try done; [congruence|lia|].
      apply (step_owes self e n h t self1); try done; [lia|lia|].
      destruct Ho as (s & Hs & Ho & He). exists s. split_and!; [done|by eapply owes_later|done]. }
    destruct e; simpl in Htime; try (apply (Htail now); [lia|done|done]);
      destruct Htime as [Hn Htl]; by apply (Htail now0).
Qed.

Definition all_exclusive self (h : Z) : Prop :=
  forall s, shards self !! shard_index self h = Some s -> exclusive s h.

Lemma exclusive_new h : exclusive (Shard.new (T := T) (K := K) (B := B)) h.
Proof. left. intros slot Hin. by apply elem_of_nil in Hin. Qed.

Lemma step_exclusive self e h self' : store_wf self -> event_ok e -> step self e = Some self' ->
  sole hash_one h -> all_exclusive self h -> all_exclusive self' h.
Proof.
  intros Hwf Hok Hstep Hsole He. destruct (event_key e) as [k|] eqn:Ek.
  - destruct (locked_step self e k Ek Hwf) as (s0 & Hs0 & Hst). rewrite Hst in Hstep.
    apply (inj Some) in Hstep. subst self'. pose proof Hwf as (Hcap & _ & Hshards). destruct (Hshards _ _ Hs0) as [Hwf0 _].
    destruct (section_facts _ e s0 k Hcap Ek Hok Hwf0) as (_ & _ & G3 & _).
    intros s. unfold shard_index. cbn [shards shard_mask]. fold (shard_index self h).
    destruct (decide (shard_index self (hash_one k) = shard_index self h)) as [E|E].
    + unfold shard_index in *. rewrite E, list_lookup_insert_eq by (rewrite <- E; by eapply lookup_lt_Some).
      intros Hs. apply (inj Some) in Hs. subst s. apply G3; [done|]. apply He. unfold shard_index. by rewrite <- E.
    + unfold shard_index in *. rewrite list_lookup_insert_ne by done. apply He.
  - destruct e as [| | | | | |i]; try discriminate. simpl in Hstep. apply (inj Some) in Hstep. subst self'.
    intros s. unfold shard_index, clear_shard. cbn [shards shard_mask].
    intros [(_ & <- & _)|[_ Hs]]%list_lookup_insert_Some; [apply exclusive_new|by apply He].
Qed.

Lemma steps_exclusive es : forall self h self', store_wf self -> Forall event_ok es -> steps self es = Some self' ->
  sole hash_one h -> all_exclusive self h -> all_exclusive self' h.
Proof.
  induction es as [|e es IH]; intros self h self' Hwf Hok Hst Hsole He; simpl in Hst.
  - apply (inj Some) in Hst. by subst.
  - apply Forall_cons in Hok as [Hok1 Hok].
    destruct (step_wf self e Hok1 Hwf) as (self1 & E & Hwf1 & _). rewrite E in Hst. simpl in Hst.
    exact (IH self1 h self' Hwf1 Hok Hst Hsole (step_exclusive self e h self1 Hwf Hok1 E Hsole He)).
Qed.

(** What the shard knows is what a view of the key shows. *)
Lemma view_owes set s now k t config : shard_wf hash_one (per_shard_cap set) s -> conf_ok config ->
  sole hash_one (hash_one k) -> exclusive s (hash_one k) -> owes s now (hash_one k) t ->
  0 <= now -> t <= DURATION_MAX -> t <= now + full_wait (view_of now config (hash_one k) k s) now.
Proof.
  intros Hwf Hok Hsole He Ho Hnow Hmax. pose proof Hwf as (_ & _ & Hall & Hled & _). rewrite Forall_forall in Hall.
  assert (Hkey : forall slot, slot ∈ slots s -> hash slot = hash_one k -> key slot = k).
  { intros slot Hin Hh. apply Hsole; [|done]. destruct (Hall slot Hin) as [E _]. congruence. }
  unfold view_of. destruct (get s (hash_one k) k) as [e|] eqn:Eg.
  - destruct Ho as [Ho|(slot & Hin & Hh & Ht)].
    + exfalso. apply (get_spec hash_one _ s k e Hwf) in Eg as (slot & Hin & Hk & _). destruct (Hall slot Hin) as [Eh _].
      apply Ledger.owed_known in Ho. destruct He as [He|He]; [|done]. apply (He slot Hin). congruence.
    + assert (Eg' : get s (hash_one k) k = Some (entry slot)) by (apply (get_spec hash_one _ s k _ Hwf); eauto).
      rewrite Eg in Eg'. injection Eg' as ->. done.
  - apply (get_none hash_one _ s k Hwf) in Eg. destruct Ho as [(d & Hd & Hdh & Hdt)|(slot & Hin & Hh & _)].
    + destruct (Ledger.position (ledger s) (hash_one k)) as [pos|] eqn:Ep.
      * destruct (Ledger.position_some _ _ _ Ep) as (d' & Hd' & Hdh'). simpl. rewrite Hd'.
        assert (d' = d) as ->.
        { destruct Hled as [_ Hnd]. eapply Ledger.debt_unique; [exact Hnd|by eapply list_elem_of_lookup_2|done|congruence]. }
        destruct (Ledger.restore_debt_spec (B := B) config now (Ledger.settles_at d) Hok); lia.
      * exfalso. apply (Ledger.position_none _ _ Hled Ep). apply list_elem_of_fmap. eauto.
    + exfalso. apply Eg, list_elem_of_fmap. exists slot. split; [|done]. symmetry. by apply Hkey.
Qed.

(** ** Theorems *)

(** C17: Whatever operations run, their locked sections interleaved in any order,
    no shard index is ever out of range, every key has at most one bucket in
    the whole store, looking a key up finds exactly that bucket, and no shard
    exceeds its cap. *)
Theorem store_consistent shards_ eviction min_idle es :
  Forall event_ok es ->
  exists self, steps (new shards_ eviction min_idle) es = Some self /\
    (forall k e, lookup self k = Some e <->
       exists i p slot, slot_at self i p = Some slot /\ key slot = k /\ entry slot = e) /\
    (forall i j p q slot slot', slot_at self i p = Some slot -> slot_at self j q = Some slot' ->
       key slot = key slot' -> i = j /\ p = q) /\
    (forall i s, shards self !! i = Some s -> Z.of_nat (length (slots s)) <= per_shard_cap (settings self) /\
       Z.of_nat (length (Ledger.debts (ledger s))) <= per_shard_cap (settings self)).
Proof.
  intros Hes. destruct (steps_wf _ es Hes (store_new_wf shards_ eviction min_idle)) as (self & Hst & Hwf & _).
  exists self. split_and!; [done|intros k e; by apply lookup_spec|intros i j p q slot slot'; by apply slot_unique|].
  intros i s Hs. destruct Hwf as (_ & _ & Hshards). by destruct (Hshards i s Hs) as [(_ & _ & _ & _ & Hc & Hl) _].
Qed.

(** Memory is bounded: a store for at most [max] keys never holds more than
    [max] plus one key per shard, and never has more than [MAX_SHARDS] shards. *)
Theorem store_bounded shards_ eviction min_idle max es self :
  max_keys eviction = Some max -> 0 <= max -> Forall event_ok es ->
  steps (new shards_ eviction min_idle) es = Some self ->
  len self <= Z.max max 1 + shard_count self - 1 /\ 1 <= shard_count self <= MAX_SHARDS.
Proof.
  intros Hm Hmax0 Hes Hst. destruct (steps_wf _ es Hes (store_new_wf shards_ eviction min_idle)) as (self' & Hst' & Hwf & Es & _ & El).
  rewrite Hst in Hst'. apply (inj Some) in Hst'. subst self'. pose proof (len_bound self Hwf) as Hlen.
  assert (Hn : shard_count self = shard_count_for shards_ eviction /\ 1 <= shard_count_for shards_ eviction <= MAX_SHARDS).
  { unfold shard_count. rewrite El. simpl. rewrite length_replicate. unfold shard_count_for.
    set (n := clamp _ 1 MAX_SHARDS). assert (Hn : 1 <= n <= MAX_SHARDS) by (apply clamp_range; by vm_compute).
    assert (Hp : 1 <= next_power_of_two n <= MAX_SHARDS).
    { unfold next_power_of_two, MAX_SHARDS in *. rewrite !Z.shiftl_1_l in *. split.
      - pose proof (Z.pow_pos_nonneg 2 (Z.log2_up n) ltac:(lia) (Z.log2_up_nonneg n)). lia.
      - apply Z.pow_le_mono_r; [lia|]. change 16 with (Z.log2_up (2 ^ 16)). apply Z.log2_up_le_mono. lia. }
    split; [lia|done]. }
  destruct Hn as [Hn1 Hn2]. rewrite Es in Hlen. cbn [settings new] in Hlen. rewrite Hn1 in *.
  destruct (cap_spread eviction min_idle (shard_count_for shards_ eviction) max) as [Hc|Hc]; [lia|done|done|lia|].
  rewrite Hc in Hlen. lia.
Qed.

(** No operation on one key touches the bucket of another: afterwards the
    other key has the bucket it had, or was evicted. *)
Theorem keys_are_isolated self e k k' e' self' :
  store_wf self -> event_ok e -> event_key e = Some k -> k' <> k -> step self e = Some self' ->
  lookup self' k' = Some e' -> exists e0, lookup self k' = Some e0 /\ bucket e0 = bucket e'.
Proof.
  intros Hwf Hok Hk Hne Hst. destruct (step_wf self e Hok Hwf) as (self1 & Hst' & Hwf1 & _).
  rewrite Hst in Hst'. apply (inj Some) in Hst'. subst self1.
  intros (i & p & slot & Hslot & Hkey & <-)%(lookup_spec self' k' e' Hwf1).
  destruct (locked_step self e k Hk Hwf) as (s & Hs & Hst'). rewrite Hst in Hst'. apply (inj Some) in Hst'. subst self'.
  apply slot_at_spec in Hslot as (s' & Hs' & Hp). cbn [shards] in Hs'.
  apply list_lookup_insert_Some in Hs' as [(<- & <- & _)|[_ Hs']].
  - pose proof Hwf as (Hcap & _ & Hshards). destruct (Hshards _ _ Hs) as [Hwf0 _].
    destruct (section_facts _ e s k Hcap Hk Hok Hwf0) as (_ & G2 & _).
    destruct (G2 slot) as (slot0 & (q & Hq)%list_elem_of_lookup & [= _ E2 E3]); [by eapply list_elem_of_lookup_2|congruence|].
    exists (entry slot0). split; [|done]. apply (lookup_spec self k' _ Hwf). exists (shard_index self (hash_one k)), q, slot0.
    split_and!; [apply slot_at_spec; eauto|congruence|done].
  - exists (entry slot). split; [|done]. apply (lookup_spec self k' _ Hwf). exists i, p, slot.
    split_and!; [apply slot_at_spec; eauto|done|done].
Qed.

(** C3: No flood of other keys shortens a limit. A store that refuses new keys
    when full, in any state it can reach, with a key that is not clear of its
    debt before [t] and whose 64-bit hash no other key has: after any further
    operations with readings that do not go back and that do not refund, reset
    or remove that key, evictions included, a view of the key still does not
    recover before [t]. Under [ForgetDebt] it may recover earlier, as
    eviction.rs documents. *)
Theorem limited_key_stays_limited shards_ eviction min_idle es1 es2 self k e now now' config :
  when_full eviction = RefuseNew -> sole hash_one (hash_one k) ->
  Forall event_ok es1 -> steps (new shards_ eviction min_idle) es1 = Some self -> lookup self k = Some e ->
  Forall event_ok es2 -> Forall (keeps (hash_one k)) es2 -> timed now es2 now' -> 0 <= now ->
  now' < now + full_wait (bucket e) now <= DURATION_MAX -> conf_ok config ->
  exists self' w, steps self es2 = Some self' /\
    view hash_one self' k now' config (fun b => full_wait b now') = Some w /\
    now + full_wait (bucket e) now <= now' + w.
Proof.
  intros Hwhen Hsole Hok1 Hst1 Hlook Hok2 Hkeep Htime Hnow Ht Hconf.
  destruct (steps_wf _ es1 Hok1 (store_new_wf shards_ eviction min_idle)) as (self0 & E & Hwf & Es & _).
  rewrite Hst1 in E. apply (inj Some) in E. subst self0.
  destruct (steps_wf self es2 Hok2 Hwf) as (self' & Hst2 & Hwf' & Es' & _).
  assert (Hex : all_exclusive self (hash_one k)).
  { apply (steps_exclusive es1 (new shards_ eviction min_idle)); [apply store_new_wf|done|done|done|].
    intros s Hs. unfold new in Hs. cbn [shards] in Hs. apply lookup_replicate in Hs as [-> _]. apply exclusive_new. }
  assert (Ho : store_owes self now (hash_one k) (now + full_wait (bucket e) now)).
  { unfold lookup in Hlook. destruct (shards self !! shard_index self (hash_one k)) as [s|] eqn:Hs; [|done].
    exists s. split_and!; [done| |by apply Hex]. simpl in Hlook. destruct Hwf as (_ & _ & Hshards).
    destruct (Hshards _ _ Hs) as [Hswf _]. apply (get_spec hash_one _ s k e Hswf) in Hlook as (slot & Hin & Hk & <-).
    right. exists slot. split_and!; [done| |lia]. destruct Hswf as (_ & _ & Hall & _). rewrite Forall_forall in Hall.
    destruct (Hall slot Hin) as [-> _]. by rewrite Hk. }
  assert (Hf : forget_debt (settings self) = false) by (rewrite Es; simpl; by rewrite Hwhen).
  destruct (steps_owes es2 self now now' _ _ self' Hwf Hok2 Hst2 Hsole Hf Hkeep Htime Hnow Ht Ho) as (s & Hs & Hos & Hexs).
  exists self'. unfold view. rewrite Hs. eexists. split_and!; [done|done|].
  destruct Hwf' as (_ & _ & Hshards). destruct (Hshards _ _ Hs) as [Hswf _].
  apply (view_owes (settings self')); try done; [pose proof (timed_le _ _ _ Htime); lia|lia].
Qed.

End Events.

(** ** Runs on a concrete bucket and table *)

Section Demo.
Definition key_hash (key : Z) : Z := key.
Abbreviation run := (steps (T := Chain) (K := Z) (B := Meter) key_hash).

(** Ten units per second; a store with room for one key. *)
Definition demo_conf : BucketConf := mkConf 10 10 NANOS_PER_SEC 10.
Definition demo_new : Store Chain Z Meter := new 1 (Eviction.capacity 1) 0.
Definition spend (cost now : Z) (b : Meter) : Meter := (acquire_at b cost now).2.

(** Key 1 spends its whole burst at time 0; key 2 arrives and evicts it. *)
Definition demo_first : list event := [SlowPath 1 0 demo_conf (spend 10 0)].
Definition demo_flood : list event := [SlowPath 2 5 demo_conf (spend 1 5); FastPath 2 6 (spend 3 6)].
Definition demo_store : Store Chain Z Meter := default demo_new (run demo_new demo_first).

Lemma spend_ok cost now b : bk_capacity (spend cost now b) = bk_capacity b.
Proof. apply (law_capacity b cost 0 now). Qed.

Lemma demo_conf_ok : conf_ok demo_conf.
Proof. by vm_compute. Qed.

Lemma demo_first_ok : Forall event_ok demo_first.
Proof. repeat constructor; [done..|intros b; apply spend_ok]. Qed.

Lemma demo_flood_ok : Forall event_ok demo_flood.
Proof. repeat constructor; try done; intros b; apply spend_ok. Qed.

Lemma demo_flood_keeps : Forall (keeps key_hash 1) demo_flood.
Proof. apply Forall_cons. split; [by left|]. apply Forall_cons. split; [by left|constructor]. Qed.

Lemma key_hash_sole h : sole key_hash h.
Proof. unfold sole, key_hash. congruence. Qed.

Lemma demo_store_wf : store_wf key_hash demo_store.
Proof.
  unfold demo_store. destruct (steps_wf key_hash demo_new demo_first demo_first_ok (store_new_wf key_hash _ _ _)) as (s & E & Hs & _).
  rewrite E. exact Hs.
Qed.

Lemma store_consistent_witness :
  exists self, run demo_new (demo_first ++ demo_flood) = Some self /\ lookup key_hash self 1 = None /\
    exists e, lookup key_hash self 2 = Some e /\ exists i p slot, slot_at self i p = Some slot /\ key slot = 2 /\ entry slot = e.
Proof.
  assert (Hok : Forall event_ok (demo_first ++ demo_flood)) by (apply Forall_app; split; [apply demo_first_ok|apply demo_flood_ok]).
  destruct (store_consistent key_hash 1 (Eviction.capacity 1) 0 _ Hok) as (self & E & Hl & _).
  exists self. split; [exact E|]. vm_compute in E. injection E as <-. split; [vm_compute; reflexivity|].
  eexists. split; [vm_compute; reflexivity|]. apply Hl. vm_compute. reflexivity.
Defined.

Lemma store_bounded_witness :
  exists self, run demo_new (demo_first ++ demo_flood) = Some self /\ len self <= 1 /\ len self = 1.
Proof.
  assert (Hok : Forall event_ok (demo_first ++ demo_flood)) by (apply Forall_app; split; [apply demo_first_ok|apply demo_flood_ok]).
  destruct (run demo_new (demo_first ++ demo_flood)) as [self|] eqn:E; [|vm_compute in E; discriminate].
  exists self. split; [done|].
  destruct (store_bounded key_hash 1 (Eviction.capacity 1) 0 1 _ self eq_refl ltac:(lia) Hok E) as [Hb _].
  vm_compute in E. injection E as <-. split; [exact Hb|vm_compute; reflexivity].
Defined.

Lemma keys_are_isolated_witness :
  let self := demo_store in
  let e := FastPath 2 6 (spend 3 6) in
  exists self' e', step key_hash self e = Some self' /\ lookup key_hash self' 1 = Some e' /\
    exists e0, lookup key_hash self 1 = Some e0 /\ bucket e0 = bucket e'.
Proof.
  intros self e. do 2 eexists. split; [vm_compute; reflexivity|]. split; [vm_compute; reflexivity|].
  eapply (keys_are_isolated key_hash self e 2 1).
  - exact demo_store_wf.
  - intros b. apply spend_ok.
  - reflexivity.
  - done.
  - vm_compute. reflexivity.
  - vm_compute. reflexivity.
Defined.

Lemma limited_key_stays_limited_witness :
  exists self' w, run demo_store demo_flood = Some self' /\ lookup key_hash self' 1 = None /\
    view key_hash self' 1 10 demo_conf (fun b => full_wait b 10) = Some w /\ 1000000000 <= 10 + w.
Proof.
  destruct (limited_key_stays_limited key_hash 1 (Eviction.capacity 1) 0 demo_first demo_flood demo_store 1
    (mkEntry (mkMeter 10 10 1000000000 0 0) false 0) 0 10 demo_conf) as (self' & w & E & Hv & Hw).
  - reflexivity.
  - apply key_hash_sole.
  - apply demo_first_ok.
  - vm_compute. reflexivity.
  - vm_compute. reflexivity.
  - apply demo_flood_ok.
  - apply demo_flood_keeps.
  - by vm_compute.
  - lia.
  - by vm_compute.
  - apply demo_conf_ok.
  - exists self', w. split; [exact E|]. split; [vm_compute in E; injection E as <-; vm_compute; reflexivity|].
    split; [exact Hv|]. replace (full_wait _ _) with 1000000000 in Hw by (vm_compute; reflexivity). lia.
Defined.

End Demo.
