(* ===== verification/PerKey.v ===== *)
(** * PerKey (perkey.rs)

    One token bucket per key, over the sharded store. A clock reading is in
    nanoseconds; the store's times are since the limiter was built. An
    operation is [None] where a shard index is out of range and panics, which
    Store.v shows never happens. *)

From stdpp Require Import strings.
From S2P Require Import Prelude Decisions Bucket HashTable Shard Eviction Store Wait.
From S2P Require Ledger.

Definition DEFAULT_SHARDS : Z := 16.

Record PerKey (T K B : Type) := mkPerKey {
  store : Store T K B;
  config : option BucketConf;
  eviction : Eviction;
  shards : Z;
  epoch : Z }.
Arguments mkPerKey {T K B}. Arguments store {T K B}. Arguments config {T K B}.
Arguments eviction {T K B}. Arguments shards {T K B}. Arguments epoch {T K B}.

(** A configuration that failed grants nothing but the empty request. *)
Definition closed (cost : Z) : Decision := if cost =? 0 then Acquired else Impossible.

Definition map_decision (decision : BucketDecision) : Decision :=
  match decision with
  | Allowed => Acquired
  | Denied retry_after => if retry_after =? DURATION_MAX then Impossible else Retry retry_after
  | Unknown => Impossible
  end.

(** How long an empty bucket takes to refill. *)
Definition time_to_full (config : BucketConf) : Duration :=
  let nanos :=
    div_up (sat_mul u128_max (as_nanos (refill_period config)) (conf_capacity config))
      (Z.max (refill_amount config) 1) in
  from_nanos (to_u64_or_max nanos).

Section PerKey.
Context {T : Type} `{HashTable T} {K : Type} `{EqDecision K} {B : Type} `{Bucket B} `{BucketCore B}.
Context (hash_one : K -> Z).
Abbreviation perkey := (PerKey T K B).

Definition assemble (config : option BucketConf) (eviction : Eviction) (shards : Z) (reading : Z) : perkey := {|
  store := Store.new shards eviction (match config with Some config => time_to_full config | None => DURATION_ZERO end);
  config := config;
  eviction := eviction;
  shards := shards;
  epoch := reading |}.

Definition with_clock (self : perkey) (reading : Z) : perkey :=
  assemble (config self) (eviction self) (shards self) reading.
Definition with_eviction (self : perkey) (eviction : Eviction) (reading : Z) : perkey :=
  assemble (config self) eviction (shards self) reading.
Definition with_shards (self : perkey) (shards : Z) (reading : Z) : perkey :=
  assemble (config self) (eviction self) shards reading.

Definition capacity (self : perkey) : Z := match config self with Some config => conf_capacity config | None => 0 end.
Definition shard_count (self : perkey) : Z := Store.shard_count (store self).
Definition len (self : perkey) : Z := Store.len (store self).
Definition is_empty (self : perkey) : bool := Store.is_empty (store self).

Definition with_store (self : perkey) (s : Store T K B) : perkey :=
  mkPerKey s (config self) (eviction self) (shards self) (epoch self).

(** Time since the limiter was built. *)
Definition now (self : perkey) (reading : Z) : Duration := sat_sub reading (epoch self).

Definition decide (self : perkey) (key : K) (cost reading : Z) : option (Decision * perkey) :=
  match config self with
  | None => Some (closed cost, self)
  | Some config =>
      if conf_capacity config <? cost then Some (Impossible, self)
      else if cost =? 0 then Some (Acquired, self)
      else
        let now := now self reading in
        '(r, s) ← with_or_insert hash_one (store self) key now config
          (fun bucket => let '(d, bucket) := acquire_at bucket cost now in (map_decision d, bucket));
        Some (match r with Ok d => d | Err after => Retry after end, with_store self s)
  end.

Definition try_acquire_with_cost (self : perkey) (key : K) (cost reading : Z) : option (bool * perkey) :=
  '(d, self) ← decide self key cost reading; Some (is_acquired d, self).
Definition try_acquire (self : perkey) (key : K) (reading : Z) : option (bool * perkey) :=
  try_acquire_with_cost self key 1 reading.

Definition peek (self : perkey) (key : K) (cost reading : Z) : option Decision :=
  match config self with
  | None => Some (closed cost)
  | Some config =>
      if conf_capacity config <? cost then Some Impossible
      else
        let now := now self reading in
        wait ← view hash_one (store self) key now config (fun bucket => time_until_at bucket cost now);
        Some (match wait with
              | None => Impossible
              | Some wait => if is_zero wait then Acquired else Retry wait
              end)
  end.

Definition available (self : perkey) (key : K) (reading : Z) : option Z :=
  match config self with
  | None => Some 0
  | Some config =>
      let now := now self reading in
      view hash_one (store self) key now config (fun bucket => available_at bucket now)
  end.

Definition reserve (self : perkey) (key : K) (cost : Z) (max_wait : Duration) (reading : Z)
    : option (option Duration * perkey) :=
  match config self with
  | None => Some (None, self)
  | Some config =>
      if conf_capacity config <? cost then Some (None, self)
      else if cost =? 0 then Some (Some DURATION_ZERO, self)
      else
        let now := now self reading in
        '(r, s) ← with_or_insert hash_one (store self) key now config
          (fun bucket => reserve_at bucket cost max_wait now);
        Some (match r with Ok wait => wait | Err _ => None end, with_store self s)
  end.

Definition refund (self : perkey) (key : K) (cost : Z) : option perkey :=
  match config self with
  | None => Some self
  | Some config => '(_, s) ← Store.refund hash_one (store self) key cost config; Some (with_store self s)
  end.

Definition remove (self : perkey) (key : K) : option (bool * perkey) :=
  '(known, s) ← Store.remove hash_one (store self) key; Some (known, with_store self s).

Definition reset (self : perkey) (key : K) (reading : Z) : option (bool * perkey) :=
  let now := now self reading in
  '(r, s) ← with_existing hash_one (store self) key (fun bucket => (tt, core_reset_at bucket now));
  Some (match r with Some _ => true | None => false end, with_store self s).

Definition clear (self : perkey) : perkey := with_store self (Store.clear (store self)).

(** The step of the waiting acquire. *)
Definition step (self : perkey) (key : K) (cost : Z) (budget : Duration) (reading : Z) : option (Step * perkey) :=
  match config self with
  | None => Some (if cost =? 0 then Granted DURATION_ZERO else StepNever, self)
  | Some config =>
      if conf_capacity config <? cost then Some (StepNever, self)
      else if cost =? 0 then Some (Granted DURATION_ZERO, self)
      else
        let now := now self reading in
        '(r, s) ← with_or_insert hash_one (store self) key now config
          (fun bucket =>
             match reserve_at bucket cost budget now with
             | (Some wait, bucket) => (Granted wait, bucket)
             | (None, bucket) =>
                 (match time_until_at bucket cost now with None => StepNever | Some wait => StepRetry wait end, bucket)
             end);
        Some (match r with Ok step => step | Err after => StepRetry after end, with_store self s)
  end.

(** ** The builder *)

Record PerKeyBuilder := mkBuilder {
  amount : Z;
  period : Duration;
  burst_ : option Z;
  initial_ : option Z;
  eviction_ : Eviction;
  shards_ : Z }.

Definition Builder_new : PerKeyBuilder := mkBuilder 0 (from_secs 1) None None default_eviction DEFAULT_SHARDS.
Definition rate (b : PerKeyBuilder) (amount : Z) (period : Duration) : PerKeyBuilder :=
  mkBuilder amount period (burst_ b) (initial_ b) (eviction_ b) (shards_ b).
Definition builder_per_second (b : PerKeyBuilder) (amount : Z) : PerKeyBuilder := rate b amount (from_secs 1).
Definition builder_per_minute (b : PerKeyBuilder) (amount : Z) : PerKeyBuilder := rate b amount (from_secs 60).
Definition burst (b : PerKeyBuilder) (burst : Z) : PerKeyBuilder :=
  mkBuilder (amount b) (period b) (Some burst) (initial_ b) (eviction_ b) (shards_ b).
Definition initial (b : PerKeyBuilder) (initial : Z) : PerKeyBuilder :=
  mkBuilder (amount b) (period b) (burst_ b) (Some initial) (eviction_ b) (shards_ b).
Definition builder_eviction (b : PerKeyBuilder) (eviction : Eviction) : PerKeyBuilder :=
  mkBuilder (amount b) (period b) (burst_ b) (initial_ b) eviction (shards_ b).
Definition builder_shards (b : PerKeyBuilder) (shards : Z) : PerKeyBuilder :=
  mkBuilder (amount b) (period b) (burst_ b) (initial_ b) (eviction_ b) shards.

Definition builder_config (b : PerKeyBuilder) : Result BucketConf ThrottleError :=
  if amount b =? 0 then
    Err (InvalidConfig "rate amount must be non-zero; set it with rate/per_second/per_minute")
  else if is_zero (period b) then Err (InvalidConfig "rate period must be non-zero")
  else
    let capacity := default (amount b) (burst_ b) in
    if capacity =? 0 then Err (InvalidConfig "burst must be non-zero")
    else
      let initial := Z.min (default capacity (initial_ b)) capacity in
      match config_new capacity (amount b) (period b) initial with
      | Some config => Ok config
      | None => Err (InvalidConfig "the token bucket rejected the configuration")
      end.

Definition try_build (b : PerKeyBuilder) (reading : Z) : Result perkey ThrottleError :=
  match builder_config b with
  | Ok config => Ok (assemble (Some config) (eviction_ b) (shards_ b) reading)
  | Err e => Err e
  end.

Definition build (b : PerKeyBuilder) (reading : Z) : perkey :=
  let config := match builder_config b with Ok config => Some config | Err _ => None end in
  assemble config (eviction_ b) (shards_ b) reading.

Definition per_duration (amount : Z) (period : Duration) (reading : Z) : perkey :=
  build (rate Builder_new amount period) reading.
Definition per_second (rate reading : Z) : perkey := per_duration rate (from_secs 1) reading.
Definition per_minute (rate reading : Z) : perkey := per_duration rate (from_secs 60) reading.

End PerKey.

(** ** Theorems *)

Section Theorems.
Context {T : Type} `{HashTableLaws T} {K : Type} `{EqDecision K} {B : Type} `{BucketCoreLaws B} `{!BucketLaws B}.
Context (hash_one : K -> Z).
Implicit Types (self : PerKey T K B).

(** What a bucket answers, from how long the cost would have to wait: a wait
    for ever is never. *)
Lemma acquire_decision (b : B) cost now :
  map_decision (acquire_at b cost now).1 =
    match time_until_at b cost now with
    | None => Impossible
    | Some w => if is_zero w then Acquired else if w =? DURATION_MAX then Impossible else Retry w
    end.
Proof.
  pose proof (law_acquire b cost now) as Ha. destruct (time_until_at b cost now) as [w|].
  - unfold is_zero. destruct (base.decide (w = 0)) as [->|Hw]; [by rewrite Ha|]. rewrite Ha, (proj2 (Z.eqb_neq w 0)) by done.
    simpl. by destruct (w =? DURATION_MAX).
  - by rewrite Ha.
Qed.

(** C29: [peek] foretells [decide], for live, forgotten and new keys alike: the
    decision is the one peeked, where a wait that would last for ever is
    decided as impossible. It fails to only for a key that has no state at
    all, neither a bucket nor a debt, when its shard has no room: all the
    slots it may have are taken, the next ones its hand comes to are all
    limited, and its ledger is full, holds on to unsettled debts and may not
    forget any. The decision is then a refusal with a wait of at least a
    millisecond. *)
Theorem perkey_peek_predicts self key cost reading config_ :
  store_wf hash_one (store self) -> config self = Some config_ -> 0 < cost ->
  let set := Store.settings (store self) in
  exists d d' self', peek hash_one self key cost reading = Some d /\
    decide hash_one self key cost reading = Some (d', self') /\
    (d' = match d with Retry w => if w =? DURATION_MAX then Impossible else Retry w | _ => d end \/
     lookup hash_one (store self) key = None /\
     (exists s, Store.shards (store self) !! shard_index (store self) (hash_one key) = Some s /\
        ~ Ledger.known (ledger s) (hash_one key) /\
        Z.of_nat (length (slots s)) = per_shard_cap set /\
        limited_slots s (now self reading) (Nat.min CLOCK_SCAN (length (slots s))) /\
        forget_debt set = false /\
        Z.of_nat (length (Ledger.debts (ledger s))) = per_shard_cap set /\
        Ledger.unsettled (Ledger.debts (ledger s)) (Ledger.cursor (ledger s)) (now self reading) Ledger.LEDGER_SCAN) /\
     exists w, d' = Retry w /\ MIN_REFUSAL_WAIT <= w).
Proof.
  intros Hwf Hc Hcost set. unfold peek, decide. rewrite Hc. destruct (conf_capacity config_ <? cost); [by eauto 10|].
  rewrite (proj2 (Z.eqb_neq cost 0)) by lia. set (n := now self reading).
  destruct (with_or_insert_result hash_one (store self) key n config_
    (fun bucket => let '(d, bucket) := acquire_at bucket cost n in (map_decision d, bucket)) Hwf)
    as (s & r & self' & Hs & Hop & Hr & _).
  rewrite Hop. unfold view. rewrite Hs. cbn [mbind option_bind]. do 3 eexists. split; [done|]. split; [done|].
  destruct Hr as [->|((Hl & s' & Hs' & Hno & [G1 G2 G3 G4 G5]) & w & -> & Hw)]; [left|right].
  2:{ split_and!; [done| |by exists w]. rewrite Hs in Hs'. exists s'. exact (conj Hs' (conj Hno (conj G1 (conj G2 (conj G3 (conj G4 G5)))))). }
  set (b := view_of n config_ (hash_one key) key s) in *. pose proof (acquire_decision b cost n) as Ha.
  destruct (acquire_at b cost n) as [d b']. simpl in Ha |- *. rewrite Ha.
  destruct (time_until_at b cost n) as [w|]; [|done]. by destruct (is_zero w).
Qed.

(** The builder's errors: which configurations are refused, in which order,
    and that building one anyway gives a limiter that grants nothing. *)
Theorem perkey_config_errors (b : PerKeyBuilder) reading :
  let why := builder_config (B := B) b in
  why = (if amount b =? 0 then Err (InvalidConfig "rate amount must be non-zero; set it with rate/per_second/per_minute")
         else if period b =? 0 then Err (InvalidConfig "rate period must be non-zero")
         else if default (amount b) (burst_ b) =? 0 then Err (InvalidConfig "burst must be non-zero")
         else match config_new (default (amount b) (burst_ b)) (amount b) (period b)
                      (Z.min (default (default (amount b) (burst_ b)) (initial_ b)) (default (amount b) (burst_ b))) with
              | Some c => Ok c
              | None => Err (InvalidConfig "the token bucket rejected the configuration")
              end) /\
  forall e, why = Err e ->
    try_build (T := T) (K := K) (B := B) b reading = Err e /\
    let self := build (T := T) (K := K) (B := B) b reading in
    forall key cost now,
      decide hash_one self key cost now = Some (if cost =? 0 then Acquired else Impossible, self) /\
      peek hash_one self key cost now = Some (if cost =? 0 then Acquired else Impossible) /\
      reserve hash_one self key cost DURATION_MAX now = Some (None, self) /\
      available hash_one self key now = Some 0 /\ capacity self = 0.
Proof.
  intros why. split; [reflexivity|]. intros e He. unfold try_build, build. fold why. rewrite He. split; [done|].
  intros key cost now. unfold decide, peek, reserve, available, capacity, closed. simpl. done.
Qed.

(** A request beyond the burst creates no state and is never granted. *)
Theorem perkey_impossible_leaves_no_trace self key cost reading config_ max_wait :
  config self = Some config_ -> conf_capacity config_ < cost ->
  decide hash_one self key cost reading = Some (Impossible, self) /\
  reserve hash_one self key cost max_wait reading = Some (None, self) /\
  step hash_one self key cost max_wait reading = Some (StepNever, self).
Proof.
  intros Hc Hcost. unfold decide, reserve, step. rewrite Hc. by rewrite (proj2 (Z.ltb_lt _ _)) by done.
Qed.

End Theorems.

(** ** Runs *)

Lemma perkey_peek_predicts_witness :
  let self := mkPerKey demo_store (Some demo_conf) (Eviction.capacity 1) 1 0 in
  lookup key_hash demo_store 1 <> None /\
  exists self', peek key_hash self 1 3 7 = Some (Retry 299999993) /\
    decide key_hash self 1 3 7 = Some (Retry 299999993, self').
Proof.
  intros self. split; [vm_compute; discriminate|].
  destruct (perkey_peek_predicts key_hash self 1 3 7 demo_conf) as (d & d' & self' & Hp & Hd & Hr).
  - exact demo_store_wf.
  - reflexivity.
  - lia.
  - assert (Ed : d = Retry 299999993) by (vm_compute in Hp; by injection Hp as <-). subst d.
    destruct Hr as [-> | (Hl & _)]; [|exfalso; vm_compute in Hl; discriminate].
    exists self'. split; [exact Hp|exact Hd].
Defined.

Lemma perkey_config_errors_witness :
  let b := Builder_new in
  try_build (T := Chain) (K := Z) (B := Meter) b 0 =
    Err (InvalidConfig "rate amount must be non-zero; set it with rate/per_second/per_minute") /\
  decide key_hash (build (T := Chain) (K := Z) (B := Meter) b 0) 1 1 0 = Some (Impossible, build b 0).
Proof.
  intros b. destruct (perkey_config_errors (T := Chain) (K := Z) (B := Meter) key_hash b 0) as [Hwhy Herr].
  destruct (Herr _ Hwhy) as [Ht Hd]. split; [exact Ht|]. apply (Hd 1 1 0).
Defined.

Lemma perkey_impossible_leaves_no_trace_witness :
  let self := mkPerKey demo_store (Some demo_conf) (Eviction.capacity 1) 1 0 in
  decide key_hash self 5 11 0 = Some (Impossible, self) /\ lookup key_hash (store self) 5 = None.
Proof.
  intros self. split; [|vm_compute; reflexivity].
  apply (perkey_impossible_leaves_no_trace key_hash self 5 11 0 demo_conf 0); [reflexivity|by vm_compute].
Defined.

(** A store full of limited keys, its ledger full too: [peek] says a new key
    would be granted at once, and [decide] makes it wait for room. *)
Definition full_store : Store Chain Z Meter :=
  default demo_new (steps key_hash demo_new
    [SlowPath 1 0 demo_conf (spend 10 0); SlowPath 2 0 demo_conf (spend 10 0)]).

Example full_store_refuses_what_peek_grants :
  let self := mkPerKey full_store (Some demo_conf) (Eviction.capacity 1) 1 0 in
  peek key_hash self 3 1 0 = Some Acquired /\
  fst <$> decide key_hash self 3 1 0 = Some (Retry 1000000000).
Proof. split; vm_compute; reflexivity. Qed.
