(* ===== verification/Multi.v ===== *)
(** * Multi (multi.rs)

    Several named limiters taken together: a call names a cost per dimension,
    directly or through an alias, and takes every share or none. *)

From stdpp Require Import strings.
From S2P Require Import Prelude Decisions Limiter Compose Wait.

Record Dimension (W : Type) := mkDimension { name : string; limiter : Limiter W }.
Arguments mkDimension {W}. Arguments name {W}. Arguments limiter {W}.

Record Alias := mkAlias { alias_name : string; alias_target : string }.

Record Table (W : Type) := mkTable { dimensions : list (Dimension W); aliases : list Alias }.
Arguments mkTable {W}. Arguments dimensions {W}. Arguments aliases {W}.

Abbreviation costs := (list (string * Z)).

(** [iter().position] and [iter().find] *)
Fixpoint position {A} (p : A -> bool) (l : list A) : option nat :=
  match l with
  | [] => None
  | x :: l => if p x then Some O else S <$> position p l
  end.

Section Table.
Context {W : Type}.
Implicit Types (self : Table W).

Definition is_dimension self (n : string) : bool := existsb (fun d => bool_decide (name d = n)) (dimensions self).

(** The dimension a name stands for: itself, or the target of an alias. *)
Definition target self (n : string) : option string :=
  if is_dimension self n then Some n
  else alias_target <$> List.find (fun a => bool_decide (alias_name a = n)) (aliases self).

Definition cost_for self (dimension : string) (cs : costs) : Z :=
  foldl (fun sum c => sat_add u32_max sum c.2) 0
    (List.filter (fun c => bool_decide (target self c.1 = Some dimension)) cs).

Definition first_unknown self (cs : costs) : option nat :=
  position (fun c => bool_decide (target self c.1 = None)) cs.

End Table.

Record MultiLimiter (W : Type) := mkMulti { table : Table W; strict : bool }.
Arguments mkMulti {W}. Arguments table {W}. Arguments strict {W}.

Section Multi.
Context {W : Type}.
Implicit Types (self : MultiLimiter W) (cs : costs).

Definition pairs self cs : list (Limiter W * Z) :=
  (fun d => (limiter d, cost_for (table self) (name d) cs)) <$> dimensions (table self).

Definition unknown self cs : option nat := if strict self then first_unknown (table self) cs else None.

Definition with_strict self (strict : bool) : MultiLimiter W := mkMulti (table self) strict.

Definition dimension self (n : string) : option (Limiter W) :=
  t ← target (table self) n;
  limiter <$> List.find (fun d => bool_decide (name d = t)) (dimensions (table self)).

Definition peek_costs self cs : M W Decision :=
  match unknown self cs with
  | Some _ => mret Impossible
  | None => peek_all (pairs self cs)
  end.

Definition try_acquire_costs self cs : M W bool :=
  match unknown self cs with
  | Some _ => mret false
  | None => let! d := acquire_all (pairs self cs) in mret (is_acquired d)
  end.

Definition refund_costs self cs : M W unit :=
  refund_all (List.filter (fun it => 0 <? it.2) (pairs self cs)).

(** What was reserved becomes what was used: the difference is refunded or
    charged, dimension by dimension. *)
Fixpoint settle_each (t : Table W) (ds : list (Dimension W)) (estimated actual : costs) : M W unit :=
  match ds with
  | [] => mret tt
  | d :: ds =>
      let reserved := cost_for t (name d) estimated in
      let used := cost_for t (name d) actual in
      let! _ :=
        (if used <? reserved then refund (limiter d) (reserved - used)
         else if reserved <? used then let! _ := charge (limiter d) (used - reserved) in mret tt
         else mret tt) in
      settle_each t ds estimated actual
  end.
Definition settle_costs self (estimated actual : costs) : M W unit :=
  settle_each (table self) (dimensions (table self)) estimated actual.

Definition available self (n : string) : M W (option Z) :=
  match dimension self n with
  | None => mret None
  | Some l => let! n := Limiter.available l in mret (Some n)
  end.

Fixpoint pause_each (ds : list (Dimension W)) (duration : Duration) : M W unit :=
  match ds with
  | [] => mret tt
  | d :: ds => let! _ := Limiter.pause_for (limiter d) duration in pause_each ds duration
  end.
Definition pause_for self (duration : Duration) : M W unit := pause_each (dimensions (table self)) duration.

Fixpoint resume_each (ds : list (Dimension W)) : M W unit :=
  match ds with
  | [] => mret tt
  | d :: ds => let! _ := Limiter.resume (limiter d) in resume_each ds
  end.
Definition resume self : M W unit := resume_each (dimensions (table self)).

(** The longest pause, zero without dimensions. *)
Definition paused_for self : M W Duration :=
  paused_all ((fun d => (limiter d, 0)) <$> dimensions (table self)).

Definition drain_to self (n : string) (remaining : Z) : M W (option Z) :=
  match dimension self n with
  | None => mret None
  | Some l => let! drained := Limiter.drain_to l remaining in mret (Some drained)
  end.

(** Which dimension made a request impossible. *)
Fixpoint never_loop (t : Table W) (ds : list (Dimension W)) cs (fallback : option ThrottleError) : M W ThrottleError :=
  match ds with
  | [] => mret (default (CostExceedsCapacity 0 0) fallback)
  | d :: ds =>
      let cost := cost_for t (name d) cs in
      let capacity := capacity (limiter d) in
      if capacity <? cost then mret (CostExceedsCapacity cost capacity)
      else
        match fallback with
        | Some _ => never_loop t ds cs fallback
        | None =>
            let! p := peek (limiter d) cost in
            never_loop t ds cs (if bool_decide (p = Impossible) then Some (CostExceedsCapacity cost capacity) else None)
        end
  end.
Definition never_error self cs : M W ThrottleError := never_loop (table self) (dimensions (table self)) cs None.

(** What the waiting acquires run in the engine, and how they report its end. *)
Section Waiting.
Context (instant_now : W -> Z) (instant_max : Z).
Definition wait_step self cs := step_all instant_now instant_max (pairs self cs).
Definition wait_release self cs := release_all (pairs self cs).
Definition wait_paused self cs : M W Duration := paused_all (pairs self cs).
Definition wait_result self cs (r : Result unit Refusal) : M W (Result unit ThrottleError) :=
  match r with
  | Ok _ => mret (Ok tt)
  | Err RefusalNever => let! e := never_error self cs in mret (Err e)
  | Err RefusalTimedOut => mret (Err DeadlineExceeded)
  end.
(** The engine is not started for a name that a strict limiter does not know. *)
Definition wait_refused self cs : option ThrottleError := UnknownDimension <$> unknown self cs.
End Waiting.

(** ** The builder *)

Record MultiLimiterBuilder := mkMultiBuilder {
  b_dimensions : list (Dimension W);
  b_aliases : list Alias;
  b_strict : bool }.

Definition default_builder : MultiLimiterBuilder := mkMultiBuilder [] [] true.
Definition shared (b : MultiLimiterBuilder) (n : string) (l : Limiter W) : MultiLimiterBuilder :=
  mkMultiBuilder (b_dimensions b ++ [mkDimension n l]) (b_aliases b) (b_strict b).
Definition alias (b : MultiLimiterBuilder) (n target : string) : MultiLimiterBuilder :=
  mkMultiBuilder (b_dimensions b) (b_aliases b ++ [mkAlias n target]) (b_strict b).
Definition set_strict (b : MultiLimiterBuilder) (strict : bool) : MultiLimiterBuilder :=
  mkMultiBuilder (b_dimensions b) (b_aliases b) strict.

Definition build (b : MultiLimiterBuilder) : MultiLimiter W :=
  mkMulti (mkTable (b_dimensions b) (b_aliases b)) (b_strict b).

(** The loops of [try_build]: [seen] are the entries before the current one. *)
Fixpoint repeated_name (seen : list string) (ds : list (Dimension W)) : bool :=
  match ds with
  | [] => false
  | d :: ds => bool_decide (name d ∈ seen) || repeated_name (seen ++ [name d]) ds
  end.

Fixpoint bad_alias (ds : list (Dimension W)) (seen : list string) (als : list Alias) : option string :=
  match als with
  | [] => None
  | a :: als =>
      if existsb (fun d => bool_decide (name d = alias_name a)) ds || bool_decide (alias_name a ∈ seen)
      then Some "an alias reuses an existing dimension or alias name"
      else if negb (existsb (fun d => bool_decide (name d = alias_target a)) ds)
      then Some "an alias targets a dimension that does not exist"
      else bad_alias ds (seen ++ [alias_name a]) als
  end.

Definition try_build (b : MultiLimiterBuilder) : Result (MultiLimiter W) ThrottleError :=
  if repeated_name [] (b_dimensions b) then Err (InvalidConfig "two dimensions share a name")
  else
    match bad_alias (b_dimensions b) [] (b_aliases b) with
    | Some reason => Err (InvalidConfig reason)
    | None => Ok (build b)
    end.

End Multi.
Arguments MultiLimiterBuilder : clear implicits.

(** ** Lemmas on tables *)

Section TableLemmas.
Context {W : Type}.
Implicit Types (t : Table W) (ds : list (Dimension W)).

Lemma exists_name ds n : existsb (fun d => bool_decide (name d = n)) ds = true <-> n ∈ name <$> ds.
Proof.
  rewrite existsb_exists, list_elem_of_fmap. split.
  - intros (d & Hd & E%bool_decide_eq_true). exists d. split; [done|]. by apply list_elem_of_In.
  - intros (d & -> & Hd). exists d. split; [by apply list_elem_of_In|]. by apply bool_decide_eq_true.
Qed.

Lemma not_exists_name ds n : existsb (fun d => bool_decide (name d = n)) ds = false <-> n ∉ name <$> ds.
Proof. rewrite <- exists_name. by destruct (existsb _ ds). Qed.

Lemma repeated_name_spec seen ds :
  repeated_name seen ds = false <-> NoDup (name <$> ds) /\ forall n, n ∈ name <$> ds -> n ∉ seen.
Proof.
  revert seen. induction ds as [|d ds IH]; intros seen; simpl.
  - split; [intros _; split; [constructor|by intros n ?%elem_of_nil]|done].
  - rewrite orb_false_iff, bool_decide_eq_false, IH, NoDup_cons. setoid_rewrite elem_of_cons.
    setoid_rewrite elem_of_app. setoid_rewrite list_elem_of_singleton. split.
    + intros (Hd & Hnd & Hs). split_and!; [|done|].
      * intros Hin. apply (Hs (name d) Hin). by right.
      * intros n [->|Hn]; [done|]. intros Hin. apply (Hs n Hn). by left.
    + intros ((Hd & Hnd) & Hs). split_and!; [by apply Hs; left|done|].
      intros n Hn [Hin| ->]; [|done]. apply (Hs n); [by right|done].
Qed.

Definition alias_ok ds (seen : list string) (a : Alias) : Prop :=
  (alias_name a ∉ name <$> ds) /\ (alias_name a ∉ seen) /\ (alias_target a ∈ name <$> ds).

Lemma bad_alias_spec ds seen als :
  bad_alias ds seen als = None <-> NoDup (alias_name <$> als) /\ Forall (alias_ok ds seen) als.
Proof.
  revert seen. induction als as [|a als IH]; intros seen; simpl.
  - split; [intros _; split; constructor|done].
  - rewrite NoDup_cons, Forall_cons. unfold alias_ok at 1.
    destruct (existsb (fun d => bool_decide (name d = alias_name a)) ds) eqn:E1; simpl.
    { apply exists_name in E1. split; [done|]. intros (_ & (Hn & _) & _). done. }
    apply not_exists_name in E1. destruct (decide (alias_name a ∈ seen)) as [Hs|Hs].
    { rewrite (bool_decide_eq_true_2 _ Hs). split; [done|]. intros (_ & (_ & Hn & _) & _). done. }
    rewrite (bool_decide_eq_false_2 _ Hs).
    destruct (existsb (fun d => bool_decide (name d = alias_target a)) ds) eqn:E2; simpl.
    2:{ apply not_exists_name in E2. split; [done|]. intros (_ & (_ & _ & Hn) & _). done. }
    apply exists_name in E2. rewrite IH, !Forall_forall. unfold alias_ok.
    setoid_rewrite elem_of_app. setoid_rewrite list_elem_of_singleton. split.
    + intros [Hnd Hall]. split_and!; try done.
      * intros (a' & E & Hin)%list_elem_of_fmap. destruct (Hall a' Hin) as (_ & Hn & _). apply Hn. by right.
      * intros a' Hin. destruct (Hall a' Hin) as (H1 & H2 & H3). split_and!; [done|intros Hx; apply H2; by left|done].
    + intros ((Hna & Hnd) & _ & Hall). split; [done|]. intros a' Hin. destruct (Hall a' Hin) as (H1 & H2 & H3).
      split_and!; [done| |done]. intros [Hx|Hx]; [done|]. apply Hna, list_elem_of_fmap. eauto.
Qed.

Lemma target_dimension t n : n ∈ name <$> dimensions t -> target t n = Some n.
Proof. intros Hn. unfold target, is_dimension. by rewrite (proj2 (exists_name _ _) Hn). Qed.

(** Saturating sums are sums while they fit. *)
Lemma sat_total (cs : costs) acc : Forall (fun c => 0 <= c.2) cs -> 0 <= acc -> acc + sum_with snd cs <= u32_max ->
  foldl (fun sum c => sat_add u32_max sum c.2) acc cs = acc + sum_with snd cs.
Proof.
  intros Hcs. revert acc. induction Hcs as [|c cs Hc Hcs IH]; intros acc Ha Hs.
  - unfold sum_with. simpl. lia.
  - rewrite sum_with_cons in Hs |- *. simpl foldl. simpl in Hc.
    pose proof (sum_with_nonneg snd cs Hcs). rewrite sat_add_exact by lia. rewrite IH by lia. lia.
Qed.

Lemma filter_total (p : string * Z -> bool) (cs : costs) : Forall (fun c => 0 <= c.2) cs ->
  Forall (fun c => 0 <= c.2) (List.filter p cs) /\ 0 <= sum_with snd (List.filter p cs) <= sum_with snd cs.
Proof.
  induction 1 as [|c cs Hc Hcs IH]; simpl; [split; [constructor|unfold sum_with; simpl; lia]|].
  destruct IH as [IH1 IH2]. simpl in Hc. destruct (p c); rewrite ?sum_with_cons; split; try lia; by try constructor.
Qed.

Definition share_of t (d : string) (c : string * Z) : Z := if bool_decide (target t c.1 = Some d) then c.2 else 0.

Lemma cost_for_total t d (cs : costs) : Forall (fun c => 0 <= c.2) cs -> sum_with snd cs <= u32_max ->
  cost_for t d cs = sum_with (share_of t d) cs.
Proof.
  intros Hcs Hs. unfold cost_for.
  destruct (filter_total (fun c => bool_decide (target t c.1 = Some d)) cs Hcs) as [Hf Hle].
  rewrite sat_total; [|done|lia|lia]. clear Hf Hle Hs Hcs. simpl. unfold share_of.
  induction cs as [|c cs IH]; [done|]. simpl List.filter. rewrite (sum_with_cons _ c).
  destruct (bool_decide (target t c.1 = Some d)); rewrite ?sum_with_cons; lia.
Qed.

Lemma shares_sum t (c : string * Z) n ds : target t c.1 = Some n -> NoDup (name <$> ds) -> n ∈ name <$> ds ->
  sum_with (fun d => share_of t (name d) c) ds = c.2.
Proof.
  intros Ht. induction ds as [|d ds IH]; simpl; [by intros _ ?%elem_of_nil|].
  rewrite NoDup_cons, elem_of_cons, sum_with_cons. intros [Hd Hnd] Hin. unfold share_of at 1. rewrite Ht.
  destruct (decide (n = name d)) as [->|Hne].
  - rewrite bool_decide_eq_true_2 by done. rewrite sum_with_zero; [lia|].
    apply Forall_forall. intros d' Hd'. unfold share_of. rewrite Ht, bool_decide_eq_false_2; [done|].
    intros [= E]. apply Hd. rewrite E. by apply list_elem_of_fmap_2.
  - rewrite bool_decide_eq_false_2 by congruence. destruct Hin as [|Hin]; [done|]. rewrite IH by done. lia.
Qed.

Lemma first_unknown_none t cs : first_unknown t cs = None -> Forall (fun c => is_Some (target t c.1)) cs.
Proof.
  unfold first_unknown. induction cs as [|c cs IH]; simpl; [constructor|].
  destruct (target t c.1) as [n|] eqn:E; simpl; [|done].
  intros Hp. constructor; [by rewrite E|]. apply IH. by destruct (position _ cs).
Qed.

End TableLemmas.

(** ** Instrumented limiters *)

Section MultiBooks.
Context {W : Type}.
Implicit Types (self : MultiLimiter W) (t : Table W).

Definition instrument_from (n : nat) (ds : list (Dimension W)) : list (Dimension (W * list event)) :=
  imap (fun i d => mkDimension (name d) (instrument (n + i) (limiter d))) ds.
Definition instrument_table t : Table (W * list event) := mkTable (instrument_from 0 (dimensions t)) (aliases t).
(** Every dimension logs what it grants and gets back, under its number. *)
Definition instrumented self : MultiLimiter (W * list event) := mkMulti (instrument_table (table self)) (strict self).

Lemma instrument_cons n d ds :
  instrument_from n (d :: ds) = mkDimension (name d) (instrument n (limiter d)) :: instrument_from (S n) ds.
Proof.
  unfold instrument_from. simpl. rewrite Nat.add_0_r. f_equal.
  apply imap_ext. intros i x _. simpl. by rewrite Nat.add_succ_r.
Qed.

Lemma instrument_names n ds : name <$> instrument_from n ds = name <$> ds.
Proof.
  revert n. induction ds as [|d ds IH]; intros n; [done|]. rewrite instrument_cons. simpl. f_equal. apply IH.
Qed.

Lemma instrument_target t n : target (instrument_table t) n = target t n.
Proof.
  unfold target, is_dimension. simpl.
  assert (E : existsb (fun d => bool_decide (name d = n)) (instrument_from 0 (dimensions t)) =
    existsb (fun d => bool_decide (name d = n)) (dimensions t)).
  { apply eq_true_iff_eq. by rewrite !exists_name, instrument_names. }
  by rewrite E.
Qed.

Lemma instrument_cost t d cs : cost_for (instrument_table t) d cs = cost_for t d cs.
Proof. unfold cost_for. f_equal. apply filter_ext. intros c. by rewrite instrument_target. Qed.

Fixpoint named_from (t : Table W) (n : nat) (ds : list (Dimension W)) (cs : costs) : named W :=
  match ds with
  | [] => []
  | d :: ds => (n, limiter d, cost_for t (name d) cs) :: named_from t (S n) ds cs
  end.

Lemma pairs_instrumented self cs :
  pairs (instrumented self) cs = items_of (named_from (table self) 0 (dimensions (table self)) cs).
Proof.
  unfold pairs. change (table (instrumented self)) with (instrument_table (table self)).
  change (dimensions (instrument_table (table self))) with (instrument_from 0 (dimensions (table self))).
  generalize 0%nat as n. generalize (dimensions (table self)) as ds. induction ds as [|d ds IH]; intros n; [done|].
  rewrite instrument_cons. simpl. f_equal; [|apply IH]. by rewrite instrument_cost.
Qed.

(** Each dimension's share is its own cost. *)
Lemma share_named t n ds cs who :
  share (named_from t n ds cs) who =
    if (who <? n)%nat then 0 else match ds !! (who - n)%nat with Some d => cost_for t (name d) cs | None => 0 end.
Proof.
  revert n. induction ds as [|d ds IH]; intros n; simpl named_from.
  - rewrite share_nil. by destruct (_ <? _)%nat.
  - rewrite share_cons, IH. simpl. destruct (Nat.ltb_spec who n), (Nat.ltb_spec who (S n)); try case_decide; try lia.
    + assert (who - n = 0)%nat as -> by lia. simpl. lia.
    + replace (who - n)%nat with (S (who - S n)) by lia. simpl. lia.
Qed.

(** What settling owes one dimension: what was reserved and not used is given
    back, what was used beyond it is charged. *)
Definition settled_one t (estimated actual : costs) (w : W) (d : Dimension W) : W :=
  let reserved := cost_for t (name d) estimated in
  let used := cost_for t (name d) actual in
  if used <? reserved then (refund (limiter d) (reserved - used) w).2
  else if reserved <? used then (charge (limiter d) (used - reserved) w).2
  else w.

(** The world when the dimensions [ds] have been settled, in their order. *)
Definition settled t (estimated actual : costs) ds (w : W) : W :=
  foldl (settled_one t estimated actual) w ds.

(** What a dimension settled in world [w] answers it could not charge. *)
Definition uncharged t (estimated actual : costs) (d : Dimension W) (w : W) : Z :=
  let reserved := cost_for t (name d) estimated in
  let used := cost_for t (name d) actual in
  if reserved <? used then (charge (limiter d) (used - reserved) w).1 else 0.

Lemma settle_each_books t n ds estimated actual s who :
  let s' := (settle_each (instrument_table t) (instrument_from n ds) estimated actual s).2 in
  s'.1 = settled t estimated actual ds s.1 /\
  outstanding s'.2 who = outstanding s.2 who +
    (if (who <? n)%nat then 0
     else match ds !! (who - n)%nat with
          | Some d => cost_for t (name d) actual - cost_for t (name d) estimated -
                      uncharged t estimated actual d (settled t estimated actual (take (who - n) ds) s.1)
          | None => 0
          end).
Proof.
  revert n s. induction ds as [|d ds IH]; intros n s; cbv zeta.
  { simpl. destruct (_ <? _)%nat; simpl; split; (done || lia). }
  rewrite instrument_cons. simpl settle_each. rewrite !instrument_cost.
  set (reserved := cost_for t (name d) estimated). set (used := cost_for t (name d) actual).
  rewrite mthen_run. match goal with |- context [settle_each _ _ _ _ (?m s).2] => set (s1 := (m s).2) end.
  destruct (IH (S n) s1) as [Hw Ho]. clear IH.
  assert (Hs1 : s1.1 = settled_one t estimated actual s.1 d /\
    outstanding s1.2 who = outstanding s.2 who +
      (if decide (n = who) then used - reserved - uncharged t estimated actual d s.1 else 0)).
  { unfold s1, settled_one, uncharged. fold reserved used. clear s1 Hw Ho.
    destruct (Z.ltb_spec used reserved) as [Hlt|Hge].
    - rewrite (proj2 (Z.ltb_ge reserved used)) by lia.
      split; [simpl; rewrite mthen_run; simpl; unfold lift; by destruct (refund _ _ _)|].
      pose proof (moves_refund n (limiter d) (reserved - used) s who) as Hm. etransitivity; [exact Hm|].
      simpl. case_decide; lia.
    - destruct (Z.ltb_spec reserved used) as [Hlt|Hge']; [|simpl; split; [done|case_decide; lia]].
      rewrite mthen_run. simpl. unfold mthen, lift, note, mret.
      destruct (charge (limiter d) (used - reserved) s.1) as [unch w']. simpl. split; [done|].
      rewrite outstanding_snoc. simpl. case_decide; lia. }
  destruct Hs1 as [Hw1 Ho1]. split; [by rewrite Hw, Hw1|]. rewrite Ho, Ho1, Hw1.
  destruct (Nat.ltb_spec who n), (Nat.ltb_spec who (S n)); try lia; case_decide; try lia.
  - assert (who - n = 0)%nat as -> by lia. simpl. subst reserved used. lia.
  - replace (who - n)%nat with (S (who - S n)) by lia. simpl. lia.
Qed.

End MultiBooks.

(** ** Theorems *)

(** A request takes from every dimension exactly what it asks of it, or from
    none of them anything, whatever the limiters answer; a name a strict
    limiter does not know refuses the request before any limiter is asked. *)
Theorem multi_all_or_nothing {W : Type} (self : MultiLimiter W) (cs : costs) (s : W * list event) (i : nat) :
  let '(granted, s') := try_acquire_costs (instrumented self) cs s in
  outstanding s'.2 i = outstanding s.2 i +
    (if granted then match dimensions (table self) !! i with Some d => cost_for (table self) (name d) cs | None => 0 end else 0) /\
  (unknown self cs <> None -> granted = false /\ s' = s).
Proof.
  unfold try_acquire_costs. assert (Hu : unknown (instrumented self) cs = unknown self cs).
  { unfold unknown, first_unknown. simpl. destruct (strict self); [|done].
    induction cs as [|c cs IH]; [done|]. simpl. by rewrite instrument_target, IH. }
  rewrite Hu. destruct (unknown self cs) as [k|]; simpl; [split; [lia|done]|].
  rewrite pairs_instrumented, mthen_run.
  pose proof (moves_acquire_all (named_from (table self) 0 (dimensions (table self)) cs) s i) as Hm.
  destruct (acquire_all _ s) as [d s']. simpl in *. split; [|done]. rewrite Hm, share_named.
  destruct (is_acquired d); [|done]. simpl. by rewrite Nat.sub_0_r.
Qed.

(** C30: Settling turns what was reserved into what was used, dimension by
    dimension and in their order: a dimension that used less gets exactly the
    difference back, and one that used more is charged exactly the
    difference, in the world its predecessors left, so that it stands for
    what was used less just what its own [charge] answers it could not
    take. *)
Theorem multi_settle_exact {W : Type} (self : MultiLimiter W) (estimated actual : costs) (s : W * list event) (i : nat) d :
  dimensions (table self) !! i = Some d ->
  let t := table self in
  let s' := (settle_costs (instrumented self) estimated actual s).2 in
  let reserved := cost_for t (name d) estimated in
  let used := cost_for t (name d) actual in
  let before := settled t estimated actual (take i (dimensions t)) s.1 in
  let uncharged := if reserved <? used then (charge (limiter d) (used - reserved) before).1 else 0 in
  outstanding s'.2 i = outstanding s.2 i - reserved + (used - uncharged) /\
  s'.1 = settled t estimated actual (dimensions t) s.1.
Proof.
  intros Hd. destruct (settle_each_books (table self) 0 (dimensions (table self)) estimated actual s i) as [Hw Ho].
  rewrite Nat.sub_0_r, Hd in Ho. unfold uncharged in Ho. unfold settle_costs. simpl in *. split; [lia|done].
Qed.

(** C39: [try_build] accepts exactly the tables in which every name has one
    meaning; on such a table every unit of a request whose names are known is
    asked of exactly one dimension. *)
Theorem multi_names_partition {W : Type} (b : MultiLimiterBuilder W) :
  (is_Some (match try_build b with Ok self => Some self | Err _ => None end) <->
     NoDup (name <$> b_dimensions b) /\ NoDup (alias_name <$> b_aliases b) /\
     Forall (fun a => alias_name a ∉ (name <$> b_dimensions b)) (b_aliases b) /\
     Forall (fun a => alias_target a ∈ (name <$> b_dimensions b)) (b_aliases b)) /\
  forall self cs, try_build b = Ok self ->
    Forall (fun c => is_Some (target (table self) c.1)) cs -> Forall (fun c => 0 <= c.2) cs -> sum_with snd cs <= u32_max ->
    sum_with (fun d => cost_for (table self) (name d) cs) (dimensions (table self)) = sum_with snd cs.
Proof.
  assert (Hok : forall self, try_build b = Ok self -> self = build b /\
     NoDup (name <$> b_dimensions b) /\ NoDup (alias_name <$> b_aliases b) /\ Forall (alias_ok (b_dimensions b) []) (b_aliases b)).
  { intros self. unfold try_build. destruct (repeated_name _ _) eqn:E1; [done|].
    destruct (bad_alias _ _ _) eqn:E2; [done|]. intros [= <-].
    apply repeated_name_spec in E1 as [Hnd _]. apply bad_alias_spec in E2 as [Hna Hal]. done. }
  split.
  - split.
    + destruct (try_build b) as [self|e] eqn:E; [|by intros [? ?]]. intros _.
      destruct (Hok self eq_refl) as (_ & Hnd & Hna & Hal).
      split_and!; [done|done|..]; (eapply Forall_impl; [exact Hal|]); by intros a (? & ? & ?).
    + intros (Hnd & Hna & Hfresh & Htarget). unfold try_build.
      assert (E1 : repeated_name [] (b_dimensions b) = false).
      { apply repeated_name_spec. split; [done|]. by intros n _ ?%elem_of_nil. }
      assert (E2 : bad_alias (b_dimensions b) [] (b_aliases b) = None).
      { apply bad_alias_spec. split; [done|]. rewrite Forall_forall in *. intros a Ha.
        split_and!; [by apply Hfresh|by intros ?%elem_of_nil|by apply Htarget]. }
      by rewrite E1, E2.
  - intros self cs Hb Hknown Hpos Hsum. destruct (Hok self Hb) as (-> & Hnd & _ & Hal). simpl in *.
    set (t := mkTable (b_dimensions b) (b_aliases b)) in *.
    assert (Htarget : forall n m, target t n = Some m -> m ∈ name <$> b_dimensions b).
    { intros n m. unfold target, is_dimension. simpl. destruct (existsb _ _) eqn:E; [apply exists_name in E; by intros [= <-]|].
      destruct (List.find _ _) as [a|] eqn:Ef; [|done]. simpl. intros [= <-]. apply List.find_some in Ef as [Hin _].
      rewrite Forall_forall in Hal. apply (Hal a). by apply list_elem_of_In. }
    assert (Hds : sum_with (fun d => cost_for t (name d) cs) (b_dimensions b) =
      sum_with (fun d => sum_with (share_of t (name d)) cs) (b_dimensions b)).
    { generalize (b_dimensions b). intros ds. induction ds as [|d ds IH]; [done|]. rewrite !sum_with_cons, IH. f_equal.
      by apply cost_for_total. }
    rewrite Hds. clear Hds Hsum Hb. induction Hknown as [|c cs [n Hn] _ IH]; [by apply sum_with_zero, Forall_true|].
    apply Forall_cons in Hpos as [_ Hpos]. rewrite sum_with_cons, <- IH by done.
    rewrite <- (shares_sum t c n (b_dimensions b) Hn Hnd (Htarget _ _ Hn)). generalize (b_dimensions b). intros ds.
    induction ds as [|d ds IHd]; [done|]. rewrite !sum_with_cons, IHd. lia.
Qed.

(** ** Runs *)

Definition demo_table : MultiLimiter tanks :=
  mkMulti (mkTable [mkDimension "requests" (tank false 10); mkDimension "tokens" (tank true 10)]
    [mkAlias "input_tokens" "tokens"; mkAlias "output_tokens" "tokens"]) true.

Example demo_table_runs :
  fst (try_acquire_costs (instrumented demo_table) [("requests", 1); ("input_tokens", 3); ("output_tokens", 4)]%string
    (mkTanks 0 5 9, [])) = true /\
  fst (try_acquire_costs (instrumented demo_table) [("requests", 1); ("images", 1)]%string (mkTanks 0 5 9, [])) = false.
Proof. split; reflexivity. Qed.

Lemma multi_all_or_nothing_witness :
  outstanding (try_acquire_costs (instrumented demo_table) [("input_tokens", 3); ("output_tokens", 4)]%string
    (mkTanks 0 5 9, [])).2.2 1%nat = 0 + 7.
Proof.
  exact (proj1 (multi_all_or_nothing demo_table [("input_tokens", 3); ("output_tokens", 4)]%string (mkTanks 0 5 9, []) 1%nat)).
Defined.

Lemma multi_settle_exact_witness :
  outstanding (settle_costs (instrumented demo_table) [("input_tokens", 2)]%string
    [("output_tokens", 5)]%string (mkTanks 0 5 4, [Took 1 2])).2.2 1%nat = 2 - 2 + (5 - 0) /\
  (settle_costs (instrumented demo_table) [("input_tokens", 2)]%string
    [("output_tokens", 5)]%string (mkTanks 0 5 4, [Took 1 2])).2.1 = mkTanks 0 5 1.
Proof.
  exact (multi_settle_exact demo_table [("input_tokens", 2)]%string [("output_tokens", 5)]%string
    (mkTanks 0 5 4, [Took 1 2]) 1%nat (mkDimension "tokens" (tank true 10)) eq_refl).
Defined.

Lemma multi_names_partition_witness :
  let b := alias (shared (shared default_builder "requests" (tank false 10)) "tokens" (tank true 10)) "input_tokens" "tokens" in
  is_Some (match try_build b with Ok self => Some self | Err _ => None end) /\
  sum_with (fun d => cost_for (table (build b)) (name d) [("requests", 1); ("input_tokens", 3)]%string)
    (dimensions (table (build b))) = 4.
Proof.
  intros b. destruct (multi_names_partition b) as [_ Hp]. split; [vm_compute; by eexists|].
  apply (Hp (build b) [("requests", 1); ("input_tokens", 3)]%string).
  - reflexivity.
  - repeat constructor; vm_compute; by eexists.
  - repeat constructor; simpl; lia.
  - by vm_compute.
Defined.
