(* ===== verification/Sync.v ===== *)
(** * Sync (provider.rs)

    Reconciling a limiter with what a server reports: it is drained to the
    units the server says remain, and paused until a window resets or for a
    [Retry-After], never longer than a ceiling. *)

From stdpp Require Import strings.
From S2P Require Import Prelude Decisions Hold Bucket Limiter Compose.
From S2P Require Throttle Multi.
From S2P Require Import Provider.

Definition DEFAULT_MAX_PAUSE : Duration := from_secs 300.

Section Sync.
Context {W : Type}.
Implicit Types (limiter : Limiter W) (self : RateLimitInfo).

Definition pause limiter (duration max_pause : Duration) : M W unit :=
  let duration := Z.min duration max_pause in
  if is_zero duration then mret tt else Limiter.pause_for limiter duration.

(** A report beyond [u32] is beyond what any limiter holds. *)
Definition drain limiter (remaining : Z) : M W Z :=
  if remaining <=? u32_max then drain_to limiter remaining else mret 0.

Definition apply_capped (window : Window) limiter (max_pause : Duration) : M W Z :=
  match remaining window with
  | None => mret 0
  | Some remaining =>
      let! drained := drain limiter remaining in
      let! _ :=
        if remaining =? 0 then match reset window with Some reset => pause limiter reset max_pause | None => mret tt end
        else mret tt in
      mret drained
  end.
Definition apply (window : Window) limiter : M W Z := apply_capped window limiter DEFAULT_MAX_PAUSE.

Definition sync_window self limiter (window : option Window) (max_pause : Duration) : M W Z :=
  let! drained := match window with Some window => apply_capped window limiter max_pause | None => mret 0 end in
  let! _ := match retry_after self with Some after => pause limiter after max_pause | None => mret tt end in
  mret drained.

Definition sync_requests self limiter : M W Z := sync_window self limiter (requests self) DEFAULT_MAX_PAUSE.
Definition sync_requests_capped self limiter (max_pause : Duration) : M W Z :=
  sync_window self limiter (requests self) max_pause.
Definition sync_tokens self limiter : M W Z := sync_window self limiter (tokens self) DEFAULT_MAX_PAUSE.
Definition sync_tokens_capped self limiter (max_pause : Duration) : M W Z :=
  sync_window self limiter (tokens self) max_pause.

(** One dimension of a multi-dimension limiter, if it has it. *)
Definition apply_to (limiter : Multi.MultiLimiter W) (window : Window) (name : string) (max_pause : Duration)
    (drained : Z) : M W Z :=
  match Multi.dimension limiter name with
  | Some dimension => let! n := apply_capped window dimension max_pause in mret (sat_add u32_max drained n)
  | None => mret drained
  end.

Definition sync_multi_capped self (limiter : Multi.MultiLimiter W) (max_pause : Duration) : M W Z :=
  let! drained :=
    match requests self with Some window => apply_to limiter window "requests" max_pause 0 | None => mret 0 end in
  let! drained :=
    match tokens self with
    | Some window =>
        match Multi.dimension limiter "tokens" with
        | Some _ => apply_to limiter window "tokens" max_pause drained
        | None =>
            let! drained := apply_to limiter window "input_tokens" max_pause drained in
            apply_to limiter window "output_tokens" max_pause drained
        end
    | None => mret drained
    end in
  let! _ :=
    match retry_after self with
    | Some after =>
        let after := Z.min after max_pause in
        if is_zero after then mret tt else Multi.pause_for limiter after
    | None => mret tt
    end in
  mret drained.
Definition sync_multi self (limiter : Multi.MultiLimiter W) : M W Z := sync_multi_capped self limiter DEFAULT_MAX_PAUSE.

End Sync.

(** ** What reconciling needs of a limiter

    A counted limiter has a level, which its [available] reads and an
    [acquire_cost] of no more than it lowers by exactly the cost, and a pause,
    which [pause_for] only ever lengthens; [horizon] bounds the pauses it can
    represent. *)

Record counted {W} (l : Limiter W) (good : W -> Prop) (level paused : W -> Z) (horizon : Z) : Prop := {
  counted_level w : good w -> 0 <= level w <= u32_max;
  counted_paused w : good w -> 0 <= paused w;
  counted_available w : good w -> Limiter.available l w = (level w, w);
  counted_acquire n w : good w -> 0 < n <= level w ->
    let '(d, w') := Limiter.acquire_cost l n w in
    d = Acquired /\ good w' /\ level w' = level w - n /\ paused w' = paused w;
  counted_pause d w : good w -> 0 < d <= horizon ->
    let w' := (Limiter.pause_for l d w).2 in
    good w' /\ level w' <= level w /\ paused w' = Z.max (paused w) d }.

Section Reconcile.
Context {W : Type} (l : Limiter W) (good : W -> Prop) (level paused : W -> Z) (horizon : Z).
Context (Hl : counted l good level paused horizon).

Lemma drain_to_counted r w : good w -> 0 <= r ->
  let '(n, w') := drain_to l r w in
  n = Z.max 0 (level w - r) /\ good w' /\ level w' = level w - n /\ paused w' = paused w.
Proof.
  intros Hg Hr. unfold drain_to. simpl. rewrite mthen_run, (counted_available _ _ _ _ _ Hl w Hg). simpl.
  destruct (Z.leb_spec (level w) r); [simpl; split_and!; (done || lia)|].
  rewrite mthen_run. pose proof (counted_acquire _ _ _ _ _ Hl (level w - r) w Hg ltac:(lia)) as Ha.
  destruct (Limiter.acquire_cost l (level w - r) w) as [d w']. destruct Ha as (-> & Hg' & Hlv & Hp).
  simpl. split_and!; (done || lia).
Qed.

Lemma drain_counted r w : good w -> 0 <= r ->
  let '(n, w') := drain l r w in
  n = Z.max 0 (level w - r) /\ good w' /\ level w' = level w - n /\ paused w' = paused w.
Proof.
  intros Hg Hr. unfold drain. destruct (Z.leb_spec r u32_max); [by apply drain_to_counted|].
  pose proof (counted_level _ _ _ _ _ Hl w Hg). simpl. split_and!; (done || lia).
Qed.

(** A pause asked of a limiter that may already be paused. *)
Lemma pause_counted d max_pause w : good w -> 0 <= d -> 0 <= max_pause <= horizon ->
  let w' := (pause l d max_pause w).2 in
  good w' /\ level w' <= level w /\ paused w' = Z.max (paused w) (Z.min d max_pause).
Proof.
  intros Hg Hd Hm. unfold pause, is_zero. pose proof (counted_paused _ _ _ _ _ Hl w Hg).
  destruct (Z.eqb_spec (Z.min d max_pause) 0); [simpl; split_and!; (done || lia)|].
  apply (counted_pause _ _ _ _ _ Hl); [done|lia].
Qed.

(** The pause a window asks for. *)
Definition window_pause (window : Window) : Duration :=
  match remaining window, reset window with Some r, Some d => if r =? 0 then d else 0 | _, _ => 0 end.

Lemma apply_counted window max_pause w : good w -> 0 <= max_pause <= horizon ->
  (forall r, remaining window = Some r -> 0 <= r) -> (forall d, reset window = Some d -> 0 <= d) ->
  let '(n, w') := apply_capped window l max_pause w in
  n = match remaining window with Some r => Z.max 0 (level w - r) | None => 0 end /\ good w' /\
  level w' <= level w - n /\ paused w' = Z.max (paused w) (Z.min (window_pause window) max_pause).
Proof.
  intros Hg Hm Hr Hd. unfold apply_capped, window_pause. pose proof (counted_paused _ _ _ _ _ Hl w Hg) as Hp0.
  destruct (remaining window) as [r|]; [|simpl; split_and!; (done || lia)].
  rewrite mthen_run. pose proof (drain_counted r w Hg (Hr r eq_refl)) as Hn.
  destruct (drain l r w) as [n w1]. destruct Hn as (-> & Hg1 & Hl1 & Hp1). cbn [fst snd]. rewrite mthen_run.
  destruct (Z.eqb_spec r 0); [|destruct (reset window); simpl; split_and!; (done || lia)].
  destruct (reset window) as [d|]; [|simpl; split_and!; (done || lia)].
  destruct (pause_counted d max_pause w1 Hg1 (Hd d eq_refl) Hm) as (Hg2 & Hl2 & Hp2).
  simpl. split_and!; (done || lia).
Qed.

End Reconcile.

(** ** The throttle is counted *)

Section ThrottleCounted.
Context {B : Type} `{BucketCoreLaws B} `{!BucketLaws B}.
Context (now horizon : Z).

(** A throttle read at one instant. *)
Definition at_now (capacity : Z) : Limiter (Throttle.Throttle B) :=
  Throttle.throttle_limiter (fun t => t) (fun t _ => t) (fun _ => now) capacity.

(** The clock has not passed what a pause can represent. *)
Definition fresh (t : Throttle.Throttle B) : Prop :=
  Throttle.epoch t <= now /\ now - Throttle.epoch t + horizon <= u64_max /\
  available_at (Throttle.bucket t) now <= Throttle.capacity t <= u32_max.

Lemma acquire_available (b : B) n : 0 < n <= available_at b now -> n <= bk_capacity b ->
  let '(d, b') := acquire_at b n now in
  d = Allowed /\ available_at b' now = available_at b now - n /\ bk_capacity b' = bk_capacity b.
Proof.
  intros Hn Hc. assert (Ht : time_until_at b n now = Some 0) by (apply law_available; lia).
  pose proof (law_acquire b n now) as Ha. rewrite Ht in Ha. case_decide as E; [|done]. clear E.
  pose proof (account_acquire b n now ltac:(lia)) as Hacc. pose proof (account_same b n now) as [[_ Hper] _].
  pose proof (law_capacity b n 0 now) as [Hcap _]. pose proof (account_period b) as [Hpos _].
  destruct (acquire_at b n now) as [d b']. simpl in *. subst d. destruct Hacc as [_ Hcr]. rewrite !core_available.
  split_and!; [done| |done]. rewrite Hper, Hcr.
  replace (bk_credit b now - n * bk_period b) with (bk_credit b now + (- n) * bk_period b) by ring.
  rewrite Z.div_add by lia. rewrite core_available in Hn. lia.
Qed.

Lemma throttle_counted capacity : 0 <= horizon ->
  counted (at_now capacity) fresh (fun t => Throttle.available t now) (fun t => Throttle.paused_for t now) horizon.
Proof.
  intros Hh. assert (Hav : forall b, 0 <= available_at b now) by (intros b; rewrite core_available; lia).
  split.
  - intros t (_ & _ & Ht). unfold Throttle.available. pose proof (Hav (Throttle.bucket t)).
    destruct (negb _); [unfold u32_max; lia|lia].
  - intros t _. unfold Throttle.paused_for. rewrite Throttle.held_remaining. apply remaining_nonneg.
  - done.
  - intros n t Ht Hn. cbn. unfold Throttle.on_throttle. unfold Throttle.available in *.
    destruct (negb (is_zero (Throttle.held t now))) eqn:Eh; [lia|]. destruct Ht as (He & Hz & Hcap).
    unfold Throttle.decide. rewrite (proj2 (Z.ltb_ge _ _)) by (unfold Throttle.capacity in *; lia). rewrite Eh.
    pose proof (acquire_available (Throttle.bucket t) n Hn ltac:(unfold Throttle.capacity in *; lia)) as Ha.
    destruct (acquire_at (Throttle.bucket t) n now) as [d b']. destruct Ha as (-> & Hb & Hc). simpl.
    assert (Eh' : Throttle.held (Throttle.with_bucket t b') now = Throttle.held t now) by done.
    rewrite Eh', Eh. unfold fresh, Throttle.capacity, Throttle.with_bucket in *. simpl. rewrite Hb, Hc.
    split_and!; (done || lia).
  - intros d t (He & Hz & Hcap) Hd. cbn. set (t' := Throttle.pause_for t d now).
    assert (Hheld : Throttle.held t' now = Z.max (Throttle.held t now) d).
    { rewrite !Throttle.held_remaining. change (Throttle.hold t') with (extend (Throttle.hold t) (Throttle.since_epoch t now) d).
      change (Throttle.since_epoch t' now) with (Throttle.since_epoch t now).
      rewrite Throttle.since_epoch_exact by lia. rewrite extend_remaining by (unfold is_u64; lia).
      unfold sat_sub. lia. }
    split_and!; [done| |exact Hheld]. unfold Throttle.available. rewrite Hheld. unfold is_zero.
    rewrite (proj2 (Z.eqb_neq _ 0)) by lia. simpl. pose proof (Hav (Throttle.bucket t)). by destruct (_ =? 0).
Qed.

End ThrottleCounted.

(** ** Theorems *)

(** C31: Reconciling leaves no more than the server says remains, takes exactly
    what was above it, never adds a unit, and pauses for the window's reset
    (when nothing remains) or the [Retry-After], whichever is longer, never
    beyond the ceiling and never shortening a pause. *)
Theorem sync_reconciles {W : Type} (l : Limiter W) (good : W -> Prop) (level paused : W -> Z) (horizon : Z)
    (self : RateLimitInfo) (window : Window) (max_pause : Duration) (w : W) :
  counted l good level paused horizon -> good w -> 0 <= max_pause <= horizon ->
  (forall r, remaining window = Some r -> 0 <= r) -> (forall d, reset window = Some d -> 0 <= d) ->
  (forall d, retry_after self = Some d -> 0 <= d) ->
  let '(drained, w') := sync_window self l (Some window) max_pause w in
  drained = match remaining window with Some r => Z.max 0 (level w - r) | None => 0 end /\
  level w' <= level w - drained /\
  paused w' = Z.max (paused w) (Z.min max_pause (Z.max (window_pause window) (default 0 (retry_after self)))) /\
  good w'.
Proof.
  intros Hl Hg Hm Hr Hd Ha. unfold sync_window. rewrite mthen_run.
  pose proof (apply_counted l good level paused horizon Hl window max_pause w Hg Hm Hr Hd) as H1.
  destruct (apply_capped window l max_pause w) as [n w1]. destruct H1 as (-> & Hg1 & Hl1 & Hp1).
  cbn [fst snd]. rewrite mthen_run. destruct (retry_after self) as [d|].
  - destruct (pause_counted l good level paused horizon Hl d max_pause w1 Hg1 (Ha d eq_refl) Hm) as (Hg2 & Hl2 & Hp2).
    simpl. split_and!; (done || lia).
  - assert (0 <= window_pause window).
    { unfold window_pause. destruct (remaining window), (reset window) as [d|]; try lia.
      specialize (Hd d eq_refl). destruct (_ =? 0); lia. }
    simpl. split_and!; (done || lia).
Qed.

(** ** Runs *)

(** A fresh throttle of a hundred a second against an exhausted window. *)
Lemma sync_reconciles_witness :
  let t : Throttle.Throttle Meter := Throttle.per_second 100 0 in
  let self := mkRateLimitInfo None None (Some (from_secs 20)) in
  let '(drained, t') := sync_window self (at_now 0 100) (Some (mkWindow (Some 100) (Some 0) (Some (from_secs 600))))
    DEFAULT_MAX_PAUSE t in
  drained = 100 /\ Throttle.available t' 0 <= 0 /\ Throttle.paused_for t' 0 = DEFAULT_MAX_PAUSE.
Proof.
  intros t self. assert (Hfresh : fresh 0 DEFAULT_MAX_PAUSE t) by (vm_compute; split_and!; discriminate).
  pose proof (sync_reconciles (at_now 0 100) (fresh 0 DEFAULT_MAX_PAUSE) (fun t => Throttle.available t 0)
    (fun t => Throttle.paused_for t 0) DEFAULT_MAX_PAUSE self (mkWindow (Some 100) (Some 0) (Some (from_secs 600)))
    DEFAULT_MAX_PAUSE t (throttle_counted 0 DEFAULT_MAX_PAUSE 100 ltac:(by vm_compute)) Hfresh
    ltac:(split; by vm_compute) ltac:(by intros r [= <-]) ltac:(by intros d [= <-]) ltac:(by intros d [= <-])) as Hs.
  destruct (sync_window self (at_now 0 100) _ DEFAULT_MAX_PAUSE t) as [drained t'].
  destruct Hs as (Hd & Hl & Hp & _). simpl remaining in Hd. rewrite Hd in Hl |- *.
  split; [by vm_compute|]. split; [exact Hl|]. rewrite Hp. by vm_compute.
Defined.
