(* ===== verification/Hybrid.v ===== *)
(** * Hybrid (hybrid.rs)

    Several limiters behind one limiter: a request is granted by all of the
    constituents or by none, and the composite is itself a [Limiter], so it
    can be a constituent of another one. *)

From S2P Require Import Prelude Decisions Limiter Compose Wait.

Record Hybrid (W : Type) := mkHybrid { constituents : list (Limiter W) }.
Arguments mkHybrid {W}. Arguments constituents {W}.

Section Hybrid.
Context {W : Type}.
Implicit Types (self : Hybrid W).

Definition pairs self (cost : Z) : list (Limiter W * Z) := (fun l => (l, cost)) <$> constituents self.

Definition len self : nat := length (constituents self).
Definition is_empty self : bool := match constituents self with [] => true | _ => false end.

Definition try_acquire_with_cost self (cost : Z) : M W bool :=
  let! d := acquire_all (pairs self cost) in mret (is_acquired d).
Definition try_acquire self : M W bool := try_acquire_with_cost self 1.

Definition peek self (cost : Z) : M W Decision := peek_all (pairs self cost).

Fixpoint pause_each (ls : list (Limiter W)) (duration : Duration) : M W unit :=
  match ls with
  | [] => mret tt
  | l :: ls => let! _ := Limiter.pause_for l duration in pause_each ls duration
  end.
Definition pause_for self (duration : Duration) : M W unit := pause_each (constituents self) duration.

Fixpoint resume_each (ls : list (Limiter W)) : M W unit :=
  match ls with
  | [] => mret tt
  | l :: ls => let! _ := Limiter.resume l in resume_each ls
  end.
Definition resume self : M W unit := resume_each (constituents self).

(** [map(..).max().unwrap_or(ZERO)]: durations are never negative. *)
Definition paused_for self : M W Duration := paused_all ((fun l => (l, 0)) <$> constituents self).

(** [map(available).min()]: every constituent is read, in order. *)
Fixpoint available_min (ls : list (Limiter W)) (least : option Z) : M W (option Z) :=
  match ls with
  | [] => mret least
  | l :: ls =>
      let! n := Limiter.available l in
      available_min ls (Some (match least with Some m => Z.min m n | None => n end))
  end.
Definition available self : M W Z := let! least := available_min (constituents self) None in mret (default u32_max least).

Fixpoint min_of (ns : list Z) : option Z :=
  match ns with
  | [] => None
  | n :: ns => Some (match min_of ns with Some m => Z.min n m | None => n end)
  end.
Definition capacity self : Z := default u32_max (min_of (Limiter.capacity <$> constituents self)).

Definition acquire_cost self (cost : Z) : M W Decision := acquire_all (pairs self cost).
Definition refund self (cost : Z) : M W unit := refund_all (pairs self cost).
Definition reserve self (cost : Z) (max_wait : Duration) : M W (option Duration) := reserve_all (pairs self cost) max_wait.

(** [impl Limiter for Hybrid]; [charge] is the provided method. *)
Definition limiter self : Limiter W := {|
  Limiter.peek := peek self;
  Limiter.acquire_cost := acquire_cost self;
  Limiter.available := available self;
  Limiter.capacity := capacity self;
  Limiter.refund := refund self;
  Limiter.reserve := reserve self;
  Limiter.pause_for := pause_for self;
  Limiter.paused_for := paused_for self;
  Limiter.resume := resume self;
  Limiter.charge := default_charge (available self) (acquire_cost self) (reserve self) (capacity self) |}.

(** What the waiting acquires run in the engine, and how they report its end. *)
Section Waiting.
Context (instant_now : W -> Z) (instant_max : Z).
Definition wait_step self (cost : Z) := step_all instant_now instant_max (pairs self cost).
Definition wait_release self (cost : Z) := release_all (pairs self cost).
Definition wait_paused self (cost : Z) : M W Duration := paused_all (pairs self cost).
Definition wait_error self (cost : Z) (refusal : Refusal) : ThrottleError :=
  match refusal with
  | RefusalNever => CostExceedsCapacity cost (capacity self)
  | RefusalTimedOut => DeadlineExceeded
  end.
End Waiting.

(** ** The builder *)

Record HybridBuilder := mkHybridBuilder { b_constituents : list (Limiter W) }.
Definition builder : HybridBuilder := mkHybridBuilder [].
Definition add_limiter (b : HybridBuilder) (l : Limiter W) : HybridBuilder := mkHybridBuilder (b_constituents b ++ [l]).
Definition add_shared (b : HybridBuilder) (l : Limiter W) : HybridBuilder := mkHybridBuilder (b_constituents b ++ [l]).
Definition build (b : HybridBuilder) : Hybrid W := mkHybrid (b_constituents b).

End Hybrid.

(** ** Limiters that keep books

    A limiter over a logged world keeps the books [f] when it changes what
    every [who] has outstanding by exactly [f cost who] for a granted [cost],
    the negative of it for a refund, and by nothing otherwise. A limiter that
    logs its grants keeps them; a composite of limiters that do keeps the sum
    of theirs. *)

Section Books.
Context {W : Type}.
Abbreviation world := (W * list event)%type.

Record keeps (l : Limiter world) (f : Z -> nat -> Z) : Prop := {
  keeps_peek cost : moves (Limiter.peek l cost) (fun _ _ => 0);
  keeps_acquire cost : moves (Limiter.acquire_cost l cost) (fun d who => if is_acquired d then f cost who else 0);
  keeps_refund cost : moves (Limiter.refund l cost) (fun _ who => - f cost who);
  keeps_reserve cost max_wait :
    moves (Limiter.reserve l cost max_wait) (fun r who => if granted r then f cost who else 0) }.

Lemma keeps_instrument i (l : Limiter W) : keeps (instrument i l) (fun cost who => delta who (Took i cost)).
Proof.
  split.
  - intros cost. by apply moves_lift.
  - intros cost. eapply moves_ext; [apply moves_acquire|]. intros d who. unfold takes. by destruct (is_acquired d).
  - intros cost. apply moves_refund.
  - intros cost max_wait. eapply moves_ext; [apply moves_reserve|]. done.
Qed.

(** Items with the books they keep. *)
Inductive kept : list (Limiter world * Z) -> (nat -> Z) -> Prop :=
  | kept_nil : kept [] (fun _ => 0)
  | kept_cons l f cost items g : keeps l f -> kept items g -> kept ((l, cost) :: items) (fun who => f cost who + g who).

Lemma kept_peek_all items g : kept items g -> moves (peek_all items) (fun _ _ => 0).
Proof.
  intros Hk. unfold peek_all. apply moves_quiet; [|intros; by apply moves_ret]. generalize Ready.
  induction Hk as [|l f cost items g Hl _ IH]; intros acc; simpl; [by apply moves_ret|].
  apply moves_quiet; [apply (keeps_peek _ _ Hl)|]. intros d. destruct (fold_peek acc d); [apply IH..|by apply moves_ret].
Qed.

Lemma kept_refund_all items g : kept items g -> moves (refund_all items) (fun _ who => - g who).
Proof.
  induction 1 as [|l f cost items g Hl _ IH]; simpl; [by apply moves_ret|].
  eapply moves_then; [apply (keeps_refund _ _ Hl)|]. intros []. eapply moves_ext; [apply IH|]. intros; simpl; lia.
Qed.

Lemma kept_app items items' g g' : kept items g -> kept items' g' ->
  exists h, kept (items ++ items') h /\ forall who, h who = g who + g' who.
Proof.
  intros Hk Hk'. induction Hk as [|l f cost items g Hl _ (h & Hh & E)]; simpl; [eauto|].
  eexists. split; [by constructor|]. intros who. simpl. rewrite E. lia.
Qed.

(** Giving back the items committed so far. *)
Lemma kept_refund_first done rest g : kept done g ->
  moves (refund_first (done ++ rest) (length done)) (fun _ who => - g who).
Proof. intros Hk. unfold refund_first. rewrite take_app_length. by apply kept_refund_all. Qed.

Lemma kept_snoc done g l f cost : kept done g -> keeps l f ->
  exists h, kept (done ++ [(l, cost)]) h /\ forall who, h who = g who + f cost who.
Proof.
  intros Hd Hl. destruct (kept_app done [(l, cost)] g _ Hd (kept_cons l f cost [] _ Hl kept_nil)) as (h & Hh & E).
  exists h. split; [done|]. intros who. rewrite E. lia.
Qed.

Lemma kept_acquire_loop done items gd g : kept done gd -> kept items g ->
  moves (acquire_loop (done ++ items) items (length done)) (fun d who => if is_acquired d then g who else - gd who).
Proof.
  intros Hd Hk. revert done gd Hd. induction Hk as [|l f cost items g Hl Hk IH]; intros done gd Hd; simpl.
  { by apply moves_ret. }
  eapply moves_then; [apply (keeps_acquire _ _ Hl)|]. intros d.
  assert (Href : is_acquired d = false -> moves
    (let! _ := refund_first (done ++ (l, cost) :: items) (length done) in mret d)
    (fun b who => (if is_acquired b then f cost who + g who else - gd who) - 0)).
  { intros E. eapply moves_then; [by apply kept_refund_first|]. intros []. apply moves_ret.
    intros who. rewrite E. cbn beta. lia. }
  destruct d as [|after|]; simpl; [|by apply Href..].
  destruct (kept_snoc done gd l f cost Hd Hl) as (h & Hh & E). specialize (IH _ h Hh).
  rewrite <- app_assoc, length_app, Nat.add_1_r in IH. eapply moves_ext; [apply IH|].
  intros a who. cbn beta. rewrite E. destruct (is_acquired a); lia.
Qed.

Lemma kept_acquire_all items g : kept items g ->
  moves (acquire_all items) (fun d who => if is_acquired d then g who else 0).
Proof.
  intros Hk. unfold acquire_all. apply moves_quiet; [by eapply kept_peek_all|].
  intros [|after|]; [|by apply moves_ret..]. eapply moves_ext; [apply (kept_acquire_loop [] items _ g kept_nil Hk)|]. done.
Qed.

Lemma kept_reserve_loop done items gd g max_wait longest : kept done gd -> kept items g ->
  moves (reserve_loop (done ++ items) items (length done) max_wait longest)
    (fun r who => if granted r then g who else - gd who).
Proof.
  intros Hd Hk. revert done gd longest Hd. induction Hk as [|l f cost items g Hl Hk IH]; intros done gd longest Hd; simpl.
  { by apply moves_ret. }
  eapply moves_then; [apply (keeps_reserve _ _ Hl)|]. intros [wait|]; simpl.
  - destruct (kept_snoc done gd l f cost Hd Hl) as (h & Hh & E). specialize (IH _ h (Z.max longest wait) Hh).
    rewrite <- app_assoc, length_app, Nat.add_1_r in IH. eapply moves_ext; [apply IH|].
    intros a who. cbn beta. rewrite E. destruct (granted a); lia.
  - eapply moves_then; [by apply kept_refund_first|]. intros []. apply moves_ret. intros who. simpl. lia.
Qed.

Lemma kept_reserve_all items g max_wait : kept items g ->
  moves (reserve_all items max_wait) (fun r who => if granted r then g who else 0).
Proof.
  intros Hk. unfold reserve_all. apply moves_quiet.
  - generalize DURATION_ZERO DURATION_MAX. induction Hk as [|l f cost items g Hl _ IH]; intros a b; simpl; [by apply moves_ret|].
    apply moves_quiet; [apply (keeps_peek _ _ Hl)|]. intros [|after|]; [apply IH..|by apply moves_ret].
  - intros [[longest shortest]|]; [|by apply moves_ret].
    destruct (_ || _); [by apply moves_ret|]. unfold reserve_each.
    eapply moves_ext; [apply (kept_reserve_loop [] items _ g max_wait _ kept_nil Hk)|]. done.
Qed.

(** A composite keeps the sum of its constituents' books. *)
Lemma keeps_hybrid (self : Hybrid world) (f : Z -> nat -> Z) :
  (forall cost, kept (pairs self cost) (f cost)) -> keeps (limiter self) f.
Proof.
  intros Hk. split.
  - intros cost. by eapply kept_peek_all.
  - intros cost. by apply kept_acquire_all.
  - intros cost. by apply kept_refund_all.
  - intros cost max_wait. by apply kept_reserve_all.
Qed.

End Books.

(** ** Composites of composites *)

Inductive tree (W : Type) := Leaf (who : nat) (l : Limiter W) | Node (children : list (tree W)).
Arguments Leaf {W}. Arguments Node {W}.

Section Tree.
Context {W : Type}.

(** The limiter a tree of hybrids is, its leaves logging their grants. *)
Fixpoint limiter_of (t : tree W) : Limiter (W * list event) :=
  match t with
  | Leaf who l => instrument who l
  | Node children => limiter (mkHybrid ((fix go ts := match ts with [] => [] | t :: ts => limiter_of t :: go ts end) children))
  end.

(** What granting [cost] takes from the leaves named [who]. *)
Fixpoint weight (t : tree W) (cost : Z) (who : nat) : Z :=
  match t with
  | Leaf i l => delta who (Took i cost)
  | Node children => (fix go ts := match ts with [] => 0 | t :: ts => weight t cost who + go ts end) children
  end.

Lemma tree_keeps (t : tree W) : keeps (limiter_of t) (weight t).
Proof.
  revert t. fix IH 1. intros [who l|children]; simpl; [apply keeps_instrument|].
  apply keeps_hybrid. intros cost. unfold pairs. simpl.
  induction children as [|t ts IHts]; simpl; [apply kept_nil|].
  apply (kept_cons (limiter_of t) (weight t) cost _ (fun who => (fix go ts := match ts with [] => 0 | t :: ts => weight t cost who + go ts end) ts)); [apply IH|exact IHts].
Qed.

End Tree.

(** ** What a capacity promises *)

Section Promise.
Context {W : Type}.

(** Peeking changes nothing and calls impossible exactly the requests beyond
    the capacity. *)
Definition promises (l : Limiter W) : Prop := forall cost w, 0 <= cost <= u32_max ->
  (Limiter.peek l cost w).2 = w /\ ((Limiter.peek l cost w).1 = Impossible <-> Limiter.capacity l < cost).

Lemma min_of_le (ns : list Z) bound : Forall (fun n => n <= u32_max) ns -> bound <= u32_max ->
  default u32_max (min_of ns) < bound <-> Exists (fun n => n < bound) ns.
Proof.
  intros Hns Hb. induction Hns as [|n ns Hn Hns IH]; simpl.
  - rewrite Exists_nil. lia.
  - rewrite Exists_cons, <- IH. destruct (min_of ns); simpl; lia.
Qed.

Lemma fold_peek_never acc d : acc <> Never -> fold_peek acc d = Never <-> d = Impossible.
Proof. by destruct acc, d. Qed.

Lemma peek_loop_promise (ls : list (Limiter W)) cost acc w : Forall promises ls -> 0 <= cost <= u32_max -> acc <> Never ->
  (peek_loop ((fun l => (l, cost)) <$> ls) acc w).2 = w /\
  ((peek_loop ((fun l => (l, cost)) <$> ls) acc w).1 = Never <-> Exists (fun l => Limiter.capacity l < cost) ls).
Proof.
  intros Hls Hcost. revert acc. induction Hls as [|l ls Hl _ IH]; intros acc Hacc; simpl.
  - rewrite Exists_nil. done.
  - destruct (Hl cost w Hcost) as [Hw Hi]. rewrite mthen_run, Exists_cons, <- Hi.
    destruct (Limiter.peek l cost w) as [d w']. cbn [fst snd] in *. subst w'.
    pose proof (fold_peek_never acc d Hacc) as Hf. destruct (fold_peek acc d) as [|wait|] eqn:E.
    + destruct (IH Ready) as [H1 H2]; [done|]. rewrite H2. split; [done|]. assert (d <> Impossible) by (by intros ?%Hf). tauto.
    + destruct (IH (Wait wait)) as [H1 H2]; [done|]. rewrite H2. split; [done|]. assert (d <> Impossible) by (by intros ?%Hf). tauto.
    + simpl. split; [done|]. split; [left; by apply Hf|done].
Qed.

Lemma bottleneck_never (ls : list (Limiter W)) cost index best w : Forall promises ls -> 0 <= cost <= u32_max ->
  Exists (fun l => Limiter.capacity l < cost) ls ->
  bottleneck_loop ((fun l => (l, cost)) <$> ls) index best w = (None, w).
Proof.
  intros Hls Hcost. revert index best. induction Hls as [|l ls Hl _ IH]; intros index best; [by rewrite Exists_nil|].
  rewrite Exists_cons. simpl. rewrite mthen_run. destruct (Hl cost w Hcost) as [Hw Hi]. rewrite <- Hi.
  destruct (Limiter.peek l cost w) as [d w']. cbn [fst snd] in *. subst w'. intros Hor.
  destruct d; [apply IH; by destruct Hor..|done].
Qed.

End Promise.

(** ** Theorems *)

(** C18: However deep hybrids are nested, a grant takes its cost from every leaf
    limiter and a refusal takes nothing from any of them; a refund gives
    exactly a grant back, and a reservation is a grant. *)
Theorem hybrid_nesting_all_or_nothing {W : Type} (t : tree W) (cost : Z) (max_wait : Duration)
    (s : W * list event) (who : nat) :
  let l := limiter_of t in
  (let '(d, s') := Limiter.acquire_cost l cost s in
     outstanding s'.2 who = outstanding s.2 who + (if is_acquired d then weight t cost who else 0)) /\
  (let '(r, s') := Limiter.reserve l cost max_wait s in
     outstanding s'.2 who = outstanding s.2 who + (if granted r then weight t cost who else 0)) /\
  outstanding (Limiter.refund l cost s).2.2 who = outstanding s.2 who - weight t cost who /\
  outstanding (Limiter.peek l cost s).2.2 who = outstanding s.2 who.
Proof.
  intros l. destruct (tree_keeps t) as [Hp Ha Hr Hv]. specialize (Hp cost s who). specialize (Ha cost s who).
  specialize (Hr cost s who). specialize (Hv cost max_wait s who). fold l in Hp, Ha, Hr, Hv.
  destruct (Limiter.acquire_cost l cost s), (Limiter.reserve l cost max_wait s). simpl in *. split_and!; lia.
Qed.

(** The capacity is exact: when every constituent calls impossible exactly
    the requests beyond its own capacity, so does the hybrid beyond the
    least of them. Such a request is refused at once by every entry point,
    the waiting one included, and changes nothing. *)
Theorem hybrid_capacity_exact {W : Type} (self : Hybrid W) (instant_now : W -> Z) (instant_max : Z) :
  Forall promises (constituents self) -> Forall (fun l => Limiter.capacity l <= u32_max) (constituents self) ->
  promises (limiter self) /\
  forall cost max_wait w, capacity self < cost <= u32_max -> 0 <= cost ->
    acquire_cost self cost w = (Impossible, w) /\
    fst (try_acquire_with_cost self cost w) = false /\
    wait_step instant_now instant_max self cost Progress_new max_wait w = ((StepNever, Progress_new), w) /\
    wait_error self cost RefusalNever = CostExceedsCapacity cost (capacity self).
Proof.
  intros Hls Hcaps. assert (Hmin : forall cost, cost <= u32_max -> capacity self < cost <->
    Exists (fun l => Limiter.capacity l < cost) (constituents self)).
  { intros cost Hc. unfold capacity. rewrite min_of_le, Exists_fmap; [done|by apply Forall_fmap|done]. }
  assert (Hprom : promises (limiter self)).
  { intros cost w Hc. simpl. unfold peek, peek_all, pairs. rewrite mthen_run.
    destruct (peek_loop_promise (constituents self) cost Ready w Hls Hc) as [H1 H2]; [done|].
    destruct (peek_loop _ Ready w) as [v w']. cbn [fst snd] in *. subst w'. split; [done|].
    rewrite Hmin, <- H2 by lia. by destruct v. }
  split; [exact Hprom|]. intros cost max_wait w [Hc Hu] H0. destruct (Hprom cost w) as [Hw Hi]; [lia|].
  apply Hi in Hc as Himp. simpl in Hw, Himp.
  assert (Hpeek : peek self cost w = (Impossible, w)) by (destruct (peek self cost w); simpl in *; by subst).
  assert (Hacq : acquire_cost self cost w = (Impossible, w)).
  { unfold acquire_cost, acquire_all. rewrite mthen_run. fold (peek self cost). by rewrite Hpeek. }
  split_and!; [done| | |done].
  - unfold try_acquire_with_cost. rewrite mthen_run. fold (acquire_cost self cost). by rewrite Hacq.
  - unfold wait_step, step_all, pairs. simpl. unfold step_fresh. rewrite mthen_run.
    by rewrite bottleneck_never; [|done|lia|apply Hmin; [lia|done]].
Qed.

(** ** Runs *)

(** A hybrid of one tank and a hybrid of both. *)
Definition demo_tree : tree tanks :=
  Node [Leaf 0%nat (tank false 10); Node [Leaf 1%nat (tank true 10); Leaf 0%nat (tank false 8)]].

Example demo_tree_runs :
  let l := limiter_of demo_tree in
  (let '(d, s) := Limiter.acquire_cost l 3 (mkTanks 0 9 5, []) in
   d = Acquired /\ s.1 = mkTanks 0 3 2 /\ s.2 = [Took 0%nat 3; Took 1%nat 3; Took 0%nat 3]) /\
  (let '(d, s) := Limiter.acquire_cost l 5 (mkTanks 0 9 5, []) in
   d = Retry 5 /\ s.1 = mkTanks 0 9 5).
Proof. vm_compute. done. Qed.

Lemma tank_promises second cap : promises (tank second cap).
Proof.
  intros cost w _. simpl. split; [done|].
  destruct (Z.ltb_spec cap cost); [done|]. destruct (cost <=? _); split; (done || lia).
Qed.

Lemma hybrid_capacity_exact_witness :
  let self := mkHybrid [tank false 10; tank true 4] in
  acquire_cost self 5 (mkTanks 0 9 9) = (Impossible, mkTanks 0 9 9) /\ capacity self = 4.
Proof.
  intros self. split; [|reflexivity].
  refine (proj1 (proj2 (hybrid_capacity_exact self t_clock 1000 _ _) 5 0 (mkTanks 0 9 9) _ _)).
  - repeat apply Forall_cons_2; [apply tank_promises..|apply Forall_nil_2].
  - repeat apply Forall_cons_2; [by vm_compute..|apply Forall_nil_2].
  - by vm_compute.
  - lia.
Defined.
