(* ===== verification/Prompt.v ===== *)
(** * Prompt limiters (the waits of src/src/wait.rs over src/src/limiter.rs)

    The waiting engine keeps its deadline when the calls it makes return at
    once and ask for waits that make sense. That is a promise of one limiter,
    and the composition helpers turn it into the engine's; the limiters of
    the library make it, and so does any nesting of composites of them. *)

From S2P Require Import Prelude Decisions Wait Limiter Compose.
From S2P Require SlidingWait Sliding Circuit Hybrid Throttle Bucket Hold.

(** ** Operations that take no time *)

(** [m] leaves the runtime's clock, or what else of the world [clock] reads,
    where it is and answers in [P]. *)
Definition quick {W A C} (clock : W -> C) (m : M W A) (P : A -> Prop) : Prop :=
  forall w, clock (m w).2 = clock w /\ P (m w).1.

Abbreviation any := (fun _ => True).

Section Quick.
Context {W C : Type} (clock : W -> C).

Lemma quick_ret {A} (a : A) (P : A -> Prop) : P a -> quick clock (mret a) P.
Proof. by intros H w. Qed.

Lemma quick_then {A B} (m : M W A) (k : A -> M W B) (Q : A -> Prop) (P : B -> Prop) :
  quick clock m Q -> (forall a, Q a -> quick clock (k a) P) -> quick clock (mthen m k) P.
Proof.
  intros Hm Hk w. rewrite mthen_run. destruct (Hm w) as [Hc Hq].
  destruct (Hk _ Hq (m w).2) as [Hc' Hp]. by rewrite Hc', Hc.
Qed.

Lemma quick_weaken {A} (m : M W A) (P Q : A -> Prop) :
  quick clock m P -> (forall a, P a -> Q a) -> quick clock m Q.
Proof. intros Hm HPQ w. destruct (Hm w). auto. Qed.

Lemma quick_any {A} (m : M W A) (P : A -> Prop) : quick clock m P -> quick clock m any.
Proof. intros Hm. by eapply quick_weaken. Qed.

End Quick.

Create HintDb prompt.
#[export] Hint Resolve quick_ret : prompt.

(** ** The promise of a limiter *)

Definition sane_decision (d : Decision) : Prop := forall after, d = Retry after -> 0 <= after.
Definition sane_wait (most : Duration) (r : option Duration) : Prop :=
  forall wait, r = Some wait -> 0 <= most -> 0 <= wait <= most.

Class Prompt {W} (clock : W -> Z) (l : Limiter W) : Prop := {
  prompt_peek cost : quick clock (peek l cost) sane_decision;
  prompt_acquire cost : quick clock (acquire_cost l cost) any;
  prompt_refund cost : quick clock (refund l cost) any;
  prompt_reserve cost max_wait : quick clock (reserve l cost max_wait) (sane_wait max_wait);
  prompt_paused : quick clock (paused_for l) (Z.le 0) }.

#[export] Hint Resolve prompt_peek prompt_acquire prompt_refund prompt_reserve prompt_paused : prompt.

Lemma sane_acquired : sane_decision Acquired.
Proof. done. Qed.
Lemma sane_impossible : sane_decision Impossible.
Proof. done. Qed.
Lemma sane_retry after : 0 <= after -> sane_decision (Retry after).
Proof. intros H a [= <-]. done. Qed.
Lemma sane_none most : sane_wait most None.
Proof. done. Qed.
Lemma sane_some most wait : (0 <= most -> 0 <= wait <= most) -> sane_wait most (Some wait).
Proof. intros H a [= <-]. exact H. Qed.

#[export] Hint Resolve sane_acquired sane_impossible sane_retry sane_none sane_some : prompt.

(** ** The helpers *)

Section Helpers.
Context {W : Type} (clock : W -> Z).
Abbreviation item := (Limiter W * Z)%type.
Definition prompt_items (items : list item) : Prop := Forall (fun it => Prompt clock it.1) items.

Definition sane_verdict (v : Verdict) : Prop := match v with Limiter.Wait after => 0 <= after | _ => True end.

Lemma fold_peek_sane v d : sane_verdict v -> sane_decision d -> sane_verdict (fold_peek v d).
Proof.
  intros Hv Hd. destruct v, d as [|a|]; simpl in *; try done; specialize (Hd _ eq_refl); lia.
Qed.

Lemma quick_peek_all items : prompt_items items -> quick clock (peek_all items) sane_decision.
Proof.
  intros Hi. unfold peek_all. apply quick_then with sane_verdict.
  - assert (Hr : sane_verdict Ready) by done. revert Hr. generalize Ready.
    induction Hi as [|[l cost] items Hl _ IH]; intros acc Hacc; simpl; [by apply quick_ret|].
    eapply quick_then; [apply prompt_peek|]. intros d Hd. pose proof (fold_peek_sane acc d Hacc Hd) as Hf.
    destruct (fold_peek acc d); by apply IH || by apply quick_ret.
  - intros v Hv. apply quick_ret. destruct v; [done|by apply sane_retry|done].
Qed.

Lemma quick_refund_all items : prompt_items items -> quick clock (refund_all items) any.
Proof.
  induction 1 as [|[l cost] items Hl _ IH]; simpl; [by apply quick_ret|].
  eapply quick_then; [apply prompt_refund|]. by intros [] _.
Qed.

Lemma quick_refund_first items n : prompt_items items -> quick clock (refund_first items n) any.
Proof. intros Hi. apply quick_refund_all. by apply Forall_take. Qed.

Lemma quick_acquire_all items : prompt_items items -> quick clock (acquire_all items) any.
Proof.
  intros Hi. unfold acquire_all. eapply quick_then; [by apply quick_peek_all|].
  intros [|after|] _; [|by apply quick_ret..].
  assert (Hloop : forall all rest n, prompt_items all -> prompt_items rest ->
    quick clock (acquire_loop all rest n) any); [|by apply Hloop].
  intros all rest n Ha Hr. revert n. induction Hr as [|[l cost] rest Hl _ IH]; intros n; simpl; [by apply quick_ret|].
  eapply quick_then; [apply prompt_acquire|]. intros [|after|] _; [apply IH|..];
    (eapply quick_then; [by apply quick_refund_first|]; intros; by apply quick_ret).
Qed.

Lemma quick_reserve_each items max_wait : prompt_items items ->
  quick clock (reserve_each items max_wait) (sane_wait max_wait).
Proof.
  intros Hi. unfold reserve_each.
  assert (Hloop : forall all rest n longest, prompt_items all -> prompt_items rest -> (0 <= max_wait -> 0 <= longest <= max_wait) ->
    quick clock (reserve_loop all rest n max_wait longest) (sane_wait max_wait));
    [|apply Hloop; [done|done|unfold DURATION_ZERO; lia]].
  intros all rest n longest Ha Hr. revert n longest.
  induction Hr as [|[l cost] rest Hl _ IH]; intros n longest Hlong; simpl; [by apply quick_ret, sane_some|].
  eapply quick_then; [by apply prompt_reserve|]. intros [wait|] Hw.
  - apply IH. intros Hm. specialize (Hw _ eq_refl Hm). specialize (Hlong Hm). lia.
  - eapply quick_then; [by apply quick_refund_first|]. intros. by apply quick_ret.
Qed.

Lemma quick_reserve_all items max_wait : prompt_items items ->
  quick clock (reserve_all items max_wait) (sane_wait max_wait).
Proof.
  intros Hi. unfold reserve_all. apply quick_then with any.
  - generalize DURATION_ZERO DURATION_MAX. induction Hi as [|[l cost] items Hl _ IH]; intros longest shortest; simpl.
    + by apply quick_ret.
    + eapply quick_then; [apply prompt_peek|]. intros [] _; [apply IH..|by apply quick_ret].
  - intros [[longest shortest]|] _; [|by apply quick_ret].
    destruct (_ || _); [by apply quick_ret|by apply quick_reserve_each].
Qed.

Lemma quick_paused_all items : prompt_items items -> quick clock (paused_all items) (Z.le 0).
Proof.
  intros Hi. unfold paused_all. assert (Hz : 0 <= DURATION_ZERO) by done. revert Hz. generalize DURATION_ZERO.
  induction Hi as [|[l cost] items Hl _ IH]; intros longest Hlong; simpl; [by apply quick_ret|].
  eapply quick_then; [apply prompt_paused|]. intros d Hd. apply IH. lia.
Qed.

(** *** The composite's step *)

Context (instant_max : Z).

Definition sane_step (budget : Duration) (s : Step) : Prop :=
  match s with
  | Granted wait => 0 <= budget -> 0 <= wait <= budget
  | Holding wait => 0 <= budget -> 0 <= wait
  | StepRetry after => 0 <= after
  | StepNever => True
  end.

Lemma prompt_item items k l cost : prompt_items items -> items !! k = Some (l, cost) -> Prompt clock l.
Proof. intros Hi Hk. by apply (Forall_lookup_1 _ _ _ _ Hi Hk). Qed.

Lemma quick_release_all items p : prompt_items items -> quick clock (release_all items p) any.
Proof.
  intros Hi. unfold release_all. apply quick_then with any; [|intros; by apply quick_ret].
  destruct (held p) as [|k|]; [by apply quick_ret| |by apply quick_refund_all].
  destruct (items !! k) as [[l cost]|] eqn:Ek; [|by apply quick_ret].
  pose proof (prompt_item _ _ _ _ Hi Ek). apply prompt_refund.
Qed.

Lemma quick_step_fresh items budget p : prompt_items items ->
  quick clock (step_fresh clock instant_max items budget p) (fun r => sane_step budget r.1).
Proof.
  intros Hi. unfold step_fresh.
  apply quick_then with (fun best => forall k wait, best = Some (Some (k, wait)) -> 0 <= wait).
  - assert (Hn : forall (k : nat) wait, None = Some (k, wait) -> 0 <= wait) by done. revert Hn.
    generalize (@None (nat * Duration)). generalize 0%nat. induction Hi as [|[l cost] items Hl _ IH]; intros k best Hbest; simpl.
    + apply quick_ret. intros j wait [= ->]. by eapply Hbest.
    + eapply quick_then; [apply prompt_peek|]. intros [|after|] Hd; [by apply IH| |by apply (quick_ret clock)].
      specialize (Hd _ eq_refl). apply IH. intros j wait. destruct best as [[j' longest]|].
      * destruct (longest <? after); [by intros [= _ <-]|by apply Hbest].
      * by intros [= _ <-].
  - intros [[[k wait]|]|] Hbest; [| |by apply quick_ret].
    + specialize (Hbest _ _ eq_refl). destruct (budget <? wait); [by apply quick_ret|].
      destruct (items !! k) as [[l cost]|] eqn:Ek; [|by apply quick_ret].
      pose proof (prompt_item _ _ _ _ Hi Ek).
      eapply quick_then; [by apply prompt_reserve|]. intros [d|] Hd; [|by apply quick_ret].
      intros w. split; [done|]. intros Hb. by apply (Hd _ eq_refl).
    + eapply quick_then; [by apply quick_acquire_all|]. intros [] _; apply quick_ret; simpl; lia.
Qed.

Lemma quick_switch items budget p : prompt_items items ->
  quick clock (switch clock instant_max items budget p) (fun r => sane_step budget r.1).
Proof.
  intros Hi. eapply quick_then; [by apply quick_release_all|]. intros p' _. by apply quick_step_fresh.
Qed.

Lemma quick_step_all items p budget : prompt_items items ->
  quick clock (step_all clock instant_max items p budget) (fun r => sane_step budget r.1).
Proof.
  intros Hi. unfold step_all. destruct (held p) as [|k|]; try by apply quick_step_fresh.
  assert (Hrest : prompt_items (rest_of items k)) by (apply Forall_app; split; [by apply Forall_take|by apply Forall_drop]).
  intros w. unfold step_holding. destruct (negb _) eqn:Er.
  { split; [done|]. simpl. intros _. destruct (due p); mlia. }
  revert w Er. set (m := mthen (peek_all (rest_of items k)) _). intros w _. revert w. fold (quick clock m (fun r => sane_step budget r.1)).
  eapply quick_then; [by apply quick_peek_all|]. intros [|after|] _.
  - eapply quick_then; [by apply quick_acquire_all|]. intros d _. destruct (is_acquired d); apply quick_ret; simpl; lia.
  - destruct (_ || _); [|by apply quick_switch].
    eapply quick_then; [by apply quick_reserve_each|]. intros [wait|] Hw; [|by apply quick_switch].
    apply quick_ret. intros Hb. by apply Hw.
  - eapply quick_then; [by apply quick_release_all|]. intros. by apply quick_ret.
Qed.

(** A composite of prompt limiters is a timely client of the engine. *)
Lemma composite_timely items : prompt_items items ->
  Timely clock (step_all clock instant_max items) (release_all items) (paused_all items).
Proof.
  intros Hi. constructor.
  - intros p d w. by apply quick_step_all.
  - intros p w. by apply quick_release_all.
  - intros w. by apply quick_paused_all.
  - intros p d w Hd. destruct (quick_step_all items p d Hi w) as [_ Hs].
    destruct (step_all _ _ _ _ _ w).1.1; simpl in Hs; auto.
Qed.

End Helpers.

(** ** The limiters of the library *)

Section Forwarded.
Context {W : Type} (clock : W -> Z) (l : Limiter W) `{HP : !Prompt clock l}.

#[export] Instance prompt_ref : Prompt clock (limiter_of_ref l).
Proof using HP. destruct HP. by constructor. Qed.
#[export] Instance prompt_box : Prompt clock (limiter_of_box l).
Proof using HP. destruct HP. by constructor. Qed.
#[export] Instance prompt_arc : Prompt clock (limiter_of_arc l).
Proof using HP. destruct HP. by constructor. Qed.

(** Logging takes no time. *)
Lemma quick_lift {A} (m : M W A) P : quick clock m P -> quick (fun s : W * list event => clock s.1) (lift m) P.
Proof. intros Hm s. unfold lift. specialize (Hm s.1). by destruct (m s.1). Qed.

#[export] Instance prompt_instrument who : Prompt (fun s => clock s.1) (instrument who l).
Proof using HP.
  constructor; simpl.
  - intros cost. apply quick_lift, prompt_peek.
  - intros cost. eapply quick_then; [apply quick_lift, prompt_acquire|]. intros d _. by destruct (is_acquired d).
  - intros cost. eapply quick_then; [apply quick_lift, prompt_refund|]. intros [] _. by intros s.
  - intros cost most. eapply quick_then; [apply quick_lift, prompt_reserve|]. intros [wait|] Hw; [|by apply quick_ret].
    apply quick_then with any; [by intros s|]. intros [] _. by apply quick_ret.
  - apply quick_lift, prompt_paused.
Qed.

End Forwarded.

(** A limiter with the provided methods only. *)
Lemma quick_default_reserve {W} (clock : W -> Z) (acquire_cost : Z -> M W Decision) cost most :
  quick clock (acquire_cost cost) any -> quick clock (default_reserve acquire_cost cost most) (sane_wait most).
Proof.
  intros Ha. eapply quick_then; [exact Ha|]. intros d _. apply quick_ret.
  destruct (is_acquired d); [|done]. apply sane_some. unfold DURATION_ZERO. lia.
Qed.

Class KeyedPrompt {W K} (clock : W -> Z) (l : KeyedLimiter W K) : Prop := {
  keyed_prompt_peek key cost : quick clock (keyed_peek l key cost) sane_decision;
  keyed_prompt_acquire key cost : quick clock (keyed_acquire_cost l key cost) any;
  keyed_prompt_refund key cost : quick clock (keyed_refund l key cost) any;
  keyed_prompt_reserve key cost most : quick clock (keyed_reserve l key cost most) (sane_wait most) }.

#[export] Instance prompt_scope {W K} (clock : W -> Z) (l : KeyedLimiter W K) key :
  KeyedPrompt clock l -> Prompt clock (KeyScope l key).
Proof.
  intros Hl. constructor; simpl; intros.
  - apply keyed_prompt_peek.
  - apply keyed_prompt_acquire.
  - apply keyed_prompt_refund.
  - apply keyed_prompt_reserve.
  - by apply quick_ret.
Qed.

(** *** Composites, nested to any depth *)

#[export] Instance prompt_hybrid {W} (clock : W -> Z) (self : Hybrid.Hybrid W) :
  TCForall (Prompt clock) (Hybrid.constituents self) -> Prompt clock (Hybrid.limiter self).
Proof.
  intros Hl%TCForall_Forall.
  assert (Hi : forall cost, prompt_items clock (Hybrid.pairs self cost)).
  { intros cost. unfold prompt_items, Hybrid.pairs. by rewrite Forall_fmap. }
  constructor; simpl; intros.
  - by apply quick_peek_all.
  - by apply quick_acquire_all.
  - by apply quick_refund_all.
  - by apply quick_reserve_all.
  - by apply quick_paused_all, (Hi 0).
Qed.

(** *** The circuit breaker, over a prompt limiter *)

Section Breaker.
Context {W : Type} (clock : W -> Z) (inner : Limiter W) `{!Prompt clock inner} (config : Circuit.Config).
Context (shared_at : W -> Circuit.Shared) (set_shared : Circuit.Shared -> W -> W) (now_ms : W -> Z).
Context (set_clock : forall s w, clock (set_shared s w) = clock w).

Lemma quick_locked {A} (f : Circuit.Shared -> A * Circuit.Shared) :
  quick clock (Circuit.locked shared_at set_shared f) any.
Proof using set_clock. intros w. unfold Circuit.locked. destruct (f _). simpl. by rewrite set_clock. Qed.

Lemma quick_admit via : quick clock (Circuit.breaker_admit config shared_at set_shared now_ms via) any.
Proof using set_clock. intros w. unfold Circuit.breaker_admit. apply quick_locked. Qed.

Lemma quick_update f : quick clock (Circuit.update shared_at set_shared f) any.
Proof using set_clock. unfold Circuit.update. apply quick_locked. Qed.

#[export] Instance prompt_breaker : Prompt clock (Circuit.CircuitBreaker inner config shared_at set_shared now_ms).
Proof using Type*.
  constructor; simpl; intros.
  - intros w. unfold Circuit.breaker_peek.
    destruct (Circuit.state (shared_at w)); [apply prompt_peek| |];
      (case_match eqn:E; [split; [done|]; apply sane_retry|apply prompt_peek]); [|done].
    apply Z.ltb_lt in E. unfold from_millis. mlia.
  - apply quick_then with any; [apply quick_admit|]. intros [ticket|after] _; [|by apply quick_ret].
    apply quick_then with any; [apply prompt_acquire|]. intros d _. destruct (is_acquired d); [by apply quick_ret|].
    apply quick_then with any; [apply quick_update|]. intros. by apply quick_ret.
  - apply quick_then with any; [apply prompt_refund|]. intros. apply quick_update.
  - apply quick_then with any; [apply quick_admit|]. intros [ticket|after] _; [|by apply quick_ret].
    eapply quick_then; [apply prompt_reserve|]. intros [wait|] Hw; [by apply quick_ret|].
    apply quick_then with any; [apply quick_update|]. intros. by apply quick_ret.
  - apply prompt_paused.
Qed.

End Breaker.

(** *** The throttle and the sliding window *)

Section Throttle.
Context {B : Type} `{Bucket.BucketLaws B} {W : Type} (clock : W -> Z).
Context (get : W -> Throttle.Throttle B) (put : Throttle.Throttle B -> W -> W) (reading : W -> Z).
Context (put_clock : forall t w, clock (put t w) = clock w).

Lemma quick_on_throttle {A} (f : Throttle.Throttle B -> Z -> A * Throttle.Throttle B) (P : A -> Prop) :
  (forall t now, P (f t now).1) -> quick clock (Throttle.on_throttle get put reading f) P.
Proof using put_clock.
  intros Hf w. unfold Throttle.on_throttle. specialize (Hf (get w) (reading w)). destruct (f _ _). simpl. by rewrite put_clock.
Qed.

Lemma throttle_held_nonneg (t : Throttle.Throttle B) now : 0 <= Throttle.held t now.
Proof. rewrite Throttle.held_remaining. apply Hold.remaining_nonneg. Qed.

Lemma throttle_reserve_sane (t : Throttle.Throttle B) cost most now : sane_wait most (Throttle.reserve t cost most now).1.
Proof.
  unfold Throttle.reserve. destruct (negb _); [done|].
  pose proof (Bucket.law_reserve (Throttle.bucket t) cost most now) as Hr.
  pose proof (Bucket.law_wait (Throttle.bucket t) cost now) as Hw.
  destruct (Bucket.time_until_at (Throttle.bucket t) cost now) as [w|].
  - specialize (Hw w eq_refl). case_decide.
    + destruct (Bucket.reserve_at _ _ _ _) as [r b]. simpl in *. subst r. apply sane_some. lia.
    + by rewrite Hr.
  - by rewrite Hr.
Qed.

#[export] Instance prompt_throttle capacity : Prompt clock (Throttle.throttle_limiter get put reading capacity).
Proof using Type*.
  constructor; simpl; intros; apply quick_on_throttle; intros t now; simpl; try done.
  - unfold Throttle.peek. destruct (_ <? cost); [done|]. destruct (Bucket.time_until_at _ _ _) as [w|] eqn:Ew; [|done].
    destruct (is_zero _); [done|]. apply sane_retry. pose proof (throttle_held_nonneg t now). lia.
  - apply throttle_reserve_sane.
  - apply throttle_held_nonneg.
Qed.

End Throttle.

Section Sliding.
Context {W : Type} (clock : W -> Z).
Context (get : W -> Sliding.SlidingWindowLog) (put : Sliding.SlidingWindowLog -> W -> W) (now_ns : W -> Z).
Context (put_clock : forall t w, clock (put t w) = clock w).

(** The window is a u64, fixed when the log is built. *)
Context (window_u64 : forall w, 0 <= Sliding.window_ns (get w)).

Lemma quick_on_log {A} (f : Sliding.SlidingWindowLog -> Z -> A * Sliding.SlidingWindowLog) (P : A -> Prop) :
  (forall t now, 0 <= Sliding.window_ns t -> P (f t now).1) -> quick clock (SlidingWait.on_log get put now_ns f) P.
Proof using put_clock window_u64.
  intros Hf w. unfold SlidingWait.on_log. specialize (Hf (get w) (now_ns w) (window_u64 w)).
  destruct (f _ _). simpl. by rewrite put_clock.
Qed.

Lemma wait_for_nonneg w now needed gs freed : 0 <= w -> 0 <= Sliding.wait_for_loop w now needed gs freed.
Proof.
  intros Hw. revert freed. induction gs as [|g gs IH]; intros freed; simpl; [done|].
  case_match; [mlia|apply IH].
Qed.

Lemma evaluate_sane self now cost record :
  0 <= Sliding.window_ns self -> sane_decision (Sliding.evaluate self now cost record).1.
Proof.
  intros Hw. unfold Sliding.evaluate. repeat case_match; try done; apply sane_retry; [mlia|by apply wait_for_nonneg].
Qed.

#[export] Instance prompt_sliding limit : Prompt clock (SlidingWait.sliding_limiter get put now_ns limit).
Proof using Type*.
  constructor; simpl; intros.
  - apply quick_on_log. intros t now. apply evaluate_sane.
  - by apply quick_on_log.
  - by apply quick_on_log.
  - by apply quick_default_reserve, quick_on_log.
  - apply quick_on_log. intros t now _. simpl. unfold Sliding.paused_for. mlia.
Qed.

End Sliding.
