(* ===== verification/Layered.v ===== *)
(** * Layered (layered.rs)

    A request passes up to three scopes: one limiter for everything, one per
    key, one per endpoint. The loops of the composition helpers are written
    out by hand here; the theorems relate them to the helpers. *)

From S2P Require Import Prelude Decisions Limiter Compose Wait.
From S2P Require Hybrid.

Record Layered (W K E : Type) := mkLayered {
  global : option (Limiter W);
  per_key : option (KeyedLimiter W K);
  per_endpoint : option (KeyedLimiter W E) }.
Arguments mkLayered {W K E}. Arguments global {W K E}. Arguments per_key {W K E}. Arguments per_endpoint {W K E}.

(** [option.as_ref().map(f)], the call made when there is a scope. *)
Definition ask {W S A} (scope : option S) (f : S -> M W A) : M W (option A) :=
  match scope with
  | Some scope => let! a := f scope in mret (Some a)
  | None => mret None
  end.

Section Layered.
Context {W K E : Type}.
Implicit Types (self : Layered W K E).

(** All three scopes are peeked, in order, whatever the first ones answer. *)
Definition peek_scopes self (key : K) (endpoint : E) (cost : Z) : M W Decision :=
  let! p1 := ask (global self) (fun g => peek g cost) in
  let! p2 := ask (per_key self) (fun pk => keyed_peek pk key cost) in
  let! p3 := ask (per_endpoint self) (fun pe => keyed_peek pe endpoint cost) in
  mret (finish_peek (foldl fold_peek Ready (omap (fun p => p) [p1; p2; p3]))).

Definition refund_scopes self (key : K) (endpoint : E) (cost : Z) (charged : nat) : M W unit :=
  let! _ :=
    if (1 <=? charged)%nat then match global self with Some scope => refund scope cost | None => mret tt end else mret tt in
  let! _ :=
    if (2 <=? charged)%nat then match per_key self with Some scope => keyed_refund scope key cost | None => mret tt end
    else mret tt in
  if (3 <=? charged)%nat then match per_endpoint self with Some scope => keyed_refund scope endpoint cost | None => mret tt end
  else mret tt.

(** The third scope of [decide]; the second; the first. *)
Definition decide_endpoint self (key : K) (endpoint : E) (cost : Z) : M W Decision :=
  match per_endpoint self with
  | Some scope =>
      let! decision := keyed_acquire_cost scope endpoint cost in
      if is_acquired decision then mret Acquired
      else let! _ := refund_scopes self key endpoint cost 2 in mret decision
  | None => mret Acquired
  end.

Definition decide_key self (key : K) (endpoint : E) (cost : Z) : M W Decision :=
  match per_key self with
  | Some scope =>
      let! decision := keyed_acquire_cost scope key cost in
      if is_acquired decision then decide_endpoint self key endpoint cost
      else let! _ := refund_scopes self key endpoint cost 1 in mret decision
  | None => decide_endpoint self key endpoint cost
  end.

Definition decide self (key : K) (endpoint : E) (cost : Z) : M W Decision :=
  let! peeked := peek_scopes self key endpoint cost in
  match peeked with
  | Acquired =>
      match global self with
      | Some scope =>
          let! decision := acquire_cost scope cost in
          if is_acquired decision then decide_key self key endpoint cost else mret decision
      | None => decide_key self key endpoint cost
      end
  | other => mret other
  end.

Definition capacity self : Z :=
  default u32_max (Hybrid.min_of (omap (fun c => c)
    [Limiter.capacity <$> global self; keyed_capacity <$> per_key self; keyed_capacity <$> per_endpoint self])).

Definition try_acquire_with_cost self (key : K) (endpoint : E) (cost : Z) : M W bool :=
  let! d := decide self key endpoint cost in mret (is_acquired d).
Definition try_acquire self (key : K) (endpoint : E) : M W bool := try_acquire_with_cost self key endpoint 1.
Definition peek self (key : K) (endpoint : E) (cost : Z) : M W Decision := peek_scopes self key endpoint cost.
Definition refund self (key : K) (endpoint : E) (cost : Z) : M W unit := refund_scopes self key endpoint cost 3.

Definition pause_for self (duration : Duration) : M W unit :=
  match global self with Some scope => Limiter.pause_for scope duration | None => mret tt end.
Definition resume self : M W unit :=
  match global self with Some scope => Limiter.resume scope | None => mret tt end.
Definition paused_for self : M W Duration :=
  match global self with Some scope => Limiter.paused_for scope | None => mret DURATION_ZERO end.

(** The scopes of a waiting acquire, as items of the composition helpers. *)
Definition scopes self (key : K) (endpoint : E) (cost : Z) : list (Limiter W * Z) :=
  omap (fun scope => scope)
    [(fun g => (g, cost)) <$> global self;
     (fun scope => (KeyScope scope key, cost)) <$> per_key self;
     (fun scope => (KeyScope scope endpoint, cost)) <$> per_endpoint self].

Section Waiting.
Context (instant_now : W -> Z) (instant_max : Z).
Definition wait_step self key endpoint (cost : Z) := step_all instant_now instant_max (scopes self key endpoint cost).
Definition wait_release self key endpoint (cost : Z) := release_all (scopes self key endpoint cost).
Definition wait_paused self key endpoint (cost : Z) : M W Duration := paused_all (scopes self key endpoint cost).
Definition wait_error self (cost : Z) (refusal : Refusal) : ThrottleError :=
  match refusal with
  | RefusalNever => CostExceedsCapacity cost (capacity self)
  | RefusalTimedOut => DeadlineExceeded
  end.
End Waiting.

(** ** The builder *)

Record LayeredBuilder := mkLayeredBuilder {
  b_global : option (Limiter W);
  b_per_key : option (KeyedLimiter W K);
  b_per_endpoint : option (KeyedLimiter W E) }.
Definition builder : LayeredBuilder := mkLayeredBuilder None None None.
Definition set_global (b : LayeredBuilder) (l : Limiter W) := mkLayeredBuilder (Some l) (b_per_key b) (b_per_endpoint b).
Definition shared_global (b : LayeredBuilder) (l : Limiter W) := mkLayeredBuilder (Some l) (b_per_key b) (b_per_endpoint b).
Definition set_per_key (b : LayeredBuilder) (l : KeyedLimiter W K) := mkLayeredBuilder (b_global b) (Some l) (b_per_endpoint b).
Definition set_per_endpoint (b : LayeredBuilder) (l : KeyedLimiter W E) := mkLayeredBuilder (b_global b) (b_per_key b) (Some l).
Definition build (b : LayeredBuilder) : Layered W K E := mkLayered (b_global b) (b_per_key b) (b_per_endpoint b).

End Layered.
Arguments LayeredBuilder : clear implicits.

(** ** Keyed limiters that keep books *)

(** A keyed limiter that logs its grants, each key under a name of its own. *)
Definition instrument_keyed {W K} (who : K -> nat) (l : KeyedLimiter W K) : KeyedLimiter (W * list event) K := {|
  keyed_peek key := Limiter.peek (instrument (who key) (KeyScope l key));
  keyed_acquire_cost key := Limiter.acquire_cost (instrument (who key) (KeyScope l key));
  keyed_refund key := Limiter.refund (instrument (who key) (KeyScope l key));
  keyed_reserve key := Limiter.reserve (instrument (who key) (KeyScope l key));
  keyed_capacity := keyed_capacity l |}.

Section Books.
Context {W K E : Type}.

Definition instrumented (g : nat) (of_key : K -> nat) (of_endpoint : E -> nat) (self : Layered W K E)
    : Layered (W * list event) K E :=
  mkLayered (instrument g <$> global self) (instrument_keyed of_key <$> per_key self)
    (instrument_keyed of_endpoint <$> per_endpoint self).

Lemma moves_ask {S S' A} (h : S -> S') (scope : option S) (f : S' -> M (W * list event) A) :
  (forall s, moves (f (h s)) (fun _ _ => 0)) -> moves (ask (h <$> scope) f) (fun _ _ => 0).
Proof.
  intros Hf. destruct scope as [s|]; simpl; [|by apply moves_ret].
  apply moves_quiet; [apply Hf|]. intros a. by apply moves_ret.
Qed.

Lemma moves_give_back {S S'} (b : bool) (h : S -> S') (scope : option S) (r : S' -> M (W * list event) unit) part :
  (forall s, scope = Some s -> moves (r (h s)) (fun _ who => - part who)) ->
  (scope = None -> forall who, part who = 0) ->
  moves (if b then match h <$> scope with Some s => r s | None => mret tt end else mret tt)
    (fun _ who => - (if b then part who else 0)).
Proof.
  intros Hs Hn. destruct b; [|by apply moves_ret]. destruct scope as [s|]; simpl; [by apply Hs|].
  apply moves_ret. intros who. rewrite Hn; done.
Qed.

Section Scopes.
Context (g : nat) (of_key : K -> nat) (of_endpoint : E -> nat) (self : Layered W K E).
Context (key : K) (endpoint : E) (cost : Z).

(** What one grant takes from [who], scope by scope. *)
Definition from_global (who : nat) : Z := if global self is Some _ then delta who (Took g cost) else 0.
Definition from_key (who : nat) : Z := if per_key self is Some _ then delta who (Took (of_key key) cost) else 0.
Definition from_endpoint (who : nat) : Z := if per_endpoint self is Some _ then delta who (Took (of_endpoint endpoint) cost) else 0.
Definition taken (who : nat) : Z := from_global who + from_key who + from_endpoint who.

Abbreviation logged := (instrumented g of_key of_endpoint self).

Lemma moves_refund_scopes charged :
  moves (refund_scopes logged key endpoint cost charged)
    (fun _ who => - ((if (1 <=? charged)%nat then from_global who else 0) + (if (2 <=? charged)%nat then from_key who else 0) +
       (if (3 <=? charged)%nat then from_endpoint who else 0))).
Proof.
  unfold refund_scopes.
  eapply moves_then; [apply (moves_give_back _ _ (global self) _ from_global)|intros []].
  { intros l Hl. unfold from_global. rewrite Hl. apply (moves_refund g l cost). }
  { intros Hl who. unfold from_global. by rewrite Hl. }
  eapply moves_then; [apply (moves_give_back _ _ (per_key self) _ from_key)|intros []].
  { intros l Hl. unfold from_key. rewrite Hl. apply (moves_refund (of_key key) (KeyScope l key) cost). }
  { intros Hl who. unfold from_key. by rewrite Hl. }
  eapply moves_ext; [apply (moves_give_back _ _ (per_endpoint self) _ from_endpoint)|].
  { intros l Hl. unfold from_endpoint. rewrite Hl. apply (moves_refund (of_endpoint endpoint) (KeyScope l endpoint) cost). }
  { intros Hl who. unfold from_endpoint. by rewrite Hl. }
  intros [] who. cbn beta. lia.
Qed.

Lemma moves_peek_scopes : moves (peek_scopes logged key endpoint cost) (fun _ _ => 0).
Proof.
  unfold peek_scopes. apply moves_quiet; [|intros p1; apply moves_quiet; [|intros p2; apply moves_quiet; [|intros p3]]];
    [simpl; apply moves_ask; intros l; by apply moves_lift..|by apply moves_ret].
Qed.

(** A scope's acquisition, given back with the ones before it when refused. *)
Lemma moves_scope i (l : Limiter W) (charged : nat) (next : M (W * list event) Decision) before here after :
  (forall who, here who = delta who (Took i cost)) ->
  (forall who, before who = (if (1 <=? charged)%nat then from_global who else 0) +
    (if (2 <=? charged)%nat then from_key who else 0) + (if (3 <=? charged)%nat then from_endpoint who else 0)) ->
  moves next (fun d who => if is_acquired d then after who else - (before who + here who)) ->
  moves (let! decision := acquire_cost (instrument i l) cost in
         if is_acquired decision then next
         else let! _ := refund_scopes logged key endpoint cost charged in mret decision)
    (fun d who => if is_acquired d then here who + after who else - before who).
Proof.
  intros Hh Hb Hn. eapply moves_then; [apply moves_acquire|]. intros d. unfold takes. destruct (is_acquired d) eqn:Ed.
  - eapply moves_ext; [exact Hn|]. intros d' who. cbn beta. rewrite Hh. destruct (is_acquired d'); lia.
  - eapply moves_then; [apply moves_refund_scopes|]. intros []. apply moves_ret. intros who. cbn beta. rewrite Ed, Hb. lia.
Qed.

Lemma moves_decide_endpoint :
  moves (decide_endpoint logged key endpoint cost)
    (fun d who => if is_acquired d then from_endpoint who else - (from_global who + from_key who)).
Proof.
  unfold decide_endpoint. destruct (per_endpoint self) as [l|] eqn:El.
  - replace (per_endpoint logged) with (Some (instrument_keyed of_endpoint l)) by (simpl; by rewrite El).
    eapply moves_ext; [apply (moves_scope (of_endpoint endpoint) (KeyScope l endpoint) 2 (mret Acquired)
      (fun who => from_global who + from_key who) from_endpoint (fun _ => 0))|].
    + intros who. unfold from_endpoint. by rewrite El.
    + intros who. simpl. lia.
    + by apply moves_ret.
    + intros d who. cbn beta. destruct (is_acquired d); lia.
  - replace (per_endpoint logged) with (@None (KeyedLimiter (W * list event) E)) by (simpl; by rewrite El).
    apply moves_ret. intros who. unfold from_endpoint. by rewrite El.
Qed.

Lemma moves_decide_key :
  moves (decide_key logged key endpoint cost)
    (fun d who => if is_acquired d then from_key who + from_endpoint who else - from_global who).
Proof.
  unfold decide_key. destruct (per_key self) as [l|] eqn:El.
  - replace (per_key logged) with (Some (instrument_keyed of_key l)) by (simpl; by rewrite El).
    apply (moves_scope (of_key key) (KeyScope l key) 1 (decide_endpoint logged key endpoint cost)
      from_global from_key from_endpoint).
    + intros who. unfold from_key. by rewrite El.
    + intros who. simpl. lia.
    + apply moves_decide_endpoint.
  - replace (per_key logged) with (@None (KeyedLimiter (W * list event) K)) by (simpl; by rewrite El).
    eapply moves_ext; [apply moves_decide_endpoint|]. intros d who. unfold from_key. rewrite El.
    destruct (is_acquired d); lia.
Qed.

Lemma moves_decide : moves (decide logged key endpoint cost) (fun d who => if is_acquired d then taken who else 0).
Proof.
  unfold decide. apply moves_quiet; [apply moves_peek_scopes|]. intros [|after|]; [|by apply moves_ret..].
  destruct (global self) as [l|] eqn:El.
  - replace (global logged) with (Some (instrument g l)) by (simpl; by rewrite El).
    eapply moves_then; [apply moves_acquire|]. intros d. unfold takes. destruct (is_acquired d) eqn:Ed.
    + eapply moves_ext; [apply moves_decide_key|]. intros d' who. unfold taken, from_global. rewrite El.
      destruct (is_acquired d'); lia.
    + apply moves_ret. intros who. rewrite Ed. lia.
  - replace (global logged) with (@None (Limiter (W * list event))) by (simpl; by rewrite El).
    eapply moves_ext; [apply moves_decide_key|]. intros d who. unfold taken, from_global. rewrite El.
    destruct (is_acquired d); lia.
Qed.

End Scopes.

End Books.

(** ** The hand-written loops against the helpers *)

Section Helpers.
Context {W K E : Type}.
Implicit Types (self : Layered W K E).

(** A request that peeks only reads. *)
Definition reads_only (item : Limiter W * Z) : Prop := forall w, (Limiter.peek item.1 item.2 w).2 = w.

Lemma fold_peek_stays ds : foldl fold_peek Never ds = Never.
Proof. by induction ds. Qed.

Lemma peek_loop_fold (items : list (Limiter W * Z)) acc w : Forall reads_only items -> acc <> Never ->
  peek_loop items acc w = (foldl fold_peek acc ((fun it => (Limiter.peek it.1 it.2 w).1) <$> items), w).
Proof.
  intros Hr. revert acc. induction Hr as [|[l cost] items Hl _ IH]; intros acc Hacc; [done|].
  simpl. rewrite mthen_run. pose proof (Hl w) as Hw. simpl in Hw. rewrite Hw.
  destruct (fold_peek acc (Limiter.peek l cost w).1) eqn:Ef; [by rewrite IH..|]. by rewrite fold_peek_stays.
Qed.

Lemma scopes_all_peek self key endpoint cost w : Forall reads_only (scopes self key endpoint cost) ->
  peek_scopes self key endpoint cost w = peek_all (scopes self key endpoint cost) w.
Proof.
  intros Hr. unfold peek_all. rewrite mthen_run, (peek_loop_fold _ Ready) by done. revert Hr.
  unfold peek_scopes, scopes, ask.
  destruct (global self) as [l|], (per_key self) as [k|], (per_endpoint self) as [e|]; simpl;
    rewrite ?Forall_cons; intros Hr; decompose [and] Hr; unfold reads_only in *; simpl in *;
    rewrite ?mthen_run; simpl; rewrite ?mthen_run; simpl; rewrite ?mthen_run; simpl;
    repeat match goal with H : forall w, _ |- _ => rewrite H end; done.
Qed.

(** Committing the scopes after the peek, whatever the limiters do. *)
Lemma scopes_commit self key endpoint cost w :
  acquire_loop (scopes self key endpoint cost) (scopes self key endpoint cost) 0 w =
  (match global self with
   | Some scope =>
       let! decision := acquire_cost scope cost in
       if is_acquired decision then decide_key self key endpoint cost else mret decision
   | None => decide_key self key endpoint cost
   end) w.
Proof.
  unfold scopes, decide_key, decide_endpoint, refund_scopes.
  destruct (global self) as [l|], (per_key self) as [k|], (per_endpoint self) as [e|]; simpl;
    repeat (rewrite !mthen_run; simpl;
      match goal with |- context [match (?m ?w).1 with _ => _ end] => destruct (m w) as [[|?|] ?]; simpl end);
    unfold refund_first; simpl; rewrite ?mthen_run; done.
Qed.

End Helpers.

(** ** Theorems *)

(** C26: A request takes its cost from every scope there is or from none: a
    refusal by a later scope gives back what the earlier ones granted,
    whatever the limiters answer. A refund gives back exactly a grant. *)
Theorem layered_all_or_nothing {W K E : Type} (g : nat) (of_key : K -> nat) (of_endpoint : E -> nat)
    (self : Layered W K E) (key : K) (endpoint : E) (cost : Z) (s : W * list event) (who : nat) :
  let logged := instrumented g of_key of_endpoint self in
  let took := taken g of_key of_endpoint self key endpoint cost who in
  let '(d, s') := decide logged key endpoint cost s in
  outstanding s'.2 who = outstanding s.2 who + (if is_acquired d then took else 0) /\
  (is_acquired d = true ->
     outstanding (refund logged key endpoint cost s').2.2 who = outstanding s.2 who).
Proof.
  intros logged took. pose proof (moves_decide g of_key of_endpoint self key endpoint cost s who) as Hd.
  fold logged in Hd. destruct (decide logged key endpoint cost s) as [d s']. simpl in Hd.
  split; [exact Hd|]. intros Hacq. rewrite Hacq in Hd.
  pose proof (moves_refund_scopes g of_key of_endpoint self key endpoint cost 3 s' who) as Hr.
  etransitivity; [exact Hr|]. rewrite Hd. unfold taken. simpl. lia.
Qed.

(** While peeking only reads, the hand-written request is the composition
    helper's over the three scopes: the same peek, the same decision, the
    same state, whatever acquiring and refunding do. *)
Theorem layered_is_acquire_all {W K E : Type} (self : Layered W K E) (key : K) (endpoint : E) (cost : Z) (w : W) :
  Forall reads_only (scopes self key endpoint cost) ->
  peek self key endpoint cost w = peek_all (scopes self key endpoint cost) w /\
  decide self key endpoint cost w = acquire_all (scopes self key endpoint cost) w /\
  capacity self = default u32_max (Hybrid.min_of ((fun it => Limiter.capacity it.1) <$> scopes self key endpoint cost)).
Proof.
  intros Hr. pose proof (scopes_all_peek self key endpoint cost w Hr) as Hp. split_and!.
  - exact Hp.
  - unfold decide, acquire_all. rewrite !mthen_run, Hp.
    destruct (peek_all (scopes self key endpoint cost) w) as [[|after|] w']; simpl; [|done..].
    symmetry. apply scopes_commit.
  - unfold capacity, scopes. by destruct (global self), (per_key self), (per_endpoint self).
Qed.

(** ** Runs *)

(** The two tanks as keyed limiters: every key draws from the same tank. *)
Definition keyed_tank {K} (second : bool) (cap : Z) : KeyedLimiter tanks K :=
  let l := tank second cap in
  mkKeyed tanks K (fun _ => Limiter.peek l) (fun _ => Limiter.acquire_cost l) (fun _ => Limiter.refund l)
    (fun _ => Limiter.reserve l) cap.

Definition demo_layered : Layered tanks Z Z :=
  mkLayered (Some (tank false 10)) (Some (keyed_tank true 10)) (Some (keyed_tank false 10)).

Lemma layered_is_acquire_all_witness :
  decide demo_layered 1 2 5 (mkTanks 0 8 5) = acquire_all (scopes demo_layered 1 2 5) (mkTanks 0 8 5) /\
  decide demo_layered 1 2 5 (mkTanks 0 8 5) = (Retry 5, mkTanks 0 8 5).
Proof.
  split; [|reflexivity].
  apply (layered_is_acquire_all demo_layered 1 2 5 (mkTanks 0 8 5)).
  unfold demo_layered, scopes. simpl. repeat apply Forall_cons_2; [by intros w..|apply Forall_nil_2].
Defined.
