(* ===== verification/Acquire.v ===== *)
(** * Waiting acquires (the [acquire] methods of throttle.rs, sliding.rs, perkey.rs, hybrid.rs, layered.rs, multi.rs)

    Every limiter has the same three waiting methods over a private [wait],
    which hands the engine its step, its release and its pause and turns the
    engine's refusal into an error. A [Job] is what [wait] hands over; a call
    of a method is a job and a future that has not run yet. *)

From stdpp Require Import strings.
From S2P Require Import Prelude Decisions Wait Limiter Compose Boxed Client Prompt.
From S2P Require Bucket Throttle Sliding SlidingWait Hybrid Layered Multi.

(** ** Jobs and futures *)

Record Job (W T : Type) := mkJob {
  refused : option ThrottleError;      (* found out before the engine starts *)
  begin : T;
  step : T -> Duration -> M W (Step * T);
  release : T -> M W T;
  paused : M W Duration;
  outcome : Result unit Refusal -> M W (Result unit ThrottleError) }.
Arguments mkJob {W T}. Arguments refused {W T}. Arguments begin {W T}. Arguments step {W T}.
Arguments release {W T}. Arguments paused {W T}. Arguments outcome {W T}.

(** An [async fn] runs nothing before its first poll. *)
Inductive Future (T : Type) := Fresh (timeout : option Duration) | Running (f : Waiting T).
Arguments Fresh {T}. Arguments Running {T}.

(** The usual report of a refusal. *)
Definition report {W} (never : ThrottleError) (r : Result unit Refusal) : M W (Result unit ThrottleError) :=
  mret (match r with
        | Ok _ => Ok tt
        | Err RefusalNever => Err never
        | Err RefusalTimedOut => Err DeadlineExceeded
        end).

Section Call.
Context {W T : Type} (instant_now resume_epoch : W -> Z) (instant_max : Z) (rounds : nat) (j : Job W T).

Definition resume_future (f : Waiting T) : M W (Future T * option (Result unit ThrottleError)) :=
  let! f := poll_boxed instant_now resume_epoch (step j) (release j) (paused j) rounds f in
  match phase (engine f) with
  | Done r => let! r := outcome j r in mret (Running f, Some r)
  | _ => mret (Running f, None)
  end.

Definition poll_future (f : Future T) : M W (Future T * option (Result unit ThrottleError)) :=
  match f with
  | Fresh timeout =>
      match refused j with
      | Some e => mret (Fresh timeout, Some (Err e))
      | None =>
          let! f := start_boxed instant_now instant_max timeout (begin j) in resume_future f
      end
  | Running f => resume_future f
  end.

Definition drop_future (f : Future T) : M W unit :=
  match f with
  | Fresh _ => mret tt
  | Running f => drop_boxed (release j) f
  end.

(** An executor: before each poll the rest of the program takes its turn. *)
Fixpoint polls (turns : list (W -> W)) (f : Future T) : M W (Future T * option (Result unit ThrottleError)) :=
  match turns with
  | [] => mret (f, None)
  | turn :: turns => fun w =>
      let '((f, r), w) := poll_future f (turn w) in
      match r with
      | Some r => ((f, Some r), w)
      | None => polls turns f w
      end
  end.

End Call.

(** A method call. *)
Definition Call W T : Type := Job W T * Future T.

(** The three methods over a private [wait(cost, timeout)]. *)
Section Methods.
Context {C W T : Type} (wait : C -> option Duration -> Call W T).
Definition unbounded (cost : C) : Call W T := wait cost None.
Definition bounded (cost : C) (timeout : Duration) : Call W T := wait cost (Some timeout).
End Methods.

(** *** The limiters *)

Module OnThrottle.
Section Throttle.
Context {B : Type} `{Bucket.Bucket B} {W : Type}.
Context (get : W -> Throttle.Throttle B) (put : Throttle.Throttle B -> W -> W) (clock : W -> Z) (capacity : Z).

Abbreviation on := (Throttle.on_throttle get put clock).

Definition wait (cost : Z) (timeout : option Duration) : Call W unit :=
  (mkJob None tt
    (fun _ budget => on (fun t now => let '(s, t) := Throttle.step t cost budget now in ((s, tt), t)))
    (fun _ => on (fun t _ => (tt, Throttle.refund t cost)))
    (on (fun t now => (Throttle.paused_for t now, t)))
    (report (CostExceedsCapacity cost capacity)), Fresh timeout).

Definition acquire_with_cost := unbounded wait.
Definition acquire : Call W unit := acquire_with_cost 1.
Definition acquire_with_cost_timeout := bounded wait.
Definition acquire_timeout (timeout : Duration) : Call W unit := acquire_with_cost_timeout 1 timeout.
End Throttle.
End OnThrottle.

Module OnSliding.
Section Sliding.
Context {W : Type}.
Context (get : W -> Sliding.SlidingWindowLog) (put : Sliding.SlidingWindowLog -> W -> W) (now_ns : W -> Z) (limit : Z).

Abbreviation log := (SlidingWait.sliding_limiter get put now_ns limit).

Definition wait (cost : Z) (timeout : option Duration) : Call W unit :=
  (mkJob None tt (SlidingWait.wait_step log cost) (SlidingWait.wait_release log cost) (SlidingWait.wait_paused log)
    (report (CostExceedsCapacity cost limit)), Fresh timeout).

Definition acquire_with_cost := unbounded wait.
Definition acquire : Call W unit := acquire_with_cost 1.
Definition acquire_with_cost_timeout := bounded wait.
End Sliding.
End OnSliding.

Module OnHybrid.
Section Hybrid.
Context {W : Type} (instant_now : W -> Z) (instant_max : Z) (self : Hybrid.Hybrid W).

Definition wait (cost : Z) (timeout : option Duration) : Call W Progress :=
  (mkJob None Progress_new (Hybrid.wait_step instant_now instant_max self cost) (Hybrid.wait_release self cost)
    (Hybrid.wait_paused self cost) (report (CostExceedsCapacity cost (Hybrid.capacity self))), Fresh timeout).

Definition acquire_with_cost := unbounded wait.
Definition acquire : Call W Progress := acquire_with_cost 1.
Definition acquire_with_cost_timeout := bounded wait.
End Hybrid.
End OnHybrid.

Module OnLayered.
Section Layered.
Context {W K E : Type} (instant_now : W -> Z) (instant_max : Z) (self : Layered.Layered W K E).

Definition wait (key : K) (endpoint : E) (cost : Z) (timeout : option Duration) : Call W Progress :=
  (mkJob None Progress_new (Layered.wait_step instant_now instant_max self key endpoint cost)
    (Layered.wait_release self key endpoint cost) (Layered.wait_paused self key endpoint cost)
    (report (CostExceedsCapacity cost (Layered.capacity self))), Fresh timeout).

Definition acquire_with_cost key endpoint := unbounded (wait key endpoint).
Definition acquire key endpoint : Call W Progress := acquire_with_cost key endpoint 1.
Definition acquire_with_cost_timeout key endpoint := bounded (wait key endpoint).
End Layered.
End OnLayered.

Module OnMulti.
Section Multi.
Context {W : Type} (instant_now : W -> Z) (instant_max : Z) (self : Multi.MultiLimiter W).

Definition wait (cs : Multi.costs) (timeout : option Duration) : Call W Progress :=
  (mkJob (Multi.wait_refused self cs) Progress_new (Multi.wait_step instant_now instant_max self cs)
    (Multi.wait_release self cs) (Multi.wait_paused self cs) (Multi.wait_result self cs), Fresh timeout).

Definition acquire_costs := unbounded wait.
Definition acquire_costs_timeout := bounded wait.
End Multi.
End OnMulti.

(** ** Deadlines *)

Section Deadlines.
Context {W T : Type} (instant_now resume_epoch : W -> Z) (instant_max : Z) (extra : nat) (j : Job W T).
Context `{HT : !Timely instant_now (step j) (release j) (paused j)}.
Abbreviation segment_ := (Wait.poll instant_now resume_epoch (step j) (release j) (paused j)).

(** A future that sleeps will be ready at its deadline, if not before. *)
Record punctual (at_ : Z) (e : Engine T) (now : Z) : Prop := mkPunctual {
  pun_due a due : phase e = Awaiting a -> await_due a = Some due -> due <= Z.max at_ now;
  pun_zero : 0 <= zero_waits e }.

Lemma zero_waits_time_out (e : Engine T) w : zero_waits (time_out (release j) e w).1 = zero_waits e.
Proof. unfold time_out, fire. rewrite mthen_run. simpl. destruct (armed e); [|done]. by rewrite mthen_run. Qed.

Lemma zero_waits_nap deadline e after epoch w : 0 <= zero_waits e ->
  0 <= zero_waits (nap instant_now resume_epoch (release j) (paused j) deadline e after epoch w).1.
Proof.
  intros Hz. unfold nap. destruct (is_zero after).
  - simpl. destruct (_ <=? RACE_YIELDS); [simpl; mlia|]. destruct (is_zero _); [rewrite zero_waits_time_out; simpl; mlia|].
    rewrite mthen_run. destruct (_ =? epoch); simpl; mlia.
  - rewrite mthen_run. by destruct (_ =? epoch).
Qed.

Lemma zero_waits_poll deadline e w : 0 <= zero_waits e -> 0 <= zero_waits (segment_ deadline e w).1.
Proof.
  intros Hz. unfold Wait.poll. destruct (phase e); try done.
  - unfold poll_loop. rewrite mthen_run. destruct (step j _ _ w) as [[s t] w']. simpl.
    destruct s as [wait|wait|after|]; simpl.
    + by destruct (is_zero wait).
    + destruct (_ <? _); [by rewrite zero_waits_time_out|by apply zero_waits_nap].
    + destruct (_ <? _); [done|by apply zero_waits_nap].
    + done.
  - unfold poll_pause. rewrite mthen_run. destruct (is_zero _); [done|]. destruct (_ <? _); [by rewrite zero_waits_time_out|done].
Qed.

Lemma punctual_segment at_ e w : phase e = Looping \/ phase e = CheckPause -> punctual at_ e (instant_now w) ->
  let r := segment_ (Some at_) e w in punctual at_ r.1 (instant_now r.2) /\ instant_now r.2 = instant_now w.
Proof using HT.
  intros Hph [_ Hz] r. pose proof (poll_in_time instant_now resume_epoch _ _ _ (Some at_) e w Hph) as Hin.
  fold r in Hin. pose proof (zero_waits_poll (Some at_) e w Hz) as Hz'. fold r in Hz'.
  destruct r as [e' w']. destruct Hin as [Hc Hs]. split; [|done]. constructor; [|done].
  intros a due Ha Hd. specialize (Hs a due Ha Hd). simpl in *. unfold sat_sub in Hs. lia.
Qed.

Lemma punctual_segments at_ n f w : deadline f = Some at_ -> punctual at_ (engine f) (instant_now w) ->
  let r := segments instant_now resume_epoch (step j) (release j) (paused j) n f w in
  deadline r.1 = Some at_ /\ punctual at_ (engine r.1) (instant_now r.2) /\ instant_now r.2 = instant_now w.
Proof using HT.
  revert f w. induction n as [|n IH]; intros f w Hd Hp; [done|]. simpl.
  assert (Hgo : phase (engine f) = Looping \/ phase (engine f) = CheckPause ->
    let r := (let! f := segment instant_now resume_epoch (step j) (release j) (paused j) f in
      segments instant_now resume_epoch (step j) (release j) (paused j) n f) w in
    deadline r.1 = Some at_ /\ punctual at_ (engine r.1) (instant_now r.2) /\ instant_now r.2 = instant_now w).
  { intros Hph r. subst r. rewrite mthen_run. unfold segment. rewrite mthen_run, Hd.
    destruct (punctual_segment at_ (engine f) w Hph Hp) as [Hp' Hc].
    destruct (IH (mkWaiting (Some at_) (segment_ (Some at_) (engine f) w).1)
      (segment_ (Some at_) (engine f) w).2 eq_refl Hp') as (H1 & H2 & H3). by rewrite <- Hc. }
  destruct (phase (engine f)); auto.
Qed.

Lemma punctual_wake at_ f w : deadline f = Some at_ -> punctual at_ (engine f) (instant_now w) ->
  let r := wake instant_now resume_epoch f w in
  deadline r.1 = Some at_ /\ punctual at_ (engine r.1) (instant_now r.2) /\ r.2 = w.
Proof.
  intros Hd Hp. unfold wake. destruct (phase (engine f)) as [| |a| |] eqn:E; try done.
  destruct (is_ready _ _ a w); [|done]. split_and!; [done| |done]. destruct Hp. constructor; [|done].
  intros a' due. simpl. by destruct a.
Qed.

Lemma punctual_poll at_ n f w : deadline f = Some at_ -> punctual at_ (engine f) (instant_now w) ->
  let r := poll_boxed instant_now resume_epoch (step j) (release j) (paused j) n f w in
  deadline r.1 = Some at_ /\ punctual at_ (engine r.1) (instant_now r.2) /\ instant_now r.2 = instant_now w.
Proof using HT.
  intros Hd Hp. unfold poll_boxed. rewrite mthen_run. destruct (punctual_wake at_ f w Hd Hp) as (H1 & H2 & H3).
  rewrite H3 in *. by apply punctual_segments.
Qed.

(** *** At the deadline *)

Lemma nothing_left at_ w : at_ <= instant_now w -> deadline_remaining (Some at_) (instant_now w) = 0.
Proof. simpl. mlia. Qed.

(** The pause loop ends at once; a round of the main loop ends the wait, or
    loses one of its four races. *)
Lemma segments_pause_at_deadline at_ n f w :
  deadline f = Some at_ -> at_ <= instant_now w -> phase (engine f) = CheckPause ->
  exists x, phase (engine (segments instant_now resume_epoch (step j) (release j) (paused j) (S n) f w).1) = Done x.
Proof using HT.
  intros Hd Hat Hph. rewrite segments_run by auto. rewrite Hd.
  destruct (poll_pause_at_deadline instant_now resume_epoch (step j) (release j) (paused j) (Some at_) (engine f) w
    (nothing_left at_ w Hat) Hph) as [x Hx].
  rewrite segments_stop; simpl; rewrite Hx; eauto.
Qed.

Lemma segments_at_deadline at_ f w :
  deadline f = Some at_ -> at_ <= instant_now w -> 0 <= zero_waits (engine f) ->
  phase (engine f) = Looping \/ phase (engine f) = CheckPause ->
  let r := segments instant_now resume_epoch (step j) (release j) (paused j) (2 + extra) f w in
  (exists x, phase (engine r.1) = Done x) \/
  (phase (engine r.1) = Awaiting AwaitYield /\ zero_waits (engine r.1) = zero_waits (engine f) + 1 /\
   zero_waits (engine f) < RACE_YIELDS).
Proof using HT.
  intros Hd Hat Hz [Hph|Hph] r; subst r; [|left; by eapply segments_pause_at_deadline].
  change (2 + extra)%nat with (S (S extra)). rewrite segments_run by auto. rewrite Hd.
  pose proof (poll_loop_at_deadline instant_now resume_epoch (step j) (release j) (paused j) (Some at_) (engine f) w
    (nothing_left at_ w Hat) Hph Hz) as H.
  destruct (segment_ (Some at_) (engine f) w) as [e' w'] eqn:E. cbn [fst snd].
  destruct H as (Hc & [[x Hx]|[Hcp|(Hy & Hz' & Hlt)]]).
  - left. rewrite segments_stop by (simpl; by rewrite Hx). eauto.
  - left. eapply segments_pause_at_deadline; simpl; [done|by rewrite Hc|done].
  - right. rewrite segments_stop; simpl; by rewrite Hy.
Qed.

Lemma poll_boxed_at_deadline at_ f w :
  deadline f = Some at_ -> punctual at_ (engine f) (instant_now w) -> at_ <= instant_now w ->
  match phase (engine f) with Done _ | Dropped => False | _ => True end ->
  let r := poll_boxed instant_now resume_epoch (step j) (release j) (paused j) (2 + extra) f w in
  (exists x, phase (engine r.1) = Done x) \/
  (phase (engine r.1) = Awaiting AwaitYield /\ zero_waits (engine r.1) = zero_waits (engine f) + 1 /\
   zero_waits (engine f) < RACE_YIELDS).
Proof using HT.
  intros Hd [Hdue Hz] Hat Hlive r. subst r. unfold poll_boxed. rewrite mthen_run. unfold wake.
  destruct (phase (engine f)) as [| |a| |] eqn:E; try done.
  - apply (segments_at_deadline at_); auto.
  - apply (segments_at_deadline at_); auto.
  - assert (Hr : is_ready instant_now resume_epoch a w = true).
    { destruct a as [due|due ? ?| |due ? ?]; simpl; [|apply orb_true_iff; left|done|apply orb_true_iff; left];
        apply Z.leb_le; specialize (Hdue _ due eq_refl eq_refl); lia. }
    rewrite Hr. cbn [fst snd]. apply (segments_at_deadline at_ (mkWaiting (deadline f) (finish (engine f) (woken a)))); simpl; try done.
    destruct a; auto.
Qed.

(** From any point of a timed wait, at its deadline: five polls end it, with
    anything in between that does not turn the clock back. *)
Lemma polls_at_deadline at_ turns k f w :
  deadline f = Some at_ -> punctual at_ (engine f) (instant_now w) -> at_ <= instant_now w ->
  match phase (engine f) with Done _ | Dropped => False | _ => True end ->
  Forall (fun turn => forall w, instant_now w <= instant_now (turn w)) turns ->
  RACE_YIELDS - zero_waits (engine f) <= Z.of_nat k -> (k < length turns)%nat ->
  exists r, (polls instant_now resume_epoch instant_max (2 + extra) j turns (Running f) w).1.2 = Some r.
Proof using HT.
  intros Hd Hp Hat Hlive Hturns. revert k f w Hd Hp Hat Hlive.
  induction Hturns as [|turn turns Hturn _ IH]; intros k f w Hd Hp Hat Hlive Hk Hlen; simpl in Hlen; [lia|].
  specialize (Hturn w). set (v := turn w). simpl polls. fold v.
  assert (Hp' : punctual at_ (engine f) (instant_now v)).
  { destruct Hp as [Hdue Hz]. constructor; [|done]. intros a due Ha Hdu. specialize (Hdue a due Ha Hdu). fold v in Hturn. lia. }
  pose proof (poll_boxed_at_deadline at_ f v Hd Hp' ltac:(unfold v; lia) Hlive) as Hr.
  pose proof (punctual_poll at_ (2 + extra) f v Hd Hp') as (Hd2 & Hp2 & Hc2).
  unfold poll_future, resume_future. rewrite mthen_run.
  set (r := poll_boxed _ _ _ _ _ _ f v) in *. destruct Hr as [[x Hx]|(Hy & Hz & Hlt)].
  - rewrite Hx, mthen_run. simpl. eauto.
  - rewrite Hy. simpl. destruct k as [|k]; [lia|]. apply (IH k r.1 r.2 Hd2 Hp2); [rewrite Hc2; unfold v; lia|by rewrite Hy| |lia].
    lia.
Qed.

End Deadlines.

(** ** Ownership *)

Section Owned.
Context {W T : Type} (instant_now resume_epoch : W -> Z) (instant_max : Z) (rounds : nat) (j : Job W T).
Context (env : W -> W -> Prop) (Inv : Owns -> T -> W -> Prop).
Context `{HO : !Ownership (step j) (release j) (paused j) env Inv}.
(** The report of the outcome reads only, and says what the engine says. *)
Context (quiet_outcome : forall r o t w, Inv o t w -> Inv o t (outcome j r w).2).
Context (true_outcome : forall r w, match (outcome j r w).1, r with Ok _, Ok _ | Err _, Err _ => True | _, _ => False end).

(** A call between two polls: it has begun, and what it holds is known. *)
Definition underway (f : Future T) (w : W) : Prop :=
  match f with Fresh _ => False | Running f => pending Inv f w end.

Definition answered (r : Result unit ThrottleError) (w : W) : Prop :=
  exists t, Inv (match r with Ok _ => OwnsAll | Err _ => OwnsNothing end) t w.

Definition polled (r : (Future T * option (Result unit ThrottleError)) * W) : Prop :=
  match r.1.2 with None => underway r.1.1 r.2 | Some x => answered x r.2 end.

Lemma resume_owned f w : pending Inv f w -> polled (resume_future instant_now resume_epoch rounds j f w).
Proof using HO quiet_outcome true_outcome.
  intros Hf. unfold resume_future. rewrite mthen_run.
  pose proof (poll_boxed_owned instant_now resume_epoch _ _ _ env Inv rounds f w Hf) as Hp.
  set (r := poll_boxed _ _ _ _ _ _ f w) in *. cbn beta zeta in *.
  destruct (phase (engine r.1)) as [| |a|x|] eqn:E; try exact Hp.
  rewrite mthen_run. unfold polled, answered. simpl. exists (Wait.held (engine r.1)). pose proof (true_outcome x r.2) as Ht.
  destruct x as [u|e], (outcome j _ r.2).1 eqn:Eo; try done; apply quiet_outcome, Hp.
Qed.

Lemma first_poll_owned timeout w : refused j = None -> Inv OwnsNothing (begin j) w ->
  polled (poll_future instant_now resume_epoch instant_max rounds j (Fresh timeout) w).
Proof using HO quiet_outcome true_outcome.
  intros Hr Hw. unfold poll_future. rewrite Hr, mthen_run. apply resume_owned. by split.
Qed.

Lemma next_poll_owned f w : underway f w -> polled (poll_future instant_now resume_epoch instant_max rounds j f w).
Proof using HO quiet_outcome true_outcome. destruct f as [|f]; [done|]. apply resume_owned. Qed.

Lemma underway_env f w w' : underway f w -> env w w' -> underway f w'.
Proof using HO instant_now resume_epoch. destruct f as [|f]; [done|]. intros Hf He. by eapply (pending_env instant_now resume_epoch). Qed.

Lemma polls_owned turns f w : underway f w -> Forall (fun turn => forall w, env w (turn w)) turns ->
  polled (polls instant_now resume_epoch instant_max rounds j turns f w).
Proof using HO quiet_outcome true_outcome.
  intros Hf Ht. revert f w Hf. induction Ht as [|turn turns Hturn _ IH]; intros f w Hf; [done|]. simpl.
  pose proof (next_poll_owned f (turn w) (underway_env f w (turn w) Hf (Hturn w))) as Hp.
  destruct (poll_future _ _ _ _ j f (turn w)) as [[f' [r|]] w']; [exact Hp|]. by apply IH.
Qed.

Lemma call_drop_owned f w : underway f w -> exists t, Inv OwnsNothing t (drop_future j f w).2.
Proof using HO. destruct f as [|f]; [done|]. intros Hf. by eapply drop_boxed_owned. Qed.

(** The life of a call after its first poll: polled again, among everything
    else. *)
Inductive lives : Future T * W -> Future T * W -> Prop :=
  | lives_on c : lives c c
  | lives_poll c f w : lives c (f, w) ->
      let r := poll_future instant_now resume_epoch instant_max rounds j f w in
      r.1.2 = None -> lives c (r.1.1, r.2)
  | lives_env c f w w' : lives c (f, w) -> env w w' -> lives c (f, w').

Lemma lives_underway c c' : lives c c' -> underway c.1 c.2 -> underway c'.1 c'.2.
Proof using HO quiet_outcome true_outcome.
  intros Hl Hc. induction Hl as [c|c f w _ IH r Hr|c f w w' _ IH He]; [done| |by eapply underway_env; [apply IH|]].
  pose proof (next_poll_owned f w (IH Hc)) as Hp. unfold polled in Hp. fold r in Hp. by rewrite Hr in Hp.
Qed.

End Owned.

(** *** Both at once *)

Section Timed.
Context {W T : Type} (instant_now resume_epoch : W -> Z) (instant_max : Z) (extra : nat) (j : Job W T).
Context (env : W -> W -> Prop) (Inv : Owns -> T -> W -> Prop).
Context `{HT : !Timely instant_now (step j) (release j) (paused j)}.
Context (env_clock : forall w w', env w w' -> instant_now w <= instant_now w').

Definition timed (at_ : Z) (c : Future T * W) : Prop :=
  match c.1 with Fresh _ => False | Running f => deadline f = Some at_ /\ punctual at_ (engine f) (instant_now c.2) end.

Lemma timed_resume at_ f w :
  deadline f = Some at_ -> punctual at_ (engine f) (instant_now w) -> (forall r w, instant_now (outcome j r w).2 = instant_now w) ->
  let r := resume_future instant_now resume_epoch (2 + extra) j f w in timed at_ (r.1.1, r.2).
Proof using HT.
  intros Hd Hp Ho r. subst r. unfold resume_future. rewrite mthen_run.
  destruct (punctual_poll instant_now resume_epoch j at_ (2 + extra) f w Hd Hp) as (H1 & H2 & H3).
  destruct (phase _) eqn:E; try (by split). rewrite mthen_run. split; [done|]. simpl. by rewrite Ho.
Qed.

Lemma timed_first at_ timeout w :
  refused j = None -> checked_add instant_max (instant_now w) timeout = Some at_ ->
  (forall r w, instant_now (outcome j r w).2 = instant_now w) ->
  let r := poll_future instant_now resume_epoch instant_max (2 + extra) j (Fresh (Some timeout)) w in timed at_ (r.1.1, r.2).
Proof using HT.
  intros Hr Hat Ho r. subst r. unfold poll_future. rewrite Hr, mthen_run. by apply timed_resume.
Qed.

Lemma timed_lives at_ c c' : (forall r w, instant_now (outcome j r w).2 = instant_now w) ->
  lives instant_now resume_epoch instant_max (2 + extra) j env c c' -> timed at_ c -> timed at_ c'.
Proof using HT env_clock.
  intros Ho Hl Hc. induction Hl as [c|c f w _ IH r Hr|c f w w' _ IH He]; [done| |].
  - specialize (IH Hc). destruct f as [|f]; [done|]. destruct IH. by apply timed_resume.
  - specialize (IH Hc). destruct f as [|f]; [done|]. destruct IH as [Hd [Hdue Hz]]. split; [done|]. constructor; [|done].
    intros a due Ha Hdu. specialize (Hdue a due Ha Hdu). apply env_clock in He. simpl in *. lia.
Qed.

End Timed.

Lemma ownership_fewer {W T} (step : T -> Duration -> M W (Step * T)) give_back paused (env env' : W -> W -> Prop) Inv :
  (forall w w', env' w w' -> env w w') -> Ownership step give_back paused env Inv -> Ownership step give_back paused env' Inv.
Proof. intros He [H1 H2 H3 H4]. constructor; eauto. Qed.

(** ** Composites *)

Section Composite.
Context {W : Type} (instant_now resume_epoch : W -> Z) (instant_max : Z) (extra : nat).
Abbreviation world := (W * list event)%type.
Abbreviation clock := (fun s : world => instant_now s.1).
Abbreviation epochs := (fun s : world => resume_epoch s.1).
Context (cs : named W) (prompt : Forall (fun c : nat * Limiter W * Z => Prompt instant_now c.1.2) cs).
Context (refused_ : option ThrottleError) (report_ : Result unit Refusal -> M world (Result unit ThrottleError)).
Context (report_quiet : forall r s, others s (report_ r s).2 /\ clock (report_ r s).2 = clock s).
Context (report_true : forall r s, match (report_ r s).1, r with Ok _, Ok _ | Err _, Err _ => True | _, _ => False end).

(** What the three composites hand to the engine. *)
Definition composite : Job world Progress :=
  mkJob refused_ Progress_new (step_all clock instant_max (items_of cs)) (release_all (items_of cs))
    (paused_all (items_of cs)) report_.

(** The rest of the program: it changes limiters, pauses and resumes, and
    time passes. *)
Definition elsewhere (s s' : world) : Prop := others s s' /\ clock s <= clock s'.

Lemma composite_prompt_items : prompt_items clock (items_of cs).
Proof using prompt.
  unfold prompt_items, items_of. rewrite Forall_fmap. eapply Forall_impl; [exact prompt|].
  intros [[i l] cost] Hl. simpl in *. by apply prompt_instrument.
Qed.

Lemma composite_is_timely : Timely clock (step composite) (release composite) (paused composite).
Proof using prompt. apply composite_timely, composite_prompt_items. Qed.

Lemma composite_is_owned base :
  Ownership (step composite) (release composite) (paused composite) elsewhere (ledger_inv cs base).
Proof. apply (ownership_fewer _ _ _ others); [by intros s s' []|]. apply composite_ownership. Qed.

Lemma composite_books base o p (s : world) who : o <> OwnsSome -> ledger_inv cs base o p s ->
  outstanding s.2 who = base who + match o with OwnsAll => share cs who | _ => 0 end.
Proof.
  intros Ho [Hh Hl]. rewrite Hl. unfold taken. destruct (held p), o; simpl in *; try done; lia.
Qed.

Lemma composite_answered base r s who : answered (ledger_inv cs base) r s ->
  outstanding s.2 who = base who + match r with Ok _ => share cs who | Err _ => 0 end.
Proof. intros [t Ht]. apply (composite_books base _ t s who) in Ht; [|by destruct r]. by destruct r. Qed.

Lemma composite_quiet base r o t s : ledger_inv cs base o t s -> ledger_inv cs base o t (report_ r s).2.
Proof using report_quiet. intros [Hh Hl]. split; [done|]. intros who. destruct (report_quiet r s) as [Ho _]. by rewrite Ho. Qed.

(** A timed call of a composite, from its first poll on: it keeps exact books
    however it ends, and it ends by its deadline. *)
Lemma composite_timed timeout (s : world) who :
  refused_ = None -> instant_now s.1 + timeout <= instant_max ->
  let first := poll_future clock epochs instant_max (2 + extra) composite (Fresh (Some timeout)) s in
  match first.1.2 with
  | Some r => outstanding first.2.2 who = outstanding s.2 who + match r with Ok _ => share cs who | Err _ => 0 end
  | None => forall f s', lives clock epochs instant_max (2 + extra) composite elsewhere (first.1.1, first.2) (f, s') ->
      outstanding (drop_future composite f s').2.2 who = outstanding s.2 who /\
      (instant_now s.1 + timeout <= instant_now s'.1 -> forall turns,
        Forall (fun turn => forall w, elsewhere w (turn w)) turns -> (5 <= length turns)%nat ->
        let later := polls clock epochs instant_max (2 + extra) composite turns f s' in
        exists r, later.1.2 = Some r /\
          outstanding later.2.2 who = outstanding s.2 who + match r with Ok _ => share cs who | Err _ => 0 end)
  end.
Proof using prompt report_quiet report_true.
  intros Href Hmax first. pose proof composite_is_timely as HT. set (base := outstanding s.2).
  pose proof (composite_is_owned base) as HO.
  assert (Hfirst : polled (ledger_inv cs base) first).
  { apply (first_poll_owned clock epochs instant_max (2 + extra) composite elsewhere (ledger_inv cs base)
      (composite_quiet base) report_true); [exact Href|]. split; [done|]. intros x. unfold taken. simpl. unfold base. lia. }
  assert (Htimed : timed clock (instant_now s.1 + timeout) (first.1.1, first.2)).
  { apply (timed_first clock epochs instant_max extra composite); [exact Href| |intros r w; apply report_quiet].
    unfold checked_add. by rewrite (proj2 (Z.leb_le _ _)). }
  unfold polled in Hfirst. destruct first.1.2 as [r|]; [by apply composite_answered|].
  intros f s' Hl.
  assert (Hu : underway (ledger_inv cs base) f s').
  { apply (lives_underway clock epochs instant_max (2 + extra) composite elsewhere (ledger_inv cs base)
      (composite_quiet base) report_true _ _ Hl Hfirst). }
  split.
  { destruct (call_drop_owned composite elsewhere (ledger_inv cs base) f s' Hu) as [t Ht].
    apply (composite_books base _ t _ who) in Ht; [|done]. rewrite Ht. unfold base. lia. }
  intros Hat turns Hturns Hlen later.
  assert (Hp : polled (ledger_inv cs base) later).
  { apply (polls_owned clock epochs instant_max (2 + extra) composite elsewhere (ledger_inv cs base)
      (composite_quiet base) report_true); done. }
  assert (Hdone : exists r, later.1.2 = Some r).
  { assert (Hd : timed clock (instant_now s.1 + timeout) (f, s')).
    { eapply (timed_lives clock epochs instant_max extra composite elsewhere); [by intros w w' []| |exact Hl|exact Htimed].
      intros r w. apply report_quiet. }
    destruct f as [|f]; [done|]. destruct Hd as [Hd Hpun].
    eapply (polls_at_deadline clock epochs instant_max extra composite _ turns 4%nat f s' Hd Hpun Hat).
    - destruct Hu as [_ Hu]. by destruct (phase (engine f)).
    - eapply Forall_impl; [exact Hturns|]. intros turn Ht w. apply Ht.
    - destruct Hpun. unfold RACE_YIELDS. lia.
    - lia. }
  destruct Hdone as [r Hr]. exists r. split; [done|]. unfold polled in Hp. rewrite Hr in Hp. by apply composite_answered.
Qed.

End Composite.


(** ** Reservations made at once

    A limiter that is not a composite reserves in one step; the rest of the
    wait only sleeps until the reservation matures. *)

Section Matured.
Context {W T : Type} (instant_now resume_epoch : W -> Z) (instant_max : Z) (extra : nat) (j : Job W T).
Context (never : ThrottleError) (reports : outcome j = report never) (begins : refused j = None).
(** Worlds where no pause is set. *)
Context (calm : W -> Prop) (calm_pause : forall w, calm w -> paused j w = (0, w)).
Abbreviation poll_ := (poll_future instant_now resume_epoch instant_max (2 + extra) j).

Definition asleep (deadline due : Z) (t : T) : Future T :=
  Running (mkWaiting (Some deadline) (mkEngine (Awaiting (AwaitGrant due)) t true 0)).

(** The pause loop ends where it begins. *)
Lemma pause_over n deadline e w : calm w -> phase e = CheckPause ->
  segments instant_now resume_epoch (step j) (release j) (paused j) (S n) (mkWaiting deadline e) w =
    (mkWaiting deadline (mkEngine (Done (Ok tt)) (Wait.held e) false (zero_waits e)), w).
Proof using calm_pause.
  intros Hw He. rewrite segments_run by auto. unfold Wait.poll. cbn [engine Boxed.deadline]. rewrite He.
  assert (Hp : poll_pause instant_now resume_epoch (release j) (paused j) deadline e w =
    (mkEngine (Done (Ok tt)) (Wait.held e) false (zero_waits e), w)).
  { unfold poll_pause. by rewrite mthen_run, (calm_pause w Hw). }
  rewrite Hp. by rewrite segments_stop.
Qed.

(** The first poll ends as the first step says. *)
Lemma first_poll timeout w : 0 <= timeout -> instant_now w + timeout <= instant_max ->
  let '(s, t, w') := step j (begin j) timeout w in
  let first := poll_ (Fresh (Some timeout)) w in
  match s with
  | Granted wait => calm w' -> instant_now w' = instant_now w -> first.2 = w' /\
      if is_zero wait then first.1.2 = Some (Ok tt)
      else first.1 = (asleep (instant_now w + timeout) (instant_now w + wait) t, None)
  | StepRetry after => timeout < after -> first.1.2 = Some (Err DeadlineExceeded) /\ first.2 = w'
  | StepNever => first.1.2 = Some (Err never) /\ first.2 = w'
  | Holding _ => True
  end.
Proof using calm_pause reports begins.
  intros Ht Hmax. unfold poll_future. rewrite begins, mthen_run. unfold start_boxed. cbn [fst snd].
  unfold deadline_after, checked_add. rewrite (proj2 (Z.leb_le _ _)) by done.
  unfold resume_future. rewrite mthen_run. unfold poll_boxed. rewrite mthen_run. unfold wake. cbn [phase engine Wait.start fst snd].
  change (2 + extra)%nat with (S (S extra)). rewrite segments_run by by left. unfold Wait.poll. cbn [phase engine Wait.start Boxed.deadline].
  unfold poll_loop. rewrite mthen_run.
  assert (Hb : deadline_remaining (Some (instant_now w + timeout)) (instant_now w) = timeout) by (simpl; mlia).
  change (Wait.held (start (begin j))) with (begin j). rewrite Hb, reports.
  destruct (step j (begin j) timeout w) as [[st t] w']. destruct st as [wait|wait|after|]; cbn [fst snd].
  - intros Hc Hi. destruct (is_zero wait); [by rewrite pause_over|].
    rewrite segments_stop by done. unfold asleep, finish. simpl. by rewrite Hi.
  - done.
  - intros Hlt. rewrite (proj2 (Z.ltb_lt _ _)) by done. by rewrite segments_stop.
  - by rewrite segments_stop.
Qed.

(** Asleep until it is time to ask again. *)
Definition napping (deadline due epoch : Z) (t : T) : Future T :=
  Running (mkWaiting (Some deadline) (mkEngine (Awaiting (AwaitNap due false epoch)) t false 0)).

(** A first step that says how long to wait, within the timeout. *)
Lemma first_nap timeout w after t w' : 0 <= timeout -> instant_now w + timeout <= instant_max ->
  step j (begin j) timeout w = (StepRetry after, t, w') -> 0 < after <= timeout ->
  calm w' -> instant_now w' = instant_now w -> resume_epoch w' = resume_epoch w ->
  poll_ (Fresh (Some timeout)) w =
    (napping (instant_now w + timeout) (instant_now w + after) (resume_epoch w) t, None, w').
Proof using calm_pause begins.
  intros Ht Hmax Hstep Hafter Hc Hi He. unfold poll_future. rewrite begins, mthen_run. unfold start_boxed. cbn [fst snd].
  unfold deadline_after, checked_add. rewrite (proj2 (Z.leb_le _ _)) by done.
  unfold resume_future. rewrite mthen_run. unfold poll_boxed. rewrite mthen_run. unfold wake. cbn [phase engine Wait.start fst snd].
  change (2 + extra)%nat with (S (S extra)). rewrite segments_run by by left. unfold Wait.poll. cbn [phase engine Wait.start Boxed.deadline].
  unfold poll_loop. rewrite mthen_run.
  assert (Hb : deadline_remaining (Some (instant_now w + timeout)) (instant_now w) = timeout) by (simpl; mlia).
  change (Wait.held (start (begin j))) with (begin j). rewrite Hb, Hstep. cbn [fst snd].
  rewrite (proj2 (Z.ltb_ge _ _)) by lia. unfold nap, is_zero. rewrite (proj2 (Z.eqb_neq after 0)) by lia.
  rewrite mthen_run, (calm_pause w' Hc). cbn [fst snd]. rewrite He, Z.eqb_refl, Hi. cbn [fst snd].
  by rewrite segments_stop.
Qed.

(** Woken in time, it steps again from the start, with the same deadline. *)
Lemma next_nap deadline due epoch t w :
  poll_ (napping deadline due epoch t) w =
    if due <=? instant_now w then poll_ (Running (mkWaiting (Some deadline) (start t))) w
    else (napping deadline due epoch t, None, w).
Proof using Type.
  unfold poll_future, napping, resume_future. rewrite !mthen_run. unfold poll_boxed. rewrite !mthen_run. unfold wake.
  cbn [phase engine is_ready]. rewrite orb_false_r. destruct (due <=? instant_now w); cbn [fst snd]; [done|].
  change (2 + extra)%nat with (S (S extra)). by rewrite segments_stop.
Qed.

(** Asleep until the reservation matures, and no longer. *)
Lemma next_poll deadline due t w : calm w ->
  poll_ (asleep deadline due t) w =
    if due <=? instant_now w
    then (Running (mkWaiting (Some deadline) (mkEngine (Done (Ok tt)) t false 0)), Some (Ok tt), w)
    else (asleep deadline due t, None, w).
Proof using calm_pause reports.
  intros Hw. unfold poll_future, asleep, resume_future. rewrite mthen_run. unfold poll_boxed. rewrite mthen_run. unfold wake.
  cbn [phase engine is_ready]. destruct (due <=? instant_now w); cbn [fst snd].
  - change (2 + extra)%nat with (S (S extra)). rewrite pause_over by done. simpl. by rewrite reports.
  - by rewrite segments_stop.
Qed.

(** The rest of the program sets no pause, and the clock does not go back. *)
Definition calmly (turn : W -> W) : Prop := forall w, calm w -> calm (turn w) /\ instant_now w <= instant_now (turn w).

Definition after_turns (turns : list (W -> W)) (w : W) : W := foldl (fun w turn => turn w) w turns.

Lemma after_turns_later turns w : Forall calmly turns -> calm w -> instant_now w <= instant_now (after_turns turns w).
Proof using Type.
  intros Ht. revert w. induction Ht as [|turn turns Hturn _ IH]; intros w Hw; simpl; [lia|].
  destruct (Hturn w Hw) as [Hw' Hc]. specialize (IH (turn w) Hw'). unfold after_turns in *. lia.
Qed.

Lemma later_polls turns deadline due t w : calm w -> Forall calmly turns -> turns <> [] ->
  let later := polls instant_now resume_epoch instant_max (2 + extra) j turns (asleep deadline due t) w in
  later.1.2 = (if due <=? instant_now (after_turns turns w) then Some (Ok tt) else None) /\
  exists n, later.2 = after_turns (take n turns) w.
Proof using calm_pause reports.
  intros Hw Ht. revert w Hw. induction Ht as [|turn turns Hturn Hturns IH]; intros w Hw Hne later; [done|].
  destruct (Hturn w Hw) as [Hw' Hc]. subst later. cbn [polls].
  rewrite (next_poll deadline due t (turn w) Hw'). cbn [after_turns foldl].
  pose proof (after_turns_later turns (turn w) Hturns Hw') as Hmono. unfold after_turns in *.
  destruct (due <=? instant_now (turn w)) eqn:Hdue.
  - apply Z.leb_le in Hdue. rewrite (proj2 (Z.leb_le _ _)) by lia. split; [done|]. by exists 1%nat; destruct turns.
  - destruct turns as [|turn' turns]; [simpl; rewrite Hdue; split; [done|]; by exists 1%nat|].
    destruct (IH (turn w) Hw' ltac:(done)) as [H1 [n H2]]. split; [done|]. exists (S n). by rewrite H2.
Qed.

End Matured.

(** *** A throttle nobody else uses *)

Section Lone.
Context {B : Type} `{Bucket.BucketLaws B} {W : Type}.
Context (get : W -> Throttle.Throttle B) (put : Throttle.Throttle B -> W -> W) (clock instant_now : W -> Z).
Context (capacity : Z).
(** The throttle's place in the world. *)
Context (get_put : forall t w, get (put t w) = t) (put_get : forall w, put (get w) w = w).
Context (cost : Z).

Definition job (timeout : Duration) : Job W unit :=
  (OnThrottle.acquire_with_cost_timeout get put clock capacity cost timeout).1.

Definition unheld (w : W) : Prop := Hold.is_set (Throttle.hold (get w)) = false.

Lemma unheld_held w now : unheld w -> Throttle.held (get w) now = 0.
Proof. intros Hw. unfold Throttle.held. by rewrite Hw. Qed.

Lemma read_pause timeout w : unheld w -> paused (job timeout) w = (0, w).
Proof using put_get.
  intros Hw. simpl. unfold Throttle.on_throttle, Throttle.paused_for. by rewrite (unheld_held w _ Hw), put_get.
Qed.

(** The throttle once the reservation is made. *)
Definition reserved (w : W) (budget : Duration) : W :=
  put (Throttle.with_bucket (get w) (Bucket.reserve_at (Throttle.bucket (get w)) cost budget (clock w)).2) w.

(** The three answers of the step. *)
Lemma first_step w budget timeout : unheld w ->
  step (job timeout) tt budget w =
    match Bucket.time_until_at (Throttle.bucket (get w)) cost (clock w) with
    | None => (StepNever, tt, w)
    | Some wait => if budget <? wait then (StepRetry wait, tt, w) else (Granted wait, tt, reserved w budget)
    end.
Proof using put_get H0.
  intros Hw. simpl. unfold Throttle.on_throttle, Throttle.step, reserved. rewrite (unheld_held w _ Hw). simpl.
  assert (Hsame : put (Throttle.with_bucket (get w) (Throttle.bucket (get w))) w = w).
  { transitivity (put (get w) w); [|done]. f_equal. by destruct (get w). }
  pose proof (Bucket.law_never (Throttle.bucket (get w)) cost (clock w)) as Hn.
  pose proof (Bucket.law_reserve (Throttle.bucket (get w)) cost budget (clock w)) as Hr.
  unfold Throttle.capacity. destruct (Bucket.time_until_at _ cost (clock w)) as [wait|] eqn:E.
  - rewrite (proj2 (Z.ltb_ge _ _)) by (apply Z.nlt_ge; intros Hlt; apply Hn in Hlt; discriminate).
    destruct (budget <? wait) eqn:Eb; [apply Z.ltb_lt in Eb|apply Z.ltb_ge in Eb]; case_decide; try lia.
    + rewrite Hr, E. by rewrite Hsame.
    + destruct (Bucket.reserve_at _ _ _ _) as [r b]. simpl in *. by subst r.
  - rewrite (proj2 (Z.ltb_lt _ _)) by by apply Hn. by rewrite put_get.
Qed.

(** Nobody else uses the throttle, and the clock does not go back. *)
Definition alone (turn : W -> W) : Prop := forall w, get (turn w) = get w /\ instant_now w <= instant_now (turn w).

Lemma alone_calmly turn : alone turn -> calmly instant_now unheld turn.
Proof using Type. intros Ht w Hw. destruct (Ht w) as [Hg Hc]. split; [|done]. unfold unheld. by rewrite Hg. Qed.

Lemma alone_turns n turns w : Forall alone turns -> get (after_turns (take n turns) w) = get w.
Proof using Type.
  intros Ht. revert n w. induction Ht as [|turn turns Hturn _ IH]; intros [|n] w; try done.
  simpl. unfold after_turns in *. rewrite IH. apply Hturn.
Qed.

End Lone.

(** ** Properties *)

(** C6: A hybrid's timed acquire, over any limiters that answer at once: from
    its first poll on, among whatever else changes the limiters, the pauses
    and the clock, dropping it between any two polls leaves nothing taken,
    and five polls after its deadline it has answered, having taken its cost
    from every constituent or from none. *)
Theorem hybrid_acquire_by_deadline {W : Type} (instant_now resume_epoch : W -> Z) (instant_max : Z) (extra : nat)
    (ls : list (nat * Limiter W)) (cost : Z) (timeout : Duration) (s : W * list event) (who : nat) :
  Forall (fun l => Prompt instant_now l.2) ls ->
  instant_now s.1 + timeout <= instant_max ->
  let clock := fun s : W * list event => instant_now s.1 in
  let epochs := fun s : W * list event => resume_epoch s.1 in
  let self := Hybrid.mkHybrid ((fun l => instrument l.1 l.2) <$> ls) in
  let all := share ((fun l => (l.1, l.2, cost)) <$> ls) who in
  let '(acquire, future) := OnHybrid.acquire_with_cost_timeout clock instant_max self cost timeout in
  let '((future, first), s1) := poll_future clock epochs instant_max (2 + extra) acquire future s in
  match first with
  | Some r => outstanding s1.2 who = outstanding s.2 who + match r with Ok _ => all | Err _ => 0 end
  | None => forall f s', lives clock epochs instant_max (2 + extra) acquire (elsewhere instant_now) (future, s1) (f, s') ->
      outstanding (drop_future acquire f s').2.2 who = outstanding s.2 who /\
      (instant_now s.1 + timeout <= instant_now s'.1 -> forall turns,
        Forall (fun turn => forall w, elsewhere instant_now w (turn w)) turns -> (5 <= length turns)%nat ->
        let later := polls clock epochs instant_max (2 + extra) acquire turns f s' in
        exists r, later.1.2 = Some r /\
          outstanding later.2.2 who = outstanding s.2 who + match r with Ok _ => all | Err _ => 0 end)
  end.
Proof.
  intros Hls Hmax clock epochs self all. set (cs := (fun l => (l.1, l.2, cost)) <$> ls).
  assert (Hprompt : Forall (fun c : nat * Limiter W * Z => Prompt instant_now c.1.2) cs).
  { unfold cs. by rewrite Forall_fmap. }
  assert (Hpairs : Hybrid.pairs self cost = items_of cs).
  { unfold Hybrid.pairs, self, items_of, cs. simpl. by rewrite <- !list_fmap_compose. }
  unfold OnHybrid.acquire_with_cost_timeout, bounded, OnHybrid.wait, Hybrid.wait_step, Hybrid.wait_release, Hybrid.wait_paused.
  rewrite Hpairs.
  pose proof (composite_timed instant_now resume_epoch instant_max extra cs Hprompt None
    (report (CostExceedsCapacity cost (Hybrid.capacity self))) ltac:(by intros) ltac:(by intros [|[]]) timeout s who
    eq_refl Hmax) as H.
  unfold composite in H. fold clock epochs all in H.
  by destruct (poll_future _ _ _ _ _ _ s) as [[f [r|]] s1].
Qed.

#[export] Instance prompt_tank second cap : Prompt t_clock (tank second cap).
Proof.
  constructor; simpl; intros; try (by apply quick_ret); intros w; simpl;
    repeat case_match; (split; [by destruct second|]); auto with prompt lia.
  all: try (apply sane_some; lia); by apply sane_retry.
Qed.

(** Two tanks, the second short of units: dropped while it waits there, or
    granted by both once its reservation is due. *)
Lemma hybrid_acquire_by_deadline_witness :
  let ls := [(0%nat, tank false 10); (1%nat, tank true 10)] in
  let clock := fun s : tanks * list event => t_clock s.1 in
  let self := Hybrid.mkHybrid ((fun l => instrument l.1 l.2) <$> ls) in
  let s := (mkTanks 0 7 1, []) in
  let tick s := (mkTanks (t_clock s.1 + 4) (tank_a s.1) (tank_b s.1), s.2) in
  let '(acquire, future) := OnHybrid.acquire_with_cost_timeout clock 1000 self 4 20 in
  let '((future, first), s1) := poll_future clock (fun _ => 0) 1000 2 acquire future s in
  let s2 := (mkTanks 20 (tank_a s1.1) (tank_b s1.1), s1.2) in
  first = None /\ outstanding s1.2 1%nat = 4 /\
  outstanding (drop_future acquire future s1).2.2 1%nat = 0 /\
  exists r, (polls clock (fun _ => 0) 1000 2 acquire [tick; tick; tick; tick; tick] future s2).1.2 = Some r /\
    outstanding (polls clock (fun _ => 0) 1000 2 acquire [tick; tick; tick; tick; tick] future s2).2.2 1%nat =
      0 + match r with Ok _ => 4 | Err _ => 0 end.
Proof.
  intros ls clock self s tick.
  pose proof (hybrid_acquire_by_deadline t_clock (fun _ => 0) 1000 0 ls 4 20 s 1%nat
    ltac:(apply Forall_cons_2; [|apply Forall_cons_2; [|apply Forall_nil_2]]; apply prompt_tank) ltac:(simpl; lia)) as H.
  set (call := OnHybrid.acquire_with_cost_timeout clock 1000 self 4 20) in *.
  assert (Hs : t_clock (poll_future clock (fun _ => 0) 1000 2 call.1 call.2 s).2.1 = 0 /\
    (poll_future clock (fun _ => 0) 1000 2 call.1 call.2 s).1.2 = None /\
    outstanding (poll_future clock (fun _ => 0) 1000 2 call.1 call.2 s).2.2 1%nat = 4) by done.
  cbn zeta in H. fold clock in H. fold self in H.
  change (OnHybrid.acquire_with_cost_timeout clock 1000 self 4 20) with call in H. change (2 + 0)%nat with 2%nat in H.
  change (fun s : tanks * list event => (fun _ : tanks => 0) s.1) with (fun _ : tanks * list event => 0) in H.
  destruct call as [acquire future]. cbn [fst snd] in Hs.
  destruct (poll_future clock _ _ _ acquire future s) as [[f1 first] s1].
  destruct Hs as (Hc & Hn & Ho). simpl in Hn. subst first. simpl in Hc, Ho. split; [done|]. split; [done|]. split.
  - destruct (H f1 s1 ltac:(apply lives_on)) as [Hd _]. exact Hd.
  - assert (Hl : lives clock (fun _ => 0) 1000 2 acquire (elsewhere t_clock) (f1, s1)
      (f1, (mkTanks 20 (tank_a s1.1) (tank_b s1.1), s1.2))).
    { eapply lives_env; [apply lives_on|]. split; [done|]. simpl. rewrite Hc. lia. }
    destruct (H f1 _ Hl) as [_ Hd].
    assert (Ht : forall w, elsewhere t_clock w (tick w)) by (intros w; split; simpl; [done|lia]).
    exact (Hd ltac:(simpl; lia) [tick; tick; tick; tick; tick]
      ltac:(do 5 (apply Forall_cons_2; [exact Ht|]); apply Forall_nil_2) ltac:(simpl; lia)).
Defined.

(** A throttle's timed acquire, when nobody else uses the throttle: its
    first poll reads the bucket once and settles the rest. A cost above the
    capacity and a wait longer than the timeout are refused at once, with the
    throttle untouched; otherwise the units are reserved there and then, and
    the acquire completes at the first poll that finds the wait elapsed,
    never before, without touching the throttle again. *)
Theorem throttle_acquire_exact {B : Type} `{Bucket.BucketLaws B} {W : Type}
    (get : W -> Throttle.Throttle B) (put : Throttle.Throttle B -> W -> W) (clock instant_now resume_epoch : W -> Z)
    (capacity instant_max : Z) (extra : nat) (cost : Z) (timeout : Duration) (w : W) :
  (forall t w, get (put t w) = t) -> (forall w, put (get w) w = w) -> (forall t w, instant_now (put t w) = instant_now w) ->
  Hold.is_set (Throttle.hold (get w)) = false -> 0 <= timeout -> instant_now w + timeout <= instant_max ->
  let '(acquire, future) := OnThrottle.acquire_with_cost_timeout get put clock capacity cost timeout in
  let '((future, first), w1) := poll_future instant_now resume_epoch instant_max (2 + extra) acquire future w in
  let b := Throttle.bucket (get w) in
  match Bucket.time_until_at b cost (clock w) with
  | None => first = Some (Err (CostExceedsCapacity cost capacity)) /\ w1 = w
  | Some wait =>
      if timeout <? wait then first = Some (Err DeadlineExceeded) /\ w1 = w
      else
        get w1 = Throttle.with_bucket (get w) (Bucket.reserve_at b cost timeout (clock w)).2 /\
        first = (if is_zero wait then Some (Ok tt) else None) /\
        forall turns, Forall (alone get instant_now) turns -> turns <> [] -> first = None ->
          let later := polls instant_now resume_epoch instant_max (2 + extra) acquire turns future w1 in
          later.1.2 = (if instant_now w + wait <=? instant_now (after_turns turns w1) then Some (Ok tt) else None) /\
          get later.2 = get w1
  end.
Proof.
  intros Hgp Hpg Hpi Hw Ht Hmax. set (acquire := job get put clock capacity cost timeout).
  change (OnThrottle.acquire_with_cost_timeout get put clock capacity cost timeout) with (acquire, Fresh (T := unit) (Some timeout)).
  cbn beta iota. pose proof (first_poll instant_now resume_epoch instant_max extra acquire (CostExceedsCapacity cost capacity)
    eq_refl eq_refl (unheld get) (read_pause get put clock capacity Hpg cost timeout) timeout w Ht Hmax) as Hf.
  change (begin acquire) with tt in Hf. unfold acquire in Hf. rewrite first_step in Hf by done. fold acquire in Hf.
  destruct (poll_future _ _ _ _ acquire _ w) as [[f first] w1]. cbn zeta.
  destruct (Bucket.time_until_at _ cost (clock w)) as [wait|]; [|done].
  destruct (timeout <? wait) eqn:Hlt; [by apply Hf, Z.ltb_lt|]. cbn beta iota zeta in Hf. cbn [fst snd] in Hf.
  assert (Hcalm : unheld get (reserved get put clock cost w timeout)) by (unfold unheld, reserved; by rewrite Hgp).
  destruct (Hf Hcalm ltac:(by unfold reserved)) as [-> Hf2]. split; [unfold reserved; by rewrite Hgp|].
  destruct (is_zero wait); [by subst first|]. injection Hf2 as -> ->. split; [done|]. intros turns Hturns Hne _.
  destruct (later_polls instant_now resume_epoch instant_max extra acquire _ eq_refl (unheld get)
    (read_pause get put clock capacity Hpg cost timeout) turns (instant_now w + timeout) (instant_now w + wait) tt
    _ Hcalm ltac:(eapply Forall_impl; [exact Hturns|apply alone_calmly]) Hne) as [H1 [n H2]].
  split; [exact H1|]. cbn zeta. rewrite H2. by apply (alone_turns get instant_now).
Qed.

#[local] Existing Instances Bucket.meter_bucket Bucket.meter_laws.

(** A throttle next to a clock. *)
Record metered := mkMetered { mt_throttle : Throttle.Throttle Bucket.Meter; mt_clock : Z }.

(** Ten units spent of ten a second: three more come after 300 ms. *)
Lemma throttle_acquire_exact_witness :
  let get := mt_throttle in
  let put t w := mkMetered t (mt_clock w) in
  let empty := (Throttle.decide Throttle.ten_per_second 10 0).2 in
  let tick d w := mkMetered (mt_throttle w) (mt_clock w + d) in
  let '(acquire, future) := OnThrottle.acquire_with_cost_timeout get put mt_clock 10 3 (from_secs 1) in
  let '((future, first), w1) := poll_future mt_clock (fun _ => 0) (from_secs 1000) 2 acquire future (mkMetered empty 0) in
  first = None /\
  (polls mt_clock (fun _ => 0) (from_secs 1000) 2 acquire [tick (from_millis 200); tick (from_millis 99)] future w1).1.2 = None /\
  (polls mt_clock (fun _ => 0) (from_secs 1000) 2 acquire [tick (from_millis 200); tick (from_millis 100)] future w1).1.2 =
    Some (Ok tt).
Proof.
  intros get put empty tick.
  pose proof (throttle_acquire_exact get put mt_clock mt_clock (fun _ => 0) 10 (from_secs 1000) 0 3 (from_secs 1)
    (mkMetered empty 0) ltac:(by intros t []) ltac:(by intros []) ltac:(done) ltac:(reflexivity) ltac:(done) ltac:(done)) as H.
  assert (Halone : forall d d', 0 <= d -> 0 <= d' -> Forall (alone get mt_clock) [tick d; tick d']).
  { intros d d' Hd Hd'. repeat constructor; simpl; lia. }
  set (call := OnThrottle.acquire_with_cost_timeout get put mt_clock 10 3 (from_secs 1)) in *.
  assert (Hc : mt_clock (poll_future mt_clock (fun _ => 0) (from_secs 1000) 2 call.1 call.2 (mkMetered empty 0)).2 = 0) by reflexivity.
  destruct call as [acquire future]. cbn [fst snd] in Hc.
  change (2 + 0)%nat with 2%nat in H. destruct (poll_future _ _ _ _ acquire future _) as [[f1 first] [t1 c1]].
  simpl in Hc. subst c1. cbn zeta in H. change (Bucket.time_until_at _ 3 _) with (Some (from_millis 300)) in H. cbn iota in H.
  change (from_secs 1 <? from_millis 300) with false in H. cbn iota in H. destruct H as (Hget & -> & H). split; [done|].
  split.
  - destruct (H [tick (from_millis 200); tick (from_millis 99)] ltac:(by apply Halone) ltac:(done) ltac:(done)) as [E _].
    exact E.
  - destruct (H [tick (from_millis 200); tick (from_millis 100)] ltac:(by apply Halone) ltac:(done) ltac:(done)) as [E _].
    exact E.
Defined.
