(* ===== verification/PerKeyWait.v ===== *)
(** * The per-key limiter's handle and its waits (src/src/perkey.rs)

    The limiter as a [KeyedLimiter] in a world that holds it, and its waiting
    acquires: a step, which reserves at once or says how long to wait, and a
    release; keys have no pauses. *)

From S2P Require Import Prelude Decisions Bucket HashTable Shard Eviction Store Wait Boxed Limiter Prompt PerKey Acquire.

Section Handle.
Context {T : Type} `{HashTable T} {K : Type} `{EqDecision K} {B : Type} `{Bucket B} `{BucketCore B}.
Context (hash_one : K -> Z).
Abbreviation perkey := (PerKey T K B).
Context {W : Type} (get : W -> perkey) (put : perkey -> W -> W) (clock : W -> Z).

(** [dead] stands for the panic at a shard index out of range. *)
Definition on_perkey {A} (dead : A) (f : perkey -> Z -> option (A * perkey)) : M W A := fun w =>
  match f (get w) (clock w) with
  | Some (a, self) => (a, put self w)
  | None => (dead, w)
  end.

(** The capacity is fixed when the limiter is built. *)
Definition perkey_limiter (capacity : Z) : KeyedLimiter W K := {|
  keyed_peek key cost :=
    on_perkey Impossible (fun self now => d ← PerKey.peek hash_one self key cost now; Some (d, self));
  keyed_acquire_cost key cost := on_perkey Impossible (fun self now => PerKey.decide hash_one self key cost now);
  keyed_refund key cost := on_perkey tt (fun self _ => self ← PerKey.refund hash_one self key cost; Some (tt, self));
  keyed_reserve key cost max_wait := on_perkey None (fun self now => PerKey.reserve hash_one self key cost max_wait now);
  keyed_capacity := capacity |}.

(** *** Waiting *)

Definition wait (capacity : Z) (key : K) (cost : Z) (timeout : option Duration) : Call W unit :=
  (mkJob None tt
    (fun _ budget => on_perkey (StepNever, tt)
       (fun self now => '(s, self) ← PerKey.step hash_one self key cost budget now; Some ((s, tt), self)))
    (fun _ => keyed_refund (perkey_limiter capacity) key cost)
    (mret DURATION_ZERO)
    (report (CostExceedsCapacity cost capacity)), Fresh timeout).

Definition acquire_with_cost capacity key := unbounded (wait capacity key).
Definition acquire capacity key : Call W unit := acquire_with_cost capacity key 1.
Definition acquire_with_cost_timeout capacity key := bounded (wait capacity key).

End Handle.

(** ** Facts *)

Section Facts.
Context {T : Type} `{HashTableLaws T} {K : Type} `{EqDecision K} {B : Type} `{BucketCoreLaws B} `{!BucketLaws B}.
Context (hash_one : K -> Z).
Implicit Types (self : PerKey T K B).

(** The bucket an operation for the key is asked about. *)
Definition bucket_of self (conf : BucketConf) (key : K) (now : Duration) (b : B) : Prop :=
  exists s, Store.shards (store self) !! shard_index (store self) (hash_one key) = Some s /\
    b = view_of now conf (hash_one key) key s.

(** The step for a positive cost within the capacity, whether the key is
    live, forgotten in debt or new: the key's bucket is asked to reserve, and
    is what the key has afterwards; only a key with no state can be kept out,
    for want of room, and then still has none. *)
Lemma step_answers self key cost budget reading conf :
  store_wf hash_one (store self) -> config self = Some conf -> conf_ok conf -> 0 < cost <= conf_capacity conf ->
  exists st self' b, PerKey.step hash_one self key cost budget reading = Some (st, self') /\
    bucket_of self conf key (now self reading) b /\
    ((bucket <$> lookup hash_one (store self') key = Some (reserve_at b cost budget (now self reading)).2 /\
      st = match time_until_at b cost (now self reading) with
           | None => StepNever
           | Some wait => if budget <? wait then StepRetry wait else Granted wait
           end) \/
     (kept_out hash_one (store self) key (now self reading) /\ lookup hash_one (store self') key = None /\
      exists after, st = StepRetry after /\ MIN_REFUSAL_WAIT <= after)).
Proof.
  intros Hwf Hc Hok Hcost. unfold PerKey.step. rewrite Hc, (proj2 (Z.ltb_ge _ _)), (proj2 (Z.eqb_neq cost 0)) by lia.
  set (n := now self reading).
  match goal with |- context [with_or_insert _ _ _ _ _ ?f] => set (op := f) end.
  destruct (with_or_insert_result hash_one (store self) key n conf op Hwf) as (s & r & self' & Hs & Hop & Hr & Hent).
  assert (Hop2 : forall b, (op b).2 = (reserve_at b cost budget n).2)
    by (intros b; unfold op; by destruct (reserve_at b cost budget n) as [[]]).
  specialize (Hent Hok (fun b => ltac:(rewrite Hop2; apply law_capacity))).
  rewrite Hop. cbn [mbind option_bind]. do 3 eexists. split; [done|]. split; [by exists s|].
  destruct Hr as [->|(Hl & after & -> & Ha)]; [left|right].
  2:{ split_and!; [done| |by eauto]. simpl. by destruct (lookup _ self' key). }
  set (b := view_of _ _ _ _ _) in *. simpl. rewrite Hent, Hop2. split; [done|].
  unfold op. pose proof (law_reserve b cost budget n) as Hb.
  destruct (time_until_at b cost n) as [wait|] eqn:Ew.
  - destruct (budget <? wait) eqn:E; [apply Z.ltb_lt in E|apply Z.ltb_ge in E]; case_decide; try lia.
    + by rewrite Hb, Ew.
    + destruct (reserve_at b cost budget n) as [r b']. simpl in Hb. by subst r.
  - by rewrite Hb, Ew.
Qed.

(** No operation panics. *)
Lemma perkey_total self key cost reading : store_wf hash_one (store self) ->
  is_Some (PerKey.peek hash_one self key cost reading) /\
  is_Some (PerKey.decide hash_one self key cost reading) /\
  (forall most, is_Some (PerKey.reserve hash_one self key cost most reading)) /\
  (forall budget, is_Some (PerKey.step hash_one self key cost budget reading)).
Proof.
  intros Hwf.
  assert (Hop : forall R now conf (op : B -> R * B), is_Some (with_or_insert hash_one (store self) key now conf op)).
  { intros R now conf op. destruct (with_or_insert_result hash_one (store self) key now conf op Hwf) as (s & r & s' & _ & E & _). by eauto. }
  unfold PerKey.peek, PerKey.decide, PerKey.reserve, PerKey.step.
  destruct (config self) as [conf|]; [|by eauto].
  destruct (conf_capacity conf <? cost); [by eauto|]. split.
  - unfold view. pose proof (shard_index_lt hash_one (store self) (hash_one key) Hwf) as [s Hs]%lookup_lt_is_Some.
    rewrite Hs. simpl. eauto.
  - destruct (cost =? 0); [by eauto|].
    split_and!; [|intros|intros]; match goal with |- context [with_or_insert _ _ _ ?n ?c ?f] => destruct (Hop _ n c f) as [[r s'] ->] end; simpl; eauto.
Qed.

(** *** A prompt limiter, for a composite to build on *)

Context {W : Type} (get : W -> PerKey T K B) (put : PerKey T K B -> W -> W) (clock instant_now : W -> Z).
Context (put_clock : forall p w, instant_now (put p w) = instant_now w).

Lemma quick_on_perkey {A} (dead : A) f (P : A -> Prop) :
  P dead -> (forall self now a self', f self now = Some (a, self') -> P a) -> quick instant_now (on_perkey get put clock dead f) P.
Proof using put_clock.
  intros Hd Hf w. unfold on_perkey. destruct (f (get w) (clock w)) as [[a self]|] eqn:E; [|done].
  simpl. rewrite put_clock. eauto.
Qed.

(** What is answered for a key is what its operation answered of some bucket. *)
Lemma on_entry_some {R} keep (op : B -> R * B) h k (s : ShardMap T K B) :
  match (on_entry keep op h k s).1 with Some r => exists b, r = (op b).1 | None => True end.
Proof.
  unfold on_entry. destruct (Shard.position s h k) as [pos|]; simpl; [|done].
  destruct (slots s !! pos) as [slot|]; simpl; [|done].
  destruct (op (bucket (keep (entry slot)))) as [r' b] eqn:E. simpl. exists (bucket (keep (entry slot))). by rewrite E.
Qed.

Lemma slow_path_some {R} set now conf (op : B -> R * B) h k (s : ShardMap T K B) :
  match (slow_path set now conf op h k s).1 with Ok r => exists b, r = (op b).1 | Err _ => True end.
Proof.
  unfold slow_path. pose proof (on_entry_some (touched set now) op h k s) as Hf. unfold fast_path.
  destruct (on_entry _ op h k s) as [[r|] s1]; [exact Hf|]. destruct (Ledger.take _ _) as [owed l].
  destruct (make_room _ _ _) as [[u|w] s2]; [|done]. set (b := match owed with Some _ => _ | None => _ end).
  destruct (op b) as [r b2] eqn:E. simpl. exists b. by rewrite E.
Qed.

Lemma answered_some {R} s key now conf (op : B -> R * B) :
  match with_or_insert hash_one s key now conf op with Some (Ok r, _) => exists b, r = (op b).1 | _ => True end.
Proof.
  unfold with_or_insert, then_locked, locked. destruct (Store.shards s !! _) as [sh|]; [|done]. cbn [mbind option_bind].
  pose proof (on_entry_some (touched (settings s) now) op (hash_one key) key sh) as Hf. unfold fast_path.
  destruct (on_entry _ op _ key sh) as [[r1|] sh1]; cbn [mbind option_bind]; [exact Hf|].
  match goal with |- context [?m ≫= _] => destruct m as [sh2|]; [|done] end. cbn [mbind option_bind].
  pose proof (slow_path_some (settings s) now conf op (hash_one key) key sh2) as Hs.
  unfold settings at 1. by destruct (slow_path _ now conf op _ key sh2) as [r2 sh3].
Qed.

#[export] Instance perkey_prompt capacity : KeyedPrompt instant_now (perkey_limiter hash_one get put clock capacity).
Proof using Type*.
  constructor; simpl; intros; apply quick_on_perkey; try done; intros self now a self'.
  - unfold PerKey.peek. destruct (config self) as [conf|]; simpl.
    2: { intros [= <- _]. unfold closed. by destruct (_ =? _). }
    destruct (conf_capacity conf <? cost); simpl; [by intros [= <- _]|]. unfold view.
    destruct (Store.shards (store self) !! _) as [sh|]; simpl; [|done]. intros [= <- _].
    pose proof (law_wait (view_of (PerKey.now self now) conf (hash_one key) key sh) cost (PerKey.now self now)) as Hw.
    destruct (time_until_at _ _ _) as [wait|]; [|done]. destruct (is_zero wait); [done|]. by apply sane_retry, Hw.
  - unfold PerKey.reserve. destruct (config self) as [conf|]; [|by intros [= <- _]].
    destruct (conf_capacity conf <? cost); [by intros [= <- _]|].
    destruct (cost =? 0); [intros [= <- _]; apply sane_some; unfold DURATION_ZERO; lia|].
    match goal with |- context [with_or_insert _ ?s _ ?n ?c ?f] => pose proof (answered_some s key n c f) as Hb end.
    destruct (with_or_insert _ _ _ _ _ _) as [[[r|w] s]|]; simpl; [|by intros [= <- _]|done].
    intros [= <- _]. destruct Hb as [b ->].
    pose proof (law_reserve b cost most (PerKey.now self now)) as Hr. pose proof (law_wait b cost (PerKey.now self now)) as Hw.
    destruct (time_until_at b cost _) as [wait|]; [|by rewrite Hr]. specialize (Hw wait eq_refl).
    case_decide; rewrite Hr; [|done]. apply sane_some. lia.
Qed.

End Facts.

(** C33: A timed acquire for one key of a well-formed store, among any other
    use of any key: its first poll makes one step, which never panics, and
    settles the rest. A cost beyond the per-key capacity is refused with the
    limiter untouched. Otherwise the key's own bucket is asked (a forgotten
    key's debt included): a wait beyond the timeout is refused and leaves the
    key the bucket it had; one within it takes exactly the cost from the
    bucket's credit, and the acquire completes at the first poll that finds
    the wait elapsed, never before. Only a key with no state may be kept out,
    when its shard has no room, and then has none still: it is refused when it
    would have to wait for room beyond the timeout, and otherwise sleeps
    for that long and then steps again, from the start, under the same
    deadline. *)
Theorem perkey_acquire_exact {T : Type} `{HashTableLaws T} {K : Type} `{EqDecision K} {B : Type} `{BucketCoreLaws B}
    `{!BucketLaws B} {W : Type} (hash_one : K -> Z) (get : W -> PerKey T K B) (put : PerKey T K B -> W -> W)
    (clock instant_now resume_epoch : W -> Z) (instant_max : Z) (extra : nat)
    (key : K) (cost : Z) (timeout : Duration) (conf : BucketConf) (w : W) :
  (forall p w, get (put p w) = p) -> (forall p w, instant_now (put p w) = instant_now w) ->
  (forall p w, resume_epoch (put p w) = resume_epoch w) ->
  store_wf hash_one (store (get w)) -> config (get w) = Some conf -> conf_ok conf -> 0 < cost ->
  0 <= timeout -> instant_now w + timeout <= instant_max ->
  let never := CostExceedsCapacity cost (capacity (get w)) in
  let n := now (get w) (clock w) in
  let '(acquire, future) := acquire_with_cost_timeout hash_one get put clock (capacity (get w)) key cost timeout in
  let poll := poll_future instant_now resume_epoch instant_max (2 + extra) acquire in
  let '((future, first), w1) := poll future w in
  let has b := bucket <$> lookup hash_one (store (get w1)) key = Some b in
  let matured due turns := if due <=? instant_now (after_turns turns w1) then Some (Ok tt) else None in
  if conf_capacity conf <? cost then first = Some (Err never) /\ get w1 = get w
  else exists b, bucket_of hash_one (get w) conf key n b /\
    (match time_until_at b cost n with
     | None => first = Some (Err never) /\ has b
     | Some wait =>
         if timeout <? wait then first = Some (Err DeadlineExceeded) /\ has b
         else (exists b', has b' /\ bk_credit b' n = bk_credit b n - cost * bk_period b) /\
           first = (if is_zero wait then Some (Ok tt) else None) /\
           forall turns, Forall (fun turn => forall w, instant_now w <= instant_now (turn w)) turns -> turns <> [] -> first = None ->
             (polls instant_now resume_epoch instant_max (2 + extra) acquire turns future w1).1.2 =
               matured (instant_now w + wait) turns
     end \/
     kept_out hash_one (store (get w)) key n /\ lookup hash_one (store (get w1)) key = None /\
     exists after, MIN_REFUSAL_WAIT <= after /\
       if timeout <? after then first = Some (Err DeadlineExceeded)
       else first = None /\
         forall v, poll future v =
           if instant_now w + after <=? instant_now v
           then poll (Running (mkWaiting (Some (instant_now w + timeout)) (start tt))) v
           else (future, None, v)).
Proof.
  intros Hgp Hpi Hpe Hwf Hc Hok Hcost Ht Hmax never n.
  set (acquire := (acquire_with_cost_timeout hash_one get put clock (capacity (get w)) key cost timeout).1).
  change (acquire_with_cost_timeout hash_one get put clock (capacity (get w)) key cost timeout)
    with (acquire, Fresh (T := unit) (Some timeout)). cbn beta iota zeta.
  pose proof (first_poll instant_now resume_epoch instant_max extra acquire never eq_refl eq_refl (fun _ => True)
    ltac:(done) timeout w Ht Hmax) as Hf.
  pose proof (fun (after : Z) (p : PerKey T K B) => first_nap instant_now resume_epoch instant_max extra acquire eq_refl (fun _ => True)
    ltac:(done) timeout w after tt (put p w) Ht Hmax) as Hn.
  assert (Hstep : step acquire (begin acquire) timeout w =
    match PerKey.step hash_one (get w) key cost timeout (clock w) with
    | Some (s, p) => (s, tt, put p w) | None => (StepNever, tt, w) end).
  { simpl. unfold on_perkey. by destruct (PerKey.step _ _ _ _ _ _) as [[s p]|]. }
  rewrite Hstep in Hf, Hn. clear Hstep.
  destruct (poll_future _ _ _ _ acquire _ w) as [[f first] w1].
  destruct (conf_capacity conf <? cost) eqn:Ecap.
  { unfold PerKey.step in Hf. rewrite Hc, Ecap in Hf. cbn in Hf. destruct Hf as [-> ->]. by rewrite Hgp. }
  apply Z.ltb_ge in Ecap.
  destruct (step_answers hash_one (get w) key cost timeout (clock w) conf Hwf Hc Hok ltac:(lia)) as (st & p & b & Hs & Hb & Hst).
  rewrite Hs in *. exists b. split; [done|]. fold n in Hst.
  destruct Hst as [[Hhas ->]|(Hkept & Hl & after & -> & Ha)]; [left|right].
  - pose proof (law_reserve b cost timeout n) as Hr. pose proof (core_reserve b cost timeout n ltac:(lia)) as Hcr.
    destruct (time_until_at b cost n) as [wait|];
      [|cbn in Hf; destruct Hf as [-> ->]; by rewrite Hgp, Hhas, Hr].
    destruct (timeout <? wait) eqn:Hlt.
    { apply Z.ltb_lt in Hlt. rewrite decide_False in Hr by lia. cbn in Hf. destruct (Hf Hlt) as [-> ->].
      by rewrite Hgp, Hhas, Hr. }
    apply Z.ltb_ge in Hlt. rewrite decide_True in Hr by done.
    cbn in Hf. destruct (Hf I (Hpi p w)) as [-> Hf2]. rewrite Hgp. split.
    { exists (reserve_at b cost timeout n).2. split; [done|].
      destruct (reserve_at b cost timeout n) as [r b']. simpl in Hr. subst r. by destruct Hcr. }
    destruct (is_zero wait); [by subst first|]. injection Hf2 as -> ->. split; [done|]. intros turns Hturns Hne _.
    apply (later_polls instant_now resume_epoch instant_max extra acquire never eq_refl (fun _ => True) ltac:(done) turns
      (instant_now w + timeout) (instant_now w + wait) tt (put p w) I); [|done].
    eapply Forall_impl; [exact Hturns|]. intros turn Hturn v _. by split.
  - destruct (timeout <? after) eqn:Hlt.
    { apply Z.ltb_lt in Hlt. cbn in Hf. destruct (Hf Hlt) as [-> ->]. rewrite Hgp. split_and!; [done|done|].
      exists after. by rewrite (proj2 (Z.ltb_lt _ _)). }
    apply Z.ltb_ge in Hlt. assert (Hpos : 0 < MIN_REFUSAL_WAIT) by done.
    specialize (Hn after p eq_refl ltac:(lia) I (Hpi p w) (Hpe p w)). injection Hn as -> -> ->.
    rewrite Hgp. split_and!; [done|done|]. exists after. split; [done|].
    rewrite (proj2 (Z.ltb_ge _ _)) by done. split; [done|]. intros v. apply next_nap.
Qed.

#[local] Existing Instances meter_bucket meter_laws.

(** A per-key limiter next to a clock. *)
Record keyed := mkKeyedWorld { kw_limiter : PerKey Chain Z Meter; kw_clock : Z }.

(** The key has spent its ten units of ten a second: three more come after
    300 ms. *)
Lemma perkey_acquire_exact_witness :
  let put p w := mkKeyedWorld p (kw_clock w) in
  let drained := mkPerKey demo_store (Some demo_conf) (Eviction.capacity 1) 1 0 in
  let tick d w := mkKeyedWorld (kw_limiter w) (kw_clock w + d) in
  let '(acquire, future) := acquire_with_cost_timeout key_hash kw_limiter put kw_clock 10 1 3 (from_secs 1) in
  let '((future, first), w1) := poll_future kw_clock (fun _ => 0) (from_secs 1000) 2 acquire future (mkKeyedWorld drained 0) in
  first = None /\
  (polls kw_clock (fun _ => 0) (from_secs 1000) 2 acquire [tick (from_millis 299)] future w1).1.2 = None /\
  (polls kw_clock (fun _ => 0) (from_secs 1000) 2 acquire [tick (from_millis 300)] future w1).1.2 = Some (Ok tt).
Proof.
  intros put drained tick.
  pose proof (perkey_acquire_exact key_hash kw_limiter put kw_clock kw_clock (fun _ => 0) (from_secs 1000) 0 1 3 (from_secs 1)
    demo_conf (mkKeyedWorld drained 0) ltac:(done) ltac:(done) ltac:(done) demo_store_wf eq_refl demo_conf_ok ltac:(lia) ltac:(done) ltac:(done)) as H.
  cbn zeta in H. change (capacity (kw_limiter _)) with 10 in H.
  set (call := acquire_with_cost_timeout key_hash kw_limiter put kw_clock 10 1 3 (from_secs 1)) in *.
  assert (Hc : kw_clock (poll_future kw_clock (fun _ => 0) (from_secs 1000) 2 call.1 call.2 (mkKeyedWorld drained 0)).2 = 0)
    by (vm_compute; reflexivity).
  destruct call as [acquire future]. cbn [fst snd] in Hc. change (2 + 0)%nat with 2%nat in H.
  destruct (poll_future _ _ _ _ acquire future _) as [[f1 first] [p1 c1]]. simpl in Hc. subst c1.
  change (conf_capacity demo_conf <? 3) with false in H. cbn iota in H.
  destruct H as (b & (s & Hs & ->) & [H|((Hl & _) & _)]); [|exfalso; vm_compute in Hl; discriminate].
  assert (Hw : time_until_at (view_of (now drained 0) demo_conf (key_hash 1) 1 s) 3 (now drained 0) = Some (from_millis 300)).
  { vm_compute in Hs. injection Hs as <-. vm_compute. reflexivity. }
  simpl kw_clock in H. simpl kw_limiter in H. rewrite Hw in H.
  change (from_secs 1 <? from_millis 300) with false in H. cbn iota in H. destruct H as (_ & -> & H). split; [done|].
  assert (Ht : forall d, 0 <= d -> Forall (fun turn => forall w, kw_clock w <= kw_clock (turn w)) [tick d]).
  { intros d Hd. repeat constructor. intros w. simpl. lia. }
  split; (etransitivity; [apply H; [by apply Ht|done|done]|reflexivity]).
Defined.
