(* ===== verification/Resilience.v ===== *)
(** * Resilience (resilience.rs, rt.rs)

    Futures are polls over a world: a poll answers [None] while its future is
    pending. [timeout], [fallback] and [hedge] are the polls their bodies
    compile to. *)

From S2P Require Import Prelude Decisions.

Section Combinators.
Context {W : Type}.

(** [rt::or]: the first of the two to be ready, [a] polled first. *)
Definition or {A} (a b : M W (option A)) : M W (option A) :=
  let! r := a in
  match r with
  | Some value => mret (Some value)
  | None => b
  end.

Record Elapsed := mkElapsed { after : Duration }.

Definition throttle_error_of (_ : Elapsed) : ThrottleError := DeadlineExceeded.

(** [sleep] is the timer's poll. *)
Definition timeout {A} (duration : Duration) (future : M W (option A)) (sleep : M W (option unit))
    : M W (option (Result A Elapsed)) :=
  let work := let! r := future in mret (Ok <$> r) in
  let alarm := let! r := sleep in mret ((fun _ => Err (mkElapsed duration)) <$> r) in
  or work alarm.

(** The two await points of [fallback]; the fallback future is built from
    the error and polled at once. *)
Inductive Fallback (E : Type) := AwaitingPrimary | AwaitingFallback (error : E).
Arguments AwaitingPrimary {E}. Arguments AwaitingFallback {E}.

Definition fallback {T E} (primary : M W (option (Result T E))) (fallback : E -> M W (option T)) (st : Fallback E)
    : M W (Fallback E * option T) :=
  let second error := let! r := fallback error in mret (AwaitingFallback error, r) in
  match st with
  | AwaitingPrimary =>
      let! r := primary in
      match r with
      | None => mret (AwaitingPrimary, None)
      | Some (Ok value) => mret (AwaitingPrimary, Some value)
      | Some (Err error) => second error
      end
  | AwaitingFallback error => second error
  end.

(** ** [hedge] *)

(** [secondary]: the second attempt has been started. *)
Record Hedge := mkHedge { secondary : bool; primary_done : bool; secondary_done : bool }.

Definition hedge_new : Hedge := mkHedge false false false.

Section Hedge.
Context {T E : Type}.
Context (primary : M W (option (Result T E))) (timer : M W bool).
(** [attempt()] for the second time, and the poll of what it returned. *)
Context (attempt : M W unit) (hedged : M W (option (Result T E))).

(** The last part of the poll: the second attempt, if there is one. *)
Definition poll_secondary (h : Hedge) : M W (Hedge * option (Result T E)) :=
  if secondary h && negb (secondary_done h) then
    let! r := hedged in
    match r with
    | None => mret (h, None)
    | Some (Ok value) => mret (h, Some (Ok value))
    | Some (Err error) =>
        if primary_done h then mret (h, Some (Err error))
        else mret (mkHedge (secondary h) (primary_done h) true, None)
    end
  else mret (h, None).

(** From the timer on. *)
Definition poll_timer (h : Hedge) : M W (Hedge * option (Result T E)) :=
  if negb (secondary h) then
    let! fired := timer in
    if fired : bool then let! _ := attempt in poll_secondary (mkHedge true (primary_done h) (secondary_done h))
    else poll_secondary h
  else poll_secondary h.

Definition poll_hedge (h : Hedge) : M W (Hedge * option (Result T E)) :=
  if negb (primary_done h) then
    let! r := primary in
    match r with
    | None => poll_timer h
    | Some (Ok value) => mret (h, Some (Ok value))
    | Some (Err error) =>
        if negb (secondary h) then mret (h, Some (Err error))
        else if secondary_done h then mret (h, Some (Err error))
        else poll_timer (mkHedge (secondary h) true (secondary_done h))
    end
  else poll_timer h.

End Hedge.
End Combinators.

(** ** Runs of a hedge

    What the futures would answer in one poll, and what was asked of them. *)

Record Answers (T E : Type) := mkAnswers {
  of_primary : option (Result T E);
  timer_fires : bool;
  of_secondary : option (Result T E) }.
Arguments mkAnswers {T E}. Arguments of_primary {T E}. Arguments timer_fires {T E}. Arguments of_secondary {T E}.

Inductive call (T E : Type) :=
  | PolledPrimary (r : option (Result T E))
  | PolledTimer (fired : bool)
  | Started
  | PolledSecondary (r : option (Result T E)).
Arguments PolledPrimary {T E}. Arguments PolledTimer {T E}. Arguments Started {T E}. Arguments PolledSecondary {T E}.

Section Runs.
Context {T E : Type}.
Abbreviation scripted := (Answers T E * list (call T E))%type.

Definition asks {A} (answer : Answers T E -> A) (c : A -> call T E) : M scripted A := fun w =>
  (answer w.1, (w.1, w.2 ++ [c (answer w.1)])).

Definition poll_once (h : Hedge) : M scripted (Hedge * option (Result T E)) :=
  poll_hedge (asks of_primary PolledPrimary) (asks timer_fires PolledTimer) (asks (fun _ => tt) (fun _ => Started))
    (asks of_secondary PolledSecondary) h.

(** The executor polls until the hedge is ready. *)
Fixpoint run (script : list (Answers T E)) (h : Hedge) (log : list (call T E)) : option (Result T E) * list (call T E) :=
  match script with
  | [] => (None, log)
  | a :: script =>
      let '((h, r), w) := poll_once h (a, log) in
      match r with
      | Some result => (Some result, w.2)
      | None => run script h w.2
      end
  end.

(** *** The promise, read off the history of calls *)

Definition success (c : call T E) : option T :=
  match c with PolledPrimary (Some (Ok v)) | PolledSecondary (Some (Ok v)) => Some v | _ => None end.
Definition failure (c : call T E) : option E :=
  match c with PolledPrimary (Some (Err e)) | PolledSecondary (Some (Err e)) => Some e | _ => None end.
Definition start (c : call T E) : option unit := match c with Started => Some tt | _ => None end.

(** The first success; else, once every attempt started has failed, the last
    failure. *)
Definition promised (log : list (call T E)) : option (Result T E) :=
  match omap success log with
  | v :: _ => Some (Ok v)
  | [] => if (length (omap failure log) =? S (length (omap start log)))%nat then Err <$> last (omap failure log) else None
  end.

(** Nothing is polled after it was ready, nothing before it was started, and
    the second attempt starts at most once and only when the timer fired
    with no attempt finished. *)
Record Seen := mkSeen { s_primary : bool; s_timer : bool; s_started : bool; s_secondary : bool }.

Definition allowed (s : Seen) (c : call T E) : option Seen :=
  match c with
  | PolledPrimary r =>
      if s_primary s then None else Some (mkSeen (bool_decide (is_Some r)) (s_timer s) (s_started s) (s_secondary s))
  | PolledTimer fired => if s_timer s then None else Some (mkSeen (s_primary s) fired (s_started s) (s_secondary s))
  | Started =>
      if s_timer s && negb (s_started s) && negb (s_primary s) then Some (mkSeen (s_primary s) true true (s_secondary s))
      else None
  | PolledSecondary r =>
      if s_started s && negb (s_secondary s) then Some (mkSeen (s_primary s) (s_timer s) true (bool_decide (is_Some r)))
      else None
  end.

Fixpoint follows (s : Seen) (log : list (call T E)) : option Seen :=
  match log with
  | [] => Some s
  | c :: log => s ← allowed s c; follows s log
  end.

Definition well_behaved (log : list (call T E)) : Prop := is_Some (follows (mkSeen false false false false) log).

Lemma follows_app s log log' : follows s (log ++ log') = (s ← follows s log; follows s log').
Proof.
  revert s. induction log as [|c log IH]; intros s; [done|]. simpl. destruct (allowed s c); simpl; [apply IH|done].
Qed.

Definition one (b : bool) : nat := if b then 1%nat else 0%nat.

(** Between two polls, the flags are what the history says. *)
Record tracks (h : Hedge) (log : list (call T E)) : Prop := {
  tr_success : omap success log = [];
  tr_failures : length (omap failure log) = (one (primary_done h) + one (secondary_done h))%nat;
  tr_starts : length (omap start log) = one (secondary h);
  tr_running : primary_done h && secondary_done h = false;
  tr_hedged : primary_done h || secondary_done h = true -> secondary h = true;
  tr_seen : follows (mkSeen false false false false) log =
    Some (mkSeen (primary_done h) (secondary h) (secondary h) (secondary_done h)) }.

Lemma poll_once_tracks h a log : tracks h log ->
  let '((h', r), w) := poll_once h (a, log) in
  r = promised w.2 /\ well_behaved w.2 /\ (r = None -> tracks h' w.2).
Proof.
  intros [Hs Hf Hst Hr Hh Hseen]. destruct h as [sec pd sd], a as [[[v|e]|] tf [[v'|e']|]];
  destruct pd, sd, sec, tf; try (simpl in Hr; discriminate Hr); try (simpl in Hh; specialize (Hh eq_refl); discriminate Hh);
  simpl in Hf, Hst; unfold poll_once, poll_hedge, poll_timer, poll_secondary, asks, mthen, mret; simpl;
  unfold promised, well_behaved; rewrite ?omap_app, ?follows_app, Hs, ?Hseen, ?length_app, ?Hf, ?Hst; simpl.
  all: split_and!; [by rewrite ?last_snoc|by eexists|try done].
  all: intros _; split; simpl; rewrite ?omap_app, ?follows_app, ?Hs, ?Hseen, ?length_app, ?Hf, ?Hst; try done.
Qed.

Lemma hedge_new_tracks : tracks hedge_new [].
Proof. by split. Qed.

Lemma run_tracks script h log : tracks h log ->
  let '(out, log') := run script h log in out = promised log' /\ well_behaved log'.
Proof.
  revert h log. induction script as [|a script IH]; intros h log Ht; cbn [run].
  - destruct Ht as [Hs Hf Hst Hr Hh Hseen]. split; [|unfold well_behaved; rewrite Hseen; by eexists].
    unfold promised. rewrite Hs, Hf, Hst.
    destruct h as [[] [] []]; simpl in *; try done; by specialize (Hh eq_refl).
  - pose proof (poll_once_tracks h a log Ht) as Hp. destruct (poll_once h (a, log)) as [[h' r] w].
    destruct Hp as (Hr & Hw & Hn). destruct r as [r|]; [done|]. apply IH. by apply Hn.
Qed.

(** A poll that stays pending has noticed a primary that is ready, and was
    not offered a ready second attempt after the primary failed. *)
Lemma poll_pending h a log : tracks h log ->
  let '((h', r), _) := poll_once h (a, log) in
  r = None ->
  (primary_done h = true \/ is_Some (of_primary a) -> primary_done h' = true) /\
  (primary_done h = true -> of_secondary a = None).
Proof.
  intros [_ _ _ Hr Hh _]. destruct h as [sec pd sd], a as [[[v|e]|] tf [[v'|e']|]];
  destruct pd, sd, sec, tf; try (simpl in Hr; discriminate Hr); try (simpl in Hh; specialize (Hh eq_refl); discriminate Hh);
  unfold poll_once, poll_hedge, poll_timer, poll_secondary, asks, mthen, mret; simpl.
  all: try (intros _; split; [by intros [?|[? ?]]|done]).
  all: done.
Qed.

Lemma run_failed_primary script h log : tracks h log -> primary_done h = true -> (run script h log).1 = None ->
  Forall (fun b => of_secondary b = None) script.
Proof.
  revert h log. induction script as [|a script IH]; intros h log Ht Hd; cbn [run]; [done|].
  pose proof (poll_once_tracks h a log Ht) as Hp. pose proof (poll_pending h a log Ht) as Hn.
  destruct (poll_once h (a, log)) as [[h' [r|]] w]; [done|]. destruct Hp as (_ & _ & Ht'). destruct (Hn eq_refl) as [H1 H2].
  intros Hrun. constructor; [by apply H2|]. eapply IH; [by apply Ht'| |exact Hrun]. apply H1. by left.
Qed.

Lemma run_pending pre a post h log : tracks h log -> is_Some (of_primary a) ->
  (run (pre ++ a :: post) h log).1 = None -> Forall (fun b => of_secondary b = None) post.
Proof.
  intros Ht Ha. revert h log Ht. induction pre as [|c pre IH]; intros h log Ht; cbn [run app].
  - pose proof (poll_once_tracks h a log Ht) as Hp. pose proof (poll_pending h a log Ht) as Hn.
    destruct (poll_once h (a, log)) as [[h' [r|]] w]; [done|]. destruct Hp as (_ & _ & Ht'). destruct (Hn eq_refl) as [H1 H2].
    apply run_failed_primary; [by apply Ht'|]. apply H1. by right.
  - pose proof (poll_once_tracks h c log Ht) as Hp.
    destruct (poll_once h (c, log)) as [[h' [r|]] w]; [done|]. destruct Hp as (_ & _ & Ht'). by apply IH, Ht'.
Qed.

End Runs.

(** ** Theorems *)

(** C27: However the attempts, the timer and the polls interleave, a hedge answers
    the first success, or once every attempt it started has failed the last
    failure, and nothing before that; it starts a second attempt at most once,
    only when the timer fired while the first was running, and polls no
    future that was ready; and once both attempts are ready it answers. *)
Theorem hedge_keeps_its_promise {T E : Type} (script : list (Answers T E)) :
  let '(out, log) := run script hedge_new [] in
  out = promised log /\ well_behaved log /\
  (forall pre a mid b post, script = pre ++ a :: mid ++ b :: post ->
     is_Some (of_primary a) -> is_Some (of_secondary b) -> is_Some out).
Proof.
  pose proof (run_tracks script hedge_new [] hedge_new_tracks) as Hp.
  destruct (run script hedge_new []) as [out log] eqn:Erun. destruct Hp as [Hout Hw]. split_and!; [done|done|].
  intros pre a mid b post -> Ha [r Hb]. destruct out as [out|]; [by eexists|]. exfalso.
  pose proof (run_pending pre a (mid ++ b :: post) hedge_new [] hedge_new_tracks Ha) as Hf.
  rewrite Erun in Hf. specialize (Hf eq_refl). apply Forall_app in Hf as [_ Hf].
  apply Forall_cons in Hf as [Hf _]. congruence.
Qed.

(** A future that is ready when its time runs out still wins, and a timeout
    carries the duration it was given. *)
Theorem timeout_prefers_the_work {W A : Type} (duration : Duration) (future : M W (option A)) (sleep : M W (option unit)) (w : W) :
  let '(r, w') := timeout duration future sleep w in
  match future w with
  | (Some a, w1) => r = Some (Ok a) /\ w' = w1
  | (None, w1) =>
      w' = (sleep w1).2 /\
      r = match (sleep w1).1 with Some _ => Some (Err (mkElapsed duration)) | None => None end
  end.
Proof.
  unfold timeout, or. rewrite !mthen_run. destruct (future w) as [[a|] w1]; simpl; [done|].
  rewrite mthen_run. destruct (sleep w1) as [[u|] w2]; simpl; done.
Qed.

(** ** Runs *)

(** The primary is slow, the timer fires at the second poll, the primary then
    fails, and the second attempt succeeds. *)
Example hedge_run :
  run [mkAnswers None false None; mkAnswers None true None; mkAnswers (Some (Err 7)) false None;
       mkAnswers (Some (Err 8)) false (Some (Ok 5))] hedge_new [] =
  (Some (Ok 5),
   [PolledPrimary None; PolledTimer false; PolledPrimary None; PolledTimer true; Started; PolledSecondary None;
    PolledPrimary (Some (Err 7)); PolledSecondary None; PolledSecondary (Some (Ok 5))]).
Proof. reflexivity. Qed.
