(* ===== verification/Presets.v ===== *)
(** * Presets (presets.rs)

    The published tiers as multi-dimension limiters of throttles, one minute
    per refill. A limiter is a handle, so building one gives the handle and
    the throttles it starts from. *)

From stdpp Require Import strings.
From S2P Require Import Prelude Decisions Bucket Limiter Multi.
From S2P Require Throttle.

Definition MINUTE : Duration := from_secs 60.

Section Presets.
Context {B : Type} `{Bucket B} `{BucketConfig B}.

(** The throttles behind the handles, by dimension, and the clock they read. *)
Record world := mkWorld { clock : Z; throttles : string -> Throttle.Throttle B }.

Definition store (name : string) (t : Throttle.Throttle B) (w : world) : world :=
  mkWorld (clock w) (fun n => if bool_decide (n = name) then t else throttles w n).

Definition handle (name : string) (t : Throttle.Throttle B) : Limiter world :=
  Throttle.throttle_limiter (fun w => throttles w name) (store name) clock (Throttle.capacity t).

(** [builder.dimension(name, Throttle::per_duration(limit, MINUTE))] *)
Definition dimension (name : string) (limit : Z) (b : MultiLimiterBuilder world * world)
    : MultiLimiterBuilder world * world :=
  let t := Throttle.per_duration limit MINUTE (clock b.2) in
  (shared b.1 name (handle name t), store name t b.2).

Definition start (w : world) : MultiLimiterBuilder world * world := (default_builder, w).

Definition separate_builder (requests input_tokens output_tokens : Z) (w : world) : MultiLimiterBuilder world * world :=
  dimension "output_tokens" output_tokens (dimension "input_tokens" input_tokens (dimension "requests" requests (start w))).
Definition separate (requests input_tokens output_tokens : Z) (w : world) : MultiLimiter world * world :=
  let b := separate_builder requests input_tokens output_tokens w in (build b.1, b.2).

Definition combined_builder (requests tokens : Z) (w : world) : MultiLimiterBuilder world * world :=
  let b := dimension "tokens" tokens (dimension "requests" requests (start w)) in
  (alias (alias b.1 "input_tokens" "tokens") "output_tokens" "tokens", b.2).
Definition combined (requests tokens : Z) (w : world) : MultiLimiter world * world :=
  let b := combined_builder requests tokens w in (build b.1, b.2).

Definition anthropic_tier_1 := separate 50 40000 8000.
Definition anthropic_tier_2 := separate 1000 80000 16000.
Definition anthropic_tier_4 := separate 4000 400000 80000.
Definition openai_tier_1 := combined 500 30000.
Definition openai_tier_2 := combined 5000 450000.

(** Building a preset makes no mistake: checking it gives the same limiter. *)
Lemma presets_check requests a b w :
  try_build (separate_builder requests a b w).1 = Ok (separate requests a b w).1 /\
  try_build (combined_builder requests a w).1 = Ok (combined requests a w).1.
Proof. split; reflexivity. Qed.

(** What three named costs come to, whichever of them a dimension takes. *)
Lemma costs_of (t : Table world) d r i o : is_u32 r -> is_u32 i -> is_u32 o ->
  let part n (cost : Z) := if bool_decide (target t n = Some d) then cost else 0 in
  cost_for t d [("requests", r); ("input_tokens", i); ("output_tokens", o)]%string =
    Z.min u32_max (part "requests" r + part "input_tokens" i + part "output_tokens" o)%string.
Proof.
  unfold is_u32. intros Hr Hi Ho. unfold cost_for. simpl.
  destruct (bool_decide _), (bool_decide _), (bool_decide _); simpl; unfold sat_add; lia.
Qed.

Lemma min_u32 n : is_u32 n -> Z.min u32_max n = n.
Proof. unfold is_u32. lia. Qed.

End Presets.
Arguments world : clear implicits.

(** A strict limiter asks nobody about a name it does not know. *)
Lemma unknown_refused {W} (m : MultiLimiter W) n (cost : Z) w :
  (if strict m then target (table m) n else Some n) = None -> try_acquire_costs m [(n, cost)] w = (false, w).
Proof.
  intros Hn. unfold try_acquire_costs, unknown, first_unknown. destruct (strict m); [|done].
  simpl. by rewrite (bool_decide_eq_true_2 _ Hn).
Qed.

(** Looking the names of a preset up. *)
Ltac decide_targets :=
  repeat first [rewrite bool_decide_eq_true_2 by reflexivity | rewrite bool_decide_eq_false_2 by discriminate];
  rewrite ?Z.add_0_l.

(** ** Theorems *)

(** A call that names its requests, input and output tokens is charged for
    them separately by one kind of preset, and for their sum by the other;
    both refuse a call that names anything else. *)
Theorem presets_charge {B : Type} `{Bucket B} `{BucketConfig B} (requests a b : Z) (w : world B) (r i o : Z) :
  is_u32 r -> is_u32 i -> is_u32 o ->
  let cs := [("requests", r); ("input_tokens", i); ("output_tokens", o)]%string in
  let per_minute n := Throttle.per_duration n MINUTE (clock w) in
  let '(apart, w1) := separate requests a b w in
  let '(together, w2) := combined requests a w in
  pairs apart cs =
    [(handle "requests" (per_minute requests), r); (handle "input_tokens" (per_minute a), i);
     (handle "output_tokens" (per_minute b), o)] /\
  throttles w1 "output_tokens" = per_minute b /\
  pairs together cs =
    [(handle "requests" (per_minute requests), r); (handle "tokens" (per_minute a), Z.min u32_max (i + o))] /\
  throttles w2 "tokens" = per_minute a /\
  forall other n w', target (table apart) other = None -> try_acquire_costs apart [(other, n)] w' = (false, w').
Proof.
  intros Hr Hi Ho cs per_minute. split_and!.
  - unfold pairs. simpl. unfold cs. rewrite !costs_of by done. decide_targets. by rewrite !Z.add_0_r, !min_u32.
  - done.
  - unfold pairs. simpl. unfold cs. rewrite !costs_of by done. decide_targets. by rewrite !Z.add_0_r, (min_u32 r).
  - done.
  - intros other n w' Hn. apply unknown_refused. by rewrite <- Hn.
Qed.

(** ** Runs *)

Lemma presets_charge_witness :
  let w : world Meter := mkWorld 0 (fun _ => Throttle.per_second 0 0) in
  pairs (openai_tier_1 w).1 [("requests", 1); ("input_tokens", 20000); ("output_tokens", 9000)]%string =
    [(handle "requests" (Throttle.per_duration 500 MINUTE 0), 1);
     (handle "tokens" (Throttle.per_duration 30000 MINUTE 0), 29000)] /\
  fst (try_acquire_costs (openai_tier_1 w).1 [("requests", 1); ("input_tokens", 20000); ("output_tokens", 9000)]%string
    (openai_tier_1 w).2) = true.
Proof.
  intros w. split; [|by vm_compute].
  exact (proj1 (proj2 (proj2 (presets_charge 500 30000 0 w 1 20000 9000
    ltac:(by split) ltac:(by split) ltac:(by split))))).
Defined.
