(* ===== verification/Calls.v ===== *)
(** * Calls through the circuit breaker (src/src/circuit.rs)

    [acquire] and [call] as futures: shed at once or waiting with a ticket
    for a unit of the wrapped limiter, then the caller's operation under the
    permit, settled by its result; dropped at any await, between the critical
    sections of the breaker's other users. *)

From S2P Require Import Prelude Decisions Wait Limiter Compose Boxed Circuit Client Prompt.

(** ** Waiting for a permit *)

Section Admitting.
Context {W : Type} (inner : Limiter W) (config : Config).
Context (shared_at : W -> Shared) (set_shared : Shared -> W -> W) (now_ms : W -> Z).
Context (instant_now resume_epoch : W -> Z) (instant_max : Z) (rounds : nat).

(** [admit_waiting] after its first critical section. *)
Inductive AdmitWait := Shed (error : ThrottleError) | Ticketed (ticket : Ticket) (f : Waiting unit).

Definition admit_start (timeout : option Duration) : M W AdmitWait :=
  let! r := admit_or_shed config shared_at set_shared now_ms in
  match r with
  | Err error => mret (Shed error)
  | Ok ticket => let! f := start_boxed instant_now instant_max timeout tt in mret (Ticketed ticket f)
  end.

Definition admit_poll (f : AdmitWait) : M W (AdmitWait * option (Result Ticket ThrottleError)) :=
  match f with
  | Shed error => mret (Shed error, Some (Err error))
  | Ticketed ticket f =>
      let! f := poll_boxed instant_now resume_epoch (admission_step inner) (admission_release inner)
                  (paused_for inner) rounds f in
      match phase (engine f) with
      | Done r =>
          let! r := admission_finish inner shared_at set_shared now_ms ticket r in
          mret (Ticketed ticket f, Some r)
      | _ => mret (Ticketed ticket f, None)
      end
  end.

(** The wait is dropped, then its slot guard. *)
Definition admit_cancel (f : AdmitWait) : M W unit :=
  match f with
  | Shed _ => mret tt
  | Ticketed ticket f =>
      let! _ := drop_boxed (admission_release inner) f in slot_drop shared_at set_shared ticket
  end.

(** [acquire], [acquire_timeout] and their owned forms. *)
Definition acquire_poll (f : AdmitWait) : M W (AdmitWait * option (Result Permit ThrottleError)) :=
  let! (f, r) := admit_poll f in
  mret (f, match r with
           | Some (Ok ticket) => Some (Ok (Permit_new ticket))
           | Some (Err error) => Some (Err error)
           | None => None
           end).

(** ** Calls *)

Context {O V X : Type}.
(** The caller's operation: making its future, polling it, dropping it. *)
Context (op_start : M W O) (op_poll : O -> M W (O * option (Result V X))) (op_drop : O -> M W unit).

Inductive CallFuture :=
  | Calling (timeout : option Duration)        (* not polled yet *)
  | Admitting (f : AdmitWait)
  | Operating (permit : Permit) (operation : O)
  | Ended.

(** [settle_call], from the operation's next poll on. *)
Definition settle_poll (permit : Permit) (operation : O) : M W (CallFuture * option (Result V (CallError X))) :=
  let! (operation, r) := op_poll operation in
  match r with
  | None => mret (Operating permit operation, None)
  | Some (Ok value) =>
      let! _ := permit_success config shared_at set_shared now_ms permit in mret (Ended, Some (Ok value))
  | Some (Err error) =>
      let! _ := permit_failure config shared_at set_shared now_ms permit in mret (Ended, Some (Err (Failed error)))
  end.

Definition admitting_poll (f : AdmitWait) : M W (CallFuture * option (Result V (CallError X))) :=
  let! (f, r) := acquire_poll f in
  match r with
  | None => mret (Admitting f, None)
  | Some (Err error) => mret (Ended, Some (Err (Rejected error)))
  | Some (Ok permit) => let! operation := op_start in settle_poll permit operation
  end.

(** [call] with no timeout, [call_timeout] with one. *)
Definition poll_call (c : CallFuture) : M W (CallFuture * option (Result V (CallError X))) :=
  match c with
  | Calling timeout => let! f := admit_start timeout in admitting_poll f
  | Admitting f => admitting_poll f
  | Operating permit operation => settle_poll permit operation
  | Ended => mret (Ended, None)
  end.

(** The operation's future is dropped before the permit it ran under. *)
Definition drop_call (c : CallFuture) : M W unit :=
  match c with
  | Admitting f => admit_cancel f
  | Operating permit operation =>
      let! _ := op_drop operation in permit_drop config shared_at set_shared now_ms permit
  | Calling _ | Ended => mret tt
  end.

End Admitting.
Arguments Calling {O}. Arguments Admitting {O}. Arguments Operating {O}. Arguments Ended {O}.

(** ** Tickets

    The breaker's invariant of Circuit.v speaks of the tickets its callers
    hold; these are the ones its calls hold. *)

Definition ticket_of {O} (c : CallFuture (O := O)) : option Ticket :=
  match c with
  | Admitting (Ticketed ticket _) => Some ticket
  | Operating permit _ => Some (p_ticket permit)
  | _ => None
  end.

Definition tickets {O} (cs : list (CallFuture (O := O))) : list Ticket := omap ticket_of cs.

Lemma sound_permutation config n s held held' trying raced : held ≡ₚ held' ->
  sound config n (mkCallers s held trying raced) -> sound config n (mkCallers s held' trying raced).
Proof.
  intros Hp [Hg Hh Ht Hr Hb Hs]. simpl in *.
  assert (Hout : trials_in s held' = trials_in s held) by (unfold trials_in, len; by rewrite Hp).
  constructor; simpl; [done|by rewrite <- Hp|done..|]. unfold permits_out in *. simpl in *. by rewrite Hout.
Qed.

Lemma delete_app_at {A} (l k : list A) i x : l !! i = Some x -> delete i (l ++ k) = delete i l ++ k.
Proof. revert i. induction l as [|y l IH]; intros [|i] Hi; simpl in *; [done..|]. f_equal. by apply IH. Qed.

(** What some callers do, the others' tickets standing by. *)
Lemma sound_among config n s held rest trying raced o :
  config_ok config -> n < u64_max -> sound config n (mkCallers s (held ++ rest) trying raced) ->
  let c := step config (mkCallers s held trying raced) o in
  sound config (n + 1) (mkCallers (breaker c) (Circuit.held c ++ rest) (Circuit.trying c) (Circuit.raced c)).
Proof.
  intros Hc Hn Hs c. pose proof (sound_step config n _ o Hc Hn Hs) as H. subst c.
  destruct o as [now|i success now|i|now|i|i| |success now|]; cbn [step] in *; try exact H.
  - destruct (admit_ config s now) as [[t|after] s']; exact H.
  - destruct (held !! i) as [t|] eqn:Hi; [|by apply sound_later].
    rewrite (lookup_app_l_Some _ _ _ _ Hi), (delete_app_at _ _ _ _ Hi) in H. exact H.
  - destruct (held !! i) as [t|] eqn:Hi; [|by apply sound_later].
    rewrite (lookup_app_l_Some _ _ _ _ Hi), (delete_app_at _ _ _ _ Hi) in H. exact H.
  - destruct (admit_as config s now true) as [[t|after] s']; exact H.
  - destruct (trying !! i); exact H.
Qed.

Lemma delete_insert_at {A} (l : list A) i x : delete i (<[i := x]> l) = delete i l.
Proof. revert i. induction l as [|y l IH]; intros [|i]; simpl; [done..|]. f_equal. apply IH. Qed.

Lemma tickets_insert {O} (cs : list (CallFuture (O := O))) i c c' : cs !! i = Some c ->
  tickets cs ≡ₚ option_list (ticket_of c) ++ tickets (delete i cs) /\
  tickets (<[i := c']> cs) ≡ₚ option_list (ticket_of c') ++ tickets (delete i cs).
Proof.
  intros Hi. unfold tickets.
  assert (Hcons : forall c (cs : list (CallFuture (O := O))), omap ticket_of (c :: cs) = option_list (ticket_of c) ++ omap ticket_of cs).
  { intros c0 cs0. simpl. by destruct (ticket_of c0). }
  split.
  - rewrite <- Hcons. by rewrite (delete_Permutation cs i c) at 1.
  - rewrite <- Hcons. rewrite (delete_Permutation (<[i := c']> cs) i c') at 1.
    + by rewrite delete_insert_at.
    + apply list_lookup_insert_eq. by eapply lookup_lt_Some.
Qed.

(** ** The breaker under its calls *)

Section Sound.
Context {W : Type} (inner : Limiter W) (config : Config) (config_fine : config_ok config).
Context (shared_at : W -> Shared) (set_shared : Shared -> W -> W) (now_ms : W -> Z).
Context (get_set : forall s w, shared_at (set_shared s w) = s).
Context (instant_now resume_epoch : W -> Z) (instant_max : Z) (rounds : nat).
Context {O V X : Type}.
Context (op_start : M W O) (op_poll : O -> M W (O * option (Result V X))) (op_drop : O -> M W unit).

(** What is not the breaker leaves it alone. *)
Class Elsewhere : Prop := {
  else_reserve cost most : quick shared_at (reserve inner cost most) any;
  else_peek cost : quick shared_at (Limiter.peek inner cost) any;
  else_refund cost : quick shared_at (refund inner cost) any;
  else_paused : quick shared_at (paused_for inner) any;
  else_start : quick shared_at op_start any;
  else_poll o : quick shared_at (op_poll o) any;
  else_drop o : quick shared_at (op_drop o) any }.

Context `{HE : !Elsewhere}.
Abbreviation admitting_poll := (admitting_poll inner config shared_at set_shared now_ms instant_now resume_epoch rounds op_start op_poll).
Abbreviation settle_poll := (settle_poll config shared_at set_shared now_ms op_poll).
Abbreviation poll_call := (poll_call inner config shared_at set_shared now_ms instant_now resume_epoch instant_max rounds op_start op_poll).
Abbreviation drop_call := (drop_call inner config shared_at set_shared now_ms op_drop).
Abbreviation call := (CallFuture (O := O)).

Definition stays (s : Shared) (_ : Owns) (_ : unit) (w : W) : Prop := shared_at w = s.

#[local] Instance wait_stays s :
  Ownership (admission_step inner) (admission_release inner) (paused_for inner) (fun w w' => shared_at w' = shared_at w) (stays s).
Proof using HE.
  constructor; unfold stays.
  - intros o [] d w _ <-. unfold admission_step. rewrite mthen_run.
    destruct (else_reserve 1 d w) as [Hr _]. destruct (reserve inner 1 d w).1; [exact Hr|].
    rewrite mthen_run. simpl. destruct (else_peek 1 (reserve inner 1 d w).2) as [Hp _]. by rewrite Hp.
  - intros o [] w _ <-. apply else_refund.
  - intros o [] w <-. apply else_paused.
  - intros o [] w w' <- Hw. done.
Qed.

(** Armed as its phase says. *)
Definition sane (f : Waiting unit) : Prop := forall s w, shared_at w = s -> pending (stays s) f w.

Lemma pending_sane s f w : pending (stays s) f w -> sane f.
Proof using Type.
  clear. intros [Ho Hl] s' w' Hw. unfold pending, owned, stays in *. destruct (phase (engine f)) as [| |[]|[]|]; tauto.
Qed.

Lemma start_sane timeout w : sane (start_boxed instant_now instant_max timeout tt w).1.
Proof using Type. intros s w' Hw. by split. Qed.

(** A call between two polls. *)
Definition well (c : call) : Prop :=
  match c with
  | Admitting (Ticketed _ f) => sane f
  | Admitting (Shed _) => False
  | Operating permit _ => settled permit = false
  | Calling _ | Ended => True
  end.

Definition held_by (c : call) : list Ticket := option_list (ticket_of c).

Section Polls.
Context (trying : list Ticket) (raced : list Z).
(** The breaker of [w] with these tickets out. *)
Abbreviation with_tickets w held := (mkCallers (shared_at w) held trying raced).

Lemma sound_settle n w permit rest success :
  settled permit = false -> n < u64_max -> sound config n (with_tickets w (p_ticket permit :: rest)) ->
  sound config (n + 1) (mkCallers (settle config (shared_at w) (p_ticket permit) success (now_ms w)) rest trying raced).
Proof using config_fine. intros _ Hn Hs. apply (sound_step config n _ (OpSettle 0 success (now_ms w)) config_fine Hn Hs). Qed.

Lemma sound_abort n s ticket rest : n < u64_max -> sound config n (mkCallers s (ticket :: rest) trying raced) ->
  sound config (n + 1) (mkCallers (abort s ticket) rest trying raced).
Proof using config_fine. intros Hn Hs. apply (sound_step config n _ (OpAbort 0) config_fine Hn Hs). Qed.

Lemma settle_poll_sound n permit o rest w :
  settled permit = false -> n < u64_max -> sound config n (with_tickets w (p_ticket permit :: rest)) ->
  let r := settle_poll permit o w in sound config (n + 1) (with_tickets r.2 (held_by r.1.1 ++ rest)) /\ well r.1.1.
Proof using config_fine get_set HE.
  intros Hp Hn Hs r. subst r. unfold settle_poll, Calls.settle_poll. rewrite mthen_run.
  destruct (else_poll o w) as [Hw _]. destruct (op_poll o w) as [[o' [[v|x]|]] w']; cbn [fst snd] in *.
  - rewrite mthen_run. simpl. rewrite get_set, Hw. split; [|done].
    rewrite <- Hw in Hs |- *. by apply sound_settle.
  - rewrite mthen_run. simpl. rewrite get_set, Hw. split; [|done].
    rewrite <- Hw in Hs |- *. by apply sound_settle.
  - split; [|done]. simpl. rewrite Hw. by apply sound_later.
Qed.

Lemma admitting_poll_sound n ticket f rest w :
  sane f -> n < u64_max -> sound config n (with_tickets w (ticket :: rest)) ->
  let r := admitting_poll (Ticketed ticket f) w in sound config (n + 1) (with_tickets r.2 (held_by r.1.1 ++ rest)) /\ well r.1.1.
Proof using config_fine get_set HE.
  intros Hf Hn Hs r. subst r. unfold admitting_poll, Calls.admitting_poll, acquire_poll. rewrite !mthen_run.
  unfold admit_poll. rewrite mthen_run.
  pose proof (poll_boxed_owned instant_now resume_epoch _ _ _ _ (stays (shared_at w)) rounds f w (Hf _ w eq_refl)) as Hp.
  destruct (poll_boxed _ _ _ _ _ rounds f w) as [f' w']. cbn [fst snd] in *.
  assert (Hkeep : forall f w', pending (stays (shared_at w)) f w' ->
    sound config (n + 1) (with_tickets w' (ticket :: rest)) /\ sane f).
  { intros f0 w0 Hf0. split; [|by eapply pending_sane]. destruct (Hf0) as [Ho Hl]. unfold owned, stays in Ho.
    assert (shared_at w0 = shared_at w) as -> by (destruct (phase (engine f0)) as [| |[]|[]|]; tauto). by apply sound_later. }
  destruct (phase (engine f')) as [| |a|r|] eqn:Eph; try (by apply Hkeep).
  assert (Hw : shared_at w' = shared_at w) by (destruct r; exact Hp). clear Hkeep Hp. rewrite mthen_run.
  rewrite <- Hw in Hs. clear Hw. destruct r as [[]|[]]; unfold admission_finish.
  - destruct (still_admits (shared_at w') (now_ms w') ticket) as [u|after]; cbn [fst snd mret].
    + rewrite mthen_run. destruct (else_start w') as [Hst _]. rewrite <- Hst in Hs.
      apply (settle_poll_sound n (Permit_new ticket)); [done|lia|exact Hs].
    + rewrite !mthen_run. simpl. rewrite get_set. destruct (else_refund 1 w') as [Hre _]. rewrite Hre.
      split; [|done]. by apply sound_abort; [lia|].
  - rewrite mthen_run. simpl. rewrite get_set. split; [|done]. by apply sound_abort; [lia|].
  - rewrite mthen_run. simpl. rewrite get_set. split; [|done]. by apply sound_abort; [lia|].
Qed.

Lemma poll_call_sound n c rest w : well c -> n < u64_max - 1 -> sound config n (with_tickets w (held_by c ++ rest)) ->
  let r := poll_call c w in sound config (n + 2) (with_tickets r.2 (held_by r.1.1 ++ rest)) /\ well r.1.1.
Proof using config_fine get_set HE.
  intros Hc Hn Hs r. subst r. replace (n + 2) with ((n + 1) + 1) by lia.
  assert (Hlater : forall m c, sound config m c -> sound config (m + 1) c) by (intros; by apply sound_later).
  destruct c as [timeout|[e|ticket f]|permit o|]; simpl in Hc; [|done| | |split; [by apply Hlater, Hlater|done]].
  - unfold poll_call, Calls.poll_call. rewrite mthen_run. unfold admit_start. rewrite mthen_run. unfold admit_or_shed, breaker_admit.
    rewrite mthen_run. unfold locked. pose proof (sound_step config n _ (OpAdmit (now_ms w)) config_fine ltac:(lia) Hs) as Ha.
    cbn [step held_by ticket_of option_list app] in Ha. unfold admit_ in Ha.
    destruct (admit_as config (shared_at w) (now_ms w) false) as [[ticket|after] s']; cbn [fst snd mret].
    + rewrite mthen_run. cbn [fst snd]. apply (admitting_poll_sound (n + 1)); [apply start_sane|lia|].
      rewrite <- (get_set s' w) in Ha. exact Ha.
    + simpl. rewrite get_set. split; [by apply Hlater|done].
  - destruct (admitting_poll_sound n ticket f rest w Hc ltac:(lia) Hs) as [H1 H2]. split; [by apply Hlater|done].
  - destruct (settle_poll_sound n permit o rest w Hc ltac:(lia) Hs) as [H1 H2]. split; [by apply Hlater|done].
Qed.

Lemma drop_call_sound n c rest w : well c -> n < u64_max -> sound config n (with_tickets w (held_by c ++ rest)) ->
  sound config (n + 1) (with_tickets (drop_call c w).2 rest).
Proof using config_fine get_set HE.
  intros Hc Hn Hs. destruct c as [timeout|[e|ticket f]|permit o|]; simpl in Hc; [|done| | |]; try by apply sound_later.
  - unfold drop_call, Calls.drop_call, admit_cancel. rewrite mthen_run.
    destruct (drop_boxed_owned _ _ _ _ (stays (shared_at w)) f w (Hc _ w eq_refl)) as [t Ht]. unfold stays in Ht.
    simpl. rewrite get_set, Ht. by apply sound_abort.
  - unfold drop_call, Calls.drop_call, permit_drop. rewrite mthen_run, Hc. destruct (else_drop o w) as [Hw _].
    simpl. rewrite get_set. rewrite Hw. rewrite <- Hw in Hs |- *. by apply sound_settle.
Qed.

End Polls.

(** Any number of calls over one breaker, each polled and dropped whenever it
    may be, between the critical sections of any other use of the breaker;
    [n] bounds the critical sections so far. Of the other users, [others] are
    the permits they hold, [trying] their trait calls between two sections,
    and [raced] the trait trials released in a race, as in Circuit.v. *)
Inductive serving : Z -> list call -> list Ticket -> list Ticket -> list Z -> W -> Prop :=
  | srv_new w : shared_at w = Shared_new -> serving 0 [] [] [] [] w
  | srv_call n cs others trying raced w timeout :
      serving n cs others trying raced w -> serving n (Calling timeout :: cs) others trying raced w
  | srv_poll n cs others trying raced w i c : serving n cs others trying raced w -> cs !! i = Some c ->
      let r := poll_call c w in serving (n + 2) (<[i := r.1.1]> cs) others trying raced r.2
  | srv_drop n cs others trying raced w i c : serving n cs others trying raced w -> cs !! i = Some c ->
      serving (n + 1) (<[i := Ended]> cs) others trying raced (drop_call c w).2
  | srv_other n cs others trying raced w w' o : serving n cs others trying raced w ->
      let c := step config (mkCallers (shared_at w) others trying raced) o in
      shared_at w' = breaker c -> serving (n + 1) cs (Circuit.held c) (Circuit.trying c) (Circuit.raced c) w'
  | srv_rest n cs others trying raced w w' :
      serving n cs others trying raced w -> shared_at w' = shared_at w -> serving n cs others trying raced w'.

(** Everyone's tickets. *)
Definition all_callers (cs : list call) (others trying : list Ticket) (raced : list Z) (w : W) : callers :=
  mkCallers (shared_at w) (tickets cs ++ others) trying raced.

Lemma serving_sound n cs others trying raced w : serving n cs others trying raced w -> n <= u64_max ->
  sound config n (all_callers cs others trying raced w) /\ Forall well cs.
Proof using config_fine get_set HE.
  unfold all_callers.
  induction 1 as [w Hw|n cs others trying raced w timeout _ IH|n cs others trying raced w i c _ IH Hi r
    |n cs others trying raced w i c _ IH Hi|n cs others trying raced w w' o _ IH c Hw|n cs others trying raced w w' _ IH Hw]; intros Hn.
  - rewrite Hw. split; [apply sound_new|done].
  - destruct (IH Hn) as [Hs Hc]. split; [done|]. by constructor.
  - destruct IH as [Hs Hc]; [lia|]. destruct (tickets_insert cs i c r.1.1 Hi) as [Hp Hp'].
    destruct (poll_call_sound trying raced n c (tickets (delete i cs) ++ others) w) as [Hs' Hc'];
      [by apply (Forall_lookup_1 _ _ _ _ Hc Hi)|lia|eapply sound_permutation; [|exact Hs]; by rewrite Hp, app_assoc|].
    split; [eapply sound_permutation; [|exact Hs']; by rewrite Hp', app_assoc|by apply Forall_insert].
  - destruct IH as [Hs Hc]; [lia|]. destruct (tickets_insert cs i c Ended Hi) as [Hp Hp'].
    split; [|by apply Forall_insert]. eapply sound_permutation; [by rewrite Hp'|].
    apply (drop_call_sound trying raced n c); [by apply (Forall_lookup_1 _ _ _ _ Hc Hi)|lia|].
    eapply sound_permutation; [|exact Hs]. by rewrite Hp, app_assoc.
  - destruct IH as [Hs Hc]; [lia|]. split; [|done]. rewrite Hw.
    eapply sound_permutation; [apply Permutation_app_comm|]. apply sound_among; [done|lia|].
    eapply sound_permutation; [apply Permutation_app_comm|exact Hs].
  - destruct (IH Hn) as [Hs Hc]. by rewrite Hw.
Qed.

End Sound.

(** ** Properties *)

(** C5: Calls through the breaker, any number of them, each polled or dropped at
    any await, between the critical sections of any other users (permits,
    trait calls, manual reports, refunds, resets): in a half-open period the
    slots in use never exceed [half_open_trials] and stand for the trials
    out, which are the calls under way with a current trial ticket, the
    others' permits and the trait trials: exactly, as long as no report or
    refund released a trait trial while a trait call was between its
    sections, and up to one trial for each such race otherwise. A call that
    is over, however it ended (shed, refused, timed out, cancelled mid-wait
    or mid-operation, settled), holds no trial, and while fewer than
    [half_open_trials] trials are out the next one is admitted. So once the
    calls are over and nobody else has a trial out, the breaker is not wedged. The bound on the critical sections keeps the 64-bit
    generation from wrapping. *)
Theorem calls_never_wedge {W O V X : Type} (inner : Limiter W) (config : Config)
    (shared_at : W -> Shared) (set_shared : Shared -> W -> W) (now_ms instant_now resume_epoch : W -> Z)
    (instant_max : Z) (rounds : nat) (op_start : M W O) (op_poll : O -> M W (O * option (Result V X))) (op_drop : O -> M W unit)
    (n now : Z) (cs : list (CallFuture (O := O))) (others trying : list Ticket) (raced : list Z) (w : W) :
  config_ok config -> (forall s w, shared_at (set_shared s w) = s) ->
  Elsewhere inner shared_at op_start op_poll op_drop ->
  serving inner config shared_at set_shared now_ms instant_now resume_epoch instant_max rounds op_start op_poll op_drop
    n cs others trying raced w ->
  n <= u64_max -> let s := shared_at w in state s = HalfOpen ->
  let slots := half_open_inflight s in
  let trials := trials_in s (tickets cs) + trials_in s others + trait_probes s in
  slots <= half_open_trials config /\
  slots <= trials <= slots + races_in s raced /\
  (races_in s raced = 0 -> slots = trials /\ trials <= half_open_trials config) /\
  (trials < half_open_trials config -> exists t, (admit_ config s now).1 = Ok t /\ probe t = true) /\
  (Forall (eq Ended) cs -> trials_in s others = 0 -> trait_probes s = 0 ->
   slots = 0 /\ exists t, (admit_ config s now).1 = Ok t /\ probe t = true).
Proof.
  intros Hc Hgs He Hx Hn s Hs slots trials.
  destruct (serving_sound inner config Hc shared_at set_shared now_ms Hgs instant_now resume_epoch instant_max rounds
    op_start op_poll op_drop n cs others trying raced w Hx Hn) as [Hsd _].
  destruct (sound_half_open config _ _ now Hc Hsd Hs) as (Ht & Hb & _ & Ha).
  assert (Ep : trials = permits_out (all_callers shared_at cs others trying raced w) + trait_probes s)
    by (subst trials; unfold permits_out; simpl; by rewrite trials_in_app).
  cbv zeta in Ht, Ha. change (breaker (all_callers shared_at cs others trying raced w)) with s in Ht, Hb, Ha.
  change (races (all_callers shared_at cs others trying raced w)) with (races_in s raced) in Ht.
  rewrite <- Ep in Ht, Ha.
  destruct Hsd as [_ _ _ _ _ Hst]. unfold balanced in Hst. simpl in Hst, Ht. fold s in Hst.
  rewrite Hs in Hst. split_and!; try (unfold slots; lia); [exact Ha|].
  intros He0 Ho Hp. assert (E0 : tickets cs = []) by (clear -He0; by induction He0 as [|c cs <- _ IH]).
  assert (trials = 0) by (subst trials; rewrite E0, Ho, Hp; reflexivity).
  split; [unfold slots; lia|]. apply Ha. destruct Hc as [Hc _]. lia.
Qed.

(** A breaker over a tank, its clock in milliseconds; an operation that is
    over when it is polled a second time. *)
Definition slow_poll (polled : bool) : M guarded (bool * option (Result Z unit)) := mret (true, if polled then Some (Ok 7) else None).

#[local] Instance guarded_elsewhere : Elsewhere guarded_tank g_shared (mret false) slow_poll (fun _ => mret tt).
Proof.
  constructor; try (intros; by apply quick_ret); intros; intros w; split; try done; simpl; unfold on_tanks; simpl;
    repeat case_match; done.
Qed.

(** The breaker opened at 0 and its cooldown of 10 ms is over: one call is a
    trial, its operation under way. *)
Lemma calls_never_wedge_witness :
  let serving := serving guarded_tank two_trials g_shared (fun s w => mkGuarded (g_tanks w) s)
    (fun w => t_clock (g_tanks w)) (fun w => t_clock (g_tanks w)) (fun _ => 0) 1000 2 (mret false) slow_poll (fun _ => mret tt) in
  exists n c w, serving n [c] [] [] [] w /\ n <= u64_max /\ state (g_shared w) = HalfOpen /\
    tickets [c] = [mkTicket 2 true] /\ half_open_inflight (g_shared w) = 1 + 0.
Proof.
  intros serving. pose (set_shared := fun s (w : guarded) => mkGuarded (g_tanks w) s).
  pose (w0 := mkGuarded (mkTanks 0 5 0) Shared_new).
  pose (w1 := set_shared (record_manual two_trials Shared_new false 0) (mkGuarded (mkTanks 10 5 0) Shared_new)).
  assert (H0 : serving 0 [] [] [] [] w0) by by apply srv_new.
  assert (H1 : serving (0 + 1) [] [] [] [] w1).
  { eapply (srv_other _ _ _ _ _ _ _ _ _ _ _ _ _ _ _ _ _ _ _ (OpManual false 0) H0). reflexivity. }
  pose proof (srv_poll _ _ _ _ _ _ _ _ _ _ _ _ _ _ _ _ _ _ 0%nat _ (srv_call _ _ _ _ _ _ _ _ _ _ _ _ _ _ _ _ _ _ None H1) eq_refl) as H2.
  cbn zeta in H2. eexists _, _, _. split; [exact H2|]. split; [vm_compute; congruence|]. split; [vm_compute; reflexivity|].
  split; [vm_compute; reflexivity|].
  destruct (calls_never_wedge guarded_tank two_trials g_shared set_shared (fun w => t_clock (g_tanks w)) (fun w => t_clock (g_tanks w))
    (fun _ => 0) 1000 2 (mret false) slow_poll (fun _ => mret tt) _ 0 _ _ _ _ _
    ltac:(constructor; vm_compute; split; congruence) ltac:(done) guarded_elsewhere H2 ltac:(vm_compute; congruence) ltac:(vm_compute; reflexivity))
    as (_ & _ & Hi & _). exact (proj1 (Hi eq_refl)).
Defined.
