(* ===== verification/Parking.v ===== *)
(** * Waiting for a slot (the waits of src/src/adaptive.rs and src/src/bulkhead.rs)

    Both limiters of concurrency wait in the same loop: look for a slot,
    register a listener, look again, sleep. Here it is as a future that is
    polled and dropped, over the look of either of them. *)

From stdpp Require Import gmap.
From S2P Require Import Prelude Decisions Event.
From S2P Require Resilience.

(** The wait between two polls: whether its listener is registered, and when
    its timer is due, once it is set. *)
Record SlotWait := mkSlotWait { listening : bool; due : option Z }.

Definition slot_start : SlotWait := mkSlotWait false None.

Section Parking.
Context {E W : Type} `{Event E} (event_at : W -> E) (set_event : E -> W -> W).
Context (take : M W bool) (instant_now : W -> Z).

Definition on_event (f : E -> E) : M W unit := fun w => (tt, set_event (f (event_at w)) w).

(** One poll of the loop: a listener that has just been registered is not
    notified yet. *)
Definition wait_for_slot (i : nat) (listening : bool) : M W (bool * option unit) :=
  let look :=
    let! granted := take in
    if granted : bool then mret (false, Some tt)
    else
      let! _ := on_event (listen i) in
      let! granted := take in
      if granted : bool then let! _ := on_event (drop_listener i) in mret (false, Some tt)
      else mret (true, None) in
  if listening then fun w =>
    match listeners (event_at w) !! i with
    | Some true => (let! _ := on_event (consume i) in look) w
    | _ => ((true, None), w)
    end
  else look.

(** Dropping it drops its listener. *)
Definition stop_waiting (i : nat) (f : SlotWait) : M W unit :=
  if listening f then on_event (drop_listener i) else mret tt.

Definition work (i : nat) : M (W * SlotWait) (option unit) := fun s =>
  let '((l, r), w) := wait_for_slot i (listening s.2) s.1 in (r, (w, mkSlotWait l (due s.2))).

Definition timer (duration : Duration) : M (W * SlotWait) (option unit) := fun s =>
  let at_ := default (instant_now s.1 + duration) (due s.2) in
  ((if at_ <=? instant_now s.1 then Some tt else None), (s.1, mkSlotWait (listening s.2) (Some at_))).

(** One poll of the loop under [resilience::timeout], if there is a timeout:
    the loop is dropped when the timer wins. *)
Definition slot_poll (timeout : option Duration) (i : nat) (f : SlotWait)
    : M W (SlotWait * option (Result unit Resilience.Elapsed)) := fun w =>
  match timeout with
  | None => let '(r, (w, f)) := work i (w, f) in ((f, Ok <$> r), w)
  | Some duration =>
      let '(r, (w, f)) := Resilience.timeout duration (work i) (timer duration) (w, f) in
      match r with
      | Some (Err elapsed) => let '(_, w) := stop_waiting i f w in ((f, Some (Err elapsed)), w)
      | _ => ((f, r), w)
      end
  end.

(** ** A rule for its polls

    What holds before each look, once a listener is registered, asleep, with
    a slot in hand while the listener is still there, and at the end. *)

Section Rule.
Context (i : nat) (looking refused second leaving granted parked gone : W -> Prop).
Context (first_look : forall w, looking w -> let '(g, w') := take w in if g : bool then granted w' else refused w').
Context (registers : forall w, refused w -> second (on_event (listen i) w).2).
Context (second_look : forall w, second w -> let '(g, w') := take w in if g : bool then leaving w' else parked w').
Context (unregisters : forall w, leaving w -> granted (on_event (drop_listener i) w).2).
Context (wakes : forall w, parked w -> listeners (event_at w) !! i = Some true -> looking (on_event (consume i) w).2).
Context (gives_up : forall w, parked w -> gone (on_event (drop_listener i) w).2).

Definition awaiting (f : SlotWait) (w : W) : Prop := if listening f then parked w else looking w.

Lemma wait_for_slot_rule (b : bool) w : (if b then parked w else looking w) ->
  let '((b', r), w') := wait_for_slot i b w in
  match r with Some _ => b' = false /\ granted w' | None => b' = true /\ parked w' end.
Proof using first_look registers second_look unregisters wakes.
  assert (Hlook : forall w, looking w -> let '((b', r), w') := wait_for_slot i false w in
    match r with Some _ => b' = false /\ granted w' | None => b' = true /\ parked w' end).
  { intros v Hv. unfold wait_for_slot. rewrite mthen_run. specialize (first_look v Hv).
    destruct (take v) as [[] v1]; cbn [fst snd]; [by split|]. rewrite mthen_run.
    specialize (second_look _ (registers _ first_look)). rewrite mthen_run.
    destruct (take (on_event (listen i) v1).2) as [[] v2]; cbn [fst snd]; [|by split].
    rewrite mthen_run. split; [done|]. by apply unregisters. }
  destruct b; intros Hw; [|by apply Hlook].
  unfold wait_for_slot. destruct (listeners (event_at w) !! i) as [[]|] eqn:El; [|by split..].
  rewrite mthen_run. apply (Hlook _ (wakes w Hw El)).
Qed.

Lemma slot_poll_rule timeout f w : awaiting f w ->
  let '((f', r), w') := slot_poll timeout i f w in
  match r with
  | Some (Ok _) => listening f' = false /\ granted w'
  | Some (Err _) => gone w' /\ timeout <> None
  | None => listening f' = true /\ parked w'
  end.
Proof using first_look registers second_look unregisters wakes gives_up.
  intros Hf. pose proof (wait_for_slot_rule (listening f) w Hf) as Hw.
  unfold slot_poll, Resilience.timeout, Resilience.or, work, timer. cbn [fst snd listening due].
  destruct timeout as [duration|].
  - rewrite !mthen_run. cbn [fst snd]. destruct (wait_for_slot i (listening f) w) as [[b r] w1].
    destruct r as [u|]; cbn [fst snd fmap option_fmap option_map mret]; [exact Hw|].
    rewrite mthen_run. destruct Hw as [-> Hw]. cbn [fst snd listening due].
    destruct (_ <=? _); cbn [fst snd fmap option_fmap option_map mret]; [|by split].
    split; [by apply gives_up|done].
  - destruct (wait_for_slot i (listening f) w) as [[b [u|]] w1]; exact Hw.
Qed.

Lemma stop_waiting_rule f w : awaiting f w -> (forall w, looking w -> gone w) -> gone (stop_waiting i f w).2.
Proof using gives_up. unfold awaiting, stop_waiting. destruct (listening f); intros Hw Hl; [by apply gives_up|by apply Hl]. Qed.

End Rule.
End Parking.
