(* ===== verification/BulkheadCalls.v ===== *)
(** * Calls through the bulkhead (src/src/bulkhead.rs)

    Waiting acquires, permits and calls as futures that are polled and
    dropped, one call on the counter or the event at a time. Bulkhead.v takes
    those calls apart into atomic accesses; a schedule of its accesses leads
    to every state that the futures reach. *)

From stdpp Require Import gmap fin_maps.
From S2P Require Import Prelude Decisions Event Parking.
From S2P Require Bulkhead.

(** The counter and the event; the limit is fixed. *)
Record Bulkhead (E : Type) := mkBulkhead { in_use : Z; event : E }.
Arguments mkBulkhead {E}. Arguments in_use {E}. Arguments event {E}.

(** [BulkheadPermit] and [OwnedBulkheadPermit]: a slot to be released. *)
Inductive BulkheadPermit := Permit.

(** [call] and [call_timeout] before they have a slot, waiting for it since
    their first poll; [try_call] before its first poll; the operation under
    the slot. *)
Inductive CallFuture (O : Type) :=
  | Calling (timeout : option Duration) (f : option SlotWait)
  | Trying
  | Operating (operation : O)
  | Ended.
Arguments Calling {O}. Arguments Trying {O}. Arguments Operating {O}. Arguments Ended {O}.

Section Calls.
Context {E : Type} `{Event E} (limit : Z) {W : Type} (get : W -> Bulkhead E) (put : Bulkhead E -> W -> W).
Context (instant_now : W -> Z).

Definition event_at (w : W) : E := event (get w).
Definition set_event (e : E) (w : W) : W := put (mkBulkhead (in_use (get w)) e) w.

Definition available (w : W) : Z := sat_sub limit (in_use (get w)).

Definition try_take : M W bool := fun w =>
  let s := get w in
  if limit <=? in_use s then (false, w) else (true, put (mkBulkhead (in_use s + 1) (event s)) w).

Definition release : M W unit := fun w =>
  let s := get w in (tt, put (mkBulkhead (sat_sub (in_use s) 1) (notify_additional 1 (event s))) w).

Definition try_acquire : M W (option BulkheadPermit) :=
  let! taken := try_take in mret (if taken : bool then Some Permit else None).
Definition try_acquire_owned : M W (option BulkheadPermit) :=
  let! taken := try_take in mret (if taken : bool then Some Permit else None).

Definition permit_drop (_ : BulkheadPermit) : M W unit := release.

(** One poll of [wait], which looks at the limit before it begins to wait. *)
Definition wait_poll (timeout : option Duration) (i : nat) (f : option SlotWait)
    : M W (option SlotWait * option (Result unit ThrottleError)) :=
  let poll f :=
    let! (f, r) := slot_poll event_at set_event try_take instant_now timeout i f in
    mret (Some f, match r with
                  | None => None
                  | Some (Ok _) => Some (Ok tt)
                  | Some (Err _) => Some (Err BulkheadFull)
                  end) in
  match f with
  | None => if limit =? 0 then mret (None, Some (Err (CostExceedsCapacity 1 0))) else poll slot_start
  | Some f => poll f
  end.

Definition wait_drop (i : nat) (f : option SlotWait) : M W unit :=
  match f with Some f => stop_waiting event_at set_event i f | None => mret tt end.

(** One poll of [acquire], [acquire_timeout] or one of their owned forms. *)
Definition acquire_poll (timeout : option Duration) (i : nat) (f : option SlotWait)
    : M W (option SlotWait * option (Result BulkheadPermit ThrottleError)) :=
  let! (f, r) := wait_poll timeout i f in
  mret (f, match r with
           | None => None
           | Some (Ok _) => Some (Ok Permit)
           | Some (Err error) => Some (Err error)
           end).

(** The caller's operation: making its future, polling it, dropping it. *)
Context {O V : Type} (operation : M W O) (op_poll : O -> M W (O * option V)) (op_drop : O -> M W unit).

(** The permit is dropped when the operation has its value. *)
Definition operate (o : O) : M W (CallFuture O * option (Result V ThrottleError)) :=
  let! (o, r) := op_poll o in
  match r with
  | None => mret (Operating o, None)
  | Some value => let! _ := permit_drop Permit in mret (Ended, Some (Ok value))
  end.

Definition poll_call (i : nat) (c : CallFuture O) : M W (CallFuture O * option (Result V ThrottleError)) :=
  match c with
  | Calling timeout f =>
      let! (f, r) := acquire_poll timeout i f in
      match r with
      | None => mret (Calling timeout f, None)
      | Some (Err error) => mret (Ended, Some (Err error))
      | Some (Ok _) => let! o := operation in operate o
      end
  | Trying =>
      let! p := try_acquire in
      match p with
      | None => mret (Ended, Some (Err BulkheadFull))
      | Some _ => let! o := operation in operate o
      end
  | Operating o => operate o
  | Ended => mret (Ended, None)
  end.

(** The operation's future is dropped before the permit it ran under. *)
Definition drop_call (i : nat) (c : CallFuture O) : M W unit :=
  match c with
  | Calling _ f => wait_drop i f
  | Operating o => let! _ := op_drop o in permit_drop Permit
  | Trying | Ended => mret tt
  end.

(** ** Users of one bulkhead *)

Inductive User :=
  | Free
  | Acquiring (timeout : option Duration) (f : option SlotWait)
  | Permitted (p : BulkheadPermit)
  | Call (c : CallFuture O).

(** The futures that the methods return. *)
Definition acquire : User := Acquiring None None.
Definition acquire_timeout (timeout : Duration) : User := Acquiring (Some timeout) None.
Definition acquire_owned : User := Acquiring None None.
Definition acquire_owned_timeout (timeout : Duration) : User := Acquiring (Some timeout) None.
Definition call : User := Call (Calling None None).
Definition call_timeout (timeout : Duration) : User := Call (Calling (Some timeout) None).
Definition try_call : User := Call Trying.

Inductive begun : User -> Prop :=
  | begun_acquire : begun acquire
  | begun_acquire_timeout timeout : begun (acquire_timeout timeout)
  | begun_acquire_owned : begun acquire_owned
  | begun_acquire_owned_timeout timeout : begun (acquire_owned_timeout timeout)
  | begun_call : begun call
  | begun_call_timeout timeout : begun (call_timeout timeout)
  | begun_try_call : begun try_call.

(** Anyone acquires, calls, polls, drops and releases in any order. *)
Inductive uses : list User -> W -> Prop :=
  | use_new n w : in_use (get w) = 0 -> listeners (event (get w)) = ∅ -> uses (replicate n Free) w
  | use_try_acquire us w i (owned : bool) : uses us w -> us !! i = Some Free ->
      let r := (if owned then try_acquire_owned else try_acquire) w in uses (<[i := match r.1 with Some p => Permitted p | None => Free end]> us) r.2
  | use_begin us w i u : uses us w -> us !! i = Some Free -> begun u -> uses (<[i := u]> us) w
  | use_poll us w i timeout f : uses us w -> us !! i = Some (Acquiring timeout f) ->
      let r := acquire_poll timeout i f w in
      uses (<[i := match r.1.2 with
                    | None => Acquiring timeout r.1.1
                    | Some (Ok p) => Permitted p
                    | Some (Err _) => Free
                    end]> us) r.2
  | use_drop us w i timeout f : uses us w -> us !! i = Some (Acquiring timeout f) ->
      uses (<[i := Free]> us) (wait_drop i f w).2
  | use_release us w i p : uses us w -> us !! i = Some (Permitted p) ->
      uses (<[i := Free]> us) (permit_drop p w).2
  | use_poll_call us w i c : uses us w -> us !! i = Some (Call c) ->
      let r := poll_call i c w in uses (<[i := Call r.1.1]> us) r.2
  | use_drop_call us w i c : uses us w -> us !! i = Some (Call c) ->
      uses (<[i := Free]> us) (drop_call i c w).2
  | use_elsewhere us w w' : uses us w -> get w' = get w -> uses us w'.

End Calls.
Arguments User : clear implicits.
Arguments Free {O}. Arguments Acquiring {O}. Arguments Permitted {O}. Arguments Call {O}.

(** ** The accesses of one thread while no other runs *)

(** Where a user's thread is between two polls. *)
Definition parked_at (f : option SlotWait) : Bulkhead.Thread :=
  match f with Some _ => Bulkhead.Parked | None => Bulkhead.Out end.

Definition thread_of {O} (u : User O) : Bulkhead.Thread :=
  match u with
  | Acquiring _ f | Call (Calling _ f) => parked_at f
  | Permitted _ | Call (Operating _) => Bulkhead.Holding
  | Free | Call Trying | Call Ended => Bulkhead.Out
  end.

Section Solo.
Context {E : Type} `{Event E} (limit : Z).
Abbreviation world := (Bulkhead.world E).
Abbreviation step := (Bulkhead.step limit).

Definition reach (v v' : world) : Prop := exists schedule, run step v schedule = v'.

Lemma reach_refl v : reach v v.
Proof. by exists []. Qed.

Lemma reach_then v v' s : reach v v' -> reach v (step v' s).
Proof. intros [schedule <-]. exists (schedule ++ [s]). by rewrite run_app. Qed.

Context (start : world) (p : list Bulkhead.Thread) (i : nat) (Hi : (i < length p)%nat).

(** Thread [i] is at [t]. *)
Definition stands (t : Bulkhead.Thread) (n : Z) (e : E) : Prop :=
  reach start (Bulkhead.mkWorld n e (<[i := t]> p)).

(** One step of it. *)
Lemma stands_go t n e n' e' t' : stands t n e ->
  Bulkhead.go limit (Bulkhead.mkWorld n e (<[i := t]> p)) i t false =
    Some (Bulkhead.set_thread (Bulkhead.mkWorld n' e' (<[i := t]> p)) i t') ->
  stands t' n' e'.
Proof using Hi.
  intros Hs Hgo. apply (reach_then _ _ (i, Bulkhead.Go false)) in Hs. revert Hs.
  unfold Bulkhead.step, Bulkhead.act. simpl. rewrite list_lookup_insert_eq by done. simpl. rewrite Hgo.
  unfold Bulkhead.set_thread. simpl. by rewrite list_insert_insert_eq.
Qed.

Lemma stands_act a t n e n' e' t' : stands t n e ->
  Bulkhead.act limit (Bulkhead.mkWorld n e (<[i := t]> p)) i a =
    Some (Bulkhead.set_thread (Bulkhead.mkWorld n' e' (<[i := t]> p)) i t') ->
  stands t' n' e'.
Proof using Hi.
  intros Hs Ha. apply (reach_then _ _ (i, a)) in Hs. revert Hs. unfold Bulkhead.step. simpl. rewrite Ha.
  unfold Bulkhead.set_thread. simpl. by rewrite list_insert_insert_eq.
Qed.

(** [try_take]: a load and a compare-exchange that nobody disturbs. *)
Lemma stands_take site n e : stands (Bulkhead.Entering site) n e ->
  if limit <=? n then stands (Bulkhead.refused site) n e else stands (Bulkhead.took site) (n + 1) e.
Proof using Hi.
  intros Hs. assert (Ht : stands (Bulkhead.Taking site n) n e) by by eapply stands_go.
  destruct (limit <=? n) eqn:El; (eapply stands_go; [exact Ht|]); simpl; unfold Bulkhead.try_take; rewrite El; [done|].
  simpl. by rewrite Z.eqb_refl.
Qed.

Lemma stands_release n e : stands Bulkhead.Holding n e ->
  stands Bulkhead.Out (sat_sub n 1) (notify_additional 1 e).
Proof using Hi.
  intros Hs. assert (H1 : stands Bulkhead.Unloading n e).
  { apply (stands_act Bulkhead.StartRelease _ _ _ n e _ Hs). unfold Bulkhead.act. simpl. by rewrite list_lookup_insert_eq. }
  assert (H2 : stands (Bulkhead.Releasing n) n e) by by eapply stands_go.
  assert (H3 : stands Bulkhead.Notifying (sat_sub n 1) e).
  { eapply stands_go; [exact H2|]. simpl. unfold Bulkhead.saturating_sub. simpl. by rewrite Z.eqb_refl. }
  by eapply stands_go.
Qed.

Lemma stands_try n e : stands Bulkhead.Out n e -> stands (Bulkhead.Entering Bulkhead.Try) n e.
Proof using Hi.
  intros Hs. apply (stands_act Bulkhead.StartTry _ _ _ n e _ Hs). unfold Bulkhead.act. simpl. by rewrite list_lookup_insert_eq.
Qed.

Lemma stands_wait n e : limit <> 0 -> stands Bulkhead.Out n e -> stands (Bulkhead.Entering Bulkhead.First) n e.
Proof using Hi.
  intros Hl Hs. apply (stands_act Bulkhead.StartWait _ _ _ n e _ Hs). unfold Bulkhead.act. simpl.
  rewrite list_lookup_insert_eq by done. by rewrite (proj2 (Z.eqb_neq limit 0)).
Qed.

Lemma stands_register n e : stands Bulkhead.Registering n e ->
  stands (Bulkhead.Entering Bulkhead.Second) n (listen i e).
Proof using Hi. intros Hs. by eapply stands_go. Qed.

Lemma stands_leave n e : stands Bulkhead.Leaving n e -> stands Bulkhead.Holding n (drop_listener i e).
Proof using Hi. intros Hs. by eapply stands_go. Qed.

Lemma stands_wake n e : stands Bulkhead.Parked n e -> listeners e !! i = Some true ->
  stands (Bulkhead.Entering Bulkhead.First) n (consume i e).
Proof using Hi. intros Hs He. eapply stands_go; [exact Hs|]. simpl. by rewrite He. Qed.

Lemma stands_cancel n e : stands Bulkhead.Parked n e -> stands Bulkhead.Out n (drop_listener i e).
Proof using Hi.
  intros Hs. apply (stands_act Bulkhead.Cancel _ _ _ n (drop_listener i e) _ Hs). unfold Bulkhead.act. simpl.
  by rewrite list_lookup_insert_eq.
Qed.

End Solo.

(** ** Every poll is a schedule of accesses *)

Section Refinement.
Context {E : Type} `{Event E} (limit : Z) {W : Type} (get : W -> Bulkhead E) (put : Bulkhead E -> W -> W).
Context (instant_now : W -> Z) (get_put : forall s w, get (put s w) = s).
(** The operations leave the bulkhead they run under alone. *)
Context {O V : Type} (operation : M W O) (op_poll : O -> M W (O * option V)) (op_drop : O -> M W unit).
Context (operation_apart : forall w, get (operation w).2 = get w).
Context (op_poll_apart : forall o w, get (op_poll o w).2 = get w).
Context (op_drop_apart : forall o w, get (op_drop o w).2 = get w).
Implicit Types (us : list (User O)) (w : W).

Section Poll.
Context (start : Bulkhead.world E) (p : list Bulkhead.Thread) (i : nat) (Hi : (i < length p)%nat).

Definition on (t : Bulkhead.Thread) (w : W) : Prop := stands limit start p i t (in_use (get w)) (event (get w)).

Lemma on_same t w w' : get w' = get w -> on t w -> on t w'.
Proof using. unfold on. by intros ->. Qed.

Lemma try_take_on site w : on (Bulkhead.Entering site) w ->
  let '(granted, w') := try_take limit get put w in
  if granted : bool then on (Bulkhead.took site) w' else on (Bulkhead.refused site) w'.
Proof using get_put Hi.
  intros Hw. apply stands_take in Hw; [|done]. unfold try_take. destruct (limit <=? in_use (get w)); [done|].
  unfold on. by rewrite get_put.
Qed.

Lemma release_on w : on Bulkhead.Holding w -> on Bulkhead.Out (release get put w).2.
Proof using get_put Hi. intros Hw. unfold on, release. simpl. rewrite get_put. by apply stands_release. Qed.

(** A wait that has been polled is listening. *)
Definition waits (f : option SlotWait) : Prop := match f with Some f => listening f = true | None => True end.

Lemma acquire_poll_on timeout f w : on (parked_at f) w -> waits f ->
  let '((f', r), w') := acquire_poll limit get put instant_now timeout i f w in
  match r with
  | Some (Ok _) => on Bulkhead.Holding w'
  | Some (Err _) => on Bulkhead.Out w'
  | None => on (parked_at f') w' /\ waits f'
  end.
Proof using get_put Hi.
  intros Hw Hf.
  assert (Hpoll : forall f w, awaiting (on (Bulkhead.Entering Bulkhead.First)) (on Bulkhead.Parked) f w ->
    let '((f', r), w') := slot_poll (event_at get) (set_event get put) (try_take limit get put) instant_now timeout i f w in
    match r with
    | Some (Ok _) => listening f' = false /\ on Bulkhead.Holding w'
    | Some (Err _) => on Bulkhead.Out w' /\ timeout <> None
    | None => listening f' = true /\ on Bulkhead.Parked w'
    end).
  { intros f0 v. apply (slot_poll_rule _ _ _ _ i _ (on Bulkhead.Registering) (on (Bulkhead.Entering Bulkhead.Second)) (on Bulkhead.Leaving));
      clear -get_put Hi; unfold on_event, set_event, event_at.
    - apply (try_take_on Bulkhead.First).
    - intros v Hv. unfold on. simpl. rewrite get_put. by apply stands_register.
    - apply (try_take_on Bulkhead.Second).
    - intros v Hv. unfold on. simpl. rewrite get_put. by apply stands_leave.
    - intros v Hv El. unfold on. simpl. rewrite get_put. by apply stands_wake.
    - intros v Hv. unfold on. simpl. rewrite get_put. by apply stands_cancel. }
  unfold acquire_poll, wait_poll. destruct f as [f|].
  - specialize (Hpoll f w). rewrite !mthen_run. destruct (slot_poll _ _ _ _ timeout i f w) as [[f' [[u|e]|]] w'];
      cbn [fst snd mret]; unfold awaiting in Hpoll; rewrite Hf in Hpoll; destruct (Hpoll Hw); done.
  - specialize (Hpoll slot_start w). rewrite mthen_run. destruct (Z.eqb_spec limit 0) as [|Hl]; [done|].
    rewrite mthen_run. apply stands_wait in Hw; [|done..].
    destruct (slot_poll _ _ _ _ timeout i slot_start w) as [[f' [[u|e]|]] w']; cbn [fst snd mret]; destruct (Hpoll Hw); done.
Qed.

Lemma wait_drop_on f w : on (parked_at f) w -> waits f -> on Bulkhead.Out (wait_drop get put i f w).2.
Proof using get_put Hi.
  intros Hw Hf. destruct f as [f|]; [|done]. simpl in *. unfold stop_waiting. rewrite Hf.
  unfold on, on_event, set_event, event_at. simpl. rewrite get_put. by apply stands_cancel.
Qed.

Definition call_thread (c : CallFuture O) : Bulkhead.Thread := thread_of (Call c).
Definition call_waits (c : CallFuture O) : Prop := match c with Calling _ f => waits f | _ => True end.

Lemma operate_on o w : on Bulkhead.Holding w ->
  let '((c, _), w') := operate get put op_poll o w in on (call_thread c) w' /\ call_waits c.
Proof using get_put Hi op_poll_apart.
  intros Hw. unfold operate. rewrite mthen_run. assert (Ho := on_same _ _ _ (op_poll_apart o w) Hw).
  destruct (op_poll o w) as [[o' [v|]] w']; cbn [fst snd mret] in *; [|by split].
  rewrite mthen_run. cbn [fst snd mret]. split; [|done]. by apply release_on.
Qed.

Lemma start_operation_on w : on Bulkhead.Holding w ->
  let '((c, _), w') := (let! o := operation in operate get put op_poll o) w in on (call_thread c) w' /\ call_waits c.
Proof using get_put Hi op_poll_apart operation_apart.
  intros Hw. rewrite mthen_run. apply operate_on. by apply (on_same _ w).
Qed.

Lemma poll_call_on c w : on (call_thread c) w -> call_waits c ->
  let '((c', _), w') := poll_call limit get put instant_now operation op_poll i c w in on (call_thread c') w' /\ call_waits c'.
Proof using get_put Hi op_poll_apart operation_apart.
  intros Hw Hc. destruct c as [timeout f| |o|]; unfold poll_call.
  - rewrite mthen_run. pose proof (acquire_poll_on timeout f w Hw Hc) as Ha.
    destruct (acquire_poll _ _ _ _ timeout i f w) as [[f' [[u|e]|]] w']; cbn [fst snd mret] in *; [|by split|done].
    by apply start_operation_on.
  - rewrite mthen_run. unfold try_acquire. rewrite mthen_run. pose proof (try_take_on Bulkhead.Try w (stands_try _ _ _ _ Hi _ _ Hw)) as Ht.
    destruct (try_take limit get put w) as [[] w']; cbn [fst snd mret] in *; [by apply start_operation_on|by split].
  - by apply operate_on.
  - by split.
Qed.

Lemma drop_call_on c w : on (call_thread c) w -> call_waits c -> on Bulkhead.Out (drop_call get put op_drop i c w).2.
Proof using get_put Hi op_drop_apart.
  intros Hw Hc. destruct c as [timeout f| |o|]; unfold drop_call; [by apply wait_drop_on|done| |done].
  rewrite mthen_run. apply release_on. by apply (on_same _ w).
Qed.

End Poll.

Definition user_waits (u : User O) : Prop :=
  match u with Acquiring _ f => waits f | Call c => call_waits c | _ => True end.

(** The users' accesses so far, all of them complete. *)
Record refined us w : Prop := mkRefined {
  ref_reach : exists e, listeners e = ∅ /\
    reach limit (Bulkhead.initial e (length us)) (Bulkhead.mkWorld (in_use (get w)) (event (get w)) (thread_of <$> us));
  ref_waits : Forall user_waits us }.

(** What one user does, whatever it leaves the user as. *)
Lemma refined_set us w w' i u u' : refined us w -> us !! i = Some u ->
  (forall start p, (i < length p)%nat -> on start p i (thread_of u) w -> user_waits u ->
     on start p i (thread_of u') w' /\ user_waits u') ->
  refined (<[i := u']> us) w'.
Proof using.
  intros [(e & He & Hr) Hw] Hi Hon. pose proof (lookup_lt_Some _ _ _ Hi) as Hlt.
  destruct (Hon (Bulkhead.initial e (length us)) (thread_of <$> us)) as [Hon' Hu].
  - by rewrite length_fmap.
  - unfold on, stands. by rewrite list_insert_id by by rewrite list_lookup_fmap, Hi.
  - by eapply Forall_lookup_1 in Hw.
  - constructor; [|by apply Forall_insert]. exists e. split; [done|]. by rewrite length_insert, list_fmap_insert.
Qed.

Lemma uses_refined us w : uses limit get put instant_now operation op_poll op_drop us w -> refined us w.
Proof using get_put operation_apart op_poll_apart op_drop_apart.
  induction 1 as [n w Hn He|us w i owned _ IH Hi r|us w i u _ IH Hi Hb|us w i timeout f _ IH Hi r|us w i timeout f _ IH Hi
    |us w i q _ IH Hi|us w i c _ IH Hi r|us w i c _ IH Hi|us w w' _ IH Hw];
    try (eapply refined_set; [exact IH|exact Hi|]; intros start p Hp Hon Hu; simpl in Hu).
  - constructor; [|by apply Forall_replicate]. exists (event (get w)). split; [done|].
    rewrite length_replicate, fmap_replicate, Hn. apply reach_refl.
  - pose proof (try_take_on start p i Hp Bulkhead.Try w (stands_try _ _ _ _ Hp _ _ Hon)) as Ht.
    subst r. destruct owned; unfold try_acquire_owned, try_acquire; rewrite mthen_run; by destruct (try_take limit get put w) as [[] w'].
  - by destruct Hb.
  - pose proof (acquire_poll_on start p i Hp timeout f w Hon Hu) as Ha. fold r in Ha.
    by destruct r as [[f' [[[]|e]|]] w'].
  - split; [by apply wait_drop_on|done].
  - split; [by apply release_on|done].
  - pose proof (poll_call_on start p i Hp c w Hon Hu) as Ha. fold r in Ha. by destruct r as [[c' v] w'].
  - split; [by apply drop_call_on|done].
  - destruct IH as [Hr Hf]. constructor; [|done]. by rewrite Hw.
Qed.

End Refinement.

(** ** Properties *)

(** The slots that users hold, and the notifications on their way to them. *)
Definition slots_of {O} (u : User O) : Z :=
  match u with Permitted _ | Call (Operating _) => 1 | _ => 0 end.

Definition sleeps {O} (u : User O) : Prop := thread_of u = Bulkhead.Parked.

Definition notified {O} (ls : gmap nat bool) (us : list (User O)) : Z :=
  sum_with id (imap (fun i _ => match ls !! i with Some true => 1 | _ => 0 end) us).

Lemma occupied_users {O} (us : list (User O)) : Bulkhead.occupied (thread_of <$> us) = sum_with slots_of us.
Proof.
  unfold Bulkhead.occupied. rewrite sum_with_fmap. induction us as [|u us IH]; [done|].
  rewrite !sum_with_cons, IH. f_equal. by destruct u as [|? []| |[? []| | |]].
Qed.

(** Between polls nobody looks for a slot, so only notifications count. *)
Lemma credits_notified {O} slots ls (us : list (User O)) :
  sum_with (credit Bulkhead.awake slots) (view ls (thread_of <$> us)) = notified ls us.
Proof.
  unfold view, notified. rewrite imap_fmap. change (credit Bulkhead.awake slots) with (fun c => id (credit Bulkhead.awake slots c)).
  rewrite <- (sum_with_fmap id (credit Bulkhead.awake slots)), fmap_imap. f_equal. apply imap_ext. intros k u _.
  unfold credit, compose. simpl. by destruct u as [|? []| |[? []| | |]].
Qed.

(** C4: Waiting acquires, permits and calls of any number of users, begun,
    polled, released and dropped in any order: every state they reach is one
    that a schedule of the bulkhead's atomic accesses reaches, with each user
    where its thread is. So the counter is the number of permits and of
    operations that run, never more than the limit; and when a user sleeps
    unnotified, every free slot has a notification on its way to a user. *)
Theorem bulkhead_calls_refine_accesses {E : Type} `{EventLaws E} (limit : Z)
    {W O V : Type} (get : W -> Bulkhead E) (put : Bulkhead E -> W -> W) (instant_now : W -> Z)
    (operation : M W O) (op_poll : O -> M W (O * option V)) (op_drop : O -> M W unit) (us : list (User O)) (w : W) :
  0 <= limit -> (forall s w, get (put s w) = s) -> (forall w, get (operation w).2 = get w) ->
  (forall o w, get (op_poll o w).2 = get w) -> (forall o w, get (op_drop o w).2 = get w) ->
  uses limit get put instant_now operation op_poll op_drop us w ->
  (exists e schedule, listeners e = ∅ /\
     run (Bulkhead.step limit) (Bulkhead.initial e (length us)) schedule =
       Bulkhead.mkWorld (in_use (get w)) (event (get w)) (thread_of <$> us)) /\
  in_use (get w) = sum_with slots_of us /\ in_use (get w) <= limit /\
  (forall i u, us !! i = Some u -> sleeps u -> listeners (event (get w)) !! i = Some false ->
     limit - in_use (get w) <= notified (listeners (event (get w))) us).
Proof.
  intros Hl Hgp Ho Hp Hd Hu.
  destruct (uses_refined limit get put instant_now Hgp operation op_poll op_drop Ho Hp Hd us w Hu) as [(e & He & schedule & Hs) _].
  pose proof (Bulkhead.sound_reachable limit e (length us) schedule Hl He) as Hsound. rewrite Hs in Hsound.
  destruct Hsound as [H1 H2 H3]. simpl in H1, H2, H3.
  split; [by exists e, schedule|]. split; [by rewrite H1, occupied_users|]. split; [done|].
  intros i u Hi Hsl Hn. rewrite <- (credits_notified limit). eapply awaited_sleeper; [exact H3| |exact Hn|].
  - by rewrite list_lookup_fmap, Hi.
  - simpl. rewrite Hsl. done.
Qed.

(** One slot: the first user's call runs, the second sleeps, and is notified
    when the first call is dropped. *)
Lemma bulkhead_calls_refine_accesses_witness :
  let put s (_ : Bulkhead (gmap nat bool)) := s in
  let empty := mkBulkhead 0 (∅ : gmap nat bool) in
  let uses := uses 1 id put (fun _ => 0) (mret tt) (fun o => mret (o, None)) (fun _ => mret tt) (O := unit) (V := unit) in
  exists busy left w w', uses busy w /\ uses left w' /\
    in_use w = 1 /\ (exists u, busy !! 1%nat = Some u /\ sleeps u) /\ 1 - in_use w <= notified (listeners (event w)) busy /\
    in_use w' = 0 /\ listeners (event w') !! 1%nat = Some true.
Proof.
  intros put empty uses.
  assert (H0 : uses [Free; Free] empty) by by apply (use_new _ id put _ _ _ _ 2 empty).
  pose proof (use_begin _ _ _ _ _ _ _ _ _ 0 _ H0 eq_refl begun_try_call) as H1.
  pose proof (use_poll_call _ _ _ _ _ _ _ _ _ 0 _ H1 eq_refl) as H2.
  pose proof (use_begin _ _ _ _ _ _ _ _ _ 1 _ H2 eq_refl begun_call) as H3.
  pose proof (use_poll_call _ _ _ _ _ _ _ _ _ 1 _ H3 eq_refl) as H4.
  pose proof (use_drop_call _ _ _ _ _ _ _ _ _ 0 _ H4 eq_refl) as H5.
  eexists _, _, _, _. split; [exact H4|]. split; [exact H5|].
  destruct (bulkhead_calls_refine_accesses 1 id put (fun _ => 0) (mret tt) (fun o => mret (o, None)) (fun _ => mret tt) _ _
    ltac:(lia) ltac:(done) ltac:(done) ltac:(done) ltac:(done) H4) as (_ & Hc & _ & Hn).
  split; [etransitivity; [exact Hc|reflexivity]|]. split; [eexists; split; [reflexivity|reflexivity]|].
  split; [eapply (Hn 1%nat); [reflexivity|reflexivity|vm_compute; reflexivity]|].
  split; vm_compute; reflexivity.
Defined.
