(* ===== verification/QueueDepth.v ===== *)
(** * What the waiting queue reports (the calls of obs.rs in src/src/queue.rs)

    The queue's sections with their reports in them, under the lock where the
    code makes them there. Waiters that other sections find expired leave
    without a report, and their calls report when they end: the depth gauge is
    between the waiters and the calls that are in the queue. *)

From stdpp Require Import strings gmap.
From S2P Require Import Prelude Decisions Float64 Limiter Queue Schedule Turns Obs.

Definition KIND : string := "queue".

(** [Overflow::as_str] *)
Definition overflow_as_str (o : Overflow) : string :=
  match o with
  | Reject => "reject"
  | DropOldest => "drop_oldest"
  | DropLowestPriority => "drop_lowest_priority"
  end.

Section Recorded.
Context (features : Features) (label : Label).
Context {K I : Type} `{Countable K} (inner : Limiter I) (capacity : Z) (overflow : Overflow).

(** The queue and its callers, and each caller's timer. *)
Record Recorded := mkRecorded { queue : Turns.world (K := K) (I := I); timers : gmap nat Timer }.
Abbreviation world := (Recorded * list Emission)%type.

Definition on_queue {A} (f : Turns.world -> A * Turns.world) : M world A :=
  unrecorded (fun w => let '(a, q) := f (queue w) in (a, mkRecorded q (timers w))).
Definition update (f : Turns.world -> Turns.world) : M world unit := on_queue (fun q => (tt, f q)).

Definition report_depth : M world unit := fun s => queue_depth features label (len (state (queue s.1))) s.

(** [Queue::new] *)
Definition initial_recorded (l : I) (n : nat) (log : list Emission) : world :=
  (queue_depth features label 0 (mkRecorded (Turns.initial capacity l n) ∅, log)).2.

Definition enlist (now_ms priority : Z) (deadline_ms : option Z) (key : K) : M world Z :=
  let! seq := on_queue (fun q => Turns.enlist q now_ms priority deadline_ms key) in
  let! _ := report_depth in
  mret seq.

Definition register (now_ms priority : Z) (deadline_ms : option Z) (key : K) : M world (Result Z ThrottleError) :=
  let! _ := update (fun q => set_state q (prune_expired (state q) now_ms)) in
  fun s =>
    if len (state (queue s.1)) <? capacity then
      (let! seq := enlist now_ms priority deadline_ms key in mret (Ok seq)) s
    else
      match victim overflow (state (queue s.1)) priority with
      | None => (let! _ := queue_rejected features label (overflow_as_str Reject) in mret (Err QueueFull)) s
      | Some seq =>
          (let! _ := update (fun q => evict q seq) in
           let! _ := queue_rejected features label (overflow_as_str overflow) in
           let! seq := enlist now_ms priority deadline_ms key in mret (Ok seq)) s
      end.

(** The end of [acquire_with_cost]; a call that is dropped reports nothing. *)
Definition conclude (i : nat) (instant cost : Z) (r : option (Result unit ThrottleError)) : M world unit :=
  let! _ := update (fun q => set_task q i (Finished r)) in
  match r with
  | Some result => fun s =>
      waited features (fun _ => instant) KIND label (default (mkTimer None) (timers s.1 !! i)) cost (waited_of result) s
  | None => mret tt
  end.

(** The start of [acquire_with_cost]. *)
Definition enter (i : nat) (now_ms instant priority : Z) (deadline : option Duration) (key : K) (cost : Z) : M world unit :=
  let! timer := timer_start features (fun _ => instant) in
  let! _ := unrecorded (fun w => (tt, mkRecorded (queue w) (<[i := timer]> (timers w)))) in
  let deadline_ms := (fun d => sat_add u64_max now_ms (to_u64_or_max (as_millis d))) <$> deadline in
  let! r := register now_ms priority deadline_ms key in
  match r with
  | Ok seq => update (fun q => set_task q i (Top (mkCall seq deadline_ms cost)))
  | Err e => conclude i instant cost (Some (Err e))
  end.

Definition locked (i : nat) (c : Call) (now_ms : Z) : M world unit :=
  let! turn := on_queue (fun q => let '(turn, s) := winner (state q) now_ms in (turn, set_state q s)) in
  if decide (turn = Some (c_seq c)) then
    let! d := on_queue (fun q => let '(d, l) := acquire_cost inner (c_cost c) (limiter q) in (d, set_limiter q l)) in
    match d with
    | Acquired =>
        let! _ := update (fun q => wake_winner (set_state q (serve (state q) (c_seq c))) now_ms) in
        let! _ := report_depth in
        update (fun q => set_task q i (Leaving c (Some (Ok tt))))
    | Retry after => update (fun q => set_task q i (Parked c (cap_to_deadline after now_ms (c_deadline c)) true))
    | Impossible =>
        update (fun q => set_task q i (Leaving c (Some (Err (CostExceedsCapacity (c_cost c) (Limiter.capacity inner))))))
    end
  else update (fun q => set_task q i (Parked c (cap_to_deadline RECHECK now_ms (c_deadline c)) false)).

(** [LeaveGuard::drop] *)
Definition leave (seq now_ms : Z) : M world unit :=
  let! _ := update (fun q => Turns.leave q seq now_ms) in
  report_depth.

(** A step of Turns.v with its reports; [instant] is what a timer reads. *)
Definition recorded_step (w : world) (s : nat * Action (K := K) * Z * Z) : world :=
  let '(i, a, now_ms, instant) := s in
  match tasks (queue w.1) !! i, a with
  | Some Idle, Acquire priority deadline key cost => (enter i now_ms instant priority deadline key cost w).2
  | Some (Locking c read_ms), Go => (locked i c read_ms w).2
  | Some (Leaving c r), Go => ((let! _ := leave (c_seq c) now_ms in conclude i instant (c_cost c) r) w).2
  | _, _ => (update (fun q => Turns.step inner capacity overflow q (i, a, now_ms)) w).2
  end.

(** [with_name]: the gauge of the new name starts at the depth there is. *)
Definition with_name (w : world) : world := (report_depth w).2.

End Recorded.
Arguments Recorded : clear implicits. Arguments Recorded K I {_ _}. Arguments mkRecorded {K I _ _}.
Arguments queue {K I _ _}. Arguments timers {K I _ _}.

(** ** The depth gauge *)

Definition in_call (t : Task) : Z := match call_of t with Some _ => 1 | None => 0 end.

(** The calls in the queue. *)
Definition in_calls (ts : list Task) : Z := sum_with in_call ts.

Section Gauge.
Context (features : Features) (label : Label).
Context {K I : Type} `{Countable K} (inner : Limiter I) (capacity : Z) (overflow : Overflow).
Abbreviation world := (Recorded K I * list Emission)%type.
Context (Hm : metrics features = true).

Definition depth (log : list Emission) : option f64 := gauge "throttle_queue_depth" (by_name label) log.

(** What the gauge shows is between the waiters and the calls. *)
Definition near (q : Turns.world (K := K) (I := I)) (log : list Emission) : Prop :=
  exists d, depth log = Some (f64_of_Z d) /\ len (state q) <= d <= in_calls (tasks q).

(** Hooks that leave the gauge as it is. *)
Definition mute (m : M world unit) : Prop := forall s, (m s).2.1 = s.1 /\ depth (m s).2.2 = depth s.2.

Lemma mute_rejected policy : mute (queue_rejected features label policy).
Proof.
  intros [w log]. unfold queue_rejected, when, emit. rewrite mthen_run.
  destruct (metrics features), (tracing features); simpl; unfold depth; by rewrite ?gauge_snoc.
Qed.

Lemma mute_waited instant timer cost outcome : mute (waited features (fun _ => instant) KIND label timer cost outcome).
Proof.
  intros [w log]. rewrite waited_writes. split; [done|]. simpl. unfold waited_entries.
  destruct (metrics features), (tracing features), outcome; simpl; unfold depth, gauge; by rewrite ?foldl_app.
Qed.

Lemma report_depth_run (s : world) :
  (report_depth features label s).2.1 = s.1 /\ depth (report_depth features label s).2.2 = Some (f64_of_Z (len (state (queue s.1)))).
Proof.
  unfold report_depth, queue_depth, when, emit. rewrite Hm. split; [done|]. simpl. unfold depth.
  by rewrite gauge_snoc, bool_decide_eq_true_2.
Qed.

(** Every waiter has its call. *)
Lemma size_list_to_set_le (l : list Z) : (size (list_to_set l : gset Z) <= length l)%nat.
Proof.
  induction l as [|x l IH]; [done|]. simpl. destruct (decide (x ∈ (list_to_set l : gset Z))) as [Hx|Hx].
  - replace ({[x]} ∪ list_to_set l : gset Z) with (list_to_set l : gset Z) by set_solver. lia.
  - rewrite size_union, size_singleton by set_solver. lia.
Qed.

Lemma in_calls_length ts : in_calls ts = Z.of_nat (length (omap call_of ts)).
Proof.
  unfold in_calls. induction ts as [|t ts IH]; [done|]. rewrite sum_with_cons, IH. unfold in_call. simpl.
  change (list_omap Task Call call_of ts) with (omap call_of ts). destruct (call_of t); simpl; lia.
Qed.

Lemma waiters_in_calls n (q : Turns.world (K := K) (I := I)) : sound capacity n q -> len (state q) <= in_calls (tasks q).
Proof.
  intros Hs. rewrite in_calls_length. unfold len. rewrite <- size_dom.
  assert (Hsub : dom (waiters (state q)) ⊆ list_to_set (c_seq <$> omap call_of (tasks q))).
  { intros x Hx%elem_of_dom. destruct (sound_owner _ _ _ Hs x Hx) as (i & t & c & Hi & Hc & <-).
    apply elem_of_list_to_set, list_elem_of_fmap_2, list_elem_of_omap. eauto using list_elem_of_lookup_2. }
  apply subseteq_size in Hsub. pose proof (size_list_to_set_le (c_seq <$> omap call_of (tasks q))) as Hl.
  rewrite length_fmap in Hl. lia.
Qed.

Lemma in_calls_task (q : Turns.world (K := K) (I := I)) i t t' :
  tasks q !! i = Some t -> in_calls (tasks (set_task q i t')) = in_calls (tasks q) - in_call t + in_call t'.
Proof. intros Hi. unfold in_calls. simpl. by apply sum_with_insert. Qed.

(** *** The recorded sections are those of Turns.v *)

(** The queue afterwards, and what the gauge then shows. *)
Lemma update_run (f : Turns.world -> Turns.world) (s : world) :
  update f s = (tt, (mkRecorded (f (queue s.1)) (timers s.1), s.2)).
Proof. done. Qed.

Lemma on_queue_run {A} (f : Turns.world -> A * Turns.world) (s : world) :
  on_queue f s = ((f (queue s.1)).1, (mkRecorded (f (queue s.1)).2 (timers s.1), s.2)).
Proof. unfold on_queue, unrecorded. by destruct (f (queue s.1)). Qed.

Lemma enlist_run now_ms p d key (s : world) :
  (enlist features label now_ms p d key s).1 = (Turns.enlist (queue s.1) now_ms p d key).1 /\
  queue (enlist features label now_ms p d key s).2.1 = (Turns.enlist (queue s.1) now_ms p d key).2 /\
  depth (enlist features label now_ms p d key s).2.2 = Some (f64_of_Z (len (state (Turns.enlist (queue s.1) now_ms p d key).2))).
Proof.
  unfold enlist. rewrite mthen_run, on_queue_run. simpl.
  destruct (Turns.enlist (queue s.1) now_ms p d key) as [seq q]. simpl. rewrite mthen_run. simpl.
  match goal with |- context[report_depth features label ?s0] => destruct (report_depth_run s0) as [H1 H2] end.
  by rewrite H1, H2.
Qed.

(** A registration shows the new depth; a refusal shows what was shown. *)
Lemma register_run now_ms p d key (s : world) :
  let r := register features label capacity overflow now_ms p d key s in
  let plain := Turns.register capacity overflow (queue s.1) now_ms p d key in
  r.1 = plain.1 /\ queue r.2.1 = plain.2 /\
  match r.1 with
  | Ok _ => depth r.2.2 = Some (f64_of_Z (len (state plain.2)))
  | Err e => e = QueueFull /\ depth r.2.2 = depth s.2 /\ plain.2 = set_state (queue s.1) (prune_expired (state (queue s.1)) now_ms)
  end.
Proof.
  unfold register, Turns.register. rewrite mthen_run, update_run. simpl.
  set (q0 := set_state (queue s.1) _). set (s0 := (mkRecorded q0 (timers s.1), s.2) : world).
  destruct (_ <? _).
  - rewrite mthen_run. destruct (enlist_run now_ms p d key s0) as (H1 & H2 & H3). simpl in *.
    destruct (enlist features label now_ms p d key s0) as [seq s1], (Turns.enlist q0 now_ms p d key) as [seq' q1]. simpl in *. by subst.
  - destruct (victim overflow _ p) as [v|].
    + rewrite mthen_run, update_run, mthen_run. simpl.
      match goal with |- context[queue_rejected ?a ?b ?c ?s1] =>
        destruct (mute_rejected c s1) as [Hr Hd]; destruct (queue_rejected a b c s1) as [[] s2] end.
      simpl in *. rewrite mthen_run. destruct (enlist_run now_ms p d key s2) as (H1 & H2 & H3). rewrite Hr in H1, H2, H3. simpl in *.
      destruct (enlist features label now_ms p d key s2) as [seq s3], (Turns.enlist (evict q0 v) now_ms p d key) as [seq' q1]. simpl in *. by subst.
    + rewrite mthen_run.
      match goal with |- context[queue_rejected ?a ?b ?c ?s1] =>
        destruct (mute_rejected c s1) as [Hr Hd]; destruct (queue_rejected a b c s1) as [[] s2] end.
      simpl in *. by rewrite Hr.
Qed.

Lemma conclude_run i instant cost r (s : world) :
  queue (conclude features label i instant cost r s).2.1 = set_task (queue s.1) i (Finished r) /\
  depth (conclude features label i instant cost r s).2.2 = depth s.2.
Proof.
  unfold conclude. rewrite mthen_run, update_run. destruct r as [result|]; [|done].
  match goal with |- context[waited features ?f KIND label ?t cost ?o ?s1] => destruct (mute_waited instant t cost o s1) as [H1 H2] end.
  simpl in *. by rewrite H1.
Qed.

(** *** Steps *)

Abbreviation step := (Turns.step inner capacity overflow).
Abbreviation recorded := (recorded_step features label inner capacity overflow).

(** A section that has just reported. *)
Lemma near_reported n (q : Turns.world (K := K) (I := I)) log :
  sound capacity n q -> depth log = Some (f64_of_Z (len (state q))) -> near q log.
Proof. intros Hs Hd. exists (len (state q)). split; [done|]. pose proof (waiters_in_calls n q Hs). lia. Qed.

(** One that has not, and has filed nobody and ended no call. *)
Lemma near_quiet (q q' : Turns.world (K := K) (I := I)) log log' :
  near q log -> depth log' = depth log -> len (state q') <= len (state q) -> in_calls (tasks q) <= in_calls (tasks q') -> near q' log'.
Proof. intros (d & Hd & Hl) Hlog H1 H2. exists d. rewrite Hlog. split; [done|]. lia. Qed.

Lemma len_pruned n (q : Turns.world (K := K) (I := I)) now_ms : sound capacity n q ->
  len (winner (state q) now_ms).2 <= len (state q).
Proof. intros Hs. exact (len_subset _ _ (quieter_waiters _ _ _ (quieter_winner n q now_ms (sound_wf _ _ _ Hs)))). Qed.

Lemma enter_ok n (s : world) i now_ms instant p d key cost :
  sound capacity n (queue s.1) -> n < u64_max -> tasks (queue s.1) !! i = Some Idle -> near (queue s.1) s.2 ->
  let s' := (enter features label capacity overflow i now_ms instant p d key cost s).2 in
  queue s'.1 = Turns.enter capacity overflow (queue s.1) i now_ms p d key cost /\ near (queue s'.1) s'.2.
Proof.
  intros Hs Hn Hi Hnear s'. subst s'.
  pose proof (sound_enter capacity overflow n (queue s.1) i now_ms p d key cost Hs Hn Hi) as Hs'.
  unfold enter. rewrite !mthen_run. simpl.
  match goal with |- context[register _ _ _ _ _ _ ?dl _ ?s0] =>
    destruct (register_run now_ms p dl key s0) as (H1 & H2 & H3); set (dl' := dl) in *; set (s1 := s0) in * end.
  unfold Turns.enter in Hs' |- *. fold dl' in Hs' |- *. simpl in H1, H2, H3.
  destruct (register features label capacity overflow now_ms p dl' key s1) as [r s2],
    (Turns.register capacity overflow (queue s.1) now_ms p dl' key) as [r' q2]. simpl in *. subst r' q2.
  destruct r as [seq|e].
  - rewrite update_run. simpl. split; [done|]. by eapply near_reported.
  - destruct H3 as (-> & H3 & H4). destruct (conclude_run i instant cost (Some (Err QueueFull)) s2) as [H5 H6].
    rewrite H5. split; [done|]. eapply near_quiet; [exact Hnear|by rewrite H6, H3|..].
    + simpl. rewrite H4. simpl. pose proof (len_pruned n (queue s.1) now_ms Hs) as Hl. by rewrite winner_pick in Hl.
    + rewrite (in_calls_task _ i Idle) by (by rewrite H4). rewrite H4. unfold in_call. simpl. lia.
Qed.

Lemma locked_ok n (s : world) i c now_ms :
  sound capacity n (queue s.1) -> n < u64_max -> tasks (queue s.1) !! i = Some (Locking c now_ms) -> near (queue s.1) s.2 ->
  let s' := (locked features label inner i c now_ms s).2 in
  queue s'.1 = Turns.locked inner (queue s.1) i c now_ms /\ near (queue s'.1) s'.2.
Proof.
  intros Hs Hn Hi Hnear s'. subst s'. pose proof (sound_locked inner capacity n (queue s.1) i c now_ms Hs Hn Hi) as Hs'.
  unfold locked, Turns.locked in *. rewrite mthen_run, on_queue_run. cbv beta.
  pose proof (len_pruned n (queue s.1) now_ms Hs) as Hl. destruct (winner (state (queue s.1)) now_ms) as [turn st]. simpl in Hl. cbn [fst snd].
  assert (Hmove : forall q' t', state q' = st -> tasks q' = tasks (queue s.1) -> call_of t' = Some c -> near (set_task q' i t') s.2).
  { intros q' t' Hst Hts Ht'. eapply near_quiet; [exact Hnear|done| |].
    - simpl. by rewrite Hst.
    - rewrite (in_calls_task q' i (Locking c now_ms)) by (by rewrite Hts). rewrite Hts. unfold in_call. rewrite Ht'. simpl. lia. }
  case_decide; [|rewrite update_run; split; [done|by apply Hmove]].
  rewrite mthen_run, on_queue_run. simpl in Hs' |- *.
  destruct (acquire_cost inner (c_cost c) (limiter (queue s.1))) as [[|after|] l]; simpl;
    [|rewrite ?update_run; split; [done|by apply Hmove]..].
  rewrite mthen_run, update_run, mthen_run. simpl.
  match goal with |- context[report_depth features label ?s0] => destruct (report_depth_run s0) as [H1 H2]; destruct (report_depth features label s0) as [[] s2] end.
  simpl in *. rewrite H1. split; [done|]. eapply near_reported; [exact Hs'|exact H2].
Qed.

Lemma leave_ok n (s : world) i c r now_ms instant :
  sound capacity n (queue s.1) -> n < u64_max -> tasks (queue s.1) !! i = Some (Leaving c r) ->
  let s' := ((let! _ := leave features label (c_seq c) now_ms in conclude features label i instant (c_cost c) r) s).2 in
  queue s'.1 = set_task (Turns.leave (queue s.1) (c_seq c) now_ms) i (Finished r) /\ near (queue s'.1) s'.2.
Proof.
  intros Hs Hn Hi s'. subst s'.
  pose proof (turns_sound_go inner capacity n (queue s.1) i _ now_ms _ Hs Hn Hi eq_refl) as Hs'.
  rewrite mthen_run. unfold leave. rewrite mthen_run, update_run. simpl.
  match goal with |- context[report_depth features label ?s0] => destruct (report_depth_run s0) as [H1 H2]; destruct (report_depth features label s0) as [[] s2] end.
  simpl in *. destruct (conclude_run i instant (c_cost c) r s2) as [H3 H4]. rewrite H3, H1. split; [done|].
  eapply near_reported; [exact Hs'|]. by rewrite H4, H2.
Qed.

(** Everywhere else a call goes from one place of its loop to another. *)
Lemma elsewhere_near (q : Turns.world (K := K) (I := I)) log i a now_ms :
  near q log ->
  match tasks q !! i, a with
  | Some Idle, Acquire _ _ _ _ | Some (Locking _ _), Go | Some (Leaving _ _), Go => False
  | _, _ => True
  end -> near (step q (i, a, now_ms)) log.
Proof.
  intros Hnear Ha. unfold Turns.step, act. cbn [fst snd]. destruct (tasks q !! i) as [t|] eqn:Hi; [|done].
  assert (Hmove : forall q' t' c, state q' = state q -> tasks q' = tasks q -> call_of t = Some c -> call_of t' = Some c ->
    near (set_task q' i t') log).
  { intros q' t' c Hst Hts Ht Ht'. eapply near_quiet; [exact Hnear|done| |].
    - simpl. by rewrite Hst.
    - rewrite (in_calls_task q' i t) by (by rewrite Hts). rewrite Hts. unfold in_call. rewrite Ht, Ht'. lia. }
  destruct t as [|c|c|c|c r|c d b|c r|r], a; try done; simpl; try by eapply Hmove.
  - destruct (signals q !! c_seq c) as [sg|]; [|done]. destruct (evicted sg); by eapply Hmove.
  - destruct (c_deadline c) as [dl|]; [destruct (dl <=? now_ms)|]; by eapply Hmove.
  - destruct (signals q !! c_seq c) as [sg|]; [|done]. destruct (notified sg); [by eapply Hmove|done].
Qed.

Lemma recorded_step_ok n (s : world) (a : nat * Action (K := K) * Z * Z) :
  sound capacity n (queue s.1) -> n < u64_max -> near (queue s.1) s.2 ->
  queue (recorded s a).1 = step (queue s.1) a.1 /\ near (queue (recorded s a).1) (recorded s a).2.
Proof.
  intros Hs Hn Hnear. destruct a as [[[i a] now_ms] instant]. unfold recorded_step. simpl.
  pose proof (elsewhere_near (queue s.1) s.2 i a now_ms Hnear) as Helse.
  destruct (tasks (queue s.1) !! i) as [t|] eqn:Hi; [|split; [done|by apply Helse]].
  assert (Hgo : forall now, tasks (queue s.1) !! i = Some t -> step (queue s.1) (i, Go, now) =
    default (queue s.1) (go inner (queue s.1) i t now)).
  { intros now Ht. unfold Turns.step, act. simpl. rewrite Ht. by destruct (go _ _ _ _ _). }
  destruct t as [|c|c|c|c r|c d b|c r|r], a as [p dl key cost| | | |]; try (split; [done|by apply Helse]).
  - unfold Turns.step, act. simpl. rewrite Hi. by apply (enter_ok n).
  - rewrite Hgo by done. by apply (locked_ok n).
  - rewrite Hgo by done. by apply (leave_ok n).
Qed.

Lemma recorded_run (schedule : list (nat * Action (K := K) * Z * Z)) (n : Z) (w : world) :
  sound capacity n (queue w.1) -> n + Z.of_nat (length schedule) <= u64_max -> near (queue w.1) w.2 ->
  queue (run recorded w schedule).1 = run step (queue w.1) (schedule.*1) /\
  near (queue (run recorded w schedule).1) (run recorded w schedule).2.
Proof.
  revert n w. induction schedule as [|a schedule IH]; intros n w Hs Hb Hnear; [done|].
  rewrite fmap_cons, !run_cons. simpl length in Hb. destruct (recorded_step_ok n w a Hs ltac:(lia) Hnear) as [H1 H2].
  rewrite <- H1. apply (IH (n + 1)); [|lia|done]. rewrite H1. apply turns_sound_step; [done|lia].
Qed.

End Gauge.

(** ** Properties *)

(** C25: The depth gauge is right up to the waiters that have expired without
    knowing it yet. Whatever the interleaving of calls, evictions, expiries
    and cancellations, the recording queue is the queue of Turns.v, and the
    gauge of its name shows no fewer than the waiters in the queue and no more
    than the calls in progress; so when no call is in progress it shows 0. *)
Theorem queue_gauge_near {K I : Type} `{Countable K} (features : Features) (label : Label) (inner : Limiter I) (capacity : Z)
    (overflow : Overflow) (l : I) (callers : nat) (log : list Emission) (schedule : list (nat * Action (K := K) * Z * Z)) :
  metrics features = true -> 0 <= capacity -> Z.of_nat (length schedule) <= u64_max ->
  let w := run (recorded_step features label inner capacity overflow) (initial_recorded features label capacity l callers log) schedule in
  let q := run (Turns.step inner capacity overflow) (Turns.initial capacity l callers) (schedule.*1) in
  queue w.1 = q /\
  exists d, gauge "throttle_queue_depth" [("name", shared label)] w.2 = Some (f64_of_Z d) /\
    len (state q) <= d <= in_calls (tasks q).
Proof.
  intros Hm Hc Hb w q. pose proof (turns_sound_initial (K := K) capacity l callers Hc) as Hs.
  assert (Hstart : queue (initial_recorded (K := K) features label capacity l callers log).1 = Turns.initial capacity l callers /\
    depth label (initial_recorded (K := K) features label capacity l callers log).2 = Some (f64_of_Z 0)).
  { unfold initial_recorded, queue_depth, when, emit. rewrite Hm. split; [done|]. simpl. unfold depth.
    by rewrite gauge_snoc, bool_decide_eq_true_2. }
  destruct Hstart as [Hq Hd]. rewrite <- Hq in Hs.
  destruct (recorded_run features label inner capacity overflow Hm schedule 0 _ Hs ltac:(lia)) as [H1 H2].
  { apply (near_reported features label capacity Hm 0 _ _ Hs). by rewrite Hd, Hq. }
  fold w in H1, H2. rewrite Hq in H1. split; [exact H1|]. rewrite H1 in H2. exact H2.
Qed.

(** ** Runs *)

(** Two callers; the second's deadline passes while it sleeps, the first finds
    it expired: one waiter, two calls, and the gauge at two until the second
    call ends. *)
Definition expiring : list (nat * Action (K := Z) * Z * Z) :=
  [((0%nat, Acquire 1 None 7 1, 0), 0); ((1%nat, Acquire 1 (Some (from_millis 5)) 8 1, 0), 0);
   ((0%nat, Go, 0), 0); ((0%nat, Go, 0), 0); ((0%nat, Go, 0), 0); ((0%nat, Go, 0), 0); ((0%nat, Elapse, 9), 9);
   ((0%nat, Go, 9), 9); ((0%nat, Go, 9), 9); ((0%nat, Go, 9), 9); ((0%nat, Go, 9), 9)].

Lemma queue_gauge_near_witness :
  let label := new (Borrowed "jobs") in
  let features := mkFeatures true false in
  let run schedule := run (recorded_step features label gate 4 Reject) (initial_recorded features label 4 0 2 []) schedule in
  let w := run expiring in
  len (state (queue w.1)) = 1 /\ in_calls (tasks (queue w.1)) = 2 /\
  gauge "throttle_queue_depth" [("name", "jobs")] w.2 = Some (f64_of_Z 2) /\
  exists d, gauge "throttle_queue_depth" [("name", "jobs")] w.2 = Some (f64_of_Z d) /\ 1 <= d <= 2.
Proof.
  intros label features run w. split; [vm_compute; reflexivity|]. split; [vm_compute; reflexivity|]. split; [vm_compute; reflexivity|].
  destruct (queue_gauge_near features label gate 4 Reject 0 2 [] expiring eq_refl ltac:(done) ltac:(vm_compute; congruence))
    as [_ (d & Hd & Hl)]. exists d. split; [exact Hd|]. vm_compute in Hl |- *. exact Hl.
Defined.
