(* ===== verification/Gauges.v ===== *)
(** * The state gauges (src/src/circuit.rs, adaptive.rs over src/src/obs.rs)

    The breaker's state machine and the limit of the adaptive limiter with
    what they report as they move. The breaker reports under its lock, so its
    gauge shows its state; the adaptive limiter reports after its
    compare-exchange, so that two of its reports may change places. *)

From stdpp Require Import strings gmap.
From S2P Require Import Prelude Decisions Float64 Obs.
From S2P Require Circuit Adaptive.

(** ** The circuit breaker *)

Module Breaker.
Import Circuit.

Definition KIND : string := "circuit_breaker".

(** The state's name and gauge code. *)
Definition describe (s : BreakerState) : string * Z :=
  match s with
  | Closed => ("Closed", 0)%string
  | HalfOpen => ("HalfOpen", 1)%string
  | Open => ("Open", 2)%string
  end.

Section Breaker.
Context (features : Features) (label : Label) (config : Config).
Abbreviation world := (Shared * list Emission)%type.

Definition update (f : Shared -> Shared) : M world unit := unrecorded (fun s => (tt, f s)).

(** [new] and [with_name], on a breaker that is in state [s]. *)
Definition named (s : Shared) : M world unit := fun w =>
  circuit_state features label None "Closed" (describe (state s)).2 (s, w.2).

Definition transition (from to : BreakerState) : M world unit :=
  let! _ := update (fun s => Circuit.transition s to) in
  let '(to_name, code) := describe to in
  circuit_state features label (Some (describe from).1) to_name code.

Definition reset : M world unit := fun w =>
  let from := state w.1 in
  (let! _ := update reset_counters in transition from Closed) w.

Definition admit_locked (now_ms : Z) : M world (Result Ticket Duration) := fun w =>
  let s := w.1 in
  match state s with
  | Closed => (Ok (mkTicket (generation s) false), w)
  | Open =>
      if open_until_ms s <=? now_ms then
        (let! _ := transition Open HalfOpen in
         let! _ := update (fun s => set_trials s 1 0 0) in
         fun w => (Ok (mkTicket (generation w.1) true), w)) w
      else (Err (from_millis (open_until_ms s - now_ms)), w)
  | HalfOpen =>
      if half_open_inflight s <? half_open_trials config then
        (let! _ := update (fun s => set_trials s (half_open_inflight s + 1) (trait_probes s) (half_open_successes s)) in
         fun w => (Ok (mkTicket (generation w.1) true), w)) w
      else (Err DURATION_ZERO, w)
  end.

Definition admit_as (now_ms : Z) (via_trait : bool) : M world (Result Ticket Duration) :=
  let! r := admit_locked now_ms in
  match r with
  | Err after => mret (Err after)
  | Ok ticket =>
      let! _ := if probe ticket && via_trait
                then update (fun s => set_trials s (half_open_inflight s) (sat_add u32_max (trait_probes s) 1) (half_open_successes s))
                else mret tt in
      mret (Ok ticket)
  end.

(** The caller's part of a refused admission. *)
Definition admit_or_shed (now_ms : Z) : M world (Result Ticket ThrottleError) :=
  let! r := admit_as now_ms false in
  match r with
  | Ok ticket => mret (Ok ticket)
  | Err after => let! _ := shed features KIND label in mret (Err (CircuitOpen after))
  end.

Definition open (now_ms : Z) : M world unit := fun w =>
  let from := state w.1 in
  (let! _ := update (fun s =>
     mkShared (state s) (generation s) (consecutive s) (outcomes s) (failure_times s) 0 0 0
       (sat_add u64_max now_ms (millis_or_max (cooldown config)))) in
   transition from Open) w.

Definition apply (success : bool) (now_ms : Z) (probe : bool) : M world unit := fun w =>
  match state w.1 with
  | HalfOpen =>
      (let! _ := if probe
                 then update (fun s => set_trials s (sat_sub (half_open_inflight s) 1) (trait_probes s) (half_open_successes s))
                 else mret tt in
       if success then
         let! _ := update (fun s => set_trials s (half_open_inflight s) (trait_probes s) (wrap32 (half_open_successes s + 1))) in
         fun w => if half_open_required config <=? half_open_successes w.1
                  then (let! _ := update reset_counters in transition HalfOpen Closed) w
                  else (tt, w)
       else open now_ms) w
  | Closed =>
      (let! _ := update (fun s => set_consecutive s (if success then 0 else sat_add u32_max (consecutive s) 1)) in
       let! _ := update (fun s => record_outcome s (negb success) now_ms (trip config)) in
       fun w => if negb success && tripped w.1 now_ms (trip config) then open now_ms w else (tt, w)) w
  | Open => (tt, w)
  end.

Definition settle (ticket : Ticket) (success : bool) (now_ms : Z) : M world unit := fun w =>
  if negb (generation w.1 =? t_generation ticket) then (tt, w) else apply success now_ms (probe ticket) w.

Definition record_manual (success : bool) (now_ms : Z) : M world unit := fun w =>
  let probe := bool_decide (state w.1 = HalfOpen) && (0 <? trait_probes w.1) in
  (let! _ := if probe
             then update (fun s => set_trials s (half_open_inflight s) (trait_probes s - 1) (half_open_successes s))
             else mret tt in
   apply success now_ms probe) w.

(** *** Runs *)

Inductive Op :=
  | Admit (now_ms : Z) (via_trait : bool)
  | AdmitOrShed (now_ms : Z)
  | Abort (ticket : Ticket) (via_trait : bool)
  | ReleaseProbe
  | Settle (ticket : Ticket) (success : bool) (now_ms : Z)
  | RecordManual (success : bool) (now_ms : Z)
  | Reset
  | Other (r : Report).          (* what anything else reports *)

Definition recorded_step (w : world) (op : Op) : world :=
  match op with
  | Admit now_ms via_trait => (admit_as now_ms via_trait w).2
  | AdmitOrShed now_ms => (admit_or_shed now_ms w).2
  | Abort ticket via_trait => (update (fun s => abort_as s ticket via_trait) w).2
  | ReleaseProbe => (update release_trait_probe w).2
  | Settle ticket success now_ms => (settle ticket success now_ms w).2
  | RecordManual success now_ms => (record_manual success now_ms w).2
  | Reset => (reset w).2
  | Other r => (Obs.report features r w).2
  end.

(** The same calls on the machine of Circuit.v. *)
Definition plain_step (s : Shared) (op : Op) : Shared :=
  match op with
  | Admit now_ms via_trait => (Circuit.admit_as config s now_ms via_trait).2
  | AdmitOrShed now_ms => (Circuit.admit_ config s now_ms).2
  | Abort ticket via_trait => abort_as s ticket via_trait
  | ReleaseProbe => release_trait_probe s
  | Settle ticket success now_ms => Circuit.settle config s ticket success now_ms
  | RecordManual success now_ms => Circuit.record_manual config s success now_ms
  | Reset => Circuit.reset s
  | Other _ => s
  end.

(** Other breakers have other names. *)
Definition op_ok (op : Op) : Prop :=
  match op with Other (CircuitState l _ _ _) => shared l <> shared label | _ => True end.

(** *** The gauge *)

(** The gauge of this breaker's name shows its state. *)
Definition shows (w : world) : Prop :=
  metrics features = true ->
  gauge "throttle_circuit_state" (by_name label) w.2 = Some (f64_of_Z (describe (state w.1)).2).

Definition told (from : option string) (to : BreakerState) (log : list Emission) : list Emission :=
  (circuit_state features label from (describe to).1 (describe to).2 (tt, log)).2.2.

Lemma circuit_state_run {V} from to code (v : V) log :
  circuit_state features label from to code (v, log) =
    (tt, (v, (circuit_state features label from to code (tt, log)).2.2)).
Proof.
  unfold circuit_state, when, emit. destruct (metrics features), (tracing features), from; rewrite ?mthen_run; reflexivity.
Qed.

Lemma gauge_circuit_state from to code log : metrics features = true ->
  gauge "throttle_circuit_state" (by_name label) (circuit_state features label from to code (tt, log)).2.2 = Some (f64_of_Z code).
Proof.
  intros Hm. unfold circuit_state, when, emit. rewrite Hm.
  destruct (tracing features), from; rewrite ?mthen_run; simpl; rewrite ?gauge_snoc; by rewrite bool_decide_eq_true_2.
Qed.

Lemma transition_run from to w :
  transition from to w = (tt, (Circuit.transition w.1 to, told (Some (describe from).1) to w.2)).
Proof. unfold transition. rewrite mthen_run. destruct to; simpl; by rewrite circuit_state_run. Qed.

Lemma shows_told from s to log : state s = to -> shows (s, told from to log).
Proof. intros Hs Hm. simpl. rewrite Hs. by apply gauge_circuit_state. Qed.

Lemma shows_same w s : shows w -> state s = state w.1 -> shows (s, w.2).
Proof. intros Hw Hs Hm. simpl. rewrite Hs. by apply Hw. Qed.

(** A recorded call is the plain one, and leaves the gauge right. *)
Definition follows {A} (m : M world A) (f : Shared -> A * Shared) : Prop :=
  forall w, shows w -> (m w).1 = (f w.1).1 /\ (m w).2.1 = (f w.1).2 /\ shows (m w).2.

Lemma follows_update f : (forall s, state (f s) = state s) -> follows (update f) (fun s => (tt, f s)).
Proof. intros Hf w Hw. split_and!; [done..|]. by apply shows_same. Qed.

Lemma follows_admit_locked now_ms : follows (admit_locked now_ms) (fun s => Circuit.admit_locked config s now_ms).
Proof.
  intros w Hw. unfold admit_locked, Circuit.admit_locked. destruct (state w.1) eqn:Es.
  - done.
  - destruct (_ <=? _); [|done]. rewrite !mthen_run, transition_run. simpl. split_and!; [done..|]. by apply shows_told.
  - destruct (_ <? _); [|done]. rewrite mthen_run. simpl. split_and!; [done..|]. by apply shows_same.
Qed.

Lemma follows_admit_as now_ms via_trait :
  follows (admit_as now_ms via_trait) (fun s => Circuit.admit_as config s now_ms via_trait).
Proof.
  intros w Hw. unfold admit_as, Circuit.admit_as. rewrite mthen_run.
  destruct (follows_admit_locked now_ms w Hw) as (H1 & H2 & H3).
  destruct (admit_locked now_ms w) as [r w'], (Circuit.admit_locked config w.1 now_ms) as [r' s]. simpl in *. subst r' s.
  destruct r as [ticket|after]; [|done]. rewrite mthen_run. destruct (probe ticket && via_trait); simpl; [|done].
  split_and!; [done..|]. by apply shows_same.
Qed.

Lemma follows_open now_ms : follows (open now_ms) (fun s => (tt, Circuit.open config s now_ms)).
Proof.
  intros w Hw. unfold open. rewrite mthen_run, transition_run. simpl. split_and!; [done..|]. by apply shows_told.
Qed.

Lemma follows_apply success now_ms probe :
  follows (apply success now_ms probe) (fun s => (tt, Circuit.apply config s success now_ms probe)).
Proof.
  intros w Hw. unfold apply, Circuit.apply. destruct (state w.1) eqn:Es.
  - rewrite !mthen_run. simpl.
    set (s := record_outcome _ _ _ _).
    assert (Hs : state s = state w.1) by (unfold s, record_outcome; by destruct (trip config)).
    destruct (negb success && _); [|split_and!; [done..|by apply shows_same]].
    apply (follows_open now_ms (s, w.2)). by apply shows_same.
  - done.
  - rewrite mthen_run.
    set (s := if probe then set_trials _ _ _ _ else w.1).
    assert (Hs : state s = state w.1) by (unfold s; by destruct probe).
    replace ((if probe then _ else _) w) with (tt, (s, w.2)) by (unfold s; destruct probe; [done|by destruct w]). simpl.
    assert (Hs' : shows (s, w.2)) by by apply shows_same.
    destruct success; [|by apply (follows_open now_ms (s, w.2))].
    rewrite mthen_run. simpl. destruct (_ <=? _); [|split_and!; [done..|by apply (shows_same (s, w.2))]].
    rewrite mthen_run, transition_run. simpl. split_and!; [done..|]. by apply shows_told.
Qed.

Lemma follows_settle ticket success now_ms :
  follows (settle ticket success now_ms) (fun s => (tt, Circuit.settle config s ticket success now_ms)).
Proof. intros w Hw. unfold settle, Circuit.settle. destruct (negb _); [done|by apply follows_apply]. Qed.

Lemma follows_record success now_ms :
  follows (record_manual success now_ms) (fun s => (tt, Circuit.record_manual config s success now_ms)).
Proof.
  intros w Hw. unfold record_manual, Circuit.record_manual. rewrite mthen_run.
  destruct (bool_decide _ && _); [|by apply follows_apply].
  apply (follows_apply success now_ms true (_, w.2)). by apply shows_same.
Qed.

Lemma follows_reset : follows reset (fun s => (tt, Circuit.reset s)).
Proof.
  intros w Hw. unfold reset. rewrite mthen_run, transition_run. simpl. split_and!; [done..|]. by apply shows_told.
Qed.

(** Reports that are not this breaker's. *)
Lemma gauge_report (r : Report) (w : world) : op_ok (Other r) ->
  (Obs.report features r w).2.1 = w.1 /\
  gauge "throttle_circuit_state" (by_name label) (Obs.report features r w).2.2 =
  gauge "throttle_circuit_state" (by_name label) w.2.
Proof.
  intros Hr. destruct r; simpl in *; unfold shed, circuit_state, queue_depth, queue_rejected, adaptive_limit, retried,
      retry_budget_exhausted, when, emit;
    destruct (metrics features), (tracing features); try destruct from; try destruct (negb _); rewrite ?mthen_run; simpl; unfold mret; simpl;
    (split; [done|]); rewrite ?gauge_snoc; try done; rewrite bool_decide_eq_false_2; try done; unfold by_name; naive_solver.
Qed.

Lemma shows_report r w : op_ok (Other r) -> shows w -> (Obs.report features r w).2.1 = w.1 /\ shows (Obs.report features r w).2.
Proof.
  intros Hr Hw. destruct (gauge_report r w Hr) as [H1 H2]. split; [done|]. intros Hm. rewrite H1, H2. by apply Hw.
Qed.

Lemma follows_step op w : op_ok op -> shows w ->
  (recorded_step w op).1 = plain_step w.1 op /\ shows (recorded_step w op).
Proof.
  intros Hok Hw. destruct op as [now_ms via_trait|now_ms|ticket via_trait| |ticket success now_ms|success now_ms| |r]; cbn [recorded_step plain_step].
  - by apply follows_admit_as.
  - unfold admit_or_shed, admit_. rewrite mthen_run. destruct (follows_admit_as now_ms false w Hw) as (H1 & H2 & H3).
    destruct (admit_as now_ms false w) as [[ticket|after] w']; [done|]. cbn [fst snd]. rewrite mthen_run. simpl in *. rewrite <- H2.
    by apply (shows_report (Shed KIND label)).
  - split; [done|]. apply shows_same; [done|]. unfold abort_as. by repeat case_match.
  - split; [done|]. apply shows_same; [done|]. unfold release_trait_probe. by case_match.
  - by apply follows_settle.
  - by apply follows_record.
  - by apply follows_reset.
  - by apply shows_report.
Qed.

Lemma follows_run ops w : Forall op_ok ops -> shows w ->
  (run recorded_step w ops).1 = run plain_step w.1 ops /\ shows (run recorded_step w ops).
Proof.
  intros Hops. revert w. induction Hops as [|op ops Hop _ IH]; intros w Hw; [done|].
  rewrite !run_cons. destruct (follows_step op w Hop Hw) as [H1 H2]. destruct (IH _ H2) as [H3 H4]. by rewrite H3, H1.
Qed.

End Breaker.
End Breaker.

(** ** The adaptive limit *)

Module AdaptiveGauge.
Import Adaptive.

Section Recorded.
Context {S : Type} (adjust : AdaptiveStrategy S) (features : Features) (label : Label).

(** The accesses of Adaptive.v, the reports that callers still owe after
    their compare-exchange, and what has been recorded. *)
Record world := mkWorld { accesses : Adaptive.world S; owed : gmap nat (Z * Z); recorded : list Emission }.

Inductive Step := Access (a : Action) | Tell.

(** The limit as caller [i]'s access leaves it, if it is that caller's
    compare-exchange that has moved it. *)
Definition moved (w w' : Adaptive.world S) (i : nat) : option (Z * Z) :=
  match pool w !! i with
  | Some (Moving _ _ current) =>
      if limit (shared w') =? limit (shared w) then None else Some (current, limit (shared w'))
  | _ => None
  end.

(** A caller that owes a report has only its [fetch_add] before it. *)
Definition step (w : world) (s : nat * Step) : world :=
  match s.2 with
  | Access a =>
      let free := match owed w !! s.1, pool (accesses w) !! s.1 with
                  | None, _ | Some _, Some Bumping => true
                  | _, _ => false
                  end in
      if free then
        let w' := Adaptive.step adjust (accesses w) (s.1, a) in
        mkWorld w' match moved (accesses w) w' s.1 with
                   | Some change => <[s.1 := change]> (owed w)
                   | None => owed w
                   end (recorded w)
      else w
  | Tell =>
      match owed w !! s.1, pool (accesses w) !! s.1 with
      | None, _ | _, None | _, Some Bumping => w
      | Some (old, new), Some _ =>
          mkWorld (accesses w) (delete s.1 (owed w)) (adaptive_limit features label old new (tt, recorded w)).2.2
      end
  end.

(** [AdaptiveLimiter::new] *)
Definition initial (l : AdaptiveLimiter S) (callers : nat) : world :=
  mkWorld (Adaptive.initial l callers) ∅ (adaptive_limit features label (limit l) (limit l) (tt, [])).2.2.

End Recorded.
Arguments world : clear implicits.

(** Two callers at the limit: the first succeeds and raises it, the second
    then fails and halves it, and reports first. *)
Definition overtaken : list (nat * Step) :=
  let go i n := replicate n (i, Access (Go false)) in
  ((0, Access Acquire) :: go 0 4 ++ (1, Access Acquire) :: go 1 4 ++
   (0, Access (Adaptive.Report (Success 1))) :: go 0 3 ++
   (1, Access (Adaptive.Report Failure)) :: go 1 5 ++ (1, Tell) :: go 1 2 ++ (0, Tell) :: go 0 2)%nat.

End AdaptiveGauge.

(** ** Properties *)

(** C24: A breaker's state gauge always shows its state. From its construction or
    its renaming on, through any admissions, reports, aborts, releases and
    resets in any order, among any reports of anything that has another name:
    the recording machine is the machine of Circuit.v, and the last reading
    under the breaker's name is the code of the state it is in. *)
Theorem breaker_gauge_exact (features : Features) (label : Label) (config : Circuit.Config)
    (s : Circuit.Shared) (log : list Emission) (ops : list Breaker.Op) :
  metrics features = true -> Forall (Breaker.op_ok label) ops ->
  let w := run (Breaker.recorded_step features label config) (Breaker.named features label s (s, log)).2 ops in
  w.1 = run (Breaker.plain_step config) s ops /\
  gauge "throttle_circuit_state" [("name", shared label)] w.2 =
    Some (f64_of_Z (Breaker.describe (Circuit.state w.1)).2).
Proof.
  intros Hm Hops w.
  assert (H0 : Breaker.shows features label (Breaker.named features label s (s, log)).2).
  { unfold Breaker.named. rewrite Breaker.circuit_state_run. intros _. simpl. by apply Breaker.gauge_circuit_state. }
  destruct (Breaker.follows_run features label config ops _ Hops H0) as [H1 H2]. fold w in H1, H2.
  split; [|by apply H2]. rewrite H1. f_equal. unfold Breaker.named. by rewrite Breaker.circuit_state_run.
Qed.

(** Trips at its second failure, and recovers. *)
Lemma breaker_gauge_exact_witness :
  let config := Circuit.mkConfig (Circuit.Consecutive 2) (from_millis 100) 1 1 in
  let label := new (Borrowed "payments") in
  let features := mkFeatures true true in
  let run ops := run (Breaker.recorded_step features label config)
    (Breaker.named features label Circuit.Shared_new (Circuit.Shared_new, [])).2 ops in
  let trip := [Breaker.RecordManual false 1; Breaker.RecordManual false 2; Breaker.AdmitOrShed 3] in
  gauge "throttle_circuit_state" [("name", "payments")] (run trip).2 = Some (f64_of_Z 2) /\
  gauge "throttle_circuit_state" [("name", "payments")]
    (run (trip ++ [Breaker.Admit 102 true; Breaker.RecordManual true 103])).2 = Some (f64_of_Z 0).
Proof.
  intros config label features run trip. split.
  - refine (proj2 (breaker_gauge_exact features label config Circuit.Shared_new [] trip eq_refl _)); repeat constructor.
  - refine (proj2 (breaker_gauge_exact features label config Circuit.Shared_new []
      (trip ++ [Breaker.Admit 102 true; Breaker.RecordManual true 103]) eq_refl _)); repeat constructor.
Defined.

(** The adaptive limiter's gauge may stay behind: two callers move the limit,
    the first to move it reports last, and when everything is done the gauge
    shows a limit that is no longer in force. *)
Theorem limit_gauge_left_behind :
  let l := Adaptive.new Adaptive.half 1 4 2 in
  let w := run (AdaptiveGauge.step Adaptive.aimd_adjust (mkFeatures true false) none)
    (AdaptiveGauge.initial (mkFeatures true false) none l 2) AdaptiveGauge.overtaken in
  Adaptive.pool (AdaptiveGauge.accesses w) = [Adaptive.Idle; Adaptive.Idle] /\ AdaptiveGauge.owed w = ∅ /\
  Adaptive.limit (Adaptive.shared (AdaptiveGauge.accesses w)) = 1 /\
  gauge "throttle_rate_current" [("name", "default")] (AdaptiveGauge.recorded w) = Some (f64_of_Z 3).
Proof. vm_compute. repeat split; reflexivity. Qed.
