(* ===== verification/Tower.v ===== *)
(** * Tower (tower.rs)

    Middleware services: [poll_ready] waits for an admission and keeps it,
    [call] hands it to one request of the inner service, dropping the service
    gives it back. The machine is shared by the layers; each brings its own
    acquiring future and what it holds. *)

From S2P Require Import Prelude Decisions Limiter Compose Wait Client Boxed Calls.
From S2P Require Circuit.

(** ** Admissions *)

Inductive Admission (F T : Type) := Idle | Acquiring (acquiring : F) | Held (held : T).
Arguments Idle {F T}. Arguments Acquiring {F T}. Arguments Held {F T}.

(** [BoxError]: the middleware's own error, or the inner service's. *)
Inductive BoxError (E : Type) := OwnError (e : ThrottleError) | InnerError (e : E).
Arguments OwnError {E}. Arguments InnerError {E}.

Section Admission.
Context {W F T : Type}.
(** Building the acquiring future, polling it, dropping it, and dropping what
    it resolved to. *)
Context (start : M W F) (poll : F -> M W (F * option (Result T ThrottleError))).
Context (cancel : F -> M W unit) (drop_held : T -> M W unit).
Abbreviation admission := (Admission F T).

(** The loop of [poll_acquire]; [started] says that [start] has been taken.
    It starts, polls and returns, so three rounds are enough. *)
Fixpoint poll_acquire_loop (rounds : nat) (self : admission) (started : bool)
    : M W (admission * option (Result unit ThrottleError)) :=
  match rounds with
  | O => mret (self, None)
  | S rounds =>
      match self with
      | Held _ => mret (self, Some (Ok tt))
      | Idle =>
          if started then mret (Idle, Some (Err NotReady))
          else let! acquiring := start in poll_acquire_loop rounds (Acquiring acquiring) true
      | Acquiring acquiring =>
          let! (acquiring, r) := poll acquiring in
          match r with
          | None => mret (Acquiring acquiring, None)
          | Some (Ok held) => poll_acquire_loop rounds (Held held) started
          | Some (Err error) => mret (Idle, Some (Err error))
          end
      end
  end.

Definition poll_acquire (self : admission) : M W (admission * option (Result unit ThrottleError)) :=
  poll_acquire_loop 3 self false.

(** [Admission::take] *)
Definition take (self : admission) : option T * admission :=
  match self with
  | Held held => (Some held, Idle)
  | other => (None, other)
  end.

Definition drop_admission (self : admission) : M W unit :=
  match self with
  | Idle => mret tt
  | Acquiring acquiring => cancel acquiring
  | Held held => drop_held held
  end.

(** *** The service around an inner one *)

Section Service.
Context {E R P : Type}.
Context (inner_ready : M W (option (Result unit E))) (inner_call : M W R).
(** What of the held value goes with the request. *)
Context (project : T -> option P).

Definition poll_ready (self : admission) : M W (admission * option (Result unit (BoxError E))) :=
  let! (self, r) := poll_acquire self in
  match r with
  | None => mret (self, None)
  | Some (Err error) => mret (self, Some (Err (OwnError error)))
  | Some (Ok _) =>
      let! r := inner_ready in
      mret (self, match r with
                  | None => None
                  | Some (Ok _) => Some (Ok tt)
                  | Some (Err e) => Some (Err (InnerError e))
                  end)
  end.

(** [call], up to its response future: [None] is the future that resolves to
    [NotReady]; otherwise what was held goes with the response. *)
Definition call (self : admission) : M W (option (P * R) * admission) :=
  match take self with
  | (None, self) => mret (None, self)
  | (Some held, self) =>
      match project held with
      | None => mret (None, self)
      | Some p => let! response := inner_call in mret (Some (p, response), self)
      end
  end.

End Service.

(** Three rounds are enough, and the loop never finds itself idle after it
    has started a future. *)
Lemma poll_acquire_enough n self w :
  poll_acquire_loop (3 + n) self false w = poll_acquire self w /\
  ((poll_acquire self w).1.2 = Some (Err NotReady) -> exists f w', (poll f w').1.2 = Some (Err NotReady)).
Proof.
  unfold poll_acquire. destruct self as [|f|t]; simpl; unfold mthen; [destruct (start w) as [f w1]| |done].
  - destruct (poll f w1) as [[f' [[t|e]|]] w2] eqn:E; simpl; try done.
    split; [done|]. intros [= ->]. exists f, w1. by rewrite E.
  - destruct (poll f w) as [[f' [[t|e]|]] w2] eqn:E; simpl; try done.
    split; [done|]. intros [= ->]. exists f, w. by rewrite E.
Qed.

End Admission.

(** ** The throttling layer *)

Section Throttled.
Context {W : Type} (limiter : Limiter W) (cost : Z) (timeout : option Duration).
Context (instant_now resume_epoch : W -> Z) (instant_max : Z).

Record Units := mkUnits { spent : bool }.

Definition units_drop (u : Units) : M W unit := if spent u then mret tt else refund limiter cost.

(** [spend] marks the units and drops them. *)
Definition spend (u : Units) : M W unit := units_drop (mkUnits true).

Abbreviation item := [(limiter, cost)].

Definition wait_result (r : Result unit Refusal) : Result Units ThrottleError :=
  match r with
  | Ok _ => Ok (mkUnits false)
  | Err RefusalNever => Err (CostExceedsCapacity cost (capacity limiter))
  | Err RefusalTimedOut => Err DeadlineExceeded
  end.

(** The future of [wait], over one item, and of the block around it. *)
Definition wait_start : M W (Waiting Progress) := start_boxed instant_now instant_max timeout Progress_new.

Definition wait_poll (rounds : nat) (f : Waiting Progress)
    : M W (Waiting Progress * option (Result Units ThrottleError)) :=
  let! f := poll_boxed instant_now resume_epoch (step_all instant_now instant_max item) (release_all item)
              (paused_all item) rounds f in
  mret (f, match phase (engine f) with Done r => Some (wait_result r) | _ => None end).

Definition wait_cancel : Waiting Progress -> M W unit := drop_boxed (release_all item).

(** [call]: the units are spent once the inner service has taken the request. *)
Definition throttled_call {R} (inner_call : M W R) (self : Admission (Waiting Progress) Units)
    : M W (option R * Admission (Waiting Progress) Units) :=
  let! (r, self) := call inner_call Some self in
  match r with
  | None => mret (None, self)
  | Some (units, response) => let! _ := spend units in mret (Some response, self)
  end.

End Throttled.

Record ThrottleLayer (W : Type) := mkLayer { l_limiter : Limiter W; l_cost : Z; l_timeout : option Duration }.
Arguments mkLayer {W}. Arguments l_limiter {W}. Arguments l_cost {W}. Arguments l_timeout {W}.

Definition shared {W} (limiter : Limiter W) : ThrottleLayer W := mkLayer limiter 1 None.
Definition new {W} (limiter : Limiter W) : ThrottleLayer W := shared limiter.
Definition with_cost {W} (self : ThrottleLayer W) (cost : Z) : ThrottleLayer W :=
  mkLayer (l_limiter self) cost (l_timeout self).
Definition with_timeout {W} (self : ThrottleLayer W) (timeout : Duration) : ThrottleLayer W :=
  mkLayer (l_limiter self) (l_cost self) (Some timeout).

(** ** What an acquiring future promises the service *)

(** [Waits base f s]: [f] is pending and dropping it would leave the books at
    [base]; what it resolves to is worth [gain]. *)
Class Acquires {W F T} (start : M (W * list event) F)
    (poll : F -> M (W * list event) (F * option (Result T ThrottleError)))
    (cancel : F -> M (W * list event) unit) (drop_held : T -> M (W * list event) unit)
    (Waits : (nat -> Z) -> F -> W * list event -> Prop) (gain : T -> nat -> Z) : Prop := {
  acq_start base s : (forall who, outstanding s.2 who = base who) -> Waits base (start s).1 (start s).2;
  acq_poll base f s : Waits base f s ->
    let '((f', r), s') := poll f s in
    match r with
    | None => Waits base f' s'
    | Some (Ok held) => forall who, outstanding s'.2 who = base who + gain held who
    | Some (Err _) => forall who, outstanding s'.2 who = base who
    end;
  acq_cancel base f s : Waits base f s -> forall who, outstanding (cancel f s).2.2 who = base who;
  acq_drop held : moves (drop_held held) (fun _ who => - gain held who);
  acq_env base f s s' : Waits base f s -> others s s' -> Waits base f s' }.

Section Accounts.
Context {W F T P E R : Type}.
Abbreviation world := (W * list event)%type.
Context (start : M world F) (poll : F -> M world (F * option (Result T ThrottleError))).
Context (cancel : F -> M world unit) (drop_held : T -> M world unit).
Context (Waits : (nat -> Z) -> F -> world -> Prop) (gain : T -> nat -> Z).
Context `{HA : !Acquires start poll cancel drop_held Waits gain}.
Context (inner_ready : M world (option (Result unit E))) (inner_call : M world R).
Context (project : T -> option P) (worth : P -> nat -> Z).
Context (Hproject : forall t who, gain t who = match project t with Some p => worth p who | None => 0 end).
(** The inner service has books of its own. *)
Context (Hready : forall s, others s (inner_ready s).2) (Hcall : forall s, others s (inner_call s).2).

(** What an admission is worth on the books. *)
Definition accounted (base : nat -> Z) (a : Admission F T) (s : world) : Prop :=
  match a with
  | Idle => forall who, outstanding s.2 who = base who
  | Acquiring f => Waits base f s
  | Held t => forall who, outstanding s.2 who = base who + gain t who
  end.

Lemma accounted_env base a s s' : accounted base a s -> others s s' -> accounted base a s'.
Proof.
  intros Ha Hs. destruct a; simpl in *; [|by eapply acq_env|]; intros who; by rewrite Hs.
Qed.

Lemma accounted_loop base rounds a started s : accounted base a s ->
  accounted base (poll_acquire_loop start poll rounds a started s).1.1 (poll_acquire_loop start poll rounds a started s).2.
Proof.
  revert a started s. induction rounds as [|rounds IH]; intros a started s Ha; [done|]. simpl.
  destruct a as [|f|t]; [destruct started; [done|]| |done].
  - rewrite mthen_run. apply IH. by apply (acq_start (Acquires := HA)).
  - rewrite mthen_run. pose proof (acq_poll (Acquires := HA) base f s Ha) as Hp.
    destruct (poll f s) as [[f' [[t|e]|]] s']; simpl; [by apply IH|done|done].
Qed.

Lemma accounted_ready base a s : accounted base a s ->
  accounted base (poll_ready start poll inner_ready a s).1.1 (poll_ready start poll inner_ready a s).2.
Proof.
  intros Ha. unfold poll_ready. rewrite mthen_run. pose proof (accounted_loop base 3 a false s Ha) as Hl.
  fold (poll_acquire start poll a) in Hl. destruct (poll_acquire start poll a s) as [[a' [[u|e]|]] s']; simpl in *; [|done..].
  rewrite mthen_run. simpl. eapply accounted_env; [exact Hl|apply Hready].
Qed.

Lemma accounted_drop base a s : accounted base a s ->
  forall who, outstanding (drop_admission cancel drop_held a s).2.2 who = base who.
Proof.
  intros Ha who. destruct a as [|f|t]; simpl in *; [done|by apply (acq_cancel (Acquires := HA))|].
  rewrite (acq_drop (Acquires := HA) t s who), Ha. lia.
Qed.

(** A service used by its caller, among everything else: its admission, what
    went with the requests it sent, the world. *)
Inductive serves (s0 : world) : Admission F T -> list P -> world -> Prop :=
  | sv_new : serves s0 Idle [] s0
  | sv_ready a sent s : serves s0 a sent s ->
      serves s0 (poll_ready start poll inner_ready a s).1.1 sent (poll_ready start poll inner_ready a s).2
  | sv_call a sent s : serves s0 a sent s ->
      let r := call inner_call project a s in
      serves s0 r.1.2 (match r.1.1 with Some (p, _) => p :: sent | None => sent end) r.2
  | sv_env a sent s s' : serves s0 a sent s -> others s s' -> serves s0 a sent s'.

Lemma serves_accounted s0 a sent s : serves s0 a sent s ->
  accounted (fun who => outstanding s0.2 who + sum_with (fun p => worth p who) sent) a s.
Proof.
  induction 1 as [|a sent s _ IH|a sent s _ IH r|a sent s s' _ IH Hs].
  - intros who. unfold sum_with. simpl. lia.
  - by apply accounted_ready.
  - subst r. unfold call. destruct a as [|f|t]; simpl; [done|done|]. simpl in IH.
    destruct (project t) as [p|] eqn:Ep; simpl.
    + rewrite mthen_run. simpl. intros who. rewrite (Hcall s), sum_with_cons, IH, Hproject, Ep. lia.
    + intros who. rewrite IH, Hproject, Ep. lia.
  - by eapply accounted_env.
Qed.

(** Everything held and sent is as the future made it. *)
Lemma serves_good (good : T -> Prop) s0 a sent s :
  (forall f s t, (poll f s).1.2 = Some (Ok t) -> good t) -> serves s0 a sent s ->
  match a with Held t => good t | _ => True end /\ Forall (fun p => exists t, good t /\ project t = Some p) sent.
Proof.
  intros Hgood. assert (Hloop : forall rounds a started s, match a with Held t => good t | _ => True end ->
    match (poll_acquire_loop start poll rounds a started s).1.1 with Held t => good t | _ => True end).
  { induction rounds as [|rounds IH]; intros a0 started s1 Ha; [done|]. simpl.
    destruct a0 as [|f|t]; [destruct started; [done|rewrite mthen_run; by apply IH]| |done].
    rewrite mthen_run. pose proof (Hgood f s1) as Hf. destruct (poll f s1) as [[f' [[t|e]|]] s']; simpl in *; [|done..].
    apply IH. by apply Hf. }
  induction 1 as [|a sent s _ [IH1 IH2]|a sent s _ [IH1 IH2] r|a sent s s' _ IH Hs]; [done| | |done].
  - split; [|done]. unfold poll_ready. rewrite mthen_run. pose proof (Hloop 3%nat a false s IH1) as Hl.
    fold (poll_acquire start poll a) in Hl. destruct (poll_acquire start poll a s) as [[a' [[u|e]|]] s']; simpl in *; [|done..].
    rewrite mthen_run. by destruct (inner_ready s').1.
  - subst r. unfold call. destruct a as [|f|t]; simpl; [done..|]. destruct (project t) as [p|] eqn:Ep; simpl; [|done].
    rewrite mthen_run. simpl. split; [done|]. constructor; [eauto|done].
Qed.

End Accounts.

(** ** The books of the throttling layer *)

Section ThrottledAccounts.
Context {W : Type} (i : nat) (l : Limiter W) (cost : Z) (timeout : option Duration).
Context (instant_now resume_epoch : W -> Z) (instant_max : Z) (rounds : nat).
Abbreviation world := (W * list event)%type.
Abbreviation clock := (fun s : world => instant_now s.1).
Abbreviation epochs := (fun s : world => resume_epoch s.1).
Abbreviation cs := ([(i, l, cost)] : named W).

Lemma ledger_all base p (s : world) who : ledger_inv cs base OwnsAll p s ->
  outstanding s.2 who = base who + delta who (Took i cost).
Proof.
  intros [Hh Hl]. rewrite Hl. unfold Compose.taken. destruct (Compose.held p); simpl in Hh; try discriminate.
  rewrite share_cons, share_nil. lia.
Qed.

Lemma ledger_nothing base p (s : world) who : ledger_inv cs base OwnsNothing p s -> outstanding s.2 who = base who.
Proof.
  intros [Hh Hl]. rewrite Hl. unfold Compose.taken. destruct (Compose.held p); simpl in Hh; try discriminate. lia.
Qed.

#[export] Instance throttled_acquires :
  Acquires (wait_start timeout clock instant_max)
    (wait_poll (instrument i l) cost clock epochs instant_max rounds) (wait_cancel (instrument i l) cost)
    (units_drop (instrument i l) cost) (fun base => pending (ledger_inv cs base))
    (fun u who => if spent u then 0 else delta who (Took i cost)).
Proof.
  pose proof (fun base => composite_ownership instant_now instant_max cs base) as HO.
  constructor.
  - intros base s Hs. split; [|done]. split; [done|]. intros who. rewrite Hs. unfold Compose.taken. simpl. lia.
  - intros base f s Hf. unfold wait_poll. rewrite mthen_run.
    pose proof (poll_boxed_owned clock epochs _ _ _ others (ledger_inv cs base) rounds f s Hf) as Hp.
    change (items_of cs) with [(instrument i l, cost)] in *.
    destruct (poll_boxed _ _ _ _ _ rounds f s) as [f' s']. cbn [fst snd mret] in *.
    destruct (phase (engine f')) as [| |a|[[]|[]]|]; try exact Hp; simpl; intros who;
      [by eapply ledger_all|by eapply ledger_nothing..].
  - intros base f s Hf who.
    destruct (drop_boxed_owned (step_all clock instant_max (items_of cs)) (release_all (items_of cs)) (paused_all (items_of cs))
      others (ledger_inv cs base) f s Hf) as [p Hp]. by eapply ledger_nothing.
  - intros u. unfold units_drop. destruct (spent u); [by apply moves_ret|]. apply moves_refund.
  - intros base f s s' Hf Hs. by eapply (pending_env clock epochs).
Qed.

End ThrottledAccounts.

(** ** The circuit-breaker layer *)

Section Guarded.
Context {W : Type} (inner : Limiter W) (config : Circuit.Config) (timeout : option Duration).
Context (shared_at : W -> Circuit.Shared) (set_shared : Circuit.Shared -> W -> W) (now_ms : W -> Z).
Context (instant_now resume_epoch : W -> Z) (instant_max : Z).

Definition HeldPermit : Type := option Circuit.Permit.

(** The future the layer boxes is [acquire_owned], its permit held until the
    request is sent. *)
Definition guarded_start : M W AdmitWait :=
  admit_start config shared_at set_shared now_ms instant_now instant_max timeout.

Definition guarded_poll (rounds : nat) (f : AdmitWait) : M W (AdmitWait * option (Result HeldPermit ThrottleError)) :=
  let! (f, r) := acquire_poll inner shared_at set_shared now_ms instant_now resume_epoch rounds f in
  mret (f, match r with
           | Some (Ok permit) => Some (Ok (Some permit))
           | Some (Err error) => Some (Err error)
           | None => None
           end).

Definition guarded_cancel : AdmitWait -> M W unit := admit_cancel inner shared_at set_shared.

Definition held_permit_drop (held : HeldPermit) : M W unit :=
  match held with
  | Some permit => Circuit.permit_cancel inner config shared_at set_shared now_ms permit
  | None => mret tt
  end.

(** [call]: [held.0.take()]. *)
Definition guarded_call {R} (inner_call : M W R) (self : Admission AdmitWait HeldPermit)
    : M W (option (Circuit.Permit * R) * Admission AdmitWait HeldPermit) :=
  call inner_call (fun held => held) self.

(** The end of the response future. *)
Definition guarded_response {R E} (permit : Circuit.Permit) (response : Result R E)
    : M W (Result R (BoxError E)) :=
  match response with
  | Ok response =>
      let! _ := Circuit.permit_success config shared_at set_shared now_ms permit in mret (Ok response)
  | Err error =>
      let! _ := Circuit.permit_failure config shared_at set_shared now_ms permit in mret (Err (InnerError error))
  end.

End Guarded.

Section GuardedAccounts.
Context {W : Type} (i : nat) (l : Limiter W) (config : Circuit.Config) (timeout : option Duration).
Context (shared_at : W -> Circuit.Shared) (set_shared : Circuit.Shared -> W -> W) (now_ms : W -> Z).
Context (instant_now resume_epoch : W -> Z) (instant_max : Z) (rounds : nat).
Abbreviation world := (W * list event)%type.
Abbreviation clock := (fun s : world => instant_now s.1).
Abbreviation epochs := (fun s : world => resume_epoch s.1).
Abbreviation state := (fun s : world => shared_at s.1).
Abbreviation store := (with_ledger set_shared).
Abbreviation millis := (fun s : world => now_ms s.1).
Abbreviation il := (instrument i l).

(** A shed admission owes nothing; a waiting one what its wait has taken. *)
Definition guarded_waits (base : nat -> Z) (f : AdmitWait) (s : world) : Prop :=
  match f with
  | Shed _ => forall who, outstanding s.2 who = base who
  | Ticketed _ f => pending (client_inv i 1 base) f s
  end.

Definition permit_worth (_ : Circuit.Permit) (who : nat) : Z := delta who (Took i 1).
Definition held_worth (held : HeldPermit) (who : nat) : Z :=
  match held with Some p => permit_worth p who | None => 0 end.

(** The breaker's sections keep no units. *)
Lemma moves_locked {A} (f : Circuit.Shared -> A * Circuit.Shared) :
  moves (Circuit.locked state store f) (fun _ _ => 0).
Proof. intros s who. unfold Circuit.locked. destruct (f _). simpl. lia. Qed.

Lemma admit_quiet s : (Circuit.admit_or_shed config state store millis s).2.2 = s.2.
Proof.
  unfold Circuit.admit_or_shed, Circuit.breaker_admit, Circuit.locked. rewrite mthen_run. simpl.
  by destruct (Circuit.admit_as _ _ _ _).
Qed.

Lemma held_permit_moves held : moves (held_permit_drop il config state store millis held) (fun _ who => - held_worth held who).
Proof.
  destruct held as [p|]; simpl; [|by apply moves_ret]. unfold Circuit.permit_cancel.
  apply moves_quiet; [apply moves_locked|]. intros _.
  eapply moves_then; [apply moves_refund|]. intros []. simpl. apply moves_ret. intros who. unfold permit_worth. simpl. lia.
Qed.

Lemma slot_drop_quiet ticket (s : world) : (slot_drop state store ticket s).2.2 = s.2.
Proof. done. Qed.

#[export] Instance guarded_acquires :
  Acquires (guarded_start config timeout state store millis clock instant_max)
    (guarded_poll il state store millis clock epochs rounds) (guarded_cancel il state store)
    (held_permit_drop il config state store millis) guarded_waits held_worth.
Proof.
  pose proof (fun base => client_ownership i 1 (admission_step il) (admission_release il) (paused_for il) base) as HO.
  constructor.
  - intros base s Hs. unfold guarded_start, admit_start. rewrite mthen_run. pose proof (admit_quiet s) as Hq.
    destruct (Circuit.admit_or_shed _ _ _ _ s) as [[ticket|e] s']; simpl in *; intros; [|by rewrite Hq].
    split; [|done]. split; [done|]. intros who. simpl. rewrite Hq, Hs. lia.
  - intros base [e|ticket f] s Hf; [done|]. unfold guarded_poll, acquire_poll, admit_poll. rewrite !mthen_run.
    pose proof (poll_boxed_owned clock epochs _ _ _ others (client_inv i 1 base) rounds f s Hf) as Hp.
    destruct (poll_boxed _ _ _ _ _ rounds f s) as [f' s']. cbn [fst snd] in *.
    destruct (phase (engine f')) as [| |a|r|]; try exact Hp. rewrite mthen_run.
    pose proof (moves_admission_finish i l shared_at set_shared now_ms ticket r s') as Hm.
    destruct (admission_finish il state store millis ticket r s') as [res s''] eqn:Efin. cbn [fst snd mret] in *.
    destruct res as [t|e], r as [[]|e']; [|by destruct e'| |]; intros who; rewrite Hm;
      [| |destruct e']; simpl in Hp; destruct Hp as [_ Hl]; rewrite Hl; cbn; lia.
  - intros base [e|ticket f] s Hf who; [done|]. unfold guarded_cancel, admit_cancel. rewrite mthen_run.
    destruct (drop_boxed_owned (admission_step il) (admission_release il) (paused_for il)
      others (client_inv i 1 base) f s Hf) as [p [_ Hl]].
    change (outstanding (drop_boxed (admission_release il) f s).2.2 who = base who). rewrite Hl. lia.
  - apply held_permit_moves.
  - intros base [e|ticket f] s s' Hf Hs; [intros who; by rewrite Hs|]. by eapply (pending_env clock epochs).
Qed.

End GuardedAccounts.

(** ** Theorems *)

(** C13: The throttling layer keeps exact books through any use of the service,
    whatever else runs: every request that reached the inner service has cost
    its units once, a service that is ready holds the units of one request,
    and dropping it, ready or while it waits, gives back all it has not
    spent. A request sent before the service is ready goes nowhere. *)
Theorem throttled_accounts {W E R : Type} (i : nat) (l : Limiter W) (cost : Z) (timeout : option Duration)
    (instant_now resume_epoch : W -> Z) (instant_max : Z) (rounds : nat)
    (inner_ready : M (W * list event) (option (Result unit E))) (inner_call : M (W * list event) R)
    (s0 s : W * list event) (a : Admission (Waiting Progress) Units) (sent : list Units) (who : nat) :
  (forall s, others s (inner_ready s).2) -> (forall s, others s (inner_call s).2) ->
  let il := instrument i l in
  let clock := fun s : W * list event => instant_now s.1 in
  let requests := Z.of_nat (length sent) in
  serves (wait_start timeout clock instant_max) (wait_poll il cost clock (fun s => resume_epoch s.1) instant_max rounds)
    inner_ready inner_call Some s0 a sent s ->
  outstanding (drop_admission (wait_cancel il cost) (units_drop il cost) a s).2.2 who =
    outstanding s0.2 who + requests * delta who (Took i cost) /\
  match a with
  | Held _ => outstanding s.2 who = outstanding s0.2 who + (requests + 1) * delta who (Took i cost)
  | _ => throttled_call il cost inner_call a s = ((None, a), s)
  end.
Proof.
  intros Hr Hc il clock requests Hs.
  set (worth := fun (u : Units) who => if spent u then 0 else delta who (Took i cost)).
  pose proof (serves_accounted _ _ _ _ _ worth inner_ready inner_call Some worth (fun _ _ => eq_refl) Hr Hc s0 a sent s Hs) as Ha.
  assert (Hgood : match a with Held u => spent u = false | _ => True end /\
    Forall (fun p => exists t, spent t = false /\ Some t = Some p) sent).
  { eapply (serves_good _ _ inner_ready inner_call Some (fun u => spent u = false)); [|exact Hs].
    intros f s1 t. unfold wait_poll. rewrite mthen_run. simpl. destruct (phase _) as [| | |[[]|[]]|]; try done. by intros [= <-]. }
  destruct Hgood as [Hheld Hsent].
  assert (Hsum : sum_with (fun u => worth u who) sent = requests * delta who (Took i cost)).
  { subst requests. clear Ha Hs Hheld. induction Hsent as [|u sent (t & Hu & [= <-]) _ IH]; [done|].
    rewrite sum_with_cons, IH. unfold worth at 1. rewrite Hu. cbn [length]. lia. }
  split.
  - rewrite (accounted_drop (wait_start timeout clock instant_max)
      (wait_poll il cost clock (fun s => resume_epoch s.1) instant_max rounds) _ _ _ _ _ _ _ Ha). by rewrite Hsum.
  - destruct a as [|f|t]; [done..|]. simpl in Ha. rewrite Ha, Hsum. unfold worth. rewrite Hheld. lia.
Qed.

(** The breaker's layer holds one unit of the inner limiter per request sent
    or about to be: whatever the breaker decides, a service that is dropped
    gives back what it has not sent. *)
Theorem guarded_accounts {W E R : Type} (i : nat) (l : Limiter W) (config : Circuit.Config) (timeout : option Duration)
    (shared_at : W -> Circuit.Shared) (set_shared : Circuit.Shared -> W -> W) (now_ms instant_now resume_epoch : W -> Z)
    (instant_max : Z) (rounds : nat)
    (inner_ready : M (W * list event) (option (Result unit E))) (inner_call : M (W * list event) R)
    (s0 s : W * list event) (a : Admission AdmitWait HeldPermit) (sent : list Circuit.Permit) (who : nat) :
  (forall s, others s (inner_ready s).2) -> (forall s, others s (inner_call s).2) ->
  let il := instrument i l in
  let state := fun s : W * list event => shared_at s.1 in
  let millis := fun s : W * list event => now_ms s.1 in
  let clock := fun s : W * list event => instant_now s.1 in
  serves (guarded_start config timeout state (with_ledger set_shared) millis clock instant_max)
    (guarded_poll il state (with_ledger set_shared) millis clock (fun s => resume_epoch s.1) rounds)
    inner_ready inner_call (fun held => held) s0 a sent s ->
  outstanding (drop_admission (guarded_cancel il state (with_ledger set_shared))
    (held_permit_drop il config state (with_ledger set_shared) millis) a s).2.2 who =
    outstanding s0.2 who + Z.of_nat (length sent) * delta who (Took i 1).
Proof.
  intros Hr Hc il state millis clock Hs.
  pose proof (serves_accounted _ _ _ _ _ (held_worth i) inner_ready inner_call (fun held => held) (permit_worth i)
    (fun _ _ => eq_refl) Hr Hc s0 a sent s Hs) as Ha.
  rewrite (accounted_drop (guarded_start config timeout state (with_ledger set_shared) millis clock instant_max)
    (guarded_poll il state (with_ledger set_shared) millis clock (fun s => resume_epoch s.1) rounds) _ _ _ _ _ _ _ Ha).
  f_equal. clear.
  induction sent as [|p sent IH]; [done|]. rewrite sum_with_cons, IH. unfold permit_worth at 1. cbn [length]. lia.
Qed.

(** ** Runs *)

(** Ready, one request, ready again: three units spent, three held. *)
Lemma throttled_accounts_witness :
  let il := instrument 0 (tank false 10) in
  let clock := fun s : tanks * list event => t_clock s.1 in
  let poll := wait_poll il 3 clock (fun s => (fun _ => 0) s.1) 1000 8 in
  let inner_ready := mret (W := tanks * list event) (Some (Ok (T := unit) (E := unit) tt)) in
  let inner_call := mret (W := tanks * list event) tt in
  let s := (mkTanks 0 3 0, [Took 0 3; Took 0 3]) in
  serves (wait_start None clock 1000) poll inner_ready inner_call Some (mkTanks 0 9 0, []) (Held (mkUnits false)) [mkUnits false] s /\
  outstanding s.2 0%nat = 0 + (1 + 1) * 3.
Proof.
  intros il clock poll inner_ready inner_call s.
  assert (Hs : serves (wait_start None clock 1000) poll inner_ready inner_call Some (mkTanks 0 9 0, [])
    (Held (mkUnits false)) [mkUnits false] s).
  { pose (s1 := (mkTanks 0 6 0, [Took 0 3])).
    assert (H1 : serves (wait_start None clock 1000) poll inner_ready inner_call Some (mkTanks 0 9 0, []) (Held (mkUnits false)) [] s1).
    { exact (sv_ready _ _ _ _ _ _ _ _ _ (sv_new _ _ _ _ _ _)). }
    assert (H2 : serves (wait_start None clock 1000) poll inner_ready inner_call Some (mkTanks 0 9 0, []) Idle [mkUnits false] s1).
    { exact (sv_call _ _ _ _ _ _ _ _ _ H1). }
    exact (sv_ready _ _ _ _ _ _ _ _ _ H2). }
  split; [exact Hs|].
  refine (proj2 (throttled_accounts 0 (tank false 10) 3 None t_clock (fun _ => 0) 1000 8 inner_ready inner_call
    (mkTanks 0 9 0, []) s (Held (mkUnits false)) [mkUnits false] 0 _ _ Hs)); by intros.
Defined.
