(* ===== verification/Services.v ===== *)
(** * Services and their stacks (src/src/tower.rs)

    The layers' services as they are put together: each holds its admission
    and the service it wraps, and is a service itself, so that layers stack.
    What a service promises a caller that keeps to the [Service] contract is
    an interface; a layer over a service that keeps it keeps it. *)

From S2P Require Import Prelude Decisions Wait Limiter Compose Boxed Client Calls Tower.
From S2P Require Circuit Hybrid.

(** ** Services *)

(** [poll_ready], [call] (no response: the future that resolves to
    [NotReady]), [clone] and the drop of a service whose state is [S]. *)
Record Service (U S Q X : Type) := mkService {
  svc_ready : S -> M U (S * option (Result unit X));
  svc_call : S -> M U (S * option Q);
  svc_clone : S -> S;
  svc_drop : S -> M U unit }.
Arguments mkService {U S Q X}. Arguments svc_ready {U S Q X}. Arguments svc_call {U S Q X}.
Arguments svc_clone {U S Q X}. Arguments svc_drop {U S Q X}.

(** A service in a world that holds it. *)
Definition in_place {U S A} (m : S -> M U (S * A)) : M (U * S) A := fun us =>
  let '((s, a), u) := m us.2 us.1 in (a, (u, s)).

Section Wrap.
(** The part of the world that the layer's limiter lives in; the layer's own
    books are next to the world of the service it wraps. *)
Context {W U : Type} (get : U -> W) (put : W -> U -> U).
Context {F T : Type} (start : M (W * list event) F) (poll : F -> M (W * list event) (F * option (Result T ThrottleError))).
Context (cancel : F -> M (W * list event) unit) (drop_held : T -> M (W * list event) unit).
Context {S Q P X : Type} (inner : Service U S Q X) (project : T -> option P).
(** What is done with it when the inner service has the request. *)
Context (sent : P -> M (W * list event) unit).

Definition zoom {A} (m : M (W * list event) A) : M (U * list event) A := fun s =>
  let '(a, (w, log)) := m (get s.1, s.2) in (a, (put w s.1, log)).

(** The same, with the inner service in the world. *)
Definition aside {A} (m : M (U * list event) A) : M (U * S * list event) A := fun s =>
  let '(a, (u, log)) := m (s.1.1, s.2) in (a, ((u, s.1.2), log)).

Abbreviation state := (Admission F T * S)%type.

Definition with_inner {A} (m : M (U * S * list event) (Admission F T * A)) (self : state)
    : M (U * list event) (state * A) := fun s =>
  let '((a, r), ((u, i), log)) := m ((s.1, self.2), s.2) in (((a, i), r), (u, log)).

Definition wrapped_ready (self : state) : M (U * list event) (state * option (Result unit (BoxError X))) :=
  with_inner (poll_ready (aside (zoom start)) (fun f => aside (zoom (poll f))) (lift (in_place (svc_ready inner))) self.1) self.

Definition wrapped_call (self : state) : M (U * list event) (state * option (P * option Q)) :=
  with_inner
    (let! (r, a) := Tower.call (lift (in_place (svc_call inner))) project self.1 in
     match r with
     | None => mret (a, None)
     | Some (p, response) => let! _ := aside (zoom (sent p)) in mret (a, Some (p, response))
     end) self.

(** A clone shares the limiter and starts without an admission. *)
Definition wrapped_clone (self : state) : state := (Idle, svc_clone inner self.2).

(** The inner service is dropped first, then the admission. *)
Definition wrapped_drop (self : state) : M (U * list event) unit :=
  let! _ := lift (svc_drop inner self.2) in
  zoom (drop_admission cancel drop_held self.1).

Definition wrapped : Service (U * list event) state (P * option Q) (BoxError X) :=
  mkService wrapped_ready wrapped_call wrapped_clone wrapped_drop.

(** [Layer::layer] *)
Definition layer (inner_service : S) : state := (Idle, inner_service).

End Wrap.

(** *** The services of the layers *)

Section Layers.
Context {W U : Type} (get : U -> W) (put : W -> U -> U) {S Q X : Type} (inner : Service U S Q X).
Context (instant_now resume_epoch : W -> Z) (instant_max : Z) (rounds : nat).
Abbreviation clock := (fun s : W * list event => instant_now s.1).
Abbreviation epochs := (fun s : W * list event => resume_epoch s.1).

Definition Throttled (i : nat) (l : Limiter W) (cost : Z) (timeout : option Duration)
    : Service (U * list event) (Admission (Waiting Progress) Units * S) (Units * option Q) (BoxError X) :=
  wrapped get put (wait_start timeout clock instant_max) (wait_poll (instrument i l) cost clock epochs instant_max rounds)
    (wait_cancel (instrument i l) cost) (units_drop (instrument i l) cost) inner Some (spend (instrument i l) cost).

(** The permit goes with the response. *)
Definition Guarded (i : nat) (l : Limiter W) (config : Circuit.Config)
    (shared_at : W -> Circuit.Shared) (set_shared : Circuit.Shared -> W -> W) (now_ms : W -> Z) (timeout : option Duration)
    : Service (U * list event) (Admission AdmitWait HeldPermit * S) (Circuit.Permit * option Q) (BoxError X) :=
  let state := fun s : W * list event => shared_at s.1 in
  let store := with_ledger set_shared in
  let millis := fun s : W * list event => now_ms s.1 in
  wrapped get put (guarded_start config timeout state store millis clock instant_max)
    (guarded_poll (instrument i l) state store millis clock epochs rounds)
    (guarded_cancel (instrument i l) state store)
    (held_permit_drop (instrument i l) config state store millis) inner (fun held => held) (fun _ => mret tt).
End Layers.

(** ** What a service promises *)

Class Lens {W U : Type} (get : U -> W) (put : W -> U -> U) : Prop := {
  lens_get w u : get (put w u) = w;
  lens_put w w' u : put w (put w' u) = put w u;
  lens_same u : put (get u) u = u }.

#[export] Instance lens_id {W} : Lens (fun w : W => w) (fun w _ => w).
Proof. done. Qed.

#[export] Instance lens_left {W U V} (get : U -> W) put `{!Lens get put} :
  Lens (fun s : U * V => get s.1) (fun w s => (put w s.1, s.2)).
Proof. constructor; intros; [|destruct u..]; simpl; by rewrite ?lens_get, ?lens_put, ?lens_same. Qed.

Definition is_ready {X} (r : option (Result unit X)) : bool :=
  match r with Some (Ok _) => true | _ => false end.

(** A service whose caller calls it only when it has said that it is ready:
    [calls n ready s u] after [n] calls, and [settled n u] when it has been
    dropped. Every call is answered by a response that has [reached] the
    innermost service, whatever the rest of the program does meanwhile to the
    part of the world the limiters live in. *)
Class Keeps {W U S Q X} (put : W -> U -> U) (svc : Service U S Q X)
    (calls : Z -> bool -> S -> U -> Prop) (settled : Z -> U -> Prop) (reached : Q -> Prop) : Prop := {
  keeps_ready n b s u : calls n b s u ->
    let r := svc_ready svc s u in calls n (is_ready r.1.2) r.1.1 r.2;
  keeps_call n s u : calls n true s u ->
    let r := svc_call svc s u in (exists q, r.1.2 = Some q /\ reached q) /\ calls (n + 1) false r.1.1 r.2;
  keeps_drop n b s u : calls n b s u -> settled n (svc_drop svc s u).2;
  keeps_env n b s u w : calls n b s u -> calls n b s (put w u);
  keeps_settled n u w : settled n u -> settled n (put w u) }.

(** *** Layers *)

Section Layer.
Context {W U : Type} (get : U -> W) (put : W -> U -> U) `{!Lens get put}.
Context {F T : Type} (start : M (W * list event) F) (poll : F -> M (W * list event) (F * option (Result T ThrottleError))).
Context (cancel : F -> M (W * list event) unit) (drop_held : T -> M (W * list event) unit).
Context (Waits : (nat -> Z) -> F -> W * list event -> Prop) (gain : T -> nat -> Z).
Context `{HA : !Acquires start poll cancel drop_held Waits gain}.
Context {S Q P X : Type} (inner : Service U S Q X) (project : T -> option P) (sent : P -> M (W * list event) unit).
Context (calls : Z -> bool -> S -> U -> Prop) (settled : Z -> U -> Prop) (reached : Q -> Prop).
Context `{HK : !Keeps put inner calls settled reached}.
(** What the future resolves to is worth one request. *)
Context (worth : nat -> Z) (good : T -> Prop).
Context (made_good : forall f s t, (poll f s).1.2 = Some (Ok t) -> good t).
Context (good_worth : forall t, good t -> (forall who, gain t who = worth who) /\ exists p, project t = Some p).
Context (sent_quiet : forall p s, (sent p s).2.2 = s.2).
Context (base : nat -> Z).

Definition held_good (a : Admission F T) : Prop := match a with Held t => good t | _ => True end.

Definition layer_calls (n : Z) (b : bool) (self : Admission F T * S) (s : U * list event) : Prop :=
  accounted Waits gain (fun who => base who + n * worth who) self.1 (get s.1, s.2) /\ held_good self.1 /\
  (b = true -> exists t, self.1 = Held t) /\
  exists b', (b = true -> b' = true) /\ calls n b' self.2 s.1.

Definition layer_settled (n : Z) (s : U * list event) : Prop :=
  (forall who, outstanding s.2 who = base who + n * worth who) /\ settled n s.1.

Definition layer_reached (r : P * option Q) : Prop := exists q, r.2 = Some q /\ reached q.

Lemma aside_run {A} (m : M (W * list event) A) u (i : S) log :
  aside (zoom get put m) (u, i, log) =
  ((m (get u, log)).1, (put (m (get u, log)).2.1 u, i, (m (get u, log)).2.2)).
Proof. unfold aside, zoom. simpl. by destruct (m (get u, log)) as [a [w log']]. Qed.

(** The acquisition touches its own part of the world. *)
Lemma loop_aside rounds a started u (i : S) log :
  poll_acquire_loop (aside (zoom get put start)) (fun f => aside (zoom get put (poll f))) rounds a started (u, i, log) =
  let '(r, (w, log')) := poll_acquire_loop start poll rounds a started (get u, log) in (r, (put w u, i, log')).
Proof.
  revert a started u log. induction rounds as [|rounds IH]; intros a started u log; simpl; [by rewrite (lens_same (put := put))|].
  destruct a as [|f|t]; [destruct started| |]; simpl; rewrite ?(lens_same (put := put)); try done.
  - rewrite !mthen_run, !aside_run. destruct (start (get u, log)) as [f [w log']]. simpl.
    rewrite IH, (lens_get (put := put)). destruct (poll_acquire_loop _ _ _ _ _ (w, log')) as [r [w' log'']].
    by rewrite (lens_put (get := get)).
  - rewrite !mthen_run, !aside_run. destruct (poll f (get u, log)) as [[f' [[t|e]|]] [w log']]; simpl; [|done..].
    rewrite IH, (lens_get (put := put)). destruct (poll_acquire_loop _ _ _ _ _ (w, log')) as [r [w' log'']].
    by rewrite (lens_put (get := get)).
Qed.

(** A ready answer of the acquisition is an admission held. *)
Lemma loop_held rounds a started s : held_good a ->
  let '((a', r), _) := poll_acquire_loop start poll rounds a started s in
  held_good a' /\ (match r with Some (Ok _) => exists t, a' = Held t | _ => True end).
Proof using made_good.
  revert a started s. induction rounds as [|rounds IH]; intros a started s Ha; simpl; [done|].
  destruct a as [|f|t]; [destruct started; [done|]| |split; [done|by eexists]].
  - rewrite mthen_run. by apply IH.
  - rewrite mthen_run. pose proof (made_good f s) as Hg. destruct (poll f s) as [[f' [[t|e]|]] s']; simpl; [|done..].
    apply IH. by apply Hg.
Qed.

(** An acquisition that the caller runs: the books of the layer, and whether
    it ends with an admission held. *)
Lemma acquire_calls base' a u log : accounted Waits gain base' a (get u, log) -> held_good a ->
  let '((a', r), (w, log')) := poll_acquire start poll a (get u, log) in
  accounted Waits gain base' a' (get (put w u), log') /\ held_good a' /\
  (match r with Some (Ok _) => exists t, a' = Held t | _ => True end).
Proof using HA Lens0 made_good.
  intros Ha Hg. unfold poll_acquire.
  pose proof (accounted_loop start poll cancel drop_held Waits gain base' 3 a false (get u, log) Ha) as Hl.
  pose proof (loop_held 3 a false (get u, log) Hg) as Hh.
  destruct (poll_acquire_loop start poll 3 a false (get u, log)) as [[a' r] [w log']]. rewrite (lens_get (put := put)). by split.
Qed.

#[export] Instance layer_keeps :
  Keeps (fun w s => (put w s.1, s.2)) (wrapped get put start poll cancel drop_held inner project sent)
    layer_calls layer_settled layer_reached.
Proof using HA HK Lens0 good_worth made_good sent_quiet.
  constructor.
  - intros n b [a i] [u log] (Ha & Hg & Hb & b' & Hbb & Hi). simpl in *. unfold wrapped_ready, with_inner, poll_ready. simpl.
    rewrite mthen_run. unfold poll_acquire. rewrite loop_aside.
    pose proof (acquire_calls _ a u log Ha Hg) as Hacq. unfold poll_acquire in Hacq.
    destruct (poll_acquire_loop start poll 3 a false (get u, log)) as [[a' [[[]|e]|]] [w log']]; destruct Hacq as (H1 & H2 & H3); simpl.
    + rewrite mthen_run. unfold lift, in_place. simpl.
      pose proof (keeps_ready (Keeps := HK) n b' i (put w u) (keeps_env (Keeps := HK) n b' i u w Hi)) as Hr.
      destruct (svc_ready inner i (put w u)) as [[i' r] u']. simpl in *. 
      split; [eapply (accounted_env start poll cancel drop_held Waits gain); [exact H1|done]|]. split; [done|]. split; [done|]. exists (is_ready r). split; [|done].
      by destruct r as [[[]|e]|].
    + split; [done|]. split; [done|]. split; [done|]. exists b'. split; [done|]. by apply (keeps_env (Keeps := HK)).
    + split; [done|]. split; [done|]. split; [done|]. exists b'. split; [done|]. by apply (keeps_env (Keeps := HK)).
  - intros n [a i] [u log] (Ha & Hg & Hb & b' & Hbb & Hi). specialize (Hbb eq_refl). subst b'.
    cbn [fst snd] in *. destruct (Hb eq_refl) as [t ->]. simpl in *. destruct (good_worth t Hg) as [Hw [p Hp]].
    unfold wrapped_call, with_inner, Tower.call. simpl. rewrite mthen_run, Hp. simpl. rewrite mthen_run. unfold lift, in_place. simpl.
    pose proof (keeps_call (Keeps := HK) n i u Hi) as [(q & Hq & Hr) Hc].
    destruct (svc_call inner i u) as [[i' q'] u']. simpl in *. subst q'.
    rewrite mthen_run, aside_run. simpl. pose proof (sent_quiet p (get u', log)) as Hs.
    destruct (sent p (get u', log)) as [[] [w log']]. simpl in *. subst log'.
    split; [exists (p, Some q); split; [done|by exists q]|].
    split; [intros who; simpl; rewrite Ha, Hw; lia|]. split; [done|]. split; [done|].
    exists false. split; [done|]. by apply (keeps_env (Keeps := HK)).
  - intros n b [a i] [u log] (Ha & _ & _ & b' & _ & Hi). simpl in *. unfold wrapped_drop, lift, zoom. simpl. rewrite mthen_run. simpl.
    pose proof (keeps_drop (Keeps := HK) n b' i u Hi) as Hd. destruct (svc_drop inner i u) as [[] u']. simpl in *.
    pose proof (accounted_drop start poll cancel drop_held Waits gain _ a (get u', log)
      (accounted_env start poll cancel drop_held Waits gain _ a _ (get u', log) Ha eq_refl)) as Hq.
    destruct (drop_admission cancel drop_held a (get u', log)) as [[] [w log']]. simpl in *.
    split; [exact Hq|]. by apply (keeps_settled (Keeps := HK)).
  - intros n b [a i] [u log] w (Ha & Hg & Hb & b' & Hbb & Hi). simpl in *. split; [|split; [done|split; [done|]]].
    + eapply (accounted_env start poll cancel drop_held Waits gain); [exact Ha|done].
    + exists b'. split; [done|]. by apply (keeps_env (Keeps := HK)).
  - intros n [u log] w [Hl Hs]. split; [done|]. by apply (keeps_settled (Keeps := HK)).
Qed.

End Layer.

(** *** The instances *)

Section Instances.
Context {W U : Type} (get : U -> W) (put : W -> U -> U) `{!Lens get put}.
Context {S Q X : Type} (inner : Service U S Q X).
Context (calls : Z -> bool -> S -> U -> Prop) (settled : Z -> U -> Prop) (reached : Q -> Prop).
Context `{HK : !Keeps put inner calls settled reached}.
Context (instant_now resume_epoch : W -> Z) (instant_max : Z) (rounds i : nat) (l : Limiter W) (timeout : option Duration).
Context (base : nat -> Z).

Lemma units_made cost clock epochs f s u :
  (wait_poll (instrument i l) cost clock epochs instant_max rounds f s).1.2 = Some (Ok u) -> spent u = false.
Proof.
  unfold wait_poll. rewrite mthen_run. simpl. destruct (phase _) as [| | |[[]|[]]|]; try done. by intros [= <-].
Qed.

#[export] Instance throttled_keeps cost :
  Keeps (fun w s => (put w s.1, s.2)) (Throttled get put inner instant_now resume_epoch instant_max rounds i l cost timeout)
    (layer_calls get (fun base => pending (ledger_inv [(i, l, cost)] base))
       (fun u who => if spent u then 0 else delta who (Took i cost)) calls (fun who => delta who (Took i cost))
       (fun u => spent u = false) base)
    (layer_settled settled (fun who => delta who (Took i cost)) base) (layer_reached reached).
Proof.
  apply layer_keeps; try apply _.
  - intros f s u. apply units_made.
  - intros u ->. eauto.
  - intros u s. done.
Qed.

Lemma permit_made sh store clock epochs f (s : W * list event) held (now_ms : W * list event -> Z) :
  (guarded_poll (instrument i l) sh store now_ms clock epochs rounds f s).1.2 = Some (Ok held) -> exists p, held = Some p.
Proof.
  unfold guarded_poll. rewrite mthen_run. destruct (acquire_poll _ _ _ _ _ _ _ f s) as [[f' [[p|e]|]] s']; simpl; try done.
  intros [= <-]. eauto.
Qed.

#[export] Instance guarded_keeps config shared_at set_shared now_ms :
  Keeps (fun w s => (put w s.1, s.2))
    (Guarded get put inner instant_now resume_epoch instant_max rounds i l config shared_at set_shared now_ms timeout)
    (layer_calls get (guarded_waits i) (held_worth i) calls (fun who => delta who (Took i 1))
       (fun held => exists p, held = Some p) base)
    (layer_settled settled (fun who => delta who (Took i 1)) base) (layer_reached reached).
Proof.
  apply layer_keeps; try apply _.
  - intros f s held. apply permit_made.
  - intros held [p ->]. eauto.
  - done.
Qed.

End Instances.

(** *** Callers *)

(** A caller that keeps to the contract, in a program where anything else may
    happen to the limiters' part of the world. *)
Inductive abides {W U S Q X} (put : W -> U -> U) (svc : Service U S Q X) (s0 : S) (u0 : U) : Z -> bool -> S -> U -> Prop :=
  | ab_new : abides put svc s0 u0 0 false s0 u0
  | ab_ready n b s u : abides put svc s0 u0 n b s u ->
      let r := svc_ready svc s u in abides put svc s0 u0 n (is_ready r.1.2) r.1.1 r.2
  | ab_call n s u : abides put svc s0 u0 n true s u ->
      let r := svc_call svc s u in abides put svc s0 u0 (n + 1) false r.1.1 r.2
  | ab_env n b s u w : abides put svc s0 u0 n b s u -> abides put svc s0 u0 n b s (put w u).

Lemma abides_calls {W U S Q X} (put : W -> U -> U) (svc : Service U S Q X) calls settled reached s0 u0 n b s u :
  Keeps put svc calls settled reached -> calls 0 false s0 u0 -> abides put svc s0 u0 n b s u -> calls n b s u.
Proof.
  intros HK H0. induction 1; [done|by eapply (keeps_ready (Keeps := HK))|by apply (keeps_call (Keeps := HK))|].
  by apply (keeps_env (Keeps := HK)).
Qed.

(** ** Theorems *)

Section Stack.
Context {W U : Type} (get : U -> W) (put : W -> U -> U) {S Q X : Type} (inner : Service U S Q X).
Context (instant_now resume_epoch now_ms : W -> Z) (instant_max : Z) (rounds : nat).
Context (i j : nat) (l m : Limiter W) (cost : Z) (timeout timeout' : option Duration).
Context (config : Circuit.Config) (shared_at : W -> Circuit.Shared) (set_shared : Circuit.Shared -> W -> W).

(** [ServiceBuilder::new().layer(ThrottleLayer).layer(CircuitBreakerLayer).service(inner)] *)
Definition guarded_service := Guarded get put inner instant_now resume_epoch instant_max rounds j m config
  shared_at set_shared now_ms timeout'.

Definition stack := Throttled (fun s => get s.1) (fun w s => (put w s.1, s.2)) guarded_service
  instant_now resume_epoch instant_max rounds i l cost timeout.
End Stack.

(** C14: Layers stack. A throttling layer over a breaker's layer over any
    service that keeps its contract, driven by a caller that calls only when
    told that the stack is ready, with anything else going on around the
    limiters: a call never answers [NotReady] but reaches the innermost
    service; each request costs its units once in each layer's books; a stack
    that is ready holds those of one more request in both; a stack that is
    dropped, in whatever state, gives back everything it has not spent. A
    clone holds no admission: called before it is polled, it answers
    [NotReady] and does nothing. *)
Theorem stack_pays_once {W U S Q X : Type} (get : U -> W) (put : W -> U -> U) (inner : Service U S Q X)
    (calls : Z -> bool -> S -> U -> Prop) (settled : Z -> U -> Prop) (reached : Q -> Prop)
    (instant_now resume_epoch now_ms : W -> Z) (instant_max : Z) (rounds i j : nat) (l m : Limiter W) (cost : Z)
    (timeout timeout' : option Duration) (config : Circuit.Config)
    (shared_at : W -> Circuit.Shared) (set_shared : Circuit.Shared -> W -> W)
    (s0 : S) (u0 : U) (log log' : list event) (n : Z) (b : bool)
    (s : Admission (Waiting Progress) Units * (Admission AdmitWait HeldPermit * S)) (u : U * list event * list event) :
  Lens get put -> Keeps put inner calls settled reached -> calls 0 false s0 u0 ->
  let svc := stack get put inner instant_now resume_epoch now_ms instant_max rounds i j l m cost timeout timeout'
    config shared_at set_shared in
  let costs who := delta who (Took i cost) in let costs' who := delta who (Took j 1) in
  abides (fun w s => ((put w s.1.1, s.1.2), s.2)) svc (layer (layer s0)) ((u0, log'), log) n b s u ->
  (b = true ->
    (exists units permit response, (svc_call svc s u).1.2 = Some (units, Some (permit, Some response)) /\ reached response) /\
    (forall who, outstanding u.2 who = outstanding log who + (n + 1) * costs who /\
                 outstanding u.1.2 who = outstanding log' who + (n + 1) * costs' who)) /\
  (let dropped := (svc_drop svc s u).2 in
   settled n dropped.1.1 /\
   forall who, outstanding dropped.2 who = outstanding log who + n * costs who /\
               outstanding dropped.1.2 who = outstanding log' who + n * costs' who) /\
  svc_call svc (svc_clone svc s) u = ((svc_clone svc s, None), u).
Proof.
  intros HL HK H0 svc costs costs' Hs.
  pose proof (guarded_keeps get put inner calls settled reached instant_now resume_epoch instant_max rounds j m timeout'
    (outstanding log') config shared_at set_shared now_ms) as HG.
  pose proof (throttled_keeps (fun s : U * list event => get s.1) (fun w s => (put w s.1, s.2)) _ _ _ _
    instant_now resume_epoch instant_max rounds i l timeout (outstanding log) cost (HK := HG)) as HT.
  eapply abides_calls in Hs as Hc'; [|exact HT|].
  2: { split; [intros who; simpl; lia|]. split; [done|]. split; [done|]. exists false. split; [done|].
    split; [intros who; simpl; lia|]. split; [done|]. split; [done|]. by exists false. }
  destruct s as [a [a' si]], u as [[u lg'] lg].
  split; [|split].
  - intros ->. split.
    + destruct (keeps_call (Keeps := HT) n _ _ Hc') as [([t q] & Hq & q' & Hq' & Hr) _]. simpl in Hq'. subst q.
      destruct q' as [p r]. destruct Hr as (r' & Hr' & Hr). simpl in Hr'. subst r. by exists t, p, r'.
    + destruct Hc' as (Ha & Hg & Hb & b' & Hbb & Ha' & Hg' & Hb' & _). simpl in *. specialize (Hbb eq_refl). subst b'.
      destruct (Hb eq_refl) as [t ->], (Hb' eq_refl) as [t' ->]. simpl in *. destruct Hg' as [p ->]. intros who.
      specialize (Ha who). specialize (Ha' who). simpl in Ha'. rewrite Hg in Ha. unfold costs, costs'.
      simpl. rewrite Ha, Ha'. unfold permit_worth. simpl. split; lia.
  - pose proof (keeps_drop (Keeps := HT) n b _ _ Hc') as [Hd1 [Hd2 Hd3]]. split; [exact Hd3|]. intros who. by split.
  - done.
Qed.

(** ** Runs *)

(** An innermost service that counts the requests it has been sent. *)
Definition counting : Service (guarded * Z) unit Z unit :=
  mkService (fun s u => ((s, Some (Ok tt)), u)) (fun s u => ((s, Some u.2), (u.1, u.2 + 1))) id (fun _ => mret tt).

Definition counting_calls (n : Z) (_ : bool) (_ : unit) (u : guarded * Z) : Prop := u.2 = n /\ 0 <= n.

#[export] Instance counting_keeps :
  Keeps (fun w s => (w, s.2)) counting counting_calls (fun n u => u.2 = n) (fun r => 0 <= r).
Proof.
  constructor; unfold counting_calls; simpl; intros n; intros; try (destruct_and?; done).
  destruct H as [<- Hn]. split; [by exists u.2|lia].
Qed.

(** Ready, one request, ready again: the innermost service has one request,
    each layer has paid for it and holds the units of the next. *)
Lemma stack_pays_once_witness :
  let svc := stack fst (fun w s => (w, s.2)) counting (fun w => t_clock (g_tanks w)) (fun _ => 0) (fun w => t_clock (g_tanks w))
    1000 8 0 1 guarded_tank guarded_tank 3 None None Circuit.two_trials g_shared (fun x w => mkGuarded (g_tanks w) x) in
  exists s u, abides (fun w s => ((w, s.1.1.2), s.1.2, s.2)) svc (layer (layer tt))
      ((mkGuarded (mkTanks 0 9 0) Circuit.Shared_new, 0), [], []) 1 true s u /\
    outstanding u.2 0%nat = 0 + (1 + 1) * 3 /\ outstanding u.1.2 1%nat = 0 + (1 + 1) * 1 /\
    (svc_drop svc s u).2.1.1.2 = 1.
Proof.
  intros svc. pose proof (ab_new (fun w s => ((w, s.1.1.2), s.1.2, s.2)) svc (layer (layer tt))
    ((mkGuarded (mkTanks 0 9 0) Circuit.Shared_new, 0), [], [])) as H.
  pose proof (ab_ready _ _ _ _ _ _ _ _ H) as H1. pose proof (ab_call _ _ _ _ _ _ _ H1) as H2.
  pose proof (ab_ready _ _ _ _ _ _ _ _ H2) as H3. eexists _, _. split; [exact H3|].
  destruct (stack_pays_once fst (fun w s => (w, s.2)) counting counting_calls (fun n u => u.2 = n) (fun r => 0 <= r)
    (fun w => t_clock (g_tanks w)) (fun _ => 0) (fun w => t_clock (g_tanks w)) 1000 8 0 1 guarded_tank guarded_tank 3
    None None Circuit.two_trials g_shared (fun x w => mkGuarded (g_tanks w) x) tt
    (mkGuarded (mkTanks 0 9 0) Circuit.Shared_new, 0) [] [] _ _ _ _
    ltac:(by constructor; intros; [|destruct u..]) counting_keeps ltac:(by split) H3) as (Ha & [Hb _] & _).
  destruct (Ha eq_refl) as [_ Hc]. split; [exact (proj1 (Hc 0%nat))|]. split; [exact (proj2 (Hc 1%nat))|exact Hb].
Defined.
