(* ===== verification/AdaptiveTower.v ===== *)
(** * The adaptive layer (src/src/tower.rs, the waits and permits of adaptive.rs)

    [AdaptiveLayer]: a service that waits for a slot of an adaptive limiter,
    keeps it for its next request, and reports the request's outcome when its
    response ends. Here one call on the limiter or the event is one action;
    Adaptive.v and AdaptiveWait.v take it apart into atomic accesses. *)

From stdpp Require Import gmap fin_maps.
From S2P Require Import Prelude Decisions Event Adaptive Parking Tower.
From S2P Require Resilience.

(** ** Slots *)

(** The limiter's counters and the event its waiters listen to. *)
Record Slots (S E : Type) := mkSlots { limiter : AdaptiveLimiter S; event : E }.
Arguments mkSlots {S E}. Arguments limiter {S E}. Arguments event {S E}.

(** A permit and when its round trip began. *)
Record SlotPermit := mkSlotPermit { started : Z; permit : AdaptivePermit }.

Definition HeldSlot : Type := option SlotPermit.

Section Layer.
Context {S E : Type} `{Event E} (adjust : AdaptiveStrategy S).
Context {W : Type} (get : W -> Slots S E) (put : Slots S E -> W -> W).
(** The limiter's clock and the runtime's. *)
Context (now instant_now : W -> Z).

Definition on_slots {A} (f : Slots S E -> A * Slots S E) : M W A := fun w =>
  let '(a, s) := f (get w) in (a, put s w).

Definition try_reserve_one : M W bool := on_slots (fun s =>
  let '(granted, l) := try_reserve (limiter s) 1 in (granted, mkSlots l (event s))).

Definition event_at (w : W) : E := event (get w).
Definition set_event (e : E) (w : W) : W := put (mkSlots (limiter (get w)) e) w.

Definition permit_new : M W SlotPermit := fun w =>
  (mkSlotPermit (now w) (Permit_new (limiter (get w))), w).

(** [acquire_owned] and [acquire_owned_timeout]. *)
Definition acquire_start : M W SlotWait := mret slot_start.

Definition acquire_poll (timeout : option Duration) (i : nat) (f : SlotWait)
    : M W (SlotWait * option (Result HeldSlot ThrottleError)) :=
  let! (f, r) := slot_poll event_at set_event try_reserve_one instant_now timeout i f in
  match r with
  | None => mret (f, None)
  | Some (Ok _) => let! p := permit_new in mret (f, Some (Ok (Some p)))
  | Some (Err elapsed) => mret (f, Some (Err (Resilience.throttle_error_of elapsed)))
  end.

Definition acquire_drop (i : nat) (f : SlotWait) : M W unit := stop_waiting event_at set_event i f.

(** *** Permits *)

(** [settle] with its notifications: of the slots the limit has grown by,
    and of the one that is freed. *)
Definition settle_slot (outcome : Outcome) (epoch : Z) : M W unit := on_slots (fun s =>
  let l := settle adjust (limiter s) outcome epoch in
  let grown := sat_sub (limit l) (limit (limiter s)) in
  let e := if 0 <? grown then notify_additional (Z.to_nat grown) (event s) else event s in
  (tt, mkSlots l (notify_additional 1 e))).

Definition refund_slots (n : Z) : M W unit := on_slots (fun s =>
  (tt, mkSlots (refund (limiter s) n) (notify_additional (Z.to_nat n) (event s)))).

Definition slot_success (p : SlotPermit) : M W unit := fun w =>
  settle_slot (Success (sat_sub (now w) (started p))) (epoch (permit p)) w.
Definition slot_failure (p : SlotPermit) : M W unit := settle_slot Failure (epoch (permit p)).
Definition slot_cancel (_ : SlotPermit) : M W unit := refund_slots 1.
(** Unsettled. *)
Definition slot_drop (p : SlotPermit) : M W unit := slot_failure p.

Definition restart (p : SlotPermit) (reading : Z) : SlotPermit := mkSlotPermit reading (permit p).

(** *** The service *)

(** [HeldSlot::drop] *)
Definition held_slot_drop (held : HeldSlot) : M W unit :=
  match held with Some p => slot_cancel p | None => mret tt end.

(** [call]: the round trip begins before the inner service has the request. *)
Definition adaptive_call {R} (inner_call : M W R) (self : Admission SlotWait HeldSlot)
    : M W (option (SlotPermit * R) * Admission SlotWait HeldSlot) :=
  let! (r, self) := call (fun w => let '(response, w') := inner_call w in ((now w, response), w')) id self in
  mret (match r with Some (p, (reading, response)) => Some (restart p reading, response) | None => None end, self).

(** The end of the response future, and its drop. *)
Definition adaptive_response {R X} (p : SlotPermit) (response : Result R X) : M W (Result R (BoxError X)) :=
  match response with
  | Ok response => let! _ := slot_success p in mret (Ok response)
  | Err error => let! _ := slot_failure p in mret (Err (InnerError error))
  end.

End Layer.

(** The limiter is shared with any other code that holds it. *)
Record AdaptiveLayer (L : Type) := mkLayer { l_limiter : L; l_timeout : option Duration }.
Arguments mkLayer {L}. Arguments l_limiter {L}. Arguments l_timeout {L}.
Definition new {L} (limiter : L) : AdaptiveLayer L := mkLayer limiter None.
Definition with_timeout {L} (self : AdaptiveLayer L) (timeout : Duration) : AdaptiveLayer L :=
  mkLayer (l_limiter self) (Some timeout).

(** ** What each action does to the slots and the listeners *)

Section Actions.
Context {S E : Type} `{EventLaws E} (adjust : AdaptiveStrategy S).
Context {W : Type} (get : W -> Slots S E) (put : Slots S E -> W -> W) (now instant_now : W -> Z).
Context (get_put : forall s w, get (put s w) = s).
Implicit Types (s : Slots S E).

(** [n] slots are in flight under the ceiling [cap]; waiter [i] is registered
    as [b] says and the others as [dom] does. *)
Record at_slots (i : nat) (b : bool) (n cap : Z) (dom : nat -> Prop) (s : Slots S E) : Prop := mkAt {
  at_bounded : bounded (limiter s);
  at_ceiling : ceiling (limiter s) = cap;
  at_count : in_flight (limiter s) = n;
  at_own : is_Some (listeners (event s) !! i) <-> b = true;
  at_others j : j <> i -> is_Some (listeners (event s) !! j) <-> dom j }.

Lemma notify_domain n e j : is_Some (listeners (notify_additional n e) !! j) <-> is_Some (listeners e !! j).
Proof.
  pose proof (law_notify n e) as Hn. revert Hn. generalize (listeners (notify_additional n e)).
  intros ls Hn. induction Hn as [|m l1 l2 l3 Hp _ IH]; [done|]. rewrite IH. by apply passes_on_domain.
Qed.

Lemma at_notify i b n cap dom s l k : at_slots i b n cap dom (mkSlots l (event s)) ->
  at_slots i b n cap dom (mkSlots l (notify_additional k (event s))).
Proof. intros [H1 H2 H3 H4 H5]. constructor; simpl in *; try done; intros; rewrite notify_domain; auto. Qed.

Lemma at_listen i n cap dom s : at_slots i false n cap dom s ->
  at_slots i true n cap dom (mkSlots (limiter s) (listen i (event s))).
Proof.
  intros [H1 H2 H3 H4 H5].
  assert (Hl : listeners (listen i (event s)) = <[i := false]> (listeners (event s))).
  { apply law_listen. destruct (listeners (event s) !! i) as [b|] eqn:E0; [|done]. destruct H4 as [H4 _].
    discriminate (H4 (mk_is_Some _ _ eq_refl)). }
  constructor; simpl; try done; rewrite Hl.
  - rewrite lookup_insert_eq. split; eauto.
  - intros j Hj. rewrite lookup_insert_ne by done. auto.
Qed.

Lemma at_unlisten i n cap dom s e : at_slots i true n cap dom s ->
  (forall j, is_Some (listeners e !! j) <-> is_Some (delete i (listeners (event s)) !! j)) ->
  at_slots i false n cap dom (mkSlots (limiter s) e).
Proof.
  intros [H1 H2 H3 H4 H5] He. constructor; simpl; try done.
  - rewrite He, lookup_delete_eq. split; [by intros []|done].
  - intros j Hj. rewrite He, lookup_delete_ne by done. auto.
Qed.

Lemma at_drop i n cap dom s : at_slots i true n cap dom s ->
  at_slots i false n cap dom (mkSlots (limiter s) (drop_listener i (event s))).
Proof.
  intros Hs. eapply at_unlisten; [exact Hs|]. intros j. destruct Hs as [_ _ _ [_ Ho] _].
  destruct (Ho eq_refl) as [[] E0].
  - by apply passes_on_domain, law_drop_notified.
  - by rewrite law_drop_idle.
Qed.

Lemma at_consume i n cap dom s : at_slots i true n cap dom s -> listeners (event s) !! i = Some true ->
  at_slots i false n cap dom (mkSlots (limiter s) (consume i (event s))).
Proof. intros Hs E0. eapply at_unlisten; [exact Hs|]. intros j. by rewrite law_consume. Qed.

Lemma at_reserve i b n cap dom s : at_slots i b n cap dom s -> cap <= u32_max ->
  let '(granted, l) := try_reserve (limiter s) 1 in
  at_slots i b (if granted then n + 1 else n) cap dom (mkSlots l (event s)) /\ (n < limit (limiter s) -> granted = true).
Proof.
  intros [[Hf Hl Hi] H2 H3 H4 H5] Hcap. unfold try_reserve, checked_add.
  destruct (Z.leb_spec (in_flight (limiter s) + 1) u32_max); [|split; [by constructor|lia]].
  destruct (Z.ltb_spec (limit (limiter s)) (in_flight (limiter s) + 1)); (split; [|lia]).
  - by constructor.
  - constructor; simpl; try done; [constructor; simpl; lia|lia].
Qed.

Lemma at_settle i b n cap dom s outcome epoch : at_slots i b n cap dom s -> 1 <= n ->
  at_slots i b (n - 1) cap dom (mkSlots (settle adjust (limiter s) outcome epoch) (event s)).
Proof.
  intros [[Hf Hl Hi] H2 H3 H4 H5] Hn.
  assert (Hadj : forall m, let l' := adjust_limit adjust (limiter s) m outcome in
    floor l' = floor (limiter s) /\ ceiling l' = ceiling (limiter s) /\ in_flight l' = in_flight (limiter s) /\
    floor l' <= limit l' <= ceiling l').
  { intros m. unfold adjust_limit. destruct (adjust _ _ _ _) as [proposed st].
    pose proof (clamp_range proposed (floor (limiter s)) (ceiling (limiter s)) ltac:(lia)).
    destruct (_ =? _); simpl; lia. }
  unfold settle. destruct (is_failure outcome && _).
  - constructor; simpl; try done; [constructor; simpl; mlia|mlia].
  - destruct (Hadj (in_flight (limiter s))) as (E1 & E2 & E3 & E4). simpl in *.
    constructor; simpl; try done; [constructor; simpl; rewrite ?E1, ?E2, ?E3 in *; mlia|congruence|rewrite E3; mlia].
Qed.

Lemma at_refund i b n cap dom s : at_slots i b n cap dom s -> 1 <= n ->
  at_slots i b (n - 1) cap dom (mkSlots (refund (limiter s) 1) (event s)).
Proof.
  intros [[Hf Hl Hi] H2 H3 H4 H5] Hn. constructor; simpl; try done; [constructor; simpl; mlia|mlia].
Qed.

(** *** The polls *)

Lemma try_reserve_at i b n cap dom w : at_slots i b n cap dom (get w) -> cap <= u32_max ->
  let '(granted, w') := try_reserve_one get put w in
  at_slots i b (if granted then n + 1 else n) cap dom (get w') /\ (n < limit (limiter (get w)) -> granted = true).
Proof using get_put H0.
  intros Hs Hcap. unfold try_reserve_one, on_slots. pose proof (at_reserve i b n cap dom (get w) Hs Hcap) as Hr.
  destruct (try_reserve (limiter (get w)) 1) as [granted l]. by rewrite get_put.
Qed.

(** Whether a slot is free for a wait that begins now is what it finds. *)
Lemma acquire_poll_at timeout i f n cap dom w : at_slots i (listening f) n cap dom (get w) -> cap <= u32_max ->
  let '((f', r), w') := acquire_poll get put now instant_now timeout i f w in
  match r with
  | Some (Ok (Some _)) => at_slots i false (n + 1) cap dom (get w')
  | Some (Ok None) => False
  | Some (Err _) => at_slots i false n cap dom (get w')
  | None => at_slots i (listening f') n cap dom (get w')
  end /\ (n < limit (limiter (get w)) -> listening f = false -> exists p, r = Some (Ok (Some p))).
Proof using get_put H0.
  intros Hs Hcap. set (free := n < limit (limiter (get w)) /\ listening f = false).
  assert (Hp := slot_poll_rule (event_at get) (set_event get put) (try_reserve_one get put) instant_now i
    (fun v => at_slots i false n cap dom (get v) /\ (free -> n < limit (limiter (get v))))
    (fun v => at_slots i false n cap dom (get v) /\ ~ free) (fun v => at_slots i true n cap dom (get v) /\ ~ free)
    (fun v => at_slots i true (n + 1) cap dom (get v)) (fun v => at_slots i false (n + 1) cap dom (get v))
    (fun v => at_slots i true n cap dom (get v) /\ ~ free) (fun v => at_slots i false n cap dom (get v) /\ ~ free)).
  unfold on_event, set_event, event_at in Hp. cbn [snd] in Hp. setoid_rewrite get_put in Hp.
  refine ((fun Hr => _) (Hp _ _ _ _ _ _ timeout f w _)); clear Hp; [|
    intros v [Hv Hf]; pose proof (try_reserve_at i false n cap dom v Hv Hcap) as Ht;
      destruct (try_reserve_one get put v) as [[] v']; destruct Ht as [Ht Hg]; [done|split; [done|]];
      intros Hx; discriminate (Hg (Hf Hx))
    | intros v [Hv Hf]; split; [by apply at_listen|done]
    | intros v [Hv Hf]; pose proof (try_reserve_at i true n cap dom v Hv Hcap) as Ht;
      destruct (try_reserve_one get put v) as [[] v']; by destruct Ht as [Ht _]
    | intros v Hv; by apply at_drop
    | intros v [Hv Hf] El; split; [by apply at_consume|done]
    | intros v [Hv Hf]; split; [by apply at_drop|done]
    | unfold awaiting; unfold free; destruct (listening f); split; (done || by intros [_ ?]) || by intros [? _]].
  unfold acquire_poll. rewrite mthen_run.
  destruct (slot_poll _ _ _ _ timeout i f w) as [[f' [[u|e]|]] w']; cbn [fst snd mret] in *.
  - rewrite mthen_run. cbn [fst snd mret permit_new]. split; [apply Hr|eauto].
  - destruct Hr as [[Hr Hf] _]. split; [exact Hr|]. intros H1 H2. by destruct Hf.
  - destruct Hr as [-> [Hr Hf]]. split; [exact Hr|]. intros H1 H2. by destruct Hf.
Qed.

Lemma acquire_drop_at i f n cap dom w : at_slots i (listening f) n cap dom (get w) ->
  at_slots i false n cap dom (get (acquire_drop get put i f w).2).
Proof using get_put H0.
  intros Hs. unfold acquire_drop, stop_waiting. destruct (listening f); [|done].
  unfold on_event, set_event. simpl. rewrite get_put. by apply at_drop.
Qed.

Lemma settle_slot_at i b n cap dom w outcome epoch : at_slots i b n cap dom (get w) -> 1 <= n ->
  at_slots i b (n - 1) cap dom (get (settle_slot adjust get put outcome epoch w).2).
Proof using get_put H0.
  intros Hs Hn. unfold settle_slot, on_slots. simpl. rewrite get_put.
  pose proof (at_settle i b n cap dom (get w) outcome epoch Hs Hn) as Hset.
  destruct (0 <? _).
  - apply (at_notify i b (n - 1) cap dom (mkSlots (limiter (get w)) (notify_additional _ (event (get w)))) _ 1).
    by apply (at_notify i b (n - 1) cap dom (get w)).
  - by apply (at_notify i b (n - 1) cap dom (get w)).
Qed.

Lemma refund_slot_at i b n cap dom w : at_slots i b n cap dom (get w) -> 1 <= n ->
  at_slots i b (n - 1) cap dom (get (refund_slots get put 1 w).2).
Proof using get_put H0.
  intros Hs Hn. unfold refund_slots, on_slots. simpl. rewrite get_put.
  by apply (at_notify i b (n - 1) cap dom (get w)), at_refund.
Qed.

End Actions.

(** ** Services over one limiter *)

Section Services.
Context {S E : Type} `{EventLaws E} (adjust : AdaptiveStrategy S).
Context {W : Type} (get : W -> Slots S E) (put : Slots S E -> W -> W) (now instant_now : W -> Z).
Context (get_put : forall s w, get (put s w) = s).
Context (timeout : option Duration).
(** The inner services do not touch the limiter. *)
Context {R X : Type} (inner_ready : M W (option (Result unit X))) (inner_call : M W R).
Context (ready_apart : forall w, get (inner_ready w).2 = get w) (call_apart : forall w, get (inner_call w).2 = get w).
Abbreviation service := (Admission SlotWait HeldSlot).
Abbreviation acquire i := (poll_acquire (acquire_start (W := W)) (acquire_poll get put now instant_now timeout i)).
Abbreviation ready i := (poll_ready (acquire_start (W := W)) (acquire_poll get put now instant_now timeout i) inner_ready).
Abbreviation send := (adaptive_call now inner_call).
Abbreviation discard i := (drop_admission (acquire_drop get put i) (held_slot_drop get put)).

Definition held_units (a : service) : Z := match a with Held (Some _) => 1 | _ => 0 end.
Definition parked (a : service) : bool := match a with Acquiring f => listening f | _ => false end.

(** Services sharing the limiter, the permits of their responses, and the
    slots that other code holds, among anything else. *)
Inductive serving : list service -> list SlotPermit -> Z -> W -> Prop :=
  | srv_new n rest w : bounded (limiter (get w)) -> ceiling (limiter (get w)) <= u32_max ->
      in_flight (limiter (get w)) = rest -> 0 <= rest -> (forall i, (i < n)%nat -> listeners (event (get w)) !! i = None) ->
      serving (replicate n Idle) [] rest w
  | srv_ready svcs sent rest w i a : serving svcs sent rest w -> svcs !! i = Some a ->
      let r := ready i a w in serving (<[i := r.1.1]> svcs) sent rest r.2
  | srv_call svcs sent rest w i a : serving svcs sent rest w -> svcs !! i = Some a ->
      let r := send a w in
      serving (<[i := r.1.2]> svcs) (match r.1.1 with Some (p, _) => p :: sent | None => sent end) rest r.2
  | srv_drop svcs sent rest w i a : serving svcs sent rest w -> svcs !! i = Some a ->
      serving (<[i := Idle]> svcs) sent rest (discard i a w).2
  | srv_response svcs sent rest w j p (response : Result R X) : serving svcs sent rest w -> sent !! j = Some p ->
      serving svcs (delete j sent) rest (adaptive_response adjust get put now p response w).2
  | srv_response_drop svcs sent rest w j p : serving svcs sent rest w -> sent !! j = Some p ->
      serving svcs (delete j sent) rest (slot_drop adjust get put p w).2
  | srv_rest svcs sent rest rest' w w' : serving svcs sent rest w -> 0 <= rest' ->
      bounded (limiter (get w')) -> ceiling (limiter (get w')) = ceiling (limiter (get w)) ->
      in_flight (limiter (get w')) = in_flight (limiter (get w)) - rest + rest' ->
      (forall i, (i < length svcs)%nat ->
         is_Some (listeners (event (get w')) !! i) <-> is_Some (listeners (event (get w)) !! i)) ->
      serving svcs sent rest' w'.

Record exact (svcs : list service) (sent : list SlotPermit) (rest : Z) (w : W) : Prop := mkExact {
  ex_bounded : bounded (limiter (get w));
  ex_ceiling : ceiling (limiter (get w)) <= u32_max;
  ex_rest : 0 <= rest;
  ex_count : in_flight (limiter (get w)) = sum_with held_units svcs + Z.of_nat (length sent) + rest;
  ex_listeners i a : svcs !! i = Some a -> is_Some (listeners (event (get w)) !! i) <-> parked a = true }.

Abbreviation domain w := (fun j => is_Some (listeners (event (get w)) !! j)).
Abbreviation cap w := (ceiling (limiter (get w))).

Lemma exact_at svcs sent rest w i a : exact svcs sent rest w -> svcs !! i = Some a ->
  at_slots i (parked a) (in_flight (limiter (get w))) (cap w) (domain w) (get w).
Proof. intros [H1 H2 _ H3 H4] Hi. constructor; try done. by apply H4. Qed.

(** The action of one service, or of one response, back on the whole. *)
Lemma exact_set svcs sent sent' rest w w' i a a' n :
  exact svcs sent rest w -> svcs !! i = Some a -> at_slots i (parked a') n (cap w) (domain w) (get w') ->
  n + held_units a + Z.of_nat (length sent) = in_flight (limiter (get w)) + held_units a' + Z.of_nat (length sent') ->
  exact (<[i := a']> svcs) sent' rest w'.
Proof.
  intros [H1 H2 Hr H3 H4] Hi [G1 G2 G3 G4 G5] Hn. constructor; [done|by rewrite G2|done| |].
  - rewrite G3, (sum_with_insert held_units svcs i a) by done. lia.
  - intros j b Hj. destruct (decide (j = i)) as [->|Hne].
    + rewrite list_lookup_insert_eq in Hj by (by eapply lookup_lt_Some). by injection Hj as <-.
    + rewrite list_lookup_insert_ne in Hj by done. rewrite G5 by done. by apply H4.
Qed.

Lemma held_units_nonneg svcs : 0 <= sum_with held_units svcs.
Proof. apply sum_with_nonneg, Forall_true. intros [|f|[p|]]; simpl; lia. Qed.

Lemma exact_sent svcs sent rest w w' j p : exact svcs sent rest w -> sent !! j = Some p ->
  (forall i b n dom, at_slots i b n (cap w) dom (get w) -> 1 <= n -> at_slots i b (n - 1) (cap w) dom (get w')) ->
  exact svcs (delete j sent) rest w'.
Proof.
  intros [H1 H2 Hr H3 H4] Hj Hstep. pose proof (lookup_lt_Some _ _ _ Hj) as Hlt. pose proof (held_units_nonneg svcs).
  assert (Hall : forall i, at_slots i (bool_decide (is_Some (listeners (event (get w)) !! i)))
    (in_flight (limiter (get w)) - 1) (cap w) (domain w) (get w')).
  { intros i. apply Hstep; [|lia]. constructor; try done. by rewrite bool_decide_eq_true. }
  destruct (Hall 0%nat) as [G1 G2 G3 _ _].
  constructor; [done|by rewrite G2|done| |].
  - rewrite G3, H3, length_delete by eauto. lia.
  - intros i a Hi. rewrite <- (H4 i a Hi). destruct (Hall i) as [_ _ _ G4 _]. by rewrite G4, bool_decide_eq_true.
Qed.

(** *** What a service does *)

Lemma acquire_at i a m c dom w :
  at_slots i (parked a) (m + held_units a) c dom (get w) -> c <= u32_max ->
  let r := acquire i a w in
  at_slots i (parked r.1.1) (m + held_units r.1.1) c dom (get r.2) /\
  (a = Idle -> m < limit (limiter (get w)) -> exists p, r.1 = (Held (Some p), Some (Ok tt))).
Proof using get_put H0.
  intros Hs Hc r. subst r.
  assert (Hpoll : forall rounds f started w, at_slots i (listening f) m c dom (get w) ->
    let r := poll_acquire_loop (acquire_start (W := W)) (acquire_poll get put now instant_now timeout i) (Datatypes.S (Datatypes.S rounds)) (Acquiring f) started w in
    at_slots i (parked r.1.1) (m + held_units r.1.1) c dom (get r.2) /\
    (m < limit (limiter (get w)) -> listening f = false -> exists p, r.1 = (Held (Some p), Some (Ok tt)))).
  { intros rounds f started v Hv r. subst r. cbn [poll_acquire_loop]. rewrite mthen_run.
    pose proof (acquire_poll_at get put now instant_now get_put timeout i f m c dom v Hv Hc) as Hp.
    destruct (acquire_poll get put now instant_now timeout i f v) as [[f' [[[p|]|e]|]] v']; cbn [fst snd mret]; destruct Hp as [Hp Hfree].
    - split; [exact Hp|eauto].
    - done.
    - split; [simpl; by rewrite Z.add_0_r|]. intros Hn Hl. destruct (Hfree Hn Hl) as [p [=]].
    - split; [simpl; by rewrite Z.add_0_r|]. intros Hn Hl. destruct (Hfree Hn Hl) as [p [=]]. }
  unfold poll_acquire. destruct a as [|f|t].
  - cbn [poll_acquire_loop]. rewrite mthen_run. simpl in Hs. rewrite Z.add_0_r in Hs.
    destruct (Hpoll 0%nat (mkSlotWait false None) true w Hs) as [H1 H2]. split; [exact H1|]. intros _ Hn. by apply H2.
  - simpl in Hs. rewrite Z.add_0_r in Hs. destruct (Hpoll 1%nat f false w Hs) as [H1 _]. split; [exact H1|done].
  - split; [exact Hs|done].
Qed.

Lemma ready_at i a m c dom w :
  at_slots i (parked a) (m + held_units a) c dom (get w) -> c <= u32_max ->
  let r := ready i a w in at_slots i (parked r.1.1) (m + held_units r.1.1) c dom (get r.2).
Proof using get_put H0 ready_apart.
  intros Hs Hc r. subst r. unfold poll_ready. rewrite mthen_run. destruct (acquire_at i a m c dom w Hs Hc) as [Ha _].
  destruct (acquire i a w) as [[a' [[u|e]|]] w']; cbn [fst snd] in *; [|done..].
  rewrite mthen_run. cbn [fst snd mret]. by rewrite ready_apart.
Qed.

Lemma serving_exact svcs sent rest w : serving svcs sent rest w -> exact svcs sent rest w.
Proof using get_put H0 ready_apart call_apart.
  induction 1 as [n rest w Hb Hu Hf Hr Hl|svcs sent rest w i a _ IH Hi r|svcs sent rest w i a _ IH Hi r|svcs sent rest w i a _ IH Hi
    |svcs sent rest w j p response _ IH Hj|svcs sent rest w j p _ IH Hj|svcs sent rest rest' w w' _ IH Hr Hb Hc Hf Hl].
  - constructor; [done..| |].
    + rewrite Hf. assert (Hz : sum_with held_units (replicate n Idle) = 0).
      { clear. induction n as [|n IH]; [done|]. simpl. by rewrite sum_with_cons, IH. }
      rewrite Hz. simpl. lia.
    + intros i a Hi. apply lookup_replicate in Hi as [-> Hi]. rewrite (Hl i Hi). split; [by intros []|done].
  - pose proof (exact_at _ _ _ _ _ _ IH Hi) as Hs.
    replace (in_flight (limiter (get w))) with (in_flight (limiter (get w)) - held_units a + held_units a) in Hs by lia.
    pose proof (ready_at i a _ _ _ w Hs (ex_ceiling _ _ _ _ IH)) as Hr. eapply exact_set; [exact IH|exact Hi|exact Hr|]. fold r. lia.
  - pose proof (exact_at _ _ _ _ _ _ IH Hi) as Hs. subst r. unfold adaptive_call, call, take.
    destruct a as [|f|[p|]]; cbn [id].
    + eapply exact_set; [exact IH|exact Hi|exact Hs|simpl; lia].
    + eapply exact_set; [exact IH|exact Hi|exact Hs|simpl; lia].
    + rewrite mthen_run. cbn [id]. pose proof (call_apart w) as Hw.
      assert (Hw' : get (let '(response, w') := inner_call w in (now w, response, w')).2 = get w) by by destruct (inner_call w).
      rewrite mthen_run. destruct (let '(response, w') := inner_call w in (now w, response, w')) as [[reading response] w'].
      cbn [fst snd mret] in *. eapply (exact_set _ _ _ _ _ _ i _ Idle); [exact IH|exact Hi|rewrite Hw'; exact Hs|simpl; lia].
    + eapply (exact_set _ _ _ _ _ _ i _ Idle); [exact IH|exact Hi|exact Hs|simpl; lia].
  - pose proof (exact_at _ _ _ _ _ _ IH Hi) as Hs. pose proof (held_units_nonneg svcs) as Hnn.
    destruct a as [|f|[p|]]; cbn [drop_admission held_slot_drop].
    + eapply exact_set; [exact IH|exact Hi|exact Hs|simpl; lia].
    + eapply exact_set; [exact IH|exact Hi|by apply acquire_drop_at|simpl; lia].
    + pose proof (sum_with_bound held_units svcs i (Held (Some p)) ltac:(intros [|g|[q|]]; simpl; lia) Hi) as Hbound. simpl in Hbound.
      eapply exact_set; [exact IH|exact Hi|apply refund_slot_at; [done|exact Hs|]|simpl; lia].
      destruct IH as [_ _ Hrest Hcount _]. lia.
    + eapply exact_set; [exact IH|exact Hi|exact Hs|simpl; lia].
  - eapply exact_sent; [exact IH|exact Hj|]. intros i b n dom Hs Hn. destruct response; unfold adaptive_response; rewrite mthen_run;
      by apply settle_slot_at.
  - eapply exact_sent; [exact IH|exact Hj|]. intros i b n dom Hs Hn. by apply settle_slot_at.
  - destruct IH as [H1 H2 H3 H4 H5]. constructor; [done|by rewrite Hc|done|lia|].
    intros i a Hi. rewrite <- (H5 i a Hi). apply Hl. by eapply lookup_lt_Some.
Qed.

End Services.

(** ** Properties *)

(** C7: Any number of services over one adaptive limiter, each made ready, sent
    requests, left or dropped at any point, with responses that succeed, fail
    or are dropped, and with other code taking slots of its own: the slots in
    flight are exactly the services that are ready, the requests under way
    and what the other code holds, within the ceiling whatever the strategy
    does to the limit; a listener is registered exactly for each service that
    sleeps for a slot; and while a slot is free an idle service gets one at
    once. *)
Theorem adaptive_layer_exact {S E : Type} `{EventLaws E} (adjust : AdaptiveStrategy S)
    {W R X : Type} (get : W -> Slots S E) (put : Slots S E -> W -> W) (now instant_now : W -> Z) (timeout : option Duration)
    (inner_ready : M W (option (Result unit X))) (inner_call : M W R)
    (svcs : list (Admission SlotWait HeldSlot)) (sent : list SlotPermit) (rest : Z) (w : W) :
  (forall s w, get (put s w) = s) -> (forall w, get (inner_ready w).2 = get w) -> (forall w, get (inner_call w).2 = get w) ->
  serving adjust get put now instant_now timeout inner_ready inner_call svcs sent rest w ->
  let l := limiter (get w) in
  in_flight l = sum_with held_units svcs + Z.of_nat (length sent) + rest /\
  floor l <= limit l <= ceiling l /\ in_flight l <= ceiling l /\
  (forall i a, svcs !! i = Some a -> is_Some (listeners (event (get w)) !! i) <-> parked a = true) /\
  (forall i, svcs !! i = Some Idle -> in_flight l < limit l ->
     exists p, (poll_acquire acquire_start (acquire_poll get put now instant_now timeout i) Idle w).1 = (Held (Some p), Some (Ok tt))).
Proof.
  intros Hgp Hr Hc Hx l.
  pose proof (serving_exact adjust get put now instant_now Hgp timeout inner_ready inner_call Hr Hc svcs sent rest w Hx) as Hex.
  split; [apply Hex|]. destruct (ex_bounded _ _ _ _ _ Hex) as [H1 H2 H3]. split; [done|]. split; [apply H3|].
  split; [apply Hex|]. intros i Hi Hfree. pose proof (exact_at _ _ _ _ _ _ _ Hex Hi) as Hs.
  refine (proj2 (acquire_at get put now instant_now Hgp timeout i Idle (in_flight l) _ _ w _ (ex_ceiling _ _ _ _ _ Hex)) eq_refl Hfree).
  simpl held_units. by rewrite Z.add_0_r.
Qed.

(** One slot, two services: the first is ready and sends its request, the
    second sleeps; then the response ends. *)
Lemma adaptive_layer_exact_witness :
  let put s (_ : Slots Aimd (gmap nat bool)) := s in
  let one := mkSlots (Adaptive.new half 1 1 1) (∅ : gmap nat bool) in
  let serving := serving aimd_adjust id put (fun _ => 0) (fun _ => 0) None (mret (Some (Ok tt))) (mret 7) (R := Z) (X := unit) in
  exists busy done_ w w', serving busy [mkSlotPermit 0 (Adaptive.mkPermit 0 false)] 0 w /\ serving done_ [] 0 w' /\
    in_flight (limiter w) = 0 + 1 + 0 /\ listeners (event w) !! 1%nat = Some false /\
    in_flight (limiter w') = 0 /\ listeners (event w') !! 1%nat = Some true.
Proof.
  intros put one serving.
  assert (H0 : serving [Idle; Idle] [] 0 one).
  { by apply (srv_new _ id put _ _ None _ _ 2 0 one); try apply bounded_new. }
  pose proof (srv_ready _ _ _ _ _ _ _ _ _ _ _ _ 0 _ H0 eq_refl) as H1.
  pose proof (srv_ready _ _ _ _ _ _ _ _ _ _ _ _ 1 _ H1 eq_refl) as H2.
  pose proof (srv_call _ _ _ _ _ _ _ _ _ _ _ _ 0 _ H2 eq_refl) as H3.
  pose proof (srv_response _ _ _ _ _ _ _ _ _ _ _ _ 0 _ (Ok 7) H3 eq_refl) as H4.
  eexists _, _, _, _. split; [exact H3|]. split; [exact H4|].
  destruct (adaptive_layer_exact aimd_adjust id put (fun _ => 0) (fun _ => 0) None (mret (Some (Ok tt))) (mret 7) _ _ 0 _
    ltac:(done) ltac:(done) ltac:(done) H3) as [Hc _].
  split; [exact Hc|]. split; [vm_compute; reflexivity|].
  destruct (adaptive_layer_exact aimd_adjust id put (fun _ => 0) (fun _ => 0) None (mret (Some (Ok tt))) (mret 7) _ _ 0 _
    ltac:(done) ltac:(done) ltac:(done) H4) as [Hc4 _].
  split; [exact Hc4|]. vm_compute. reflexivity.
Defined.
