(* ===== verification/Reports.v ===== *)
(** * What the limiters report (the calls of obs.rs in src/src/throttle.rs, sliding.rs, perkey.rs, hybrid.rs, layered.rs, multi.rs, adaptive.rs, bulkhead.rs, circuit.rs, retry.rs)

    Each limiter's attempts and waits with their reports around them, under
    the kind its file names. Reporting changes no answer and no state. *)

From stdpp Require Import strings gmap.
From S2P Require Import Prelude Decisions Float64 Limiter Wait Boxed Compose Client Parking Obs Event.
From S2P Require Bucket Throttle Sliding SlidingWait Hybrid Layered Multi PerKey Adaptive AdaptiveTower Acquire PerKeyWait.
From S2P Require BulkheadCalls Circuit Calls Gauges Backoff Retry.

(** ** The limiters that wait in the engine *)

Section Engine.
Context {W : Type} (features : Features) (instant_now resume_epoch : W -> Z) (instant_max : Z) (rounds : nat).
Abbreviation world := (W * list Emission)%type.

(** A limiter's [wait(cost, timeout)] with its report: the future and how it
    is polled. *)
Definition reported {T} (kind : string) (label : Label) (cost : Z) (c : Acquire.Call W T)
    : Watched (Acquire.Future T) *
      (Watched (Acquire.Future T) -> M world (Watched (Acquire.Future T) * option (Result unit ThrottleError))) :=
  (Unstarted c.2,
   watched_poll features instant_now kind label cost (Acquire.poll_future instant_now resume_epoch instant_max rounds c.1)).

Section Throttle.
Context {B : Type} `{Bucket.Bucket B} (get : W -> Throttle.Throttle B) (put : Throttle.Throttle B -> W -> W) (clock : W -> Z).
Definition throttle_kind : string := "throttle".
Definition throttle_try_acquire (label : Label) (cost : Z) : M world bool :=
  attempted features throttle_kind label cost
    (Throttle.on_throttle get put clock (fun t now => Throttle.try_acquire_with_cost t cost now)).
Definition throttle_wait (capacity : Z) (label : Label) (cost : Z) (timeout : option Duration) :=
  reported throttle_kind label cost (Acquire.OnThrottle.wait get put clock capacity cost timeout).
End Throttle.

Section Sliding.
Context (get : W -> Sliding.SlidingWindowLog) (put : Sliding.SlidingWindowLog -> W -> W) (now_ns : W -> Z).
Definition sliding_kind : string := "sliding_window".
Definition sliding_try_acquire (label : Label) (cost : Z) : M world bool :=
  attempted features sliding_kind label cost
    (SlidingWait.on_log get put now_ns (fun log now => Sliding.try_acquire_with_cost log now cost)).
Definition sliding_wait (limit : Z) (label : Label) (cost : Z) (timeout : option Duration) :=
  reported sliding_kind label cost (Acquire.OnSliding.wait get put now_ns limit cost timeout).
End Sliding.

Definition hybrid_kind : string := "hybrid".
Definition hybrid_try_acquire (self : Hybrid.Hybrid W) (label : Label) (cost : Z) : M world bool :=
  attempted features hybrid_kind label cost (Hybrid.try_acquire_with_cost self cost).
Definition hybrid_wait (self : Hybrid.Hybrid W) (label : Label) (cost : Z) (timeout : option Duration) :=
  reported hybrid_kind label cost (Acquire.OnHybrid.wait instant_now instant_max self cost timeout).

Definition layered_kind : string := "layered".
Definition layered_try_acquire {K E} (self : Layered.Layered W K E) (label : Label) (key : K) (endpoint : E) (cost : Z) : M world bool :=
  attempted features layered_kind label cost (Layered.try_acquire_with_cost self key endpoint cost).
Definition layered_wait {K E} (self : Layered.Layered W K E) (label : Label) (key : K) (endpoint : E) (cost : Z) (timeout : option Duration) :=
  reported layered_kind label cost (Acquire.OnLayered.wait instant_now instant_max self key endpoint cost timeout).

Section PerKey.
Context {T : Type} `{HashTable.HashTable T} {K : Type} `{EqDecision K} {B : Type} `{Bucket.Bucket B} `{!Bucket.BucketCore B}.
Context (hash_one : K -> Z) (get : W -> PerKey.PerKey T K B) (put : PerKey.PerKey T K B -> W -> W) (clock : W -> Z).
Definition perkey_kind : string := "per_key".
Definition perkey_try_acquire (label : Label) (key : K) (cost : Z) : M world bool :=
  attempted features perkey_kind label cost
    (PerKeyWait.on_perkey get put clock false (fun self now => PerKey.try_acquire_with_cost hash_one self key cost now)).
Definition perkey_wait (capacity : Z) (label : Label) (key : K) (cost : Z) (timeout : option Duration) :=
  reported perkey_kind label cost (PerKeyWait.wait hash_one get put clock capacity key cost timeout).
End PerKey.

(** One call, whatever its shares. *)
Definition multi_kind : string := "multi".
Definition multi_try_acquire (self : Multi.MultiLimiter W) (label : Label) (cs : Multi.costs) : M world bool :=
  attempted features multi_kind label 1 (Multi.try_acquire_costs self cs).
Definition multi_wait (self : Multi.MultiLimiter W) (label : Label) (cs : Multi.costs) (timeout : option Duration) :=
  reported multi_kind label 1 (Acquire.OnMulti.wait instant_now instant_max self cs timeout).

End Engine.

(** ** Adaptive slots *)

Section Adaptive.
Context {S E : Type} `{Event E} {W : Type} (features : Features) (instant_now now : W -> Z).
Context (get : W -> AdaptiveTower.Slots S E) (put : AdaptiveTower.Slots S E -> W -> W).
Definition adaptive_kind : string := "adaptive".

Definition adaptive_try_acquire (label : Label) : M (W * list Emission) (option AdaptiveTower.SlotPermit) :=
  let! granted := attempted features adaptive_kind label 1 (AdaptiveTower.try_reserve_one get put) in
  if granted : bool
  then let! p := unrecorded (AdaptiveTower.permit_new get now) in mret (Some p)
  else mret None.

Definition adaptive_wait (label : Label) (timeout : option Duration) (i : nat) :=
  watched_poll features instant_now adaptive_kind label 1 (AdaptiveTower.acquire_poll get put now instant_now timeout i).
End Adaptive.

(** ** The bulkhead *)

Section Bulkhead.
Context {E : Type} `{Event E} (limit : Z) {W : Type} (features : Features) (instant_now : W -> Z) (label : Label).
Context (get : W -> BulkheadCalls.Bulkhead E) (put : BulkheadCalls.Bulkhead E -> W -> W).
Abbreviation world := (W * list Emission)%type.
Definition bulkhead_kind : string := "bulkhead".

(** [Bulkhead::report]: a refusal without waiting is shed. *)
Definition bulkhead_report (taken : bool) : M world unit :=
  if taken then granted features bulkhead_kind label 1 else shed features bulkhead_kind label.

Definition bulkhead_try_acquire : M world (option BulkheadCalls.BulkheadPermit) :=
  let! taken := unrecorded (BulkheadCalls.try_take limit get put) in
  let! _ := bulkhead_report taken in
  mret (if taken : bool then Some BulkheadCalls.Permit else None).

(** [wait]: nothing is timed or reported when the limit is zero. *)
Definition bulkhead_wait (timeout : option Duration) (i : nat) (f : option (Watched SlotWait))
    : M world (option (Watched SlotWait) * option (Result unit ThrottleError)) :=
  let waiting f :=
    let! (f, r) := slot_poll (BulkheadCalls.event_at get) (BulkheadCalls.set_event get put)
                     (BulkheadCalls.try_take limit get put) instant_now timeout i f in
    mret (f, match r with
             | None => None
             | Some (Ok _) => Some (Ok tt)
             | Some (Err _) => Some (Err BulkheadFull)
             end) in
  let poll f :=
    let! (f, r) := watched_poll features instant_now bulkhead_kind label 1 waiting f in mret (Some f, r) in
  match f with
  | None => if limit =? 0 then mret (None, Some (Err (CostExceedsCapacity 1 0))) else poll (Unstarted slot_start)
  | Some f => poll f
  end.

End Bulkhead.

(** ** The circuit breaker *)

Section Breaker.
Context {W : Type} (inner : Limiter W) (config : Circuit.Config) (features : Features) (label : Label).
Context (shared_at : W -> Circuit.Shared) (set_shared : Circuit.Shared -> W -> W) (now_ms : W -> Z).
Context (instant_now resume_epoch : W -> Z) (instant_max : Z) (rounds : nat).
Abbreviation world := (W * list Emission)%type.
Abbreviation abort := (fun ticket via_trait => unrecorded (Circuit.breaker_abort shared_at set_shared ticket via_trait)).

(** One critical section of Gauges.v, where the breaker's state lives. *)
Definition at_breaker {A} (m : Z -> M (Circuit.Shared * list Emission) A) : M world A := fun s =>
  let '(a, (sh, log)) := m (now_ms s.1) (shared_at s.1, s.2) in (a, (set_shared sh s.1, log)).

Definition breaker_try_admit : M world (Result (option Circuit.Ticket) ThrottleError) :=
  let! r := at_breaker (Gauges.Breaker.admit_or_shed features label config) in
  match r with
  | Err e => mret (Err e)
  | Ok ticket =>
      let! d := unrecorded (acquire_cost inner 1) in
      match d with
      | Acquired => let! _ := granted features Gauges.Breaker.KIND label 1 in mret (Ok (Some ticket))
      | Retry _ =>
          let! _ := abort ticket false in
          let! _ := denied features Gauges.Breaker.KIND label in mret (Ok None)
      | Impossible => let! _ := abort ticket false in mret (Err (CostExceedsCapacity 1 (capacity inner)))
      end
  end.

(** The [Limiter] implementation's. *)
Definition breaker_acquire (cost : Z) : M world Decision :=
  let! r := at_breaker (fun now => Gauges.Breaker.admit_as features label config now true) in
  match r with
  | Err after => let! _ := shed features Gauges.Breaker.KIND label in mret (Retry after)
  | Ok ticket =>
      let! decision := unrecorded (acquire_cost inner cost) in
      let! _ := if is_acquired decision then mret tt else abort ticket true in
      mret decision
  end.

(** [admit_waiting]: what is shed at once has no wait to report. *)
Inductive AdmitReported := ShedAtOnce (error : ThrottleError) | Timed (timer : Timer) (ticket : Circuit.Ticket) (f : Waiting unit).

Definition admit_reported_start (timeout : option Duration) : M world AdmitReported :=
  let! timer := timer_start features instant_now in
  let! r := at_breaker (Gauges.Breaker.admit_or_shed features label config) in
  match r with
  | Err error => mret (ShedAtOnce error)
  | Ok ticket => let! f := unrecorded (start_boxed instant_now instant_max timeout tt) in mret (Timed timer ticket f)
  end.

Definition finish_reported (ticket : Circuit.Ticket) (r : Result unit Refusal) : M world (Result Circuit.Ticket ThrottleError) :=
  let slot_drop := unrecorded (slot_drop shared_at set_shared ticket) in
  match r with
  | Err RefusalNever => let! _ := slot_drop in mret (Err (CostExceedsCapacity 1 (capacity inner)))
  | Err RefusalTimedOut => let! _ := slot_drop in mret (Err DeadlineExceeded)
  | Ok _ => fun s =>
      match Circuit.still_admits (shared_at s.1) (now_ms s.1) ticket with
      | Ok _ => (Ok ticket, s)
      | Err retry_after =>
          (let! _ := unrecorded (refund inner 1) in
           let! _ := abort ticket false in
           let! _ := shed features Gauges.Breaker.KIND label in
           mret (Err (CircuitOpen retry_after))) s
      end
  end.

Definition admit_reported_poll (f : AdmitReported) : M world (AdmitReported * option (Result Circuit.Ticket ThrottleError)) :=
  match f with
  | ShedAtOnce error => mret (ShedAtOnce error, Some (Err error))
  | Timed timer ticket f =>
      let! f := unrecorded (poll_boxed instant_now resume_epoch (admission_step inner) (admission_release inner)
                  (paused_for inner) rounds f) in
      match phase (engine f) with
      | Done r =>
          let! r := finish_reported ticket r in
          let! _ := waited features instant_now Gauges.Breaker.KIND label timer 1 (waited_of r) in
          mret (Timed timer ticket f, Some r)
      | _ => mret (Timed timer ticket f, None)
      end
  end.

End Breaker.

(** ** Retries *)

Section Retry.
Import Retry Backoff.
Context {W T E : Type} (features : Features) (label : Label).
Context (operation : M W (Result T E)) (classify : E -> RetryAction).
Context (sleep : Duration -> M W unit) (instant_now : W -> Z) (withdraw : option (M W bool)) (self : Retry).
Abbreviation world := (W * list Emission)%type.

Fixpoint drive_reported_loop (fuel : nat) (delays : BackoffIter) (attempt : Z) (elapsed : Duration)
    : M world (option (Result T E)) :=
  match fuel with
  | O => mret None
  | S fuel => fun s =>
      let started := instant_now s.1 in
      (let! outcome := unrecorded operation in fun s =>
       let elapsed := dur_sat_add elapsed (sat_sub (instant_now s.1) started) in
       match outcome with
       | Ok value => (Some (Ok value), s)
       | Err error =>
           if max_attempts self <=? attempt then (Some (Err error), s)
           else
             let '(delay, delays) := choose self (classify error) delays in
             match delay with
             | None => (Some (Err error), s)
             | Some delay =>
                 if over_elapsed self elapsed delay then (Some (Err error), s)
                 else
                   (let! granted := match withdraw with Some m => unrecorded m | None => mret true end in
                    if negb granted then
                      let! _ := retry_budget_exhausted features label in mret (Some (Err error))
                    else
                      let! _ := retried features label attempt delay in
                      let! _ := unrecorded (sleep delay) in
                      drive_reported_loop fuel delays (attempt + 1) (dur_sat_add elapsed delay)) s
             end
       end) s
  end.

Definition drive_reported (entropy : Z) : M world (option (Result T E)) :=
  drive_reported_loop (Z.to_nat (max_attempts self)) (iter (backoff self) entropy) 1 DURATION_ZERO.

End Retry.

(** ** Properties *)

(** What is inside the wait, and whether a result has been counted as one
    that ran out of time. *)
Definition unwatched (f : option (Watched SlotWait)) : option SlotWait := inner <$> f.

(** The bulkhead's reports change no answer; but its waits that run into
    their timeout answer [BulkheadFull], which is not counted as a timeout:
    [throttle_timeouts_total] never moves, whatever its waits do. *)
Theorem bulkhead_timeouts_uncounted {E : Type} `{Event E} (limit : Z) {W : Type} (features : Features) (instant_now : W -> Z)
    (label : Label) (get : W -> BulkheadCalls.Bulkhead E) (put : BulkheadCalls.Bulkhead E -> W -> W)
    (timeout : option Duration) (i : nat) (f : option (Watched SlotWait)) (w : W) (log : list Emission) (labels : list (string * string)) :
  let r := bulkhead_wait limit features instant_now label get put timeout i f (w, log) in
  let p := BulkheadCalls.wait_poll limit get put instant_now timeout i (unwatched f) w in
  unwatched r.1.1 = p.1.1 /\ r.1.2 = p.1.2 /\ r.2.1 = p.2 /\
  counter "throttle_timeouts_total" labels r.2.2 = counter "throttle_timeouts_total" labels log.
Proof.
  unfold bulkhead_wait, BulkheadCalls.wait_poll.
  set (waiting := fun f => let! (f, r) := slot_poll _ _ _ _ _ _ f in _).
  assert (Hpoll : forall g,
    let r := (let! (f, r) := watched_poll features instant_now bulkhead_kind label 1 waiting g in mret (Some f, r)) (w, log) in
    let p := waiting (inner g) w in
    unwatched r.1.1 = Some p.1.1 /\ r.1.2 = p.1.2 /\ r.2.1 = p.2 /\
    counter "throttle_timeouts_total" labels r.2.2 = counter "throttle_timeouts_total" labels log).
  { intros g. rewrite mthen_run. pose proof (watched_poll_run features instant_now bulkhead_kind label 1 waiting g (w, log)) as Hr.
    destruct (watched_poll _ _ _ _ _ waiting g (w, log)) as [[g' r] [w' log']]. simpl in *.
    destruct Hr as (H1 & H2 & H3 & es & -> & He). rewrite H1. split_and!; [done..|].
    rewrite counter_app. assert (Hend : counter "throttle_timeouts_total" labels es = 0); [|lia].
    destruct r as [result|]; [|by subst es]. destruct He as [sample ->].
    assert (Hres : waited_of result <> TimedOut).
    { unfold waiting in H2. rewrite mthen_run in H2. destruct (slot_poll _ _ _ _ _ _ _ w) as [[g'' [[u|e]|]] w'']; simpl in H2; by simplify_eq. }
    unfold waited_entries. destruct (waited_of result); [|by destruct Hres|]; destruct (metrics features), (tracing features);
      unfold counter, sum_with; simpl; repeat case_bool_decide; (lia || naive_solver). }
  assert (Hwait : forall g, (let! (f, r) := slot_poll (BulkheadCalls.event_at get) (BulkheadCalls.set_event get put)
                     (BulkheadCalls.try_take limit get put) instant_now timeout i g in
    mret (Some f, match r with
                  | None => None
                  | Some (Ok _) => Some (Ok tt)
                  | Some (Err _) => Some (Err BulkheadFull)
                  end)) w = ((Some (waiting g w).1.1, (waiting g w).1.2), (waiting g w).2)).
  { intros g. unfold waiting. rewrite !mthen_run. by destruct (slot_poll _ _ _ _ _ _ g w) as [[g' r] w']. }
  destruct f as [g|]; simpl; [rewrite Hwait; apply Hpoll|].
  destruct (limit =? 0); [done|]. rewrite Hwait. apply (Hpoll (Unstarted slot_start)).
Qed.

Lemma unrecorded_run {W A} (m : M W A) (s : W * list Emission) : unrecorded m s = ((m s.1).1, ((m s.1).2, s.2)).
Proof. unfold unrecorded. by destruct (m s.1). Qed.

(** *** The breaker *)

Section BreakerReports.
Context (config : Circuit.Config) (features : Features) (label : Label).
Abbreviation mine := (by_kind Gauges.Breaker.KIND label).

(** The state machine moves no counter. *)
Lemma counter_told metric labels from to log :
  counter metric labels (Gauges.Breaker.told features label from to log) = counter metric labels log.
Proof.
  unfold Gauges.Breaker.told, circuit_state, when, emit. rewrite mthen_run.
  destruct (metrics features), (tracing features), from; simpl; rewrite ?counter_app; unfold counter, sum_with; simpl; lia.
Qed.

Lemma counter_admit metric labels now via_trait s :
  counter metric labels (Gauges.Breaker.admit_as features label config now via_trait s).2.2 = counter metric labels s.2.
Proof.
  unfold Gauges.Breaker.admit_as, Gauges.Breaker.admit_locked. rewrite mthen_run.
  destruct (Circuit.state s.1); simpl.
  - by destruct via_trait.
  - destruct (_ <=? _); [|done]. rewrite !mthen_run, Gauges.Breaker.transition_run. simpl.
    destruct via_trait; rewrite mthen_run; simpl; by rewrite counter_told.
  - destruct (_ <? _); [|done]. rewrite mthen_run. simpl. by destruct via_trait.
Qed.

Lemma shed_writes {V} : writes (W := V) (shed features Gauges.Breaker.KIND label) (fun _ =>
  ((if metrics features then [Increment "throttle_shed_total" mine 1] else []) ++
   (if tracing features then [Obs.Event DEBUG [("limiter", Text Gauges.Breaker.KIND); ("name", Text (as_str label))] "shed"] else []))%list).
Proof.
  intros [v log]. unfold shed, when, emit. rewrite mthen_run.
  destruct (metrics features), (tracing features); simpl; unfold mret; by rewrite ?app_nil_r, <- ?app_assoc.
Qed.

(** What a non-waiting attempt counts as. *)
Definition counted {A} (r : Result (option A) ThrottleError) (metric : string) : Z :=
  match r with
  | Ok (Some _) => if bool_decide (metric = "throttle_acquired_total"%string) then 1 else 0
  | Ok None => if bool_decide (metric = "throttle_denied_total"%string) then 1 else 0
  | Err (CircuitOpen _) => if bool_decide (metric = "throttle_shed_total"%string) then 1 else 0
  | Err _ => 0
  end.

Lemma admit_or_shed_counted now sh log : metrics features = true -> Gauges.Breaker.shows features label (sh, log) ->
  let r := Gauges.Breaker.admit_or_shed features label config now (sh, log) in
  let p := Circuit.admit_ config sh now in
  r.1 = match p.1 with Ok ticket => Ok ticket | Err after => Err (CircuitOpen after) end /\ r.2.1 = p.2 /\
  forall metric, counter metric mine r.2.2 = counter metric mine log +
    match r.1 with
    | Ok _ => 0
    | Err _ => if bool_decide (metric = "throttle_shed_total"%string) then 1 else 0
    end.
Proof.
  intros Hm Hw. unfold Gauges.Breaker.admit_or_shed, Circuit.admit_. rewrite mthen_run.
  destruct (Gauges.Breaker.follows_admit_as features label config now false _ Hw) as (H1 & H2 & _).
  pose proof (fun metric => counter_admit metric mine now false (sh, log)) as H3. simpl in H1, H2.
  destruct (Gauges.Breaker.admit_as features label config now false (sh, log)) as [t [sh' log']].
  destruct (Circuit.admit_as config sh now false) as [t' sh'']. simpl in *. subst t' sh''.
  destruct t as [ticket|after]; simpl; [split_and!; [done..|]; intros metric; rewrite H3; lia|].
  rewrite mthen_run, shed_writes. simpl. split_and!; [done..|]. intros metric. rewrite ?shed_writes. simpl. rewrite Hm, counter_app, H3. f_equal.
  unfold counter, sum_with. destruct (tracing features); simpl; repeat case_bool_decide; (lia || naive_solver).
Qed.

End BreakerReports.

(** A breaker's attempts are counted as granted, denied or shed, each once;
    one that the limiter can never grant is not counted. The reports change
    neither the answer nor the state, as long as the gauge has been right. *)
Theorem breaker_attempts_counted {W : Type} (inner : Limiter W) (config : Circuit.Config) (features : Features) (label : Label)
    (shared_at : W -> Circuit.Shared) (set_shared : Circuit.Shared -> W -> W) (now_ms : W -> Z) (w : W) (log : list Emission) :
  metrics features = true -> Gauges.Breaker.shows features label (shared_at w, log) ->
  let r := breaker_try_admit inner config features label shared_at set_shared now_ms (w, log) in
  let p := Circuit.try_admit inner config shared_at set_shared now_ms w in
  r.1 = p.1 /\ r.2.1 = p.2 /\
  forall metric, counter metric (by_kind Gauges.Breaker.KIND label) r.2.2 =
    counter metric (by_kind Gauges.Breaker.KIND label) log + counted r.1 metric.
Proof.
  intros Hm Hw r p. subst r p.
  unfold breaker_try_admit, Circuit.try_admit, Circuit.admit_or_shed, Circuit.breaker_admit, Circuit.locked. rewrite !mthen_run.
  unfold at_breaker. simpl. destruct (admit_or_shed_counted config features label (now_ms w) _ _ Hm Hw) as (H1 & H2 & H3).
  unfold Circuit.admit_ in H1, H2.
  destruct (Gauges.Breaker.admit_or_shed features label config (now_ms w) (shared_at w, log)) as [t [sh log']].
  destruct (Circuit.admit_as config (shared_at w) (now_ms w) false) as [t' sh']. simpl in *. subst t sh'.
  destruct t' as [ticket|after]; simpl in *; [|done].
  rewrite !mthen_run, unrecorded_run. simpl. destruct (acquire_cost inner 1 (set_shared sh w)) as [[|after|] w']; simpl.
  - rewrite mthen_run. change (granted features) with (fun k l c => attempt (W := W) features k l c true). cbv beta.
    rewrite !attempt_writes. simpl. split_and!; [done..|]. intros metric. unfold attempt_entries. rewrite Hm, counter_app, H3.
    unfold counter, sum_with. destruct (tracing features); simpl; repeat case_bool_decide; (lia || naive_solver).
  - rewrite !mthen_run. simpl. change (denied features) with (fun k l => attempt (W := W) features k l 1 false). cbv beta.
    rewrite !attempt_writes. simpl. split_and!; [done..|]. intros metric. unfold attempt_entries. rewrite Hm, counter_app, H3.
    unfold counter, sum_with. destruct (tracing features); simpl; repeat case_bool_decide; (lia || naive_solver).
  - split_and!; [done..|]. intros metric. rewrite H3. lia.
Qed.

(** *** Retries *)

Abbreviation retries label := (counter "throttle_retries_total" (by_name label)).

Lemma counter_snoc metric labels log e : counter metric labels (log ++ [e])%list = counter metric labels log +
  match e with Increment m l n => if bool_decide (m = metric /\ l = labels) then n else 0 | _ => 0 end.
Proof. rewrite counter_app. f_equal. apply sum_with_singleton. Qed.

Lemma retried_counted {W} features label attempt delay (s : W * list Emission) : metrics features = true ->
  exists log, retried features label attempt delay s = (tt, (s.1, log)) /\ retries label log = retries label s.2 + 1.
Proof.
  intros Hm. unfold retried, when, emit. rewrite Hm, mthen_run.
  destruct (tracing features); eexists; (split; [done|]); simpl; rewrite !counter_snoc, bool_decide_eq_true_2 by done; lia.
Qed.

Lemma exhausted_counted {W} features label (s : W * list Emission) :
  exists log, retry_budget_exhausted features label s = (tt, (s.1, log)) /\ retries label log = retries label s.2.
Proof.
  destruct s as [w l]. unfold retry_budget_exhausted, when, emit. rewrite mthen_run.
  destruct (metrics features), (tracing features); eexists; (split; [done|]); simpl; rewrite ?counter_snoc;
    try case_bool_decide; (lia || naive_solver).
Qed.

Section RetryReports.
Context {W T E : Type} (features : Features) (label : Label) (op : M W (Result T E)) (classify : E -> Retry.RetryAction).
Context (nap : Duration -> M W unit) (now : W -> Z) (ask : option (M W bool)) (self : Retry.Retry).
(** A count of the sleeps. *)
Context (naps : W -> Z) (Hop : forall w, naps (op w).2 = naps w) (Hnap : forall d w, naps (nap d w).2 = naps w + 1).
Context (Hask : forall m w, ask = Some m -> naps (m w).2 = naps w) (Hm : metrics features = true).

Lemma drive_loop_counted fuel it attempt elapsed w log :
  let r := drive_reported_loop features label op classify nap now ask self fuel it attempt elapsed (w, log) in
  let p := Retry.drive_loop op classify nap now ask self fuel it attempt elapsed w in
  r.1 = p.1 /\ r.2.1 = p.2 /\ retries label r.2.2 - retries label log = naps p.2 - naps w.
Proof using Hop Hnap Hask Hm.
  revert it attempt elapsed w log. induction fuel as [|fuel IH]; intros it attempt elapsed w log; simpl; [split_and!; [done..|lia]|].
  rewrite !mthen_run, unrecorded_run. cbv zeta. simpl. specialize (Hop w).
  destruct (op w) as [[value|error] w1]; simpl in *; [split_and!; [done..|lia]|].
  destruct (_ <=? _); simpl; [split_and!; [done..|lia]|].
  destruct (Retry.choose self (classify error) it) as [[d|] it']; simpl; [|split_and!; [done..|lia]].
  destruct (Retry.over_elapsed _ _ _); simpl; [split_and!; [done..|lia]|]. rewrite !mthen_run.
  assert (Hgrant : exists g w2, match ask with Some m => m | None => mret true end w1 = (g, w2) /\
    match ask with Some m => unrecorded m | None => mret true end (w1, log) = (g, (w2, log)) /\ naps w2 = naps w1).
  { destruct ask as [m|]; [|by eexists _, _]. specialize (Hask m w1 eq_refl). exists (m w1).1, (m w1).2. rewrite unrecorded_run.
    split; [by destruct (m w1)|]. by split. }
  destruct Hgrant as (g & w2 & -> & -> & Hw2). destruct g; simpl; rewrite !mthen_run.
  - destruct (retried_counted features label attempt d (w2, log) Hm) as (log' & -> & Hlog). simpl. rewrite unrecorded_run. simpl.
    specialize (Hnap d w2). destruct (nap d w2) as [[] w3]. simpl in *.
    match goal with |- context[drive_reported_loop _ _ _ _ _ _ _ _ fuel it' ?k ?e (w3, log')] => destruct (IH it' k e w3 log') as (H1 & H2 & H3) end.
    split; [exact H1|]. split; [exact H2|]. lia.
  - destruct (exhausted_counted features label (w2, log)) as (log' & -> & Hlog). simpl in *. split_and!; [done..|lia].
Qed.

End RetryReports.

(** The retries counter moves by one for every time the loop sleeps between
    two attempts, and the reports change nothing else: [naps] counts the
    sleeps in the log of Retry.v. *)
Theorem retries_counted {W T E : Type} (features : Features) (label : Label) (operation : M W (Result T E))
    (classify : E -> Retry.RetryAction) (sleep : Duration -> M W unit) (instant_now : W -> Z) (withdraw : option (M W bool))
    (self : Retry.Retry) (entropy : Z) (s : W * list Retry.retry_event) (log : list Emission) :
  metrics features = true ->
  let op := Retry.logged_operation operation instant_now in
  let nap := Retry.logged_sleep sleep in
  let now := Retry.logged_now instant_now in
  let ask := Retry.logged_withdraw <$> withdraw in
  let r := drive_reported features label op classify nap now ask self entropy (s, log) in
  let p := Retry.drive op classify nap now ask self entropy s in
  r.1 = p.1 /\ r.2.1 = p.2 /\ retries label r.2.2 - retries label log = Retry.naps p.2.2 - Retry.naps s.2.
Proof.
  intros Hm op nap now ask.
  apply (drive_loop_counted features label op classify nap now ask self (fun s => Retry.naps s.2)); [..|done].
  - intros s0. unfold op. rewrite Retry.logged_operation_run. unfold Retry.naps. simpl. rewrite sum_with_app, sum_with_singleton. lia.
  - intros d s0. unfold nap. rewrite Retry.logged_sleep_run. unfold Retry.naps. simpl. by rewrite sum_with_app, sum_with_singleton.
  - intros m s0 Hask. unfold ask in Hask. destruct withdraw as [m0|]; [|done]. injection Hask as <-.
    rewrite Retry.logged_withdraw_run. simpl. destruct (m0 s0.1).1; [|done]. unfold Retry.naps. rewrite sum_with_app, sum_with_singleton. lia.
Qed.
